(* ===== verification/_CoqProject ===== *)
-Q . S2P
Prelude.v
Text.v
Json.v
RecursiveExecution.v
RecursiveTreeProps.v
RecursiveInvariants.v
RecursiveLedger.v
RecursiveTerminal.v
RecursiveTheorems.v
TreeMoves.v
Persistence.v
PersistenceProps.v
PersistenceTheorems.v
TreeStore.v
TreeStoreProps.v
TreeHistory.v
TreeBooks.v
TreeStorable.v
TreeCompletion.v
TreeStoreTheorems.v
Float64.v
Graph.v
DagManager.v
DagCycle.v
DagProps.v
DagQueries.v
DagTheorems.v
Orchestration.v
ResolverProps.v
GraphOps.v
EngineProps.v
DecomposerProps.v
OrchestrationTheorems.v
CircuitBreaker.v
BreakerAccess.v
Concurrency.v
RateLimiter.v
ProviderRetry.v
RunQueue.v
Auth.v
Gateway.v
NodeExecution.v
WorkflowRuns.v
WorkflowFrames.v
WorkflowProps.v
WorkflowSteps.v
WorkflowProgress.v
JsonCodec.v
WorkflowTheorems.v
WorkflowRetry.v
TokenBudget.v
RunGraph.v
RunGraphProps.v
RunGraphTheorems.v
SchedulerShape.v
RunHistories.v
AgentMemory.v
AgentRuntime.v
AgentActions.v
AgentProps.v
AgentEffects.v
AgentRace.v
AgentStep.v
AgentExecute.v
AgentStepProps.v
AgentSystem.v
AgentChild.v
AgentDemo.v
AgentTheorems.v
