(* ===== verification/Prelude.v ===== *)
(** * Verification of the agent-control-plane engine

    A model of the deterministic core of the engine crate (engine/src) and the
    theorems that make it correct.  The engine plans work as graphs of tasks,
    lets agents delegate bounded subtasks as trees, drives workflows of agent
    nodes and protects provider calls.  Paths below are relative to engine/src.

    ** Parts of the program and the files that model them

    - Recursive execution (recursive_execution.rs).  A tree of delegated tasks
      with bounded depth, fan-out, budget and leases.  RecursiveExecution has the
      records [RecursiveTree], [RecursiveNode], [RecursiveBudget] and one
      definition for each operation of [RecursiveTree] that changes it; an
      operation on [&mut self] returns its result and the tree it leaves behind.
      RecursiveTreeProps has the lemmas for each operation, RecursiveInvariants
      the step relation [tree_step], the reachable trees and their invariant
      (shape, accounts, leases), RecursiveLedger the abstract usage ledger the
      tree implements, RecursiveTerminal the closing of trees,
      RecursiveTheorems the properties.
    - Persistence of trees (storage/local_product_store/recursive_execution.rs).
      Persistence has the validation that every stored and loaded tree goes
      through; PersistenceProps inverts it, PersistenceTheorems has what
      acceptance guarantees.  TreeMoves has what operations keep of a tree and
      how its version moves.  TreeStore has the tables as the record [database],
      a state and error monad [store] with transactions, and one definition for
      each handler: a load, tree operations, a save with a version check, audits
      and the closing of workflow rows.  TreeStoreProps has the frames of the handlers,
      TreeHistory the step relation [store_step] of any interleaving of them,
      TreeBooks, TreeStorable and TreeCompletion when the result of an operation
      can be stored again, TreeStoreTheorems the properties.
    - DAG manager (workflow/dag_manager).  DagManager has the task graph, its six
      mutations, history, rollback, compensation and queries; DagCycle the
      iterative cycle search, DagProps the invariant under mutation, DagQueries
      the topological order and the path search, DagTheorems the properties.
    - Orchestration (orchestration, runtime.rs).  Orchestration has a Module for
      each component: DependencyResolver, WorkQueue, AgentRoleRegistry,
      FixtureRuntime, TaskDecomposer, ConflictResolver, HumanApprovalGate,
      MultiAgentBudgetManager, ResultAggregator, and WorkflowEngine that calls
      them.  ResolverProps, EngineProps and DecomposerProps have the lemmas,
      OrchestrationTheorems the properties.
    - Graph interface (workflow/graph_operations.rs).  GraphOps has the trait
      [GraphOperations] as a class, its contract as the class [LawfulGraph] and
      the instances for the DAG manager and the resolver; the client theorem is
      proved from the laws.
    - Circuit breaker (infrastructure/circuit_breaker.rs and
      provider/circuit_breaker_provider.rs).  CircuitBreaker has the operations
      as whole steps, the three-state automaton and the simulation;
      BreakerAccess the single accesses to atomics they are made of, and their
      interleavings.
    - Workflow controls.  Concurrency (workflow/concurrency) has the conflict
      analysis and the batches of parallel work, RateLimiter
      (infrastructure/rate_limiter) the sliding window, ProviderRetry
      (provider/retry and provider/cost_gate) the retry loop, RunQueue
      (workflow/run_queue and workflow/backpressure) the order, admission and
      backpressure of queued runs.
    - Access.  Auth (infrastructure/auth.rs) has tenants, keys and the resolution
      of a token; Gateway (http_server/middleware.rs) the gate every request
      passes, composed of Auth and RateLimiter, and the calendar dates.
    - Node results (node_executor.rs and the parts of storage/local_product_store/
      workflow_runs.rs that judge them).  NodeExecution has process outcomes,
      retryability, the token budget of managed executions, the usage and the
      identity of recursive nodes.  TokenBudget has the budget over all attempts.
    - Workflow runs (storage/local_product_store/workflow_runs.rs and
      queue_lease.rs).  WorkflowRuns has the two transactions of a tick
      ([lease_ready_node], [record_result]) with all they call, the tick, the
      recovery of stale leases and the requests of operators, on the tables of
      TreeStore and calling its handlers.  WorkflowFrames has what each operation
      leaves alone, WorkflowProps the exact effect of a lease and of the
      propagation of failures, WorkflowSteps the step relation [sched_step] and
      the invariants of interleavings, WorkflowProgress the measure by which a
      run ends, WorkflowTheorems and WorkflowRetry the properties.
    - Graphs of runs (workflow_runs/dag_mutations.rs).  RunGraph has the
      operations on the stored nodes and edges of a run, the batch that checks
      every proposal with a DAG manager loaded from the rows, and the replay of
      the event log; RunGraphProps relates the rows to the manager,
      RunGraphTheorems has the properties.  SchedulerShape shows that ticks,
      recoveries and requests leave the graphs of all runs sound, RunHistories
      has runs that are scheduled and mutated in any order.
    - Agents (node_executor.rs, agent_memory.rs, provider/redaction.rs,
      orchestration/schemas.rs and storage/local_product_store/agent_runtime.rs,
      agent_action_receipts.rs).  AgentMemory has redaction and the memory
      digests; AgentRuntime the tables as the record [agent_db] around
      [database], the monad [agent_op], and the operations on agents, mailbox and
      proposals; AgentActions the transaction [apply_agent_action_once] with its
      ten operations and its receipt; AgentStep the actions, their validation
      and the authority of the node an agent works on; AgentExecute what each
      action prepares and the whole step [execute_node].  AgentProps has the
      logic [keeps] of what operations preserve and the fate of records,
      AgentEffects the trees and graphs under actions and the step relation
      [agent_step], AgentRace the action that comes too late, AgentStepProps
      what a prepared action stores, AgentSystem the step and the interleaving
      [system_step] of schedulers, operators and agents, AgentChild the way of a
      child from proposal to execution, AgentDemo a run with two agents,
      AgentTheorems the properties.

    Shared: this file (results, record update, machine integers, stable sorting,
    ordered and hash maps), Text (strings and UTF-8), Json (what the code reads
    of JSON values), JsonCodec (a concrete JSON text format for the examples),
    Float64 (binary64 arithmetic and formatting), Graph (cycles and Kahn's
    algorithm).

    ** What the theorems show

    - Trees: every tree any sequence of operations can reach has the bounded
      shape, never escalates authority, stays within its budget while it runs,
      and has an exact lease index; terminal states are absorbing; usage is
      charged once per receipt, as an abstract ledger; admissions reserve
      exactly what they grant and happen once per proposal; switches fail
      closed; closing a tree fails exactly the right nodes and gives the right
      verdict.
    - Stored trees: acceptance implies shape, authority, conservation of the
      budget and exact leases, for any input; whatever the handlers do in any
      order, every stored tree stays acceptable, no update is lost, authority
      never grows, a kill stops every node, and a completion within the budget
      of a tree in good order can be stored.
    - Runs: a lease is only taken where the graph, the owner and the caps allow
      it; the caps hold under every interleaving; the result of a superseded
      attempt is ignored, unless a batch removed the node in between; failures block exactly the nodes behind them; a
      run ends after a bounded number of ticks with the right verdict; ended
      nodes stay ended; the scheduler changes trees only by steps of the tree
      store.  Tokens of managed executions stay within their limit over all
      attempts.
    - Graphs of runs: a batch of mutations leaves exactly the graph the DAG
      manager decides on, keeps the rows of started nodes, touches nothing
      outside the run, and the mutated run still ends.
    - Agents: an action takes effect once, whatever happens between two attempts;
      every interleaving of schedulers, operators and agents, whose actions are
      prepared before others act and applied after, is a history of the tree
      store and keeps the graphs of runs sound; an admitted child lands in the
      tree, the run and the proposals, and a child that lost the race in none;
      what an agent writes about a child is what store and executor check; below
      the root agents keep to the authority of their node; the actions offered
      are those that are authorised; receipts and decisions are final, though the
      context summary of a proposal is not.
    - Access: only a live key opens the gate, with the scopes stored for it,
      which are within those of its tenant if they were checked against them and
      the tenant is restricted; under a positive limit its requests are counted.
    - Controls: batches hold no conflicting work and respect the graph, the
      limiter keeps its window while it has a bucket for every key, retries end, backpressure switches with
      hysteresis.
    - Graphs: both cycle searches are exact and terminate, mutations are atomic
      and keep every graph valid, rollback restores, orders and waves are
      topological and as early as possible, results do not depend on hash
      order, and running a valid graph in its order never blocks.
    - Workflows: creation gives valid graphs, a tick starts exactly the ready
      nodes and settles the workflow by one verdict, cancellation finishes
      everything, registry counts are exact.
    - Breaker: operations that do not overlap are answered as by the automaton;
      and also when they overlap no call is rejected before the threshold.
    - Some theorems state behaviour that departs from what the code or its
      documentation means to do: approvals that are never granted or never
      recorded, workflows that never settle or stall, compensations that do not
      undo, reservations that do not add up, a forged root that validates, a
      half-open breaker that takes two successes, a retry of a recursive node
      that is announced and never taken, fix nodes that are blocked by the
      failure they should fix, leases that expire when the clock is set back, a
      mutation that resets the status of a completed node.  Examples show what
      the conditions of other theorems exclude: a node that is removed and added
      again takes an old result, a full limiter forgets a key, overlapping
      operations close a breaker that has just reopened, a loaded key exceeds its
      tenant.

    ** Modelling choices

    Integers are [Z]; arithmetic wraps or saturates where the code does.  A
    [BTreeMap] is a [gmap] visited in key order.  The order of a [HashMap] is a
    parameter, any permutation of its entries ([HashOrder]), where it is
    observable.  Panics and running out of fuel are [None], and the theorems
    prove that neither happens.  Fuel: the cycle search of the DAG manager has
    one step for every node and every edge, and one more; the recursive searches
    have one level for every node, and one more; Kahn's loops and the walk to a
    node's ancestors have one step for every node; the choice of a node to lease
    and the propagation of failures have one round for every row, and one more;
    the year loop of a date one for every 365 days, and one more.  Each bound is
    proved sufficient.
    SHA-256, serde_json, the Unicode tables, the order of rows without [ORDER BY]
    ([RowOrder], [TableOrder]), regular expressions, serde's encoding of an
    action, clocks and the environment are arguments or classes with no assumption
    beyond what is stated; every property with such a parameter has an instance
    it was run with.

    The reads of one agent action see one state of the database, its
    transaction a later one.  Version arithmetic of trees assumes fewer than 2^24
    proposals in a tree and, between two uses of a version, fewer than 2^38 calls.

    ** What is not modelled

    PostgreSQL twins of the SQLite statements, the constraints of the schema that
    validation implies, and failures of the database itself; the creation and import of runs, prompts and context of a node,
    scorecards and feedback after a tick; HTTP parsing, subprocesses, files and
    the user interface, which are effects outside of the program's state;
    reporting, statistics and scoring, which decide nothing the modelled parts
    rely on; provider adapters; the executor pool, a registry of processes behind
    locks; the reconciliation of provider usage and the checkpoints of runs, which
    keep tables of their own.  Of workflow and infrastructure only the parts named
    above. *)

From stdpp Require Export prelude strings gmap list sorting pretty.

(** ** Results

    Rust's [Result<A, E>], with the error type first. *)

Inductive result (E A : Type) : Type :=
  | Ok (a : A)
  | Err (e : E).
Arguments Ok {E A} a.
Arguments Err {E A} e.

Declare Scope rust_scope.
Delimit Scope rust_scope with rust.
Open Scope rust_scope.

(** [x <-? e ;; k] is Rust's [let x = e?; k]. *)
Notation "x '<-?' e ;; k" :=
  (match e with Ok x => k | Err err => Err err end)
  (at level 100, e at next level, right associativity) : rust_scope.

(** [bail b with r ;; k] is Rust's [if b { return r; } k]. *)
Notation "'bail' b 'with' r ;; k" := (if b then r else k)
  (at level 100, b at next level, r at next level, right associativity,
   only parsing) : rust_scope.

Definition is_ok {E A} (r : result E A) : bool :=
  match r with Ok _ => true | Err _ => false end.

Definition ok_or {E A} (o : option A) (e : E) : result E A :=
  match o with Some a => Ok a | None => Err e end.

Definition is_none {A} (o : option A) : bool :=
  match o with Some _ => false | None => true end.

Definition is_some {A} (o : option A) : bool := negb (is_none o).

(** ** Record update

    [r <| f := v |>] is Rust's [R { f: v, ..r }] and, for a [&mut] value, the
    assignment [r.f = v].  A record type gets it from an [Eta] instance, its
    eta expansion. *)

Class Eta (R : Type) := eta : R → R.
Class Setter {R T : Type} (proj : R → T) := upd : (T → T) → R → R.

Ltac build_setter proj :=
  lazymatch goal with
  | |- @Setter ?R ?T _ =>
    let f := fresh "f" in let r := fresh "r" in
    refine (fun (f : T → T) (r : R) => _);
    let e := eval hnf in (eta r) in
    let p := eval pattern (proj r) in e in
    lazymatch p with
    | ?body _ => let t := eval cbv beta in (body (f (proj r))) in exact t
    end
  end.

#[export] Hint Extern 0 (Setter ?proj) => build_setter proj : typeclass_instances.

Notation "r '<|' proj ':=' v '|>'" := (upd (proj := proj) (fun _ => v) r)
  (at level 1, left associativity, proj constr at level 10) : rust_scope.

(** ** Machine integers

    A [w]-bit unsigned integer is a [Z] in its range.  Release builds of the
    engine (no [overflow-checks] in the workspace manifest) wrap on [+] and
    [-]; [saturating_*] clamp. *)

Definition u64_max : Z := (2 ^ 64 - 1)%Z.
Definition u64_wrap (z : Z) : Z := (z mod 2 ^ 64)%Z.
Definition u64_add (a b : Z) : Z := u64_wrap (a + b).
Definition u64_saturating_add (a b : Z) : Z := Z.min (a + b) u64_max.
Definition u64_saturating_sub (a b : Z) : Z := Z.max (a - b) 0.
Definition is_u64 (z : Z) : Prop := (0 ≤ z ≤ u64_max)%Z.

Definition i64_wrap (z : Z) : Z := ((z + 2 ^ 63) mod 2 ^ 64 - 2 ^ 63)%Z.
Definition i64_add (a b : Z) : Z := i64_wrap (a + b).
Definition is_i64 (z : Z) : Prop := (- 2 ^ 63 ≤ z < 2 ^ 63)%Z.

Ltac unfold_int :=
  unfold is_u64, is_i64, u64_saturating_add, u64_saturating_sub, u64_add,
    i64_add, i64_wrap, u64_wrap, u64_max in *.
Ltac int_lia := unfold_int; lia.

Lemma i64_wrap_small z : is_i64 z → i64_wrap z = z.
Proof. intros. unfold_int. rewrite Z.mod_small; lia. Qed.

Lemma i64_add_small a b : is_i64 (a + b) → i64_add a b = (a + b)%Z.
Proof. apply i64_wrap_small. Qed.

Lemma u64_add_small a b : is_u64 (a + b) → u64_add a b = (a + b)%Z.
Proof. intros. unfold_int. rewrite Z.mod_small; lia. Qed.

Lemma u64_add_is_u64 a b : is_u64 (u64_add a b).
Proof. unfold_int. pose proof (Z.mod_pos_bound (a + b) (2 ^ 64)). lia. Qed.

Lemma u64_saturating_add_assoc a b c :
  is_u64 a → is_u64 b → is_u64 c →
  u64_saturating_add a (u64_saturating_add b c) =
  u64_saturating_add (u64_saturating_add a b) c.
Proof. int_lia. Qed.

(** ** Stable sort

    [slice::sort_by] is a stable sort.  [leb x y] is [cmp(x, y) != Greater]. *)

Section sort_by.
Context {A : Type} (leb : A → A → bool).

Fixpoint insert_by (x : A) (l : list A) : list A :=
  match l with
  | [] => [x]
  | y :: l' => if leb x y then x :: l else y :: insert_by x l'
  end.

Definition sort_by (l : list A) : list A := foldr insert_by [] l.

Lemma insert_by_perm x l : insert_by x l ≡ₚ x :: l.
Proof.
  induction l as [|y l IH]; simpl; [done|].
  destruct (leb x y); [done|]. rewrite IH. by rewrite Permutation_swap.
Qed.

Lemma sort_by_perm l : sort_by l ≡ₚ l.
Proof.
  induction l as [|x l IH]; simpl; [done|]. by rewrite insert_by_perm, IH.
Qed.

Lemma elem_of_sort_by x l : x ∈ sort_by l ↔ x ∈ l.
Proof. by rewrite sort_by_perm. Qed.

Lemma length_sort_by l : length (sort_by l) = length l.
Proof. by rewrite sort_by_perm. Qed.

Context (Htotal : ∀ x y, leb x y = true ∨ leb y x = true).
Context (Htrans : ∀ x y z, leb x y = true → leb y z = true → leb x z = true).

Lemma insert_by_sorted x l :
  StronglySorted (λ a b, leb a b = true) l →
  StronglySorted (λ a b, leb a b = true) (insert_by x l).
Proof.
  induction 1 as [|y l Hl IH Hy]; simpl; [by repeat constructor|].
  destruct (leb x y) eqn:E; constructor; auto.
  - constructor; auto.
  - constructor; [done|]. rewrite Forall_forall in Hy |- *; eauto.
  - rewrite insert_by_perm, Forall_cons. split; [|done].
    destruct (Htotal x y); congruence.
Qed.

Lemma sort_by_sorted l : StronglySorted (λ a b, leb a b = true) (sort_by l).
Proof. induction l; simpl; [constructor|]. by apply insert_by_sorted. Qed.
End sort_by.

(** Ordered pairs of a list. *)

Section strongly_sorted.
Context {A : Type} (R : A → A → Prop).

Lemma sublist_strongly_sorted l k :
  l `sublist_of` k → StronglySorted R k → StronglySorted R l.
Proof.
  induction 1 as [|x l k Hs IH|x l k Hs IH]; intros Hk; [done|..];
    apply StronglySorted_inv in Hk as [Hk Hx]; [|auto].
  constructor; [auto|]. rewrite Forall_forall in Hx |- *. intros y Hy. apply Hx.
  by eapply elem_of_submseteq, sublist_submseteq.
Qed.

Lemma strongly_sorted_snoc l x :
  StronglySorted R l → Forall (λ y, R y x) l → StronglySorted R (l ++ [x]).
Proof.
  induction 1 as [|y l Hl IH Hy]; intros Hx; cbn; [by repeat constructor|].
  apply Forall_cons in Hx as [Hyx Hx]. constructor; [auto|].
  apply Forall_app. by repeat constructor.
Qed.

Lemma strongly_sorted_app_inv l k :
  StronglySorted R (l ++ k) → StronglySorted R l ∧ StronglySorted R k.
Proof.
  induction l as [|x l IH]; cbn; [by split; [constructor|]|].
  intros [H Hx]%StronglySorted_inv. apply IH in H as [Hl Hk]. split; [|done].
  constructor; [done|]. by apply Forall_app in Hx as [? _].
Qed.

Lemma strongly_sorted_lookup l i j x y :
  StronglySorted R l → l !! i = Some x → l !! j = Some y → (i < j)%nat → R x y.
Proof.
  intros Hs. revert i j. induction Hs as [|z l Hl IH Hz]; intros i j Hi Hj Hij; [done|].
  destruct j as [|j]; [lia|]. destruct i as [|i]; cbn in *.
  - simplify_eq. rewrite Forall_lookup in Hz. eauto.
  - eapply IH; [done|done|lia].
Qed.
End strongly_sorted.

Lemma strongly_sorted_fmap {A B} (R : B → B → Prop) (f : A → B) l :
  StronglySorted R (f <$> l) → StronglySorted (λ x y, R (f x) (f y)) l.
Proof.
  induction l as [|x l IH]; intros H; [constructor|].
  inversion_clear H as [|?? Hs Hx]. constructor; [by apply IH|].
  by rewrite Forall_fmap in Hx.
Qed.

(** Strings are compared bytewise, as [str]'s [Ord]. *)

Lemma str_leb_total (a b : string) : String.leb a b = true ∨ String.leb b a = true.
Proof.
  destruct (total String.le a b) as [H|H]; [left|right];
    by apply Is_true_true in H.
Qed.

Lemma str_leb_trans (a b c : string) :
  String.leb a b = true → String.leb b c = true → String.leb a c = true.
Proof.
  rewrite <-!Is_true_true. apply (transitivity (R := String.le)).
Qed.

Lemma str_leb_antisym (a b : string) :
  String.leb a b = true → String.leb b a = true → a = b.
Proof. rewrite <-!Is_true_true. apply (anti_symm String.le). Qed.

Lemma str_leb_refl (a : string) : String.leb a a = true.
Proof. by destruct (str_leb_total a a). Qed.

Definition sort_strings : list string → list string := sort_by String.leb.

Lemma sort_strings_sorted l :
  StronglySorted (λ a b, String.leb a b = true) (sort_strings l).
Proof. apply sort_by_sorted; [apply str_leb_total|apply str_leb_trans]. Qed.

(** Sorting forgets the order of its input: a result collected from a
    [HashMap] in any iteration order and then sorted is the same. *)
Lemma sort_strings_perm_eq l k : l ≡ₚ k → sort_strings l = sort_strings k.
Proof.
  intros Hp. apply (StronglySorted_unique_strong (λ a b, String.leb a b = true)).
  - intros x1 x2 _ _ H1 H2. by apply str_leb_antisym.
  - apply sort_strings_sorted.
  - apply sort_strings_sorted.
  - unfold sort_strings. by rewrite !sort_by_perm.
Qed.

(** ** Ordered maps

    A [BTreeMap<String, A>] is a [gmap string A] visited in key order. *)

Definition btree_iter {A} (m : gmap string A) : list (string * A) :=
  sort_by (λ a b, String.leb a.1 b.1) (map_to_list m).

Definition btree_values {A} (m : gmap string A) : list A := (btree_iter m).*2.

Lemma elem_of_btree_iter {A} (m : gmap string A) k x :
  (k, x) ∈ btree_iter m ↔ m !! k = Some x.
Proof. unfold btree_iter. by rewrite elem_of_sort_by, elem_of_map_to_list. Qed.

Lemma elem_of_btree_values {A} (m : gmap string A) x :
  x ∈ btree_values m ↔ ∃ k, m !! k = Some x.
Proof.
  unfold btree_values. rewrite list_elem_of_fmap. split.
  - intros ([k y] & -> & H). exists k. by apply elem_of_btree_iter.
  - intros [k H]. exists (k, x). by rewrite elem_of_btree_iter.
Qed.

(** ** Filters *)

Lemma NoDup_fmap_eq {A B} (f : A → B) (l : list A) x y :
  NoDup (f <$> l) → x ∈ l → y ∈ l → f x = f y → x = y.
Proof.
  intros Hn [i Hi]%list_elem_of_lookup [j Hj]%list_elem_of_lookup E.
  assert (i = j) as ->; [|congruence].
  eapply NoDup_lookup; [exact Hn| |]; rewrite list_lookup_fmap.
  - by rewrite Hi.
  - by rewrite Hj, E.
Qed.

Lemma existsb_false {A} (f : A → bool) (l : list A) :
  existsb f l = false ↔ ∀ x, x ∈ l → f x = false.
Proof.
  rewrite <-not_true_iff_false, existsb_exists. split.
  - intros H x Hx. apply not_true_iff_false. intros Hf. apply H. exists x.
    by rewrite <-list_elem_of_In.
  - intros H (x & Hx%list_elem_of_In & Hf). rewrite (H x Hx) in Hf. done.
Qed.

Lemma forallb_false {A} (f : A → bool) (l : list A) :
  forallb f l = false ↔ (∃ x, x ∈ l ∧ f x = false).
Proof.
  induction l as [|x l IH]; cbn; [by split; [|intros (? & ?%not_elem_of_nil & _)]|].
  rewrite andb_false_iff, IH. setoid_rewrite elem_of_cons. naive_solver.
Qed.

Lemma existsb_same {A} (f g : A → bool) (l : list A) :
  (∀ x, f x = g x) → existsb f l = existsb g l.
Proof. intros H. induction l as [|x l IH]; [done|]. cbn. by rewrite H, IH. Qed.

Lemma filter_none {A} (P : A → Prop) `{∀ x, Decision (P x)} (l : list A) :
  (∀ x, x ∈ l → ¬ P x) → filter P l = [].
Proof.
  induction l as [|a l IH]; intros Hl; [done|]. rewrite filter_cons, decide_False.
  - apply IH. intros. apply Hl. by right.
  - apply Hl. left.
Qed.

Lemma filter_all {A} (P : A → Prop) `{∀ x, Decision (P x)} (l : list A) :
  (∀ x, x ∈ l → P x) → filter P l = l.
Proof.
  induction l as [|a l IH]; intros Hl; [done|]. rewrite filter_cons, decide_True.
  - f_equal. apply IH. intros. apply Hl. by right.
  - apply Hl. left.
Qed.

(** ** Hash maps

    A [HashMap] visits its entries in an order that is not specified: any
    permutation of the entries. *)

Class HashOrder : Type := {
  hash_iter : ∀ {A}, gmap string A → list (string * A);
  hash_iter_perm : ∀ {A} (m : gmap string A), hash_iter m ≡ₚ map_to_list m;
}.

(** One such order, for concrete runs. *)
Definition listed_order : HashOrder :=
  {| hash_iter := λ A m, map_to_list m; hash_iter_perm := λ A m, Permutation_refl _ |}.

Lemma elem_of_hash_iter `{HashOrder} {A} (m : gmap string A) k x :
  (k, x) ∈ hash_iter m ↔ m !! k = Some x.
Proof. by rewrite hash_iter_perm, elem_of_map_to_list. Qed.
