(* ===== verification/Text.v ===== *)
(** * Text operations of the Rust standard library

    A Rust [String] is its UTF-8 byte sequence, a [string] here.  This file
    models the [str] operations the engine uses: decoding to and encoding from
    scalar values, ASCII case, whitespace splitting, joining and prefixes. *)

From S2P Require Import Prelude.
From Stdlib Require Import Ascii.

Local Open Scope Z_scope.

Definition byte_val (c : ascii) : Z := Z.of_nat (nat_of_ascii c).
Definition byte_of (z : Z) : ascii := ascii_of_nat (Z.to_nat z).

(** [str::chars]: the scalar values of a valid UTF-8 string.  A truncated
    sequence (which no Rust [String] holds) ends the decoding. *)
Fixpoint chars (s : string) : list Z :=
  match s with
  | EmptyString => []
  | String a s1 =>
    let b := byte_val a in
    if b <? 128 then b :: chars s1
    else match s1 with
    | EmptyString => []
    | String a1 s2 =>
      let c1 := byte_val a1 - 128 in
      if b <? 224 then ((b - 192) * 64 + c1) :: chars s2
      else match s2 with
      | EmptyString => []
      | String a2 s3 =>
        let c2 := byte_val a2 - 128 in
        if b <? 240 then ((b - 224) * 4096 + c1 * 64 + c2) :: chars s3
        else match s3 with
        | EmptyString => []
        | String a3 s4 =>
          let c3 := byte_val a3 - 128 in
          ((b - 240) * 262144 + c1 * 4096 + c2 * 64 + c3) :: chars s4
        end
      end
    end
  end.

(** [char::encode_utf8]. *)
Definition encode_char (c : Z) : list Z :=
  if c <? 128 then [c]
  else if c <? 2048 then [192 + c / 64; 128 + c mod 64]
  else if c <? 65536 then [224 + c / 4096; 128 + (c / 64) mod 64; 128 + c mod 64]
  else [240 + c / 262144; 128 + (c / 4096) mod 64; 128 + (c / 64) mod 64; 128 + c mod 64].

Definition bytes_to_string (bs : list Z) : string :=
  foldr (λ b s, String (byte_of b) s) EmptyString bs.

(** [Iterator<Item = char>::collect::<String>]. *)
Definition of_chars (cs : list Z) : string :=
  bytes_to_string (cs ≫= encode_char).

(** [char::to_ascii_lowercase]. *)
Definition to_ascii_lowercase (c : Z) : Z :=
  if (65 <=? c) && (c <=? 90) then c + 32 else c.

(** [char::is_whitespace]: the Unicode property [White_Space]. *)
Definition is_whitespace (c : Z) : bool :=
  ((9 <=? c) && (c <=? 13)) || (c =? 32) || (c =? 133) || (c =? 160)
  || (c =? 5760) || ((8192 <=? c) && (c <=? 8202)) || (c =? 8232)
  || (c =? 8233) || (c =? 8239) || (c =? 8287) || (c =? 12288).

(** [str::split_whitespace] on scalar values: maximal runs of non-whitespace. *)
Fixpoint split_whitespace_acc (cs cur : list Z) : list (list Z) :=
  match cs with
  | [] => match cur with [] => [] | _ => [reverse cur] end
  | c :: cs' =>
    if is_whitespace c
    then match cur with
         | [] => split_whitespace_acc cs' []
         | _ => reverse cur :: split_whitespace_acc cs' []
         end
    else split_whitespace_acc cs' (c :: cur)
  end.

Definition split_whitespace (cs : list Z) : list (list Z) :=
  split_whitespace_acc cs [].

(** [[String]::join]. *)
Fixpoint join (sep : string) (l : list string) : string :=
  match l with
  | [] => ""
  | [s] => s
  | s :: l' => s +:+ sep +:+ join sep l'
  end.

(** [str::eq_ignore_ascii_case]. *)
Fixpoint eq_ignore_ascii_case (a b : string) : bool :=
  match a, b with
  | EmptyString, EmptyString => true
  | String x a', String y b' =>
    (to_ascii_lowercase (byte_val x) =? to_ascii_lowercase (byte_val y))
    && eq_ignore_ascii_case a' b'
  | _, _ => false
  end.

(** [str::strip_prefix]. *)
Fixpoint strip_prefix (p s : string) : option string :=
  match p, s with
  | EmptyString, _ => Some s
  | String x p', String y s' =>
    if bool_decide (x = y) then strip_prefix p' s' else None
  | String _ _, EmptyString => None
  end.

(** [str::starts_with]. *)
Definition starts_with (s p : string) : bool := is_some (strip_prefix p s).

(** [str::is_empty] and [str::len]. *)
Definition is_empty (s : string) : bool :=
  match s with EmptyString => true | _ => false end.
Definition str_len (s : string) : Z := Z.of_nat (String.length s).

(** [{:0w}] of a number that is not negative. *)
Definition pad_zeros (w : nat) (n : Z) : string :=
  let s := pretty n in
  (fix zeros (k : nat) : string := match k with O => s | S k => String "0"%char (zeros k) end)
    (w - String.length s)%nat.

Lemma string_app_assoc (a b c : string) : a +:+ (b +:+ c) = (a +:+ b) +:+ c.
Proof. induction a as [|x a IH]; [done|]. change (String x (a +:+ (b +:+ c)) = String x ((a +:+ b) +:+ c)). by f_equal. Qed.

Lemma strip_prefix_app p s : strip_prefix p (p +:+ s) = Some s.
Proof.
  induction p as [|c p IH]; [done|].
  change ((String c p) +:+ s) with (String c (p +:+ s)). simpl.
  by rewrite bool_decide_true.
Qed.

Lemma strip_prefix_Some p s r : strip_prefix p s = Some r → s = p +:+ r.
Proof.
  revert s. induction p as [|c p IH]; intros s; simpl; [by intros [= ->]|].
  destruct s as [|d s]; [done|]. case_bool_decide as E; [|done]. subst.
  intros H. apply IH in H. by rewrite H.
Qed.

Example chars_ascii : chars "Ab c" = [65; 98; 32; 99].
Proof. reflexivity. Qed.

Example split_example :
  of_chars <$> split_whitespace (chars "  child   objective ") =
  ["child"; "objective"].
Proof. vm_compute. reflexivity. Qed.
