(* ===== verification/Json.v ===== *)
(** * JSON values

    The interface of [serde_json::Value] the program reads: the accessors
    return [None] on a value of another shape. [Demo] is a concrete type of
    values to run the definitions with. *)

From S2P Require Import Prelude.

Class JsonValue (V : Type) : Type := {
  as_str : V → option string;
  as_bool : V → option bool;
  as_i64 : V → option Z;
  as_array : V → option (list V);
  as_object : V → option (gmap string V);
}.

(** Building values ([json!]), [Value::to_string] and [from_str::<Value>]. *)
Class JsonText (V : Type) : Type := {
  json_null : V;
  json_bool : bool → V;
  json_int : Z → V;
  json_string : string → V;
  json_array : list V → V;
  json_object : gmap string V → V;
  json_print : V → string;
  json_parse : string → option V;
}.

(** A [HashMap<String, Value>] or a [serde_json::Map]. *)
Abbreviation json_map V := (gmap string V) (only parsing).

Section accessors.
Context {V : Type} `{JsonValue V}.

(** [m.get(key).and_then(Value::as_str)]. *)
Definition get_str (m : json_map V) (key : string) : option string := m !! key ≫= as_str.

(** [m.get(key).and_then(Value::as_str).unwrap_or(d).to_string()]. *)
Definition get_str_or (m : json_map V) (key d : string) : string := default d (get_str m key).

(** [v.get(key)]; [v.get(key).and_then(Value::as_str)]. *)
Definition json_get (v : V) (key : string) : option V := as_object v ≫= λ m, m !! key.
Definition json_get_str (v : V) (key : string) : option string := json_get v key ≫= as_str.

(** [.filter(|value| !value.is_empty())] on a string that was read. *)
Definition non_empty (s : option string) : option string :=
  match s with
  | Some EmptyString => None
  | _ => s
  end.
End accessors.

(** ** A concrete instance *)

Module JsonDemo.
#[local] Set Warnings "-register-all".
Inductive json : Type :=
  | JNull
  | JBool (b : bool)
  | JInt (n : Z)
  | JStr (s : string)
  | JArr (l : list json)
  | JObj (l : list (string * json)).

Definition json_value : JsonValue json := {|
  as_str v := match v with JStr s => Some s | _ => None end;
  as_bool v := match v with JBool b => Some b | _ => None end;
  as_i64 v := match v with JInt n => Some n | _ => None end;
  as_array v := match v with JArr l => Some l | _ => None end;
  as_object v := match v with JObj l => Some (list_to_map l) | _ => None end |}.
End JsonDemo.
