(* ===== verification/RecursiveExecution.v ===== *)
(** * Bounded recursive task trees ([engine/src/recursive_execution.rs])

    The admission, leasing, completion, accounting and recovery policy of a
    recursive task tree: every operation of [RecursiveTree] that changes the
    tree is a function here.  Theorems are in RecursiveTreeProps.v. *)

From S2P Require Import Prelude Text.

Local Open Scope Z_scope.

(** ** Enumerations *)

Module ExecutionState.
Inductive RecursiveExecutionState : Type :=
  | Running
  | Completed
  | OperatorPaused
  | BudgetExhausted
  | KillStopped
  | TerminalFailed.
End ExecutionState.
Import ExecutionState (RecursiveExecutionState).

#[export] Instance RecursiveExecutionState_eq_dec : EqDecision RecursiveExecutionState.
Proof. solve_decision. Defined.

Module FailureReason.
Inductive RecursiveFailureReason : Type :=
  | RecursiveDisabled
  | DepthExceeded
  | ChildLimitExceeded
  | TreeBudgetExhausted
  | DuplicateObjective
  | AncestorCycle
  | CapabilityEscalation
  | ScopeMismatch
  | StaleParent
  | ProposalConflict
  | ReceiptConflict
  | SchedulerCapacityExhausted
  | RecursiveKillSwitchActive
  | OperatorPaused
  | TerminalFailed
  | ExecutionFailure
  | RetryExhausted
  | RecursiveTreeMissing
  | RecursiveNodeMissing
  | RecursiveUsageUnavailable
  | FixtureUsageContractMissing
  | FixtureUsageContractInvalid
  | RecursiveNodeIdentityMalformed.

Definition reason_as_str (r : RecursiveFailureReason) : string :=
  match r with
  | RecursiveDisabled => "recursive_disabled"
  | DepthExceeded => "depth_exceeded"
  | ChildLimitExceeded => "child_limit_exceeded"
  | TreeBudgetExhausted => "tree_budget_exhausted"
  | DuplicateObjective => "duplicate_objective"
  | AncestorCycle => "ancestor_cycle"
  | CapabilityEscalation => "capability_escalation"
  | ScopeMismatch => "scope_mismatch"
  | StaleParent => "stale_parent"
  | ProposalConflict => "proposal_conflict"
  | ReceiptConflict => "receipt_conflict"
  | SchedulerCapacityExhausted => "scheduler_capacity_exhausted"
  | RecursiveKillSwitchActive => "recursive_kill_switch_active"
  | OperatorPaused => "operator_paused"
  | TerminalFailed => "terminal_failed"
  | ExecutionFailure => "recursive_node_execution_failed"
  | RetryExhausted => "recursive_retry_exhausted"
  | RecursiveTreeMissing => "recursive_tree_missing"
  | RecursiveNodeMissing => "recursive_node_missing"
  | RecursiveUsageUnavailable => "recursive_usage_unavailable"
  | FixtureUsageContractMissing => "fixture_usage_contract_missing"
  | FixtureUsageContractInvalid => "fixture_usage_contract_invalid"
  | RecursiveNodeIdentityMalformed => "recursive_node_identity_malformed"
  end.

Definition ALL : list RecursiveFailureReason :=
  [RecursiveDisabled; DepthExceeded; ChildLimitExceeded; TreeBudgetExhausted;
   DuplicateObjective; AncestorCycle; CapabilityEscalation; ScopeMismatch;
   StaleParent; ProposalConflict; ReceiptConflict; SchedulerCapacityExhausted;
   RecursiveKillSwitchActive; OperatorPaused; TerminalFailed; ExecutionFailure;
   RetryExhausted; RecursiveTreeMissing; RecursiveNodeMissing;
   RecursiveUsageUnavailable; FixtureUsageContractMissing;
   FixtureUsageContractInvalid; RecursiveNodeIdentityMalformed].

Definition code_for_error (error : string) : option string :=
  List.find (λ code, bool_decide (error = code) || starts_with error (code +:+ ":"))
    (reason_as_str <$> ALL).
End FailureReason.
Import FailureReason (RecursiveFailureReason).

#[export] Instance RecursiveFailureReason_eq_dec : EqDecision RecursiveFailureReason.
Proof. solve_decision. Defined.

Module NodeStatus.
Inductive RecursiveNodeStatus : Type :=
  | Ready
  | Leased
  | Completed
  | Failed.

Definition status_as_str (s : RecursiveNodeStatus) : string :=
  match s with
  | Ready => "ready"
  | Leased => "leased"
  | Completed => "completed"
  | Failed => "failed"
  end.
End NodeStatus.
Import NodeStatus (RecursiveNodeStatus).

#[export] Instance RecursiveNodeStatus_eq_dec : EqDecision RecursiveNodeStatus.
Proof. solve_decision. Defined.

(** ** Limits *)

Definition RECURSIVE_SCHEMA_VERSION : string := "recursive_execution.v1".
Definition MAX_RECURSIVE_DEPTH : Z := 2.
Definition MAX_ACCEPTED_CHILDREN_PER_NODE : Z := 3.
Definition MAX_RECURSIVE_NODES_PER_ROOT : Z := 12.
Definition MAX_RECURSIVE_LEASES : Z := 3.
Definition MAX_RECURSIVE_RETRIES : Z := 1.
Definition RECURSIVE_NON_HERITABLE_CAPABILITIES : list string := ["handoff"].
Definition MAX_OBJECTIVE_BYTES : Z := 4096.
Definition MAX_CONTEXT_BYTES : Z := 8192.
Definition OBJECTIVE_IDENTITY_VERSION : string := "recursive-objective.v2".

(** ** Budgets *)

Record RecursiveBudget : Type := mkBudget {
  calls_remaining : Z;
  tokens_remaining : Z;
  cost_micros_remaining : Z;
  time_ms_remaining : Z;
}.

#[export] Instance RecursiveBudget_eq_dec : EqDecision RecursiveBudget.
Proof. solve_decision. Defined.

Definition budget_default : RecursiveBudget := mkBudget 0 0 0 0.

Definition default_recursive_tree_budget : RecursiveBudget :=
  mkBudget 12 120000 1000000 600000.

Definition default_recursive_child_budget : RecursiveBudget :=
  mkBudget 1 10000 10000 60000.

Definition can_spend (self usage : RecursiveBudget) : bool :=
  (calls_remaining usage <=? calls_remaining self)
  && (tokens_remaining usage <=? tokens_remaining self)
  && (cost_micros_remaining usage <=? cost_micros_remaining self)
  && (time_ms_remaining usage <=? time_ms_remaining self).

Definition spend (self other : RecursiveBudget) : RecursiveBudget :=
  mkBudget
    (u64_saturating_sub (calls_remaining self) (calls_remaining other))
    (u64_saturating_sub (tokens_remaining self) (tokens_remaining other))
    (u64_saturating_sub (cost_micros_remaining self) (cost_micros_remaining other))
    (u64_saturating_sub (time_ms_remaining self) (time_ms_remaining other)).

Definition budget_add (self other : RecursiveBudget) : RecursiveBudget :=
  mkBudget
    (u64_saturating_add (calls_remaining self) (calls_remaining other))
    (u64_saturating_add (tokens_remaining self) (tokens_remaining other))
    (u64_saturating_add (cost_micros_remaining self) (cost_micros_remaining other))
    (u64_saturating_add (time_ms_remaining self) (time_ms_remaining other)).

Definition bounded_by (self other : RecursiveBudget) : RecursiveBudget :=
  mkBudget
    (Z.min (calls_remaining self) (calls_remaining other))
    (Z.min (tokens_remaining self) (tokens_remaining other))
    (Z.min (cost_micros_remaining self) (cost_micros_remaining other))
    (Z.min (time_ms_remaining self) (time_ms_remaining other)).

Definition is_nonzero (self : RecursiveBudget) : bool :=
  (0 <? calls_remaining self)
  && (0 <? tokens_remaining self)
  && (0 <? cost_micros_remaining self)
  && (0 <? time_ms_remaining self).

Module UsageContract.
Inductive RecursiveUsageContract : Type :=
  | Fixture (calls tokens cost_micros time_ms : Z)
  | Measured
  | Unavailable.

Definition fixture_usage (self : RecursiveUsageContract) : option RecursiveBudget :=
  match self with
  | Fixture calls tokens cost_micros time_ms =>
    Some (mkBudget calls tokens cost_micros time_ms)
  | Measured | Unavailable => None
  end.
End UsageContract.

(** ** Scopes, proposals, nodes and trees *)

Record RecursiveScope : Type := mkScope {
  repository : option string;
  allowed_paths : gset string;
  scope_capabilities : gset string;
}.
#[export] Instance eta_RecursiveScope : Eta RecursiveScope := λ s,
  mkScope (repository s) (allowed_paths s) (scope_capabilities s).

Definition is_subset_of (self parent : RecursiveScope) : bool :=
  bool_decide (repository self = repository parent)
  && bool_decide (allowed_paths self ⊆ allowed_paths parent)
  && bool_decide (scope_capabilities self ⊆ scope_capabilities parent).

Definition heritable_recursive_capabilities (capabilities : gset string) : gset string :=
  filter (λ c, c ∉ RECURSIVE_NON_HERITABLE_CAPABILITIES) capabilities.

Record RecursiveProposal : Type := mkProposal {
  p_proposal_id : string;
  p_parent_node_id : string;
  p_parent_version : Z;
  p_objective : string;
  p_context_summary : string;
  p_requested_scope : RecursiveScope;
  p_requested_capabilities : gset string;
  p_budget : RecursiveBudget;
  p_receipt_sha256 : string;
}.

Record RecursiveNode : Type := mkNode {
  n_node_id : string;
  n_root_run_id : string;
  n_parent_node_id : option string;
  n_proposal_id : option string;
  n_depth : Z;
  n_objective_fingerprint : string;
  n_ancestor_fingerprints : list string;
  n_scope : RecursiveScope;
  n_capabilities : gset string;
  n_tenant_id : option string;
  n_workspace_id : option string;
  n_budget : RecursiveBudget;
  n_budget_limit : RecursiveBudget;
  n_child_budget : RecursiveBudget;
  n_child_budget_limit : RecursiveBudget;
  n_reservation : RecursiveBudget;
  n_actual_usage : RecursiveBudget;
  n_status : RecursiveNodeStatus;
  n_accepted_children : Z;
  n_retry_count : Z;
  n_version : Z;
  n_lease_id : option string;
  n_failure_reason : option RecursiveFailureReason;
  n_evidence_refs : list string;
}.
#[export] Instance eta_RecursiveNode : Eta RecursiveNode := λ n,
  mkNode (n_node_id n) (n_root_run_id n) (n_parent_node_id n) (n_proposal_id n)
    (n_depth n) (n_objective_fingerprint n) (n_ancestor_fingerprints n)
    (n_scope n) (n_capabilities n) (n_tenant_id n) (n_workspace_id n)
    (n_budget n) (n_budget_limit n) (n_child_budget n) (n_child_budget_limit n)
    (n_reservation n) (n_actual_usage n) (n_status n) (n_accepted_children n)
    (n_retry_count n) (n_version n) (n_lease_id n) (n_failure_reason n)
    (n_evidence_refs n).

Record RecursiveDecisionEvidence : Type := mkEvidence {
  reason_code : RecursiveFailureReason;
  evidence_refs : list string;
}.

Record RecursiveTree : Type := mkTree {
  schema_version : string;
  root_run_id : string;
  workflow_id : string;
  root_node_id : string;
  root_agent_id : string;
  root_recursive_marker : string;
  root_creation_receipt_sha256 : string;
  root_scope : RecursiveScope;
  root_capabilities : gset string;
  root_tenant_id : option string;
  root_workspace_id : option string;
  root_budget : RecursiveBudget;
  root_budget_limit : option RecursiveBudget;
  root_child_budget_limit : option RecursiveBudget;
  spent_budget : RecursiveBudget;
  reserved_budget : RecursiveBudget;
  execution_state : RecursiveExecutionState;
  t_version : Z;
  nodes : gmap string RecursiveNode;
  accepted_proposals : gset string;
  receipts : gmap string string;
  active_leases : gset string;
  rejected_proposals : gmap string RecursiveDecisionEvidence;
  usage_receipts : gmap string string;
}.
#[export] Instance eta_RecursiveTree : Eta RecursiveTree := λ t,
  mkTree (schema_version t) (root_run_id t) (workflow_id t) (root_node_id t)
    (root_agent_id t) (root_recursive_marker t) (root_creation_receipt_sha256 t)
    (root_scope t) (root_capabilities t) (root_tenant_id t) (root_workspace_id t)
    (root_budget t) (root_budget_limit t) (root_child_budget_limit t)
    (spent_budget t) (reserved_budget t) (execution_state t) (t_version t)
    (nodes t) (accepted_proposals t) (receipts t) (active_leases t)
    (rejected_proposals t) (usage_receipts t).

Record RecursiveAdmission : Type := mkAdmission {
  adm_node : RecursiveNode;
  adm_parent_version : Z;
}.

Record RecursiveObjectiveIdentity : Type := mkIdentity {
  id_version : string;
  id_intent : string;
  id_subject : string;
  id_qualifiers : list string;
}.

(** ** Code outside the repository

    The SHA-256 and hexadecimal crates, serde_json's encoders for the two
    serialised structures, and the Unicode tables behind
    [char::is_alphanumeric]. *)
Class RecursiveDeps : Type := {
  char_is_alphanumeric : Z → bool;
  sha256_hex : string → string;
  identity_to_vec : RecursiveObjectiveIdentity → string;
  usage_to_string : RecursiveBudget → option string;
}.

(** Results of an operation on [&mut self]: what it returns and the tree it
    leaves behind, which an error path may also have changed. *)
Abbreviation tree_result A := (result RecursiveFailureReason A * RecursiveTree)%type.

(** The process environment read by [std::env::var]. *)
Abbreviation env_vars := (string → option string).

(** [x += 1] on a [u64] or [usize]. *)
Definition u64_incr (x : Z) : Z := u64_add x 1.

Section operations.
Context `{Deps : RecursiveDeps}.

(** ** Objective identity *)

Definition normalize_objective (objective : string) : string :=
  let mapped := (λ ch, if char_is_alphanumeric ch || is_whitespace ch
                       then to_ascii_lowercase ch else 32) <$> chars objective in
  let tokens := of_chars <$> split_whitespace mapped in
  let kept := filter (λ token, token ∉ ["a"; "an"; "the"; "to"; "please"]) tokens in
  join " " ((λ token,
    if bool_decide (token ∈ ["inspect"; "examine"; "check"]) then "review"
    else if bool_decide (token = "documentation") then "docs"
    else token) <$> kept).

Definition objective_fingerprint (objective : string) : string :=
  let tokens := of_chars <$> split_whitespace (chars (normalize_objective objective)) in
  let intent := default "" (tokens !! 0%nat) in
  let subject := default "" (tokens !! 1%nat) in
  let qualifiers := drop 2 tokens in
  sha256_hex (identity_to_vec
    (mkIdentity OBJECTIVE_IDENTITY_VERSION intent subject qualifiers)).

(** The single zero byte hashed between two fields. *)
Definition NUL : string := String (byte_of 0) "".

Definition derived_node_id (root_run_id proposal_id fingerprint : string) : string :=
  "recursive-" +:+ sha256_hex
    (root_run_id +:+ NUL +:+ proposal_id +:+ NUL +:+ fingerprint).

(** ** Gates *)

Definition flag_set (v : option string) : bool :=
  match v with
  | Some value => bool_decide (value = "1") || eq_ignore_ascii_case value "true"
  | None => false
  end.

Definition recursive_enabled (env : env_vars) : bool :=
  flag_set (env "ACP_RECURSIVE_EXECUTION_ENABLED").

Definition kill_switch_active (env : env_vars) : bool :=
  flag_set (env "ACP_RECURSIVE_EXECUTION_KILL_SWITCH").

Definition shape_is_valid (proposal : RecursiveProposal) : bool :=
  negb (is_empty (p_proposal_id proposal))
  && negb (is_empty (p_parent_node_id proposal))
  && negb (is_empty (p_receipt_sha256 proposal))
  && negb (is_empty (normalize_objective (p_objective proposal)))
  && (str_len (p_objective proposal) <=? MAX_OBJECTIVE_BYTES)
  && (str_len (p_context_summary proposal) <=? MAX_CONTEXT_BYTES).

(** ** Construction *)

Definition new_with_root_node_id (root_run_id workflow_id node_id objective : string)
    (scope : RecursiveScope) (capabilities : gset string)
    (budget : RecursiveBudget) : RecursiveTree :=
  let scope := scope <| scope_capabilities := capabilities |> in
  let fingerprint := objective_fingerprint objective in
  let node := {|
    n_node_id := node_id; n_root_run_id := root_run_id;
    n_parent_node_id := None; n_proposal_id := None; n_depth := 0;
    n_objective_fingerprint := fingerprint; n_ancestor_fingerprints := [];
    n_scope := scope; n_capabilities := capabilities;
    n_tenant_id := None; n_workspace_id := None;
    n_budget := budget; n_budget_limit := budget;
    n_child_budget := budget; n_child_budget_limit := budget;
    n_reservation := budget_default; n_actual_usage := budget_default;
    n_status := NodeStatus.Ready; n_accepted_children := 0;
    n_retry_count := 0; n_version := 1; n_lease_id := None;
    n_failure_reason := None; n_evidence_refs := [] |} in
  {| schema_version := RECURSIVE_SCHEMA_VERSION;
     root_run_id := root_run_id; workflow_id := workflow_id;
     root_node_id := node_id; root_agent_id := "";
     root_recursive_marker := ""; root_creation_receipt_sha256 := "";
     root_scope := scope; root_capabilities := capabilities;
     root_tenant_id := None; root_workspace_id := None;
     root_budget := budget; root_budget_limit := Some budget;
     root_child_budget_limit := Some budget;
     spent_budget := mkBudget 0 0 0 0; reserved_budget := budget_default;
     execution_state := ExecutionState.Running; t_version := 1;
     nodes := {[node_id := node]}; accepted_proposals := ∅; receipts := ∅;
     active_leases := ∅; rejected_proposals := ∅; usage_receipts := ∅ |}.

Definition new_tree (root_run_id workflow_id objective : string)
    (scope : RecursiveScope) (capabilities : gset string)
    (budget : RecursiveBudget) : RecursiveTree :=
  let fingerprint := objective_fingerprint objective in
  let node_id := "recursive-root-" +:+
    String.substring 0 24 (sha256_hex (root_run_id +:+ NUL +:+ fingerprint)) in
  new_with_root_node_id root_run_id workflow_id node_id objective scope
    capabilities budget.

Definition matches_or_empty (existing value : string) : bool :=
  is_empty existing || bool_decide (existing = value).

Definition bind_root_identity (agent_id recursive_marker creation_receipt_sha256 : string)
    (self : RecursiveTree) : tree_result unit :=
  bail is_empty agent_id || is_empty recursive_marker || is_empty creation_receipt_sha256
    with (Err FailureReason.ReceiptConflict, self) ;;
  bail negb (matches_or_empty (root_agent_id self) agent_id)
    || negb (matches_or_empty (root_recursive_marker self) recursive_marker)
    || negb (matches_or_empty (root_creation_receipt_sha256 self) creation_receipt_sha256)
    with (Err FailureReason.ReceiptConflict, self) ;;
  (Ok tt, self <| root_agent_id := agent_id |>
               <| root_recursive_marker := recursive_marker |>
               <| root_creation_receipt_sha256 := creation_receipt_sha256 |>).

(** [existing.is_some_and(|value| Some(value) != new)]. *)
Definition bound_differs (existing new : option string) : bool :=
  is_some existing && negb (bool_decide (existing = new)).

Definition bind_root_execution_scope (tenant_id workspace_id : option string)
    (self : RecursiveTree) : tree_result unit :=
  bail bound_differs (root_tenant_id self) tenant_id
    || bound_differs (root_workspace_id self) workspace_id
    with (Err FailureReason.ReceiptConflict, self) ;;
  let self := self <| root_tenant_id := tenant_id |>
                   <| root_workspace_id := workspace_id |> in
  match nodes self !! root_node_id self with
  | None => (Err FailureReason.RecursiveNodeMissing, self)
  | Some root =>
    (Ok tt, self <| nodes := <[root_node_id self :=
      root <| n_tenant_id := tenant_id |> <| n_workspace_id := workspace_id |>]>
      (nodes self) |>)
  end.

(** ** Admission

    The [match self.execution_state] that opens [admit_child] and
    [lease_node]. *)
Definition running_gate (s : RecursiveExecutionState) : result RecursiveFailureReason unit :=
  match s with
  | ExecutionState.Running => Ok tt
  | ExecutionState.Completed => Err FailureReason.ProposalConflict
  | ExecutionState.OperatorPaused => Err FailureReason.OperatorPaused
  | ExecutionState.BudgetExhausted => Err FailureReason.TreeBudgetExhausted
  | ExecutionState.KillStopped => Err FailureReason.RecursiveKillSwitchActive
  | ExecutionState.TerminalFailed => Err FailureReason.TerminalFailed
  end.

(** The checks of [admit_child] up to the budget derivation.  They do not
    change the tree; the result is the parent and the child's fingerprint. *)
Definition admit_checks (env : env_vars) (proposal : RecursiveProposal)
    (self : RecursiveTree)
    : result RecursiveFailureReason (RecursiveNode * string) :=
  bail negb (recursive_enabled env) with Err FailureReason.RecursiveDisabled ;;
  bail kill_switch_active env with Err FailureReason.RecursiveKillSwitchActive ;;
  _ <-? running_gate (execution_state self) ;;
  bail negb (shape_is_valid proposal) with Err FailureReason.ProposalConflict ;;
  bail match receipts self !! p_proposal_id proposal with
       | Some receipt => negb (bool_decide (receipt = p_receipt_sha256 proposal))
       | None => false
       end with Err FailureReason.ReceiptConflict ;;
  bail bool_decide (p_proposal_id proposal ∈ accepted_proposals self)
    with Err FailureReason.ProposalConflict ;;
  bail is_some (rejected_proposals self !! p_proposal_id proposal)
    with Err FailureReason.ProposalConflict ;;
  parent <-? ok_or (nodes self !! p_parent_node_id proposal) FailureReason.StaleParent ;;
  bail negb (n_version parent =? p_parent_version proposal)
    with Err FailureReason.StaleParent ;;
  bail MAX_RECURSIVE_DEPTH <=? n_depth parent with Err FailureReason.DepthExceeded ;;
  bail MAX_ACCEPTED_CHILDREN_PER_NODE <=? n_accepted_children parent
    with Err FailureReason.ChildLimitExceeded ;;
  bail MAX_RECURSIVE_NODES_PER_ROOT <=? Z.of_nat (size (nodes self))
    with Err FailureReason.TreeBudgetExhausted ;;
  bail negb (bool_decide (p_requested_capabilities proposal ⊆ n_capabilities parent))
    with Err FailureReason.CapabilityEscalation ;;
  bail negb (bool_decide (scope_capabilities (p_requested_scope proposal)
                          = p_requested_capabilities proposal))
    with Err FailureReason.ScopeMismatch ;;
  bail negb (is_subset_of (p_requested_scope proposal) (n_scope parent))
    with Err FailureReason.ScopeMismatch ;;
  let fingerprint := objective_fingerprint (p_objective proposal) in
  bail bool_decide (fingerprint ∈ n_ancestor_fingerprints parent)
    || bool_decide (n_objective_fingerprint parent = fingerprint)
    with Err FailureReason.AncestorCycle ;;
  bail existsb (λ node, bool_decide (n_objective_fingerprint node = fingerprint))
         (btree_values (nodes self))
    with Err FailureReason.DuplicateObjective ;;
  Ok (parent, fingerprint).

(** The effective child budget and its check against the whole tree. *)
Definition admit_budget (proposal : RecursiveProposal) (parent : RecursiveNode)
    (self : RecursiveTree) : result RecursiveFailureReason RecursiveBudget :=
  let effective_budget :=
    bounded_by (bounded_by (p_budget proposal) (n_child_budget parent))
      (root_budget self) in
  bail negb (is_nonzero effective_budget) with Err FailureReason.TreeBudgetExhausted ;;
  bail match root_budget_limit self with
       | Some limit =>
         let projected_total :=
           budget_add (budget_add (spent_budget self) (reserved_budget self))
             effective_budget in
         negb (can_spend limit projected_total)
       | None => false
       end with Err FailureReason.TreeBudgetExhausted ;;
  Ok effective_budget.

(** The child node the control plane derives. *)
Definition admit_node (proposal : RecursiveProposal) (parent : RecursiveNode)
    (fingerprint : string) (effective_budget : RecursiveBudget)
    (self : RecursiveTree) : RecursiveNode :=
  let derived_capabilities :=
    heritable_recursive_capabilities (p_requested_capabilities proposal) in
  let derived_scope :=
    (p_requested_scope proposal) <| scope_capabilities := derived_capabilities |> in
  {| n_node_id := derived_node_id (root_run_id self) (p_proposal_id proposal) fingerprint;
     n_root_run_id := root_run_id self;
     n_parent_node_id := Some (n_node_id parent);
     n_proposal_id := Some (p_proposal_id proposal);
     n_depth := n_depth parent + 1;
     n_objective_fingerprint := fingerprint;
     n_ancestor_fingerprints :=
       n_ancestor_fingerprints parent ++ [n_objective_fingerprint parent];
     n_scope := derived_scope; n_capabilities := derived_capabilities;
     n_tenant_id := n_tenant_id parent; n_workspace_id := n_workspace_id parent;
     n_budget := effective_budget; n_budget_limit := effective_budget;
     n_child_budget := effective_budget; n_child_budget_limit := effective_budget;
     n_reservation := effective_budget; n_actual_usage := budget_default;
     n_status := NodeStatus.Ready; n_accepted_children := 0;
     n_retry_count := 0; n_version := 1; n_lease_id := None;
     n_failure_reason := None;
     n_evidence_refs := ["agent_proposal/" +:+ p_proposal_id proposal] |}.

(** [None] is the panic of [expect("parent checked")]. *)
Definition admit_child (env : env_vars) (proposal : RecursiveProposal)
    (self : RecursiveTree) : option (tree_result RecursiveAdmission) :=
  match admit_checks env proposal self with
  | Err e => Some (Err e, self)
  | Ok (parent, fingerprint) =>
    match admit_budget proposal parent self with
    | Err e => Some (Err e, self)
    | Ok effective_budget =>
      let node := admit_node proposal parent fingerprint effective_budget self in
      match nodes self !! n_node_id parent with
      | None => None
      | Some parent_entry =>
        let parent_entry := parent_entry
          <| n_accepted_children := u64_incr (n_accepted_children parent_entry) |>
          <| n_child_budget := spend (n_child_budget parent_entry) effective_budget |>
          <| n_version := u64_incr (n_version parent_entry) |> in
        let self := self
          <| nodes := <[n_node_id node := node]>
               (<[n_node_id parent := parent_entry]> (nodes self)) |>
          <| root_budget := spend (root_budget self) effective_budget |>
          <| reserved_budget := budget_add (reserved_budget self) effective_budget |>
          <| accepted_proposals :=
               {[p_proposal_id proposal]} ∪ accepted_proposals self |>
          <| receipts :=
               <[p_proposal_id proposal := p_receipt_sha256 proposal]> (receipts self) |>
          <| t_version := u64_incr (t_version self) |> in
        Some (Ok (mkAdmission node (u64_incr (n_version parent))), self)
      end
    end
  end.

(** ** Leases *)

Definition lease_node (env : env_vars) (node_id lease_id : string)
    (self : RecursiveTree) : tree_result unit :=
  bail negb (recursive_enabled env) with (Err FailureReason.RecursiveDisabled, self) ;;
  bail kill_switch_active env
    with (Err FailureReason.RecursiveKillSwitchActive, self) ;;
  match running_gate (execution_state self) with
  | Err e => (Err e, self)
  | Ok _ =>
    bail MAX_RECURSIVE_LEASES <=? Z.of_nat (size (active_leases self))
      with (Err FailureReason.SchedulerCapacityExhausted, self) ;;
    match nodes self !! node_id with
    | None => (Err FailureReason.StaleParent, self)
    | Some node =>
      bail is_some (n_lease_id node) || negb (bool_decide (n_status node = NodeStatus.Ready))
        with (Err FailureReason.ProposalConflict, self) ;;
      let node := node <| n_lease_id := Some lease_id |>
                       <| n_status := NodeStatus.Leased |>
                       <| n_version := u64_incr (n_version node) |> in
      (Ok tt, self <| nodes := <[node_id := node]> (nodes self) |>
                   <| active_leases := {[lease_id]} ∪ active_leases self |>
                   <| t_version := u64_incr (t_version self) |>)
    end
  end.

(** ** Usage accounting *)

Definition is_settled (s : RecursiveExecutionState) : bool :=
  match s with
  | ExecutionState.Completed | ExecutionState.KillStopped
  | ExecutionState.TerminalFailed => true
  | _ => false
  end.

(** A receipt already recorded: [Some (Ok b)] when it carries the same usage
    ([b] is its budget verdict), [Some (Err ReceiptConflict)] when it carries
    another one, [None] when there is no such receipt. *)
Definition recorded_usage (receipt_id usage_fingerprint : string)
    (self : RecursiveTree) : option (result RecursiveFailureReason bool) :=
  match usage_receipts self !! receipt_id with
  | None => None
  | Some previous => Some
    match strip_prefix "1:" previous with
    | Some previous_usage =>
      if bool_decide (previous_usage = usage_fingerprint) then Ok true
      else Err FailureReason.ReceiptConflict
    | None =>
      match strip_prefix "0:" previous with
      | Some previous_usage =>
        if bool_decide (previous_usage = usage_fingerprint) then Ok false
        else Err FailureReason.ReceiptConflict
      | None => Err FailureReason.ReceiptConflict
      end
    end
  end.

Definition usage_receipt_value (within : bool) (usage_fingerprint : string) : string :=
  (if within then "1:" else "0:") +:+ usage_fingerprint.

Definition record_usage_internal (receipt_id : string) (usage : RecursiveBudget)
    (consumes_reservation : bool) (self : RecursiveTree) : tree_result bool :=
  match usage_to_string usage with
  | None => (Err FailureReason.ReceiptConflict, self)
  | Some usage_fingerprint =>
    match recorded_usage receipt_id usage_fingerprint self with
    | Some r => (r, self)
    | None =>
      let within_tree_budget :=
        match root_budget_limit self with
        | Some limit =>
          let after_spent := budget_add (spent_budget self) usage in
          let after_reserved :=
            if consumes_reservation then spend (reserved_budget self) usage
            else reserved_budget self in
          can_spend limit (budget_add after_spent after_reserved)
        | None => true
        end in
      let self := self <| spent_budget := budget_add (spent_budget self) usage |> in
      let self :=
        if consumes_reservation
        then self <| reserved_budget := spend (reserved_budget self) usage |>
        else self in
      let self := self <| usage_receipts :=
        <[receipt_id := usage_receipt_value within_tree_budget usage_fingerprint]>
          (usage_receipts self) |> in
      let self :=
        if negb within_tree_budget && negb (is_settled (execution_state self))
        then self <| execution_state := ExecutionState.BudgetExhausted |>
                  <| t_version := u64_incr (t_version self) |>
        else self in
      (Ok within_tree_budget, self)
    end
  end.

Definition record_usage (receipt_id : string) (usage : RecursiveBudget)
    (self : RecursiveTree) : tree_result bool :=
  record_usage_internal receipt_id usage true self.

Definition record_unreserved_usage (receipt_id : string) (usage : RecursiveBudget)
    (self : RecursiveTree) : tree_result bool :=
  record_usage_internal receipt_id usage false self.

(** ** Reservations and terminalisation *)

Definition release_node_reservation_for_persistence (node_id : string)
    (self : RecursiveTree) : RecursiveTree :=
  match nodes self !! node_id with
  | None => self
  | Some node =>
    let remaining := n_reservation node in
    let parent_node_id := n_parent_node_id node in
    let self := self <| nodes :=
      <[node_id := node <| n_reservation := budget_default |>]> (nodes self) |> in
    let self := self
      <| reserved_budget := spend (reserved_budget self) remaining |>
      <| root_budget := budget_add (root_budget self) remaining |> in
    let self :=
      match parent_node_id with
      | None => self
      | Some parent_node_id =>
        match nodes self !! parent_node_id with
        | None => self
        | Some parent =>
          self <| nodes := <[parent_node_id := parent
            <| n_child_budget := budget_add (n_child_budget parent) remaining |>
            <| n_version := u64_incr (n_version parent) |>]> (nodes self) |>
        end
      end in
    self <| t_version := u64_incr (t_version self) |>
  end.

Definition is_live (s : RecursiveNodeStatus) : bool :=
  match s with
  | NodeStatus.Ready | NodeStatus.Leased => true
  | NodeStatus.Completed | NodeStatus.Failed => false
  end.

(** The loop body of both terminalisations: fail one node and drop its lease. *)
Definition fail_node (reason : RecursiveFailureReason) (self : RecursiveTree)
    (node_id : string) : RecursiveTree :=
  match nodes self !! node_id with
  | None => self
  | Some node =>
    let self :=
      match n_lease_id node with
      | Some lease_id => self <| active_leases := active_leases self ∖ {[lease_id]} |>
      | None => self
      end in
    self <| nodes := <[node_id := node
      <| n_lease_id := None |>
      <| n_status := NodeStatus.Failed |>
      <| n_failure_reason := Some reason |>
      <| n_version := u64_incr (n_version node) |>]> (nodes self) |>
  end.

Definition release_all (self : RecursiveTree) (ids : list string) : RecursiveTree :=
  foldl (λ t id, release_node_reservation_for_persistence id t) self ids.

Definition terminalized_ids (except_node_id : option string)
    (self : RecursiveTree) : list string :=
  n_node_id <$> filter (λ node,
    is_some (n_parent_node_id node)
    && negb (bool_decide (Some (n_node_id node) = except_node_id))
    && is_live (n_status node) = true) (btree_values (nodes self)).

Definition terminalize_remaining_nodes (except_node_id : option string)
    (reason : RecursiveFailureReason) (self : RecursiveTree)
    : list string * RecursiveTree :=
  let terminalized := terminalized_ids except_node_id self in
  let self := foldl (fail_node reason) self terminalized in
  let self := release_all self terminalized in
  let self :=
    match terminalized with
    | [] => self
    | _ => self <| t_version := u64_incr (t_version self) |>
    end in
  (terminalized, self).

(** The walk up the parent chain of [finalize_terminal_tree]; [None] when the
    fuel runs out. *)
Fixpoint has_ancestor (fuel : nat) (ns : gmap string RecursiveNode)
    (node_id : string) (parent : option string) : option bool :=
  match parent with
  | None => Some false
  | Some parent_id =>
    if bool_decide (parent_id = node_id) then Some true
    else match fuel with
         | O => None
         | S fuel => has_ancestor fuel ns node_id (ns !! parent_id ≫= n_parent_node_id)
         end
  end.

(** The live descendants of [node_id], in key order. *)
Fixpoint live_descendants (ns : gmap string RecursiveNode) (node_id : string)
    (candidates : list RecursiveNode) : option (list string) :=
  match candidates with
  | [] => Some []
  | candidate :: rest =>
    match has_ancestor (size ns) ns node_id (n_parent_node_id candidate) with
    | None => None
    | Some b =>
      match live_descendants ns node_id rest with
      | None => None
      | Some ids =>
        Some (if b && is_live (n_status candidate)
              then n_node_id candidate :: ids else ids)
      end
    end
  end.

Definition is_terminal (s : RecursiveExecutionState) : bool :=
  match s with
  | ExecutionState.BudgetExhausted | ExecutionState.KillStopped
  | ExecutionState.TerminalFailed | ExecutionState.Completed => true
  | ExecutionState.Running | ExecutionState.OperatorPaused => false
  end.

(** The closing test of [finalize_terminal_tree]. *)
Definition close_tree (self : RecursiveTree) : RecursiveTree :=
  let all_nodes := btree_values (nodes self) in
  if bool_decide (active_leases self = ∅)
     && forallb (λ node, negb (is_live (n_status node))) all_nodes
  then
    let state :=
      if forallb (λ node, bool_decide (n_status node = NodeStatus.Completed)) all_nodes
      then ExecutionState.Completed else ExecutionState.TerminalFailed in
    self <| execution_state := state |> <| t_version := u64_incr (t_version self) |>
  else self.

(** [None] when the walk over the parents does not end within [size nodes]
    steps. *)
Definition finalize_terminal_tree (failed_node_id : option string)
    (self : RecursiveTree) : option RecursiveTree :=
  if is_terminal (execution_state self) then Some self
  else match failed_node_id with
  | None => Some (close_tree self)
  | Some node_id =>
    match live_descendants (nodes self) node_id (btree_values (nodes self)) with
    | None => None
    | Some descendants =>
      let self := foldl (fail_node FailureReason.TerminalFailed) self descendants in
      let self := release_all self descendants in
      Some (close_tree self)
    end
  end.

(** ** Completion *)

Definition complete_node_with_usage_receipt (node_id lease_id usage_receipt_id : string)
    (success : bool) (usage : RecursiveBudget) (self : RecursiveTree)
    : tree_result unit :=
  let usage_previously_recorded := is_some (usage_receipts self !! usage_receipt_id) in
  match nodes self !! node_id with
  | None => (Err FailureReason.StaleParent, self)
  | Some node =>
    bail negb (bool_decide (n_lease_id node = Some lease_id))
      with (Err FailureReason.ReceiptConflict, self) ;;
    let within_node_budget :=
      if usage_previously_recorded then true else can_spend (n_budget node) usage in
    match record_usage usage_receipt_id usage self with
    | (Err e, self) => (Err e, self)
    | (Ok within_tree_budget, self) =>
      let within_budget := within_node_budget && within_tree_budget in
      match nodes self !! node_id with
      | None => (Err FailureReason.StaleParent, self)
      | Some node =>
        let node :=
          if usage_previously_recorded then node
          else node <| n_budget := spend (n_budget node) usage |>
                    <| n_actual_usage := budget_add (n_actual_usage node) usage |>
                    <| n_reservation := spend (n_reservation node) usage |> in
        let node := node
          <| n_status := if success && within_budget
                         then NodeStatus.Completed else NodeStatus.Failed |>
          <| n_failure_reason :=
               if negb within_budget then Some FailureReason.TreeBudgetExhausted
               else if negb success && (MAX_RECURSIVE_RETRIES <=? n_retry_count node)
               then Some FailureReason.RetryExhausted
               else if negb success then Some FailureReason.ExecutionFailure else None |>
          <| n_lease_id := None |>
          <| n_version := u64_incr (n_version node) |> in
        let self := self <| nodes := <[node_id := node]> (nodes self) |>
                         <| active_leases := active_leases self ∖ {[lease_id]} |> in
        let self :=
          if negb within_budget
          then (terminalize_remaining_nodes (Some node_id)
                  FailureReason.TreeBudgetExhausted
                  (self <| execution_state := ExecutionState.BudgetExhausted |>)).2
          else self in
        (Ok tt, self <| t_version := u64_incr (t_version self) |>)
      end
    end
  end.

Definition complete_node_with_usage (node_id lease_id : string) (success : bool)
    (usage : RecursiveBudget) (self : RecursiveTree) : tree_result unit :=
  complete_node_with_usage_receipt node_id lease_id lease_id success usage self.

Definition complete_node (node_id lease_id : string) (success : bool)
    (self : RecursiveTree) : tree_result unit :=
  match complete_node_with_usage node_id lease_id success (mkBudget 0 0 0 0) self with
  | (Ok u, self) => (Ok u, release_node_reservation_for_persistence node_id self)
  | (Err e, self) => (Err e, self)
  end.

(** The replay of a completion whose root is already settled. *)
Definition settled_root_replay (root : RecursiveNode) (usage_receipt_id : string)
    (success : bool) (usage : RecursiveBudget) (self : RecursiveTree)
    : result RecursiveFailureReason unit :=
  usage_fingerprint <-? ok_or (usage_to_string usage) FailureReason.ReceiptConflict ;;
  match usage_receipts self !! usage_receipt_id with
  | None => Err FailureReason.ReceiptConflict
  | Some previous =>
    if bool_decide (strip_prefix "1:" previous = Some usage_fingerprint)
       && ((success && bool_decide (n_status root = NodeStatus.Completed)
            && is_none (n_failure_reason root))
           || (negb success && bool_decide (n_status root = NodeStatus.Failed)
               && bool_decide (n_failure_reason root = Some FailureReason.ExecutionFailure)))
    then Ok tt
    else if bool_decide (strip_prefix "0:" previous = Some usage_fingerprint)
            && bool_decide (n_status root = NodeStatus.Failed)
            && bool_decide (n_failure_reason root = Some FailureReason.TreeBudgetExhausted)
    then Ok tt
    else Err FailureReason.ReceiptConflict
  end.

(** The [None] result is [finalize_terminal_tree]'s; with no failed node it
    does not walk, so it does not arise here. *)
Definition complete_root_with_usage_receipt (lease_id usage_receipt_id : string)
    (success : bool) (usage : RecursiveBudget) (self : RecursiveTree)
    : option (tree_result unit) :=
  let root_id := root_node_id self in
  match nodes self !! root_id with
  | None => Some (Err FailureReason.RecursiveNodeMissing, self)
  | Some root =>
    bail is_some (n_parent_node_id root)
      with Some (Err FailureReason.ReceiptConflict, self) ;;
    bail negb (is_live (n_status root))
      with Some (settled_root_replay root usage_receipt_id success usage self, self) ;;
    bail negb (bool_decide (n_lease_id root = Some lease_id))
      || negb (bool_decide (n_status root = NodeStatus.Leased))
      with Some (Err FailureReason.ReceiptConflict, self) ;;
    let usage_previously_recorded := is_some (usage_receipts self !! usage_receipt_id) in
    let within_node_budget := usage_previously_recorded || can_spend (n_budget root) usage in
    match record_unreserved_usage usage_receipt_id usage self with
    | (Err e, self) => Some (Err e, self)
    | (Ok within_tree_budget, self) =>
      let self :=
        if usage_previously_recorded then self
        else self <| root_budget := spend (root_budget self) usage |> in
      let within_budget := within_node_budget && within_tree_budget in
      match nodes self !! root_id with
      | None => Some (Err FailureReason.RecursiveNodeMissing, self)
      | Some root =>
        let root :=
          if usage_previously_recorded then root
          else root <| n_budget := spend (n_budget root) usage |>
                    <| n_actual_usage := budget_add (n_actual_usage root) usage |> in
        let root := root
          <| n_status := if success && within_budget
                         then NodeStatus.Completed else NodeStatus.Failed |>
          <| n_failure_reason :=
               if negb within_budget then Some FailureReason.TreeBudgetExhausted
               else if negb success then Some FailureReason.ExecutionFailure else None |>
          <| n_lease_id := None |>
          <| n_version := u64_incr (n_version root) |> in
        let self := self <| nodes := <[root_id := root]> (nodes self) |>
                         <| active_leases := active_leases self ∖ {[lease_id]} |> in
        let self :=
          if negb within_budget
          then (terminalize_remaining_nodes (Some root_id)
                  FailureReason.TreeBudgetExhausted
                  (self <| execution_state := ExecutionState.BudgetExhausted |>)).2
          else if negb success
          then (terminalize_remaining_nodes (Some root_id)
                  FailureReason.TerminalFailed
                  (self <| execution_state := ExecutionState.TerminalFailed |>)).2
          else self in
        let self := self <| t_version := u64_incr (t_version self) |> in
        if success && within_budget
        then match finalize_terminal_tree None self with
             | None => None
             | Some self => Some (Ok tt, self)
             end
        else Some (Ok tt, self)
      end
    end
  end.

Definition complete_root_with_usage (lease_id : string) (success : bool)
    (usage : RecursiveBudget) (self : RecursiveTree) : option (tree_result unit) :=
  complete_root_with_usage_receipt lease_id lease_id success usage self.

(** ** Late usage *)

Definition record_root_late_usage (receipt_id : string) (usage : RecursiveBudget)
    (self : RecursiveTree) : tree_result bool :=
  match usage_to_string usage with
  | None => (Err FailureReason.ReceiptConflict, self)
  | Some usage_fingerprint =>
    match recorded_usage receipt_id usage_fingerprint self with
    | Some r => (r, self)
    | None =>
      match nodes self !! root_node_id self with
      | None => (Err FailureReason.RecursiveNodeMissing, self)
      | Some root =>
        let within_root_budget := can_spend (n_budget root) usage in
        match record_unreserved_usage receipt_id usage self with
        | (Err e, self) => (Err e, self)
        | (Ok within_tree_budget, self) =>
          let within_budget := within_root_budget && within_tree_budget in
          let self := self <| root_budget := spend (root_budget self) usage |> in
          let root_id := root_node_id self in
          match nodes self !! root_id with
          | None => (Err FailureReason.RecursiveNodeMissing, self)
          | Some root =>
            let root := root <| n_budget := spend (n_budget root) usage |>
                             <| n_actual_usage := budget_add (n_actual_usage root) usage |>
                             <| n_version := u64_incr (n_version root) |> in
            let self := self <| nodes := <[root_id := root]> (nodes self) |> in
            let self :=
              if within_budget then self
              else
                let self := self <| usage_receipts :=
                  <[receipt_id := usage_receipt_value false usage_fingerprint]>
                    (usage_receipts self) |> in
                if is_settled (execution_state self) then self
                else (terminalize_remaining_nodes (Some root_id)
                        FailureReason.TreeBudgetExhausted
                        (self <| execution_state := ExecutionState.BudgetExhausted |>)).2 in
            (Ok within_budget, self <| t_version := u64_incr (t_version self) |>)
          end
        end
      end
    end
  end.

Definition record_late_usage (node_id attempt_receipt : string)
    (usage : RecursiveBudget) (self : RecursiveTree) : tree_result bool :=
  match usage_to_string usage with
  | None => (Err FailureReason.ReceiptConflict, self)
  | Some usage_fingerprint =>
    match recorded_usage attempt_receipt usage_fingerprint self with
    | Some r => (r, self)
    | None =>
      match nodes self !! node_id with
      | None => (Err FailureReason.StaleParent, self)
      | Some node =>
        let within_node_budget := can_spend (n_budget node) usage in
        match record_usage attempt_receipt usage self with
        | (Err e, self) => (Err e, self)
        | (Ok within_tree_budget, self) =>
          let within_budget := within_node_budget && within_tree_budget in
          match nodes self !! node_id with
          | None => (Err FailureReason.StaleParent, self)
          | Some node =>
            let node := node <| n_budget := spend (n_budget node) usage |>
                             <| n_actual_usage := budget_add (n_actual_usage node) usage |>
                             <| n_reservation := spend (n_reservation node) usage |>
                             <| n_version := u64_incr (n_version node) |> in
            let self := self <| nodes := <[node_id := node]> (nodes self) |> in
            let self :=
              if within_budget then self
              else
                let self := self <| usage_receipts :=
                  <[attempt_receipt := usage_receipt_value false usage_fingerprint]>
                    (usage_receipts self) |> in
                if is_settled (execution_state self) then self
                else (terminalize_remaining_nodes (Some node_id)
                        FailureReason.TreeBudgetExhausted
                        (self <| execution_state := ExecutionState.BudgetExhausted |>)).2 in
            (Ok within_budget, self <| t_version := u64_incr (t_version self) |>)
          end
        end
      end
    end
  end.

(** ** Retry and recovery *)

Definition retry_node (node_id : string) (self : RecursiveTree) : tree_result unit :=
  match nodes self !! node_id with
  | None => (Err FailureReason.StaleParent, self)
  | Some node =>
    let node :=
      if MAX_RECURSIVE_RETRIES <=? n_retry_count node
      then node <| n_status := NodeStatus.Failed |>
                <| n_failure_reason := Some FailureReason.RetryExhausted |>
      else node <| n_retry_count := n_retry_count node + 1 |>
                <| n_status := NodeStatus.Ready |>
                <| n_failure_reason := None |> in
    let node := node <| n_version := u64_incr (n_version node) |> in
    (Ok tt, self <| nodes := <[node_id := node]> (nodes self) |>
                 <| t_version := u64_incr (t_version self) |>)
  end.

Definition retry_allowed (env : env_vars) (node_id : string) (usage : RecursiveBudget)
    (self : RecursiveTree) : result RecursiveFailureReason bool :=
  node <-? ok_or (nodes self !! node_id) FailureReason.StaleParent ;;
  let current_attempt_fits := can_spend (n_budget node) usage in
  let remaining :=
    if current_attempt_fits then spend (n_budget node) usage else n_budget node in
  Ok (recursive_enabled env
      && negb (kill_switch_active env)
      && bool_decide (execution_state self = ExecutionState.Running)
      && (n_retry_count node <? MAX_RECURSIVE_RETRIES)
      && current_attempt_fits
      && (0 <? calls_remaining remaining)).

Definition recover_stale_lease (node_id lease_id : string) (retry : bool)
    (self : RecursiveTree) : tree_result string :=
  match nodes self !! node_id with
  | None => (Err FailureReason.RecursiveNodeMissing, self)
  | Some node =>
    bail negb (bool_decide (n_lease_id node = Some lease_id))
      with (Err FailureReason.ReceiptConflict, self) ;;
    let node := node <| n_lease_id := None |> in
    let node :=
      if retry && (n_retry_count node <? MAX_RECURSIVE_RETRIES)
      then node <| n_retry_count := n_retry_count node + 1 |>
                <| n_status := NodeStatus.Ready |>
                <| n_failure_reason := None |>
      else node <| n_status := NodeStatus.Failed |>
                <| n_failure_reason := Some FailureReason.RetryExhausted |> in
    let node := node <| n_version := u64_incr (n_version node) |> in
    (Ok (NodeStatus.status_as_str (n_status node)),
     self <| active_leases := active_leases self ∖ {[lease_id]} |>
          <| nodes := <[node_id := node]> (nodes self) |>
          <| t_version := u64_incr (t_version self) |>)
  end.

(** ** Operator control and rejections *)

Definition pause (self : RecursiveTree) : RecursiveTree :=
  let self :=
    if bool_decide (execution_state self = ExecutionState.Running)
    then self <| execution_state := ExecutionState.OperatorPaused |> else self in
  self <| t_version := u64_incr (t_version self) |>.

Definition resume (self : RecursiveTree) : RecursiveTree :=
  if bool_decide (execution_state self = ExecutionState.OperatorPaused)
  then self <| execution_state := ExecutionState.Running |>
            <| t_version := u64_incr (t_version self) |>
  else self.

Definition record_rejection_evidence (proposal_id : string)
    (evidence : RecursiveDecisionEvidence) (self : RecursiveTree) : RecursiveTree :=
  self <| rejected_proposals := <[proposal_id := evidence]> (rejected_proposals self) |>
       <| t_version := u64_incr (t_version self) |>.

Definition record_rejection (proposal_id : string) (reason : RecursiveFailureReason)
    (self : RecursiveTree) : RecursiveTree :=
  record_rejection_evidence proposal_id
    (mkEvidence reason ["agent_proposal/" +:+ proposal_id]) self.

End operations.
