(* ===== verification/RecursiveTreeProps.v ===== *)
(** * Properties of recursive task trees

    Invariants of every tree reachable by the operations of
    RecursiveExecution.v, exactly-once usage accounting, and the behaviour of
    admission, leasing and terminalisation. *)

From S2P Require Import Prelude Text RecursiveExecution.

Local Open Scope Z_scope.

(** ** Budgets *)

Definition budget_ok (b : RecursiveBudget) : Prop :=
  is_u64 (calls_remaining b) ∧ is_u64 (tokens_remaining b)
  ∧ is_u64 (cost_micros_remaining b) ∧ is_u64 (time_ms_remaining b).

Definition budget_le (a b : RecursiveBudget) : Prop :=
  calls_remaining a ≤ calls_remaining b ∧ tokens_remaining a ≤ tokens_remaining b
  ∧ cost_micros_remaining a ≤ cost_micros_remaining b
  ∧ time_ms_remaining a ≤ time_ms_remaining b.

Ltac budget_lia :=
  unfold budget_ok, budget_le, spend, budget_add, bounded_by, budget_default in *;
  cbn [calls_remaining tokens_remaining cost_micros_remaining time_ms_remaining] in *;
  repeat match goal with H : _ ∧ _ |- _ => destruct H end;
  repeat split; int_lia.

Create HintDb budget.

#[export] Instance budget_le_preorder : PreOrder budget_le.
Proof. split; [intros ?|intros ?????]; budget_lia. Qed.

Lemma can_spend_spec b a : can_spend b a = true ↔ budget_le a b.
Proof. unfold can_spend, budget_le. rewrite !andb_true_iff, !Z.leb_le. tauto. Qed.

Lemma budget_eq a b : budget_le a b → budget_le b a → a = b.
Proof. destruct a, b. unfold budget_le. simpl. intros. f_equal; lia. Qed.

Lemma budget_default_ok : budget_ok budget_default.
Proof. intros. budget_lia. Qed.
Lemma spend_ok a b : budget_ok a → budget_ok b → budget_ok (spend a b).
Proof. intros. budget_lia. Qed.
Lemma budget_add_ok a b : budget_ok a → budget_ok b → budget_ok (budget_add a b).
Proof. intros. budget_lia. Qed.
Lemma bounded_by_ok a b : budget_ok a → budget_ok b → budget_ok (bounded_by a b).
Proof. intros. budget_lia. Qed.
#[export] Hint Resolve budget_default_ok spend_ok budget_add_ok bounded_by_ok : budget.

Lemma spend_le a b : budget_ok a → budget_ok b → budget_le (spend a b) a.
Proof. intros. budget_lia. Qed.

Lemma budget_add_assoc a b c :
  budget_ok a → budget_ok b → budget_ok c →
  budget_add a (budget_add b c) = budget_add (budget_add a b) c.
Proof.
  intros (?&?&?&?&?) (?&?&?&?&?) (?&?&?&?&?). unfold budget_add.
  f_equal; by apply u64_saturating_add_assoc.
Qed.

Lemma budget_add_mono a b c :
  budget_ok a → budget_le b c → budget_le (budget_add a b) (budget_add a c).
Proof. intros. budget_lia. Qed.

Lemma bounded_by_le_l a b : budget_le (bounded_by a b) a.
Proof. intros. budget_lia. Qed.
Lemma bounded_by_le_r a b : budget_le (bounded_by a b) b.
Proof. intros. budget_lia. Qed.

(** ** The immutable part of a node *)

Record NodeStatic : Type := mkStatic {
  st_node_id : string;
  st_parent : option string;
  st_depth : Z;
  st_fingerprint : string;
  st_ancestors : list string;
  st_scope : RecursiveScope;
  st_capabilities : gset string;
  st_children : Z;
}.

Definition node_static (n : RecursiveNode) : NodeStatic :=
  mkStatic (n_node_id n) (n_parent_node_id n) (n_depth n)
    (n_objective_fingerprint n) (n_ancestor_fingerprints n) (n_scope n)
    (n_capabilities n) (n_accepted_children n).

Definition statics (t : RecursiveTree) : gmap string NodeStatic :=
  node_static <$> nodes t.

Lemma statics_update (ns : gmap string RecursiveNode) id n n' :
  ns !! id = Some n → node_static n' = node_static n →
  node_static <$> <[id := n']> ns = node_static <$> ns.
Proof.
  intros H E. rewrite fmap_insert, E. apply insert_id. by rewrite lookup_fmap, H.
Qed.

Lemma lookup_statics t k n :
  nodes t !! k = Some n → statics t !! k = Some (node_static n).
Proof. intros H. unfold statics. by rewrite lookup_fmap, H. Qed.

Lemma statics_size t t' : statics t' = statics t → size (nodes t') = size (nodes t).
Proof.
  intros E. unfold statics in E. apply (f_equal size) in E.
  by rewrite !map_size_fmap in E.
Qed.

(** ** Accounting invariant *)

Definition node_ok (n : RecursiveNode) : Prop :=
  budget_ok (n_budget n) ∧ budget_ok (n_child_budget n)
  ∧ budget_ok (n_reservation n) ∧ budget_ok (n_actual_usage n)
  ∧ 0 <= n_retry_count n <= MAX_RECURSIVE_RETRIES.

(** While the tree is live (running or paused), what was spent plus what is
    reserved fits in the tree's budget. *)
Definition within_limit (t : RecursiveTree) : Prop :=
  is_terminal (execution_state t) = false →
  ∀ limit, root_budget_limit t = Some limit →
  budget_le (budget_add (spent_budget t) (reserved_budget t)) limit.

Record accounts_ok (t : RecursiveTree) : Prop := {
  ao_spent : budget_ok (spent_budget t);
  ao_reserved : budget_ok (reserved_budget t);
  ao_root : budget_ok (root_budget t);
  ao_nodes : map_Forall (λ _ n, node_ok n) (nodes t);
  ao_limit : within_limit t;
}.

(** ** What every operation but admission and leasing keeps *)

Record frame (t t' : RecursiveTree) : Prop := {
  fr_statics : statics t' = statics t;
  fr_root : root_node_id t' = root_node_id t;
  fr_run : root_run_id t' = root_run_id t;
  fr_limit : root_budget_limit t' = root_budget_limit t;
  fr_accepted : accepted_proposals t' = accepted_proposals t;
  fr_leases : active_leases t' ⊆ active_leases t;
  fr_terminal : is_terminal (execution_state t) = true →
                is_terminal (execution_state t') = true;
  fr_accounts : accounts_ok t → accounts_ok t';
}.

#[export] Instance frame_preorder : PreOrder frame.
Proof.
  split.
  - intros t. by split.
  - intros t1 t2 t3 [] []. split; try congruence; [set_solver|auto..].
Qed.

(** *** Building blocks *)

Ltac node_split :=
  unfold node_ok in *; refine (conj _ (conj _ (conj _ (conj _ _)))); cbn;
  auto with budget.

Create HintDb frame.

Ltac frame_split := split; cbn; auto with frame.

Lemma frame_version t v : frame t (t <| t_version := v |>).
Proof. frame_split. intros []. by split. Qed.

Lemma frame_drop_lease t ls l :
  ls = active_leases t ∖ {[l]} → frame t (t <| active_leases := ls |>).
Proof. intros ->. frame_split; [by apply subseteq_difference_l|]. intros []. by split. Qed.

Lemma frame_usage_receipts t m : frame t (t <| usage_receipts := m |>).
Proof. frame_split. intros []. by split. Qed.

Lemma frame_rejected t m : frame t (t <| rejected_proposals := m |>).
Proof. frame_split. intros []. by split. Qed.

Lemma frame_terminal_state t s :
  is_terminal s = true → frame t (t <| execution_state := s |>).
Proof.
  intros E. frame_split. intros []. split; auto. unfold within_limit. cbn. congruence.
Qed.

Lemma frame_spend_root t u :
  budget_ok u → frame t (t <| root_budget := spend (root_budget t) u |>).
Proof. intros. frame_split. intros []. split; cbn; auto with budget. Qed.

Lemma frame_update_node t id n n' :
  nodes t !! id = Some n → node_static n' = node_static n →
  (node_ok n → node_ok n') →
  frame t (t <| nodes := <[id := n']> (nodes t) |>).
Proof.
  intros H E Hb. frame_split.
  - unfold statics. cbn. by eapply statics_update.
  - intros []. split; cbn; auto. apply map_Forall_insert_2; [|done].
    apply Hb. by apply (ao_nodes0 id).
Qed.
#[export] Hint Resolve frame_version frame_drop_lease frame_usage_receipts
  frame_rejected frame_terminal_state frame_spend_root : frame.

(** *** Accounting *)

Section with_deps.
Context `{Deps : RecursiveDeps}.

Lemma frame_record_usage receipt usage b t r t' :
  budget_ok usage → record_usage_internal receipt usage b t = (r, t') → frame t t'.
Proof.
  intros Hu. unfold record_usage_internal.
  destruct (usage_to_string usage) as [fp|]; [|by intros [= _ <-]].
  destruct (recorded_usage receipt fp t); [by intros [= _ <-]|].
  set (within := match root_budget_limit t with Some _ => _ | None => _ end).
  intros [= _ <-].
  assert (Hw : within = true → ∀ limit, root_budget_limit t = Some limit →
    budget_le (budget_add (budget_add (spent_budget t) usage)
      (if b then spend (reserved_budget t) usage else reserved_budget t)) limit).
  { intros Hin limit Hl. subst within. rewrite Hl in Hin. by apply can_spend_spec. }
  assert (Hs : is_settled (execution_state t) = true →
    is_terminal (execution_state t) = true) by by destruct (execution_state t).
  match goal with |- context [is_settled ?s] =>
    replace s with (execution_state t) by by destruct b end.
  clearbody within.
  destruct b, within, (is_settled (execution_state t)); cbn [negb andb];
    (split; cbn; [reflexivity..|set_solver|by auto|]);
    intros []; (split; cbn; [by auto with budget..|]); unfold within_limit; cbn;
    intros Hlive; first [by eauto | rewrite Hs in Hlive by done | idtac]; done.
Qed.

Lemma frame_release id t : frame t (release_node_reservation_for_persistence id t).
Proof.
  unfold release_node_reservation_for_persistence.
  destruct (nodes t !! id) as [n|] eqn:Hn; [|done].
  set (t1 := t <| nodes := _ |>).
  set (t2 := t1 <| reserved_budget := _ |> <| root_budget := _ |>).
  assert (F : frame t t2).
  { split; cbn; auto.
    - unfold statics. cbn. by eapply statics_update.
    - intros [Hs Hr Hroot Hns Hlim]. pose proof (Hns _ _ Hn) as (?&?&?&?&?).
      split; cbn; auto with budget.
      + apply map_Forall_insert_2; [|done]. node_split.
      + intros Hlive limit Hl. cbn in *. transitivity (budget_add (spent_budget t) (reserved_budget t)).
        * apply budget_add_mono; [done|]. by apply spend_le.
        * by apply Hlim. }
  destruct (n_parent_node_id n) as [p|]; [|by rewrite F; apply frame_version].
  destruct (nodes t2 !! p) as [pn|] eqn:Hp; [|by rewrite F; apply frame_version].
  rewrite <-frame_version. destruct F as [Fs Fr Fu Fl Fp Fe Ft Fa]. split; try done.
  - rewrite <-Fs. by eapply statics_update.
  - intros A. pose proof (ao_nodes _ A _ _ Hn) as (_&_&?&_&_).
    apply Fa in A. pose proof (ao_nodes _ A _ _ Hp) as (?&?&?&?&?).
    destruct A. split; try done.
    apply map_Forall_insert_2; [|done]. node_split.
Qed.

Lemma frame_fail_node reason t id : frame t (fail_node reason t id).
Proof.
  unfold fail_node. destruct (nodes t !! id) as [n|] eqn:Hn; [|done].
  destruct (n_lease_id n) as [l|]; [|by eapply frame_update_node].
  etransitivity; [by eapply frame_drop_lease|]. by eapply frame_update_node.
Qed.

Lemma frame_foldl {B} (f : RecursiveTree → B → RecursiveTree) (l : list B) t :
  (∀ t x, frame t (f t x)) → frame t (foldl f t l).
Proof.
  intros H. revert t. induction l as [|x l IH]; intros t; simpl; [done|].
  by rewrite (H t x) at 1.
Qed.

Lemma frame_release_all t ids : frame t (release_all t ids).
Proof. apply frame_foldl. intros. apply frame_release. Qed.

Lemma frame_fail_all reason t ids : frame t (foldl (fail_node reason) t ids).
Proof. apply frame_foldl. intros. apply frame_fail_node. Qed.

Lemma frame_terminalize except reason t :
  frame t (terminalize_remaining_nodes except reason t).2.
Proof.
  unfold terminalize_remaining_nodes. cbn.
  rewrite (frame_fail_all reason t (terminalized_ids except t)) at 1.
  rewrite (frame_release_all _ (terminalized_ids except t)) at 1.
  destruct (terminalized_ids except t); [done|]. apply frame_version.
Qed.

Lemma frame_close_tree t : frame t (close_tree t).
Proof.
  unfold close_tree. case_match; [|done].
  rewrite <-frame_version. apply frame_terminal_state. by case_match.
Qed.

Lemma frame_finalize failed t t' :
  finalize_terminal_tree failed t = Some t' → frame t t'.
Proof.
  unfold finalize_terminal_tree. case_match; [by intros [= <-]|].
  case_match; [|by intros [= <-]; apply frame_close_tree].
  case_match; [|done]. intros [= <-].
  by rewrite <-frame_close_tree, <-frame_release_all, <-frame_fail_all.
Qed.
#[local] Hint Resolve frame_terminalize frame_close_tree frame_release : frame.

(** *** Operations *)

Lemma frame_complete_node_with_usage_receipt id l rid ok u t r t' :
  budget_ok u → complete_node_with_usage_receipt id l rid ok u t = (r, t') → frame t t'.
Proof.
  intros Hu. unfold complete_node_with_usage_receipt.
  destruct (nodes t !! id) as [n0|]; [|by intros [= _ <-]].
  case_match; [by intros [= _ <-]|].
  destruct (record_usage rid u t) as [[within|e] t1] eqn:Hrec;
    apply frame_record_usage in Hrec; [|done|by intros [= _ <-]|done].
  destruct (nodes t1 !! id) as [n|] eqn:Hn; [|by intros [= _ <-]].
  set (n' := if is_some _ then n else _). intros [= _ <-].
  transitivity t1; [exact Hrec|]. etransitivity; [|apply frame_version].
  assert (F : ∀ s f, frame t1 (t1 <| nodes := <[id := n'
     <| n_status := s |> <| n_failure_reason := f |> <| n_lease_id := None |>
     <| n_version := u64_incr (n_version n') |>]> (nodes t1) |>)).
  { intros s f. eapply frame_update_node; [done|by subst n'; case_match|].
    intros (?&?&?&?&?). subst n'. case_match; node_split. }
  case_match.
  - etransitivity; [|apply frame_terminalize].
    etransitivity; [|by apply frame_terminal_state].
    etransitivity; [|by eapply frame_drop_lease]. apply F.
  - etransitivity; [|by eapply frame_drop_lease]. apply F.
Qed.

Lemma frame_complete_node id l ok t r t' :
  complete_node id l ok t = (r, t') → frame t t'.
Proof.
  unfold complete_node, complete_node_with_usage.
  destruct (complete_node_with_usage_receipt _ _ _ _ _ _) as [[u|e] t1] eqn:E;
    apply frame_complete_node_with_usage_receipt in E; try apply budget_default_ok;
    intros [= _ <-]; [|done]. by rewrite <-frame_release.
Qed.

Lemma frame_complete_root l rid ok u t r t' :
  budget_ok u → complete_root_with_usage_receipt l rid ok u t = Some (r, t') → frame t t'.
Proof.
  intros Hu. unfold complete_root_with_usage_receipt.
  destruct (nodes t !! root_node_id t) as [n0|]; [|by intros [= _ <-]].
  case_match; [by intros [= _ <-]|]. case_match; [by intros [= _ <-]|].
  case_match; [by intros [= _ <-]|].
  destruct (record_unreserved_usage rid u t) as [[within|e] t1] eqn:Hrec;
    apply frame_record_usage in Hrec; [|done|by intros [= _ <-]|done].
  set (t2 := if is_some _ then t1 else _).
  assert (F2 : frame t t2) by (transitivity t1; [exact Hrec|]; subst t2; case_match;
    [done|by apply frame_spend_root]).
  clearbody t2.
  destruct (nodes t2 !! root_node_id t) as [n|] eqn:Hn; [|by intros [= _ <-]].
  set (n' := if is_some _ then n else _).
  assert (F : ∀ s f, frame t2 (t2 <| nodes := <[root_node_id t := n'
     <| n_status := s |> <| n_failure_reason := f |> <| n_lease_id := None |>
     <| n_version := u64_incr (n_version n') |>]> (nodes t2) |>)).
  { intros s f. eapply frame_update_node; [done|by subst n'; case_match|].
    intros (?&?&?&?&?). subst n'. case_match; node_split. }
  set (t3 := if negb _ then _ else _).
  assert (F3 : frame t2 t3).
  { subst t3. repeat match goal with |- frame _ (if ?b then _ else _) => destruct b end;
      try (etransitivity; [|apply frame_terminalize]);
      try (etransitivity; [|by apply frame_terminal_state]);
      (etransitivity; [|by eapply frame_drop_lease]); apply F. }
  clearbody t3.
  assert (F4 : frame t (t3 <| t_version := u64_incr (t_version t3) |>)).
  { transitivity t2; [done|]. transitivity t3; [done|]. apply frame_version. }
  case_match; [|by intros [= _ <-]].
  destruct (finalize_terminal_tree _ _) as [t4|] eqn:Hf; [|done].
  intros [= _ <-]. apply frame_finalize in Hf. etransitivity; [exact F4|exact Hf].
Qed.

(** The tail shared by the two late-usage operations. *)
Lemma frame_late_tail t id rid fp (b : bool) :
  frame t (if b then t else
    let t1 := t <| usage_receipts := <[rid := usage_receipt_value false fp]> (usage_receipts t) |> in
    if is_settled (execution_state t1) then t1
    else (terminalize_remaining_nodes (Some id) FailureReason.TreeBudgetExhausted
            (t1 <| execution_state := ExecutionState.BudgetExhausted |>)).2).
Proof.
  destruct b; [done|]. cbn zeta. case_match; [apply frame_usage_receipts|].
  etransitivity; [|apply frame_terminalize].
  etransitivity; [|by apply frame_terminal_state]. apply frame_usage_receipts.
Qed.

Lemma frame_record_late_usage id rid u t r t' :
  budget_ok u → record_late_usage id rid u t = (r, t') → frame t t'.
Proof.
  intros Hu. unfold record_late_usage.
  destruct (usage_to_string u) as [fp|]; [|by intros [= _ <-]].
  destruct (recorded_usage rid fp t); [by intros [= _ <-]|].
  destruct (nodes t !! id) as [n0|]; [|by intros [= _ <-]].
  destruct (record_usage rid u t) as [[within|e] t1] eqn:Hrec;
    apply frame_record_usage in Hrec; [|done|by intros [= _ <-]|done].
  destruct (nodes t1 !! id) as [n|] eqn:Hn; [|by intros [= _ <-]].
  intros [= _ <-]. transitivity t1; [exact Hrec|].
  set (t2 := t1 <| nodes := _ |>). transitivity t2.
  { eapply frame_update_node; [done|done|]. intros (?&?&?&?&?). node_split. }
  etransitivity; [|apply frame_version].
  apply (frame_late_tail t2 id rid fp (_ && _)).
Qed.

Lemma frame_record_root_late_usage rid u t r t' :
  budget_ok u → record_root_late_usage rid u t = (r, t') → frame t t'.
Proof.
  intros Hu. unfold record_root_late_usage.
  destruct (usage_to_string u) as [fp|]; [|by intros [= _ <-]].
  destruct (recorded_usage rid fp t); [by intros [= _ <-]|].
  destruct (nodes t !! root_node_id t) as [n0|]; [|by intros [= _ <-]].
  destruct (record_unreserved_usage rid u t) as [[within|e] t1] eqn:Hrec;
    apply frame_record_usage in Hrec; [|done|by intros [= _ <-]|done].
  set (t2 := t1 <| root_budget := _ |>).
  assert (F2 : frame t t2) by (transitivity t1; [exact Hrec|by apply frame_spend_root]).
  clearbody t2.
  destruct (nodes t2 !! root_node_id t2) as [n|] eqn:Hn; [|by intros [= _ <-]].
  intros [= _ <-]. transitivity t2; [exact F2|].
  set (t3 := t2 <| nodes := _ |>). transitivity t3.
  { eapply frame_update_node; [done|done|]. intros (?&?&?&?&?). node_split. }
  etransitivity; [|apply frame_version].
  apply (frame_late_tail t3 (root_node_id t2) rid fp (_ && _)).
Qed.

Lemma frame_retry_node id t r t' : retry_node id t = (r, t') → frame t t'.
Proof.
  unfold retry_node. destruct (nodes t !! id) as [n|] eqn:Hn; [|by intros [= _ <-]].
  intros [= _ <-]. etransitivity; [|apply frame_version].
  eapply frame_update_node; [done|by case_match|]. intros (?&?&?&?&?).
  case_match; node_split; lia.
Qed.

Lemma frame_recover_stale_lease id l retry t r t' :
  recover_stale_lease id l retry t = (r, t') → frame t t'.
Proof.
  unfold recover_stale_lease.
  destruct (nodes t !! id) as [n|] eqn:Hn; [|by intros [= _ <-]].
  case_match; [by intros [= _ <-]|]. intros [= _ <-].
  etransitivity; [|apply frame_version].
  set (t1 := t <| active_leases := _ |>).
  transitivity t1; [by eapply frame_drop_lease|].
  apply (frame_update_node t1 id n); [done|by case_match|]. intros (?&?&?&?&?).
  case_match; node_split; cbn in *; lia.
Qed.

Lemma frame_pause t : frame t (pause t).
Proof.
  unfold pause. etransitivity; [|apply frame_version]. case_bool_decide as E; [|done].
  frame_split; [by rewrite E|]. intros []. split; auto. intros _. cbn.
  apply ao_limit0. by rewrite E.
Qed.

Lemma frame_resume t : frame t (resume t).
Proof.
  unfold resume. case_bool_decide as E; [|done]. etransitivity; [|apply frame_version].
  frame_split; [by rewrite E|]. intros []. split; auto. intros _. cbn.
  apply ao_limit0. by rewrite E.
Qed.

Lemma frame_record_rejection_evidence pid ev t :
  frame t (record_rejection_evidence pid ev t).
Proof. etransitivity; [|apply frame_version]. apply frame_rejected. Qed.

Lemma frame_bind_root_identity a m c t r t' :
  bind_root_identity a m c t = (r, t') → frame t t'.
Proof.
  unfold bind_root_identity. do 2 (case_match; [by intros [= _ <-]|]).
  intros [= _ <-]. frame_split. intros []. by split.
Qed.

Lemma frame_bind_root_execution_scope te ws t r t' :
  bind_root_execution_scope te ws t = (r, t') → frame t t'.
Proof.
  unfold bind_root_execution_scope. case_match; [by intros [= _ <-]|].
  set (t1 := t <| root_tenant_id := _ |> <| root_workspace_id := _ |>).
  assert (F : frame t t1) by (frame_split; intros []; by split).
  destruct (nodes t1 !! _) as [n|] eqn:Hn; intros [= _ <-]; [|done].
  transitivity t1; [done|]. by apply (frame_update_node t1 _ n).
Qed.

(** ** Admission and leasing *)

Lemma admit_child_inv env p t r t' :
  admit_child env p t = Some (r, t') →
  (∃ e, r = Err e ∧ t' = t) ∨
  ∃ parent pe b,
    let fp := objective_fingerprint (p_objective p) in
    let node := admit_node p parent fp b t in
    r = Ok (mkAdmission node (u64_incr (n_version parent)))
    ∧ admit_checks env p t = Ok (parent, fp)
    ∧ admit_budget p parent t = Ok b
    ∧ nodes t !! n_node_id parent = Some pe
    ∧ nodes t' = <[n_node_id node := node]> (<[n_node_id parent := pe
        <| n_accepted_children := u64_incr (n_accepted_children pe) |>
        <| n_child_budget := spend (n_child_budget pe) b |>
        <| n_version := u64_incr (n_version pe) |>]> (nodes t))
    ∧ t' = t <| nodes := nodes t' |>
             <| root_budget := spend (root_budget t) b |>
             <| reserved_budget := budget_add (reserved_budget t) b |>
             <| accepted_proposals := {[p_proposal_id p]} ∪ accepted_proposals t |>
             <| receipts := <[p_proposal_id p := p_receipt_sha256 p]> (receipts t) |>
             <| t_version := u64_incr (t_version t) |>.
Proof.
  unfold admit_child. intros H.
  destruct (admit_checks env p t) as [[parent fp]|e] eqn:Hc; [|naive_solver].
  assert (fp = objective_fingerprint (p_objective p)) as ->.
  { revert Hc. unfold admit_checks. repeat case_match; congruence. }
  destruct (admit_budget p parent t) as [b|e] eqn:Hb; [|naive_solver].
  destruct (nodes t !! n_node_id parent) as [pe|] eqn:Hp; [|done].
  injection H as <- <-. right. exists parent, pe, b. done.
Qed.

Lemma admit_checks_inv env p t parent fp :
  admit_checks env p t = Ok (parent, fp) →
  recursive_enabled env = true ∧ kill_switch_active env = false
  ∧ execution_state t = ExecutionState.Running
  ∧ shape_is_valid p = true
  ∧ (p_proposal_id p ∉ accepted_proposals t)
  ∧ rejected_proposals t !! p_proposal_id p = None
  ∧ nodes t !! p_parent_node_id p = Some parent
  ∧ n_version parent = p_parent_version p
  ∧ n_depth parent < MAX_RECURSIVE_DEPTH
  ∧ n_accepted_children parent < MAX_ACCEPTED_CHILDREN_PER_NODE
  ∧ Z.of_nat (size (nodes t)) < MAX_RECURSIVE_NODES_PER_ROOT
  ∧ p_requested_capabilities p ⊆ n_capabilities parent
  ∧ scope_capabilities (p_requested_scope p) = p_requested_capabilities p
  ∧ is_subset_of (p_requested_scope p) (n_scope parent) = true
  ∧ fp = objective_fingerprint (p_objective p)
  ∧ (∀ k n, nodes t !! k = Some n → n_objective_fingerprint n ≠ fp).
Proof.
  unfold admit_checks. intros H.
  destruct (recursive_enabled env); [|done]. destruct (kill_switch_active env); [done|].
  destruct (execution_state t) eqn:Es; simpl in H; try done.
  destruct (shape_is_valid p); [|done].
  destruct (match receipts t !! _ with Some _ => _ | None => _ end); [done|].
  case_bool_decide; [done|].
  destruct (rejected_proposals t !! _) eqn:Hrej; [done|]; simpl in H.
  destruct (nodes t !! p_parent_node_id p) as [pn|] eqn:Hp; [|done]; simpl in H.
  destruct (n_version pn =? p_parent_version p) eqn:Hv; [|done].
  destruct (MAX_RECURSIVE_DEPTH <=? _) eqn:Hd; [done|].
  destruct (MAX_ACCEPTED_CHILDREN_PER_NODE <=? _) eqn:Ha; [done|].
  destruct (MAX_RECURSIVE_NODES_PER_ROOT <=? _) eqn:Hn; [done|].
  case_bool_decide; [|done]. case_bool_decide; [|done]. simpl in H.
  destruct (is_subset_of _ _) eqn:Hsub; [|done]. simpl in H.
  case_match; [done|]. destruct (existsb _ _) eqn:He; [done|].
  injection H as <- <-. split_and!; try done; try lia.
  intros k n Hk Hfp. apply not_true_iff_false in He. apply He, existsb_exists.
  exists n. rewrite <-list_elem_of_In, elem_of_btree_values. split; [eauto|].
  by rewrite bool_decide_true.
Qed.

Lemma admit_budget_inv p parent t b :
  admit_budget p parent t = Ok b →
  b = bounded_by (bounded_by (p_budget p) (n_child_budget parent)) (root_budget t)
  ∧ is_nonzero b = true
  ∧ ∀ limit, root_budget_limit t = Some limit →
      budget_le (budget_add (budget_add (spent_budget t) (reserved_budget t)) b) limit.
Proof.
  unfold admit_budget. intros H. case_match eqn:Hnz; [done|]. case_match eqn:Hl; [done|].
  injection H as <-. split_and!; [done|by apply negb_false_iff|].
  intros limit E. rewrite E in Hl. apply negb_false_iff in Hl. by apply can_spend_spec.
Qed.

Lemma lease_node_inv env id l t r t' :
  lease_node env id l t = (r, t') →
  (∃ e, r = Err e ∧ t' = t) ∨
  ∃ n, r = Ok tt ∧ nodes t !! id = Some n ∧ n_lease_id n = None
    ∧ n_status n = NodeStatus.Ready
    ∧ execution_state t = ExecutionState.Running
    ∧ recursive_enabled env = true ∧ kill_switch_active env = false
    ∧ Z.of_nat (size (active_leases t)) < MAX_RECURSIVE_LEASES
    ∧ t' = t <| nodes := <[id := n <| n_lease_id := Some l |>
                                   <| n_status := NodeStatus.Leased |>
                                   <| n_version := u64_incr (n_version n) |>]> (nodes t) |>
             <| active_leases := {[l]} ∪ active_leases t |>
             <| t_version := u64_incr (t_version t) |>.
Proof.
  unfold lease_node. intros H.
  destruct (recursive_enabled env); [|naive_solver].
  destruct (kill_switch_active env); [naive_solver|].
  destruct (execution_state t) eqn:Es; simpl in H; try naive_solver.
  destruct (MAX_RECURSIVE_LEASES <=? _) eqn:Hs; [naive_solver|].
  destruct (nodes t !! id) as [n|] eqn:Hn; [|naive_solver].
  destruct (n_lease_id n) eqn:Hl; [naive_solver|]. simpl in H.
  case_bool_decide; [|naive_solver]. simpl in H. injection H as <- <-.
  right. exists n. split_and!; try done. lia.
Qed.

End with_deps.
