(* ===== verification/RecursiveInvariants.v ===== *)
(** * Invariants of recursive task trees

    The step relation of a recursive tree (every public operation of
    RecursiveTree in recursive_execution.rs, in any order and with any
    arguments), and what holds of every reachable tree: the bounded shape, the
    lineage of authority, the budget envelope and the lease table. *)

From S2P Require Import Prelude Text RecursiveExecution RecursiveTreeProps.
From stdpp Require Import relations.

Local Open Scope Z_scope.

(** ** The shape of a tree *)

(** Children of [p], counted on the parent pointers. *)
Definition child_count (s : gmap string NodeStatic) (p : string) : Z :=
  Z.of_nat (size (filter (λ kv : string * option string, kv.2 = Some p) (st_parent <$> s))).

(** A node descends properly from the one it names as its parent. *)
Record lineage_ok (s : gmap string NodeStatic) (st : NodeStatic) (p : string) : Prop := {
  lo_parent : ∃ pst, s !! p = Some pst
    ∧ st_depth st = st_depth pst + 1
    ∧ st_ancestors st = st_ancestors pst ++ [st_fingerprint pst]
    ∧ st_capabilities st ⊆ st_capabilities pst ∖ {["handoff"]}
    ∧ scope_capabilities (st_scope st) = st_capabilities st
    ∧ is_subset_of (st_scope st) (st_scope pst) = true;
}.

Record shape_ok (root : string) (s : gmap string NodeStatic) : Prop := {
  so_root : ∃ st, s !! root = Some st ∧ st_parent st = None ∧ st_depth st = 0;
  so_key : ∀ k st, s !! k = Some st → st_node_id st = k;
  so_parent : ∀ k st, s !! k = Some st → k ≠ root →
    ∃ p, st_parent st = Some p ∧ lineage_ok s st p;
  so_depth : ∀ k st, s !! k = Some st → 0 <= st_depth st <= MAX_RECURSIVE_DEPTH;
  so_fingerprints : ∀ k1 k2 st1 st2, s !! k1 = Some st1 → s !! k2 = Some st2 →
    st_fingerprint st1 = st_fingerprint st2 → k1 = k2;
  so_children : ∀ k st, s !! k = Some st →
    st_children st = child_count s k ∧ st_children st <= MAX_ACCEPTED_CHILDREN_PER_NODE;
  so_no_orphan : ∀ k st p, s !! k = Some st → st_parent st = Some p → is_Some (s !! p);
  so_size : Z.of_nat (size s) <= MAX_RECURSIVE_NODES_PER_ROOT;
}.

Lemma child_count_insert_fresh s k st p :
  s !! k = None →
  child_count (<[k := st]> s) p =
  child_count s p + (if bool_decide (st_parent st = Some p) then 1 else 0).
Proof.
  intros H. unfold child_count. rewrite fmap_insert.
  assert (Hk : (st_parent <$> s) !! k = None) by by rewrite lookup_fmap, H.
  case_bool_decide as E.
  - rewrite map_filter_insert_True by done. rewrite map_size_insert_None; [lia|].
    apply map_lookup_filter_None. by left.
  - rewrite map_filter_insert_not' by (simpl; naive_solver congruence). lia.
Qed.

Lemma child_count_update s k st st' p :
  s !! k = Some st → st_parent st' = st_parent st →
  child_count (<[k := st']> s) p = child_count s p.
Proof.
  intros H E. unfold child_count. rewrite fmap_insert, E, insert_id; [done|].
  by rewrite lookup_fmap, H.
Qed.

Lemma child_count_0 s p :
  (∀ k st, s !! k = Some st → st_parent st ≠ Some p) → child_count s p = 0.
Proof.
  intros H. unfold child_count.
  replace (filter _ _) with (∅ : gmap string (option string)); [done|].
  symmetry. apply map_empty_filter. intros k po Hk E. simpl in E. subst po.
  rewrite lookup_fmap, fmap_Some in Hk. destruct Hk as (st & ? & ?). by eapply H.
Qed.

Lemma lineage_ok_update s k st st' p c :
  s !! k = Some st → st_depth st' = st_depth st → st_ancestors st' = st_ancestors st →
  st_fingerprint st' = st_fingerprint st → st_capabilities st' = st_capabilities st →
  st_scope st' = st_scope st →
  lineage_ok s c p → lineage_ok (<[k := st']> s) c p.
Proof.
  intros H Ed Ea Ef Ec Es [(pst & Hp & ?)]. split.
  destruct (decide (p = k)) as [->|Hne].
  - exists st'. rewrite lookup_insert_eq. simplify_eq.
    rewrite Ed, Ea, Ef, Ec, Es. done.
  - exists pst. by rewrite lookup_insert_ne.
Qed.

Lemma lineage_ok_insert s k st' p c :
  s !! k = None → lineage_ok s c p → lineage_ok (<[k := st']> s) c p.
Proof.
  intros H [(pst & Hp & ?)]. split. exists pst.
  by rewrite lookup_insert_ne by congruence.
Qed.

(** *** Adding one child under [p] keeps the shape *)

Definition bump_children (st : NodeStatic) : NodeStatic :=
  mkStatic (st_node_id st) (st_parent st) (st_depth st) (st_fingerprint st)
    (st_ancestors st) (st_scope st) (st_capabilities st) (st_children st + 1).

Section add_child.
Context (root : string) (s : gmap string NodeStatic) (p k : string)
  (pst st : NodeStatic).
Hypothesis Hshape : shape_ok root s.
Hypothesis Hk : s !! k = None.
Hypothesis Hp : s !! p = Some pst.
Hypothesis Hparent : st_parent st = Some p.
Hypothesis Hlin : lineage_ok s st p.

Local Abbreviation s' := (<[k := st]> (<[p := bump_children pst]> s)).

Lemma add_child_ne : p ≠ k.
Proof using Hk Hp. congruence. Qed.

Lemma add_child_lookup k' st' :
  s' !! k' = Some st' →
  (k' = k ∧ st' = st) ∨ (k' = p ∧ st' = bump_children pst) ∨
  (k' ≠ k ∧ k' ≠ p ∧ s !! k' = Some st').
Proof using Hk Hp.
  clear Hparent Hlin.
  intros [[-> ->]|[? [[-> ->]|[? ?]]%lookup_insert_Some]]%lookup_insert_Some; auto.
Qed.

Lemma add_child_lineage c q : lineage_ok s c q → lineage_ok s' c q.
Proof using Hk Hp.
  intros. apply lineage_ok_insert; [by rewrite lookup_insert_ne by apply add_child_ne|].
  by eapply lineage_ok_update.
Qed.

Lemma add_child_old k' st' : s' !! k' = Some st' → k' ≠ k →
  ∃ st0, s !! k' = Some st0 ∧ (st' = st0 ∨ st' = bump_children st0).
Proof using Hk Hp.
  intros [[-> ->]|[[-> ->]|(?&?&?)]]%add_child_lookup ?; [done|eauto|eauto].
Qed.

Lemma add_child_mono q : is_Some (s !! q) → is_Some (s' !! q).
Proof using Type. intros. rewrite !lookup_insert_is_Some'. auto. Qed.

Lemma add_child_root_ok :
  ∃ rst, s' !! root = Some rst ∧ st_parent rst = None ∧ st_depth rst = 0.
Proof using Hshape Hk Hp.
  destruct (so_root _ _ Hshape) as (rst & Hr & ? & ?).
  destruct (add_child_mono root) as [st' Hst']; [eauto|]. exists st'.
  destruct (add_child_old root st') as (st0 & ? & [->| ->]);
    [done|congruence|simplify_eq; done..].
Qed.

Lemma add_child_parents k' st' : s' !! k' = Some st' → k' ≠ root →
  ∃ q, st_parent st' = Some q ∧ lineage_ok s' st' q.
Proof using Hshape Hk Hp Hparent Hlin.
  intros Hl Hne. destruct (decide (k' = k)) as [->|Hkk].
  - rewrite lookup_insert_eq in Hl. injection Hl as <-.
    eauto using add_child_lineage.
  - destruct (add_child_old _ _ Hl Hkk) as (st0 & Hs & Hor).
    destruct (so_parent _ _ Hshape _ _ Hs Hne) as (q & Hq & Hlq).
    exists q. apply add_child_lineage in Hlq.
    destruct Hor as [->| ->]; [done|]. split; [done|]. destruct Hlq as [Hlq].
    by split.
Qed.

Lemma add_child_fingerprints k1 k2 st1 st2 :
  (∀ k' st', s !! k' = Some st' → st_fingerprint st' ≠ st_fingerprint st) →
  s' !! k1 = Some st1 → s' !! k2 = Some st2 →
  st_fingerprint st1 = st_fingerprint st2 → k1 = k2.
Proof using Hshape Hk Hp.
  intros Hfresh.
  assert (Hold : ∀ k' st', s' !! k' = Some st' → k' ≠ k →
    ∃ st0, s !! k' = Some st0 ∧ st_fingerprint st' = st_fingerprint st0).
  { intros k' st' H' ?. destruct (add_child_old _ _ H') as (st0 & ? & [->| ->]); eauto. }
  intros H1 H2 E.
  destruct (decide (k1 = k)) as [->|N1], (decide (k2 = k)) as [->|N2]; [done| | |].
  - rewrite lookup_insert_eq in H1. injection H1 as <-.
    destruct (Hold _ _ H2 N2) as (st0 & ? & ?). edestruct Hfresh; [done|congruence].
  - rewrite lookup_insert_eq in H2. injection H2 as <-.
    destruct (Hold _ _ H1 N1) as (st0 & ? & ?). edestruct Hfresh; [done|congruence].
  - destruct (Hold _ _ H1 N1) as (? & ? & ?), (Hold _ _ H2 N2) as (? & ? & ?).
    eapply (so_fingerprints _ _ Hshape); [done..|congruence].
Qed.

Lemma add_child_children k' st' :
  st_children st = 0 → st_children pst < MAX_ACCEPTED_CHILDREN_PER_NODE →
  s' !! k' = Some st' →
  st_children st' = child_count s' k' ∧ st_children st' <= MAX_ACCEPTED_CHILDREN_PER_NODE.
Proof using Hshape Hk Hp Hparent.
  intros Hc0 Hc Hl.
  rewrite child_count_insert_fresh by (by rewrite lookup_insert_ne by apply add_child_ne).
  rewrite (child_count_update _ _ pst), Hparent by done.
  apply add_child_lookup in Hl as [[-> ->]|[[-> ->]|(?&?&Hs)]].
  - rewrite bool_decide_false by (pose proof add_child_ne; congruence).
    rewrite child_count_0; [split; [lia|]; rewrite Hc0; done|].
    intros k' st' Hs Hq. apply (so_no_orphan _ _ Hshape _ _ _ Hs) in Hq as [? ?].
    congruence.
  - rewrite bool_decide_true by done. destruct (so_children _ _ Hshape _ _ Hp). cbn. lia.
  - rewrite bool_decide_false by congruence.
    destruct (so_children _ _ Hshape _ _ Hs). lia.
Qed.

Lemma shape_ok_add_child :
  st_node_id st = k → st_children st = 0 →
  st_depth pst < MAX_RECURSIVE_DEPTH →
  st_children pst < MAX_ACCEPTED_CHILDREN_PER_NODE →
  Z.of_nat (size s) < MAX_RECURSIVE_NODES_PER_ROOT →
  (∀ k' st', s !! k' = Some st' → st_fingerprint st' ≠ st_fingerprint st) →
  shape_ok root s'.
Proof using Hshape Hk Hp Hparent Hlin.
  intros Hid Hc0 Hd Hc Hn Hfresh. split.
  - apply add_child_root_ok.
  - intros k' st' [[-> ->]|[[-> ->]|(?&?&?)]]%add_child_lookup;
      [done|by apply (so_key _ _ Hshape p pst)|by apply (so_key _ _ Hshape)].
  - apply add_child_parents.
  - intros k' st' [[-> ->]|[[-> ->]|(?&?&?)]]%add_child_lookup;
      [|by apply (so_depth _ _ Hshape p pst)|by eapply (so_depth _ _ Hshape)].
    destruct Hlin as [(pst0 & ? & E & _)]. simplify_eq. rewrite E.
    pose proof (so_depth _ _ Hshape _ _ Hp). lia.
  - intros. by eapply add_child_fingerprints.
  - intros. by apply add_child_children.
  - intros k' st' q Hl Hq. apply add_child_mono.
    apply add_child_lookup in Hl as [[-> ->]|[[-> ->]|(?&?&?)]].
    + simplify_eq. eauto.
    + by eapply (so_no_orphan _ _ Hshape p pst).
    + by eapply (so_no_orphan _ _ Hshape).
  - rewrite map_size_insert_None, map_size_insert_Some; [lia|eauto|].
    by rewrite lookup_insert_ne by apply add_child_ne.
Qed.
End add_child.

(** ** The lease table *)

(** Which node holds which lease. *)
Definition held (t : RecursiveTree) : gmap string string := omap n_lease_id (nodes t).

(** The lease index is exactly the set of leases held, each by one node. *)
Record leases_exact (t : RecursiveTree) : Prop := {
  le_index : ∀ l, l ∈ active_leases t ↔ ∃ k, held t !! k = Some l;
  le_unique : ∀ k1 k2 l, held t !! k1 = Some l → held t !! k2 = Some l → k1 = k2;
}.

Definition keeps_leases (t t' : RecursiveTree) : Prop := leases_exact t → leases_exact t'.

#[export] Instance keeps_leases_preorder : PreOrder keeps_leases.
Proof. split; [by intros ??|intros ??? H1 H2 H; auto]. Qed.

(** An operation that touches no lease. *)
Definition lease_quiet (t t' : RecursiveTree) : Prop :=
  held t' = held t ∧ active_leases t' = active_leases t.

#[export] Instance lease_quiet_preorder : PreOrder lease_quiet.
Proof. split; [done|]. intros ??? [] []. split; congruence. Qed.

#[export] Instance lease_quiet_keeps : subrelation lease_quiet keeps_leases.
Proof. intros t t' [E1 E2] []. split; by rewrite ?E1, ?E2. Qed.

Lemma lookup_held t k : held t !! k = nodes t !! k ≫= n_lease_id.
Proof. apply lookup_omap. Qed.

Lemma held_update (ns : gmap string RecursiveNode) k n n' :
  ns !! k = Some n → n_lease_id n' = n_lease_id n →
  omap n_lease_id (<[k := n']> ns) = omap n_lease_id ns.
Proof.
  intros H E. apply map_eq. intros k'. rewrite !lookup_omap.
  destruct (decide (k' = k)) as [->|?].
  - by rewrite lookup_insert_eq, H.
  - by rewrite lookup_insert_ne.
Qed.

Lemma lease_quiet_update t t' k n n' :
  nodes t !! k = Some n → nodes t' = <[k := n']> (nodes t) →
  n_lease_id n' = n_lease_id n → active_leases t' = active_leases t →
  lease_quiet t t'.
Proof. intros ? E ??. split; [|done]. unfold held. rewrite E. by eapply held_update. Qed.

Lemma keeps_leases_drop t t' k n n' l :
  nodes t !! k = Some n → n_lease_id n = Some l → nodes t' = <[k := n']> (nodes t) →
  n_lease_id n' = None → active_leases t' = active_leases t ∖ {[l]} →
  keeps_leases t t'.
Proof.
  intros Hn Hl En Hl' Ea [Hidx Huniq].
  assert (Hk : held t !! k = Some l) by by rewrite lookup_held, Hn.
  assert (Hheld : held t' = delete k (held t)).
  { apply map_eq. intros k'. rewrite lookup_held, En.
    destruct (decide (k' = k)) as [->|?].
    - by rewrite lookup_insert_eq, lookup_delete_eq.
    - by rewrite lookup_insert_ne, lookup_delete_ne, lookup_held. }
  split.
  - intros l'. rewrite Ea, Hheld, elem_of_difference, elem_of_singleton, Hidx. split.
    + intros [[k' Hk'] Hne]. exists k'. by rewrite lookup_delete_ne by congruence.
    + intros [k' [Hne Hk']%lookup_delete_Some]. split; [eauto|]. intros ->.
      by destruct Hne; eapply Huniq.
  - intros k1 k2 l'. rewrite Hheld, !lookup_delete_Some. intros [_ ?] [_ ?]. eauto.
Qed.

Section lease_lemmas.
Context `{Deps : RecursiveDeps}.

Lemma record_usage_quiet rid u b t r t' :
  record_usage_internal rid u b t = (r, t') →
  nodes t' = nodes t ∧ active_leases t' = active_leases t ∧ root_node_id t' = root_node_id t.
Proof.
  unfold record_usage_internal. destruct (usage_to_string u); [|by intros [= _ <-]].
  destruct (recorded_usage rid s t); [by intros [= _ <-]|].
  intros [= _ <-]. by destruct b, (match root_budget_limit t with Some _ => _ | _ => _ end);
    cbn; try case_match.
Qed.

Lemma release_quiet id t : lease_quiet t (release_node_reservation_for_persistence id t).
Proof.
  unfold release_node_reservation_for_persistence.
  destruct (nodes t !! id) as [n|] eqn:Hn; [|done].
  set (t1 := t <| nodes := _ |> <| reserved_budget := _ |> <| root_budget := _ |>).
  assert (Q : lease_quiet t t1) by by eapply lease_quiet_update.
  destruct (n_parent_node_id n) as [p|]; [|exact Q].
  destruct (nodes t1 !! p) as [pn|] eqn:Hp; [|exact Q].
  transitivity t1; [exact Q|]. by eapply lease_quiet_update.
Qed.

Lemma keeps_foldl {B} (f : RecursiveTree → B → RecursiveTree) (l : list B) t :
  (∀ t x, keeps_leases t (f t x)) → keeps_leases t (foldl f t l).
Proof.
  intros H. revert t. induction l as [|x l IH]; intros t; simpl; [done|].
  etransitivity; [apply H|apply IH].
Qed.

Lemma keeps_release_all t ids : keeps_leases t (release_all t ids).
Proof. apply keeps_foldl. intros. apply lease_quiet_keeps, release_quiet. Qed.

Lemma keeps_fail_node reason t id : keeps_leases t (fail_node reason t id).
Proof.
  unfold fail_node. destruct (nodes t !! id) as [n|] eqn:Hn; [|done].
  destruct (n_lease_id n) as [l|] eqn:Hl; [by eapply keeps_leases_drop|].
  by apply lease_quiet_keeps; eapply lease_quiet_update.
Qed.

Lemma keeps_terminalize except reason t :
  keeps_leases t (terminalize_remaining_nodes except reason t).2.
Proof.
  unfold terminalize_remaining_nodes. cbn zeta beta. simpl snd.
  set (t1 := foldl _ _ _).
  assert (K1 : keeps_leases t t1) by (apply keeps_foldl; intros; apply keeps_fail_node).
  transitivity t1; [exact K1|].
  etransitivity; [apply (keeps_release_all _ (terminalized_ids except t))|].
  by apply lease_quiet_keeps; destruct (terminalized_ids except t).
Qed.

Lemma close_tree_quiet t : lease_quiet t (close_tree t).
Proof. unfold close_tree. by case_match. Qed.

Lemma keeps_finalize failed t t' :
  finalize_terminal_tree failed t = Some t' → keeps_leases t t'.
Proof.
  unfold finalize_terminal_tree. case_match; [by intros [= <-]|].
  case_match; [|intros [= <-]; apply lease_quiet_keeps, close_tree_quiet].
  case_match; [|done]. intros [= <-].
  etransitivity; [|apply lease_quiet_keeps, close_tree_quiet].
  etransitivity; [|apply keeps_release_all].
  apply keeps_foldl. intros. apply keeps_fail_node.
Qed.

Lemma keeps_late_tail t id rid fp (b : bool) :
  keeps_leases t (if b then t else
    let t1 := t <| usage_receipts := <[rid := usage_receipt_value false fp]> (usage_receipts t) |> in
    if is_settled (execution_state t1) then t1
    else (terminalize_remaining_nodes (Some id) FailureReason.TreeBudgetExhausted
            (t1 <| execution_state := ExecutionState.BudgetExhausted |>)).2).
Proof.
  destruct b; [done|]. cbn zeta. case_match; [by apply lease_quiet_keeps|].
  etransitivity; [|apply keeps_terminalize]. by apply lease_quiet_keeps.
Qed.

Lemma keeps_complete_node_with_usage_receipt id l rid ok u t r t' :
  complete_node_with_usage_receipt id l rid ok u t = (r, t') → keeps_leases t t'.
Proof.
  unfold complete_node_with_usage_receipt.
  destruct (nodes t !! id) as [n0|] eqn:Hn0; [|by intros [= _ <-]].
  case_bool_decide as Hl; [cbn [negb]|by intros [= _ <-]].
  destruct (record_usage rid u t) as [[within|e] t1] eqn:Hrec;
    apply record_usage_quiet in Hrec as (En & Ea & _);
    [|intros [= _ <-]; apply lease_quiet_keeps; unfold lease_quiet, held; by rewrite En].
  rewrite En, Hn0. set (n' := if is_some _ then n0 else _). intros [= _ <-].
  set (t2 := t1 <| nodes := _ |> <| active_leases := _ |>).
  assert (K : keeps_leases t t2).
  { eapply (keeps_leases_drop t t2 id n0); [done|done|done|done|by cbn; rewrite Ea]. }
  transitivity t2; [exact K|]. clearbody t2.
  match goal with |- keeps_leases _ (?t3 <| t_version := _ |>) =>
    transitivity t3; [|by apply lease_quiet_keeps] end.
  case_match; [|done]. etransitivity; [|apply keeps_terminalize]. by apply lease_quiet_keeps.
Qed.

Lemma keeps_complete_node id l ok t r t' :
  complete_node id l ok t = (r, t') → keeps_leases t t'.
Proof.
  unfold complete_node, complete_node_with_usage.
  destruct (complete_node_with_usage_receipt _ _ _ _ _ _) as [[u|e] t1] eqn:E;
    apply keeps_complete_node_with_usage_receipt in E; intros [= _ <-]; [|done].
  etransitivity; [exact E|]. apply lease_quiet_keeps, release_quiet.
Qed.

Lemma keeps_complete_root l rid ok u t r t' :
  complete_root_with_usage_receipt l rid ok u t = Some (r, t') → keeps_leases t t'.
Proof.
  unfold complete_root_with_usage_receipt.
  destruct (nodes t !! root_node_id t) as [n0|] eqn:Hn0; [|by intros [= _ <-]].
  case_match; [by intros [= _ <-]|]. case_match; [by intros [= _ <-]|].
  case_match eqn:Hl; [by intros [= _ <-]|].
  apply orb_false_iff in Hl as [Hl _]. apply negb_false_iff, bool_decide_eq_true in Hl.
  destruct (record_unreserved_usage rid u t) as [[within|e] t1] eqn:Hrec;
    apply record_usage_quiet in Hrec as (En & Ea & Er);
    [|intros [= _ <-]; apply lease_quiet_keeps; unfold lease_quiet, held; by rewrite En].
  set (t2 := if is_some _ then t1 else _).
  assert (nodes t2 = nodes t ∧ active_leases t2 = active_leases t) as [En2 Ea2].
  { unfold t2. by case_match; cbn; rewrite ?En, ?Ea. }
  clearbody t2. rewrite En2, Hn0. set (n' := if is_some _ then n0 else _).
  set (t3 := t2 <| nodes := _ |> <| active_leases := _ |>).
  assert (K : keeps_leases t t3).
  { eapply (keeps_leases_drop t t3 (root_node_id t) n0);
      [done|done|done|done|by cbn; rewrite Ea2]. }
  clearbody t3. set (t4 := if negb (_ && within) then _ else _).
  assert (K4 : keeps_leases t t4).
  { transitivity t3; [exact K|]. unfold t4. repeat case_match; try done;
      (etransitivity; [|apply keeps_terminalize]); by apply lease_quiet_keeps. }
  clearbody t4. case_match; [|by intros [= _ <-]; transitivity t4; [|apply lease_quiet_keeps]].
  destruct (finalize_terminal_tree _ _) as [t5|] eqn:F; [|done]. intros [= _ <-].
  transitivity t4; [exact K4|]. apply keeps_finalize in F.
  etransitivity; [|exact F]. by apply lease_quiet_keeps.
Qed.

Lemma keeps_record_late_usage id rid u t r t' :
  record_late_usage id rid u t = (r, t') → keeps_leases t t'.
Proof.
  unfold record_late_usage. destruct (usage_to_string u) as [fp|]; [|by intros [= _ <-]].
  destruct (recorded_usage rid fp t); [by intros [= _ <-]|].
  destruct (nodes t !! id) as [n0|] eqn:Hn0; [|by intros [= _ <-]].
  destruct (record_usage rid u t) as [[within|e] t1] eqn:Hrec;
    apply record_usage_quiet in Hrec as (En & Ea & Er);
    [|intros [= _ <-]; apply lease_quiet_keeps; unfold lease_quiet, held; by rewrite En].
  rewrite En, Hn0. intros [= _ <-]. set (t2 := t1 <| nodes := _ |>).
  transitivity t2; [apply lease_quiet_keeps; by eapply lease_quiet_update|].
  etransitivity; [apply (keeps_late_tail t2 id rid fp (can_spend (n_budget n0) u && within))|].
  by apply lease_quiet_keeps.
Qed.

Lemma keeps_record_root_late_usage rid u t r t' :
  record_root_late_usage rid u t = (r, t') → keeps_leases t t'.
Proof.
  unfold record_root_late_usage.
  destruct (usage_to_string u) as [fp|]; [|by intros [= _ <-]].
  destruct (recorded_usage rid fp t); [by intros [= _ <-]|].
  destruct (nodes t !! root_node_id t) as [n0|] eqn:Hn0; [|by intros [= _ <-]].
  destruct (record_unreserved_usage rid u t) as [[within|e] t1] eqn:Hrec;
    apply record_usage_quiet in Hrec as (En & Ea & Er);
    [|intros [= _ <-]; apply lease_quiet_keeps; unfold lease_quiet, held; by rewrite En].
  set (t2 := t1 <| root_budget := _ |>).
  assert (Hn2 : nodes t2 !! root_node_id t2 = Some n0) by (cbn; by rewrite En, Er).
  rewrite Hn2. intros [= _ <-]. set (t3 := t2 <| nodes := _ |>).
  transitivity t3.
  { apply lease_quiet_keeps. eapply lease_quiet_update; [done|cbn; by rewrite En, Er|done|done]. }
  etransitivity; [apply (keeps_late_tail t3 (root_node_id t2) rid fp
    (can_spend (n_budget n0) u && within))|].
  by apply lease_quiet_keeps.
Qed.

Lemma keeps_retry_node id t r t' : retry_node id t = (r, t') → keeps_leases t t'.
Proof.
  unfold retry_node. destruct (nodes t !! id) as [n|] eqn:Hn; [|by intros [= _ <-]].
  intros [= _ <-]. apply lease_quiet_keeps.
  eapply lease_quiet_update; [done|done|by case_match|done].
Qed.

Lemma keeps_recover_stale_lease id l retry t r t' :
  recover_stale_lease id l retry t = (r, t') → keeps_leases t t'.
Proof.
  unfold recover_stale_lease.
  destruct (nodes t !! id) as [n|] eqn:Hn; [|by intros [= _ <-]].
  case_bool_decide as Hl; cbn [negb]; intros [= _ <-]; [|done].
  eapply keeps_leases_drop; [done|done|done|by case_match|done].
Qed.

Lemma keeps_bind_root_execution_scope te ws t r t' :
  bind_root_execution_scope te ws t = (r, t') → keeps_leases t t'.
Proof.
  unfold bind_root_execution_scope. case_match; [by intros [= _ <-]|].
  match goal with |- context [match ?m with Some _ => _ | None => _ end] =>
    destruct m as [n|] eqn:Hn end; intros [= _ <-]; apply lease_quiet_keeps; [|done].
  by eapply lease_quiet_update.
Qed.

Lemma keeps_bind_root_identity a m c t r t' :
  bind_root_identity a m c t = (r, t') → keeps_leases t t'.
Proof.
  unfold bind_root_identity. do 2 (case_match; [by intros [= _ <-]|]).
  intros [= _ <-]. by apply lease_quiet_keeps.
Qed.

Lemma keeps_record_usage rid u b t r t' :
  record_usage_internal rid u b t = (r, t') → keeps_leases t t'.
Proof.
  intros (En & Ea & _)%record_usage_quiet. apply lease_quiet_keeps.
  unfold lease_quiet, held. by rewrite En.
Qed.

(** Leasing with a lease id no other node holds. *)
Lemma keeps_lease_node env id l t r t' :
  l ∉ active_leases t → lease_node env id l t = (r, t') → keeps_leases t t'.
Proof.
  intros Hfresh [(e & _ & ->)|(n & _ & Hn & Hl & _ & _ & _ & _ & _ & ->)]%lease_node_inv;
    [done|]. intros [Hidx Huniq].
  assert (Hheld : ∀ k', omap n_lease_id (<[id := n <| n_lease_id := Some l |>
      <| n_status := NodeStatus.Leased |> <| n_version := u64_incr (n_version n) |>]>
      (nodes t)) !! k' = if bool_decide (k' = id) then Some l else held t !! k').
  { intros k'. rewrite lookup_omap, lookup_held. case_bool_decide; subst.
    - by rewrite lookup_insert_eq.
    - by rewrite lookup_insert_ne. }
  assert (Hid : held t !! id = None) by by rewrite lookup_held, Hn.
  assert (Hnl : ∀ k, held t !! k ≠ Some l) by (intros k Hk; apply Hfresh, Hidx; eauto).
  split; unfold held; cbn.
  - intros l'. setoid_rewrite Hheld. rewrite elem_of_union, elem_of_singleton, Hidx. split.
    + intros [->|[k Hk]]; [exists id; by rewrite bool_decide_true|].
      exists k. by rewrite bool_decide_false by congruence.
    + intros [k Hk]. case_bool_decide; [left; congruence|eauto].
  - intros k1 k2 l'. rewrite !Hheld. do 2 case_bool_decide; subst; naive_solver.
Qed.

Lemma keeps_admit_child env p t r t' :
  nodes t !! derived_node_id (root_run_id t) (p_proposal_id p)
    (objective_fingerprint (p_objective p)) = None →
  admit_child env p t = Some (r, t') → keeps_leases t t'.
Proof.
  intros Hfresh [(e & _ & ->)|(parent & pe & b & _ & _ & _ & Hp & En & Et)]%admit_child_inv;
    [done|]. cbn in En.
  assert (Ea : active_leases t' = active_leases t) by by rewrite Et.
  clear Et. apply lease_quiet_keeps. split; [|done]. unfold held. rewrite En.
  apply map_eq. intros k. rewrite !lookup_omap.
  destruct (decide (k = derived_node_id (root_run_id t) (p_proposal_id p)
    (objective_fingerprint (p_objective p)))) as [->|?].
  - by rewrite lookup_insert_eq, Hfresh.
  - rewrite lookup_insert_ne by done. destruct (decide (k = n_node_id parent)) as [->|?].
    + by rewrite lookup_insert_eq, Hp.
    + by rewrite lookup_insert_ne.
Qed.

End lease_lemmas.

(** ** Reachable trees *)

Section reachable.
Context `{Deps : RecursiveDeps}.

(** One call of an operation, whatever it returns. The guards state what the
    callers guarantee: usage and budgets are u64 values, lease ids are fresh
    and the hash that names a child does not collide. *)
Inductive tree_step : RecursiveTree → RecursiveTree → Prop :=
  | step_bind_identity a m c t r t' :
      bind_root_identity a m c t = (r, t') → tree_step t t'
  | step_bind_scope te ws t r t' :
      bind_root_execution_scope te ws t = (r, t') → tree_step t t'
  | step_admit env p t r t' :
      budget_ok (p_budget p) →
      nodes t !! derived_node_id (root_run_id t) (p_proposal_id p)
        (objective_fingerprint (p_objective p)) = None →
      admit_child env p t = Some (r, t') → tree_step t t'
  | step_lease env id l t r t' :
      l ∉ active_leases t → lease_node env id l t = (r, t') → tree_step t t'
  | step_complete_node id l ok t r t' :
      complete_node id l ok t = (r, t') → tree_step t t'
  | step_complete_usage id l rid ok u t r t' :
      budget_ok u →
      complete_node_with_usage_receipt id l rid ok u t = (r, t') → tree_step t t'
  | step_complete_root l rid ok u t r t' :
      budget_ok u →
      complete_root_with_usage_receipt l rid ok u t = Some (r, t') → tree_step t t'
  | step_record_usage rid u t r t' :
      budget_ok u → record_usage rid u t = (r, t') → tree_step t t'
  | step_late_usage id rid u t r t' :
      budget_ok u → record_late_usage id rid u t = (r, t') → tree_step t t'
  | step_root_late_usage rid u t r t' :
      budget_ok u → record_root_late_usage rid u t = (r, t') → tree_step t t'
  | step_release id t : tree_step t (release_node_reservation_for_persistence id t)
  | step_terminalize except reason t :
      tree_step t (terminalize_remaining_nodes except reason t).2
  | step_finalize failed t t' :
      finalize_terminal_tree failed t = Some t' → tree_step t t'
  | step_retry id t r t' : retry_node id t = (r, t') → tree_step t t'
  | step_recover id l retry t r t' :
      recover_stale_lease id l retry t = (r, t') → tree_step t t'
  | step_pause t : tree_step t (pause t)
  | step_resume t : tree_step t (resume t)
  | step_reject pid ev t : tree_step t (record_rejection_evidence pid ev t).

(** The trees a run goes through. *)
Definition reachable (t : RecursiveTree) : Prop :=
  ∃ run wf id objective scope caps budget,
    budget_ok budget ∧
    rtc tree_step (new_with_root_node_id run wf id objective scope caps budget) t.

(** A step is a frame step, an admission or a lease. *)
Lemma tree_step_frame t t' :
  tree_step t t' → frame t t'
  ∨ (∃ env p r, budget_ok (p_budget p)
      ∧ nodes t !! derived_node_id (root_run_id t) (p_proposal_id p)
          (objective_fingerprint (p_objective p)) = None
      ∧ admit_child env p t = Some (r, t'))
  ∨ (∃ env id l r, (l ∉ active_leases t) ∧ lease_node env id l t = (r, t')).
Proof.
  destruct 1; first [right; solve [eauto 10] | left];
    eauto using frame_bind_root_identity, frame_bind_root_execution_scope,
      frame_complete_node, frame_complete_node_with_usage_receipt, frame_complete_root,
      frame_record_usage, frame_record_late_usage, frame_record_root_late_usage,
      frame_release, frame_terminalize, frame_finalize, frame_retry_node,
      frame_recover_stale_lease, frame_pause, frame_resume,
      frame_record_rejection_evidence.
Qed.

Lemma tree_step_keeps_leases t t' : tree_step t t' → keeps_leases t t'.
Proof.
  destruct 1; eauto using keeps_bind_root_identity, keeps_bind_root_execution_scope,
      keeps_admit_child, keeps_lease_node,
      keeps_complete_node, keeps_complete_node_with_usage_receipt, keeps_complete_root,
      keeps_record_usage, keeps_record_late_usage, keeps_record_root_late_usage,
      keeps_terminalize, keeps_finalize, keeps_retry_node, keeps_recover_stale_lease;
    apply lease_quiet_keeps; [apply release_quiet|..|done].
  - unfold pause. by case_match.
  - unfold resume. by case_match.
Qed.

(** *** The invariant *)

Record tree_inv (t : RecursiveTree) : Prop := {
  inv_shape : shape_ok (root_node_id t) (statics t);
  inv_accounts : accounts_ok t;
  inv_leases : leases_exact t;
  inv_lease_bound : Z.of_nat (size (active_leases t)) <= MAX_RECURSIVE_LEASES;
}.

Lemma new_tree_inv run wf id objective scope caps budget :
  budget_ok budget →
  tree_inv (new_with_root_node_id run wf id objective scope caps budget).
Proof.
  intros Hb.
  set (st := mkStatic id None 0 (objective_fingerprint objective) []
    (scope <| scope_capabilities := caps |>) caps 0).
  assert (Hs : statics (new_with_root_node_id run wf id objective scope caps budget)
    = {[id := st]}).
  { unfold statics. cbn. by rewrite map_fmap_singleton. }
  split.
  - rewrite Hs. cbn [root_node_id new_with_root_node_id].
    assert (Hlk : ∀ k st', ({[id := st]} : gmap string NodeStatic) !! k = Some st' →
      k = id ∧ st' = st) by (intros ??; rewrite lookup_singleton_Some; naive_solver).
    split; try by intros k st' [-> ->]%Hlk.
    + exists st. by rewrite lookup_singleton_eq.
    + intros k1 k2 st1 st2 [-> ->]%Hlk [-> ->]%Hlk. done.
    + intros k st' [-> ->]%Hlk. rewrite child_count_0; [done|].
      by intros k st' [-> ->]%Hlk.
    + by intros k st' q [-> ->]%Hlk.
    + by rewrite map_size_singleton.
  - split; cbn; auto with budget; try by (budget_lia).
    + apply map_Forall_singleton. node_split. done.
    + intros _ limit [= <-]. cbn. unfold budget_ok in Hb. budget_lia.
  - split; unfold held; cbn.
    + intros l. rewrite omap_singleton. cbn. split; [set_solver|].
      intros [k Hk]. by rewrite lookup_empty in Hk.
    + intros k1 k2 l. rewrite omap_singleton. cbn. by rewrite lookup_empty.
  - done.
Qed.

Lemma frame_inv t t' :
  frame t t' → keeps_leases t t' → tree_inv t → tree_inv t'.
Proof.
  intros [] Hk []. split; [by rewrite fr_statics, fr_root|by auto|by auto|].
  apply subseteq_size in fr_leases. lia.
Qed.

Lemma lease_node_tree_inv env id l t r t' :
  l ∉ active_leases t → lease_node env id l t = (r, t') → tree_inv t → tree_inv t'.
Proof.
  intros Hf H Ht. pose proof (keeps_lease_node _ _ _ _ _ _ Hf H) as Hk.
  apply lease_node_inv in H as
    [(e & _ & ->)|(n & _ & Hn & Hl & Hst & _ & _ & _ & Hsz & Et)]; [done|].
  destruct Ht as [? [? ? ? Hns ?] Hle ?]. specialize (Hk Hle). subst t'. split; [..|done|].
  - unfold statics. cbn. by erewrite statics_update.
  - split; cbn; auto. apply map_Forall_insert_2; [|done].
    exact (Hns id n Hn).
  - cbn. rewrite size_union, size_singleton by set_solver. lia.
Qed.

Lemma heritable_spec c caps :
  c ∈ heritable_recursive_capabilities caps ↔ c ∈ caps ∧ c ≠ "handoff".
Proof.
  unfold heritable_recursive_capabilities, RECURSIVE_NON_HERITABLE_CAPABILITIES.
  rewrite elem_of_filter, list_elem_of_singleton.
  tauto.
Qed.

Lemma admit_child_shape env p t r t' :
  nodes t !! derived_node_id (root_run_id t) (p_proposal_id p)
    (objective_fingerprint (p_objective p)) = None →
  admit_child env p t = Some (r, t') →
  shape_ok (root_node_id t) (statics t) → shape_ok (root_node_id t') (statics t').
Proof.
  intros Hf [(e & _ & ->)|(parent & pe & b & H)]%admit_child_inv Hs; [done|].
  cbn zeta in H. destruct H as (_ & Hc & _ & Hp & En & Et).
  apply admit_checks_inv in Hc as
    (_&_&_&_&_&_&Hpar&_&Hdep&Hch&Hsize&Hcap&Hscap&Hsub&_&Hfp).
  assert (n_node_id parent = p_parent_node_id p) as Hpid.
  { apply lookup_statics, (so_key _ _ Hs) in Hpar. done. }
  rewrite Hpid in *. simplify_eq.
  assert (root_node_id t' = root_node_id t) as -> by by rewrite Et.
  unfold statics. rewrite En, !fmap_insert. cbn [n_node_id admit_node].
  set (node := admit_node _ _ _ _ _).
  assert (Hcnt : 0 <= n_accepted_children parent).
  { apply lookup_statics, (so_children _ _ Hs) in Hpar as [E _]. cbn in E.
    rewrite E. unfold child_count. lia. }
  match goal with |- shape_ok _ (<[_ := _]> (<[_ := ?x]> _)) =>
    replace x with (bump_children (node_static parent)) end.
  2: { unfold bump_children, node_static. cbn. f_equal. unfold u64_incr.
       rewrite u64_add_small; [done|]. unfold MAX_ACCEPTED_CHILDREN_PER_NODE in Hch.
       int_lia. }
  eapply shape_ok_add_child; try done.
  - unfold statics. by rewrite lookup_fmap, Hf.
  - by apply lookup_statics.
  - cbn. by rewrite Hpid.
  - split. exists (node_static parent). split; [by apply lookup_statics|].
    cbn. split_and!; try done.
    + intros c [? ?]%heritable_spec. set_solver.
    + revert Hsub. unfold is_subset_of. cbn.
      rewrite !andb_true_iff, !bool_decide_eq_true. intros [[? ?] Hcs]. split; [done|].
      intros c [? ?]%heritable_spec. apply Hcs. by rewrite Hscap.
  - by rewrite map_size_fmap.
  - intros k st (n & <- & Hk)%lookup_fmap_Some. by eapply Hfp.
Qed.

Lemma admit_child_accounts env p t r t' :
  budget_ok (p_budget p) → admit_child env p t = Some (r, t') →
  accounts_ok t → accounts_ok t'.
Proof.
  intros Hb [(e & _ & ->)|(parent & pe & b & H)]%admit_child_inv Ha; [done|].
  cbn zeta in H. destruct H as (_ & Hc & Hbud & Hp & En & Et).
  apply admit_checks_inv in Hc as (_&_&_&_&_&_&Hpar&_).
  apply admit_budget_inv in Hbud as (-> & _ & Hlim).
  destruct Ha as [Hspent Hres Hroot Hns _].
  pose proof (Hns _ _ Hpar) as (?&?&?&?&?). pose proof (Hns _ _ Hp) as (?&?&?&?&?).
  assert (budget_ok (bounded_by (bounded_by (p_budget p) (n_child_budget parent))
    (root_budget t))) as Hok by auto with budget.
  rewrite Et. split; cbn; auto with budget.
  - rewrite En. apply map_Forall_insert_2; [node_split; done|].
    apply map_Forall_insert_2; [node_split|done].
  - intros Hlive limit Hl. cbn in *. rewrite budget_add_assoc by done. auto.
Qed.

Lemma tree_step_inv t t' : tree_step t t' → tree_inv t → tree_inv t'.
Proof.
  intros Hst. pose proof (tree_step_keeps_leases _ _ Hst) as Hk.
  destruct (tree_step_frame _ _ Hst) as
    [?|[(env & p & r & Hb & Hf & H)|(env & id & l & r & Hf & H)]].
  - eauto using frame_inv.
  - intros []. split; [by eapply admit_child_shape|by eapply admit_child_accounts|by auto|].
    apply admit_child_inv in H as [(e & _ & ->)|(parent & pe & b & H)]; [done|].
    destruct H as (_&_&_&_&_& ->). done.
  - eauto using lease_node_tree_inv.
Qed.

Lemma tree_steps_inv t t' : rtc tree_step t t' → tree_inv t → tree_inv t'.
Proof. induction 1; eauto using tree_step_inv. Qed.

Lemma reachable_inv t : reachable t → tree_inv t.
Proof.
  intros (run & wf & id & o & sc & caps & b & Hb & Hr).
  eauto using tree_steps_inv, new_tree_inv.
Qed.

End reachable.
