(* ===== verification/RecursiveLedger.v ===== *)
(** * Usage accounting of recursive task trees

    The abstract specification is a ledger: one usage per receipt, never
    rewritten. The tree refines it: its spent budget is the total of the
    ledger, whatever operations run, so a receipt is charged exactly once. *)

From S2P Require Import Prelude Text RecursiveExecution RecursiveTreeProps RecursiveInvariants.

Local Open Scope Z_scope.

(** ** The abstract ledger *)

Abbreviation Ledger := (gmap string RecursiveBudget).

Definition ledger_total (l : Ledger) : RecursiveBudget :=
  map_fold (λ _ u acc, budget_add acc u) (mkBudget 0 0 0 0) l.

(** What the ledger may do: nothing, or enter a new receipt. *)
Inductive ledger_next (l : Ledger) : Ledger → Prop :=
  | ledger_idle : ledger_next l l
  | ledger_charge rid u : l !! rid = None → budget_ok u → ledger_next l (<[rid := u]> l).

Lemma budget_add_comm_r y a b :
  budget_ok a → budget_ok b →
  budget_add (budget_add y a) b = budget_add (budget_add y b) a.
Proof. intros. apply budget_eq; budget_lia. Qed.

Lemma ledger_total_insert (l : Ledger) rid u :
  l !! rid = None → map_Forall (λ _ u, budget_ok u) l → budget_ok u →
  ledger_total (<[rid := u]> l) = budget_add (ledger_total l) u.
Proof.
  intros Hn Hl Hu. unfold ledger_total.
  rewrite map_fold_insert_L; [done| |done].
  intros j1 j2 z1 z2 y _ H1 H2.
  assert (Hall : map_Forall (λ _ u, budget_ok u) (<[rid := u]> l))
    by by apply map_Forall_insert_2.
  apply budget_add_comm_r; [by apply (Hall j2)|by apply (Hall j1)].
Qed.

Section with_deps.
Context `{Deps : RecursiveDeps}.

(** ** The refinement relation *)

Record ledger_ok (l : Ledger) (t : RecursiveTree) : Prop := {
  lg_recorded : ∀ rid, is_Some (usage_receipts t !! rid) → is_Some (l !! rid);
  lg_value : ∀ rid u, l !! rid = Some u → budget_ok u
    ∧ ∃ b fp, usage_to_string u = Some fp
      ∧ usage_receipts t !! rid = Some (usage_receipt_value b fp);
  lg_total : spent_budget t = ledger_total l;
}.

Definition ledger_sim (t t' : RecursiveTree) : Prop :=
  ∀ l, ledger_ok l t → ∃ l', ledger_next l l' ∧ ledger_ok l' t'.

Definition ledger_quiet (t t' : RecursiveTree) : Prop :=
  spent_budget t' = spent_budget t ∧ usage_receipts t' = usage_receipts t.

#[export] Instance ledger_quiet_preorder : PreOrder ledger_quiet.
Proof. split; [done|]. intros ??? [] []. split; congruence. Qed.

Lemma ledger_quiet_ok t t' l : ledger_quiet t t' → ledger_ok l t → ledger_ok l t'.
Proof. intros [E1 E2] []. split; by rewrite ?E1, ?E2. Qed.

Lemma ledger_sim_quiet t t' : ledger_quiet t t' → ledger_sim t t'.
Proof. intros Q l Hl. eauto using ledger_quiet_ok, ledger_idle. Qed.

Lemma ledger_sim_quiet_r t1 t2 t3 : ledger_sim t1 t2 → ledger_quiet t2 t3 → ledger_sim t1 t3.
Proof. intros S Q l Hl. destruct (S l Hl) as (l' & ? & ?). eauto using ledger_quiet_ok. Qed.

(** *** Recording usage *)

Lemma recorded_usage_None rid fp t :
  recorded_usage rid fp t = None ↔ usage_receipts t !! rid = None.
Proof. unfold recorded_usage. by destruct (usage_receipts t !! rid). Qed.

Lemma recorded_usage_value rid fp fp' b t :
  usage_receipts t !! rid = Some (usage_receipt_value b fp) →
  recorded_usage rid fp' t =
    Some (if bool_decide (fp = fp') then Ok b else Err FailureReason.ReceiptConflict).
Proof.
  intros H. unfold recorded_usage, usage_receipt_value in *. rewrite H.
  destruct b; [by rewrite strip_prefix_app; case_bool_decide|].
  replace (strip_prefix "1:" ("0:" +:+ fp)) with (@None string) by done.
  by rewrite strip_prefix_app; case_bool_decide.
Qed.

Lemma record_usage_inv rid u b t r t' :
  record_usage_internal rid u b t = (r, t') →
  (t' = t ∧ (usage_to_string u = None ∨ is_Some (usage_receipts t !! rid)))
  ∨ ∃ fp v, usage_to_string u = Some fp ∧ usage_receipts t !! rid = None
    ∧ r = Ok v
    ∧ usage_receipts t' = <[rid := usage_receipt_value v fp]> (usage_receipts t)
    ∧ spent_budget t' = budget_add (spent_budget t) u.
Proof.
  unfold record_usage_internal.
  destruct (usage_to_string u) as [fp|] eqn:Hu; [|intros [= _ <-]; by auto].
  destruct (recorded_usage rid fp t) eqn:Hr.
  { intros [= _ <-]. left. split; [done|]. right. apply not_eq_None_Some.
    rewrite <-(recorded_usage_None _ fp). congruence. }
  apply recorded_usage_None in Hr. intros [= <- <-]. right. eexists fp, _.
  split_and!; [done|done|done|..]; by destruct b, (match root_budget_limit t with
    Some _ => _ | _ => _ end); cbn; try case_match.
Qed.

(** A new receipt enters the ledger. *)
Lemma ledger_ok_charge l t t' rid u v fp :
  ledger_ok l t → budget_ok u → usage_to_string u = Some fp →
  usage_receipts t !! rid = None →
  usage_receipts t' = <[rid := usage_receipt_value v fp]> (usage_receipts t) →
  spent_budget t' = budget_add (spent_budget t) u →
  ledger_next l (<[rid := u]> l) ∧ ledger_ok (<[rid := u]> l) t'.
Proof.
  intros [Hrec Hval Htot] Hu Hs Hn Er Es.
  assert (Hl : l !! rid = None).
  { destruct (l !! rid) as [u0|] eqn:E; [|done].
    destruct (Hval _ _ E) as (_ & ? & ? & _ & ?). congruence. }
  split; [by apply ledger_charge|]. split.
  - intros rid'. rewrite Er, !lookup_insert_is_Some. intros [?|[? ?]]; [by left|].
    right. auto.
  - intros rid' u' [[<- <-]|[? H]]%lookup_insert_Some; rewrite Er.
    + rewrite lookup_insert_eq. eauto.
    + rewrite lookup_insert_ne by done. by apply Hval.
  - rewrite ledger_total_insert; [by rewrite Es, Htot|done| |done].
    intros rid' u' H. by apply (Hval rid').
Qed.

Lemma record_usage_sim rid u b t r t' :
  budget_ok u → record_usage_internal rid u b t = (r, t') → ledger_sim t t'.
Proof.
  intros Hu [[-> _]|(fp & v & Hs & Hn & _ & Er & Es)]%record_usage_inv l Hl;
    [eauto using ledger_idle|]. eexists. by eapply ledger_ok_charge.
Qed.

(** *** Operations that record nothing *)

Lemma release_ledger id t : ledger_quiet t (release_node_reservation_for_persistence id t).
Proof.
  unfold release_node_reservation_for_persistence.
  by destruct (nodes t !! id); [repeat case_match|].
Qed.

Lemma quiet_foldl {B} (f : RecursiveTree → B → RecursiveTree) (l : list B) t :
  (∀ t x, ledger_quiet t (f t x)) → ledger_quiet t (foldl f t l).
Proof.
  intros H. revert t. induction l as [|x l IH]; intros t; simpl; [done|].
  etransitivity; [apply H|apply IH].
Qed.

Lemma fail_node_ledger reason t id : ledger_quiet t (fail_node reason t id).
Proof. unfold fail_node. by repeat case_match. Qed.

Lemma release_all_ledger t ids : ledger_quiet t (release_all t ids).
Proof. apply quiet_foldl. intros. apply release_ledger. Qed.

Lemma fail_all_ledger reason t ids : ledger_quiet t (foldl (fail_node reason) t ids).
Proof. apply quiet_foldl. intros. apply fail_node_ledger. Qed.

Lemma terminalize_ledger except reason t :
  ledger_quiet t (terminalize_remaining_nodes except reason t).2.
Proof.
  unfold terminalize_remaining_nodes. cbn zeta beta. simpl snd.
  etransitivity; [apply (fail_all_ledger reason _ (terminalized_ids except t))|].
  etransitivity; [apply (release_all_ledger _ (terminalized_ids except t))|].
  by destruct (terminalized_ids except t).
Qed.

Lemma close_tree_ledger t : ledger_quiet t (close_tree t).
Proof. unfold close_tree. by case_match. Qed.

Lemma finalize_ledger failed t t' :
  finalize_terminal_tree failed t = Some t' → ledger_quiet t t'.
Proof.
  unfold finalize_terminal_tree. case_match; [by intros [= <-]|].
  case_match; [|intros [= <-]; apply close_tree_ledger].
  case_match; [|done]. intros [= <-].
  etransitivity; [|apply close_tree_ledger].
  etransitivity; [|apply release_all_ledger]. apply fail_all_ledger.
Qed.

(** *** Operations that record at most one receipt *)

Lemma complete_node_sim id l rid ok u t r t' :
  budget_ok u → complete_node_with_usage_receipt id l rid ok u t = (r, t') →
  ledger_sim t t'.
Proof.
  intros Hu. unfold complete_node_with_usage_receipt.
  destruct (nodes t !! id) as [n0|]; [|intros [= _ <-]; by apply ledger_sim_quiet].
  case_match; [intros [= _ <-]; by apply ledger_sim_quiet|].
  destruct (record_usage rid u t) as [[within|e] t1] eqn:Hrec;
    apply record_usage_sim in Hrec; [|done|by intros [= _ <-]|done].
  destruct (nodes t1 !! id) as [n|]; [|by intros [= _ <-]].
  intros [= _ <-]. eapply ledger_sim_quiet_r; [exact Hrec|].
  case_match; [|done]. etransitivity; [|etransitivity; [apply terminalize_ledger|done]]. done.
Qed.

Lemma complete_root_sim l rid ok u t r t' :
  budget_ok u → complete_root_with_usage_receipt l rid ok u t = Some (r, t') →
  ledger_sim t t'.
Proof.
  intros Hu. unfold complete_root_with_usage_receipt.
  destruct (nodes t !! root_node_id t) as [n0|];
    [|intros [= _ <-]; by apply ledger_sim_quiet].
  do 3 (case_match; [intros [= _ <-]; by apply ledger_sim_quiet|]).
  destruct (record_unreserved_usage rid u t) as [[within|e] t1] eqn:Hrec;
    apply record_usage_sim in Hrec; [|done|by intros [= _ <-]|done].
  set (t2 := if is_some _ then t1 else _).
  assert (S2 : ledger_sim t t2) by (eapply ledger_sim_quiet_r; [done|by unfold t2; case_match]).
  clearbody t2. destruct (nodes t2 !! _) as [n|]; [|by intros [= _ <-]].
  set (n' := if is_some _ then n else _).
  set (t3 := t2 <| nodes := _ |> <| active_leases := _ |>).
  assert (S3 : ledger_sim t t3) by by eapply ledger_sim_quiet_r.
  clearbody t3. set (t4 := if negb (_ && within) then _ else _).
  assert (S4 : ledger_sim t t4).
  { eapply ledger_sim_quiet_r; [exact S3|]. unfold t4. repeat case_match; try done;
      by (etransitivity; [|apply terminalize_ledger]). }
  clearbody t4. case_match; [|by intros [= _ <-]; eapply ledger_sim_quiet_r].
  destruct (finalize_terminal_tree _ _) as [t5|] eqn:F; [|done]. intros [= _ <-].
  apply finalize_ledger in F. by eapply ledger_sim_quiet_r; [exact S4|].
Qed.

(** Late usage charges the receipt and may then mark it as an overrun. *)
Lemma late_tail_sim t t1 t2 id rid fp u r b' (b : bool) :
  budget_ok u → usage_to_string u = Some fp → usage_receipts t !! rid = None →
  record_usage_internal rid u b' t = (r, t1) → ledger_quiet t1 t2 →
  ledger_sim t (if b then t2 else
    let t3 := t2 <| usage_receipts := <[rid := usage_receipt_value false fp]> (usage_receipts t2) |> in
    if is_settled (execution_state t3) then t3
    else (terminalize_remaining_nodes (Some id) FailureReason.TreeBudgetExhausted
            (t3 <| execution_state := ExecutionState.BudgetExhausted |>)).2).
Proof.
  intros Hu Hs Hn Hrec Q. pose proof (record_usage_sim _ _ _ _ _ _ Hu Hrec) as S1.
  apply record_usage_inv in Hrec as
    [[_ [?|[? ?]]]|(fp' & v' & Hs' & _ & _ & Er & Es)]; [congruence..|].
  rewrite Hs in Hs'. injection Hs' as <-.
  destruct b; [by eapply ledger_sim_quiet_r|].
  set (t3 := t2 <| usage_receipts := _ |>).
  assert (S3 : ledger_sim t t3).
  { intros l Hl. eexists. eapply (ledger_ok_charge l t t3); [done..| |].
    - cbn. by rewrite (proj2 Q), Er, insert_insert_eq.
    - cbn. by rewrite (proj1 Q), Es. }
  clearbody t3. cbn zeta. case_match; [done|].
  eapply ledger_sim_quiet_r; [exact S3|]. by etransitivity; [|apply terminalize_ledger].
Qed.

Lemma record_late_usage_sim id rid u t r t' :
  budget_ok u → record_late_usage id rid u t = (r, t') → ledger_sim t t'.
Proof.
  intros Hu. unfold record_late_usage.
  destruct (usage_to_string u) as [fp|] eqn:Hs;
    [|intros [= _ <-]; by apply ledger_sim_quiet].
  destruct (recorded_usage rid fp t) eqn:Hr; [intros [= _ <-]; by apply ledger_sim_quiet|].
  apply recorded_usage_None in Hr.
  destruct (nodes t !! id) as [n0|]; [|intros [= _ <-]; by apply ledger_sim_quiet].
  destruct (record_usage rid u t) as [[within|e] t1] eqn:Hrec;
    [|intros [= _ <-]; by eapply record_usage_sim].
  destruct (nodes t1 !! id) as [n|]; [|intros [= _ <-]; by eapply record_usage_sim].
  intros [= _ <-]. eapply ledger_sim_quiet_r;
    [eapply (late_tail_sim _ _ (t1 <| nodes := _ |>) id rid fp u _ _
      (can_spend (n_budget n0) u && within)); done|]. done.
Qed.

Lemma record_root_late_usage_sim rid u t r t' :
  budget_ok u → record_root_late_usage rid u t = (r, t') → ledger_sim t t'.
Proof.
  intros Hu. unfold record_root_late_usage.
  destruct (usage_to_string u) as [fp|] eqn:Hs;
    [|intros [= _ <-]; by apply ledger_sim_quiet].
  destruct (recorded_usage rid fp t) eqn:Hr; [intros [= _ <-]; by apply ledger_sim_quiet|].
  apply recorded_usage_None in Hr.
  destruct (nodes t !! root_node_id t) as [n0|];
    [|intros [= _ <-]; by apply ledger_sim_quiet].
  destruct (record_unreserved_usage rid u t) as [[within|e] t1] eqn:Hrec;
    [|intros [= _ <-]; by eapply record_usage_sim].
  set (t2 := t1 <| root_budget := _ |>).
  assert (Q2 : ledger_quiet t1 t2) by done. clearbody t2.
  destruct (nodes t2 !! root_node_id t2) as [n|];
    [|intros [= _ <-]; eapply ledger_sim_quiet_r; [by eapply record_usage_sim|done]].
  intros [= _ <-]. eapply ledger_sim_quiet_r;
    [eapply (late_tail_sim _ _ (t2 <| nodes := _ |>) (root_node_id t2) rid fp u _ _
      (can_spend (n_budget n0) u && within)); done|]. done.
Qed.

Lemma complete_node_plain_sim id l ok t r t' :
  complete_node id l ok t = (r, t') → ledger_sim t t'.
Proof.
  unfold complete_node, complete_node_with_usage.
  destruct (complete_node_with_usage_receipt _ _ _ _ _ _) as [[u|e] t1] eqn:E;
    apply complete_node_sim in E; try apply budget_default_ok; intros [= _ <-]; [|done].
  eapply ledger_sim_quiet_r; [exact E|]. apply release_ledger.
Qed.

(** *** Every step *)

Lemma tree_step_ledger t t' : tree_step t t' → ledger_sim t t'.
Proof.
  destruct 1; eauto using complete_node_plain_sim, complete_node_sim, complete_root_sim,
    record_usage_sim, record_late_usage_sim, record_root_late_usage_sim;
    apply ledger_sim_quiet; eauto using release_ledger, terminalize_ledger, finalize_ledger.
  - revert H. unfold bind_root_identity. by do 2 (case_match; [by intros [= _ <-]|]);
      intros [= _ <-].
  - revert H. unfold bind_root_execution_scope. case_match; [by intros [= _ <-]|].
    by case_match; intros [= _ <-].
  - apply admit_child_inv in H1 as [(e & _ & ->)|(parent & pe & b & H1)]; [done|].
    by destruct H1 as (_&_&_&_&_& ->).
  - apply lease_node_inv in H0 as [(e & _ & ->)|(n & H0)]; [done|].
    by destruct H0 as (_&_&_&_&_&_&_&_& ->).
  - revert H. unfold retry_node. by case_match; intros [= _ <-].
  - revert H. unfold recover_stale_lease. case_match; [|by intros [= _ <-]].
    by case_match; intros [= _ <-].
  - unfold pause. by case_match.
  - unfold resume. by case_match.
  - done.
Qed.

Lemma ledger_next_mono l l' : ledger_next l l' → l ⊆ l'.
Proof. destruct 1; [done|]. by apply insert_subseteq. Qed.

Lemma tree_steps_ledger t t' l :
  rtc tree_step t t' → ledger_ok l t →
  ∃ l', rtc ledger_next l l' ∧ l ⊆ l' ∧ ledger_ok l' t'.
Proof.
  intros Hs. revert l. induction Hs as [t|t1 t2 t3 Hst Hs IH]; intros l Hl.
  - exists l. split_and!; [constructor|done|done].
  - destruct (tree_step_ledger _ _ Hst l Hl) as (l1 & Hn & Hl1).
    destruct (IH l1 Hl1) as (l2 & Hr & Hsub & Hl2). exists l2. split_and!; [|..|done].
    + by econstructor.
    + etransitivity; [by apply ledger_next_mono|done].
Qed.

Lemma new_tree_ledger run wf id objective scope caps budget :
  ledger_ok ∅ (new_with_root_node_id run wf id objective scope caps budget).
Proof.
  split; cbn; [intros rid; by rewrite lookup_empty; intros [??]|by intros ??; rewrite lookup_empty|].
  unfold ledger_total. by rewrite map_fold_empty.
Qed.

Lemma reachable_ledger t : reachable t → ∃ l, ledger_ok l t.
Proof.
  intros (run & wf & id & o & sc & caps & b & _ & Hr).
  destruct (tree_steps_ledger _ _ ∅ Hr) as (l & _ & _ & Hl); [|eauto].
  apply new_tree_ledger.
Qed.

End with_deps.
