(* ===== verification/RecursiveTerminal.v ===== *)
(** * Terminalisation of recursive task trees

    What [terminalize_remaining_nodes] and [finalize_terminal_tree] do to the
    nodes, and why the walk over the parents in [finalize_terminal_tree]
    ends. *)

From S2P Require Import Prelude Text RecursiveExecution RecursiveTreeProps RecursiveInvariants.

Local Open Scope Z_scope.

(** ** Descendants *)

(** [k] is strictly below [a]. *)
Inductive descends (ns : gmap string RecursiveNode) (a : string) : string → Prop :=
  | descends_child k n :
      ns !! k = Some n → n_parent_node_id n = Some a → descends ns a k
  | descends_step k n p :
      ns !! k = Some n → n_parent_node_id n = Some p → descends ns a p → descends ns a k.

(** Every node lies one level below its parent, which is in the tree; only nodes
    at depth 0 have none. *)
Record graded (t : RecursiveTree) : Prop := {
  gr_parent : ∀ k n p, nodes t !! k = Some n → n_parent_node_id n = Some p →
    ∃ pn, nodes t !! p = Some pn ∧ n_depth n = n_depth pn + 1;
  gr_nonneg : ∀ k n, nodes t !! k = Some n → 0 <= n_depth n;
  gr_root : ∀ k n, nodes t !! k = Some n → n_parent_node_id n = None → n_depth n = 0;
}.

Lemma shape_graded root t : shape_ok root (statics t) → graded t.
Proof.
  intros Hshape.
  assert (Hroot : ∀ n, nodes t !! root = Some n → n_parent_node_id n = None ∧ n_depth n = 0).
  { intros n Hn%lookup_statics. destruct (so_root _ _ Hshape) as (st & Hr & ? & ?). by simplify_eq. }
  split.
  - intros k n p Hn Hp. pose proof (lookup_statics _ _ _ Hn) as Hs.
    destruct (decide (k = root)) as [->|Hne]; [destruct (Hroot _ Hn); congruence|].
    destruct (so_parent _ _ Hshape _ _ Hs Hne) as (q & Hq & [(pst & Hl & Hd & _)]).
    cbn in Hq, Hd. simplify_eq. apply lookup_fmap_Some in Hl as (pn & <- & ?). eauto.
  - intros k n H%lookup_statics%(so_depth _ _ Hshape). cbn in H. lia.
  - intros k n Hn Hp. pose proof (lookup_statics _ _ _ Hn) as Hs.
    destruct (decide (k = root)) as [->|Hne]; [by destruct (Hroot _ Hn)|].
    destruct (so_parent _ _ Hshape _ _ Hs Hne) as (q & Hq & _). cbn in Hq. congruence.
Qed.

Section walk.
Context (t : RecursiveTree).
Hypothesis Hgraded : graded t.

(** A node at depth [d] has [d] nodes above it. *)
Lemma depth_lt_size_below (d : nat) k n :
  nodes t !! k = Some n → n_depth n = Z.of_nat d →
  (d < size (filter (λ kv : string * RecursiveNode, (n_depth kv.2 ≤ Z.of_nat d)%Z) (nodes t)))%nat.
Proof using Hgraded.
  revert k n. induction d as [|d IH]; intros k n Hn Hd.
  - destruct (decide (size (filter (λ kv : string * RecursiveNode,
      (n_depth kv.2 ≤ Z.of_nat 0)%Z) (nodes t)) = 0%nat)) as [E|]; [|lia].
    apply map_size_empty_inv, map_empty_filter in E. destruct (E _ _ Hn). simpl. lia.
  - destruct (n_parent_node_id n) as [p|] eqn:Hp.
    + destruct (gr_parent _ Hgraded _ _ _ Hn Hp) as (pn & Hpn & E).
      assert (IHd := IH p pn Hpn ltac:(lia)).
      eapply Nat.le_lt_trans; [exact IHd|]. apply map_subset_size.
      apply map_subset_alt. split.
      * apply map_filter_subseteq_ext. simpl. lia.
      * exists k. split.
        -- apply map_lookup_filter_None. right. intros x Hx. simplify_eq. simpl. lia.
        -- exists n. apply map_lookup_filter_Some. simpl. split; [done|lia].
    + pose proof (gr_root _ Hgraded _ _ Hn Hp). lia.
Qed.

Lemma depth_lt_size k n : nodes t !! k = Some n → n_depth n < Z.of_nat (size (nodes t)).
Proof using Hgraded.
  intros Hn. pose proof (gr_nonneg _ Hgraded _ _ Hn).
  pose proof (depth_lt_size_below (Z.to_nat (n_depth n)) k n Hn ltac:(lia)) as Hlt.
  pose proof (map_subseteq_size _ _ (map_filter_subseteq
    (λ kv : string * RecursiveNode, (n_depth kv.2 ≤ Z.of_nat (Z.to_nat (n_depth n)))%Z)
    (nodes t))). lia.
Qed.

(** The walk up the parents decides [descends], with as much fuel as the depth. *)
Lemma has_ancestor_spec fuel a k n :
  nodes t !! k = Some n → n_depth n <= Z.of_nat fuel →
  ∃ b, has_ancestor fuel (nodes t) a (n_parent_node_id n) = Some b
    ∧ (b = true ↔ descends (nodes t) a k).
Proof using Hgraded.
  revert k n. induction fuel as [|fuel IH]; intros k n Hn Hd;
    (destruct (n_parent_node_id n) as [p|] eqn:Hp;
      [|exists false; split; [done|]; split; [done|]; destruct 1; congruence]);
    destruct (gr_parent _ Hgraded _ _ _ Hn Hp) as (pn & Hpn & E); simpl;
    (case_bool_decide as Ha; [subst p; exists true; split; [done|];
      split; [eauto using descends_child|done]|]).
  - pose proof (gr_nonneg _ Hgraded _ _ Hpn). lia.
  - rewrite Hpn. simpl. destruct (IH p pn Hpn) as (b & Hb & Hiff); [lia|].
    exists b. split; [done|]. rewrite Hiff. split; [eauto using descends_step|].
    destruct 1; simplify_eq; done.
Qed.

Lemma live_descendants_spec a cands :
  (∀ n, n ∈ cands → nodes t !! n_node_id n = Some n) →
  ∃ ids, live_descendants (nodes t) a cands = Some ids
    ∧ ∀ k, k ∈ ids ↔ ∃ n, n ∈ cands ∧ n_node_id n = k ∧ is_live (n_status n) = true
                     ∧ descends (nodes t) a k.
Proof using Hgraded.
  induction cands as [|c cands IH]; intros Hc; simpl.
  - exists []. split; [done|]. set_solver.
  - assert (Hn : nodes t !! n_node_id c = Some c) by (apply Hc; left).
    pose proof (depth_lt_size _ _ Hn).
    destruct (has_ancestor_spec (size (nodes t)) a _ _ Hn) as (b & -> & Hb); [lia|].
    destruct IH as (ids & -> & Hids); [intros; apply Hc; by right|].
    eexists. split; [done|]. intros k. setoid_rewrite elem_of_cons.
    destruct (b && is_live (n_status c)) eqn:E; [rewrite elem_of_cons|]; rewrite Hids.
    + apply andb_true_iff in E as [?%Hb ?]. naive_solver.
    + split; [naive_solver|]. intros (n & [->|?] & <- & Hl & Hd); [|naive_solver].
      apply Hb in Hd. rewrite Hd, Hl in E. done.
Qed.
End walk.

(** ** What terminalisation does to a node *)

(** The part of a node that terminalisation decides. *)
Definition outcome (n : RecursiveNode)
    : NodeStatus.RecursiveNodeStatus * option string
      * option FailureReason.RecursiveFailureReason :=
  (n_status n, n_lease_id n, n_failure_reason n).

Definition outcome_of (t : RecursiveTree) (k : string) := outcome <$> nodes t !! k.

Definition failed_with (reason : FailureReason.RecursiveFailureReason)
    : NodeStatus.RecursiveNodeStatus * option string
      * option FailureReason.RecursiveFailureReason :=
  (NodeStatus.Failed, None, Some reason).

Lemma outcome_of_fail_node reason t id k :
  outcome_of (fail_node reason t id) k =
  if bool_decide (k = id) then (λ _, failed_with reason) <$> nodes t !! k
  else outcome_of t k.
Proof.
  unfold fail_node, outcome_of. case_bool_decide as E.
  - subst id. destruct (nodes t !! k) as [n|] eqn:Hn; [|by rewrite Hn].
    case_match; cbn; by rewrite lookup_insert_eq.
  - destruct (nodes t !! id) as [n|] eqn:Hn; [|done].
    case_match; cbn; by rewrite lookup_insert_ne.
Qed.

Lemma fail_node_mem reason t id k :
  is_Some (nodes (fail_node reason t id) !! k) ↔ is_Some (nodes t !! k).
Proof.
  unfold fail_node. destruct (nodes t !! id) as [n|] eqn:Hn; [|done].
  case_match; cbn; rewrite lookup_insert_is_Some'; naive_solver.
Qed.

Lemma outcome_of_fail_all reason t ids k :
  outcome_of (foldl (fail_node reason) t ids) k =
  if bool_decide (k ∈ ids) then (λ _, failed_with reason) <$> nodes t !! k
  else outcome_of t k.
Proof.
  revert t. induction ids as [|id ids IH]; intros t; simpl; [done|].
  rewrite IH, outcome_of_fail_node. destruct (decide (k ∈ ids)) as [Hin|Hin].
  - rewrite !bool_decide_true by (done || by right).
    destruct (nodes t !! k) eqn:E; [|].
    + destruct (proj2 (fail_node_mem reason t id k)) as [? ->]; eauto.
    + destruct (nodes (fail_node reason t id) !! k) eqn:E'; [|done].
      destruct (proj1 (fail_node_mem reason t id k)); [eauto|congruence].
  - rewrite (bool_decide_false (k ∈ ids)) by done.
    destruct (decide (k = id)) as [->|].
    + by rewrite !bool_decide_true by (done || left).
    + by rewrite !bool_decide_false by (set_solver).
Qed.

Lemma outcome_of_update t t' id n n' k :
  nodes t !! id = Some n → nodes t' = <[id := n']> (nodes t) →
  outcome n' = outcome n → outcome_of t' k = outcome_of t k.
Proof.
  intros Hn En Eo. unfold outcome_of. rewrite En.
  destruct (decide (k = id)) as [->|].
  - rewrite lookup_insert_eq, Hn. simpl. by rewrite Eo.
  - by rewrite lookup_insert_ne.
Qed.

Lemma outcome_of_release id t k :
  outcome_of (release_node_reservation_for_persistence id t) k = outcome_of t k.
Proof.
  unfold release_node_reservation_for_persistence.
  destruct (nodes t !! id) as [n|] eqn:Hn; [|done].
  set (t1 := t <| nodes := _ |> <| reserved_budget := _ |> <| root_budget := _ |>).
  assert (Q : outcome_of t1 k = outcome_of t k) by by eapply outcome_of_update.
  destruct (n_parent_node_id n) as [p|]; [|exact Q].
  destruct (nodes t1 !! p) as [pn|] eqn:Hp; [|exact Q].
  rewrite <-Q. by eapply outcome_of_update.
Qed.

Lemma outcome_of_release_all t ids k :
  outcome_of (release_all t ids) k = outcome_of t k.
Proof.
  unfold release_all. revert t. induction ids as [|id ids IH]; intros t; simpl; [done|].
  by rewrite IH, outcome_of_release.
Qed.

Lemma outcome_of_close_tree t k : outcome_of (close_tree t) k = outcome_of t k.
Proof. unfold close_tree. by case_match. Qed.

Lemma outcome_of_terminalize except reason t k :
  outcome_of (terminalize_remaining_nodes except reason t).2 k =
  if bool_decide (k ∈ terminalized_ids except t)
  then (λ _, failed_with reason) <$> nodes t !! k else outcome_of t k.
Proof.
  rewrite <-outcome_of_fail_all. etransitivity;
    [|apply (outcome_of_release_all _ (terminalized_ids except t))].
  unfold terminalize_remaining_nodes. cbn zeta beta. simpl snd.
  by destruct (terminalized_ids except t).
Qed.

(** Failing and releasing nodes leaves the state of the tree alone. *)
Lemma fail_node_state reason t id : execution_state (fail_node reason t id) = execution_state t.
Proof. unfold fail_node. by repeat case_match. Qed.

Lemma release_state id t :
  execution_state (release_node_reservation_for_persistence id t) = execution_state t.
Proof. unfold release_node_reservation_for_persistence. by repeat case_match. Qed.

Lemma foldl_state {B} (f : RecursiveTree → B → RecursiveTree) (l : list B) t :
  (∀ t x, execution_state (f t x) = execution_state t) →
  execution_state (foldl f t l) = execution_state t.
Proof. intros H. revert t. induction l; intros t; simpl; [done|]. by rewrite IHl, H. Qed.

Lemma release_all_state t ids : execution_state (release_all t ids) = execution_state t.
Proof. apply foldl_state. intros. apply release_state. Qed.

(** With node ids as keys, the terminalised nodes are the live non-root ones. *)
Lemma elem_of_terminalized_ids root except t k :
  shape_ok root (statics t) →
  k ∈ terminalized_ids except t ↔
  ∃ n, nodes t !! k = Some n ∧ n_parent_node_id n ≠ None
     ∧ Some k ≠ except ∧ is_live (n_status n) = true.
Proof.
  intros Hs.
  assert (Hid : ∀ k n, nodes t !! k = Some n → n_node_id n = k).
  { intros k' n Hn%lookup_statics. by apply (so_key _ _ Hs) in Hn. }
  unfold terminalized_ids. rewrite list_elem_of_fmap. split.
  - intros (n & -> & [Hp (k' & Hk)%elem_of_btree_values]%list_elem_of_filter).
    pose proof (Hid _ _ Hk) as <-. exists n.
    apply andb_true_iff in Hp as [[Hp He]%andb_true_iff Hl].
    apply negb_true_iff, bool_decide_eq_false in He.
    split_and!; try done. by destruct (n_parent_node_id n).
  - intros (n & Hn & Hp & He & Hl). pose proof (Hid _ _ Hn) as <-. exists n.
    split; [done|]. apply list_elem_of_filter. split; [|apply elem_of_btree_values; eauto].
    rewrite Hl, bool_decide_false by done. by destruct (n_parent_node_id n).
Qed.
