(* ===== verification/RecursiveTheorems.v ===== *)
(** * Correctness of recursive execution

    The theorems about every reachable recursive tree, each with a run of the
    operations on concrete inputs that meets its hypotheses. *)

From S2P Require Import Prelude Text RecursiveExecution RecursiveTreeProps RecursiveInvariants RecursiveLedger RecursiveTerminal.

Local Open Scope Z_scope.

(** ** A concrete run *)

Module Demo.
(** A hash and serialisers to run the operations with. *)
Definition deps : RecursiveDeps := {|
  char_is_alphanumeric c :=
    ((48 <=? c) && (c <=? 57)) || ((65 <=? c) && (c <=? 90)) || ((97 <=? c) && (c <=? 122));
  sha256_hex s := s;
  identity_to_vec i :=
    id_version i +:+ "/" +:+ id_intent i +:+ "/" +:+ id_subject i
      +:+ "/" +:+ join "," (id_qualifiers i);
  usage_to_string u := Some (pretty (calls_remaining u) +:+ "," +:+
    pretty (tokens_remaining u) +:+ "," +:+ pretty (cost_micros_remaining u)
    +:+ "," +:+ pretty (time_ms_remaining u)) |}.
#[local] Existing Instance deps.

Definition env : env_vars := λ k,
  if bool_decide (k = "ACP_RECURSIVE_EXECUTION_ENABLED") then Some "TRUE" else None.

Definition scope : RecursiveScope :=
  mkScope (Some "repo") {["docs/"; "src/"]} {["read"; "handoff"]}.
Definition tree : RecursiveTree :=
  new_with_root_node_id "run-1" "wf-1" "root" "Review the documentation" scope
    {["read"; "handoff"]} (mkBudget 10 1000 5000 60000).

Definition proposal : RecursiveProposal := {|
  p_proposal_id := "p1"; p_parent_node_id := "root"; p_parent_version := 1;
  p_objective := "Summarise section two"; p_context_summary := "";
  p_requested_capabilities := {["read"; "handoff"]};
  p_requested_scope := mkScope (Some "repo") {["docs/"]} {["read"; "handoff"]};
  p_budget := mkBudget 2 100 500 1000; p_receipt_sha256 := "receipt-1" |}.

Definition child_id : string :=
  derived_node_id "run-1" "p1" (objective_fingerprint (p_objective proposal)).

Definition admitted : RecursiveTree :=
  match admit_child env proposal tree with Some (_, t) => t | None => tree end.
Definition leased : RecursiveTree := (lease_node env child_id "lease-1" admitted).2.
Definition usage : RecursiveBudget := mkBudget 1 40 100 200.
Definition charged : RecursiveTree := (record_usage "rcpt-1" usage leased).2.
Definition completed : RecursiveTree :=
  (complete_node_with_usage_receipt child_id "lease-1" "rcpt-1" true usage charged).2.
End Demo.
#[local] Existing Instance Demo.deps.

Lemma demo_steps : rtc tree_step Demo.admitted Demo.completed.
Proof.
  eapply rtc_l; [|eapply rtc_l; [|apply rtc_once]].
  - eapply (step_lease Demo.env Demo.child_id "lease-1");
      [apply (bool_decide_unpack _); vm_compute; exact I|apply surjective_pairing].
  - eapply (step_record_usage "rcpt-1" Demo.usage);
      [unfold budget_ok, is_u64, u64_max; simpl; lia|apply surjective_pairing].
  - eapply (step_complete_usage Demo.child_id "lease-1" "rcpt-1" true Demo.usage);
      [unfold budget_ok, is_u64, u64_max; simpl; lia|apply surjective_pairing].
Qed.

Lemma demo_reachable : reachable Demo.completed.
Proof.
  exists "run-1", "wf-1", "root", "Review the documentation", Demo.scope,
    {["read"; "handoff"]}, (mkBudget 10 1000 5000 60000).
  split; [unfold budget_ok, is_u64, u64_max; simpl; lia|].
  apply rtc_l with Demo.admitted; [|exact demo_steps].
  eapply (step_admit Demo.env Demo.proposal);
    [unfold budget_ok, is_u64, u64_max; simpl; lia|vm_compute; reflexivity|].
  vm_compute. reflexivity.
Qed.

(** ** Shape and authority *)

(** C1: every reachable tree has the bounded shape: the root is there at depth
    0, nodes are stored under their own id, every other node names an existing
    parent one level up and extends its ancestor fingerprints, depths stay
    within the depth limit, objective fingerprints are unique, each node counts
    its children exactly and has at most the allowed number, and the tree has
    at most the allowed number of nodes. *)
Theorem reachable_shape `{Deps : RecursiveDeps} (t : RecursiveTree) :
  reachable t → shape_ok (root_node_id t) (statics t).
Proof. intros. by apply inv_shape, reachable_inv. Qed.

Lemma reachable_shape_witness :
  reachable Demo.completed ∧ shape_ok (root_node_id Demo.completed) (statics Demo.completed).
Proof. split; [exact demo_reachable|apply (reachable_shape Demo.completed), demo_reachable]. Defined.

(** Authority only shrinks on the way down. *)
Lemma shape_authority root s (d : nat) k st rst :
  shape_ok root s → s !! root = Some rst → s !! k = Some st →
  st_depth st = Z.of_nat d → k ≠ root →
  st_capabilities st ⊆ st_capabilities rst ∖ {["handoff"]}
  ∧ repository (st_scope st) = repository (st_scope rst)
  ∧ allowed_paths (st_scope st) ⊆ allowed_paths (st_scope rst).
Proof.
  intros Hs Hr. revert k st. induction d as [|d IH]; intros k st Hk Hd Hne;
    destruct (so_parent _ _ Hs _ _ Hk Hne) as (p & Hp & [(pst & Hpl & Ed & _ & Hcap & _ & Hsub)]);
    unfold is_subset_of in Hsub; rewrite !andb_true_iff, !bool_decide_eq_true in Hsub;
    destruct Hsub as [[Hrepo Hpaths] _];
    (destruct (decide (p = root)) as [->|Hpr]; [simplify_eq; set_solver|]).
  - pose proof (so_depth _ _ Hs _ _ Hpl). lia.
  - destruct (IH _ _ Hpl ltac:(lia) Hpr) as (?&?&?). split_and!; [set_solver|congruence|set_solver].
Qed.

(** C2: delegation never escalates authority: in a reachable tree every node
    other than the root works in the root's repository, on a subset of the
    root's allowed paths and with a subset of the root's capabilities, and none
    holds the "handoff" capability, whatever its proposal asked for. *)
Theorem delegation_never_escalates `{Deps : RecursiveDeps} (t : RecursiveTree) :
  reachable t → ∀ root k n,
  nodes t !! root_node_id t = Some root → nodes t !! k = Some n → k ≠ root_node_id t →
  n_capabilities n ⊆ n_capabilities root
  ∧ ("handoff" ∉ n_capabilities n)
  ∧ repository (n_scope n) = repository (n_scope root)
  ∧ allowed_paths (n_scope n) ⊆ allowed_paths (n_scope root).
Proof.
  intros Hr root k n Hroot%lookup_statics Hn%lookup_statics Hne.
  apply reachable_inv, inv_shape in Hr.
  pose proof (so_depth _ _ Hr _ _ Hn) as [Hd _].
  destruct (shape_authority _ _ (Z.to_nat (st_depth (node_static n))) _ _ _ Hr Hroot Hn)
    as (Hc & ? & ?); [lia|done|]. cbn in Hc. split_and!; [set_solver..|done|done].
Qed.

Lemma delegation_never_escalates_witness :
  ∃ n, nodes Demo.completed !! Demo.child_id = Some n ∧ "handoff" ∉ n_capabilities n.
Proof.
  destruct (nodes Demo.completed !! Demo.child_id) as [n|] eqn:Hn; [|vm_compute in Hn; done].
  destruct (nodes Demo.completed !! root_node_id Demo.completed) as [r|] eqn:Hr;
    [|vm_compute in Hr; done].
  exists n. split; [done|].
  apply (delegation_never_escalates Demo.completed demo_reachable r Demo.child_id n Hr Hn).
  vm_compute. discriminate.
Defined.

(** ** Budget *)

(** C13: while a reachable tree is running or paused, what its nodes have spent
    plus what is reserved for live nodes fits in the budget the root was given,
    in calls, tokens, cost and time. *)
Theorem reachable_within_budget `{Deps : RecursiveDeps} (t : RecursiveTree) :
  reachable t → is_terminal (execution_state t) = false →
  ∀ limit, root_budget_limit t = Some limit →
  budget_le (budget_add (spent_budget t) (reserved_budget t)) limit.
Proof. intros Hr. apply (ao_limit _ (inv_accounts _ (reachable_inv _ Hr))). Qed.

Lemma reachable_within_budget_witness :
  budget_le (budget_add (spent_budget Demo.completed) (reserved_budget Demo.completed))
    (mkBudget 10 1000 5000 60000).
Proof.
  apply (reachable_within_budget Demo.completed demo_reachable); vm_compute; reflexivity.
Defined.

(** ** Leases *)

Lemma held_size t : leases_exact t → (size (held t) ≤ size (active_leases t))%nat.
Proof.
  intros [Hidx Huniq].
  assert (Hnd : NoDup (map_to_list (held t)).*2).
  { apply NoDup_fmap_2_strong; [|apply NoDup_map_to_list].
    intros [k1 l1] [k2 l2] H1%elem_of_map_to_list H2%elem_of_map_to_list. simpl.
    intros ->. f_equal. by eapply Huniq. }
  rewrite <-length_map_to_list, <-(length_fmap snd).
  rewrite <-(size_list_to_set (C := gset string)) by done.
  apply subseteq_size. intros l (kl & -> & Hin)%elem_of_list_to_set%list_elem_of_fmap.
  apply Hidx. destruct kl as [k l]. exists k. by apply elem_of_map_to_list.
Qed.

(** in a reachable tree the lease index is exactly the set of leases the
    nodes hold, no lease is held by two nodes, and at most the allowed number of
    nodes hold a lease at the same time. *)
Theorem reachable_leases `{Deps : RecursiveDeps} (t : RecursiveTree) :
  reachable t →
  (∀ l, l ∈ active_leases t ↔ ∃ k n, nodes t !! k = Some n ∧ n_lease_id n = Some l)
  ∧ (∀ k1 k2 n1 n2 l, nodes t !! k1 = Some n1 → nodes t !! k2 = Some n2 →
       n_lease_id n1 = Some l → n_lease_id n2 = Some l → k1 = k2)
  ∧ Z.of_nat (size (filter (λ kv : string * RecursiveNode, n_lease_id kv.2 ≠ None) (nodes t)))
      <= MAX_RECURSIVE_LEASES.
Proof.
  intros [_ _ Hle Hb]%reachable_inv. pose proof (held_size _ Hle) as Hsz.
  assert (Hh : ∀ k l, held t !! k = Some l ↔ ∃ n, nodes t !! k = Some n ∧ n_lease_id n = Some l).
  { intros k l. rewrite lookup_held. apply bind_Some. }
  destruct Hle as [Hidx Huniq]. split_and!.
  - intros l. rewrite Hidx. by setoid_rewrite Hh.
  - intros k1 k2 n1 n2 l ????. apply (Huniq k1 k2 l); apply Hh; eauto.
  - assert (dom (filter (λ kv : string * RecursiveNode, n_lease_id kv.2 ≠ None) (nodes t))
      = (dom (held t) : gset string)) as E.
    { apply set_eq. intros k. rewrite !elem_of_dom. split.
      - intros [n [Hn Hl]%map_lookup_filter_Some]. simpl in Hl.
        destruct (n_lease_id n) as [l|] eqn:E; [|done]. exists l. apply Hh. eauto.
      - intros [l (n & Hn & Hl)%Hh]. exists n. apply map_lookup_filter_Some.
        split; [done|]. simpl. congruence. }
    apply (f_equal size) in E. rewrite !size_dom in E. lia.
Qed.

Lemma reachable_leases_witness :
  "lease-1" ∈ active_leases Demo.completed ↔
    ∃ k n, nodes Demo.completed !! k = Some n ∧ n_lease_id n = Some "lease-1".
Proof. exact (proj1 (reachable_leases Demo.completed demo_reachable) "lease-1"). Defined.

(** ** Terminal states *)

Lemma tree_step_terminal `{Deps : RecursiveDeps} t t' :
  tree_step t t' → is_terminal (execution_state t) = true →
  is_terminal (execution_state t') = true.
Proof.
  intros [F|[(env & p & r & _ & _ & H)|(env & id & l & r & _ & H)]]%tree_step_frame Ht.
  - by apply (fr_terminal _ _ F).
  - apply admit_child_inv in H as [(e & _ & ->)|(parent & pe & b & H)]; [done|].
    by destruct H as (_&_&_&_&_& ->).
  - apply lease_node_inv in H as [(e & _ & ->)|(n & H)]; [done|].
    by destruct H as (_&_&_&_&_&_&_&_& ->).
Qed.

(** terminal states are absorbing: once a tree is completed, budget
    exhausted, kill stopped or failed, no sequence of operations makes it run
    or pause again, and it admits and leases nothing more. *)
Theorem terminal_absorbing `{Deps : RecursiveDeps} (t t' : RecursiveTree) :
  rtc tree_step t t' → is_terminal (execution_state t) = true →
  is_terminal (execution_state t') = true
  ∧ (∀ env p, ∃ e, admit_child env p t' = Some (Err e, t'))
  ∧ (∀ env id l, ∃ e, lease_node env id l t' = (Err e, t')).
Proof.
  intros Hs Ht. assert (Hend : is_terminal (execution_state t') = true).
  { induction Hs; eauto using tree_step_terminal. }
  split; [done|split].
  - intros env p. destruct (admit_child env p t') as [[r t'']|] eqn:H.
    + apply admit_child_inv in H as [(e & -> & ->)|(parent & pe & b & H)]; [eauto|].
      destruct H as (_&Hc&_). apply admit_checks_inv in Hc as (_&_&Hrun&_).
      by rewrite Hrun in Hend.
    + unfold admit_child in H.
      destruct (admit_checks env p t') as [[parent fp]|] eqn:Hc; [|done].
      apply admit_checks_inv in Hc as (_&_&Hrun&_). by rewrite Hrun in Hend.
  - intros env id l. destruct (lease_node env id l t') as [r t''] eqn:H.
    apply lease_node_inv in H as [(e & -> & ->)|(n & H)]; [eauto|].
    destruct H as (_&_&_&_&Hrun&_). by rewrite Hrun in Hend.
Qed.

Lemma terminal_absorbing_witness :
  is_terminal (execution_state (resume
    (Demo.tree <| execution_state := ExecutionState.KillStopped |>))) = true.
Proof.
  apply (terminal_absorbing (Demo.tree <| execution_state := ExecutionState.KillStopped |>)).
  - apply rtc_once, step_resume.
  - reflexivity.
Defined.

(** ** Usage accounting *)

(** C17: refinement: every operation of the tree implements one transition of
    the abstract ledger, which either changes nothing or enters one usage under
    a receipt id that has none yet; the tree's spent budget stays the total of
    the ledger and every recorded receipt carries the ledger's usage. *)
Theorem tree_refines_ledger `{Deps : RecursiveDeps} (t t' : RecursiveTree)
    (l : gmap string RecursiveBudget) :
  tree_step t t' → ledger_ok l t → ∃ l', ledger_next l l' ∧ ledger_ok l' t'.
Proof. intros Hs. by apply tree_step_ledger. Qed.

Lemma tree_refines_ledger_witness :
  ∃ l', ledger_next ∅ l' ∧ ledger_ok l' (record_usage "rcpt-1" Demo.usage Demo.tree).2.
Proof.
  apply (tree_refines_ledger Demo.tree).
  - eapply (step_record_usage "rcpt-1" Demo.usage);
      [unfold budget_ok, is_u64, u64_max; simpl; lia|apply surjective_pairing].
  - apply new_tree_ledger.
Defined.

Lemma recorded_later `{Deps : RecursiveDeps} t1 t2 rid u fp v b t r :
  reachable t → budget_ok u → usage_to_string u = Some fp →
  record_usage_internal rid u b t = (r, t1) → r = Ok v → rtc tree_step t1 t2 →
  ∃ v', usage_receipts t2 !! rid = Some (usage_receipt_value v' fp).
Proof.
  intros [l Hl]%reachable_ledger Hu Hs Hrec -> Hsteps.
  assert (∃ l1 u1, ledger_ok l1 t1 ∧ l1 !! rid = Some u1 ∧ usage_to_string u1 = Some fp)
    as (l1 & u1 & Hl1 & Hin & Hs1).
  { pose proof Hrec as Hrec'.
    apply record_usage_inv in Hrec as [[-> [?|[v0 Hv]]]|(fp' & v' & Hs' & Hn & _ & Er & Es)];
      [congruence| |].
    - destruct (lg_recorded _ _ Hl rid) as [u0 H0]; [eauto|].
      destruct (lg_value _ _ Hl _ _ H0) as (_ & b0 & fp0 & Hs0 & Hr0).
      exists l, u0. split_and!; [done..|].
      unfold record_usage_internal in Hrec'. rewrite Hs in Hrec'.
      rewrite (recorded_usage_value _ _ _ _ _ Hr0) in Hrec'.
      case_bool_decide; [congruence|by injection Hrec'].
    - exists (<[rid := u]> l), u. rewrite lookup_insert_eq. split_and!; [|done|done].
      by eapply ledger_ok_charge. }
  destruct (tree_steps_ledger _ _ _ Hsteps Hl1) as (l2 & _ & Hsub & Hl2).
  eapply lookup_weaken in Hsub; [|exact Hin].
  destruct (lg_value _ _ Hl2 _ _ Hsub) as (_ & v' & fp' & ? & ?). exists v'. congruence.
Qed.

(** usage is charged exactly once: after a receipt was recorded on a
    reachable tree, and whatever operations ran since, recording it again with
    the same usage succeeds and changes nothing at all, and recording it with a
    usage that serialises differently is a receipt conflict that changes
    nothing. *)
Theorem usage_charged_once `{Deps : RecursiveDeps} (t t1 t2 : RecursiveTree)
    (rid fp : string) (u : RecursiveBudget) (v b : bool) :
  reachable t → budget_ok u → usage_to_string u = Some fp →
  record_usage_internal rid u b t = (Ok v, t1) → rtc tree_step t1 t2 →
  (∀ b', ∃ v', record_usage_internal rid u b' t2 = (Ok v', t2))
  ∧ (∀ u' fp' b', usage_to_string u' = Some fp' → fp' ≠ fp →
       record_usage_internal rid u' b' t2 = (Err FailureReason.ReceiptConflict, t2)).
Proof.
  intros Hr Hu Hs Hrec Hsteps.
  destruct (recorded_later t1 t2 rid u fp v b t _ Hr Hu Hs Hrec eq_refl Hsteps) as [v' Hv].
  split.
  - intros b'. exists v'. unfold record_usage_internal.
    by rewrite Hs, (recorded_usage_value _ _ _ _ _ Hv), bool_decide_true.
  - intros u' fp' b' Hs' Hne. unfold record_usage_internal.
    by rewrite Hs', (recorded_usage_value _ _ _ _ _ Hv), bool_decide_false.
Qed.

Lemma usage_charged_once_witness :
  ∃ v', record_usage "rcpt-2" Demo.usage
    (pause (record_usage "rcpt-2" Demo.usage Demo.completed).2)
  = (Ok v', pause (record_usage "rcpt-2" Demo.usage Demo.completed).2).
Proof.
  refine (proj1 (usage_charged_once Demo.completed
    (record_usage "rcpt-2" Demo.usage Demo.completed).2 _ "rcpt-2"
    (default "" (usage_to_string Demo.usage)) Demo.usage true true
    demo_reachable _ _ _ _) true).
  - unfold budget_ok, is_u64, u64_max; simpl; lia.
  - vm_compute; reflexivity.
  - vm_compute; reflexivity.
  - apply rtc_once, step_pause.
Defined.

(** ** Admission *)

Lemma tree_steps_accepted `{Deps : RecursiveDeps} t t' :
  rtc tree_step t t' → accepted_proposals t ⊆ accepted_proposals t'.
Proof.
  induction 1 as [|t1 t2 t3 Hs _ IH]; [done|]. etransitivity; [|exact IH].
  apply tree_step_frame in Hs as
    [F|[(env & p & r & _ & _ & H)|(env & id & l & r & _ & H)]].
  - by rewrite (fr_accepted _ _ F).
  - apply admit_child_inv in H as [(e & _ & ->)|(parent & pe & b & H)]; [done|].
    destruct H as (_&_&_&_&_& ->). cbn. set_solver.
  - apply lease_node_inv in H as [(e & _ & ->)|(n & H)]; [done|].
    by destruct H as (_&_&_&_&_&_&_&_& ->).
Qed.

(** a proposal is admitted at most once: after a proposal was accepted,
    and whatever operations ran since, no proposal with the same id is accepted
    again and the attempt leaves the tree unchanged. *)
Theorem proposal_admitted_once `{Deps : RecursiveDeps} (env env' : env_vars)
    (p p' : RecursiveProposal) (t t1 t2 : RecursiveTree) (a : RecursiveAdmission) :
  admit_child env p t = Some (Ok a, t1) → rtc tree_step t1 t2 →
  p_proposal_id p' = p_proposal_id p →
  ∃ e, admit_child env' p' t2 = Some (Err e, t2).
Proof.
  intros H Hs Hid.
  apply admit_child_inv in H as [(e & ? & _)|(parent & pe & b & H)]; [done|].
  destruct H as (_&_&_&_&_&Et).
  assert (Hin : p_proposal_id p' ∈ accepted_proposals t2).
  { apply (tree_steps_accepted _ _ Hs). rewrite Et, Hid. cbn. set_solver. }
  unfold admit_child. destruct (admit_checks env' p' t2) as [[parent' fp]|e] eqn:Hc; [|eauto].
  apply admit_checks_inv in Hc. by destruct Hc as (_&_&_&_&?&_).
Qed.

Lemma proposal_admitted_once_witness :
  ∃ e, admit_child Demo.env Demo.proposal Demo.completed = Some (Err e, Demo.completed).
Proof.
  destruct (admit_child Demo.env Demo.proposal Demo.tree) as [[[a|e] t1]|] eqn:H;
    [|vm_compute in H; discriminate..].
  apply (proposal_admitted_once Demo.env Demo.env Demo.proposal Demo.proposal Demo.tree
    t1 Demo.completed a H); [|reflexivity].
  replace t1 with Demo.admitted by (unfold Demo.admitted; by rewrite H).
  exact demo_steps.
Defined.

(** admission never panics on a reachable tree and reserves before it
    grants: it returns an error and leaves the tree unchanged, or it adds a
    ready child below the named parent whose budget is non-zero, at most what
    was proposed, at most what the parent may still delegate and at most what
    the tree has left, and moves exactly that budget from the tree's and the
    parent's allowance to the reserved total. *)
Theorem admission_reserves `{Deps : RecursiveDeps} (env : env_vars)
    (p : RecursiveProposal) (t : RecursiveTree) :
  reachable t →
  (∃ e, admit_child env p t = Some (Err e, t)) ∨
  ∃ parent node t' v, admit_child env p t = Some (Ok (mkAdmission node v), t')
    ∧ nodes t !! p_parent_node_id p = Some parent
    ∧ nodes t' !! n_node_id node = Some node
    ∧ n_parent_node_id node = Some (p_parent_node_id p)
    ∧ n_status node = NodeStatus.Ready
    ∧ is_nonzero (n_budget node) = true
    ∧ budget_le (n_budget node) (p_budget p)
    ∧ budget_le (n_budget node) (n_child_budget parent)
    ∧ budget_le (n_budget node) (root_budget t)
    ∧ root_budget t' = spend (root_budget t) (n_budget node)
    ∧ reserved_budget t' = budget_add (reserved_budget t) (n_budget node)
    ∧ n_reservation node = n_budget node.
Proof.
  intros [Hs _ _ _]%reachable_inv.
  assert (Hpanic : ∃ x, admit_child env p t = Some x).
  { unfold admit_child. destruct (admit_checks env p t) as [[parent fp]|] eqn:Hc; [|eauto].
    destruct (admit_budget p parent t); [|eauto].
    apply admit_checks_inv in Hc as (_&_&_&_&_&_&Hpar&_).
    pose proof (so_key _ _ Hs _ _ (lookup_statics _ _ _ Hpar)) as E. cbn in E.
    rewrite E, Hpar. eauto. }
  destruct Hpanic as [[r t'] H].
  pose proof H as [(e & -> & ->)|(parent & pe & b & Hr)]%admit_child_inv; [eauto|].
  right. cbn zeta in Hr. destruct Hr as (-> & Hc & Hb & _ & En & Et).
  apply admit_checks_inv in Hc as (_&_&_&_&_&_&Hpar&_).
  pose proof (so_key _ _ Hs _ _ (lookup_statics _ _ _ Hpar)) as E. cbn in E.
  apply admit_budget_inv in Hb as (-> & Hnz & _).
  eexists parent, _, t', _. split; [exact H|]. split_and!; try done.
  - rewrite En. apply lookup_insert_eq.
  - cbn. by rewrite E.
  - cbn. etransitivity; [apply bounded_by_le_l|apply bounded_by_le_l].
  - cbn. etransitivity; [apply bounded_by_le_l|apply bounded_by_le_r].
  - cbn. apply bounded_by_le_r.
  - by rewrite Et.
  - by rewrite Et.
Qed.

Lemma admission_reserves_witness :
  (∃ e, admit_child Demo.env Demo.proposal Demo.completed = Some (Err e, Demo.completed)) ∨
  ∃ node t' v, admit_child Demo.env Demo.proposal Demo.completed
    = Some (Ok (mkAdmission node v), t').
Proof.
  destruct (admission_reserves Demo.env Demo.proposal Demo.completed demo_reachable)
    as [H|(parent & node & t' & v & H & _)]; [left; exact H|right; eauto].
Defined.

(** the operator's switches fail closed: with recursion not enabled, or
    with the kill switch on, neither admission nor leasing changes any tree. *)
Theorem switches_fail_closed `{Deps : RecursiveDeps} (env : env_vars) (t : RecursiveTree) :
  recursive_enabled env = false ∨ kill_switch_active env = true →
  (∀ p, ∃ e, admit_child env p t = Some (Err e, t)
     ∧ e ∈ [FailureReason.RecursiveDisabled; FailureReason.RecursiveKillSwitchActive])
  ∧ (∀ id l, ∃ e, lease_node env id l t = (Err e, t)
     ∧ e ∈ [FailureReason.RecursiveDisabled; FailureReason.RecursiveKillSwitchActive]).
Proof.
  intros Hsw. unfold admit_child, admit_checks, lease_node.
  destruct (recursive_enabled env); [destruct (kill_switch_active env)|];
    [|by destruct Hsw|]; cbn; split; intros; eexists; (split; [done|set_solver]).
Qed.

Lemma switches_fail_closed_witness :
  ∃ e, lease_node (λ _, None) Demo.child_id "l" Demo.admitted = (Err e, Demo.admitted)
     ∧ e ∈ [FailureReason.RecursiveDisabled; FailureReason.RecursiveKillSwitchActive].
Proof.
  apply (switches_fail_closed (λ _, None) Demo.admitted). left. reflexivity.
Defined.

(** ** Terminalisation *)

(** finalising a live tree after a node failed terminates and fails exactly
    the live descendants of that node, with reason [terminal_failed] and without
    a lease; every other node keeps its status, lease and reason. *)
Theorem finalize_fails_descendants `{Deps : RecursiveDeps} (t : RecursiveTree)
    (failed : string) :
  reachable t → is_terminal (execution_state t) = false →
  ∃ t', finalize_terminal_tree (Some failed) t = Some t'
    ∧ (∀ k n, nodes t !! k = Some n → is_live (n_status n) = true →
         descends (nodes t) failed k →
         outcome_of t' k = Some (failed_with FailureReason.TerminalFailed))
    ∧ (∀ k, (∀ n, nodes t !! k = Some n → is_live (n_status n) = true →
               ¬ descends (nodes t) failed k) →
         outcome_of t' k = outcome_of t k).
Proof.
  intros [Hs _ _ _]%reachable_inv Hlive.
  assert (Hid : ∀ k n, nodes t !! k = Some n → n_node_id n = k).
  { intros k n Hn%lookup_statics. by apply (so_key _ _ Hs) in Hn. }
  destruct (live_descendants_spec t (shape_graded _ _ Hs) failed (btree_values (nodes t)))
    as (ids & Hids & Hmem).
  { intros n (k & Hk)%elem_of_btree_values. by rewrite (Hid _ _ Hk). }
  unfold finalize_terminal_tree. rewrite Hlive, Hids. eexists. split; [done|].
  split; intros k.
  - intros n Hn Hl Hd. rewrite outcome_of_close_tree, outcome_of_release_all,
      outcome_of_fail_all, bool_decide_true, Hn; [done|].
    apply Hmem. exists n. split_and!; [apply elem_of_btree_values; eauto|by apply Hid|done..].
  - intros Hno. rewrite outcome_of_close_tree, outcome_of_release_all,
      outcome_of_fail_all, bool_decide_false; [done|].
    intros (n & (k' & Hk)%elem_of_btree_values & <- & Hl & Hd)%Hmem.
    pose proof (Hid _ _ Hk) as E. rewrite E in *. by eapply Hno.
Qed.

Lemma finalize_fails_descendants_witness :
  ∃ t', finalize_terminal_tree (Some "root") Demo.completed = Some t'.
Proof.
  destruct (finalize_fails_descendants Demo.completed "root" demo_reachable)
    as (t' & H & _); [reflexivity|exists t'; exact H].
Defined.

Lemma forallb_values (ns : gmap string RecursiveNode) f :
  forallb f (btree_values ns) = true ↔ ∀ k n, ns !! k = Some n → f n = true.
Proof.
  rewrite forallb_forall. setoid_rewrite <-list_elem_of_In.
  setoid_rewrite elem_of_btree_values. naive_solver.
Qed.

Lemma close_tree_fields t :
  nodes (close_tree t) = nodes t ∧ active_leases (close_tree t) = active_leases t.
Proof. unfold close_tree. by case_match. Qed.

Lemma close_tree_state t :
  execution_state (close_tree t) =
    if bool_decide (active_leases t = ∅)
       && forallb (λ n, negb (is_live (n_status n))) (btree_values (nodes t))
    then if forallb (λ n, bool_decide (n_status n = NodeStatus.Completed)) (btree_values (nodes t))
         then ExecutionState.Completed else ExecutionState.TerminalFailed
    else execution_state t.
Proof. unfold close_tree. by case_match. Qed.

(** a live tree is finalised to [Completed] exactly when no lease is
    outstanding and every node completed; with no lease outstanding and every
    node settled but not all completed it becomes [TerminalFailed]; otherwise
    its state does not change. *)
Theorem finalize_verdict (failed : option string) (t t' : RecursiveTree) :
  finalize_terminal_tree failed t = Some t' → is_terminal (execution_state t) = false →
  (execution_state t' = ExecutionState.Completed ↔
     active_leases t' = ∅
     ∧ ∀ k n, nodes t' !! k = Some n → n_status n = NodeStatus.Completed)
  ∧ (execution_state t' = ExecutionState.TerminalFailed ↔
     active_leases t' = ∅
     ∧ (∀ k n, nodes t' !! k = Some n → is_live (n_status n) = false)
     ∧ ∃ k n, nodes t' !! k = Some n ∧ n_status n = NodeStatus.Failed)
  ∧ (is_terminal (execution_state t') = false → execution_state t' = execution_state t).
Proof.
  intros Hf Hlive.
  assert (∃ t0, t' = close_tree t0 ∧ execution_state t0 = execution_state t)
    as (t0 & -> & Hst).
  { revert Hf. unfold finalize_terminal_tree. rewrite Hlive.
    repeat case_match; intros [= <-]; [|by eauto]. eexists. split; [done|].
    unfold release_all. rewrite !foldl_state; auto using fail_node_state, release_state. }
  destruct (close_tree_fields t0) as [-> ->]. rewrite close_tree_state, Hst. clear Hf.
  pose proof (forallb_values (nodes t0) (λ n, negb (is_live (n_status n)))) as Hs.
  pose proof (forallb_values (nodes t0) (λ n, bool_decide (n_status n = NodeStatus.Completed))) as Hc.
  setoid_rewrite negb_true_iff in Hs. setoid_rewrite bool_decide_eq_true in Hc.
  assert (Hcs : (∀ k n, nodes t0 !! k = Some n → n_status n = NodeStatus.Completed) →
    ∀ k n, nodes t0 !! k = Some n → is_live (n_status n) = false)
    by (intros H k n Hk; by rewrite (H k n Hk)).
  case_bool_decide as He; cbn [andb];
    [destruct (forallb _ _) eqn:E1; [destruct (forallb (λ n, bool_decide _) _) eqn:E2|]|].
  - split_and!; try done; [naive_solver|]. split; [done|].
    intros (_ & _ & k & n & Hk & Hn). rewrite (proj1 Hc eq_refl k n Hk) in Hn. done.
  - split_and!; try done.
    + split; [done|]. intros [_ H%Hc]. done.
    + split; [|done]. intros _. split_and!; [done|by apply Hs|].
      apply not_true_iff_false in E2. rewrite forallb_values in E2.
      destruct (decide (map_Exists (λ _ n, n_status n = NodeStatus.Failed) (nodes t0)))
        as [(k & n & ? & ?)|Hno]; [eauto|]. destruct E2. intros k n Hk.
      apply bool_decide_eq_true. pose proof (proj1 Hs eq_refl k n Hk) as Hl.
      destruct (n_status n) eqn:En; try done. destruct Hno. by exists k, n.
  - assert (Hns : ¬ ∀ k n, nodes t0 !! k = Some n → is_live (n_status n) = false)
      by (intros H%Hs; done).
    split_and!; [..|done]; (split; [intros E; by rewrite E in Hlive|naive_solver]).
  - split_and!; [..|done]; (split; [intros E; by rewrite E in Hlive|naive_solver]).
Qed.

Lemma finalize_verdict_witness :
  execution_state Demo.completed = ExecutionState.Running ∧
  (execution_state (close_tree Demo.completed) = ExecutionState.Completed ↔
   active_leases (close_tree Demo.completed) = ∅
   ∧ ∀ k n, nodes (close_tree Demo.completed) !! k = Some n →
       n_status n = NodeStatus.Completed).
Proof.
  split; [reflexivity|].
  apply (finalize_verdict None Demo.completed (close_tree Demo.completed)); reflexivity.
Defined.

(** terminalising the remaining nodes of a reachable tree leaves no live
    node but the root and the excepted one, fails each terminalised node with
    the given reason and without a lease, and touches the status, lease and
    reason of no other node. *)
Theorem terminalize_exact `{Deps : RecursiveDeps} (t : RecursiveTree)
    (except : option string) (reason : FailureReason.RecursiveFailureReason) :
  reachable t →
  let t' := (terminalize_remaining_nodes except reason t).2 in
  (∀ k n, nodes t' !! k = Some n → n_parent_node_id n ≠ None → Some k ≠ except →
     is_live (n_status n) = false)
  ∧ ∀ k n, nodes t !! k = Some n →
      outcome_of t' k =
        Some (if is_some (n_parent_node_id n) && negb (bool_decide (Some k = except))
                 && is_live (n_status n)
              then failed_with reason else outcome n).
Proof.
  intros Hr t'. assert (Hs := inv_shape _ (reachable_inv _ Hr)).
  assert (Hout : ∀ k n, nodes t !! k = Some n → outcome_of t' k =
    Some (if is_some (n_parent_node_id n) && negb (bool_decide (Some k = except))
             && is_live (n_status n) then failed_with reason else outcome n)).
  { intros k n Hn. unfold t'. rewrite outcome_of_terminalize.
    destruct (decide (k ∈ terminalized_ids except t)) as [Hin|Hin].
    - rewrite (bool_decide_true (k ∈ _)) by done. rewrite Hn.
      apply (elem_of_terminalized_ids _ _ _ _ Hs) in Hin as (n' & ? & Hp & He & Hl).
      simplify_eq. rewrite Hl, bool_decide_false by done. by destruct (n_parent_node_id n).
    - rewrite (bool_decide_false (k ∈ _)) by done. unfold outcome_of. rewrite Hn. simpl.
      f_equal. case_match eqn:E; [|done]. destruct Hin.
      apply (elem_of_terminalized_ids _ _ _ _ Hs). exists n.
      apply andb_true_iff in E as [[E1 E2%negb_true_iff%bool_decide_eq_false]%andb_true_iff E3].
      split_and!; try done. by destruct (n_parent_node_id n). }
  split; [|done]. intros k n' Hn' Hp He.
  pose proof (fr_statics _ _ (frame_terminalize except reason t)) as Hst.
  assert (∃ n, nodes t !! k = Some n ∧ node_static n = node_static n') as (n & Hn & En).
  { apply lookup_statics in Hn' as Hn''. fold t' in Hst. rewrite Hst in Hn''.
    apply lookup_fmap_Some in Hn'' as (n & ? & ?). eauto. }
  specialize (Hout k n Hn). unfold outcome_of in Hout. rewrite Hn' in Hout.
  injection Hout as Hout. apply (f_equal st_parent) in En. cbn in En.
  rewrite bool_decide_false in Hout by done. rewrite En in Hout.
  destruct (n_parent_node_id n'); [|done]. cbn in Hout.
  destruct (is_live (n_status n)) eqn:El; [by injection Hout as ->|by injection Hout as -> _ _].
Qed.

Lemma terminalize_exact_witness :
  outcome_of (terminalize_remaining_nodes None FailureReason.TerminalFailed Demo.completed).2
    "root" = outcome_of Demo.completed "root".
Proof.
  etransitivity; [eapply (proj2 (terminalize_exact Demo.completed None
    FailureReason.TerminalFailed demo_reachable) "root"); vm_compute; reflexivity|].
  vm_compute. reflexivity.
Defined.

(** ** Failure codes *)

(** an error string is classified under a failure code exactly when it is
    that code or the code followed by a colon and a detail, so every persisted
    code is read back and no error is classified under two codes. *)
Theorem code_for_error_exact (e : string) (r : FailureReason.RecursiveFailureReason) :
  FailureReason.code_for_error e = Some (FailureReason.reason_as_str r) ↔
  e = FailureReason.reason_as_str r
  ∨ ∃ d, e = FailureReason.reason_as_str r +:+ ":" +:+ d.
Proof.
  split.
  - unfold FailureReason.code_for_error. intros [_ Hf]%List.find_some.
    apply orb_true_iff in Hf as [Hf%bool_decide_eq_true|Hf]; [by left|right].
    unfold starts_with in Hf. destruct (strip_prefix _ _) as [d|] eqn:E; [|done].
    apply strip_prefix_Some in E. exists d. rewrite E. by rewrite string_app_assoc.
  - intros [->|[d ->]]; destruct r; reflexivity.
Qed.
