(* ===== verification/TreeMoves.v ===== *)
(** * What a tree keeps and how its version moves

    Every operation between a load and a store keeps the identity of the tree
    and the lineage of its nodes, and counts its version up. *)

From S2P Require Import Prelude Text RecursiveExecution.

Local Open Scope Z_scope.

(** ** The fixed part *)

(** A node and a tree with everything erased that leases, usage and failures
    change. *)
Definition fixed (n : RecursiveNode) : RecursiveNode :=
  mkNode (n_node_id n) (n_root_run_id n) (n_parent_node_id n) (n_proposal_id n)
    (n_depth n) (n_objective_fingerprint n) (n_ancestor_fingerprints n)
    (n_scope n) (n_capabilities n) (n_tenant_id n) (n_workspace_id n)
    budget_default (n_budget_limit n) budget_default (n_child_budget_limit n)
    budget_default budget_default NodeStatus.Ready (n_accepted_children n)
    0 0 None None (n_evidence_refs n).

Definition fixed_tree (t : RecursiveTree) : RecursiveTree :=
  mkTree (schema_version t) (root_run_id t) (workflow_id t) (root_node_id t)
    (root_agent_id t) (root_recursive_marker t) (root_creation_receipt_sha256 t)
    (root_scope t) (root_capabilities t) (root_tenant_id t) (root_workspace_id t)
    budget_default (root_budget_limit t) (root_child_budget_limit t)
    budget_default budget_default ExecutionState.Running 0
    (fixed <$> nodes t) (accepted_proposals t) (receipts t) ∅ ∅ ∅.

(** Same fixed part, and a version that is [lo] to [hi] increments later. *)
Record moves (lo hi : Z) (t t' : RecursiveTree) : Prop := {
  mv_fixed : fixed_tree t' = fixed_tree t;
  mv_version : ∃ d, lo <= d <= hi ∧ u64_wrap (t_version t') = u64_wrap (t_version t + d);
}.

Lemma moves_refl t : moves 0 0 t t.
Proof. split; [done|]. exists 0. by rewrite Z.add_0_r. Qed.

Lemma u64_wrap_add x y d : u64_wrap x = u64_wrap y → u64_wrap (x + d) = u64_wrap (y + d).
Proof. unfold u64_wrap. intros E. by rewrite Z.add_mod, E, <-Z.add_mod by lia. Qed.

Lemma moves_trans a b c d t1 t2 t3 :
  moves a b t1 t2 → moves c d t2 t3 → moves (a + c) (b + d) t1 t3.
Proof.
  intros [E1 (d1 & ? & V1)] [E2 (d2 & ? & V2)]. split; [congruence|]. exists (d1 + d2).
  split; [lia|]. rewrite V2, Z.add_assoc. by apply u64_wrap_add.
Qed.

Lemma moves_weaken lo hi lo' hi' t t' :
  moves lo hi t t' → lo' <= lo → hi <= hi' → moves lo' hi' t t'.
Proof. intros [? (d & ? & ?)] ??. split; [done|]. exists d. split; [lia|done]. Qed.

(** One more update: of the version, of a node, of neither. *)
Lemma moves_incr lo hi t t1 t2 :
  moves lo hi t t1 → fixed_tree t2 = fixed_tree t1 → t_version t2 = u64_incr (t_version t1) →
  moves (lo + 1) (hi + 1) t t2.
Proof.
  intros [E (d & ? & V)] E2 V2. split; [congruence|]. exists (d + 1). split; [lia|].
  rewrite V2, Z.add_assoc, <-(u64_wrap_add _ _ 1 V). unfold u64_incr, u64_add, u64_wrap.
  by rewrite Z.mod_mod.
Qed.

Lemma fixed_update t id n n' :
  nodes t !! id = Some n → fixed n' = fixed n →
  fixed_tree (t <| nodes := <[id := n']> (nodes t) |>) = fixed_tree t.
Proof.
  intros Hn En.
  assert (Ens : fixed <$> <[id := n']> (nodes t) = fixed <$> nodes t).
  { rewrite fmap_insert, En. apply insert_id. by rewrite lookup_fmap, Hn. }
  unfold fixed_tree. cbn. by rewrite Ens.
Qed.

Lemma moves_same lo hi t t1 t2 :
  moves lo hi t t1 → fixed_tree t2 = fixed_tree t1 → t_version t2 = t_version t1 →
  moves lo hi t t2.
Proof. intros [E V] E2 V2. split; [congruence|]. by rewrite V2. Qed.

Lemma moves_size lo hi t t' : moves lo hi t t' → size (nodes t') = size (nodes t).
Proof.
  intros [E _]. apply (f_equal (size ∘ nodes)) in E.
  change (size (fixed <$> nodes t') = size (fixed <$> nodes t)) in E.
  by rewrite !map_size_fmap in E.
Qed.

Lemma fixed_lookup t t' k n' :
  fixed_tree t' = fixed_tree t → nodes t' !! k = Some n' →
  ∃ n, nodes t !! k = Some n ∧ fixed n' = fixed n.
Proof.
  intros E Hn'. apply (f_equal nodes) in E. cbn [nodes fixed_tree] in E.
  assert (Hl : (fixed <$> nodes t) !! k = Some (fixed n')) by by rewrite <-E, lookup_fmap, Hn'.
  apply lookup_fmap_Some in Hl as (n & En & Hn). eauto.
Qed.

Lemma moves_foldl {B} (f : RecursiveTree → B → RecursiveTree) k (l : list B) t :
  0 <= k → (∀ t x, moves 0 k t (f t x)) → moves 0 (k * Z.of_nat (length l)) t (foldl f t l).
Proof.
  intros Hk Hf. revert t. induction l as [|x l IH]; intros t; cbn [foldl length].
  - eapply moves_weaken; [apply moves_refl|lia..].
  - eapply moves_weaken; [eapply moves_trans; [apply Hf|apply IH]|lia..].
Qed.

Lemma u64_wrap_ne x d : 1 <= d < 2 ^ 64 → u64_wrap (x + d) ≠ u64_wrap x.
Proof.
  unfold u64_wrap. intros Hd E. assert (H : (x + d - x) mod 2 ^ 64 = 0).
  { rewrite Zminus_mod, E, Z.sub_diag. done. }
  rewrite Z.add_simpl_l, Z.mod_small in H; lia.
Qed.

(** ** Operations *)

Abbreviation node_total t := (Z.of_nat (size (nodes t))).

Section moves.
Context `{Deps : RecursiveDeps}.

Lemma lease_node_moves env id l t t' :
  lease_node env id l t = (Ok tt, t') → moves 1 1 t t'.
Proof.
  unfold lease_node. intros H. repeat (case_match; simplify_eq; try done).
  eapply (moves_incr 0 0 t t); [apply moves_refl| |done].
  by eapply fixed_update.
Qed.

Lemma record_usage_moves rid u b t r t' :
  record_usage_internal rid u b t = (r, t') → moves 0 1 t t'.
Proof.
  assert (H0 : moves 0 1 t t) by (eapply moves_weaken; [apply moves_refl|lia..]).
  unfold record_usage_internal. destruct (usage_to_string u); [|by intros [= _ <-]].
  destruct (recorded_usage _ _ _); [by intros [= _ <-]|].
  set (w := match root_budget_limit t with Some _ => _ | None => _ end). clearbody w.
  intros [= _ <-]. destruct b, w; cbn [negb andb]; try by (eapply moves_same; [exact H0|..]).
  all: cbn [execution_state upd]; case_match; [|by eapply moves_same; [exact H0|..]].
  all: eapply moves_weaken; [eapply moves_incr; [apply moves_refl|done|done]|lia..].
Qed.

Lemma release_moves id t :
  moves 0 1 t (release_node_reservation_for_persistence id t).
Proof.
  unfold release_node_reservation_for_persistence.
  destruct (nodes t !! id) as [n|] eqn:Hn;
    [|eapply moves_weaken; [apply moves_refl|lia..]].
  set (t1 := t <| nodes := _ |>).
  assert (E1 : fixed_tree t1 = fixed_tree t) by by eapply fixed_update.
  set (t2 := t1 <| reserved_budget := _ |> <| root_budget := _ |>).
  assert (H2 : moves 0 0 t t2) by by eapply moves_same; [apply moves_refl|exact E1|].
  clearbody t2. eapply (moves_weaken 1 1); [|lia..].
  destruct (n_parent_node_id n) as [p|]; [|by eapply (moves_incr 0 0); [exact H2|..]].
  destruct (nodes t2 !! p) as [pn|] eqn:Hp; [|by eapply (moves_incr 0 0); [exact H2|..]].
  eapply (moves_incr 0 0); [exact H2| |done]. by eapply fixed_update.
Qed.

Lemma fail_node_moves reason t id : moves 0 0 t (fail_node reason t id).
Proof.
  unfold fail_node. destruct (nodes t !! id) as [n|] eqn:Hn; [|apply moves_refl].
  destruct (n_lease_id n); (eapply moves_same; [apply moves_refl| |done]);
    by eapply (fixed_update t).
Qed.

Lemma fail_all_moves reason t ids : moves 0 0 t (foldl (fail_node reason) t ids).
Proof. apply (moves_foldl _ 0); [lia|]. intros. apply fail_node_moves. Qed.

Lemma release_all_moves t ids : moves 0 (Z.of_nat (length ids)) t (release_all t ids).
Proof.
  eapply moves_weaken; [apply (moves_foldl _ 1)|lia..]; [lia|].
  intros. apply release_moves.
Qed.

Lemma btree_values_length {A} (m : gmap string A) : length (btree_values m) = size m.
Proof. unfold btree_values, btree_iter. by rewrite length_fmap, length_sort_by, length_map_to_list. Qed.

Lemma terminalized_ids_length except t :
  (length (terminalized_ids except t) ≤ size (nodes t))%nat.
Proof.
  unfold terminalized_ids. rewrite length_fmap, <-btree_values_length.
  apply length_filter.
Qed.

Lemma terminalize_moves except reason t :
  moves 0 (node_total t + 1) t (terminalize_remaining_nodes except reason t).2.
Proof.
  unfold terminalize_remaining_nodes. cbn [snd].
  pose proof (terminalized_ids_length except t) as Hl.
  pose proof (moves_trans _ _ _ _ _ _ _ (fail_all_moves reason t (terminalized_ids except t))
    (release_all_moves _ (terminalized_ids except t))) as H.
  destruct (terminalized_ids except t) as [|i ids].
  - by eapply moves_weaken; [exact H|..]; cbn in *; lia.
  - eapply moves_weaken; [eapply moves_incr; [exact H|done|done]|..]; lia.
Qed.

Lemma close_tree_moves t : moves 0 1 t (close_tree t).
Proof.
  unfold close_tree. case_match; [|eapply moves_weaken; [apply moves_refl|lia..]].
  eapply moves_weaken; [eapply (moves_incr 0 0); [apply moves_refl|done|done]|lia..].
Qed.

Lemma live_descendants_length ns id candidates ids :
  live_descendants ns id candidates = Some ids → (length ids ≤ length candidates)%nat.
Proof.
  revert ids. induction candidates as [|c cs IH]; intros ids; cbn [live_descendants].
  - by intros [= <-].
  - case_match; [|done]. case_match; [|done]. intros [= <-].
    specialize (IH _ eq_refl). case_match; cbn; lia.
Qed.

Lemma finalize_moves failed t t' :
  finalize_terminal_tree failed t = Some t' → moves 0 (node_total t + 1) t t'.
Proof.
  unfold finalize_terminal_tree. case_match.
  { intros [= <-]. eapply moves_weaken; [apply moves_refl|lia..]. }
  destruct failed as [id|].
  - destruct (live_descendants _ _ _) as [ids|] eqn:Hd; [|done]. intros [= <-].
    apply live_descendants_length in Hd. rewrite btree_values_length in Hd.
    eapply moves_weaken; [eapply moves_trans; [apply fail_all_moves|];
      eapply moves_trans; [apply release_all_moves|apply close_tree_moves]|..]; lia.
  - intros [= <-]. eapply moves_weaken; [apply close_tree_moves|lia..].
Qed.

(** With no failed node the tree is closed or left alone. *)
Lemma finalize_moves_or t t' :
  finalize_terminal_tree None t = Some t' → t' = t ∨ moves 1 1 t t'.
Proof.
  unfold finalize_terminal_tree. case_match; [intros [= <-]; by left|]. intros [= <-].
  unfold close_tree. case_match; [right|by left].
  eapply (moves_incr 0 0); [apply moves_refl|done|done].
Qed.

Lemma settle_node_moves t t' id n : moves 0 1 t t' → nodes t' !! id = Some n →
  ∀ n' ls, fixed n' = fixed n →
  moves 0 1 t (t' <| nodes := <[id := n']> (nodes t') |> <| active_leases := ls |>).
Proof.
  intros H Hn n' ls E. eapply moves_same; [exact H| |done]. by eapply (fixed_update t').
Qed.

(** Closing the other nodes in a terminal state. *)
Lemma terminalize_state_moves lo hi t t' s except reason :
  moves lo hi t t' →
  moves lo (hi + node_total t + 1) t
    (terminalize_remaining_nodes except reason (t' <| execution_state := s |>)).2.
Proof.
  intros H. assert (Hs : moves lo hi t (t' <| execution_state := s |>))
    by by eapply moves_same; [exact H|..].
  eapply moves_weaken; [eapply moves_trans; [exact Hs|apply terminalize_moves]|lia|].
  rewrite (moves_size _ _ _ _ Hs). lia.
Qed.

Lemma complete_node_moves id l rid ok u t r t' :
  complete_node_with_usage_receipt id l rid ok u t = (Ok r, t') →
  moves 1 (node_total t + 3) t t'.
Proof.
  unfold complete_node_with_usage_receipt.
  destruct (nodes t !! id) as [n0|]; [|done]. case_match; [done|].
  destruct (record_usage rid u t) as [[w|e] t1] eqn:Hrec; [|done].
  apply record_usage_moves in Hrec. destruct (nodes t1 !! id) as [n|] eqn:Hn; [|done].
  set (n1 := if is_some _ then n else _).
  assert (E1 : fixed n1 = fixed n) by (subst n1; by case_match). clearbody n1.
  set (n2 := n1 <| n_status := _ |> <| n_failure_reason := _ |> <| n_lease_id := _ |>
                <| n_version := _ |>).
  assert (E2 : fixed n2 = fixed n) by exact E1. clearbody n2.
  pose proof (settle_node_moves _ _ _ _ Hrec Hn n2 (active_leases t1 ∖ {[l]}) E2) as Hs.
  intros [= _ <-]. case_match.
  - eapply moves_weaken; [eapply moves_incr; [apply terminalize_state_moves, Hs|done|done]|lia..].
  - eapply moves_weaken; [eapply moves_incr; [exact Hs|done|done]|lia..].
Qed.

Lemma complete_root_moves l rid ok u t r t' :
  complete_root_with_usage_receipt l rid ok u t = Some (Ok r, t') →
  t' = t ∨ moves 1 (2 * node_total t + 5) t t'.
Proof.
  unfold complete_root_with_usage_receipt.
  destruct (nodes t !! root_node_id t) as [n0|]; [|done].
  case_match; [done|]. case_match; [intros [= _ <-]; by left|].
  case_match; [done|]. intros Hok; right; revert Hok.
  destruct (record_unreserved_usage rid u t) as [[w|e] t1] eqn:Hrec; [|done].
  apply record_usage_moves in Hrec.
  set (t2 := if is_some _ then t1 else _).
  assert (H2 : moves 0 1 t t2) by (subst t2; case_match; [done|by eapply moves_same; [exact Hrec|..]]).
  clearbody t2. destruct (nodes t2 !! root_node_id t) as [n|] eqn:Hn; [|done].
  set (n1 := if is_some _ then n else _).
  assert (E1 : fixed n1 = fixed n) by (subst n1; by case_match). clearbody n1.
  set (n2 := n1 <| n_status := _ |> <| n_failure_reason := _ |> <| n_lease_id := _ |>
                <| n_version := _ |>).
  assert (E2 : fixed n2 = fixed n) by exact E1. clearbody n2.
  pose proof (settle_node_moves _ _ _ _ H2 Hn n2 (active_leases t2 ∖ {[l]}) E2) as Hs.
  set (t3 := if negb _ then _ else _).
  assert (H3 : moves 0 (node_total t + 2) t t3).
  { subst t3. repeat case_match;
      first [eapply moves_weaken; [apply terminalize_state_moves, Hs|lia..]
            |eapply moves_weaken; [exact Hs|lia..]]. }
  clearbody t3.
  assert (H4 : moves 1 (node_total t + 3) t (t3 <| t_version := u64_incr (t_version t3) |>))
    by (eapply moves_weaken; [eapply moves_incr; [exact H3|done|done]|lia..]).
  case_match; [|intros [= _ <-]; eapply moves_weaken; [exact H4|lia..]].
  destruct (finalize_terminal_tree _ _) as [t4|] eqn:Hf; [|done]. intros [= _ <-].
  apply finalize_moves in Hf. rewrite (moves_size _ _ _ _ H4) in Hf.
  eapply moves_weaken; [eapply moves_trans; [exact H4|exact Hf]|lia..].
Qed.

(** The tail shared by the two late usages. *)
Lemma late_tail_moves t t1 id rid fp (b : bool) :
  moves 0 1 t t1 →
  moves 0 (node_total t + 2) t (if b then t1 else
    let t2 := t1 <| usage_receipts := <[rid := usage_receipt_value false fp]> (usage_receipts t1) |> in
    if is_settled (execution_state t2) then t2
    else (terminalize_remaining_nodes (Some id) FailureReason.TreeBudgetExhausted
            (t2 <| execution_state := ExecutionState.BudgetExhausted |>)).2).
Proof.
  intros H. destruct b; [eapply moves_weaken; [exact H|lia..]|]. cbn zeta.
  set (t2 := t1 <| usage_receipts := _ |>).
  assert (H2 : moves 0 1 t t2) by by eapply moves_same; [exact H|..]. clearbody t2.
  case_match; [eapply moves_weaken; [exact H2|lia..]|].
  eapply moves_weaken; [apply terminalize_state_moves, H2|lia..].
Qed.

Lemma late_usage_moves id rid u t r t' :
  record_late_usage id rid u t = (Ok r, t') → t' = t ∨ moves 1 (node_total t + 3) t t'.
Proof.
  unfold record_late_usage. destruct (usage_to_string u) as [fp|]; [|done].
  destruct (recorded_usage rid fp t); [intros [= _ <-]; by left|].
  destruct (nodes t !! id) as [n0|]; [|done].
  destruct (record_usage rid u t) as [[w|e] t1] eqn:Hrec; [|done].
  apply record_usage_moves in Hrec. destruct (nodes t1 !! id) as [n|] eqn:Hn; [|done].
  intros [= _ <-]. right. set (t2 := t1 <| nodes := _ |>).
  assert (H2 : moves 0 1 t t2)
    by (eapply moves_same; [exact Hrec|by eapply (fixed_update t1)|done]).
  generalize (can_spend (n_budget n0) u && w). intros b. eapply moves_weaken;
    [eapply moves_incr; [apply (late_tail_moves t t2 id rid fp b H2)|done|done]|lia..].
Qed.

Lemma root_late_usage_moves rid u t r t' :
  record_root_late_usage rid u t = (Ok r, t') → t' = t ∨ moves 1 (node_total t + 3) t t'.
Proof.
  unfold record_root_late_usage. destruct (usage_to_string u) as [fp|]; [|done].
  destruct (recorded_usage rid fp t); [intros [= _ <-]; by left|].
  destruct (nodes t !! root_node_id t) as [n0|]; [|done].
  destruct (record_unreserved_usage rid u t) as [[w|e] t1] eqn:Hrec; [|done].
  apply record_usage_moves in Hrec. set (t2 := t1 <| root_budget := _ |>).
  assert (H2 : moves 0 1 t t2) by by eapply moves_same; [exact Hrec|..]. clearbody t2.
  destruct (nodes t2 !! root_node_id t2) as [n|] eqn:Hn; [|done].
  intros [= _ <-]. right. set (t3 := t2 <| nodes := _ |>).
  assert (H3 : moves 0 1 t t3)
    by (eapply moves_same; [exact H2|by eapply (fixed_update t2)|done]).
  set (root_id := root_node_id t2).
  generalize (can_spend (n_budget n0) u && w). intros b. eapply moves_weaken;
    [eapply moves_incr; [apply (late_tail_moves t t3 root_id rid fp b H3)|done|done]|lia..].
Qed.

Lemma retry_node_moves id t r t' : retry_node id t = (Ok r, t') → moves 1 1 t t'.
Proof.
  unfold retry_node. destruct (nodes t !! id) as [n|] eqn:Hn; [|done]. intros [= _ <-].
  eapply (moves_incr 0 0); [apply moves_refl| |done]. eapply (fixed_update t); [done|].
  by case_match.
Qed.

Lemma recover_stale_lease_moves id l retry t r t' :
  recover_stale_lease id l retry t = (Ok r, t') → moves 1 1 t t'.
Proof.
  unfold recover_stale_lease. destruct (nodes t !! id) as [n|] eqn:Hn; [|done].
  case_match; [done|]. intros [= _ <-].
  eapply (moves_incr 0 0); [apply moves_refl| |done]. eapply (fixed_update t); [done|].
  by case_match.
Qed.

Lemma record_rejection_moves pid ev t : moves 1 1 t (record_rejection_evidence pid ev t).
Proof. by eapply (moves_incr 0 0); [apply moves_refl|..]. Qed.
End moves.
