(* ===== verification/Persistence.v ===== *)
(** * Validation of persisted recursive trees

    Model of the checks of storage/local_product_store/recursive_execution.rs:
    every tree is validated before it is written and after it is read back,
    whatever the stored JSON says.  The statements around the checks
    are in TreeStore. *)

From S2P Require Import Prelude Text RecursiveExecution.

Local Open Scope Z_scope.

Definition MAX_RECURSIVE_TREE_BYTES : Z := 131072.
Definition MAX_SCOPE_VALUE_BYTES : Z := 1024.
Definition MAX_SCOPE_ITEMS : Z := 64.
Definition MAX_RECURSIVE_DECISION_EVIDENCE_REFS : Z := 8.
Definition MAX_RECURSIVE_EVIDENCE_REF_BYTES : Z := 256.

#[export] Instance RecursiveScope_eq_dec : EqDecision RecursiveScope.
Proof. solve_decision. Defined.

(** [.len()] of a collection. *)
Definition vec_len {A} (l : list A) : Z := Z.of_nat (length l).

(** serde_json's encoder of a tree. *)
Class TreeEncoder : Type := tree_to_string : RecursiveTree → result string string.

Definition validate_scope (scope : RecursiveScope) : result string unit :=
  bail (MAX_SCOPE_ITEMS <? Z.of_nat (size (allowed_paths scope)))
    || (MAX_SCOPE_ITEMS <? Z.of_nat (size (scope_capabilities scope)))
    with Err "recursive scope exceeds bounded item cap" ;;
  let values := option_list (repository scope) ++ elements (allowed_paths scope)
                ++ elements (scope_capabilities scope) in
  bail existsb (λ value, MAX_SCOPE_VALUE_BYTES <? str_len value) values
    with Err "recursive scope value exceeds byte cap" ;;
  Ok ().

Definition evidence_too_large (refs : list string) : bool :=
  (MAX_RECURSIVE_DECISION_EVIDENCE_REFS <? vec_len refs)
  || existsb (λ reference, MAX_RECURSIVE_EVIDENCE_REF_BYTES <? str_len reference) refs.

Section validate.
Context `{Deps : RecursiveDeps} `{TE : TreeEncoder}.

(** ** Checks on the whole tree *)

(** Schema, bounds and identity of the root. *)
Definition check_identity (tree : RecursiveTree) : result string unit :=
  bail negb (bool_decide (schema_version tree = RECURSIVE_SCHEMA_VERSION))
    with Err "recursive tree schema version mismatch" ;;
  bail (MAX_RECURSIVE_NODES_PER_ROOT <? Z.of_nat (size (nodes tree)))
    || (MAX_RECURSIVE_LEASES <? Z.of_nat (size (active_leases tree)))
    with Err "recursive tree exceeds bounded node or lease limit" ;;
  _u <-? validate_scope (root_scope tree) ;;
  bail is_empty (root_run_id tree) || is_empty (workflow_id tree)
    || is_empty (root_node_id tree)
    with Err "recursive tree identity is empty" ;;
  bail is_empty (root_agent_id tree)
    || negb (bool_decide (root_recursive_marker tree = root_node_id tree))
    || is_empty (root_creation_receipt_sha256 tree)
    with Err "recursive root creation identity is incomplete" ;;
  bail is_none (root_child_budget_limit tree)
    with Err "recursive root child budget authority is missing" ;;
  Ok ().

Definition recorded_overrun (tree : RecursiveTree) : bool :=
  existsb (λ receipt, starts_with receipt "0:") (btree_values (usage_receipts tree)).

Definition check_aggregate_budget (tree : RecursiveTree) : result string unit :=
  match root_budget_limit tree with
  | Some limit =>
    let total := budget_add (spent_budget tree) (reserved_budget tree) in
    bail negb (can_spend limit (root_budget tree))
      || (negb (can_spend limit total) && negb (recorded_overrun tree))
      with Err "recursive tree aggregate budget is inconsistent" ;;
    bail negb (recorded_overrun tree)
      && negb (bool_decide (budget_add (root_budget tree) total = limit))
      with Err "recursive tree aggregate budget is not conserved" ;;
    Ok ()
  | None => Ok ()
  end.

Definition check_root (tree : RecursiveTree) : result string unit :=
  root <-? ok_or (nodes tree !! root_node_id tree) "recursive tree root node is missing" ;;
  bail negb (bool_decide (n_root_run_id root = root_run_id tree))
    || is_some (n_parent_node_id root)
    || negb (n_depth root =? 0)
    || negb (bool_decide (n_scope root = root_scope tree))
    || negb (bool_decide (n_capabilities root = root_capabilities tree))
    || negb (bool_decide (n_tenant_id root = root_tenant_id tree))
    || negb (bool_decide (n_workspace_id root = root_workspace_id tree))
    with Err "recursive tree root identity is inconsistent" ;;
  Ok ().

(** ** The loop over the nodes *)

(** What the loop accumulates. *)
Record tallies : Type := mkTallies {
  child_counts : gmap string Z;
  child_authority : gmap string RecursiveBudget;
  total_actual_usage : RecursiveBudget;
  total_reservations : RecursiveBudget;
  fingerprints : gset string;
  proposal_ids : gset string;
}.
#[export] Instance eta_tallies : Eta tallies := λ a,
  mkTallies (child_counts a) (child_authority a) (total_actual_usage a)
    (total_reservations a) (fingerprints a) (proposal_ids a).

Definition tallies_empty : tallies := mkTallies ∅ ∅ budget_default budget_default ∅ ∅.

Definition node_bounds (tree : RecursiveTree) (node : RecursiveNode) : result string unit :=
  bail (MAX_RECURSIVE_DEPTH <? n_depth node)
    || (MAX_ACCEPTED_CHILDREN_PER_NODE <? n_accepted_children node)
    || negb (str_len (n_objective_fingerprint node) =? 64)
    || (MAX_RECURSIVE_DEPTH <? vec_len (n_ancestor_fingerprints node))
    with Err "recursive node exceeds bounded shape" ;;
  bail negb (bool_decide (n_root_run_id node = root_run_id tree))
    || is_empty (n_node_id node)
    || (negb (bool_decide (n_node_id node = root_node_id tree))
        && is_none (n_parent_node_id node))
    || negb (bool_decide (scope_capabilities (n_scope node) = n_capabilities node))
    with Err "recursive node identity is inconsistent" ;;
  Ok ().

Definition node_terminal (node : RecursiveNode) : bool :=
  bool_decide (n_status node = NodeStatus.Completed)
  || bool_decide (n_status node = NodeStatus.Failed).

Definition node_budgets (tree : RecursiveTree) (node : RecursiveNode) : result string unit :=
  let execution_accounted := budget_add (n_budget node) (n_actual_usage node) in
  let execution_is_recorded_overrun :=
    recorded_overrun tree
    && negb (bool_decide (execution_accounted = n_budget_limit node))
    && can_spend execution_accounted (n_budget_limit node) in
  bail negb (can_spend (n_budget_limit node) (n_budget node))
    || negb (can_spend (n_child_budget_limit node) (n_child_budget node))
    || (negb (bool_decide (execution_accounted = n_budget_limit node))
        && negb execution_is_recorded_overrun)
    with Err "recursive node budget authority is inconsistent" ;;
  let terminal := node_terminal node in
  if bool_decide (n_node_id node = root_node_id tree) then
    bail negb (bool_decide (n_reservation node = budget_default))
      || negb (bool_decide (root_budget_limit tree = Some (n_budget_limit node)))
      || negb (bool_decide (root_child_budget_limit tree = Some (n_child_budget_limit node)))
      with Err "recursive root node budget authority is inconsistent" ;;
    Ok ()
  else
    bail (terminal && negb (bool_decide (n_reservation node = budget_default)))
      || (negb terminal && negb (bool_decide (n_reservation node = n_budget node)))
      with Err "recursive node reservation is inconsistent" ;;
    Ok ().

(** The part of a node's checks that involves its parent. *)
Definition check_parent (tree : RecursiveTree) (node : RecursiveNode)
    (parent_node_id : string) : result string unit :=
  parent <-? ok_or (nodes tree !! parent_node_id) "recursive node parent is missing" ;;
  bail negb (n_depth node =? Z.min (n_depth parent + 1) 255)
    || negb (bool_decide (n_ancestor_fingerprints node =
         n_ancestor_fingerprints parent ++ [n_objective_fingerprint parent]))
    || negb (bool_decide (n_capabilities node ⊆ n_capabilities parent))
    || negb (is_subset_of (n_scope node) (n_scope parent))
    || negb (bool_decide (n_tenant_id node = n_tenant_id parent))
    || negb (bool_decide (n_workspace_id node = n_workspace_id parent))
    with Err "recursive node lineage or authority is inconsistent" ;;
  Ok ().

Definition node_lineage (tree : RecursiveTree) (node : RecursiveNode) (acc : tallies)
    : result string tallies :=
  let acc := acc
    <| total_actual_usage := budget_add (total_actual_usage acc) (n_actual_usage node) |>
    <| total_reservations := budget_add (total_reservations acc) (n_reservation node) |> in
  bail bool_decide (n_objective_fingerprint node ∈ fingerprints acc)
    with Err "recursive objective fingerprint is duplicated" ;;
  let acc := acc <| fingerprints := {[n_objective_fingerprint node]} ∪ fingerprints acc |> in
  bail bool_decide (n_node_id node = root_node_id tree)
    && negb (bool_decide (n_ancestor_fingerprints node = []))
    with Err "recursive root lineage is not empty" ;;
  match n_parent_node_id node with
  | None => Ok acc
  | Some parent_node_id =>
    _u <-? check_parent tree node parent_node_id ;;
    let count := default 0 (child_counts acc !! parent_node_id) in
    let authority := default budget_default (child_authority acc !! parent_node_id) in
    Ok (acc
      <| child_counts := <[parent_node_id := count + 1]> (child_counts acc) |>
      <| child_authority := <[parent_node_id :=
           budget_add (budget_add authority (n_actual_usage node)) (n_reservation node)]>
             (child_authority acc) |>)
  end.

Definition node_proposal (tree : RecursiveTree) (node : RecursiveNode) (acc : tallies)
    : result string tallies :=
  match n_proposal_id node with
  | Some proposal_id =>
    bail negb (bool_decide (n_node_id node =
           derived_node_id (root_run_id tree) proposal_id (n_objective_fingerprint node)))
      with Err "recursive child node identity is not deterministic" ;;
    bail bool_decide (proposal_id ∈ proposal_ids acc)
      || negb (bool_decide (proposal_id ∈ accepted_proposals tree))
      || is_none (receipts tree !! proposal_id)
      with Err "recursive proposal identity is inconsistent" ;;
    Ok (acc <| proposal_ids := {[proposal_id]} ∪ proposal_ids acc |>)
  | None =>
    bail negb (bool_decide (n_node_id node = root_node_id tree))
      with Err "recursive child proposal identity is missing" ;;
    Ok acc
  end.

Definition node_lease (tree : RecursiveTree) (node : RecursiveNode) : result string unit :=
  match n_status node, n_lease_id node with
  | NodeStatus.Leased, Some lease_id =>
    bail negb (bool_decide (lease_id ∈ active_leases tree))
      with Err "recursive lease identity is inconsistent" ;;
    Ok ()
  | NodeStatus.Leased, None => Err "recursive lease identity is inconsistent"
  | _, Some _ => Err "non-leased recursive node has a lease"
  | _, None => Ok ()
  end.

Definition validate_node (tree : RecursiveTree) (node : RecursiveNode) (acc : tallies)
    : result string tallies :=
  _u <-? node_bounds tree node ;;
  _u <-? node_budgets tree node ;;
  acc <-? node_lineage tree node acc ;;
  acc <-? node_proposal tree node acc ;;
  _u <-? node_lease tree node ;;
  _u <-? validate_scope (n_scope node) ;;
  bail evidence_too_large (n_evidence_refs node)
    with Err "recursive node evidence exceeds bounded shape" ;;
  Ok acc.

Fixpoint validate_nodes (tree : RecursiveTree) (ns : list RecursiveNode) (acc : tallies)
    : result string tallies :=
  match ns with
  | [] => Ok acc
  | node :: ns => acc <-? validate_node tree node acc ;; validate_nodes tree ns acc
  end.

(** ** Checks after the loop *)

Definition check_accounting (tree : RecursiveTree) (acc : tallies) : result string unit :=
  let values := btree_values (nodes tree) in
  bail existsb (λ node, negb (n_accepted_children node
         =? default 0 (child_counts acc !! n_node_id node))) values
    with Err "recursive child count is inconsistent" ;;
  bail existsb (λ node,
         let accounted := match child_authority acc !! n_node_id node with
                          | Some children => budget_add (n_child_budget node) children
                          | None => n_child_budget node
                          end in
         negb (bool_decide (accounted = n_child_budget_limit node))
         && negb (recorded_overrun tree && can_spend accounted (n_child_budget_limit node)))
         values
    || negb (bool_decide (total_actual_usage acc = spent_budget tree))
    || negb (bool_decide (total_reservations acc = reserved_budget tree))
    with Err "recursive node accounting is inconsistent" ;;
  bail existsb (λ lease_id,
         negb (existsb (λ node, bool_decide (n_lease_id node = Some lease_id)) values))
         (elements (active_leases tree))
    with Err "recursive active lease index is inconsistent" ;;
  Ok ().

Definition check_receipts (tree : RecursiveTree) (acc : tallies) : result string unit :=
  let accepted := elements (accepted_proposals tree) in
  bail negb (Z.of_nat (size (accepted_proposals tree)) =? Z.of_nat (size (receipts tree)))
    || existsb (λ proposal_id,
         negb (bool_decide (proposal_id ∈ proposal_ids acc))
         || match receipts tree !! proposal_id with
            | None => true
            | Some receipt => is_empty receipt
            end) accepted
    || existsb (λ proposal_id, is_some (rejected_proposals tree !! proposal_id)) accepted
    with Err "recursive accepted proposal receipt set is inconsistent" ;;
  bail (MAX_RECURSIVE_NODES_PER_ROOT * 2 <? Z.of_nat (size (usage_receipts tree)))
    || existsb is_empty (btree_iter (usage_receipts tree)).*1
    with Err "recursive usage receipt set exceeds bounded shape" ;;
  bail (MAX_RECURSIVE_NODES_PER_ROOT <? Z.of_nat (size (rejected_proposals tree)))
    || existsb (λ decision,
         evidence_too_large (evidence_refs decision)
         || (128 <? str_len (FailureReason.reason_as_str (reason_code decision))))
         (btree_values (rejected_proposals tree))
    with Err "recursive decision evidence exceeds bounded shape" ;;
  Ok ().

Definition validate_tree_for_persistence (tree : RecursiveTree) : result string string :=
  _u <-? check_identity tree ;;
  _u <-? check_aggregate_budget tree ;;
  _u <-? check_root tree ;;
  acc <-? validate_nodes tree (btree_values (nodes tree)) tallies_empty ;;
  _u <-? check_accounting tree acc ;;
  _u <-? check_receipts tree acc ;;
  tree_json <-? tree_to_string tree ;;
  bail MAX_RECURSIVE_TREE_BYTES <? str_len tree_json
    with Err "recursive tree exceeds persistence byte cap" ;;
  Ok tree_json.

(** Snapshots without aggregate accounting get their remaining authority as the
    limit. *)
Definition normalize_loaded_tree (tree : RecursiveTree) : RecursiveTree :=
  match root_budget_limit tree with
  | None => tree <| root_budget_limit := Some (root_budget tree) |>
  | Some _ => tree
  end.
End validate.
