(* ===== verification/PersistenceProps.v ===== *)
(** * What the persistence checks guarantee

    Each check is inverted into the facts it establishes, the loop over the
    nodes into facts about all of them and the totals it leaves. *)

From S2P Require Import Prelude Text RecursiveExecution Persistence.

Local Open Scope Z_scope.

(** Splits a chain of [if b { return Err(..) }] that ended in [Ok]. *)
Ltac passed H :=
  repeat match type of H with
  | (if ?b then Err _ else _) = Ok _ =>
    let E := fresh "Hc" in destruct b eqn:E; [discriminate H|]
  | match ?e with Ok _ => _ | Err _ => _ end = Ok _ =>
    let E := fresh "Hr" in destruct e as [?|?] eqn:E; [|discriminate H]
  end;
  repeat match goal with u : () |- _ => destruct u end.

Lemma ok_or_Ok {E A} (o : option A) (e : E) a : ok_or o e = Ok a → o = Some a.
Proof. destruct o; naive_solver. Qed.

Ltac checks :=
  repeat match goal with
  | H : (_ || _) = false |- _ => apply orb_false_iff in H as [? H]
  | H : (_ && _) = true |- _ => apply andb_true_iff in H as [? H]
  | H : negb _ = false |- _ => apply negb_false_iff in H
  | H : bool_decide _ = true |- _ => apply bool_decide_eq_true in H
  | H : bool_decide _ = false |- _ => apply bool_decide_eq_false in H
  | H : (_ <? _) = false |- _ => apply Z.ltb_ge in H
  | H : (_ =? _) = true |- _ => apply Z.eqb_eq in H
  | H : ok_or _ _ = Ok _ |- _ => apply ok_or_Ok in H
  | H : existsb _ _ = false |- _ => rewrite existsb_false in H
  end.

Section props.
Context `{Deps : RecursiveDeps} `{TE : TreeEncoder}.

(** ** One node *)

Record parent_ok (t : RecursiveTree) (n : RecursiveNode) (p : string) : Prop := {
  po_parent : ∃ pn, nodes t !! p = Some pn
    ∧ n_depth n = Z.min (n_depth pn + 1) 255
    ∧ n_ancestor_fingerprints n = n_ancestor_fingerprints pn ++ [n_objective_fingerprint pn]
    ∧ n_capabilities n ⊆ n_capabilities pn
    ∧ is_subset_of (n_scope n) (n_scope pn) = true
    ∧ n_tenant_id n = n_tenant_id pn ∧ n_workspace_id n = n_workspace_id pn;
}.

Record node_ok (t : RecursiveTree) (n : RecursiveNode) : Prop := {
  nk_depth : n_depth n <= MAX_RECURSIVE_DEPTH;
  nk_children : n_accepted_children n <= MAX_ACCEPTED_CHILDREN_PER_NODE;
  nk_scope : scope_capabilities (n_scope n) = n_capabilities n;
  nk_has_parent : n_node_id n ≠ root_node_id t → is_Some (n_parent_node_id n);
  nk_parent : ∀ p, n_parent_node_id n = Some p → parent_ok t n p;
  nk_proposal : ∀ q, n_proposal_id n = Some q →
    q ∈ accepted_proposals t ∧ is_Some (receipts t !! q)
    ∧ n_node_id n = derived_node_id (root_run_id t) q (n_objective_fingerprint n);
  nk_lease : match n_lease_id n with
             | Some l => n_status n = NodeStatus.Leased ∧ l ∈ active_leases t
             | None => n_status n ≠ NodeStatus.Leased
             end;
  nk_reservation : n_node_id n ≠ root_node_id t →
    n_reservation n = if node_terminal n then budget_default else n_budget n;
}.

Lemma check_parent_ok t n p : check_parent t n p = Ok () → parent_ok t n p.
Proof. unfold check_parent. intros H. passed H. checks. split. eauto 10. Qed.

(** What the loop adds for one node. *)
Definition tally (n : RecursiveNode) (a : tallies) : tallies :=
  mkTallies
    (match n_parent_node_id n with
     | Some p => <[p := default 0 (child_counts a !! p) + 1]> (child_counts a)
     | None => child_counts a
     end)
    (match n_parent_node_id n with
     | Some p => <[p := budget_add (budget_add (default budget_default (child_authority a !! p))
                          (n_actual_usage n)) (n_reservation n)]> (child_authority a)
     | None => child_authority a
     end)
    (budget_add (total_actual_usage a) (n_actual_usage n))
    (budget_add (total_reservations a) (n_reservation n))
    ({[n_objective_fingerprint n]} ∪ fingerprints a)
    (match n_proposal_id n with
     | Some q => {[q]} ∪ proposal_ids a
     | None => proposal_ids a
     end).

Lemma node_bounds_ok t n :
  node_bounds t n = Ok () →
  n_depth n <= MAX_RECURSIVE_DEPTH ∧ n_accepted_children n <= MAX_ACCEPTED_CHILDREN_PER_NODE
  ∧ scope_capabilities (n_scope n) = n_capabilities n
  ∧ (n_node_id n ≠ root_node_id t → is_Some (n_parent_node_id n)).
Proof.
  unfold node_bounds. intros H. passed H. checks. split_and!; [done..|]. intros Hne.
  destruct (n_parent_node_id n); [eauto|]. by rewrite bool_decide_false in * by done.
Qed.

Lemma node_budgets_ok t n :
  node_budgets t n = Ok () → n_node_id n ≠ root_node_id t →
  n_reservation n = if node_terminal n then budget_default else n_budget n.
Proof.
  unfold node_budgets. intros H Hne. passed H. rewrite bool_decide_false in H by done.
  passed H. checks. destruct (node_terminal n); cbn in *; by checks.
Qed.

Lemma node_lease_ok t n :
  node_lease t n = Ok () →
  match n_lease_id n with
  | Some l => n_status n = NodeStatus.Leased ∧ l ∈ active_leases t
  | None => n_status n ≠ NodeStatus.Leased
  end.
Proof.
  unfold node_lease. intros H. destruct (n_status n), (n_lease_id n); try done.
  passed H. by checks.
Qed.

Lemma node_lineage_ok t n a a' :
  node_lineage t n a = Ok a' →
  (∀ p, n_parent_node_id n = Some p → parent_ok t n p)
  ∧ (n_objective_fingerprint n ∉ fingerprints a)
  ∧ a' = mkTallies (child_counts (tally n a)) (child_authority (tally n a))
           (total_actual_usage (tally n a)) (total_reservations (tally n a))
           (fingerprints (tally n a)) (proposal_ids a).
Proof.
  unfold node_lineage, tally. intros H. passed H. checks. cbn in *.
  destruct (n_parent_node_id n) as [p|].
  - passed H. injection H as <-. split_and!; [|done..].
    intros ? [= <-]. by apply check_parent_ok.
  - injection H as <-. done.
Qed.

Lemma node_proposal_ok t n a a' :
  node_proposal t n a = Ok a' →
  (∀ q, n_proposal_id n = Some q →
     q ∈ accepted_proposals t ∧ is_Some (receipts t !! q)
     ∧ n_node_id n = derived_node_id (root_run_id t) q (n_objective_fingerprint n)
     ∧ (q ∉ proposal_ids a))
  ∧ a' = mkTallies (child_counts a) (child_authority a) (total_actual_usage a)
           (total_reservations a) (fingerprints a)
           (match n_proposal_id n with
            | Some q => {[q]} ∪ proposal_ids a
            | None => proposal_ids a
            end).
Proof.
  unfold node_proposal. intros H. destruct (n_proposal_id n) as [q|]; passed H;
    injection H as <-; checks; (split; [|by destruct a]); [|done].
  intros ? [= <-]. split_and!; [done| |done..]. by destruct (receipts t !! q).
Qed.

Lemma validate_node_ok t n a a' :
  validate_node t n a = Ok a' →
  node_ok t n ∧ a' = tally n a ∧ (n_objective_fingerprint n ∉ fingerprints a)
  ∧ (∀ q, n_proposal_id n = Some q → q ∉ proposal_ids a).
Proof.
  unfold validate_node. intros H. passed H. injection H as <-.
  apply node_bounds_ok in Hr as (?&?&?&?). apply node_lineage_ok in Hr1 as (?&?&->).
  apply node_proposal_ok in Hr2 as (Hq & ->). cbn in *.
  split_and!; [|done|done|by intros q (_&_&_&?)%Hq].
  split; [done..| |by apply node_lease_ok|by apply node_budgets_ok].
  intros q (?&?&?&?)%Hq. done.
Qed.

(** ** The loop *)

Definition tally_all (ns : list RecursiveNode) (a : tallies) : tallies :=
  foldl (λ a n, tally n a) a ns.

Lemma validate_nodes_ok t ns a a' :
  validate_nodes t ns a = Ok a' →
  Forall (node_ok t) ns ∧ a' = tally_all ns a
  ∧ NoDup (n_objective_fingerprint <$> ns)
  ∧ (∀ n, n ∈ ns → n_objective_fingerprint n ∉ fingerprints a)
  ∧ NoDup (omap n_proposal_id ns)
  ∧ (∀ q, q ∈ omap n_proposal_id ns → q ∉ proposal_ids a).
Proof.
  revert a. induction ns as [|n ns IH]; intros a H; cbn [validate_nodes] in H.
  - injection H as <-. split_and!; [constructor|done|constructor|by intros ? ?%not_elem_of_nil
      |constructor|by intros ? ?%not_elem_of_nil].
  - passed H. apply validate_node_ok in Hr as (Hok & -> & Hfp & Hq).
    apply IH in H as (Hall & -> & Hnf & Hfs & Hnq & Hqs).
    assert (Hhead : ∀ m, m ∈ ns → n_objective_fingerprint m ≠ n_objective_fingerprint n
      ∧ n_objective_fingerprint m ∉ fingerprints a).
    { intros m Hm. specialize (Hfs m Hm). cbn in Hfs. set_solver. }
    split_and!; [by constructor|done| | | |].
    + rewrite fmap_cons. apply NoDup_cons. split; [|done].
      intros (m & E & Hm)%list_elem_of_fmap. by destruct (Hhead m Hm).
    + intros m [->|Hm]%elem_of_cons; [done|]. by destruct (Hhead m Hm).
    + cbn. destruct (n_proposal_id n) as [q|] eqn:Eq; [|done]. apply NoDup_cons. split; [|done].
      intros Hin. apply (Hqs q Hin). cbn. rewrite Eq. set_solver.
    + intros q. cbn. cbn in Hqs. destruct (n_proposal_id n) as [q'|] eqn:Eq; [|by apply Hqs].
      intros [->|Hin]%elem_of_cons; [by apply Hq|]. specialize (Hqs q Hin). set_solver.
Qed.

Lemma tally_all_usage ns a :
  total_actual_usage (tally_all ns a)
    = foldl budget_add (total_actual_usage a) (n_actual_usage <$> ns)
  ∧ total_reservations (tally_all ns a)
    = foldl budget_add (total_reservations a) (n_reservation <$> ns).
Proof. revert a. induction ns as [|n ns IH]; intros a; [done|]. apply IH. Qed.

Definition children_of (ns : list RecursiveNode) (p : string) : list RecursiveNode :=
  filter (λ n, n_parent_node_id n = Some p) ns.

Lemma children_of_size (m : gmap string RecursiveNode) p :
  vec_len (children_of (btree_values m) p)
  = Z.of_nat (size (filter (λ kn : string * RecursiveNode, n_parent_node_id kn.2 = Some p) m)).
Proof.
  unfold vec_len, children_of, btree_values. f_equal.
  rewrite (Permutation_length (l' := filter (λ n, n_parent_node_id n = Some p)
    (map_to_list m).*2)) by (unfold btree_iter; by rewrite sort_by_perm).
  induction m as [|k n m Hk IH] using map_ind.
  - by rewrite map_to_list_empty, map_filter_empty, map_size_empty.
  - rewrite (Permutation_length (l' := filter (λ n, n_parent_node_id n = Some p)
      (n :: (map_to_list m).*2))) by by rewrite map_to_list_insert.
    rewrite filter_cons. case_decide.
    + rewrite map_filter_insert_True by done. cbn [length]. rewrite IH, map_size_insert_None; [done|].
      by apply map_lookup_filter_None_2; left.
    + rewrite map_filter_insert_False by done. rewrite delete_id by done. exact IH.
Qed.

Lemma tally_all_children ns a p :
  default 0 (child_counts (tally_all ns a) !! p)
  = default 0 (child_counts a !! p) + vec_len (children_of ns p).
Proof.
  revert a. induction ns as [|n ns IH]; intros a; [unfold vec_len, children_of; cbn; lia|].
  change (tally_all (n :: ns) a) with (tally_all ns (tally n a)). rewrite IH.
  unfold children_of. rewrite filter_cons. cbn [tally child_counts].
  destruct (n_parent_node_id n) as [p'|]; [|by rewrite decide_False].
  destruct (decide (p' = p)) as [->|Hne].
  - rewrite lookup_insert_eq, decide_True by done. unfold vec_len. cbn [length from_option id]. lia.
  - rewrite lookup_insert_ne, decide_False by congruence. done.
Qed.

Lemma tally_all_proposals ns a q :
  q ∈ proposal_ids (tally_all ns a) ↔ q ∈ proposal_ids a ∨ q ∈ omap n_proposal_id ns.
Proof.
  revert a. induction ns as [|n ns IH]; intros a; [cbn; set_solver|].
  change (tally_all (n :: ns) a) with (tally_all ns (tally n a)). rewrite IH.
  cbn. destruct (n_proposal_id n); set_solver.
Qed.

(** ** The whole validation *)

Record accepted (t : RecursiveTree) : Prop := {
  ac_size : Z.of_nat (size (nodes t)) <= MAX_RECURSIVE_NODES_PER_ROOT;
  ac_leases : Z.of_nat (size (active_leases t)) <= MAX_RECURSIVE_LEASES;
  ac_conserved : recorded_overrun t = false → ∀ limit, root_budget_limit t = Some limit →
    budget_add (root_budget t) (budget_add (spent_budget t) (reserved_budget t)) = limit;
  ac_root : ∃ r, nodes t !! root_node_id t = Some r ∧ n_parent_node_id r = None
    ∧ n_depth r = 0 ∧ n_scope r = root_scope t ∧ n_capabilities r = root_capabilities t
    ∧ n_tenant_id r = root_tenant_id t ∧ n_workspace_id r = root_workspace_id t;
  ac_nodes : ∀ k n, nodes t !! k = Some n → node_ok t n;
  ac_fingerprints : NoDup (n_objective_fingerprint <$> btree_values (nodes t));
  ac_children : ∀ k n, nodes t !! k = Some n →
    n_accepted_children n = vec_len (children_of (btree_values (nodes t)) (n_node_id n));
  ac_spent : foldl budget_add budget_default (n_actual_usage <$> btree_values (nodes t))
    = spent_budget t;
  ac_reserved : foldl budget_add budget_default (n_reservation <$> btree_values (nodes t))
    = reserved_budget t;
  ac_held : ∀ l, l ∈ active_leases t → ∃ k n, nodes t !! k = Some n ∧ n_lease_id n = Some l;
  ac_proposals : ∀ q, q ∈ accepted_proposals t →
    ∃ k n, nodes t !! k = Some n ∧ n_proposal_id n = Some q;
  ac_receipts : size (accepted_proposals t) = size (receipts t)
    ∧ ∀ q, q ∈ accepted_proposals t → is_Some (receipts t !! q);
}.

Lemma check_aggregate_budget_ok t :
  check_aggregate_budget t = Ok () → recorded_overrun t = false →
  ∀ limit, root_budget_limit t = Some limit →
  budget_add (root_budget t) (budget_add (spent_budget t) (reserved_budget t)) = limit.
Proof.
  unfold check_aggregate_budget. intros H Ho limit Hl. rewrite Hl in H. passed H.
  rewrite Ho in *. cbn in *. by checks.
Qed.

Lemma check_root_ok t :
  check_root t = Ok () →
  ∃ r, nodes t !! root_node_id t = Some r ∧ n_parent_node_id r = None
    ∧ n_depth r = 0 ∧ n_scope r = root_scope t ∧ n_capabilities r = root_capabilities t
    ∧ n_tenant_id r = root_tenant_id t ∧ n_workspace_id r = root_workspace_id t.
Proof.
  unfold check_root. intros H. passed H. checks. eexists. split; [done|].
  split_and!; [|done..]. by destruct (n_parent_node_id _).
Qed.

Lemma check_accounting_ok t a :
  check_accounting t a = Ok () →
  (∀ k n, nodes t !! k = Some n →
     n_accepted_children n = default 0 (child_counts a !! n_node_id n))
  ∧ total_actual_usage a = spent_budget t ∧ total_reservations a = reserved_budget t
  ∧ (∀ l, l ∈ active_leases t → ∃ k n, nodes t !! k = Some n ∧ n_lease_id n = Some l).
Proof.
  unfold check_accounting. intros H. passed H. checks. split_and!; [|done..|].
  - intros k n Hn. assert (Hv : n ∈ btree_values (nodes t)) by (apply elem_of_btree_values; eauto).
    apply Hc in Hv. by checks.
  - intros l Hl. apply elem_of_elements, Hc1 in Hl. checks.
    apply existsb_exists in Hl as (n & Hn%list_elem_of_In & E%bool_decide_eq_true).
    apply elem_of_btree_values in Hn as [k Hk]. eauto.
Qed.

Lemma check_receipts_ok t a :
  check_receipts t a = Ok () →
  size (accepted_proposals t) = size (receipts t)
  ∧ ∀ q, q ∈ accepted_proposals t → q ∈ proposal_ids a ∧ is_Some (receipts t !! q).
Proof.
  unfold check_receipts. intros H. passed H. checks. split; [lia|].
  intros q Hq%elem_of_elements. match goal with
    Hall : ∀ x, x ∈ elements (accepted_proposals t) → negb _ || _ = false |- _ =>
      apply Hall in Hq end.
  checks. split; [done|]. by destruct (receipts t !! q).
Qed.

Lemma validate_accepted t json : validate_tree_for_persistence t = Ok json → accepted t.
Proof.
  unfold validate_tree_for_persistence. intros H. passed H.
  match goal with Hi : check_identity t = Ok _ |- _ => unfold check_identity in Hi; passed Hi end.
  match goal with Hn : validate_nodes _ _ _ = Ok _ |- _ =>
    apply validate_nodes_ok in Hn as (Hall & -> & Hfp & _ & _ & _) end.
  match goal with Ha : check_accounting _ _ = Ok _ |- _ =>
    apply check_accounting_ok in Ha as (Hch & Hsp & Hrs & Hls) end.
  match goal with Hq : check_receipts _ _ = Ok _ |- _ =>
    apply check_receipts_ok in Hq as (Hsz & Hqs) end.
  checks. destruct (tally_all_usage (btree_values (nodes t)) tallies_empty) as [Hu Hv].
  rewrite Forall_forall in Hall.
  split; [done|done|by apply check_aggregate_budget_ok|by apply check_root_ok| |done|
    |exact (eq_trans (eq_sym Hu) Hsp)|exact (eq_trans (eq_sym Hv) Hrs)|done| |].
  - intros k n Hn. apply Hall, elem_of_btree_values. eauto.
  - intros k n Hn. rewrite (Hch k n Hn), tally_all_children. done.
  - intros q [Hq _]%Hqs. apply tally_all_proposals in Hq as [Hq|Hq]; [set_solver|].
    apply list_elem_of_omap in Hq as (n & [k Hk]%elem_of_btree_values & E). eauto.
  - split; [done|]. intros q Hq. by apply Hqs.
Qed.

(** ** Authority *)

Lemma is_subset_of_trans a b c :
  is_subset_of a b = true → is_subset_of b c = true → is_subset_of a c = true.
Proof.
  unfold is_subset_of. rewrite !andb_true_iff, !bool_decide_eq_true.
  intros [[??]?] [[??]?]. split_and!; [congruence|set_solver..].
Qed.

Lemma is_subset_of_refl a : is_subset_of a a = true.
Proof. unfold is_subset_of. by rewrite !bool_decide_true. Qed.

(** Nodes are stored under their own id, at a depth that is a [u8]. *)
Definition keyed (t : RecursiveTree) : Prop :=
  ∀ k n, nodes t !! k = Some n → n_node_id n = k ∧ 0 <= n_depth n.

Lemma map_Forall_keyed t :
  map_Forall (λ k n, n_node_id n = k ∧ 0 <= n_depth n) (nodes t) → keyed t.
Proof. done. Qed.

Lemma accepted_parent t k n :
  accepted t → keyed t → nodes t !! k = Some n → k ≠ root_node_id t →
  ∃ p pn, n_parent_node_id n = Some p ∧ nodes t !! p = Some pn ∧ n_depth n = n_depth pn + 1.
Proof.
  intros Ha Hkey Hn Hne. destruct (Hkey _ _ Hn) as [Hid _].
  destruct (ac_nodes _ Ha _ _ Hn) as [Hd _ _ Hp Hpok _ _ _].
  destruct Hp as [p Hp]; [congruence|]. destruct (Hpok p Hp) as [(pn & Hpn & Ed & _)].
  exists p, pn. split_and!; [done..|]. unfold MAX_RECURSIVE_DEPTH in Hd. lia.
Qed.

Lemma accepted_authority t d k n :
  accepted t → keyed t → nodes t !! k = Some n → n_depth n = Z.of_nat d →
  n_capabilities n ⊆ root_capabilities t ∧ is_subset_of (n_scope n) (root_scope t) = true
  ∧ n_tenant_id n = root_tenant_id t ∧ n_workspace_id n = root_workspace_id t.
Proof.
  intros Ha Hkey. revert k n. induction d as [|d IH]; intros k n Hn Hd;
    (destruct (decide (k = root_node_id t)) as [->|Hne];
     [destruct (ac_root _ Ha) as (r & Hr & _ & _ & Hs & Hc & Ht & Hw); simplify_eq;
      rewrite <-Hs, <-Hc, is_subset_of_refl; by split_and!|]);
    destruct (accepted_parent _ _ _ Ha Hkey Hn Hne) as (p & pn & Hp & Hpn & Ed).
  - destruct (Hkey _ _ Hpn). lia.
  - destruct (IH p pn Hpn) as (?&?&?&?); [lia|].
    destruct (nk_parent _ _ (ac_nodes _ Ha _ _ Hn) _ Hp) as [(pn' & Hpn' & _ & _ & Hc & Hs & Ht & Hw)].
    simplify_eq. split_and!; [set_solver|by eapply is_subset_of_trans|congruence..].
Qed.
End props.
