(* ===== verification/PersistenceTheorems.v ===== *)
(** * Correctness of the persistence checks *)

From S2P Require Import Prelude Text RecursiveExecution Persistence PersistenceProps.

Local Open Scope Z_scope.

Module PersistenceDemo.
Fixpoint pad (n : nat) (s : string) : string :=
  match n with
  | O => ""
  | S n => match s with
           | EmptyString => "x" +:+ pad n ""
           | String c s => String c (pad n s)
           end
  end.

(** A hash of 64 characters and serialisers to run the checks with. *)
Definition deps : RecursiveDeps := {|
  char_is_alphanumeric c :=
    ((48 <=? c) && (c <=? 57)) || ((65 <=? c) && (c <=? 90)) || ((97 <=? c) && (c <=? 122));
  sha256_hex s := pad 64 s;
  identity_to_vec i :=
    id_intent i +:+ "/" +:+ id_subject i +:+ "/" +:+ join "," (id_qualifiers i);
  usage_to_string u := Some (pretty (calls_remaining u)) |}.
#[export] Existing Instance deps.

#[export] Instance encoder : TreeEncoder := λ t, Ok (root_run_id t).

Definition env : env_vars := λ k,
  if bool_decide (k = "ACP_RECURSIVE_EXECUTION_ENABLED") then Some "1" else None.

Definition scope : RecursiveScope := mkScope (Some "repo") {["docs/"]} {["read"]}.

Definition root : RecursiveTree :=
  (bind_root_identity "agent" "root" "receipt"
    (new_with_root_node_id "run-1" "wf-1" "root" "Review the documentation" scope
       {["read"]} (mkBudget 10 1000 5000 60000))).2.

Definition proposal : RecursiveProposal := {|
  p_proposal_id := "p1"; p_parent_node_id := "root"; p_parent_version := 1;
  p_objective := "Summarise section two"; p_context_summary := "";
  p_requested_capabilities := {["read"]}; p_requested_scope := scope;
  p_budget := mkBudget 2 100 500 1000; p_receipt_sha256 := "receipt-1" |}.

Definition tree : RecursiveTree :=
  match admit_child env proposal root with Some (_, t) => t | None => root end.

Definition child_id : string :=
  derived_node_id "run-1" "p1" (objective_fingerprint (p_objective proposal)).

(** A second node under another key that claims to be the root, with more
    authority. *)
Definition shadow : RecursiveNode :=
  mkNode "root" "run-1" None None 0 (pad 64 "shadow") []
    (mkScope (Some "repo") {["docs/"; "src/"]} {["read"; "write"]}) {["read"; "write"]} None None
    (mkBudget 10 1000 5000 60000) (mkBudget 10 1000 5000 60000)
    (mkBudget 10 1000 5000 60000) (mkBudget 10 1000 5000 60000)
    budget_default budget_default NodeStatus.Ready 0 0 1 None None [].
Definition forged : RecursiveTree := root <| nodes := <["shadow" := shadow]> (nodes root) |>.
End PersistenceDemo.
Import PersistenceDemo.

Example demo_accepted : validate_tree_for_persistence tree = Ok "run-1".
Proof. vm_compute. reflexivity. Qed.

Lemma demo_keyed : keyed tree.
Proof.
  assert (H : map_Forall (λ k n, n_node_id n = k ∧ 0 <= n_depth n) (nodes tree))
    by (apply (bool_decide_unpack _); vm_compute; exact I).
  exact H.
Qed.

(** C33: A tree that passes the checks and stores its nodes under their own ids
    is sound, however it was produced.  The root is there with the tree's
    authority.  Every other node names a parent in the tree one level up, and no
    node exceeds the depth, child or node limits.  Objective fingerprints are
    unique and the child counters exact.  Every node works in the root's
    repository, paths, capabilities, tenant and workspace. *)
Theorem persisted_tree_shape `{Deps : RecursiveDeps} `{TE : TreeEncoder} t json :
  validate_tree_for_persistence t = Ok json → keyed t →
  (∃ r, nodes t !! root_node_id t = Some r ∧ n_parent_node_id r = None ∧ n_depth r = 0)
  ∧ Z.of_nat (size (nodes t)) <= MAX_RECURSIVE_NODES_PER_ROOT
  ∧ (∀ k1 k2 n1 n2, nodes t !! k1 = Some n1 → nodes t !! k2 = Some n2 →
       n_objective_fingerprint n1 = n_objective_fingerprint n2 → k1 = k2)
  ∧ ∀ k n, nodes t !! k = Some n →
      0 <= n_depth n <= MAX_RECURSIVE_DEPTH
      ∧ n_accepted_children n
        = Z.of_nat (size (filter (λ kn : string * RecursiveNode,
            n_parent_node_id kn.2 = Some k) (nodes t)))
      ∧ n_accepted_children n <= MAX_ACCEPTED_CHILDREN_PER_NODE
      ∧ (k ≠ root_node_id t → ∃ p pn, n_parent_node_id n = Some p
           ∧ nodes t !! p = Some pn ∧ n_depth n = n_depth pn + 1)
      ∧ n_capabilities n ⊆ root_capabilities t
      ∧ is_subset_of (n_scope n) (root_scope t) = true
      ∧ n_tenant_id n = root_tenant_id t ∧ n_workspace_id n = root_workspace_id t.
Proof.
  intros Ha%validate_accepted Hkey. split_and!.
  - destruct (ac_root _ Ha) as (r & ? & ? & ? & _). eauto.
  - apply Ha.
  - intros k1 k2 n1 n2 H1 H2 E.
    assert (n1 = n2) as ->.
    { eapply (NoDup_fmap_eq n_objective_fingerprint); [apply Ha| | |exact E];
        apply elem_of_btree_values; eauto. }
    destruct (Hkey _ _ H1), (Hkey _ _ H2). congruence.
  - intros k n Hn. destruct (Hkey _ _ Hn) as [Hid Hd].
    pose proof (ac_nodes _ Ha _ _ Hn) as Hok.
    destruct (accepted_authority t (Z.to_nat (n_depth n)) k n Ha Hkey Hn) as (?&?&?&?); [lia|].
    split_and!; try done; [apply Hok| |apply Hok|by apply accepted_parent].
    rewrite (ac_children _ Ha _ _ Hn), Hid. apply children_of_size.
Qed.

Lemma persisted_tree_shape_witness :
  Z.of_nat (size (nodes tree)) <= MAX_RECURSIVE_NODES_PER_ROOT
  ∧ ∃ n, nodes tree !! child_id = Some n ∧ n_capabilities n ⊆ root_capabilities tree.
Proof.
  destruct (persisted_tree_shape tree "run-1" demo_accepted demo_keyed) as (_ & Hs & _ & H).
  split; [exact Hs|]. destruct (nodes tree !! child_id) as [n|] eqn:E; [|by vm_compute in E].
  exists n. split; [done|]. by destruct (H _ _ E) as (_ & _ & _ & _ & ? & _).
Defined.

(** In a tree that passes the checks the books balance.  The spent budget
    is the sum of what the nodes used and the reserved budget the sum of their
    reservations; unless a usage was recorded as an overrun, the root's
    remaining budget and these two make up its limit exactly.  The active leases
    are exactly those the leased nodes hold, within the bound.  The accepted
    proposals are exactly those of the nodes and exactly those with a receipt. *)
Theorem persisted_tree_accounts `{Deps : RecursiveDeps} `{TE : TreeEncoder} t json :
  validate_tree_for_persistence t = Ok json →
  spent_budget t = foldl budget_add budget_default (n_actual_usage <$> btree_values (nodes t))
  ∧ reserved_budget t = foldl budget_add budget_default (n_reservation <$> btree_values (nodes t))
  ∧ (recorded_overrun t = false → ∀ limit, root_budget_limit t = Some limit →
       budget_add (root_budget t) (budget_add (spent_budget t) (reserved_budget t)) = limit)
  ∧ (∀ l, l ∈ active_leases t ↔ ∃ k n, nodes t !! k = Some n ∧ n_lease_id n = Some l)
  ∧ (∀ k n, nodes t !! k = Some n → n_status n = NodeStatus.Leased ↔ is_Some (n_lease_id n))
  ∧ Z.of_nat (size (active_leases t)) <= MAX_RECURSIVE_LEASES
  ∧ (∀ q, q ∈ accepted_proposals t ↔ ∃ k n, nodes t !! k = Some n ∧ n_proposal_id n = Some q)
  ∧ accepted_proposals t = dom (receipts t).
Proof.
  intros Ha%validate_accepted. split_and!; [symmetry; apply Ha..|apply Ha| | |apply Ha| |].
  - intros l. split; [apply Ha|]. intros (k & n & Hn & Hl).
    pose proof (nk_lease _ _ (ac_nodes _ Ha _ _ Hn)) as H. rewrite Hl in H. apply H.
  - intros k n Hn. pose proof (nk_lease _ _ (ac_nodes _ Ha _ _ Hn)) as H.
    destruct (n_lease_id n); [naive_solver|]. split; [done|by intros [??]].
  - intros q. split; [apply Ha|]. intros (k & n & Hn & Hq).
    by apply (nk_proposal _ _ (ac_nodes _ Ha _ _ Hn)).
  - destruct (ac_receipts _ Ha) as [Hsz Hin]. apply set_subseteq_size_eq.
    + intros q Hq. by apply elem_of_dom, Hin.
    + rewrite size_dom. lia.
Qed.

Lemma persisted_tree_accounts_witness :
  accepted_proposals tree = dom (receipts tree)
  ∧ budget_add (root_budget tree) (budget_add (spent_budget tree) (reserved_budget tree))
    = mkBudget 10 1000 5000 60000.
Proof.
  destruct (persisted_tree_accounts tree "run-1" demo_accepted) as (_ & _ & H & _ & _ & _ & _ & Hr).
  split; [exact Hr|]. by apply H; vm_compute.
Defined.

(** The checks do not compare the key a node is stored under with its id:
    they accept a tree in which a second node, under another key, claims the
    root's id and holds a capability the root does not have. *)
Theorem duplicate_root_accepted :
  ∃ (t : RecursiveTree) json k n,
    validate_tree_for_persistence t = Ok json
    ∧ nodes t !! k = Some n ∧ k ≠ root_node_id t ∧ n_node_id n = root_node_id t
    ∧ n_capabilities n ⊈ root_capabilities t.
Proof.
  exists forged, "run-1", "shadow", shadow. split_and!.
  - vm_compute. reflexivity.
  - vm_compute. reflexivity.
  - done.
  - done.
  - intros H. assert (Hin : "write" ∈ root_capabilities forged) by (apply H; vm_compute; set_solver).
    revert Hin. apply (bool_decide_unpack _). by vm_compute.
Qed.
