(* ===== verification/TreeStore.v ===== *)
(** * The store of recursive trees

    Model of the SQLite path of storage/local_product_store/recursive_execution.rs:
    loading and persisting trees with optimistic versions, their binding to the
    workflow run, and the handlers that apply one tree operation between a load
    and a store.  The tables are finite maps from primary keys to rows, limited
    to the columns this code reads or writes; a statement is an update of a map.
    Failures of the database itself are not modelled. *)

From S2P Require Import Prelude Text Json RecursiveExecution Persistence.
Import ExecutionState (RecursiveExecutionState).
Import FailureReason (RecursiveFailureReason).

Local Open Scope Z_scope.

(** ** Tables *)

Record tree_row : Type := mkTreeRow {
  tr_workflow_id : string;
  tr_root_node_id : string;
  tr_schema_version : string;
  tr_tree_json : string;
  tr_version : Z;
  tr_created_at : string;
  tr_updated_at : string;
}.
#[export] Instance eta_tree_row : Eta tree_row := λ r,
  mkTreeRow (tr_workflow_id r) (tr_root_node_id r) (tr_schema_version r) (tr_tree_json r)
    (tr_version r) (tr_created_at r) (tr_updated_at r).

Record index_row : Type := mkIndexRow {
  ix_parent_node_id : option string;
  ix_proposal_id : option string;
  ix_depth : Z;
  ix_objective_fingerprint : string;
  ix_status : string;
  ix_version : Z;
  ix_created_at : string;
  ix_updated_at : string;
}.
#[export] Instance eta_index_row : Eta index_row := λ r,
  mkIndexRow (ix_parent_node_id r) (ix_proposal_id r) (ix_depth r)
    (ix_objective_fingerprint r) (ix_status r) (ix_version r) (ix_created_at r)
    (ix_updated_at r).

Record run_row : Type := mkRunRow {
  wr_workflow_id : string;
  wr_boundaries_json : string;
  wr_status : string;
  wr_pause_reason : option string;
  wr_started_at : option string;
  wr_completed_at : option string;
  wr_updated_at : string;
}.
#[export] Instance eta_run_row : Eta run_row := λ r,
  mkRunRow (wr_workflow_id r) (wr_boundaries_json r) (wr_status r) (wr_pause_reason r)
    (wr_started_at r) (wr_completed_at r) (wr_updated_at r).

Record work_row : Type := mkWorkRow {
  wn_task_type : string;
  wn_status : string;
  wn_node_json : string;
  wn_completed_at : option string;
  wn_leased_at : option string;
  wn_blocked_reason : option string;
  wn_started_at : option string;
  wn_attempt_count : Z;
  wn_timeout_ms : option Z;
  wn_profile_id : option string;
}.
#[export] Instance eta_work_row : Eta work_row := λ r,
  mkWorkRow (wn_task_type r) (wn_status r) (wn_node_json r) (wn_completed_at r)
    (wn_leased_at r) (wn_blocked_reason r) (wn_started_at r) (wn_attempt_count r)
    (wn_timeout_ms r) (wn_profile_id r).

Record edge_row : Type := mkEdgeRow {
  we_from_node_id : string;
  we_to_node_id : string;
  we_edge_type : string;
  we_edge_json : string;
}.

Record event_row : Type := mkEventRow {
  ev_sequence : Z;
  ev_event_id : string;
  ev_run_id : string;
  ev_node_id : option string;
  ev_event_type : string;
  ev_actor : string;
  ev_created_at : string;
  ev_details_json : string;
}.

Record audit_row : Type := mkAuditRow {
  au_created_at : string;
  au_actor : string;
  au_action : string;
  au_resource : string;
  au_details_json : string;
}.

(** The keys are [root_run_id], [(root_run_id, node_id)], [run_id],
    [(run_id, node_id)] and [(run_id, edge_id)]; events and the audit log are
    append-only. *)
Record database : Type := mkDatabase {
  recursive_execution_trees : gmap string tree_row;
  recursive_execution_nodes : gmap (string * string) index_row;
  workflow_runs : gmap string run_row;
  workflow_run_nodes : gmap (string * string) work_row;
  workflow_run_edges : gmap (string * string) edge_row;
  workflow_run_events : list event_row;
  audit_log : list audit_row;
}.
#[export] Instance eta_database : Eta database := λ d,
  mkDatabase (recursive_execution_trees d) (recursive_execution_nodes d) (workflow_runs d)
    (workflow_run_nodes d) (workflow_run_edges d) (workflow_run_events d) (audit_log d).

(** ** Effects

    A function on a connection returns its result and the database it leaves,
    which an error path may have changed; [None] is a panic. *)
Definition store (A : Type) : Type := database → option (result string A * database).

Definition ret {A} (a : A) : store A := λ db, Some (Ok a, db).
Definition fail {A} (e : string) : store A := λ db, Some (Err e, db).
Definition panic {A} : store A := λ _, None.
Definition bind {A B} (m : store A) (k : A → store B) : store B := λ db,
  match m db with
  | Some (Ok a, db) => k a db
  | Some (Err e, db) => Some (Err e, db)
  | None => None
  end.
Notation "x <-! m ;; k" := (bind m (λ x, k))
  (at level 100, m at next level, right associativity) : rust_scope.

(** A query, an update, and a value that is already computed. *)
Definition query {A} (f : database → result string A) : store A := λ db, Some (f db, db).
Definition execute (f : database → database) : store unit := λ db, Some (Ok tt, f db).
Definition lift {A} (r : result string A) : store A := λ db, Some (r, db).
Definition unwrap {A} (o : option A) : store A :=
  match o with Some a => ret a | None => panic end.

Fixpoint for_each {A} (l : list A) (body : A → store unit) : store unit :=
  match l with
  | [] => ret tt
  | a :: l => _u <-! body a ;; for_each l body
  end.

(** A transaction commits on success and rolls back on an error. *)
Definition transaction {A} (m : store A) : store A := λ db,
  match m db with
  | Some (Err e, _) => Some (Err e, db)
  | r => r
  end.

(** [op(..).map_err(|reason| reason.as_str().to_string())?] on a tree. *)
Definition tree_op {A} (r : tree_result A) : store (A * RecursiveTree) :=
  match r with
  | (Ok a, tree) => ret (a, tree)
  | (Err reason, _) => fail (FailureReason.reason_as_str reason)
  end.

(** ** Code outside the repository: serde's decoders *)

Record RecursiveRootAuthority : Type := mkAuthority {
  a_schema_version : string;
  a_scope : RecursiveScope;
  a_capabilities : gset string;
  a_tree_budget : RecursiveBudget;
  a_child_budget : RecursiveBudget;
  a_usage_contract : UsageContract.RecursiveUsageContract;
}.

Class StoreDecoders (V : Type) : Type := {
  tree_from_str : string → result string RecursiveTree;
  authority_from_value : V → option RecursiveRootAuthority;
}.

Definition RECURSIVE_ROOT_AUTHORITY_VERSION : string := "recursive_root_authority.v1".

(** [u64 as i64]. *)
Definition as_i64_cast (version : Z) : Z := i64_wrap version.

(** What [query_row] returns without a row. *)
Definition no_rows : string := "Query returned no rows".
Definition query_row {A} (row : option A) : result string A := ok_or row no_rows.

Section tree_store.
Context {V : Type} `{JV : JsonValue V} `{JT : JsonText V} `{SD : StoreDecoders V}.
Context `{Deps : RecursiveDeps} `{TE : TreeEncoder}.

(** ** Binding to the workflow run *)

Definition recursive_root_creation_receipt_sha256
    (plan_creation_receipt_sha256 root_run_id workflow_id root_node_id agent_id : string)
    : string :=
  let canonical := json_object (list_to_map [
    ("kind", json_string "recursive_root_creation.v1");
    ("plan_creation_receipt_sha256", json_string plan_creation_receipt_sha256);
    ("root_run_id", json_string root_run_id);
    ("workflow_id", json_string workflow_id);
    ("root_node_id", json_string root_node_id);
    ("agent_id", json_string agent_id)]) in
  sha256_hex (json_print canonical).

(** [serde_json::from_value(metadata.get("recursive_root_authority")..)]. *)
Definition read_authority (metadata : V) : result string RecursiveRootAuthority :=
  value <-? ok_or (json_get metadata "recursive_root_authority")
    "recursive root authority binding is missing" ;;
  ok_or (authority_from_value value) "recursive root authority binding is malformed".

Definition read_plan_receipt (metadata : V) : result string string :=
  ok_or (non_empty (json_get_str metadata "creation_receipt_sha256"))
    "recursive root plan creation receipt is missing".

Definition validate_root_authority_binding (metadata : V) (tree : RecursiveTree)
    : result string unit :=
  expected_child_budget <-? ok_or (root_child_budget_limit tree)
    "recursive root child budget authority is missing" ;;
  authority <-? read_authority metadata ;;
  bail negb (bool_decide (a_schema_version authority = RECURSIVE_ROOT_AUTHORITY_VERSION))
    || negb (bool_decide (a_scope authority = root_scope tree))
    || negb (bool_decide (a_capabilities authority = root_capabilities tree))
    || negb (bool_decide (root_budget_limit tree = Some (a_tree_budget authority)))
    || negb (bool_decide (expected_child_budget = a_child_budget authority))
    with Err "recursive root authority is not bound to workflow run" ;;
  plan_receipt <-? read_plan_receipt metadata ;;
  let expected_receipt := recursive_root_creation_receipt_sha256 plan_receipt
    (root_run_id tree) (workflow_id tree) (root_node_id tree) (root_agent_id tree) in
  bail negb (bool_decide (root_creation_receipt_sha256 tree = expected_receipt))
    with Err "recursive root creation receipt is not run-bound" ;;
  Ok ().

Definition parse_boundaries (boundaries_json : string) : result string V :=
  ok_or (json_parse boundaries_json) "recursive workflow boundaries are malformed".

(** The metadata of a root: its workflow node of type [agent_step]. *)
Definition root_metadata (db : database) (run_id node_id : string) : result string string :=
  query_row (row ← workflow_run_nodes db !! (run_id, node_id);
             if bool_decide (wn_task_type row = "agent_step")
             then Some (wn_node_json row) else None).

Definition check_workflow_binding (tree : RecursiveTree) (db : database)
    : result string unit :=
  run <-? ok_or (workflow_runs db !! root_run_id tree)
    "recursive workflow run binding is missing" ;;
  bail negb (bool_decide (wr_workflow_id run = workflow_id tree))
    with Err "recursive workflow identity is not bound to workflow run" ;;
  boundaries <-? parse_boundaries (wr_boundaries_json run) ;;
  bail negb (bool_decide (json_get_str boundaries "tenant_id" = root_tenant_id tree))
    || negb (bool_decide (json_get_str boundaries "workspace_id" = root_workspace_id tree))
    with Err "recursive tenant or workspace identity is not bound to workflow run" ;;
  metadata_json <-? root_metadata db (root_run_id tree) (root_node_id tree) ;;
  metadata <-? ok_or (json_parse metadata_json)
    "recursive root node identity is malformed" ;;
  let root_marker := json_get_str metadata "recursive_root_node_id" in
  bail negb (bool_decide (json_get_str metadata "agent_id" = Some (root_agent_id tree)))
    || negb (bool_decide (root_marker = Some (root_recursive_marker tree)))
    with Err "recursive root node identity is not bound to workflow run" ;;
  validate_root_authority_binding metadata tree.

(** ** Load and persist *)

(** The row and the snapshot in it name the same tree. *)
Definition row_matches (run_id : string) (row : tree_row) (tree : RecursiveTree) : bool :=
  bool_decide (root_run_id tree = run_id)
  && bool_decide (workflow_id tree = tr_workflow_id row)
  && bool_decide (root_node_id tree = tr_root_node_id row)
  && bool_decide (schema_version tree = tr_schema_version row).

Definition load_row (run_id : string) (row : tree_row) (db : database)
    : result string RecursiveTree :=
  tree <-? tree_from_str (tr_tree_json row) ;;
  bail negb (row_matches run_id row tree)
    || negb (bool_decide (schema_version tree = RECURSIVE_SCHEMA_VERSION))
    with Err "recursive tree identity or schema conflict" ;;
  let tree := normalize_loaded_tree tree in
  _u <-? check_workflow_binding tree db ;;
  _u <-? validate_tree_for_persistence tree ;;
  Ok tree.

Definition load_recursive_tree (run_id : string) (db : database)
    : result string (option RecursiveTree) :=
  match recursive_execution_trees db !! run_id with
  | None => Ok None
  | Some row => tree <-? load_row run_id row db ;; Ok (Some tree)
  end.

(** [let Some(mut tree) = load(..)? else { return Err("recursive_tree_missing") }]. *)
Definition load_existing (run_id : string) : store RecursiveTree :=
  loaded <-! query (load_recursive_tree run_id) ;;
  lift (ok_or loaded "recursive_tree_missing").

Definition check_expected (run_id : string) (expected_version : Z) (db : database)
    : result string unit :=
  let current := tr_version <$> recursive_execution_trees db !! run_id in
  let matches :=
    if expected_version =? 0 then is_none current
    else bool_decide (current = Some (as_i64_cast expected_version)) in
  if matches then Ok () else Err "stale_parent".

(** [INSERT .. ON CONFLICT(root_run_id) DO UPDATE]: [created_at] is kept. *)
Definition upsert_tree (tree : RecursiveTree) (tree_json now : string) (db : database)
    : database :=
  let created_at :=
    match recursive_execution_trees db !! root_run_id tree with
    | Some row => tr_created_at row
    | None => now
    end in
  db <| recursive_execution_trees := <[root_run_id tree :=
    mkTreeRow (workflow_id tree) (root_node_id tree) (schema_version tree) tree_json
      (as_i64_cast (t_version tree)) created_at now]> (recursive_execution_trees db) |>.

Definition upsert_node (tree : RecursiveTree) (now : string) (db : database)
    (node : RecursiveNode) : database :=
  let key := (root_run_id tree, n_node_id node) in
  let created_at :=
    match recursive_execution_nodes db !! key with
    | Some row => ix_created_at row
    | None => now
    end in
  db <| recursive_execution_nodes := <[key :=
    mkIndexRow (n_parent_node_id node) (n_proposal_id node) (n_depth node)
      (n_objective_fingerprint node) (NodeStatus.status_as_str (n_status node))
      (as_i64_cast (n_version node)) created_at now]> (recursive_execution_nodes db) |>.

(** The statements that write a tree: its snapshot, then the index of its nodes.
    The constraints of the schema on an index row (its depth, the length of its
    fingerprint, one row per fingerprint and run) are not modelled: validation has
    checked them for the nodes of the tree, and only a row of a node that the tree
    no longer has could violate the last one; no operation removes a node. *)
Definition write_tree (tree : RecursiveTree) (tree_json now : string) (db : database)
    : database :=
  foldl (upsert_node tree now) (upsert_tree tree tree_json now db) (btree_values (nodes tree)).

Definition persist_recursive_tree_inner (tree : RecursiveTree) (now : string)
    (expected_version : option Z) (require_workflow_binding : bool) : store unit :=
  tree_json <-! lift (validate_tree_for_persistence tree) ;;
  _u <-! match expected_version with
         | Some expected_version => query (check_expected (root_run_id tree) expected_version)
         | None => ret tt
         end ;;
  _u <-! (if require_workflow_binding then query (check_workflow_binding tree) else ret tt) ;;
  execute (write_tree tree tree_json now).

Definition persist_recursive_tree (tree : RecursiveTree) (now : string)
    (expected_version : option Z) : store unit :=
  persist_recursive_tree_inner tree now expected_version true.

Definition persist_recursive_tree_control_state (tree : RecursiveTree) (now : string)
    (expected_version : option Z) : store unit :=
  persist_recursive_tree_inner tree now expected_version false.

Definition save_recursive_tree_with_expected_version (tree : RecursiveTree) (now : string)
    (expected_version : Z) : store unit :=
  if negb (bool_decide (schema_version tree = RECURSIVE_SCHEMA_VERSION))
  then fail "recursive tree schema version mismatch"
  else
    tree_json <-! lift (validate_tree_for_persistence tree) ;;
    transaction (
      _u <-! query (check_expected (root_run_id tree) expected_version) ;;
      _u <-! query (check_workflow_binding tree) ;;
      execute (write_tree tree tree_json now)).

Definition save_recursive_tree (tree : RecursiveTree) (now : string) : store unit :=
  save_recursive_tree_with_expected_version tree now
    (u64_saturating_sub (t_version tree) 1).

(** ** The root of a run *)

Definition recursive_root_tree_from_metadata (run_id wf_id node_id : string)
    (metadata boundaries : V) : result string RecursiveTree :=
  bail negb (bool_decide (json_get_str metadata "recursive_root_node_id" = Some node_id))
    || negb (bool_decide (json_get_str metadata "task_type" = Some "agent_step"))
    with Err "recursive_node_identity_malformed" ;;
  agent_id <-? ok_or (non_empty (json_get_str metadata "agent_id"))
    "recursive root agent identity is missing" ;;
  objective <-? ok_or (non_empty (json_get_str metadata "agent_objective"))
    "recursive root objective is missing" ;;
  plan_receipt <-? read_plan_receipt metadata ;;
  authority <-? read_authority metadata ;;
  bail negb (bool_decide (a_schema_version authority = RECURSIVE_ROOT_AUTHORITY_VERSION))
    || bool_decide (a_capabilities authority = ∅)
    || negb (bool_decide (scope_capabilities (a_scope authority) = a_capabilities authority))
    || negb (can_spend (a_tree_budget authority) (a_child_budget authority))
    || negb (is_nonzero (a_tree_budget authority))
    || negb (is_nonzero (a_child_budget authority))
    with Err "recursive root authority binding is inconsistent" ;;
  let tree := new_with_root_node_id run_id wf_id node_id objective (a_scope authority)
    (a_capabilities authority) (a_tree_budget authority) in
  let tree := tree <| root_child_budget_limit := Some (a_child_budget authority) |> in
  root <-? ok_or (nodes tree !! node_id) "recursive root node is missing" ;;
  let root := root <| n_child_budget := a_child_budget authority |>
                   <| n_child_budget_limit := a_child_budget authority |> in
  let tree := tree <| nodes := <[node_id := root]> (nodes tree) |> in
  let receipt := recursive_root_creation_receipt_sha256 plan_receipt run_id wf_id node_id
    agent_id in
  match bind_root_identity agent_id node_id receipt tree with
  | (Err reason, _) => Err (FailureReason.reason_as_str reason)
  | (Ok _, tree) =>
    match bind_root_execution_scope (json_get_str boundaries "tenant_id")
            (json_get_str boundaries "workspace_id") tree with
    | (Err reason, _) => Err (FailureReason.reason_as_str reason)
    | (Ok _, tree) => Ok tree
    end
  end.

Definition ensure_recursive_root_tree (run_id wf_id node_id : string) (metadata : V)
    (now : string) : store unit :=
  loaded <-! query (load_recursive_tree run_id) ;;
  match loaded with
  | Some tree =>
    if bool_decide (root_node_id tree = node_id) then ret tt
    else fail "recursive root conflicts with persisted tree"
  | None =>
    run <-! query (λ db, query_row (workflow_runs db !! run_id)) ;;
    boundaries <-! lift (parse_boundaries (wr_boundaries_json run)) ;;
    tree <-! lift (recursive_root_tree_from_metadata run_id wf_id node_id metadata boundaries) ;;
    persist_recursive_tree tree now (Some 0)
  end.

(** ** Handlers *)

Definition contains_node (tree : RecursiveTree) (node_id : string) : store unit :=
  if is_some (nodes tree !! node_id) then ret tt else fail "recursive_node_missing".

Definition sync_recursive_lease (env : env_vars) (run_id node_id lease_id now : string)
    : store unit :=
  tree <-! load_existing run_id ;;
  _u <-! contains_node tree node_id ;;
  let expected_version := t_version tree in
  r <-! tree_op (lease_node env node_id lease_id tree) ;;
  persist_recursive_tree r.2 now (Some expected_version).

Definition recursive_retry_allowed (env : env_vars) (run_id node_id : string)
    (usage : RecursiveBudget) : store bool :=
  tree <-! load_existing run_id ;;
  _u <-! contains_node tree node_id ;;
  r <-! tree_op (retry_allowed env node_id usage tree, tree) ;;
  ret r.1.

(** Failures of the tree itself, which the workflow has not reported. *)
Definition closed_by_tree (node : RecursiveNode) : bool :=
  is_some (n_parent_node_id node)
  && bool_decide (n_status node = NodeStatus.Failed)
  && match n_failure_reason node with
     | Some FailureReason.TreeBudgetExhausted | Some FailureReason.TerminalFailed
     | Some FailureReason.RecursiveUsageUnavailable => true
     | _ => false
     end.

(** [object.insert("status", "failed"); object.insert("completed_at", now)]. *)
Definition fail_node_json (node_json : V) (now : string) : option V :=
  object ← as_object node_json;
  Some (json_object (<["completed_at" := json_string now]>
    (<["status" := json_string "failed"]> object))).

(** [status IN ('pending','running')]. *)
Definition unfinished (row : work_row) : bool :=
  bool_decide (wn_status row = "pending") || bool_decide (wn_status row = "running").

Definition sync_terminal_workflow_node (run_id now : string) (node : RecursiveNode)
    : store unit :=
  let key := (run_id, n_node_id node) in
  row <-! query (λ db, Ok (workflow_run_nodes db !! key)) ;;
  match row with
  | None => ret tt
  | Some row =>
    if negb (unfinished row) then ret tt
    else
      node_json <-! lift (ok_or (json_parse (wn_node_json row))
        "recursive workflow node binding is malformed") ;;
      if negb (bool_decide (json_get_str node_json "recursive_node_id" = Some (n_node_id node)))
      then fail "recursive workflow node binding is missing"
      else
        let node_json := default node_json (fail_node_json node_json now) in
        execute (λ db, db <| workflow_run_nodes := <[key := row
          <| wn_status := "failed" |>
          <| wn_completed_at := Some now |>
          <| wn_leased_at := None |>
          <| wn_blocked_reason := FailureReason.reason_as_str <$> n_failure_reason node |>
          <| wn_node_json := json_print node_json |>]> (workflow_run_nodes db) |>)
  end.

Definition sync_terminal_workflow_nodes (tree : RecursiveTree) (now : string) : store unit :=
  for_each (filter (λ node, closed_by_tree node = true) (btree_values (nodes tree)))
    (sync_terminal_workflow_node (root_run_id tree) now).

Definition sync_recursive_stale_recovery (run_id node_id lease_id : string) (retry : bool)
    (now : string) : store string :=
  tree <-! load_existing run_id ;;
  let expected_version := t_version tree in
  r <-! tree_op (recover_stale_lease node_id lease_id retry tree) ;;
  tree <-! (if retry then ret r.2
            else unwrap (finalize_terminal_tree (Some node_id)
                   (release_node_reservation_for_persistence node_id r.2))) ;;
  _u <-! sync_terminal_workflow_nodes tree now ;;
  _u <-! persist_recursive_tree tree now (Some expected_version) ;;
  ret r.1.

(** The tree a completion leaves: the attempt is retried or closed. *)
Definition settle_attempt (node_id : string) (retry_allowed : bool) (tree : RecursiveTree)
    : store RecursiveTree :=
  if retry_allowed then
    r <-! tree_op (retry_node node_id tree) ;; ret r.2
  else
    let tree := release_node_reservation_for_persistence node_id tree in
    let failed :=
      match nodes tree !! node_id with
      | Some node => bool_decide (n_status node = NodeStatus.Failed)
      | None => false
      end in
    unwrap (finalize_terminal_tree (if failed then Some node_id else None) tree).

Definition sync_recursive_completion_with_receipt (env : env_vars)
    (run_id node_id lease_id usage_receipt_id : string) (success retry : bool)
    (usage : RecursiveBudget) (now : string) : store string :=
  tree <-! load_existing run_id ;;
  _u <-! contains_node tree node_id ;;
  let expected_version := t_version tree in
  retry_allowed <-! (if retry
                     then r <-! tree_op (retry_allowed env node_id usage tree, tree) ;; ret r.1
                     else ret false) ;;
  r <-! tree_op (complete_node_with_usage_receipt node_id lease_id usage_receipt_id success
                   usage tree) ;;
  tree <-! settle_attempt node_id retry_allowed r.2 ;;
  _u <-! sync_terminal_workflow_nodes tree now ;;
  status <-! lift (ok_or (NodeStatus.status_as_str ∘ n_status <$> nodes tree !! node_id)
    "recursive_node_missing") ;;
  _u <-! persist_recursive_tree tree now (Some expected_version) ;;
  ret status.

Definition sync_recursive_completion (env : env_vars) (run_id node_id lease_id : string)
    (success retry : bool) (usage : RecursiveBudget) (now : string) : store string :=
  sync_recursive_completion_with_receipt env run_id node_id lease_id lease_id success retry
    usage now.

Definition sync_recursive_root_completion_with_receipt
    (run_id lease_id usage_receipt_id : string) (success : bool)
    (usage : RecursiveBudget) (now : string) : store string :=
  tree <-! load_existing run_id ;;
  let expected_version := t_version tree in
  completed <-! unwrap (complete_root_with_usage_receipt lease_id usage_receipt_id success
                          usage tree) ;;
  r <-! tree_op completed ;;
  tree <-! unwrap (finalize_terminal_tree None r.2) ;;
  _u <-! sync_terminal_workflow_nodes tree now ;;
  root <-! unwrap (nodes tree !! root_node_id tree) ;;
  _u <-! persist_recursive_tree tree now (Some expected_version) ;;
  ret (NodeStatus.status_as_str (n_status root)).

Definition sync_recursive_root_completion (run_id lease_id : string) (success : bool)
    (usage : RecursiveBudget) (now : string) : store string :=
  sync_recursive_root_completion_with_receipt run_id lease_id lease_id success usage now.

Definition record_recursive_late_usage (run_id node_id attempt_receipt : string)
    (usage : RecursiveBudget) (now : string) : store bool :=
  tree <-! load_existing run_id ;;
  _u <-! contains_node tree node_id ;;
  let expected_version := t_version tree in
  r <-! tree_op (record_late_usage node_id attempt_receipt usage tree) ;;
  _u <-! sync_terminal_workflow_nodes r.2 now ;;
  _u <-! persist_recursive_tree r.2 now (Some expected_version) ;;
  ret r.1.

Definition record_recursive_root_late_usage (run_id attempt_receipt : string)
    (usage : RecursiveBudget) (now : string) : store bool :=
  tree <-! load_existing run_id ;;
  let expected_version := t_version tree in
  r <-! tree_op (record_root_late_usage attempt_receipt usage tree) ;;
  _u <-! sync_terminal_workflow_nodes r.2 now ;;
  _u <-! persist_recursive_tree r.2 now (Some expected_version) ;;
  ret r.1.

(** Fail one node for good and close the tree. *)
Definition terminal_failure (node_id : string) (node : RecursiveNode)
    (reason : RecursiveFailureReason) (tree : RecursiveTree) : RecursiveTree :=
  let node := node <| n_failure_reason := Some reason |>
                   <| n_status := NodeStatus.Failed |>
                   <| n_version := u64_incr (n_version node) |> in
  let tree := tree <| nodes := <[node_id := node]> (nodes tree) |>
                   <| execution_state := ExecutionState.TerminalFailed |> in
  let tree := (terminalize_remaining_nodes (Some node_id) FailureReason.TerminalFailed tree).2 in
  tree <| t_version := u64_incr (t_version tree) |>.

Definition sync_recursive_terminal_failure (env : env_vars) (run_id node_id lease_id : string)
    (reason : RecursiveFailureReason) (now : string) : store string :=
  _u <-! sync_recursive_completion env run_id node_id lease_id false false budget_default now ;;
  tree <-! load_existing run_id ;;
  let expected_version := t_version tree in
  node <-! lift (ok_or (nodes tree !! node_id)
    (FailureReason.reason_as_str FailureReason.RecursiveNodeMissing)) ;;
  let tree := terminal_failure node_id node reason tree in
  _u <-! sync_terminal_workflow_nodes tree now ;;
  _u <-! persist_recursive_tree tree now (Some expected_version) ;;
  ret "failed".

(** A root whose workflow node is malformed: the binding cannot be checked. *)
Definition corrupt_root_failure (root : RecursiveNode) (reason : RecursiveFailureReason)
    (tree : RecursiveTree) : RecursiveTree :=
  let tree :=
    match n_lease_id root with
    | Some lease_id => tree <| active_leases := active_leases tree ∖ {[lease_id]} |>
    | None => tree
    end in
  terminal_failure (root_node_id tree) (root <| n_lease_id := None |>) reason tree.

(** [UPDATE recursive_execution_nodes SET status, version, updated_at]. *)
Definition update_node_index (run_id now : string) (db : database) (node : RecursiveNode)
    : database :=
  db <| recursive_execution_nodes := alter (λ row, row
      <| ix_status := NodeStatus.status_as_str (n_status node) |>
      <| ix_version := as_i64_cast (n_version node) |>
      <| ix_updated_at := now |>)
    (run_id, n_node_id node) (recursive_execution_nodes db) |>.

Definition sync_corrupt_recursive_root_terminal_failure (run_id : string)
    (reason : RecursiveFailureReason) (now : string) : store string :=
  row <-! query (λ db, query_row (recursive_execution_trees db !! run_id)) ;;
  tree <-! lift (tree_from_str (tr_tree_json row)) ;;
  let tree := normalize_loaded_tree tree in
  root <-! lift (ok_or (nodes tree !! root_node_id tree) "recursive_node_missing") ;;
  let tree := corrupt_root_failure root reason tree in
  _u <-! sync_terminal_workflow_nodes tree now ;;
  canonical <-! lift (validate_tree_for_persistence tree) ;;
  current <-! query (λ db, Ok (recursive_execution_trees db !! run_id)) ;;
  match current with
  | Some current =>
    if bool_decide (tr_version current = tr_version row) then
      _u <-! execute (λ db, db <| recursive_execution_trees := <[run_id := current
        <| tr_tree_json := canonical |>
        <| tr_version := as_i64_cast (t_version tree) |>
        <| tr_updated_at := now |>]> (recursive_execution_trees db) |>) ;;
      _u <-! execute (λ db, foldl (update_node_index run_id now) db (btree_values (nodes tree))) ;;
      ret "failed"
    else fail "stale_parent"
  | None => fail "stale_parent"
  end.

Definition sync_recursive_root_terminal_failure (run_id receipt_id : string)
    (reason : RecursiveFailureReason) (now : string) : store string :=
  if bool_decide (reason = FailureReason.RecursiveNodeIdentityMalformed)
  then sync_corrupt_recursive_root_terminal_failure run_id reason now
  else
    _u <-! sync_recursive_root_completion run_id receipt_id false budget_default now ;;
    tree <-! load_existing run_id ;;
    let expected_version := t_version tree in
    root <-! lift (ok_or (nodes tree !! root_node_id tree)
      (FailureReason.reason_as_str FailureReason.RecursiveNodeMissing)) ;;
    let tree := terminal_failure (root_node_id tree) root reason tree in
    _u <-! sync_terminal_workflow_nodes tree now ;;
    _u <-! persist_recursive_tree tree now (Some expected_version) ;;
    ret "failed".

(** ** Rejections after a lost race

    [BTreeSet::difference] and the map are visited in key order. *)
Definition record_recursive_cas_rejection (candidate : RecursiveTree) (now : string)
    : store (list (string * string)) :=
  current <-! load_existing (root_run_id candidate) ;;
  let expected_version := t_version current in
  let lost := sort_strings (elements (accepted_proposals candidate ∖ accepted_proposals current)) in
  let rejected := (λ proposal_id,
    (proposal_id, FailureReason.reason_as_str FailureReason.StaleParent)) <$> lost in
  let current := foldl (λ tree proposal_id,
    record_rejection proposal_id FailureReason.StaleParent tree) current lost in
  let '(current, rejected) := foldl (λ '(current, rejected) '(proposal_id, evidence),
      if is_none (rejected_proposals current !! proposal_id)
         && negb (bool_decide (proposal_id ∈ accepted_proposals current))
      then (record_rejection_evidence proposal_id evidence current,
            rejected ++ [(proposal_id, FailureReason.reason_as_str (reason_code evidence))])
      else (current, rejected))
    (current, rejected) (btree_iter (rejected_proposals candidate)) in
  _u <-! match rejected with
         | [] => ret tt
         | _ => persist_recursive_tree current now (Some expected_version)
         end ;;
  ret rejected.

(** ** Operator pause and kill *)

Definition effective_state (paused : bool) (terminal_reason : option string)
    (tree : RecursiveTree) : RecursiveExecutionState :=
  let budget_exhausted :=
    bool_decide (execution_state tree = ExecutionState.BudgetExhausted)
    || existsb (λ node,
         bool_decide (n_failure_reason node = Some FailureReason.TreeBudgetExhausted))
         (btree_values (nodes tree)) in
  if budget_exhausted then ExecutionState.BudgetExhausted
  else if is_settled (execution_state tree) then execution_state tree
  else if paused && bool_decide (terminal_reason =
            Some (FailureReason.reason_as_str FailureReason.RecursiveKillSwitchActive))
  then ExecutionState.KillStopped
  else if paused then ExecutionState.OperatorPaused
  else if bool_decide (execution_state tree = ExecutionState.OperatorPaused)
  then ExecutionState.Running
  else execution_state tree.

Definition terminal_node_reason (s : RecursiveExecutionState) : RecursiveFailureReason :=
  match s with
  | ExecutionState.KillStopped => FailureReason.RecursiveKillSwitchActive
  | ExecutionState.BudgetExhausted => FailureReason.TreeBudgetExhausted
  | ExecutionState.TerminalFailed => FailureReason.TerminalFailed
  | _ => FailureReason.OperatorPaused
  end.

Definition stops_nodes (s : RecursiveExecutionState) : bool :=
  match s with
  | ExecutionState.KillStopped | ExecutionState.BudgetExhausted
  | ExecutionState.TerminalFailed => true
  | _ => false
  end.

Definition stopped (node : RecursiveNode) : bool :=
  (is_some (n_parent_node_id node) || is_some (n_lease_id node)) && is_live (n_status node).

Definition stop_node (reason : RecursiveFailureReason) (node : RecursiveNode) : RecursiveNode :=
  if stopped node
  then node <| n_lease_id := None |>
            <| n_status := NodeStatus.Failed |>
            <| n_failure_reason := Some reason |>
            <| n_version := u64_incr (n_version node) |>
  else node.

(** The nodes that are stopped, in key order, and the tree without them. *)
Definition stop_nodes (reason : RecursiveFailureReason) (tree : RecursiveTree)
    : list string * RecursiveTree :=
  let hit := filter (λ node, stopped node = true) (btree_values (nodes tree)) in
  let terminated := n_node_id <$> hit in
  let tree := tree
    <| active_leases := active_leases tree ∖ list_to_set (omap n_lease_id hit) |>
    <| nodes := stop_node reason <$> nodes tree |> in
  (terminated,
   match terminated with
   | [] => tree
   | _ => release_all (tree <| t_version := u64_incr (t_version tree) |>) terminated
   end).

Definition reconcile_tree (state : RecursiveExecutionState) (tree : RecursiveTree)
    : list string * RecursiveTree :=
  let tree :=
    if bool_decide (execution_state tree = state) then tree
    else tree <| execution_state := state |> <| t_version := u64_incr (t_version tree) |> in
  if stops_nodes state then stop_nodes (terminal_node_reason state) tree else ([], tree).

Definition append_audit (now actor action resource : string) (details : list (string * V))
    : store unit :=
  execute (λ db, db <| audit_log := audit_log db ++ [mkAuditRow now actor action resource
    (json_print (json_object (list_to_map details)))] |>).

(** A workflow row that still belongs to a live lease. *)
Definition still_live (row : work_row) : bool :=
  (bool_decide (wn_status row = "running") && is_some (wn_leased_at row))
  || (bool_decide (wn_status row = "pending") && is_none (wn_leased_at row)).

(** The stored JSON of a stopped node, when it is bound to that node. *)
Definition stopped_node_json (node_id node_json_text now : string) : option string :=
  value ← json_parse node_json_text;
  let bound :=
    match json_get value "recursive_node_id" with
    | Some v => as_str v
    | None => json_get_str value "recursive_root_node_id"
    end in
  if bool_decide (bound = Some node_id)
  then json_print <$> fail_node_json value now else None.

Definition stop_workflow_node (run_id now : string) (reason : RecursiveFailureReason)
    (node_id : string) : store unit :=
  let key := (run_id, node_id) in
  found <-! query (λ db, Ok (workflow_runs db !! run_id, workflow_run_nodes db !! key)) ;;
  match found with
  | (Some _, Some row) =>
    if negb (still_live row) then fail "recursive workflow node terminalization raced"
    else
      let terminal_node_json := stopped_node_json node_id (wn_node_json row) now in
      _u <-! (if is_none terminal_node_json
              then append_audit now "scheduler" "recursive.workflow_binding.malformed" run_id
                     [("root_run_id", json_string run_id); ("node_id", json_string node_id);
                      ("preserved_as_evidence", json_bool true)]
              else ret tt) ;;
      execute (λ db, db <| workflow_run_nodes := <[key := row
        <| wn_status := "failed" |>
        <| wn_completed_at := Some now |>
        <| wn_leased_at := None |>
        <| wn_blocked_reason := Some (FailureReason.reason_as_str reason) |>
        <| wn_node_json := default (wn_node_json row) terminal_node_json |>]>
          (workflow_run_nodes db) |>)
  | _ => ret tt
  end.

(** The audit trail of one changed tree and the workflow rows of its stopped nodes. *)
Definition report_reconciled (run_id now : string) (row : tree_row)
    (state : RecursiveExecutionState) (terminated : list string) : store unit :=
  let reason := terminal_node_reason state in
  _u <-! append_audit now "scheduler"
    (if bool_decide (state = ExecutionState.Running)
     then "recursive.execution.resumed" else "recursive.execution.paused") run_id
    [("root_run_id", json_string run_id);
     ("workflow_id", json_string (tr_workflow_id row));
     ("terminalized_node_count", json_int (vec_len terminated))] ;;
  _u <-! match terminated with
         | [] => ret tt
         | _ => append_audit now "scheduler" "recursive.execution.leases_terminalized" run_id
                  [("root_run_id", json_string run_id);
                   ("reason", json_string (FailureReason.reason_as_str reason));
                   ("node_count", json_int (vec_len terminated))]
         end ;;
  for_each terminated (stop_workflow_node run_id now reason).

(** The loop body for one stored tree; the number of trees it changed. *)
Definition reconcile_row (paused : bool) (terminal_reason : option string) (now : string)
    (run_id : string) (row : tree_row) : store nat :=
  tree <-! lift (tree_from_str (tr_tree_json row)) ;;
  if negb (row_matches run_id row tree)
  then fail "recursive tree identity or schema conflict"
  else
    let tree := normalize_loaded_tree tree in
    _u <-! lift (validate_tree_for_persistence tree) ;;
    let expected_version := t_version tree in
    let state := effective_state paused terminal_reason tree in
    let '(terminated, tree) := reconcile_tree state tree in
    if t_version tree =? expected_version then ret 0%nat
    else
      _u <-! persist_recursive_tree_control_state tree now (Some expected_version) ;;
      _u <-! report_reconciled run_id now row state terminated ;;
      ret 1%nat.

Fixpoint reconcile_rows (paused : bool) (terminal_reason : option string) (now : string)
    (rows : list (string * tree_row)) : store nat :=
  match rows with
  | [] => ret 0%nat
  | (run_id, row) :: rows =>
    changed <-! reconcile_row paused terminal_reason now run_id row ;;
    rest <-! reconcile_rows paused terminal_reason now rows ;;
    ret (changed + rest)%nat
  end.

(** The scan of the table has no [ORDER BY]. *)
Definition set_recursive_execution_paused `{HO : HashOrder} (paused : bool)
    (terminal_reason : option string) (now : string) : store nat :=
  transaction (
    rows <-! query (λ db, Ok (hash_iter (recursive_execution_trees db))) ;;
    reconcile_rows paused terminal_reason now rows).
End tree_store.
