(* ===== verification/TreeStoreProps.v ===== *)
(** * What the tree store keeps

    Every row decodes to a tree that passes the checks, and a handler changes at
    most one tree, by one transition that counts its version up and keeps its
    identity, authority and lineage. *)

From S2P Require Import Prelude Text Json RecursiveExecution TreeMoves Persistence PersistenceProps TreeStore.
Import ExecutionState (RecursiveExecutionState).
Import FailureReason (RecursiveFailureReason).

Local Open Scope Z_scope.

(** ** Effects *)

Lemma bind_inv {A B} (m : store A) (k : A → store B) db r db' :
  bind m k db = Some (r, db') →
  (∃ e, m db = Some (Err e, db') ∧ r = Err e)
  ∨ ∃ a db1, m db = Some (Ok a, db1) ∧ k a db1 = Some (r, db').
Proof. unfold bind. intros H. repeat case_match; simplify_eq; eauto. Qed.

Lemma query_inv {A} (f : database → result string A) db r db' :
  query f db = Some (r, db') → r = f db ∧ db' = db.
Proof. unfold query. naive_solver. Qed.

Lemma lift_inv {A} (x : result string A) db r db' :
  lift x db = Some (r, db') → r = x ∧ db' = db.
Proof. unfold lift. naive_solver. Qed.

Lemma tree_op_inv {A} (x : tree_result A) db r db' :
  tree_op x db = Some (r, db') →
  db' = db ∧ ((∃ e, r = Err e) ∨ ∃ a t, x = (Ok a, t) ∧ r = Ok (a, t)).
Proof. unfold tree_op, ret, fail. destruct x as [[?|?] ?]; naive_solver. Qed.

Lemma unwrap_inv {A} (o : option A) db r db' :
  unwrap o db = Some (r, db') → ∃ a, o = Some a ∧ r = Ok a ∧ db' = db.
Proof. unfold unwrap, ret, panic. destruct o; naive_solver. Qed.

Lemma for_each_inv {A} (R : database → database → Prop) `{!PreOrder R} (l : list A) body :
  (∀ a db r db', body a db = Some (r, db') → R db db') →
  ∀ db r db', for_each l body db = Some (r, db') → R db db'.
Proof.
  intros Hb. induction l as [|a l IH]; intros db r db' H; cbn [for_each] in H.
  - by injection H as _ <-.
  - apply bind_inv in H as [(e & H & _)|(u & db1 & H1 & H)]; [by eapply Hb|].
    transitivity db1; [by eapply Hb|by eapply IH].
Qed.

(** The tables of trees are untouched. *)
Definition same_trees (db db' : database) : Prop :=
  recursive_execution_trees db' = recursive_execution_trees db
  ∧ recursive_execution_nodes db' = recursive_execution_nodes db.

#[export] Instance same_trees_equiv : Equivalence same_trees.
Proof. split; unfold same_trees; [done|intros ?? []; done|intros ??? [-> ->] [-> ->]; done]. Qed.

Section props.
Context {V : Type} `{JV : JsonValue V} `{JT : JsonText V} `{SD : StoreDecoders V}.
Context `{Deps : RecursiveDeps} `{TE : TreeEncoder}.

(** serde reads back what it wrote. *)
Hypothesis roundtrip : ∀ t s, tree_to_string t = Ok s → tree_from_str s = Ok t.

(** ** Rows *)

Record row_ok (id : string) (row : tree_row) (t : RecursiveTree) : Prop := {
  rk_decodes : tree_from_str (tr_tree_json row) = Ok t;
  rk_valid : validate_tree_for_persistence t = Ok (tr_tree_json row);
  rk_keyed : keyed t;
  rk_id : root_run_id t = id;
  rk_workflow : tr_workflow_id row = workflow_id t;
  rk_root : tr_root_node_id row = root_node_id t;
  rk_schema : tr_schema_version row = schema_version t;
  rk_version : tr_version row = as_i64_cast (t_version t);
}.

Definition store_ok (db : database) : Prop :=
  ∀ id row, recursive_execution_trees db !! id = Some row → ∃ t, row_ok id row t.

(** The tree stored for a run. *)
Definition stored (db : database) (id : string) : option RecursiveTree :=
  row ← recursive_execution_trees db !! id;
  match tree_from_str (tr_tree_json row) with Ok t => Some t | Err _ => None end.

Lemma stored_row db id row t :
  recursive_execution_trees db !! id = Some row → row_ok id row t → stored db id = Some t.
Proof. intros H Hr. unfold stored. rewrite H. cbn. by rewrite (rk_decodes _ _ _ Hr). Qed.

Lemma stored_Some db id t :
  store_ok db → stored db id = Some t →
  ∃ row, recursive_execution_trees db !! id = Some row ∧ row_ok id row t.
Proof.
  intros Hs. unfold stored. destruct (_ !! id) as [row|] eqn:E; [|done]. cbn.
  destruct (Hs _ _ E) as [t' Hr]. rewrite (rk_decodes _ _ _ Hr). intros [= <-]. eauto.
Qed.

Lemma stored_None db id :
  store_ok db → stored db id = None → recursive_execution_trees db !! id = None.
Proof.
  intros Hs. unfold stored. destruct (_ !! id) as [row|] eqn:E; [|done]. cbn.
  destruct (Hs _ _ E) as [t' Hr]. by rewrite (rk_decodes _ _ _ Hr).
Qed.

(** A tree that passes the checks carries its limit. *)
Lemma validate_limit t json :
  validate_tree_for_persistence t = Ok json → normalize_loaded_tree t = t.
Proof.
  unfold validate_tree_for_persistence. intros H. passed H.
  match goal with Hr : check_root t = Ok _ |- _ =>
    unfold check_root in Hr; passed Hr; checks end.
  match goal with Hn : nodes t !! root_node_id t = Some ?r |- _ => rename r into root;
    assert (Hin : root ∈ btree_values (nodes t)) by (apply elem_of_btree_values; eauto) end.
  assert (Hp : is_none (n_parent_node_id root) = true) by (destruct (n_parent_node_id root); done).
  match goal with Hn : validate_nodes _ _ _ = Ok _ |- _ => rename Hn into Hns end.
  revert Hin Hns. generalize (btree_values (nodes t)) tallies_empty.
  intros ns. induction ns as [|n ns IH]; intros a Hin Hns; [by apply not_elem_of_nil in Hin|].
  cbn [validate_nodes] in Hns. passed Hns. apply elem_of_cons in Hin as [<-|Hin]; [|by eapply IH].
  match goal with Hv : validate_node _ _ _ = Ok _ |- _ => unfold validate_node in Hv; passed Hv end.
  match goal with Hb : node_bounds _ _ = Ok _, Hg : node_budgets _ _ = Ok _ |- _ =>
    unfold node_bounds in Hb; passed Hb; unfold node_budgets in Hg; passed Hg end.
  checks. rewrite Hp, andb_true_r in *. checks.
  rewrite bool_decide_true in * by done.
  match goal with Hg : (if _ then Err _ else _) = Ok _ |- _ => passed Hg end. checks.
  unfold normalize_loaded_tree. by destruct (root_budget_limit t).
Qed.

(** ** Evolution of one tree *)

(** Unchanged, or moved on by 1 to [k] versions. *)
Definition evolves (k : Z) (o o' : option RecursiveTree) : Prop :=
  o' = o ∨ ∃ t t', o = Some t ∧ o' = Some t' ∧ moves 1 k t t'.

Lemma evolves_trans k1 k2 o1 o2 o3 :
  0 <= k1 → 0 <= k2 → evolves k1 o1 o2 → evolves k2 o2 o3 → evolves (k1 + k2) o1 o3.
Proof.
  intros ?? [->|(t1 & t2 & -> & -> & M1)] [->|(t2' & t3 & E2 & -> & M2)]; [by left|..];
    right; simplify_eq.
  - exists t2', t3. split_and!; [done..|]. eapply moves_weaken; [exact M2|lia..].
  - exists t1, t2. split_and!; [done..|]. eapply moves_weaken; [exact M1|lia..].
  - exists t1, t3. split_and!; [done..|].
    eapply moves_weaken; [eapply moves_trans; [exact M1|exact M2]|lia..].
Qed.

(** What a handler does to the store of trees. *)
Record effect (k : Z) (db db' : database) : Prop := {
  ef_ok : store_ok db → store_ok db';
  ef_trees : store_ok db → ∀ id, evolves k (stored db id) (stored db' id);
}.

Lemma effect_same k db db' : same_trees db db' → effect k db db'.
Proof.
  intros [E _]. split; unfold store_ok, stored; rewrite E; [done|]. by left.
Qed.

Lemma effect_refl k db : effect k db db.
Proof. by apply effect_same. Qed.

Lemma effect_trans k1 k2 db1 db2 db3 :
  0 <= k1 → 0 <= k2 → effect k1 db1 db2 → effect k2 db2 db3 → effect (k1 + k2) db1 db3.
Proof.
  intros ?? [O1 T1] [O2 T2]. split; [by auto|]. intros Hs id.
  eapply evolves_trans; [done|done|by apply T1|by apply T2, O1].
Qed.

Lemma effect_weaken k k' db db' : effect k db db' → k <= k' → effect k' db db'.
Proof.
  intros [O T] Hk. split; [done|]. intros Hs id. destruct (T Hs id) as [?|(t&t'&?&?&M)];
    [by left|]. right. exists t, t'. split_and!; [done..|]. eapply moves_weaken; [exact M|lia..].
Qed.

(** ** Writes *)

Lemma write_tree_trees t json now db :
  recursive_execution_trees (write_tree t json now db)
  = recursive_execution_trees (upsert_tree t json now db).
Proof.
  unfold write_tree. generalize (upsert_tree t json now db) (btree_values (nodes t)).
  intros db1 ns. revert db1. induction ns as [|n ns IH]; intros db1; [done|].
  cbn [foldl]. by rewrite IH.
Qed.

Lemma write_tree_workflow t json now db :
  workflow_runs (write_tree t json now db) = workflow_runs db
  ∧ workflow_run_nodes (write_tree t json now db) = workflow_run_nodes db.
Proof.
  unfold write_tree. change (workflow_runs db) with (workflow_runs (upsert_tree t json now db)).
  change (workflow_run_nodes db) with (workflow_run_nodes (upsert_tree t json now db)).
  generalize (upsert_tree t json now db) (btree_values (nodes t)).
  intros db1 ns. revert db1. induction ns as [|n ns IH]; intros db1; [done|].
  cbn [foldl]. destruct (IH (upsert_node t now db1 n)) as [-> ->]. done.
Qed.

Lemma check_workflow_binding_ext t db db' :
  workflow_runs db' = workflow_runs db → workflow_run_nodes db' = workflow_run_nodes db →
  check_workflow_binding t db' = check_workflow_binding t db.
Proof. intros E1 E2. unfold check_workflow_binding, root_metadata. by rewrite E1, E2. Qed.

Lemma validate_schema t json :
  validate_tree_for_persistence t = Ok json → schema_version t = RECURSIVE_SCHEMA_VERSION.
Proof.
  unfold validate_tree_for_persistence. intros H. passed H.
  match goal with Hi : check_identity t = Ok _ |- _ => unfold check_identity in Hi; passed Hi end.
  by checks.
Qed.

Lemma validate_json t json : validate_tree_for_persistence t = Ok json → tree_to_string t = Ok json.
Proof. unfold validate_tree_for_persistence. intros H. passed H. congruence. Qed.

Lemma write_tree_row t json now db id row :
  recursive_execution_trees (write_tree t json now db) !! id = Some row →
  validate_tree_for_persistence t = Ok json → keyed t →
  (id = root_run_id t ∧ row_ok id row t)
  ∨ (id ≠ root_run_id t ∧ recursive_execution_trees db !! id = Some row).
Proof.
  rewrite write_tree_trees. unfold upsert_tree. cbn. intros H Hv Hk.
  apply lookup_insert_Some in H as [[<- <-]|[Hne H]]; [left|by right].
  split; [done|]. split; cbn; try done. by apply roundtrip, validate_json.
Qed.

Lemma write_tree_ok t json now db :
  validate_tree_for_persistence t = Ok json → keyed t →
  store_ok db → store_ok (write_tree t json now db).
Proof.
  intros Hv Hk Hs id row H. destruct (write_tree_row _ _ _ _ _ _ H Hv Hk) as [[_ ?]|[_ ?]]; eauto.
Qed.

Lemma write_tree_stored t json now db id :
  validate_tree_for_persistence t = Ok json →
  stored (write_tree t json now db) id
  = if bool_decide (id = root_run_id t) then Some t else stored db id.
Proof.
  intros Hv. unfold stored. rewrite write_tree_trees. unfold upsert_tree. cbn.
  case_bool_decide as E; [subst; rewrite lookup_insert_eq|by rewrite lookup_insert_ne by done].
  cbn. by rewrite (roundtrip _ _ (validate_json _ _ Hv)).
Qed.

Lemma moves_keyed lo hi t t' : moves lo hi t t' → keyed t → keyed t'.
Proof.
  intros [E _] Hk k n' Hn'. destruct (fixed_lookup _ _ _ _ E Hn') as (n & Hn & En).
  destruct (Hk _ _ Hn) as [Hi Hd].
  pose proof (f_equal n_node_id En) as E1. pose proof (f_equal n_depth En) as E2.
  cbn in E1, E2. by rewrite E1, E2.
Qed.

Lemma moves_run lo hi t t' : moves lo hi t t' → root_run_id t' = root_run_id t.
Proof. intros [E _]. by apply (f_equal root_run_id) in E. Qed.

(** Writing a tree that moved on from the stored one, or is the stored one. *)
Lemma write_effect k t t' json now db id :
  validate_tree_for_persistence t' = Ok json →
  stored db id = Some t → root_run_id t = id → t' = t ∨ moves 1 k t t' → keyed t →
  effect k db (write_tree t' json now db).
Proof.
  intros Hv Hst Hid Hm Hk.
  assert (Hk' : keyed t') by (destruct Hm as [->|M]; [done|by eapply moves_keyed]).
  assert (Hr : root_run_id t' = id) by (destruct Hm as [->|M]; [done|by rewrite <-Hid; eapply moves_run]).
  split; [by apply write_tree_ok|]. intros _ id'. rewrite write_tree_stored by done.
  case_bool_decide as E; [|by left]. rewrite E, Hr, Hst.
  destruct Hm as [->|M]; [by left|]. right. eauto.
Qed.

Lemma persist_inv t now exp b db r db' :
  persist_recursive_tree_inner t now exp b db = Some (r, db') →
  (∃ e, r = Err e ∧ db' = db)
  ∨ ∃ json, r = Ok tt ∧ validate_tree_for_persistence t = Ok json
      ∧ db' = write_tree t json now db
      ∧ (∀ v, exp = Some v → check_expected (root_run_id t) v db = Ok ())
      ∧ (b = true → check_workflow_binding t db = Ok ()).
Proof.
  unfold persist_recursive_tree_inner. intros H.
  apply bind_inv in H as [(e & [_ ->]%lift_inv & ->)|(json & db1 & [Ej ->]%lift_inv & H)]; [eauto|].
  apply bind_inv in H as [(e & H & ->)|([] & db2 & Hx & H)].
  { destruct exp; [|done]. apply query_inv in H as [_ ->]. eauto. }
  assert (db2 = db ∧ ∀ v, exp = Some v → check_expected (root_run_id t) v db = Ok ()) as [-> Hex].
  { destruct exp; [|by injection Hx as <-]. apply query_inv in Hx as [Hx ->].
    split; [done|]. by intros ? [= <-]. }
  apply bind_inv in H as [(e & H & ->)|([] & db3 & Hb & H)].
  { destruct b; [|done]. apply query_inv in H as [_ ->]. eauto. }
  assert (db3 = db ∧ (b = true → check_workflow_binding t db = Ok ())) as [-> Hbind].
  { destruct b; [|by injection Hb as <-]. by apply query_inv in Hb as [Hb ->]. }
  injection H as <- <-. right. exists json. split_and!; done.
Qed.

(** ** Handlers *)

(** [t] is what the store holds for [id]. *)
Record loaded (db : database) (id : string) (t : RecursiveTree) : Prop := {
  ld_stored : stored db id = Some t;
  ld_run : root_run_id t = id;
  ld_keyed : keyed t;
  ld_size : Z.of_nat (size (nodes t)) <= MAX_RECURSIVE_NODES_PER_ROOT;
}.

Lemma row_loaded db id row t :
  recursive_execution_trees db !! id = Some row → row_ok id row t → loaded db id t.
Proof.
  intros H Hr. split; [by eapply stored_row|apply Hr|apply Hr|].
  by apply (ac_size _ (validate_accepted _ _ (rk_valid _ _ _ Hr))).
Qed.

Lemma loaded_same db db1 id t : same_trees db db1 → loaded db id t → loaded db1 id t.
Proof. intros [E _] []. split; [|done..]. unfold stored. by rewrite E. Qed.

Lemma row_decodes id row t t' :
  row_ok id row t → tree_from_str (tr_tree_json row) = Ok t' →
  t' = t ∧ normalize_loaded_tree t' = t.
Proof.
  intros Hr E. rewrite (rk_decodes _ _ _ Hr) in E. injection E as <-.
  split; [done|]. by eapply validate_limit, Hr.
Qed.

Lemma load_row_inv id row db t :
  load_row id row db = Ok t →
  ∃ t', tree_from_str (tr_tree_json row) = Ok t' ∧ t = normalize_loaded_tree t'.
Proof. unfold load_row. intros H. passed H. injection H as <-. eauto. Qed.

Lemma load_existing_inv id db r db' :
  load_existing id db = Some (r, db') →
  db' = db ∧ ∀ t, r = Ok t → store_ok db → loaded db id t.
Proof.
  unfold load_existing. intros H.
  apply bind_inv in H as [(e & [_ ->]%query_inv & ->)|(o & db1 & [Eo ->]%query_inv & [-> ->]%lift_inv)];
    [done|]. split; [done|]. intros t Ht%ok_or_Ok Hs. subst o. unfold load_recursive_tree in Eo.
  destruct (_ !! id) as [row|] eqn:Er; [|done]. destruct (load_row _ _ _) as [t0|] eqn:El; [|done].
  injection Eo as ->. destruct (Hs _ _ Er) as [t1 Hr]. apply load_row_inv in El as (t' & E & ->).
  destruct (row_decodes _ _ _ _ Hr E) as [_ ->]. by eapply row_loaded.
Qed.

Lemma effect_intro k db db' : (store_ok db → effect k db db') → effect k db db'.
Proof. intros H. split; intros Hs; by apply H. Qed.

Lemma sync_terminal_same t now db r db' :
  sync_terminal_workflow_nodes t now db = Some (r, db') → same_trees db db'.
Proof.
  apply (for_each_inv same_trees). intros n db1 r1 db1' H. unfold sync_terminal_workflow_node in H.
  apply bind_inv in H as [(e & [_ ->]%query_inv & _)|(o & db2 & [_ ->]%query_inv & H)]; [done|].
  destruct o as [row|]; [|by injection H as _ <-]. case_match; [by injection H as _ <-|].
  apply bind_inv in H as [(e & [_ ->]%lift_inv & _)|(j & db2 & [_ ->]%lift_inv & H)]; [done|].
  case_match; by injection H as _ <-.
Qed.

(** The largest number of versions one transition counts. *)
Definition STEP : Z := 2 ^ 24.

Definition moved (t t' : RecursiveTree) : Prop := t' = t ∨ moves 1 STEP t t'.

Lemma moved_far lo hi t t' : moves lo hi t t' → 1 <= lo → hi <= STEP → moved t t'.
Proof. intros M ??. right. eapply moves_weaken; [exact M|done..]. Qed.

Lemma moved_moves lo hi t t' : moves lo hi t t' → 1 <= lo → hi <= 64 → moved t t'.
Proof. intros M ??. eapply moved_far; [exact M|done|unfold STEP; lia]. Qed.

Lemma persist_effect t t' now exp b db r db' id :
  loaded db id t → moved t t' →
  persist_recursive_tree_inner t' now exp b db = Some (r, db') → effect STEP db db'.
Proof.
  intros [] Hm [(e & _ & ->)|(json & _ & Hv & -> & _)]%persist_inv; [apply effect_refl|].
  by eapply write_effect.
Qed.

(** The end of a handler: the workflow rows, the tree, the result. *)
Lemma sync_persist_effect {A} t t' now exp db r db' id (a : A) :
  loaded db id t → moved t t' →
  bind (sync_terminal_workflow_nodes t' now) (λ _,
    bind (persist_recursive_tree t' now exp) (λ _, ret a)) db = Some (r, db') →
  effect STEP db db'.
Proof.
  intros Hl Hm H.
  apply bind_inv in H as [(e & H & _)|(u & db1 & Hs & H)].
  { apply effect_same. by eapply sync_terminal_same. }
  apply sync_terminal_same in Hs. eapply (effect_trans 0 STEP); [done|done|by apply effect_same|].
  eapply (loaded_same _ _ _ _ Hs) in Hl.
  apply bind_inv in H as [(e & H & _)|(u' & db2 & H & E)]; [by eapply persist_effect|].
  injection E as _ <-. by eapply persist_effect.
Qed.

Lemma contains_node_inv t id db r db' : contains_node t id db = Some (r, db') → db' = db.
Proof. unfold contains_node. case_match; by intros [= _ <-]. Qed.

(** Inverts the loading statement that opens a handler. *)
Ltac open_handler H :=
  apply effect_intro; intros Hok;
  apply bind_inv in H as [(? & [-> _]%load_existing_inv & _)|(t & ? & [-> Hl]%load_existing_inv & H)];
  [apply effect_refl|]; specialize (Hl t eq_refl Hok).

Ltac check_node H :=
  apply bind_inv in H as [(? & ->%contains_node_inv & _)|(? & ? & ->%contains_node_inv & H)];
  [apply effect_refl|].

Ltac run_op H E :=
  apply bind_inv in H as [(?e & [-> _]%tree_op_inv & _)
    |([a t'] & ?db1 & [-> [[?e [=]]|(?a1 & ?t1 & E & [= <- <-])]]%tree_op_inv & H)];
  [apply effect_refl|].

Lemma sync_recursive_lease_effect env run id l now db r db' :
  sync_recursive_lease env run id l now db = Some (r, db') → effect STEP db db'.
Proof.
  unfold sync_recursive_lease. intros H. open_handler H. check_node H. run_op H E.
  eapply persist_effect; [exact Hl| |unfold persist_recursive_tree in H; exact H]. destruct a.
  eapply moved_moves; [by eapply lease_node_moves|lia..].
Qed.

Lemma node_total_le t : node_total t <= MAX_RECURSIVE_NODES_PER_ROOT → node_total t <= 12.
Proof. done. Qed.

Lemma sync_recursive_stale_recovery_effect run id l retry now db r db' :
  sync_recursive_stale_recovery run id l retry now db = Some (r, db') → effect STEP db db'.
Proof.
  unfold sync_recursive_stale_recovery. intros H. open_handler H. run_op H E.
  apply recover_stale_lease_moves in E. cbn [fst snd] in H.
  pose proof (node_total_le _ (ld_size _ _ _ Hl)) as Hsz.
  pose proof (moves_trans _ _ _ _ _ _ _ E (release_moves id t')) as E2.
  apply bind_inv in H as [(e & H & _)|(t2 & db1 & Hf & H)].
  { destruct retry; [by injection H|]. apply unwrap_inv in H as (? & _ & [=] & _). }
  destruct retry; [injection Hf as <- <-|apply unwrap_inv in Hf as (t3 & Hf & [= <-] & ->)];
    (eapply sync_persist_effect; [exact Hl| |exact H]).
  - eapply moved_moves; [exact E|lia..].
  - apply finalize_moves in Hf. rewrite (moves_size _ _ _ _ E2) in Hf.
    eapply moved_moves; [eapply moves_trans; [exact E2|exact Hf]|lia..].
Qed.

Lemma settle_attempt_moves id b t db r db' :
  settle_attempt id b t db = Some (r, db') →
  db' = db ∧ ∀ t', r = Ok t' → moves 0 (node_total t + 2) t t'.
Proof.
  unfold settle_attempt. intros H. destruct b.
  - apply bind_inv in H as [(e & [-> _]%tree_op_inv & ->)|([a t1] & db1 & Ho & H)]; [done|].
    apply tree_op_inv in Ho as [-> [[? [=]]|(a1 & t2 & E & [= <- <-])]].
    injection H as <- <-. split; [done|]. intros ? [= <-]. cbn.
    eapply moves_weaken; [by eapply retry_node_moves|lia..].
  - apply unwrap_inv in H as (t1 & Hf & -> & ->). split; [done|]. intros ? [= <-].
    apply finalize_moves in Hf. pose proof (release_moves id t) as Hr.
    rewrite (moves_size _ _ _ _ Hr) in Hf.
    eapply moves_weaken; [eapply moves_trans; [exact Hr|exact Hf]|lia..].
Qed.

Lemma sync_recursive_completion_effect env run id l rid ok retry u now db r db' :
  sync_recursive_completion_with_receipt env run id l rid ok retry u now db = Some (r, db') →
  effect STEP db db'.
Proof.
  unfold sync_recursive_completion_with_receipt. intros H. open_handler H. check_node H.
  assert (Hq : ∀ r1 db1, (if retry then
      bind (tree_op (retry_allowed env id u t, t)) (λ x, ret x.1) else ret false) db
      = Some (r1, db1) → db1 = db).
  { intros r1 db1. destruct retry; [|by intros [= _ <-]].
    by intros [(e & [-> _]%tree_op_inv & _)|([a t1] & db2 & [-> _]%tree_op_inv & [= _ <-])]%bind_inv. }
  apply bind_inv in H as [(e & ->%Hq & _)|(ra & db1 & ->%Hq & H)]; [apply effect_refl|].
  run_op H E. apply complete_node_moves in E. cbn [fst snd] in H.
  pose proof (node_total_le _ (ld_size _ _ _ Hl)) as Hsz.
  apply bind_inv in H as [(e & [-> _]%settle_attempt_moves & _)
    |(t2 & db1 & [-> Hs]%settle_attempt_moves & H)]; [apply effect_refl|].
  specialize (Hs _ eq_refl). rewrite (moves_size _ _ _ _ E) in Hs.
  assert (Hm : moved t t2).
  { eapply moved_moves; [eapply moves_trans; [exact E|exact Hs]|lia..]. }
  destruct (nodes t2 !! id) as [n|] eqn:En.
  - eapply sync_persist_effect; [exact Hl|exact Hm|exact H].
  - apply bind_inv in H as [(e & H & _)|(u' & db1 & Hss & H)];
      apply effect_same; [by eapply sync_terminal_same|].
    apply bind_inv in H as [(e & [_ ->]%lift_inv & _)|(s & db2 & [[=] _]%lift_inv & H)].
    by eapply sync_terminal_same.
Qed.

Lemma sync_recursive_root_completion_effect run l rid ok u now db r db' :
  sync_recursive_root_completion_with_receipt run l rid ok u now db = Some (r, db') →
  effect STEP db db'.
Proof.
  unfold sync_recursive_root_completion_with_receipt. intros H. open_handler H.
  apply bind_inv in H as [(e & (? & _ & [=] & _)%unwrap_inv & _)
    |(x & db1 & (? & Hc & [= <-] & ->)%unwrap_inv & H)].
  run_op H E. subst x. apply complete_root_moves in Hc. cbn [fst snd] in H.
  pose proof (node_total_le _ (ld_size _ _ _ Hl)) as Hsz.
  apply bind_inv in H as [(e & (? & _ & [=] & _)%unwrap_inv & _)
    |(t2 & db1 & (? & Hf & [= <-] & ->)%unwrap_inv & H)].
  apply finalize_moves_or in Hf.
  assert (Hm : moved t t2).
  { destruct Hc as [->|Hc], Hf as [->|Hf]; [by left|..].
    - eapply moved_moves; [exact Hf|lia..].
    - eapply moved_moves; [exact Hc|lia..].
    - eapply moved_moves; [eapply moves_trans; [exact Hc|exact Hf]|lia..]. }
  destruct (nodes t2 !! root_node_id t2) as [n|] eqn:En.
  - eapply sync_persist_effect; [exact Hl|exact Hm|exact H].
  - apply bind_inv in H as [(e & H & _)|(u' & db1 & Hs & H)];
      [by eapply effect_same, sync_terminal_same|].
    apply bind_inv in H as [(e & (? & [=] & _)%unwrap_inv & _)|(? & ? & (? & [=] & _)%unwrap_inv & _)].
Qed.

Lemma record_recursive_late_usage_effect run id rid u now db r db' :
  record_recursive_late_usage run id rid u now db = Some (r, db') → effect STEP db db'.
Proof.
  unfold record_recursive_late_usage. intros H. open_handler H. check_node H. run_op H E.
  pose proof (node_total_le _ (ld_size _ _ _ Hl)) as Hsz.
  eapply sync_persist_effect; [exact Hl| |exact H]. cbn.
  apply late_usage_moves in E as [->|E]; [by left|]. eapply moved_moves; [exact E|lia..].
Qed.

Lemma record_recursive_root_late_usage_effect run rid u now db r db' :
  record_recursive_root_late_usage run rid u now db = Some (r, db') → effect STEP db db'.
Proof.
  unfold record_recursive_root_late_usage. intros H. open_handler H. run_op H E.
  pose proof (node_total_le _ (ld_size _ _ _ Hl)) as Hsz.
  eapply sync_persist_effect; [exact Hl| |exact H]. cbn.
  apply root_late_usage_moves in E as [->|E]; [by left|]. eapply moved_moves; [exact E|lia..].
Qed.

Lemma terminal_failure_moves id n n0 reason t t' :
  moves 0 0 t t' → nodes t' !! id = Some n0 → fixed n = fixed n0 →
  moves 1 (node_total t + 2) t (terminal_failure id n reason t').
Proof.
  intros M Hn E. unfold terminal_failure. cbv zeta.
  set (n1 := n <| n_failure_reason := _ |> <| n_status := _ |> <| n_version := _ |>).
  assert (E1 : fixed n1 = fixed n0) by exact E. clearbody n1.
  assert (M1 : moves 0 0 t (t' <| nodes := <[id := n1]> (nodes t') |>)).
  { eapply moves_same; [exact M| |done]. by eapply fixed_update. }
  eapply moves_weaken; [eapply moves_incr; [by eapply terminalize_state_moves, M1|done|done]|lia..].
Qed.

(** Fail a node for good, in a tree that was just loaded. *)
Lemma close_effect {A} run id n reason t now db r db' (a : A) :
  loaded db run t → nodes t !! id = Some n →
  bind (sync_terminal_workflow_nodes (terminal_failure id n reason t) now) (λ _,
    bind (persist_recursive_tree (terminal_failure id n reason t) now (Some (t_version t)))
      (λ _, ret a)) db = Some (r, db') →
  effect STEP db db'.
Proof.
  intros Hl Hn H. pose proof (node_total_le _ (ld_size _ _ _ Hl)) as Hsz.
  eapply sync_persist_effect; [exact Hl| |exact H].
  eapply moved_moves; [by eapply terminal_failure_moves; [apply moves_refl|exact Hn|]|lia..].
Qed.

Lemma sync_recursive_terminal_failure_effect env run id l reason now db r db' :
  sync_recursive_terminal_failure env run id l reason now db = Some (r, db') →
  effect (STEP + STEP) db db'.
Proof.
  unfold sync_recursive_terminal_failure, sync_recursive_completion. intros H.
  apply bind_inv in H as [(e & H & _)|(s & db1 & Hc & H)].
  { apply sync_recursive_completion_effect in H. by eapply effect_weaken. }
  apply sync_recursive_completion_effect in Hc. eapply effect_trans; [done|done|exact Hc|].
  open_handler H.
  apply bind_inv in H as [(e & [_ ->]%lift_inv & _)|(n & db2 & [En%eq_sym%ok_or_Ok ->]%lift_inv & H)];
    [apply effect_refl|]. by eapply close_effect.
Qed.

Lemma corrupt_root_failure_moves n reason t :
  nodes t !! root_node_id t = Some n →
  moves 1 (node_total t + 2) t (corrupt_root_failure n reason t).
Proof.
  intros Hn. unfold corrupt_root_failure. destruct (n_lease_id n) as [l|].
  - set (t1 := t <| active_leases := _ |>).
    assert (M : moves 0 0 t t1) by by eapply moves_same; [apply moves_refl|..].
    change (root_node_id t) with (root_node_id t1) in Hn.
    change (nodes t) with (nodes t1) in Hn.
    by eapply terminal_failure_moves; [exact M|exact Hn|].
  - by eapply terminal_failure_moves; [apply moves_refl|exact Hn|].
Qed.

Lemma node_index_trees run now db ns :
  recursive_execution_trees (foldl (update_node_index run now) db ns)
  = recursive_execution_trees db.
Proof. revert db. induction ns as [|n ns IH]; intros db; [done|]. cbn [foldl]. by rewrite IH. Qed.

(** Replacing the snapshot of a row in place. *)
Lemma update_row_effect run row now t t' json db db' :
  recursive_execution_trees db !! run = Some row → row_ok run row t → moves 1 STEP t t' →
  validate_tree_for_persistence t' = Ok json →
  recursive_execution_trees db' = <[run := row <| tr_tree_json := json |>
    <| tr_version := as_i64_cast (t_version t') |> <| tr_updated_at := now |>]>
      (recursive_execution_trees db) →
  effect STEP db db'.
Proof.
  intros Hrow Hr M Hv E.
  assert (Hr' : row_ok run (row <| tr_tree_json := json |>
    <| tr_version := as_i64_cast (t_version t') |> <| tr_updated_at := now |>) t').
  { pose proof (mv_fixed _ _ _ _ M) as F. destruct Hr.
    pose proof (f_equal root_run_id F). pose proof (f_equal workflow_id F).
    pose proof (f_equal root_node_id F). pose proof (f_equal schema_version F). cbn in *.
    split; cbn; try congruence; [by apply roundtrip, validate_json|by eapply moves_keyed]. }
  split.
  - intros Hs id row'. rewrite E, lookup_insert_Some. intros [[<- <-]|[_ H]]; eauto.
  - intros Hs id. destruct (decide (id = run)) as [->|Hne].
    + right. exists t, t'. split_and!; [by eapply stored_row| |done].
      eapply stored_row; [by rewrite E, lookup_insert_eq|done].
    + left. unfold stored. by rewrite E, lookup_insert_ne.
Qed.

Lemma sync_corrupt_effect run reason now db r db' :
  sync_corrupt_recursive_root_terminal_failure run reason now db = Some (r, db') →
  effect STEP db db'.
Proof.
  unfold sync_corrupt_recursive_root_terminal_failure. intros H. apply effect_intro. intros Hok.
  apply bind_inv in H as [(e & [_ ->]%query_inv & _)|(row & db1 & [Er%eq_sym%ok_or_Ok ->]%query_inv & H)];
    [apply effect_refl|].
  apply bind_inv in H as [(e & [_ ->]%lift_inv & _)|(t0 & db1 & [Et ->]%lift_inv & H)];
    [apply effect_refl|].
  destruct (Hok _ _ Er) as [t Hr]. destruct (row_decodes _ _ _ _ Hr (eq_sym Et)) as [_ En].
  rewrite En in H. pose proof (node_total_le _ (ld_size _ _ _ (row_loaded _ _ _ _ Er Hr))) as Hsz.
  apply bind_inv in H as [(e & [_ ->]%lift_inv & _)|(n & db1 & [Hn%eq_sym%ok_or_Ok ->]%lift_inv & H)];
    [apply effect_refl|].
  apply (corrupt_root_failure_moves _ reason) in Hn.
  set (t' := corrupt_root_failure n reason t) in *. clearbody t'.
  apply bind_inv in H as [(e & H & _)|(u & db1 & Hs & H)]; [by eapply effect_same, sync_terminal_same|].
  apply sync_terminal_same in Hs. pose proof (effect_same STEP _ _ Hs) as Hes.
  destruct Hs as [Hs _].
  apply bind_inv in H as [(e & [_ ->]%lift_inv & _)|(json & db2 & [Hv ->]%lift_inv & H)]; [done|].
  apply bind_inv in H as [(e & [_ ->]%query_inv & _)|(o & db2 & [Ho ->]%query_inv & H)]; [done|].
  injection Ho as ->. rewrite Hs, Er in H. rewrite bool_decide_true in H by done.
  injection H as _ <-. eapply (update_row_effect run row now t t' json); [done|done| |done|].
  - eapply moves_weaken; [exact Hn|lia|unfold STEP; lia].
  - rewrite node_index_trees. cbn. by rewrite Hs.
Qed.

(** *** Rejections *)

Lemma rejections_moves lost t :
  moves (Z.of_nat (length lost)) (Z.of_nat (length lost)) t
    (foldl (λ tree pid, record_rejection pid FailureReason.StaleParent tree) t lost).
Proof.
  revert t. induction lost as [|pid lost IH]; intros t; cbn [foldl length]; [apply moves_refl|].
  eapply moves_weaken; [eapply moves_trans; [apply record_rejection_moves|apply IH]|lia..].
Qed.

Lemma merge_rejections_moves entries t0 t rej t' rej' :
  moves (Z.of_nat (length rej)) (Z.of_nat (length rej)) t0 t →
  foldl (λ '(current, rejected) '(proposal_id, evidence),
      if is_none (rejected_proposals current !! proposal_id)
         && negb (bool_decide (proposal_id ∈ accepted_proposals current))
      then (record_rejection_evidence proposal_id evidence current,
            rejected ++ [(proposal_id, FailureReason.reason_as_str (reason_code evidence))])
      else (current, rejected)) (t, rej) entries = (t', rej') →
  moves (Z.of_nat (length rej')) (Z.of_nat (length rej')) t0 t'
  ∧ (length rej' ≤ length rej + length entries)%nat.
Proof.
  revert t rej. induction entries as [|[pid ev] es IH]; intros t rej M; cbn [foldl].
  - intros [= <- <-]. split; [done|]. cbn. lia.
  - case_match.
    + intros [M' Hl]%IH; [split; [done|]; rewrite length_app in Hl; cbn in *; lia|].
      rewrite length_app. cbn [length].
      eapply moves_weaken; [eapply moves_trans; [exact M|apply record_rejection_moves]|lia..].
    + intros [M' Hl]%IH; [|done]. split; [done|]. cbn in *. lia.
Qed.

Lemma record_recursive_cas_rejection_effect c now db r db' :
  Z.of_nat (size (accepted_proposals c)) + Z.of_nat (size (rejected_proposals c)) <= STEP →
  record_recursive_cas_rejection c now db = Some (r, db') → effect STEP db db'.
Proof.
  intros Hsz. unfold record_recursive_cas_rejection. intros H. open_handler H. cbv zeta in H.
  set (lost := sort_strings _) in H.
  assert (Hlost : Z.of_nat (length lost) <= Z.of_nat (size (accepted_proposals c))).
  { unfold lost, sort_strings. rewrite length_sort_by. apply Nat2Z.inj_le.
    apply (subseteq_size (C := gset string) (accepted_proposals c ∖ accepted_proposals t)).
    set_solver. }
  destruct (foldl _ (_, _) _) as [t' rej] eqn:E. apply (merge_rejections_moves _ t) in E as [M Hl'].
  2: { rewrite length_fmap. apply rejections_moves. }
  rewrite length_fmap in Hl'. unfold btree_iter in Hl'.
  rewrite length_sort_by, length_map_to_list in Hl'.
  apply bind_inv in H as [(e & H & _)|(u & db1 & H & [= _ <-])];
    (destruct rej as [|x rej]; [first [discriminate H|injection H as _ <-; apply effect_refl]|];
     eapply persist_effect; [exact Hl| |unfold persist_recursive_tree in H; exact H];
     eapply moved_far; [exact M|cbn; lia|cbn in *; lia]).
Qed.

Lemma sync_recursive_root_terminal_failure_effect run receipt reason now db r db' :
  sync_recursive_root_terminal_failure run receipt reason now db = Some (r, db') →
  effect (STEP + STEP) db db'.
Proof.
  unfold sync_recursive_root_terminal_failure, sync_recursive_root_completion. case_bool_decide as Er.
  { intros H%sync_corrupt_effect. by eapply effect_weaken. }
  intros H. apply bind_inv in H as [(e & H%sync_recursive_root_completion_effect & _)
    |(s & db1 & Hc%sync_recursive_root_completion_effect & H)]; [by eapply effect_weaken|].
  eapply effect_trans; [done|done|exact Hc|]. open_handler H.
  apply bind_inv in H as [(e & [_ ->]%lift_inv & _)|(n & db2 & [En%eq_sym%ok_or_Ok ->]%lift_inv & H)];
    [apply effect_refl|]. by eapply close_effect.
Qed.
End props.
