(* ===== verification/TreeHistory.v ===== *)
(** * Histories of the tree store

    Operator controls, the creation of roots and explicit saves; then whole
    sequences of handler calls, and what they do to the trees. *)

From S2P Require Import Prelude Text Json RecursiveExecution RecursiveTreeProps RecursiveInvariants RecursiveTerminal TreeMoves Persistence PersistenceProps TreeStore TreeStoreProps.
From stdpp Require Import relations.
Import ExecutionState (RecursiveExecutionState).
Import FailureReason (RecursiveFailureReason).

Local Open Scope Z_scope.

(** ** Operator controls on one tree *)

Section reconcile.
Context `{Deps : RecursiveDeps} `{TE : TreeEncoder}.

Lemma stop_node_fixed reason n : fixed (stop_node reason n) = fixed n.
Proof. unfold stop_node. by case_match. Qed.

(** The nodes an operator control would stop. *)
Abbreviation to_stop t := (filter (λ n, stopped n = true) (btree_values (nodes t))).

(** Unmoved when no node is stopped. *)
Lemma stop_nodes_moves reason t ids t' :
  stop_nodes reason t = (ids, t') →
  (to_stop t = [] ∧ t_version t' = t_version t ∧ moves 0 0 t t')
  ∨ moves 1 (node_total t + 1) t t'.
Proof.
  unfold stop_nodes. set (hit := filter _ _). intros [= <- <-].
  assert (Hlen : (length hit ≤ size (nodes t))%nat).
  { rewrite <-btree_values_length. apply length_filter. }
  set (t1 := t <| active_leases := _ |> <| nodes := _ |>).
  assert (M : moves 0 0 t t1).
  { eapply moves_same; [apply moves_refl| |done]. unfold t1, fixed_tree. cbn.
    f_equal. rewrite <-map_fmap_compose. apply map_fmap_ext. intros k n _.
    unfold compose. apply stop_node_fixed. }
  destruct hit as [|n hit]; [by left|]. right. cbn [fmap list_fmap].
  set (t2 := t1 <| t_version := _ |>).
  assert (M2 : moves 1 1 t t2) by by eapply (moves_incr 0 0); [exact M|..].
  clearbody t2. eapply moves_weaken; [eapply moves_trans; [exact M2|apply release_all_moves]|lia|].
  cbn [length] in *. rewrite length_fmap. lia.
Qed.

Lemma reconcile_tree_moves s t ids t' :
  reconcile_tree s t = (ids, t') →
  (t_version t' = t_version t ∧ execution_state t = s ∧ (stops_nodes s = true → to_stop t = []))
  ∨ moves 1 (node_total t + 2) t t'.
Proof.
  assert (M1 : moves 1 1 t (t <| execution_state := s |> <| t_version := u64_incr (t_version t) |>))
    by by eapply (moves_incr 0 0); [apply moves_refl|..].
  unfold reconcile_tree. case_bool_decide as E; case_match.
  - intros [(? & ? & _)|M]%stop_nodes_moves; [by left|]. right. eapply moves_weaken; [exact M|lia..].
  - intros [= _ <-]. by left.
  - intros [(_ & _ & M)|M]%stop_nodes_moves; right; rewrite ?(moves_size _ _ _ _ M1) in M;
      (eapply moves_weaken; [eapply moves_trans; [exact M1|exact M]|lia..]).
  - intros [= _ <-]. right. eapply moves_weaken; [exact M1|lia..].
Qed.

(** Nothing runs any more: no lease, and no live node below the root. *)
Record at_rest (t : RecursiveTree) : Prop := {
  ar_leases : active_leases t = ∅;
  ar_nodes : ∀ k n, nodes t !! k = Some n →
    n_lease_id n = None ∧ (n_parent_node_id n ≠ None → is_live (n_status n) = false);
}.

(** In a tree that passes the checks the stopped nodes hold all the leases. *)
Lemma stopped_holds_leases t l :
  accepted t → l ∈ active_leases t →
  l ∈ omap n_lease_id (to_stop t).
Proof.
  intros Ha Hl. destruct (ac_held _ Ha _ Hl) as (k & n & Hn & El).
  apply list_elem_of_omap. exists n. split; [|done].
  apply list_elem_of_filter. split; [|apply elem_of_btree_values; eauto].
  pose proof (nk_lease _ _ (ac_nodes _ Ha _ _ Hn)) as Hlk. rewrite El in Hlk.
  unfold stopped. rewrite El. destruct Hlk as [-> _]. by rewrite orb_true_r.
Qed.

Lemma unstopped_node t k n :
  accepted t → nodes t !! k = Some n → stopped n = false →
  n_lease_id n = None ∧ (n_parent_node_id n ≠ None → is_live (n_status n) = false).
Proof.
  intros Ha Hn Est. unfold stopped in Est.
  pose proof (nk_lease _ _ (ac_nodes _ Ha _ _ Hn)) as Hlk.
  destruct (n_lease_id n) as [l|]; [destruct Hlk as [E _]; rewrite E, orb_true_r in Est; done|].
  split; [done|]. intros Hp. destruct (n_parent_node_id n); [|done]. by destruct (n_status n).
Qed.

Lemma unstopped_at_rest t : accepted t → to_stop t = [] → at_rest t.
Proof.
  intros Ha E. split.
  - apply elem_of_equiv_empty_L. intros l Hl. apply stopped_holds_leases in Hl; [|done].
    rewrite E in Hl. by apply not_elem_of_nil in Hl.
  - intros k n Hn. eapply unstopped_node; [done|done|]. apply not_true_iff_false. intros Hs.
    assert (Hin : n ∈ to_stop t)
      by (apply list_elem_of_filter; split; [done|apply elem_of_btree_values; eauto]).
    rewrite E in Hin. by apply not_elem_of_nil in Hin.
Qed.

Lemma accepted_state t s v :
  accepted t → accepted (t <| execution_state := s |> <| t_version := v |>).
Proof.
  intros []. split; try done. intros k n Hn. destruct (ac_nodes _ _ Hn). split; try done.
  intros p Hp. destruct (nk_parent p Hp). by split.
Qed.

Lemma stop_nodes_at_rest reason t ids t' :
  accepted t → stop_nodes reason t = (ids, t') → at_rest t'.
Proof.
  intros Ha. unfold stop_nodes. set (hit := filter _ _).
  set (t1 := t <| active_leases := _ |> <| nodes := _ |>).
  assert (Hnodes : ∀ k n, nodes t1 !! k = Some n →
    n_lease_id n = None ∧ (n_parent_node_id n ≠ None → is_live (n_status n) = false)).
  { intros k n (n0 & <- & Hn)%lookup_fmap_Some. unfold stop_node.
    destruct (stopped n0) eqn:Est; [done|]. by eapply unstopped_node. }
  assert (Hl : active_leases t1 ⊆ ∅).
  { intros l. unfold t1. cbn. rewrite elem_of_difference, elem_of_list_to_set.
    intros [Hl Hno]. destruct Hno. by apply stopped_holds_leases. }
  intros [= _ <-]. set (t2 := match n_node_id <$> hit with [] => _ | _ => _ end).
  assert (H2 : active_leases t2 ⊆ active_leases t1 ∧ fixed_tree t2 = fixed_tree t1
    ∧ ∀ k, outcome_of t2 k = outcome_of t1 k).
  { subst t2. case_match; [done|]. split_and!.
    - etransitivity; [apply (fr_leases _ _ (frame_release_all _ _))|done].
    - etransitivity; [apply (mv_fixed _ _ _ _ (release_all_moves _ _))|done].
    - intros k. by rewrite outcome_of_release_all. }
  clearbody t2. destruct H2 as (H2 & F & O). split; [set_solver|]. intros k n Hn.
  specialize (O k). unfold outcome_of in O. rewrite Hn in O.
  destruct (nodes t1 !! k) as [n1|] eqn:Hn1; [|done]. injection O as Es El _.
  destruct (fixed_lookup _ _ _ _ F Hn) as (n1' & Hn1' & Ef).
  rewrite Hn1 in Hn1'. injection Hn1' as <-.
  apply (f_equal n_parent_node_id) in Ef. cbn in Ef.
  rewrite Es, El, Ef. by eapply Hnodes.
Qed.

Lemma reconcile_state s t ids t' : reconcile_tree s t = (ids, t') → execution_state t' = s.
Proof.
  unfold reconcile_tree, stop_nodes. intros H.
  destruct (bool_decide (execution_state t = s)) eqn:E; [apply bool_decide_eq_true in E|];
    (destruct (stops_nodes s); injection H as _ <-; [case_match; [done|]|done]);
    by rewrite release_all_state.
Qed.

Lemma reconcile_at_rest s t ids t' :
  accepted t → stops_nodes s = true → reconcile_tree s t = (ids, t') →
  at_rest t'.
Proof.
  intros Ha Hs. unfold reconcile_tree. rewrite Hs.
  case_bool_decide; apply stop_nodes_at_rest; [done|by apply accepted_state].
Qed.
End reconcile.

(** ** Operator controls on the store *)

Section controls.
Context {V : Type} `{JV : JsonValue V} `{JT : JsonText V} `{SD : StoreDecoders V}.
Context `{Deps : RecursiveDeps} `{TE : TreeEncoder}.
Hypothesis roundtrip : ∀ t s, tree_to_string t = Ok s → tree_from_str s = Ok t.

(** Only the row of [id] may have changed. *)
Definition only_row (id : string) (db db' : database) : Prop :=
  ∀ id', id' ≠ id → recursive_execution_trees db' !! id' = recursive_execution_trees db !! id'.

Lemma same_trees_only id db db' : same_trees db db' → only_row id db db'.
Proof. intros [E _] id' _. by rewrite E. Qed.

Lemma append_audit_inv now actor action resource details db r db' :
  append_audit now actor action resource details db = Some (r, db') →
  r = Ok tt ∧ same_trees db db'.
Proof. by intros [= <- <-]. Qed.

Lemma stop_workflow_node_same run now reason id db r db' :
  stop_workflow_node run now reason id db = Some (r, db') → same_trees db db'.
Proof.
  unfold stop_workflow_node. intros H.
  apply bind_inv in H as [(e & [_ ->]%query_inv & _)|([o1 o2] & db1 & [_ ->]%query_inv & H)]; [done|].
  destruct o1; [|by injection H as _ <-]. destruct o2 as [row|]; [|by injection H as _ <-].
  case_match; [by injection H as _ <-|].
  apply bind_inv in H as [(e & Ha & _)|(u & db1 & Ha & H)].
  - case_match; [by apply append_audit_inv in Ha as [_ ?]|by injection Ha].
  - transitivity db1; [|by injection H as _ <-].
    case_match; [by apply append_audit_inv in Ha as [_ ?]|by injection Ha as _ <-].
Qed.

Lemma report_reconciled_same run now row s ids db r db' :
  report_reconciled run now row s ids db = Some (r, db') → same_trees db db'.
Proof.
  unfold report_reconciled. intros H.
  apply bind_inv in H as [(e & [_ ?]%append_audit_inv & _)|(u1 & db1 & [_ S1]%append_audit_inv & H)];
    [done|]. rewrite S1. apply bind_inv in H as [(e & Ha & _)|(u2 & db2 & Ha & H)].
  { destruct ids; [by injection Ha|by apply append_audit_inv in Ha as [_ ?]]. }
  transitivity db2.
  { destruct ids; [by injection Ha as _ <-|by apply append_audit_inv in Ha as [_ ?]]. }
  revert H. apply (for_each_inv same_trees). eauto using stop_workflow_node_same.
Qed.

Definition reconciled (paused : bool) (why : option string) (t : RecursiveTree) : RecursiveTree :=
  (reconcile_tree (effective_state paused why t) t).2.

Lemma reconcile_row_inv paused why now id row db r db' t :
  recursive_execution_trees db !! id = Some row → row_ok id row t →
  reconcile_row paused why now id row db = Some (r, db') →
  effect STEP db db' ∧ only_row id db db'
  ∧ (is_ok r = true →
     (t_version (reconciled paused why t) = t_version t ∧ db' = db)
     ∨ stored db' id = Some (reconciled paused why t)).
Proof.
  intros Hrow Hr. unfold reconcile_row. intros H.
  assert (Hrefl : effect STEP db db ∧ only_row id db db) by (split; [apply effect_refl|done]).
  apply bind_inv in H as [(e & [_ ->]%lift_inv & ->)|(t0 & db1 & [Et ->]%lift_inv & H)]; [naive_solver|].
  destruct (row_decodes _ _ _ _ Hr (eq_sym Et)) as [-> En].
  case_match; [injection H as <- <-; naive_solver|]. rewrite En in H.
  apply bind_inv in H as [(e & [_ ->]%lift_inv & ->)|(json & db1 & [_ ->]%lift_inv & H)]; [naive_solver|].
  unfold reconciled. cbv zeta in H. destruct (reconcile_tree _ t) as [ids t'] eqn:Et'.
  pose proof (row_loaded _ _ _ _ Hrow Hr) as Hl.
  pose proof (node_total_le _ (ld_size _ _ _ Hl)) as Hsz. cbn [snd].
  destruct (t_version t' =? t_version t) eqn:Ev.
  { injection H as <- <-. apply Z.eqb_eq in Ev. naive_solver. }
  apply reconcile_tree_moves in Et' as [[Ev' _]|M]; [lia|].
  assert (Hm : moved t t') by (eapply moved_moves; [exact M|lia..]).
  unfold persist_recursive_tree_control_state in H.
  apply bind_inv in H as [(e & H & ->)|(u & db1 & Hp & H)].
  { pose proof (persist_effect roundtrip _ _ _ _ _ _ _ _ _ Hl Hm H).
    by apply persist_inv in H as [(? & _ & ->)|(? & [=] & _)]. }
  pose proof (persist_effect roundtrip _ _ _ _ _ _ _ _ _ Hl Hm Hp) as Heff.
  apply persist_inv in Hp as [(? & [=] & _)|(j & _ & Hv & -> & _)].
  assert (Hid : root_run_id t' = id) by (rewrite (moves_run _ _ _ _ M); apply Hl).
  assert (Hs : stored (write_tree t' j now db) id = Some t')
    by by rewrite write_tree_stored, bool_decide_true.
  assert (Honly : only_row id db (write_tree t' j now db)).
  { intros id' Hne. rewrite write_tree_trees. unfold upsert_tree. cbn.
    by rewrite Hid, lookup_insert_ne. }
  set (db1 := write_tree t' j now db) in *. clearbody db1.
  assert (Hrest : same_trees db1 db').
  { apply bind_inv in H as [(e & Hf & _)|(u3 & db4 & Hf & [= _ <-])];
      by eapply report_reconciled_same. }
  split_and!.
  - eapply (effect_trans STEP 0); [done|done|exact Heff|by apply effect_same].
  - intros id' Hne. rewrite <-(Honly id' Hne). by apply (same_trees_only id).
  - intros _. right. unfold stored in *. destruct Hrest as [E _]. by rewrite E.
Qed.

Lemma reconcile_rows_inv paused why now rows db r db' :
  store_ok db → NoDup rows.*1 →
  (∀ id row, (id, row) ∈ rows → recursive_execution_trees db !! id = Some row) →
  reconcile_rows paused why now rows db = Some (r, db') →
  store_ok db' ∧ (∀ id, evolves STEP (stored db id) (stored db' id))
  ∧ (∀ id, id ∉ rows.*1 →
       recursive_execution_trees db' !! id = recursive_execution_trees db !! id)
  ∧ (is_ok r = true → ∀ id row t, (id, row) ∈ rows → row_ok id row t →
       (t_version (reconciled paused why t) = t_version t ∧ stored db' id = Some t)
       ∨ stored db' id = Some (reconciled paused why t)).
Proof.
  revert db r. induction rows as [|[id row] rows IH]; intros db r Hok Hnd Hrows H;
    cbn [reconcile_rows] in H.
  { injection H as <- <-. split_and!; [done|by left|done|]. intros _ ??? []%not_elem_of_nil. }
  cbn [fmap list_fmap fst] in Hnd. apply NoDup_cons in Hnd as [Hid Hnd].
  assert (Hrow : recursive_execution_trees db !! id = Some row) by (apply Hrows; left).
  destruct (Hok _ _ Hrow) as [t Hr].
  apply bind_inv in H as [(e & H & ->)|(c & db1 & H1 & H)].
  { apply (reconcile_row_inv _ _ _ _ _ _ _ _ _ Hrow Hr) in H as (Heff & Honly & _).
    split_and!; [by apply Heff|by apply Heff| |done].
    intros id' [Hne _]%not_elem_of_cons. by apply Honly. }
  apply (reconcile_row_inv _ _ _ _ _ _ _ _ _ Hrow Hr) in H1 as (Heff & Honly & Hres).
  specialize (Hres eq_refl). pose proof (ef_ok _ _ _ Heff Hok) as Hok1.
  assert (Hrows1 : ∀ id' row', (id', row') ∈ rows →
    recursive_execution_trees db1 !! id' = Some row').
  { intros id' row' Hin. rewrite Honly; [apply Hrows; by right|].
    intros ->. apply Hid. by apply (list_elem_of_fmap_2 fst) in Hin. }
  assert (Htail : ∃ r', reconcile_rows paused why now rows db1 = Some (r', db') ∧ (is_ok r = true → is_ok r' = true)).
  { apply bind_inv in H as [(e & H & ->)|(rest & db2 & H & [= <- <-])]; eauto. }
  destruct Htail as (r' & H' & Hr'). destruct (IH _ _ Hok1 Hnd Hrows1 H') as (Hok' & Hev & Hoth & Hend).
  assert (Hsid : stored db' id = stored db1 id) by (unfold stored; by rewrite Hoth).
  split_and!; [done| | |].
  - intros id'. destruct (decide (id' = id)) as [->|Hne]; [rewrite Hsid; by apply Heff|].
    replace (stored db id') with (stored db1 id'); [done|]. unfold stored. by rewrite Honly.
  - intros id' [Hne Hni]%not_elem_of_cons. rewrite Hoth by done. by apply Honly.
  - intros Hokr id' row' t' [[= -> ->]|Hin]%elem_of_cons Hrt; [|by eauto].
    rewrite Hsid. assert (t' = t) as ->.
    { pose proof (rk_decodes _ _ _ Hr). pose proof (rk_decodes _ _ _ Hrt). congruence. }
    destruct Hres as [[? ->]|?]; [left|by right]. split; [done|]. by eapply stored_row.
Qed.

Lemma set_paused_inv `{HO : HashOrder} paused why now db r db' :
  store_ok db → set_recursive_execution_paused paused why now db = Some (r, db') →
  store_ok db' ∧ (∀ id, evolves STEP (stored db id) (stored db' id))
  ∧ (is_ok r = true → ∀ id,
       stored db' id = stored db id
         ∧ (∀ t, stored db id = Some t → t_version (reconciled paused why t) = t_version t)
       ∨ stored db' id = reconciled paused why <$> stored db id).
Proof.
  intros Hok. unfold set_recursive_execution_paused, transaction.
  destruct (bind _ _ db) as [[r0 db0]|] eqn:H; [|done].
  apply bind_inv in H as [(e & [[=] _]%query_inv & _)|(rows & db1 & [[= ->] ->]%query_inv & H)].
  apply reconcile_rows_inv in H as (Hok' & Hev & Hoth & Hend); [|done| |].
  2: { rewrite hash_iter_perm. apply NoDup_fst_map_to_list. }
  2: { intros id row. by rewrite elem_of_hash_iter. }
  destruct r0 as [c|e]; intros [= <- <-]; [|split_and!; [done|by left|done]].
  split_and!; [done|done|]. intros _ id. destruct (stored db id) as [t|] eqn:Est.
  - destruct (stored_Some _ _ _ Hok Est) as (row & Hrow & Hr).
    destruct (Hend eq_refl id row t) as [[Hv ->]| ->]; [by apply elem_of_hash_iter|done| |].
    + left. split; [done|]. by intros ? [= <-].
    + by right.
  - right. cbn. unfold stored in *. rewrite Hoth; [done|].
    intros ([id' row] & -> & Hin%elem_of_hash_iter)%list_elem_of_fmap. cbn in *.
    destruct (Hok _ _ Hin) as [t Hr]. pose proof (stored_row _ _ _ _ Hin Hr) as Hst.
    unfold stored in Hst. congruence.
Qed.
End controls.

(** ** Sequences of calls *)

Lemma as_i64_cast_inj x y : as_i64_cast x = as_i64_cast y → u64_wrap x = u64_wrap y.
Proof.
  unfold as_i64_cast, i64_wrap, u64_wrap. intros E.
  assert (E2 : (x + 2 ^ 63) mod 2 ^ 64 = (y + 2 ^ 63) mod 2 ^ 64) by lia.
  replace x with (x + 2 ^ 63 - 2 ^ 63) by lia. replace y with (y + 2 ^ 63 - 2 ^ 63) by lia.
  by rewrite Zminus_mod, E2, <-Zminus_mod.
Qed.

(** The version of [t'] is [lo] to [hi] increments after [v]. *)
Definition later (lo hi : Z) (v : Z) (t' : RecursiveTree) : Prop :=
  ∃ d, lo <= d <= hi ∧ u64_wrap (t_version t') = u64_wrap (v + d).

Lemma later_trans a b c d v t1 t2 :
  later a b v t1 → later c d (t_version t1) t2 → later (a + c) (b + d) v t2.
Proof.
  intros (d1 & ? & E1) (d2 & ? & E2). exists (d1 + d2). split; [lia|].
  rewrite E2, Z.add_assoc. by apply u64_wrap_add.
Qed.

Lemma later_weaken a b c d v t : later a b v t → c <= a → b <= d → later c d v t.
Proof. intros (x & ? & E) ??. exists x. split; [lia|done]. Qed.

(** One tree of the store over time: unchanged, created, or counted up. *)
Definition progresses (k : Z) (o o' : option RecursiveTree) : Prop :=
  o' = o ∨ (o = None ∧ is_Some o')
  ∨ ∃ t t', o = Some t ∧ o' = Some t' ∧ later 1 k (t_version t) t'.

Lemma progresses_trans a b o1 o2 o3 :
  0 <= a → 0 <= b → progresses a o1 o2 → progresses b o2 o3 → progresses (a + b) o1 o3.
Proof.
  unfold progresses. intros Ha Hb [->|[[-> [t2 ->]]|(t1 & t2 & -> & -> & L1)]] H2.
  - destruct H2 as [?|[?|(t & t' & ? & ? & L)]]; [by auto..|]. right; right.
    exists t, t'. split_and!; [done..|]. eapply later_weaken; [exact L|lia..].
  - destruct H2 as [->|[[? _]|(t & t' & _ & -> & _)]]; [|done|]; right; left; eauto.
  - destruct H2 as [->|[[? _]|(t & t' & [= <-] & -> & L)]]; [|done|]; right; right;
      eexists _, _; (split_and!; [done..|]).
    + eapply later_weaken; [exact L1|lia..].
    + eapply later_weaken; [eapply later_trans; [exact L1|exact L]|lia..].
Qed.

Lemma evolves_progresses a b o o' : evolves a o o' → a <= b → progresses b o o'.
Proof.
  intros [->|(t & t' & -> & -> & [_ M])] Hle; [by left|]. right; right.
  exists t, t'. split_and!; [done..|]. by eapply later_weaken; [exact M|..].
Qed.

(** The budget of versions for one call: two transitions. *)
Definition CALL : Z := STEP + STEP.

Section history.
Context {V : Type} `{JV : JsonValue V} `{JT : JsonText V} `{SD : StoreDecoders V}.
Context `{Deps : RecursiveDeps} `{TE : TreeEncoder} `{HO : HashOrder}.
Hypothesis roundtrip : ∀ t s, tree_to_string t = Ok s → tree_from_str s = Ok t.

(** A call of a handler, committed whatever it returned. *)
Inductive handler_step : database → database → Prop :=
  | hs_lease env run id l now db r db' :
      sync_recursive_lease env run id l now db = Some (r, db') → handler_step db db'
  | hs_recover run id l retry now db r db' :
      sync_recursive_stale_recovery run id l retry now db = Some (r, db') → handler_step db db'
  | hs_complete env run id l rid ok retry u now db r db' :
      sync_recursive_completion_with_receipt env run id l rid ok retry u now db = Some (r, db') →
      handler_step db db'
  | hs_complete_root run l rid ok u now db r db' :
      sync_recursive_root_completion_with_receipt run l rid ok u now db = Some (r, db') →
      handler_step db db'
  | hs_late run id rid u now db r db' :
      record_recursive_late_usage run id rid u now db = Some (r, db') → handler_step db db'
  | hs_root_late run rid u now db r db' :
      record_recursive_root_late_usage run rid u now db = Some (r, db') → handler_step db db'
  | hs_fail env run id l reason now db r db' :
      sync_recursive_terminal_failure env run id l reason now db = Some (r, db') →
      handler_step db db'
  | hs_fail_root run receipt reason now db r db' :
      sync_recursive_root_terminal_failure run receipt reason now db = Some (r, db') →
      handler_step db db'
  | hs_control paused why now db r db' :
      set_recursive_execution_paused paused why now db = Some (r, db') → handler_step db db'
  | hs_reject c now db r db' :
      Z.of_nat (size (accepted_proposals c)) + Z.of_nat (size (rejected_proposals c)) <= STEP →
      record_recursive_cas_rejection c now db = Some (r, db') → handler_step db db'
  | hs_other db db' : same_trees db db' → handler_step db db'.

(** A handler call, a root creation, or a save of a tree that was counted up
    from the version it expects. *)
Inductive store_step : database → database → Prop :=
  | ss_handler db db' : handler_step db db' → store_step db db'
  | ss_ensure run wf id metadata now db r db' :
      ensure_recursive_root_tree run wf id metadata now db = Some (r, db') → store_step db db'
  | ss_save t now v db r db' :
      keyed t → later 1 STEP v t →
      save_recursive_tree_with_expected_version t now v db = Some (r, db') → store_step db db'
  | ss_persist t now v db r db' :
      keyed t → later 1 STEP v t →
      persist_recursive_tree t now (Some v) db = Some (r, db') → store_step db db'.

Lemma effect_call db db' : effect STEP db db' → effect CALL db db'.
Proof. intros H. by eapply effect_weaken. Qed.

Lemma set_paused_effect paused why now db r db' :
  set_recursive_execution_paused paused why now db = Some (r, db') → effect STEP db db'.
Proof using roundtrip. intros H. split; intros Hok; by eapply set_paused_inv in H as (? & ? & _). Qed.

Lemma handler_step_effect db db' : handler_step db db' → effect CALL db db'.
Proof using roundtrip.
  destruct 1; first
    [ by eapply sync_recursive_terminal_failure_effect
    | by eapply sync_recursive_root_terminal_failure_effect
    | apply effect_call; first
      [ by eapply sync_recursive_lease_effect | by eapply sync_recursive_stale_recovery_effect
      | by eapply sync_recursive_completion_effect
      | by eapply sync_recursive_root_completion_effect
      | by eapply record_recursive_late_usage_effect
      | by eapply record_recursive_root_late_usage_effect
      | by eapply set_paused_effect | by eapply record_recursive_cas_rejection_effect
      | by apply effect_same ] ].
Qed.

(** *** Saves and creation *)

Lemma check_expected_inv run v db :
  store_ok db → check_expected run v db = Ok () →
  if v =? 0 then stored db run = None
  else ∃ t, stored db run = Some t ∧ u64_wrap (t_version t) = u64_wrap v.
Proof.
  intros Hok. unfold check_expected. destruct (_ !! run) as [row|] eqn:Er; cbn.
  - destruct (v =? 0); [done|]. case_bool_decide as E; [|done]. intros _.
    destruct (Hok _ _ Er) as [t Hr]. exists t. split; [by eapply stored_row|].
    injection E as E. rewrite (rk_version _ _ _ Hr) in E. by apply as_i64_cast_inj.
  - destruct (v =? 0); [|by rewrite bool_decide_false]. intros _. unfold stored. by rewrite Er.
Qed.

(** A write whose expected version was checked. *)
Lemma write_progress t json now v db :
  validate_tree_for_persistence t = Ok json → keyed t → later 1 STEP v t →
  check_expected (root_run_id t) v db = Ok () → store_ok db →
  store_ok (write_tree t json now db)
  ∧ ∀ id, progresses CALL (stored db id) (stored (write_tree t json now db) id).
Proof using roundtrip.
  intros Hv Hk L Hc Hok. split; [by apply write_tree_ok|]. intros id.
  rewrite write_tree_stored by done. case_bool_decide as E; [subst id|by left].
  apply check_expected_inv in Hc; [|done]. right. destruct (v =? 0).
  - left. rewrite Hc. split; [done|]. eauto.
  - destruct Hc as (t0 & -> & E0). right. exists t0, t. split_and!; [done..|].
    destruct L as (d & Hd & Ev). exists d. split; [unfold CALL, STEP in *; lia|].
    rewrite Ev. by apply u64_wrap_add.
Qed.

Lemma save_inv t now v db r db' :
  save_recursive_tree_with_expected_version t now v db = Some (r, db') →
  (∃ e, r = Err e ∧ db' = db)
  ∨ ∃ json, r = Ok tt ∧ validate_tree_for_persistence t = Ok json
      ∧ db' = write_tree t json now db
      ∧ check_expected (root_run_id t) v db = Ok () ∧ check_workflow_binding t db = Ok ().
Proof.
  unfold save_recursive_tree_with_expected_version. intros H.
  case_match; [injection H as <- <-; by eauto|].
  apply bind_inv in H as [(e & [_ ->]%lift_inv & ->)|(json & db1 & [Hv ->]%lift_inv & H)]; [by eauto|].
  unfold transaction in H. destruct (bind _ _ db) as [[[[]|e] db1]|] eqn:Hb; [|by naive_solver|done].
  injection H as <- <-. right. exists json.
  apply bind_inv in Hb as [(? & _ & [=])|([] & db2 & [Hc ->]%query_inv & H)].
  apply bind_inv in H as [(? & _ & [=])|([] & db2 & [Hw ->]%query_inv & [= <-])]. split_and!; done.
Qed.

Lemma frame_keyed t t' : frame t t' → keyed t → keyed t'.
Proof.
  intros F Hk k n Hn%lookup_statics. rewrite (fr_statics _ _ F) in Hn.
  apply lookup_fmap_Some in Hn as (n0 & E & Hn0). destruct (Hk _ _ Hn0) as [Hi Hd].
  pose proof (f_equal st_node_id E) as E1. pose proof (f_equal st_depth E) as E2.
  cbn in E1, E2. by rewrite <-E1, <-E2.
Qed.

Lemma root_tree_keyed run wf id metadata boundaries t :
  recursive_root_tree_from_metadata run wf id metadata boundaries = Ok t →
  keyed t ∧ root_run_id t = run.
Proof.
  unfold recursive_root_tree_from_metadata. intros H. passed H. checks. cbn zeta in H.
  set (t0 := (_ <| nodes := _ |>)) in H.
  assert (Hbase : keyed t0 ∧ root_run_id t0 = run).
  { split; [|done]. intros k n. unfold t0. cbn.
    match goal with Hl : nodes _ !! id = Some _ |- _ => cbn in Hl; rewrite lookup_singleton_eq in Hl;
      injection Hl as <- end.
    rewrite lookup_insert_Some, lookup_singleton_Some. by intros [[<- <-]|[? [<- <-]]]. }
  clearbody t0. destruct Hbase as [Hk Hrun].
  destruct (bind_root_identity _ _ _ t0) as [[[]|] t1] eqn:E1; [|done].
  destruct (bind_root_execution_scope _ _ t1) as [[[]|] t2] eqn:E2; [|done]. injection H as <-.
  apply frame_bind_root_identity in E1. apply frame_bind_root_execution_scope in E2.
  split; [by eauto using frame_keyed|]. by rewrite (fr_run _ _ E2), (fr_run _ _ E1).
Qed.

Lemma ensure_inv run wf id metadata now db r db' :
  store_ok db → ensure_recursive_root_tree run wf id metadata now db = Some (r, db') →
  store_ok db' ∧ ∀ id', progresses CALL (stored db id') (stored db' id').
Proof using roundtrip.
  intros Hok. unfold ensure_recursive_root_tree. intros H.
  assert (Hsame : store_ok db ∧ ∀ id', progresses CALL (stored db id') (stored db id'))
    by (split; [done|by left]).
  apply bind_inv in H as [(e & [_ ->]%query_inv & _)|(o & db1 & [_ ->]%query_inv & H)]; [done|].
  destruct o as [t|]; [case_bool_decide; by injection H as _ <-|].
  apply bind_inv in H as [(e & [_ ->]%query_inv & _)|(run_row & db1 & [_ ->]%query_inv & H)]; [done|].
  apply bind_inv in H as [(e & [_ ->]%lift_inv & _)|(b & db1 & [_ ->]%lift_inv & H)]; [done|].
  apply bind_inv in H as [(e & [_ ->]%lift_inv & _)|(t & db1 & [Et ->]%lift_inv & H)]; [done|].
  symmetry in Et. apply root_tree_keyed in Et as [Hk Hr].
  unfold persist_recursive_tree in H.
  apply persist_inv in H as [(e & _ & ->)|(json & _ & Hv & -> & Hc & _)]; [done|].
  split; [by apply write_tree_ok|]. intros id'. rewrite write_tree_stored by done.
  case_bool_decide as E; [|by left]. right; left. split; [|by eauto].
  apply (check_expected_inv _ 0); [done|]. rewrite E. by apply Hc.
Qed.

Lemma store_step_inv db db' :
  store_step db db' → store_ok db →
  store_ok db' ∧ ∀ id, progresses CALL (stored db id) (stored db' id).
Proof using roundtrip.
  intros [? ? Heff%handler_step_effect|?????? ? ? H|? ? ? ? ? ? Hk L H|? ? ? ? ? ? Hk L H] Hok.
  - split; [by apply Heff|]. intros id. eapply evolves_progresses; [by apply Heff|done].
  - by eapply ensure_inv.
  - apply save_inv in H as [(e & _ & ->)|(json & _ & Hv & -> & Hc & _)];
      [split; [done|by left]|by eapply write_progress].
  - unfold persist_recursive_tree in H.
    apply persist_inv in H as [(e & _ & ->)|(json & _ & Hv & -> & Hc & _)];
      [split; [done|by left]|eapply write_progress; by eauto].
Qed.

Lemma store_steps_inv n db db' :
  nsteps store_step n db db' → store_ok db →
  store_ok db' ∧ ∀ id, progresses (CALL * Z.of_nat n) (stored db id) (stored db' id).
Proof using roundtrip.
  induction 1 as [db|n db1 db2 db3 Hst _ IH]; intros Hok; [split; [done|by left]|].
  destruct (store_step_inv _ _ Hst Hok) as [Hok2 H2]. destruct (IH Hok2) as [Hok3 H3].
  split; [done|]. intros id. replace (CALL * Z.of_nat (S n)) with (CALL + CALL * Z.of_nat n) by lia.
  eapply progresses_trans; [done|unfold CALL, STEP; lia|apply H2|apply H3].
Qed.

Lemma store_steps_ok db db' : rtc store_step db db' → store_ok db → store_ok db'.
Proof using roundtrip. intros [n H]%rtc_nsteps Hok. by eapply store_steps_inv. Qed.
End history.
