(* ===== verification/TreeBooks.v ===== *)
(** * The books of a tree

    Exact double entry for the budgets of a tree: what every account must add
    up to, and that the operations keep it while usage stays within budget. *)

From S2P Require Import Prelude Text RecursiveExecution RecursiveTreeProps RecursiveInvariants RecursiveTerminal TreeMoves Persistence.
Import NodeStatus (RecursiveNodeStatus).

Local Open Scope Z_scope.

(** ** Amounts *)

(** The four quantities of a budget. *)
Inductive dim : Type := Calls | Tokens | Cost | Time.

Definition amount (d : dim) (b : RecursiveBudget) : Z :=
  match d with
  | Calls => calls_remaining b
  | Tokens => tokens_remaining b
  | Cost => cost_micros_remaining b
  | Time => time_ms_remaining b
  end.

Lemma budget_ext a b : (∀ d, amount d a = amount d b) → a = b.
Proof.
  intros H. destruct a, b. f_equal; [apply (H Calls)|apply (H Tokens)|apply (H Cost)|apply (H Time)].
Qed.

Lemma amount_add d a b : amount d (budget_add a b) = Z.min (amount d a + amount d b) u64_max.
Proof. by destruct d. Qed.

Lemma amount_spend d a b : amount d (spend a b) = Z.max (amount d a - amount d b) 0.
Proof. by destruct d. Qed.

Lemma amount_default d : amount d budget_default = 0.
Proof. by destruct d. Qed.

Lemma can_spend_amount a b : can_spend a b = true ↔ ∀ d, amount d b <= amount d a.
Proof.
  rewrite can_spend_spec. unfold budget_le. split.
  - intros (?&?&?&?) []; done.
  - intros H. split_and!; [apply (H Calls)|apply (H Tokens)|apply (H Cost)|apply (H Time)].
Qed.

Lemma budget_ok_amount b : budget_ok b ↔ ∀ d, 0 <= amount d b <= u64_max.
Proof.
  unfold budget_ok, is_u64. split.
  - intros (?&?&?&?) []; done.
  - intros H. split_and!; apply (H Calls) || apply (H Tokens) || apply (H Cost) || apply (H Time).
Qed.

Ltac amounts := rewrite ?amount_add, ?amount_spend, ?amount_default in *.

(** ** Totals over the nodes *)

Definition zsum (l : list Z) : Z := foldr Z.add 0 l.

Lemma zsum_perm l k : l ≡ₚ k → zsum l = zsum k.
Proof. induction 1; unfold zsum in *; cbn [foldr] in *; lia. Qed.

Definition total (g : RecursiveNode → Z) (m : gmap string RecursiveNode) : Z :=
  zsum (g <$> (map_to_list m).*2).

Lemma total_insert_new g m k n :
  m !! k = None → total g (<[k := n]> m) = g n + total g m.
Proof.
  intros H. unfold total. rewrite (zsum_perm _ (g <$> ((k, n) :: map_to_list m).*2)); [done|].
  by rewrite map_to_list_insert.
Qed.

Lemma total_update g m k n n' :
  m !! k = Some n → total g (<[k := n']> m) = total g m - g n + g n'.
Proof.
  intros H. rewrite <-(insert_delete_id m k n H) at 2. rewrite <-insert_delete_eq.
  rewrite !total_insert_new by apply lookup_delete_eq. lia.
Qed.

Lemma total_ext g h m :
  (∀ k n, m !! k = Some n → g n = h n) → total g m = total h m.
Proof.
  induction m as [|k n m Hk IH] using map_ind; intros H; [done|].
  rewrite !total_insert_new by done. f_equal; [apply (H k), lookup_insert_eq|].
  apply IH. intros k' n' Hn'. apply (H k'). rewrite lookup_insert_ne; [done|congruence].
Qed.

Lemma total_nonneg g m : (∀ k n, m !! k = Some n → 0 <= g n) → 0 <= total g m.
Proof.
  induction m as [|k n m Hk IH] using map_ind; intros H; [done|].
  rewrite total_insert_new by done. pose proof (H k n (lookup_insert_eq _ _ _)).
  cut (0 <= total g m); [lia|]. apply IH. intros k' n' Hn'.
  apply (H k'). rewrite lookup_insert_ne; [done|congruence].
Qed.

Lemma total_ge g m k n :
  (∀ k n, m !! k = Some n → 0 <= g n) → m !! k = Some n → g n <= total g m.
Proof.
  intros Hg Hk. rewrite <-(insert_delete_id m k n Hk), total_insert_new by apply lookup_delete_eq.
  cut (0 <= total g (delete k m)); [lia|]. apply total_nonneg.
  intros k' n' [_ H]%lookup_delete_Some. eauto.
Qed.

(** The saturating sums of the checks are exact below the maximum. *)
Lemma foldl_amount d (f : RecursiveNode → RecursiveBudget) ns a :
  0 <= amount d a <= u64_max → Forall (λ n, 0 <= amount d (f n)) ns →
  amount d (foldl budget_add a (f <$> ns))
  = Z.min (amount d a + zsum (amount d ∘ f <$> ns)) u64_max.
Proof.
  intros Ha Hns. revert a Ha. induction Hns as [|n ns Hn Hns IH]; intros a Ha; cbn.
  - lia.
  - rewrite IH by (amounts; int_lia). amounts.
    assert (0 <= zsum (amount d ∘ f <$> ns)).
    { clear IH. unfold zsum, compose. induction Hns; [done|]. cbn in *. lia. }
    unfold zsum, compose in *. int_lia.
Qed.

Lemma total_btree d (f : RecursiveNode → RecursiveBudget) m :
  (∀ k n, m !! k = Some n → 0 <= amount d (f n)) →
  amount d (foldl budget_add budget_default (f <$> btree_values m))
  = Z.min (total (amount d ∘ f) m) u64_max.
Proof.
  intros H. rewrite foldl_amount.
  - amounts. unfold total, btree_values, btree_iter. rewrite (zsum_perm _ (amount d ∘ f <$> (map_to_list m).*2));
      [done|]. by rewrite sort_by_perm.
  - by amounts.
  - apply Forall_forall. intros n [k Hk]%elem_of_btree_values. eauto.
Qed.

(** ** The books *)

(** What a node takes from the child budget of [p]. *)
Definition under (d : dim) (p : string) (c : RecursiveNode) : Z :=
  if bool_decide (n_parent_node_id c = Some p)
  then amount d (n_actual_usage c) + amount d (n_reservation c) else 0.

(** What a node must have reserved: its remaining budget while it lives; nothing
    once it has ended and been released; the root reserves nothing.  [pending]
    are the nodes that ended and are not yet released. *)
Definition due (d : dim) (pending : gset string) (root k : string) (n : RecursiveNode) : Z :=
  if bool_decide (k = root) || (node_terminal n && bool_decide (k ∉ pending))
  then 0 else amount d (n_budget n).

Record node_books (d : dim) (pending : gset string) (root k : string) (n : RecursiveNode) : Prop := {
  nb_budget : 0 <= amount d (n_budget n);
  nb_actual : 0 <= amount d (n_actual_usage n);
  nb_child : 0 <= amount d (n_child_budget n);
  nb_spends : amount d (n_budget n) + amount d (n_actual_usage n) = amount d (n_budget_limit n);
  nb_limit : amount d (n_budget_limit n) <= u64_max;
  nb_child_limit : amount d (n_child_budget_limit n) <= u64_max;
  nb_reserves : amount d (n_reservation n) = due d pending root k n;
}.

Record books (d : dim) (pending : gset string) (t : RecursiveTree) : Prop := {
  bk_root : 0 <= amount d (root_budget t);
  bk_limit : ∃ limit, root_budget_limit t = Some limit ∧ amount d limit <= u64_max
    ∧ amount d (root_budget t) + amount d (spent_budget t) + amount d (reserved_budget t)
      = amount d limit;
  bk_nodes : ∀ k n, nodes t !! k = Some n → node_books d pending (root_node_id t) k n;
  bk_children : ∀ k n, nodes t !! k = Some n →
    amount d (n_child_budget n) + total (under d k) (nodes t) = amount d (n_child_budget_limit n);
  bk_spent : total (amount d ∘ n_actual_usage) (nodes t) = amount d (spent_budget t);
  bk_reserved : total (amount d ∘ n_reservation) (nodes t) = amount d (reserved_budget t);
}.

Lemma due_nonneg d E root k n : 0 <= amount d (n_budget n) → 0 <= due d E root k n.
Proof. unfold due. by case_match. Qed.

Lemma node_books_reservation d E root k n : node_books d E root k n → 0 <= amount d (n_reservation n).
Proof. intros []. rewrite nb_reserves0. by apply due_nonneg. Qed.

Lemma books_spent d E t : books d E t → 0 <= amount d (spent_budget t).
Proof.
  intros []. rewrite <-bk_spent0. apply total_nonneg. intros k n Hn. by eapply bk_nodes0.
Qed.

Lemma books_reserved d E t : books d E t → 0 <= amount d (reserved_budget t).
Proof.
  intros []. rewrite <-bk_reserved0. apply total_nonneg. intros k n Hn.
  by eapply node_books_reservation, bk_nodes0.
Qed.

(** A node's reservation is part of the tree's. *)
Lemma books_reservation_le d E t k n :
  books d E t → nodes t !! k = Some n →
  amount d (n_reservation n) <= amount d (reserved_budget t).
Proof.
  intros B Hn. rewrite <-(bk_reserved _ _ _ B).
  apply (total_ge (amount d ∘ n_reservation) _ k n); [|done].
  intros k' n' Hn'. by eapply node_books_reservation, bk_nodes.
Qed.

Lemma due_other d E E' root k k' n :
  k' ≠ k → (∀ k', k' ≠ k → k' ∈ E' ↔ k' ∈ E) → due d E' root k' n = due d E root k' n.
Proof.
  intros Hne HE. unfold due.
  by replace (bool_decide (k' ∉ E')) with (bool_decide (k' ∉ E))
    by (apply bool_decide_ext; by rewrite (HE k')).
Qed.

Lemma node_books_other d E E' root k k' n :
  k' ≠ k → (∀ k', k' ≠ k → k' ∈ E' ↔ k' ∈ E) → node_books d E root k' n → node_books d E' root k' n.
Proof. intros Hne HE []. split; try done. by rewrite (due_other d E E' root k k'). Qed.

(** Posting one node: money may move between its budget, its usage and its
    reservation, and between the tree's accounts accordingly. *)
Lemma books_post d E E' t t' k n n' :
  books d E t → nodes t !! k = Some n → nodes t' = <[k := n']> (nodes t) →
  fixed n' = fixed n → root_node_id t' = root_node_id t →
  root_budget_limit t' = root_budget_limit t →
  0 <= amount d (n_budget n') → 0 <= amount d (n_actual_usage n') →
  amount d (n_child_budget n') = amount d (n_child_budget n) →
  amount d (n_budget n') + amount d (n_actual_usage n')
    = amount d (n_budget n) + amount d (n_actual_usage n) →
  (n_parent_node_id n = None
   ∨ amount d (n_actual_usage n') + amount d (n_reservation n')
     = amount d (n_actual_usage n) + amount d (n_reservation n)) →
  amount d (n_reservation n') = due d E' (root_node_id t) k n' →
  (∀ k', k' ≠ k → k' ∈ E' ↔ k' ∈ E) →
  0 <= amount d (root_budget t') →
  amount d (spent_budget t') - amount d (spent_budget t)
    = amount d (n_actual_usage n') - amount d (n_actual_usage n) →
  amount d (reserved_budget t') - amount d (reserved_budget t)
    = amount d (n_reservation n') - amount d (n_reservation n) →
  amount d (root_budget t') + amount d (spent_budget t') + amount d (reserved_budget t')
    = amount d (root_budget t) + amount d (spent_budget t) + amount d (reserved_budget t) →
  books d E' t'.
Proof.
  intros [Brb (limit & Hl & Hlm & Hsum) Bn Bc Bs Br] Hn En Ef Eroot Elim Hb Ha Hc Hspend Hpar Hdue
    HE Hrb Hds Hdr Htot.
  pose proof (f_equal n_parent_node_id Ef) as Ep. pose proof (f_equal n_budget_limit Ef) as El.
  pose proof (f_equal n_child_budget_limit Ef) as Ecl. cbn in Ep, El, Ecl.
  destruct (Bn _ _ Hn).
  assert (Hunder : ∀ p, total (under d p) (nodes t') = total (under d p) (nodes t)).
  { intros p. rewrite En, (total_update _ _ _ n) by done. unfold under. rewrite Ep.
    case_bool_decide; [|lia]. destruct Hpar; [congruence|lia]. }
  split; [done| | | | |].
  - exists limit. rewrite Elim. split_and!; [done|done|lia].
  - rewrite En, Eroot. intros k' x [[<- <-]|[Hne Hx]]%lookup_insert_Some.
    + split; try done; [lia|rewrite El; lia|congruence|congruence].
    + eapply node_books_other; [by apply not_eq_sym|exact HE|by apply Bn].
  - intros k' x Hx. rewrite Hunder. rewrite En in Hx.
    apply lookup_insert_Some in Hx as [[<- <-]|[Hne Hx]]; [|by apply Bc].
    rewrite Hc, Ecl. by apply Bc.
  - rewrite En, (total_update _ _ _ n) by done. unfold compose in *. lia.
  - rewrite En, (total_update _ _ _ n) by done. unfold compose in *. lia.
Qed.

(** ** Releasing reservations *)

Lemma books_root_le d E t : books d E t → amount d (root_budget t) <= u64_max
  ∧ amount d (root_budget t) + amount d (reserved_budget t) <= u64_max.
Proof.
  intros B. pose proof (books_spent _ _ _ B). pose proof (books_reserved _ _ _ B).
  destruct B as [? (limit & _ & ? & ?) _ _ _ _]. lia.
Qed.

(** A child's usage and reservation are part of its parent's child budget. *)
Lemma books_under_le d E t k n p pn :
  books d E t → nodes t !! k = Some n → n_parent_node_id n = Some p → nodes t !! p = Some pn →
  amount d (n_child_budget pn) + amount d (n_reservation n) <= u64_max.
Proof.
  intros B Hn Hp Hpn. destruct (bk_nodes _ _ _ B _ _ Hn), (bk_nodes _ _ _ B _ _ Hpn).
  pose proof (bk_children _ _ _ B _ _ Hpn) as Hc.
  assert (Hle : under d p n <= total (under d p) (nodes t)).
  { apply (total_ge _ _ k n); [|done]. intros k' n' Hn'. unfold under. case_bool_decide; [|done].
    pose proof (bk_nodes _ _ _ B _ _ Hn') as Hb. pose proof (node_books_reservation _ _ _ _ _ Hb).
    destruct Hb. lia. }
  unfold under in Hle at 1. rewrite bool_decide_true in Hle by done. lia.
Qed.

Lemma due_released d E root k n b :
  bool_decide (k = root) || node_terminal n = true →
  due d (E ∖ {[k]}) root k (n <| n_reservation := b |>) = 0.
Proof.
  intros H. unfold due, node_terminal in *. cbn. rewrite (bool_decide_true (k ∉ E ∖ {[k]})) by set_solver.
  rewrite andb_true_r. by rewrite H.
Qed.

Lemma books_release d E t k n :
  books d E t → nodes t !! k = Some n →
  bool_decide (k = root_node_id t) || node_terminal n = true →
  (∀ p, n_parent_node_id n = Some p → p ≠ k ∧ is_Some (nodes t !! p)) →
  books d (E ∖ {[k]}) (release_node_reservation_for_persistence k t).
Proof.
  intros B Hn Hend Hpar. pose proof (bk_nodes _ _ _ B _ _ Hn) as Hnb.
  pose proof (node_books_reservation _ _ _ _ _ Hnb) as Hr.
  pose proof (books_reservation_le _ _ _ _ _ B Hn) as Hrr.
  pose proof (books_root_le _ _ _ B) as [Hrb1 Hrb2].
  assert (HE : ∀ k', k' ≠ k → k' ∈ E ∖ {[k]} ↔ k' ∈ E) by set_solver.
  unfold release_node_reservation_for_persistence. rewrite Hn. cbv zeta.
  set (n' := n <| n_reservation := budget_default |>).
  assert (Hdue : due d (E ∖ {[k]}) (root_node_id t) k n' = 0) by by apply due_released.
  destruct (n_parent_node_id n) as [p|] eqn:Hp.
  - destruct (Hpar p eq_refl) as [Hpk [pn Hpn]].
    pose proof (books_under_le _ _ _ _ _ _ _ B Hn Hp Hpn) as Hu.
    cbn [nodes upd]. rewrite lookup_insert_ne, Hpn by done.
    destruct B as [Brb (limit & Hl & Hlm & Hsum) Bn Bc Bs Br]. destruct Hnb.
    assert (Hunder : ∀ q pn', n_parent_node_id pn' = n_parent_node_id pn →
      n_actual_usage pn' = n_actual_usage pn → n_reservation pn' = n_reservation pn →
      total (under d q) (<[p := pn']> (<[k := n']> (nodes t)))
      = total (under d q) (nodes t) - if bool_decide (p = q) then amount d (n_reservation n) else 0).
    { intros q pn' E1 E2 E3. rewrite (total_update _ _ _ pn), (total_update _ _ _ n) by
        (done || by rewrite lookup_insert_ne). unfold under. rewrite E1, E2, E3. cbn. rewrite Hp.
      rewrite amount_default. rewrite (bool_decide_ext (Some p = Some q) (p = q)) by naive_solver.
      case_bool_decide; case_bool_decide; lia. }
    split; cbn.
    + rewrite amount_add. lia.
    + exists limit. split_and!; [done|done|]. amounts. lia.
    + intros k' x [[<- <-]|[Hne [[<- <-]|[Hne2 Hx]]%lookup_insert_Some]]%lookup_insert_Some.
      * destruct (node_books_other d E (E ∖ {[k]}) (root_node_id t) k p pn Hpk HE (Bn _ _ Hpn)).
        split; try done. cbn. amounts. lia.
      * split; try done. cbn. by rewrite Hdue, amount_default.
      * eapply node_books_other; [by apply not_eq_sym|exact HE|by apply Bn].
    + intros k' x Hx. rewrite Hunder by done.
      apply lookup_insert_Some in Hx as [[<- <-]|[Hne [[<- <-]|[Hne2 Hx]]%lookup_insert_Some]].
      * rewrite bool_decide_true by done. cbn. amounts. pose proof (Bc _ _ Hpn). lia.
      * rewrite bool_decide_false by done. cbn. pose proof (Bc _ _ Hn). lia.
      * rewrite bool_decide_false by done. pose proof (Bc _ _ Hx). lia.
    + rewrite (total_update _ _ _ pn), (total_update _ _ _ n) by (done || by rewrite lookup_insert_ne).
      unfold compose in *. cbn. lia.
    + rewrite (total_update _ _ _ pn), (total_update _ _ _ n) by (done || by rewrite lookup_insert_ne).
      unfold compose in *. cbn. amounts. lia.
  - pose proof (bk_root _ _ _ B). destruct Hnb.
    eapply (books_post d E _ t _ k n n'); try done; cbn; amounts; try lia. by left.
Qed.

(** ** Closing nodes *)

(** Every parent is another node of the tree. *)
Definition parented (t : RecursiveTree) : Prop :=
  ∀ k n p, nodes t !! k = Some n → n_parent_node_id n = Some p → p ≠ k ∧ is_Some (nodes t !! p).

Lemma fixed_parented t t' : fixed_tree t' = fixed_tree t → parented t → parented t'.
Proof.
  intros E Hp k n p Hn Hnp. destruct (fixed_lookup _ _ _ _ E Hn) as (n0 & Hn0 & En).
  apply (f_equal n_parent_node_id) in En. cbn in En.
  destruct (Hp k n0 p Hn0) as [Hne [pn Hpn]]; [congruence|]. split; [done|].
  destruct (fixed_lookup _ _ _ _ (eq_sym E) Hpn) as (pn' & ? & _). eauto.
Qed.

(** The accounts see neither leases nor states. *)
Lemma books_ext d E t t' :
  nodes t' = nodes t → root_node_id t' = root_node_id t → root_budget t' = root_budget t →
  root_budget_limit t' = root_budget_limit t → spent_budget t' = spent_budget t →
  reserved_budget t' = reserved_budget t → books d E t → books d E t'.
Proof. intros E1 E2 E3 E4 E5 E6 []. split; rewrite ?E1, ?E2, ?E3, ?E4, ?E5, ?E6; done. Qed.

Lemma books_pending d E E' t : books d E t → E' = E → books d E' t.
Proof. by intros B ->. Qed.

Lemma live_not_terminal n : is_live (n_status n) = true → node_terminal n = false.
Proof. unfold node_terminal. by destruct (n_status n). Qed.

(** Changing the status of a node: what it reserves decides whether it has to be
    released. *)
Lemma books_status d E E' t t' k n n' :
  books d E t → nodes t !! k = Some n → nodes t' = <[k := n']> (nodes t) →
  fixed n' = fixed n → root_node_id t' = root_node_id t →
  root_budget_limit t' = root_budget_limit t → root_budget t' = root_budget t →
  spent_budget t' = spent_budget t → reserved_budget t' = reserved_budget t →
  n_budget n' = n_budget n → n_actual_usage n' = n_actual_usage n →
  n_child_budget n' = n_child_budget n → n_reservation n' = n_reservation n →
  (∀ k', k' ≠ k → k' ∈ E' ↔ k' ∈ E) →
  due d E' (root_node_id t) k n' = due d E (root_node_id t) k n → books d E' t'.
Proof.
  intros B Hn En Ef Er El Erb Es Ers Eb Ea Ec Eres HE Hdue.
  pose proof (bk_nodes _ _ _ B _ _ Hn) as [].
  eapply (books_post d E E' t t' k n n'); try done; rewrite ?Eb, ?Ea, ?Ec, ?Eres, ?Erb, ?Es, ?Ers;
    first [lia|by rewrite Hdue|by apply B].
Qed.

Lemma books_fail_node d E t k n reason :
  books d E t → nodes t !! k = Some n → is_live (n_status n) = true →
  books d (E ∪ {[k]}) (fail_node reason t k).
Proof.
  intros B Hn Hl. unfold fail_node. rewrite Hn.
  assert (Hdue : due d (E ∪ {[k]}) (root_node_id t) k (n <| n_lease_id := None |>
      <| n_status := NodeStatus.Failed |> <| n_failure_reason := Some reason |>
      <| n_version := u64_incr (n_version n) |>) = due d E (root_node_id t) k n).
  { unfold due. rewrite (live_not_terminal _ Hl). cbn.
    by rewrite (bool_decide_false (k ∉ E ∪ {[k]})) by set_solver. }
  destruct (n_lease_id n); (eapply (books_status d E _ t); [done|exact Hn|done..| |exact Hdue]);
    set_solver.
Qed.

Lemma books_fail_all d E t ids reason :
  books d E t → NoDup ids →
  (∀ k, k ∈ ids → ∃ n, nodes t !! k = Some n ∧ is_live (n_status n) = true) →
  books d (E ∪ list_to_set ids) (foldl (fail_node reason) t ids).
Proof.
  revert E t. induction ids as [|k ids IH]; intros E t B Hnd Hlive; cbn [foldl].
  - eapply books_pending; [exact B|set_solver].
  - apply NoDup_cons in Hnd as [Hk Hnd]. destruct (Hlive k) as (n & Hn & Hl); [left|].
    eapply books_pending; [apply IH; [by eapply books_fail_node|done|]|set_solver].
    intros k' Hk'. destruct (Hlive k') as (n' & Hn' & Hl'); [by right|]. exists n'. split; [|done].
    unfold fail_node. rewrite Hn. destruct (n_lease_id n); cbn; rewrite lookup_insert_ne; [done|congruence|done|congruence].
Qed.

Lemma terminal_outcome t t' k :
  outcome_of t' k = outcome_of t k →
  (∃ n, nodes t !! k = Some n ∧ node_terminal n = true) →
  ∃ n, nodes t' !! k = Some n ∧ node_terminal n = true.
Proof.
  unfold outcome_of. intros E (n & Hn & Ht). rewrite Hn in E.
  destruct (nodes t' !! k) as [n'|]; [|done]. injection E as E _ _. exists n'. split; [done|].
  revert Ht. unfold node_terminal. by rewrite E.
Qed.

Lemma books_release_all d E t ids :
  books d E t → parented t →
  (∀ k, k ∈ ids → ∃ n, nodes t !! k = Some n ∧ node_terminal n = true) →
  books d (E ∖ list_to_set ids) (release_all t ids).
Proof.
  unfold release_all. revert E t. induction ids as [|k ids IH]; intros E t B Hp Hend; cbn [foldl].
  - eapply books_pending; [exact B|set_solver].
  - destruct (Hend k) as (n & Hn & Ht); [left|].
    eapply books_pending; [apply IH|].
    + eapply books_release; [exact B|exact Hn|by rewrite Ht, orb_true_r|]. intros p. by apply Hp.
    + eapply fixed_parented; [apply (mv_fixed _ _ _ _ (release_moves k t))|done].
    + intros k' Hk'. eapply terminal_outcome; [apply outcome_of_release|]. apply Hend. by right.
    + set_solver.
Qed.
