(* ===== verification/TreeStorable.v ===== *)
(** * Trees that can be stored

    The persistence checks as a characterisation: a tree passes them exactly when
    its fixed part, its books, its leases and its receipts are in order.  The
    fixed part never changes, so an operation that keeps the other three leaves a
    tree that can be stored. *)

From S2P Require Import Prelude Text RecursiveExecution RecursiveTreeProps RecursiveInvariants RecursiveTerminal TreeMoves Persistence PersistenceProps TreeBooks.
Import NodeStatus (RecursiveNodeStatus).

Local Open Scope Z_scope.

(** ** Equal fixed parts *)

Lemma fixed_projections t t' :
  fixed_tree t' = fixed_tree t →
  (schema_version t' = schema_version t ∧ root_run_id t' = root_run_id t
   ∧ workflow_id t' = workflow_id t ∧ root_node_id t' = root_node_id t
   ∧ root_agent_id t' = root_agent_id t ∧ root_recursive_marker t' = root_recursive_marker t
   ∧ root_creation_receipt_sha256 t' = root_creation_receipt_sha256 t)
  ∧ (root_scope t' = root_scope t ∧ root_capabilities t' = root_capabilities t
   ∧ root_tenant_id t' = root_tenant_id t ∧ root_workspace_id t' = root_workspace_id t
   ∧ root_budget_limit t' = root_budget_limit t
   ∧ root_child_budget_limit t' = root_child_budget_limit t)
  ∧ accepted_proposals t' = accepted_proposals t ∧ receipts t' = receipts t
  ∧ fixed <$> nodes t' = fixed <$> nodes t ∧ size (nodes t') = size (nodes t).
Proof.
  intros E. pose proof (f_equal nodes E) as En. cbn in En.
  assert (size (nodes t') = size (nodes t))
    by (apply (f_equal size) in En; by rewrite !map_size_fmap in En).
  split_and!; try done;
    first [apply (f_equal schema_version E)|apply (f_equal root_run_id E)
      |apply (f_equal workflow_id E)|apply (f_equal root_node_id E)|apply (f_equal root_agent_id E)
      |apply (f_equal root_recursive_marker E)|apply (f_equal root_creation_receipt_sha256 E)
      |apply (f_equal root_scope E)|apply (f_equal root_capabilities E)
      |apply (f_equal root_tenant_id E)|apply (f_equal root_workspace_id E)
      |apply (f_equal root_budget_limit E)|apply (f_equal root_child_budget_limit E)
      |apply (f_equal accepted_proposals E)|apply (f_equal receipts E)].
Qed.

Lemma fixed_node_projections n n' :
  fixed n' = fixed n →
  (n_node_id n' = n_node_id n ∧ n_root_run_id n' = n_root_run_id n
   ∧ n_parent_node_id n' = n_parent_node_id n ∧ n_proposal_id n' = n_proposal_id n
   ∧ n_depth n' = n_depth n ∧ n_objective_fingerprint n' = n_objective_fingerprint n
   ∧ n_ancestor_fingerprints n' = n_ancestor_fingerprints n)
  ∧ (n_scope n' = n_scope n ∧ n_capabilities n' = n_capabilities n
   ∧ n_tenant_id n' = n_tenant_id n ∧ n_workspace_id n' = n_workspace_id n)
  ∧ n_budget_limit n' = n_budget_limit n ∧ n_child_budget_limit n' = n_child_budget_limit n
  ∧ n_accepted_children n' = n_accepted_children n ∧ n_evidence_refs n' = n_evidence_refs n.
Proof.
  intros E. split_and!;
    first [apply (f_equal n_node_id E)|apply (f_equal n_root_run_id E)
      |apply (f_equal n_parent_node_id E)|apply (f_equal n_proposal_id E)
      |apply (f_equal n_depth E)|apply (f_equal n_objective_fingerprint E)
      |apply (f_equal n_ancestor_fingerprints E)|apply (f_equal n_scope E)
      |apply (f_equal n_capabilities E)|apply (f_equal n_tenant_id E)
      |apply (f_equal n_workspace_id E)|apply (f_equal n_budget_limit E)
      |apply (f_equal n_child_budget_limit E)|apply (f_equal n_accepted_children E)
      |apply (f_equal n_evidence_refs E)].
Qed.

Ltac fixed_tree_eqs F :=
  destruct (fixed_projections _ _ F) as
    ((Esch & Erun & Ewf & Eroot & Eagent & Emark & Ecr) & (Esc & Ecap & Eten & Ews & Elim & Eclim)
     & Eacc & Erec & Enodes & Esize).

Ltac fixed_node_eqs F :=
  destruct (fixed_node_projections _ _ F) as
    ((Enid & Enrun & Enpar & Enprop & Endep & Enfp & Enanc) & (Ensc & Encap & Enten & Enws)
     & Enlim & Enclim & Enkids & Enev).

(** ** The loop over the nodes *)

Section iff.
Context `{Deps : RecursiveDeps} `{TE : TreeEncoder}.

(** The checks of one node that do not depend on the others. *)
Record node_valid (t : RecursiveTree) (n : RecursiveNode) : Prop := {
  nv_bounds : node_bounds t n = Ok ();
  nv_budgets : node_budgets t n = Ok ();
  nv_parent : ∀ p, n_parent_node_id n = Some p → check_parent t n p = Ok ();
  nv_root : n_node_id n = root_node_id t → n_ancestor_fingerprints n = [];
  nv_proposal :
    match n_proposal_id n with
    | Some q => n_node_id n = derived_node_id (root_run_id t) q (n_objective_fingerprint n)
        ∧ q ∈ accepted_proposals t ∧ is_Some (receipts t !! q)
    | None => n_node_id n = root_node_id t
    end;
  nv_lease : node_lease t n = Ok ();
  nv_scope : validate_scope (n_scope n) = Ok ();
  nv_evidence : evidence_too_large (n_evidence_refs n) = false;
}.

Lemma node_lineage_iff t n a a' :
  node_lineage t n a = Ok a' ↔
  (∀ p, n_parent_node_id n = Some p → check_parent t n p = Ok ())
  ∧ (n_node_id n = root_node_id t → n_ancestor_fingerprints n = [])
  ∧ (n_objective_fingerprint n ∉ fingerprints a)
  ∧ a' = (tally n a) <| proposal_ids := proposal_ids a |>.
Proof.
  unfold node_lineage, tally. cbn.
  case_bool_decide as Hf; [by split; [|intros (_ & _ & ? & _)]|].
  assert (Hanc : bool_decide (n_node_id n = root_node_id t)
      && negb (bool_decide (n_ancestor_fingerprints n = [])) = false
    ↔ (n_node_id n = root_node_id t → n_ancestor_fingerprints n = [])).
  { repeat case_bool_decide; cbn; naive_solver. }
  rewrite <-Hanc. clear Hanc. destruct (bool_decide _ && _); [by split; [|intros (_ & ? & _)]|].
  destruct (n_parent_node_id n) as [p|].
  - destruct (check_parent t n p) as [[]|e] eqn:Ep.
    + split; [intros [= <-]; split_and!; try done; by intros ? [= <-]|by intros (_ & _ & _ & ->)].
    + split; [done|]. intros (Hp & _). specialize (Hp p eq_refl). congruence.
  - split; [by intros [= <-]|by intros (_ & _ & _ & ->)].
Qed.

Lemma node_proposal_iff t n a a' :
  node_proposal t n a = Ok a' ↔
  match n_proposal_id n with
  | Some q => n_node_id n = derived_node_id (root_run_id t) q (n_objective_fingerprint n)
      ∧ q ∈ accepted_proposals t ∧ is_Some (receipts t !! q)
  | None => n_node_id n = root_node_id t
  end
  ∧ (∀ q, n_proposal_id n = Some q → q ∉ proposal_ids a)
  ∧ a' = a <| proposal_ids := match n_proposal_id n with
                              | Some q => {[q]} ∪ proposal_ids a
                              | None => proposal_ids a
                              end |>.
Proof.
  unfold node_proposal. destruct (n_proposal_id n) as [q|].
  - case_bool_decide as H1; [|naive_solver]. case_bool_decide as H2; [naive_solver|].
    case_bool_decide as H3; [|naive_solver].
    destruct (receipts t !! q); cbn; naive_solver.
  - case_bool_decide as H1; [|naive_solver]. destruct a; naive_solver.
Qed.

Lemma validate_node_iff t n a a' :
  validate_node t n a = Ok a' ↔
  node_valid t n ∧ (n_objective_fingerprint n ∉ fingerprints a)
  ∧ (∀ q, n_proposal_id n = Some q → q ∉ proposal_ids a) ∧ a' = tally n a.
Proof.
  unfold validate_node. split.
  - intros H. passed H. injection H as <-.
    match goal with Hl : node_lineage _ _ _ = Ok _ |- _ => apply node_lineage_iff in Hl as (?&?&?&->) end.
    match goal with Hl : node_proposal _ _ _ = Ok _ |- _ => apply node_proposal_iff in Hl as (?&?&->) end.
    by split_and!.
  - intros ([] & Hf & Hq & ->). rewrite nv_bounds0, nv_budgets0.
    rewrite (proj2 (node_lineage_iff t n a _)) by (split_and!; done).
    rewrite (proj2 (node_proposal_iff t n _ (tally n a))) by (split_and!; [done|done|by destruct a]).
    by rewrite nv_lease0, nv_scope0, nv_evidence0.
Qed.

Lemma validate_nodes_iff t ns a a' :
  validate_nodes t ns a = Ok a' ↔
  Forall (node_valid t) ns ∧ NoDup (n_objective_fingerprint <$> ns)
  ∧ (∀ n, n ∈ ns → n_objective_fingerprint n ∉ fingerprints a)
  ∧ NoDup (omap n_proposal_id ns)
  ∧ (∀ q, q ∈ omap n_proposal_id ns → q ∉ proposal_ids a) ∧ a' = tally_all ns a.
Proof.
  revert a. induction ns as [|n ns IH]; intros a; cbn [validate_nodes].
  { split; [intros [= <-]|naive_solver]. split_and!; try done; try constructor; set_solver. }
  split.
  - intros H. destruct (validate_node t n a) as [a1|] eqn:En; [|done].
    apply validate_node_iff in En as (Hv & Hf & Hq & ->).
    apply IH in H as (Hall & Hnf & Hfs & Hnq & Hqs & ->). split_and!.
    + by constructor.
    + rewrite fmap_cons. apply NoDup_cons. split; [|done].
      intros (m & E & Hm)%list_elem_of_fmap. apply (Hfs m Hm). cbn. rewrite E. set_solver.
    + intros m [->|Hm]%elem_of_cons; [done|]. specialize (Hfs m Hm). cbn in Hfs. set_solver.
    + cbn. destruct (n_proposal_id n) as [q|] eqn:Eq; [|done]. apply NoDup_cons. split; [|done].
      intros Hin. apply (Hqs q Hin). cbn. rewrite Eq. set_solver.
    + intros q. cbn in *. destruct (n_proposal_id n) as [q'|]; [|by apply Hqs].
      intros [->|Hin]%elem_of_cons; [by apply Hq|]. specialize (Hqs q Hin). set_solver.
    + done.
  - intros (Hall & Hnf & Hfs & Hnq & Hqs & ->). apply Forall_cons in Hall as [Hv Hall].
    rewrite fmap_cons in Hnf. apply NoDup_cons in Hnf as [Hf Hnf].
    rewrite (proj2 (validate_node_iff t n a (tally n a))).
    2: { split_and!; [done|apply Hfs; left| |done]. intros q Eq. apply Hqs. cbn. rewrite Eq. left. }
    apply IH. cbn in Hnq, Hqs. split_and!; try done.
    + intros m Hm. cbn. apply not_elem_of_union. split; [|apply Hfs; by right].
      apply not_elem_of_singleton. intros E. apply Hf. rewrite <-E. by apply list_elem_of_fmap_2.
    + destruct (n_proposal_id n); [by apply NoDup_cons in Hnq as [_ ?]|done].
    + intros q Hq. cbn. destruct (n_proposal_id n) as [q'|]; [|by apply Hqs].
      apply NoDup_cons in Hnq as [Hni _]. specialize (Hqs q ltac:(by right)). set_solver.
Qed.

(** ** The fixed part decides the static checks *)

Section transfer.
Context (t t' : RecursiveTree).
Hypothesis F : fixed_tree t' = fixed_tree t.

Lemma check_identity_transfer :
  check_identity t = Ok () →
  Z.of_nat (size (active_leases t')) <= MAX_RECURSIVE_LEASES → check_identity t' = Ok ().
Proof.
  fixed_tree_eqs F. unfold check_identity. intros H Hl.
  rewrite Esch, Esize, Esc, Erun, Ewf, Eroot, Eagent, Emark, Ecr, Eclim.
  replace (MAX_RECURSIVE_LEASES <? _) with false by (symmetry; by apply Z.ltb_ge).
  passed H. rewrite orb_false_r. apply orb_false_iff in Hc0 as [-> _].
  by repeat match goal with E : ?x = _ |- context [?x] => rewrite E end.
Qed.

Lemma check_root_transfer : check_root t = Ok () → check_root t' = Ok ().
Proof.
  fixed_tree_eqs F. unfold check_root. intros H. passed H. apply ok_or_Ok in Hr.
  destruct (fixed_lookup _ _ _ _ (eq_sym F) Hr) as (r' & Hr' & Er). fixed_node_eqs Er.
  rewrite Eroot, Hr'. cbn. rewrite <-Enrun, <-Enpar, <-Endep, <-Ensc, <-Encap, <-Enten, <-Enws in *.
  by rewrite Erun, Esc, Ecap, Eten, Ews, Hc.
Qed.

Lemma check_parent_transfer n n' p :
  fixed n' = fixed n → check_parent t n p = Ok () → check_parent t' n' p = Ok ().
Proof.
  intros En. fixed_node_eqs En. unfold check_parent. intros H. passed H. apply ok_or_Ok in Hr.
  destruct (fixed_lookup _ _ _ _ (eq_sym F) Hr) as (p' & Hp' & Ep). rewrite Hp'. cbn.
  rewrite Endep, Enanc, Encap, Ensc, Enten, Enws. clear Enid Enrun Enpar Enprop Endep Enfp Enanc
    Ensc Encap Enten Enws Enlim Enclim Enkids Enev. fixed_node_eqs Ep.
  by rewrite <-Endep, <-Enanc, <-Enfp, <-Encap, <-Ensc, <-Enten, <-Enws, Hc.
Qed.

Lemma node_static_transfer n n' :
  fixed n' = fixed n → node_valid t n →
  node_budgets t' n' = Ok () → node_lease t' n' = Ok () → node_valid t' n'.
Proof.
  intros En Hv Hb Hl. fixed_tree_eqs F. fixed_node_eqs En. destruct Hv. split; try done.
  - revert nv_bounds0. unfold node_bounds.
    by rewrite Endep, Enkids, Enfp, Enanc, Enrun, Enid, Enpar, Ensc, Encap, Erun, Eroot.
  - intros p. rewrite Enpar. intros Hp. by apply (check_parent_transfer n), nv_parent0.
  - by rewrite Enid, Eroot, Enanc.
  - by rewrite Enprop, Enid, Enfp, Erun, Eroot, Eacc, Erec.
  - by rewrite Ensc.
  - by rewrite Enev.
Qed.

Lemma fixed_values_perm :
  fixed <$> btree_values (nodes t') ≡ₚ fixed <$> btree_values (nodes t).
Proof.
  fixed_tree_eqs F. unfold btree_values, btree_iter. rewrite !sort_by_perm.
  assert (E : ∀ m : gmap string RecursiveNode,
    fixed <$> (map_to_list m).*2 ≡ₚ (map_to_list (fixed <$> m)).*2).
  { intros m. rewrite map_to_list_fmap, <-!list_fmap_compose. done. }
  by rewrite !E, Enodes.
Qed.

Lemma fixed_fmap_perm {A} (f : RecursiveNode → A) :
  (∀ n, f (fixed n) = f n) →
  f <$> btree_values (nodes t') ≡ₚ f <$> btree_values (nodes t).
Proof.
  intros Hf. assert (E : ∀ ns : list RecursiveNode, f <$> ns = f <$> (fixed <$> ns)).
  { intros ns. rewrite <-list_fmap_compose. apply list_fmap_ext. intros i n _. by rewrite <-Hf. }
  rewrite (E (btree_values (nodes t'))), (E (btree_values (nodes t))).
  by rewrite fixed_values_perm.
Qed.

Lemma fixed_proposals_perm :
  omap n_proposal_id (btree_values (nodes t')) ≡ₚ omap n_proposal_id (btree_values (nodes t)).
Proof.
  assert (E : ∀ ns : list RecursiveNode, omap n_proposal_id ns = omap id (n_proposal_id <$> ns)).
  { induction ns as [|n ns IH]; [done|]. cbn. rewrite IH. by destruct (n_proposal_id n). }
  rewrite !E. by rewrite (fixed_fmap_perm n_proposal_id).
Qed.

Lemma children_len ns p :
  vec_len (children_of ns p) = vec_len (filter (.= Some p) (n_parent_node_id <$> ns)).
Proof.
  unfold vec_len, children_of. f_equal. induction ns as [|n ns IH]; [done|].
  rewrite fmap_cons, !filter_cons. repeat case_decide; cbn; by rewrite ?IH.
Qed.

Lemma children_transfer p :
  vec_len (children_of (btree_values (nodes t')) p)
  = vec_len (children_of (btree_values (nodes t)) p).
Proof.
  rewrite !children_len. unfold vec_len. by rewrite (fixed_fmap_perm n_parent_node_id).
Qed.
End transfer.

(** ** Balanced books pass the budget checks *)

Definition balanced (t : RecursiveTree) : Prop := ∀ d, books d ∅ t.

Lemma balanced_aggregate t : balanced t → check_aggregate_budget t = Ok ().
Proof.
  intros B. unfold check_aggregate_budget.
  destruct (bk_limit _ _ _ (B Calls)) as (limit & Hl & _). rewrite Hl.
  assert (H : ∀ d, 0 <= amount d (root_budget t) ∧ 0 <= amount d (spent_budget t)
    ∧ 0 <= amount d (reserved_budget t) ∧ amount d limit <= u64_max
    ∧ amount d (root_budget t) + amount d (spent_budget t) + amount d (reserved_budget t)
      = amount d limit).
  { intros d. destruct (bk_limit _ _ _ (B d)) as (limit' & Hl' & ? & ?). simplify_eq.
    split_and!; [apply (B d)|by eapply books_spent|by eapply books_reserved|done|done]. }
  rewrite (proj2 (can_spend_amount limit (root_budget t))) by (intros d; specialize (H d); lia).
  rewrite (proj2 (can_spend_amount limit _)) by (intros d; specialize (H d); amounts; lia).
  rewrite (bool_decide_true (budget_add _ _ = limit)) by
    (apply budget_ext; intros d; specialize (H d); amounts; lia).
  by rewrite andb_false_r.
Qed.

(** The root's limits are the tree's. *)
Definition root_limits (t : RecursiveTree) : Prop := ∀ n, nodes t !! root_node_id t = Some n →
  root_budget_limit t = Some (n_budget_limit n)
  ∧ root_child_budget_limit t = Some (n_child_budget_limit n).

Lemma fixed_root_limits t t' : fixed_tree t' = fixed_tree t → root_limits t → root_limits t'.
Proof.
  intros F Hr n Hn. fixed_tree_eqs F. rewrite Eroot in Hn.
  destruct (fixed_lookup _ _ _ _ F Hn) as (n0 & Hn0 & En). fixed_node_eqs En.
  rewrite Elim, Eclim, Enlim, Enclim. by apply Hr.
Qed.

Lemma fixed_keyed t t' : fixed_tree t' = fixed_tree t → keyed t → keyed t'.
Proof.
  intros F Hk k n Hn. destruct (fixed_lookup _ _ _ _ F Hn) as (n0 & Hn0 & En).
  fixed_node_eqs En. rewrite Enid, Endep. by apply Hk.
Qed.

Lemma under_nonneg d E t p k n :
  books d E t → nodes t !! k = Some n → 0 <= under d p n.
Proof.
  intros B Hn. unfold under. case_bool_decide; [|done].
  pose proof (bk_nodes _ _ _ B _ _ Hn) as Hb. pose proof (node_books_reservation _ _ _ _ _ Hb).
  destruct Hb. lia.
Qed.

Lemma balanced_child d t k n :
  balanced t → nodes t !! k = Some n →
  0 <= total (under d k) (nodes t)
  ∧ amount d (n_child_budget n) + total (under d k) (nodes t) = amount d (n_child_budget_limit n)
  ∧ 0 <= amount d (n_child_budget n) ∧ amount d (n_child_budget_limit n) <= u64_max.
Proof.
  intros B Hn. specialize (B d). destruct (bk_nodes _ _ _ B _ _ Hn).
  split_and!; [|by apply B|done|done]. apply total_nonneg. eauto using under_nonneg.
Qed.

Lemma balanced_node t k n :
  balanced t → root_limits t → nodes t !! k = Some n → n_node_id n = k →
  node_budgets t n = Ok ().
Proof.
  intros B Hroot Hn Hk. unfold node_budgets.
  assert (Hb : ∀ d, node_books d ∅ (root_node_id t) k n) by (intros d; by apply (B d)).
  rewrite (proj2 (can_spend_amount (n_budget_limit n) (n_budget n)))
    by (intros d; destruct (Hb d); lia).
  rewrite (proj2 (can_spend_amount (n_child_budget_limit n) (n_child_budget n)))
    by (intros d; destruct (balanced_child d t k n B Hn) as (?&?&?&?); lia).
  rewrite (bool_decide_true (budget_add _ _ = n_budget_limit n))
    by (apply budget_ext; intros d; destruct (Hb d); amounts; lia).
  cbn [negb orb andb]. rewrite Hk. case_bool_decide as E.
  - rewrite E in *. clear E. destruct (Hroot n Hn) as [-> ->].
    rewrite (bool_decide_true (n_reservation n = budget_default)); [by rewrite !bool_decide_true|].
    apply budget_ext. intros d. rewrite (nb_reserves _ _ _ _ _ (Hb d)). unfold due.
    by rewrite bool_decide_true, amount_default.
  - assert (Hr : n_reservation n = if node_terminal n then budget_default else n_budget n).
    { apply budget_ext. intros d. rewrite (nb_reserves _ _ _ _ _ (Hb d)). unfold due.
      rewrite (bool_decide_false (k = _)), (bool_decide_true (k ∉ ∅)) by set_solver.
      rewrite andb_true_r. destruct (node_terminal n); cbn; by rewrite ?amount_default. }
    rewrite Hr. destruct (node_terminal n); cbn [andb orb negb]; by rewrite bool_decide_true.
Qed.

(** *** The tallies of the loop *)

Lemma tally_all_authority d ns a p :
  Forall (λ n, 0 <= amount d (n_actual_usage n) ∧ 0 <= amount d (n_reservation n)) ns →
  0 <= amount d (default budget_default (child_authority a !! p)) <= u64_max →
  amount d (default budget_default (child_authority (tally_all ns a) !! p))
  = Z.min (amount d (default budget_default (child_authority a !! p)) + zsum (under d p <$> ns)) u64_max.
Proof.
  intros Hns. revert a. induction Hns as [|n ns [Ha Hr] Hns IH]; intros a Hd.
  - cbn. lia.
  - assert (Hz : 0 <= zsum (under d p <$> ns)).
    { clear IH. unfold zsum. induction Hns as [|x l [? ?] ? IHl]; [done|]. cbn. unfold under at 1.
      case_bool_decide; lia. }
    change (tally_all (n :: ns) a) with (tally_all ns (tally n a)).
    assert (E : amount d (default budget_default (child_authority (tally n a) !! p))
      = Z.min (amount d (default budget_default (child_authority a !! p)) + under d p n) u64_max).
    { cbn [tally child_authority]. unfold under. destruct (n_parent_node_id n) as [q|].
      - destruct (decide (q = p)) as [->|Hne].
        + rewrite lookup_insert_eq, bool_decide_true by done. cbn [from_option id default].
          amounts. int_lia.
        + rewrite lookup_insert_ne, bool_decide_false by congruence. lia.
      - rewrite bool_decide_false by done. lia. }
    rewrite IH; rewrite E; [|unfold under; case_bool_decide; int_lia].
    rewrite fmap_cons. unfold zsum in *. cbn [foldr]. unfold under in *. case_bool_decide; int_lia.
Qed.

Abbreviation tallied t := (tally_all (btree_values (nodes t)) tallies_empty).

Lemma zsum_values g (m : gmap string RecursiveNode) : zsum (g <$> btree_values m) = total g m.
Proof.
  unfold total, btree_values, btree_iter. apply zsum_perm. by rewrite sort_by_perm.
Qed.

Lemma balanced_authority t k n :
  balanced t → nodes t !! k = Some n →
  match child_authority (tallied t) !! k with
  | Some children => budget_add (n_child_budget n) children
  | None => n_child_budget n
  end = n_child_budget_limit n.
Proof.
  intros B Hn. apply budget_ext. intros d.
  destruct (balanced_child d t k n B Hn) as (Hu & Hsum & Hc & Hl).
  assert (Ha : amount d (default budget_default (child_authority (tallied t) !! k))
    = total (under d k) (nodes t)).
  { rewrite tally_all_authority.
    - cbn. rewrite amount_default, zsum_values. lia.
    - apply Forall_forall. intros n' [k' Hn']%elem_of_btree_values.
      pose proof (bk_nodes _ _ _ (B d) _ _ Hn') as Hb.
      split; [apply Hb|by eapply node_books_reservation].
    - cbn. rewrite amount_default. int_lia. }
  destruct (child_authority (tallied t) !! k); cbn [default from_option id] in Ha; amounts; lia.
Qed.

Lemma balanced_totals t :
  balanced t →
  total_actual_usage (tallied t) = spent_budget t ∧ total_reservations (tallied t) = reserved_budget t.
Proof.
  intros B. destruct (tally_all_usage (btree_values (nodes t)) tallies_empty) as [-> ->].
  split; apply budget_ext; intros d; cbn [total_actual_usage total_reservations tallies_empty];
    rewrite total_btree.
  - rewrite (bk_spent _ _ _ (B d)). pose proof (books_reserved _ _ _ (B d)).
    destruct (bk_limit _ _ _ (B d)) as (? & _ & ? & ?). pose proof (bk_root _ _ _ (B d)). lia.
  - intros k n Hn. by apply (bk_nodes _ _ _ (B d) _ _ Hn).
  - rewrite (bk_reserved _ _ _ (B d)). pose proof (books_spent _ _ _ (B d)).
    destruct (bk_limit _ _ _ (B d)) as (? & _ & ? & ?). pose proof (bk_root _ _ _ (B d)). lia.
  - intros k n Hn. by eapply node_books_reservation, (bk_nodes _ _ _ (B d) _ _ Hn).
Qed.

Lemma balanced_accounting t :
  balanced t → keyed t →
  (∀ k n, nodes t !! k = Some n →
     n_accepted_children n = vec_len (children_of (btree_values (nodes t)) k)) →
  (∀ l, l ∈ active_leases t → ∃ k n, nodes t !! k = Some n ∧ n_lease_id n = Some l) →
  check_accounting t (tallied t) = Ok ().
Proof.
  intros B Hk Hch Hl. unfold check_accounting.
  rewrite (proj2 (existsb_false (λ node, negb (n_accepted_children node =? _)) _)).
  2: { intros n [k Hn]%elem_of_btree_values. destruct (Hk _ _ Hn) as [Ek _]. apply negb_false_iff, Z.eqb_eq.
       rewrite tally_all_children, Ek, (Hch _ _ Hn). done. }
  destruct (balanced_totals t B) as [-> ->].
  rewrite (proj2 (existsb_false (λ node, _ && negb (recorded_overrun t && _)) _)).
  2: { intros n [k Hn]%elem_of_btree_values. destruct (Hk _ _ Hn) as [Ek _]. cbv zeta.
       by rewrite Ek, (balanced_authority t k n B Hn), bool_decide_true. }
  rewrite !bool_decide_true by done. cbn [negb orb].
  rewrite (proj2 (existsb_false _ _)); [done|]. intros l Hin%elem_of_elements.
  destruct (Hl _ Hin) as (k & n & Hn & E). apply negb_false_iff, existsb_exists. exists n.
  split; [apply list_elem_of_In, elem_of_btree_values; eauto|]. by apply bool_decide_eq_true.
Qed.

(** ** Storable trees *)

Record leases_ok (t : RecursiveTree) : Prop := {
  lk_exact : leases_exact t;
  lk_status : ∀ k n, nodes t !! k = Some n →
    n_status n = NodeStatus.Leased ↔ is_Some (n_lease_id n);
  lk_bound : Z.of_nat (size (active_leases t)) <= MAX_RECURSIVE_LEASES;
}.

Record receipts_ok (t : RecursiveTree) : Prop := {
  rc_size : Z.of_nat (size (usage_receipts t)) <= MAX_RECURSIVE_NODES_PER_ROOT * 2;
  rc_named : usage_receipts t !! "" = None;
}.

Lemma leases_node t k n : leases_ok t → nodes t !! k = Some n → node_lease t n = Ok ().
Proof.
  intros [[Hex _] Hst _] Hn. specialize (Hst _ _ Hn). unfold node_lease.
  destruct (n_lease_id n) as [l|] eqn:El.
  - rewrite (proj2 Hst) by eauto. rewrite bool_decide_true; [done|]. apply Hex.
    exists k. by rewrite lookup_held, Hn.
  - destruct (n_status n) eqn:Es; try done. destruct (proj1 Hst eq_refl). done.
Qed.

Lemma leases_held t l : leases_ok t → l ∈ active_leases t →
  ∃ k n, nodes t !! k = Some n ∧ n_lease_id n = Some l.
Proof.
  intros [[Hex _] _ _] [k Hk]%Hex. rewrite lookup_held in Hk.
  destruct (nodes t !! k) as [n|] eqn:Hn; [|done]. eauto.
Qed.

Lemma is_empty_false s : is_empty s = false ↔ s ≠ "".
Proof. destruct s; naive_solver. Qed.

Lemma check_receipts_transfer t t' :
  fixed_tree t' = fixed_tree t → rejected_proposals t' = rejected_proposals t → receipts_ok t' →
  check_receipts t (tallied t) = Ok () → check_receipts t' (tallied t') = Ok ().
Proof.
  intros F Erej [Hsz Hnm] H. fixed_tree_eqs F. unfold check_receipts in *.
  assert (E : ∀ q, bool_decide (q ∈ proposal_ids (tallied t')) = bool_decide (q ∈ proposal_ids (tallied t))).
  { intros q. apply bool_decide_ext. rewrite !tally_all_proposals.
    by rewrite (fixed_proposals_perm t t' F). }
  rewrite Eacc, Erec, Erej. passed H.
  erewrite (existsb_same _ _ (elements (accepted_proposals t))), Hc;
    [|intros q; rewrite E; reflexivity].
  rewrite (proj2 (Z.ltb_ge _ _) Hsz).
  rewrite (proj2 (existsb_false is_empty _)); [done|].
  intros r ([r' v] & -> & Hr)%list_elem_of_fmap. apply elem_of_btree_iter in Hr.
  apply is_empty_false. cbn. congruence.
Qed.

(** A tree with the fixed part of a stored one, balanced books and exact leases
    passes the checks. *)
Lemma storable_validates t0 json0 t json :
  validate_tree_for_persistence t0 = Ok json0 → keyed t0 → root_limits t0 →
  fixed_tree t = fixed_tree t0 → rejected_proposals t = rejected_proposals t0 →
  balanced t → leases_ok t → receipts_ok t →
  tree_to_string t = Ok json → str_len json <= MAX_RECURSIVE_TREE_BYTES →
  validate_tree_for_persistence t = Ok json.
Proof.
  intros Hv Hk Hroot F Erej B L R Hj Hlen. pose proof (validate_accepted _ _ Hv) as Hacc.
  unfold validate_tree_for_persistence in *. passed Hv.
  match goal with H : validate_nodes _ _ _ = Ok _ |- _ =>
    apply validate_nodes_iff in H as (Hall & Hnf & _ & Hnq & _ & ->) end.
  assert (Hk' : keyed t) by by eapply fixed_keyed.
  assert (Hroot' : root_limits t) by by eapply fixed_root_limits.
  rewrite (check_identity_transfer t0 t F) by (done || apply L).
  rewrite (balanced_aggregate t B), (check_root_transfer t0 t F) by done.
  rewrite (proj2 (validate_nodes_iff t (btree_values (nodes t)) tallies_empty (tallied t))).
  2: { split_and!; try done.
       - apply Forall_forall. intros n [k Hn]%elem_of_btree_values.
         destruct (fixed_lookup _ _ _ _ F Hn) as (n0 & Hn0 & En).
         apply (node_static_transfer t0 t F n0); [done| | |by eapply leases_node].
         + rewrite Forall_forall in Hall. apply Hall, elem_of_btree_values. eauto.
         + eapply balanced_node; [done|done|exact Hn|]. by destruct (Hk' _ _ Hn).
       - by rewrite (fixed_fmap_perm t0 t F n_objective_fingerprint).
       - by rewrite (fixed_proposals_perm t0 t F). }
  rewrite (balanced_accounting t B Hk').
  2: { intros k n Hn. destruct (fixed_lookup _ _ _ _ F Hn) as (n0 & Hn0 & En).
       fixed_node_eqs En. rewrite Enkids, (children_transfer t0 t F).
       rewrite (ac_children _ Hacc _ _ Hn0). by destruct (Hk _ _ Hn0) as [-> _]. }
  2: { intros l. by apply leases_held. }
  rewrite (check_receipts_transfer t0 t F) by done. rewrite Hj.
  by rewrite (proj2 (Z.ltb_ge _ _) Hlen).
Qed.

(** ** Stored trees without overrun are balanced *)

(** Every account is a [u64]. *)
Record budgets_typed (t : RecursiveTree) : Prop := {
  bt_root : budget_ok (root_budget t);
  bt_spent : budget_ok (spent_budget t);
  bt_reserved : budget_ok (reserved_budget t);
  bt_nodes : ∀ k n, nodes t !! k = Some n →
    budget_ok (n_budget n) ∧ budget_ok (n_actual_usage n)
    ∧ budget_ok (n_child_budget n) ∧ budget_ok (n_reservation n);
}.

Lemma budget_ok_range d b : budget_ok b → 0 <= amount d b <= u64_max.
Proof. intros H. by apply budget_ok_amount. Qed.

(** No limit is [u64::MAX], where saturating sums stop being sums. *)
Definition limits_below (t : RecursiveTree) : Prop := ∀ d,
  (∀ limit, root_budget_limit t = Some limit → amount d limit < u64_max)
  ∧ ∀ k n, nodes t !! k = Some n →
      amount d (n_budget_limit n) < u64_max ∧ amount d (n_child_budget_limit n) < u64_max.

Lemma node_budgets_inv t n :
  node_budgets t n = Ok () → recorded_overrun t = false →
  budget_add (n_budget n) (n_actual_usage n) = n_budget_limit n
  ∧ if bool_decide (n_node_id n = root_node_id t)
    then n_reservation n = budget_default ∧ root_budget_limit t = Some (n_budget_limit n)
      ∧ root_child_budget_limit t = Some (n_child_budget_limit n)
    else n_reservation n = if node_terminal n then budget_default else n_budget n.
Proof.
  unfold node_budgets. intros H Ho. passed H. rewrite Ho in Hc. cbn [andb] in Hc.
  apply orb_false_iff in Hc as [_ Hc]. rewrite andb_true_r in Hc. checks.
  split; [done|]. case_bool_decide; passed H; checks; [done|].
  destruct (node_terminal n); cbn in *; by checks.
Qed.

Section balanced_of.
Context (t : RecursiveTree) (json : string).
Hypothesis Hv : validate_tree_for_persistence t = Ok json.
Hypothesis Hk : keyed t.

Lemma validated_parts :
  check_aggregate_budget t = Ok () ∧ check_accounting t (tallied t) = Ok ()
  ∧ check_receipts t (tallied t) = Ok ()
  ∧ ∀ k n, nodes t !! k = Some n → node_valid t n.
Proof using Hv.
  unfold validate_tree_for_persistence in Hv. passed Hv.
  match goal with H : validate_nodes _ _ _ = Ok _ |- _ =>
    apply validate_nodes_iff in H as (Hall & _ & _ & _ & _ & ->) end.
  split_and!; [done..|]. intros k n Hn. rewrite Forall_forall in Hall.
  apply Hall, elem_of_btree_values. eauto.
Qed.

Hypothesis Ho : recorded_overrun t = false.

Lemma validated_node k n :
  nodes t !! k = Some n →
  budget_add (n_budget n) (n_actual_usage n) = n_budget_limit n
  ∧ n_reservation n = (if bool_decide (k = root_node_id t) || node_terminal n
                       then budget_default else n_budget n)
  ∧ (k = root_node_id t → root_budget_limit t = Some (n_budget_limit n)
       ∧ root_child_budget_limit t = Some (n_child_budget_limit n)).
Proof using Hv Hk Ho.
  intros Hn. destruct validated_parts as (_ & _ & _ & Hnv). destruct (Hk _ _ Hn) as [Ek _].
  destruct (node_budgets_inv t n (nv_budgets _ _ (Hnv _ _ Hn)) Ho) as [E1 E2]. rewrite Ek in E2.
  case_bool_decide; naive_solver.
Qed.

Lemma validated_root_limits : root_limits t.
Proof using Hv Hk Ho. intros n Hn. by apply (validated_node _ _ Hn). Qed.

Lemma validated_limit :
  ∃ limit, root_budget_limit t = Some limit
    ∧ budget_add (root_budget t) (budget_add (spent_budget t) (reserved_budget t)) = limit.
Proof using Hv Hk Ho.
  destruct (ac_root _ (validate_accepted _ _ Hv)) as (r & Hr & _).
  destruct (validated_root_limits r Hr) as [El _]. eexists. split; [exact El|].
  by apply (ac_conserved _ (validate_accepted _ _ Hv)).
Qed.

Hypothesis Ht : budgets_typed t.
Hypothesis Hl : limits_below t.

Lemma validated_children d k n :
  nodes t !! k = Some n →
  amount d (n_child_budget n) + total (under d k) (nodes t) = amount d (n_child_budget_limit n).
Proof using Hv Hk Ho Ht Hl.
  intros Hn. destruct validated_parts as (_ & Hacc & _). destruct (Hk _ _ Hn) as [Ek _].
  unfold check_accounting in Hacc. passed Hacc. clear Hc1 Hacc Hc.
  apply orb_false_iff in Hc0 as [Hc0 _]. apply orb_false_iff in Hc0 as [Hc0 _].
  rewrite existsb_false in Hc0. specialize (Hc0 n). rewrite Ho in Hc0. cbn [andb negb] in Hc0.
  rewrite andb_true_r, Ek in Hc0. ospecialize (Hc0 _); [apply elem_of_btree_values; eauto|].
  apply negb_false_iff, bool_decide_eq_true in Hc0.
  destruct (Hl d) as [_ Hlim]. specialize (Hlim _ _ Hn) as [_ Hlim].
  destruct (bt_nodes _ Ht _ _ Hn) as (_ & _ & Hcb & _). apply (budget_ok_range d) in Hcb.
  assert (Hpos : ∀ k' n', nodes t !! k' = Some n' →
    0 <= amount d (n_actual_usage n') ∧ 0 <= amount d (n_reservation n')).
  { intros k' n' Hn'. destruct (bt_nodes _ Ht _ _ Hn') as (_ & Ha & _ & Hr).
    apply (budget_ok_range d) in Ha, Hr. lia. }
  assert (Hau : amount d (default budget_default (child_authority (tallied t) !! k))
    = Z.min (total (under d k) (nodes t)) u64_max).
  { rewrite tally_all_authority.
    - cbn. by rewrite amount_default, zsum_values.
    - apply Forall_forall. intros n' [k' Hn']%elem_of_btree_values. by eapply Hpos.
    - cbn. rewrite amount_default. int_lia. }
  assert (Hu : 0 <= total (under d k) (nodes t)).
  { apply total_nonneg. intros k' n' Hn'. unfold under. case_bool_decide; [|done].
    destruct (Hpos _ _ Hn'). lia. }
  apply (f_equal (amount d)) in Hc0.
  destruct (child_authority (tallied t) !! k); cbn [default from_option id] in Hau; amounts; lia.
Qed.

Lemma validated_balanced : balanced t.
Proof using Hv Hk Ho Ht Hl.
  intros d. destruct validated_limit as (limit & El & Hsum). apply (f_equal (amount d)) in Hsum.
  destruct (Hl d) as [Hlim Hnl]. specialize (Hlim _ El). destruct Ht as [Hrb Hs Hr Hn].
  apply (budget_ok_range d) in Hrb, Hs, Hr.
  assert (Hex : amount d (root_budget t) + amount d (spent_budget t) + amount d (reserved_budget t)
    = amount d limit) by (amounts; lia).
  pose proof (validate_accepted _ _ Hv) as Hacc.
  split.
  - lia.
  - exists limit. split_and!; [done|lia|done].
  - intros k n Hkn. destruct (Hn _ _ Hkn) as (H1 & H2 & H3 & _).
    apply (budget_ok_range d) in H1, H2, H3. destruct (Hnl _ _ Hkn) as [L1 L2].
    destruct (validated_node _ _ Hkn) as (E1 & E2 & _). apply (f_equal (amount d)) in E1.
    split; try lia; [amounts; lia|]. rewrite E2. unfold due.
    rewrite (bool_decide_true (k ∉ ∅)), andb_true_r by set_solver.
    by destruct (_ || _); rewrite ?amount_default.
  - intros k n. apply validated_children.
  - pose proof (f_equal (amount d) (ac_spent _ Hacc)) as E. rewrite total_btree in E; [lia|].
    intros k n Hkn. destruct (Hn _ _ Hkn) as (_ & H & _). by apply (budget_ok_range d) in H as [].
  - pose proof (f_equal (amount d) (ac_reserved _ Hacc)) as E. rewrite total_btree in E; [lia|].
    intros k n Hkn. destruct (Hn _ _ Hkn) as (_ & _ & _ & H). by apply (budget_ok_range d) in H as [].
Qed.
End balanced_of.
End iff.
