(* ===== verification/TreeCompletion.v ===== *)
(** * Completing an attempt within its budget

    A worker that reports usage within the budget of its node gets it recorded:
    the books stay balanced through the charge, the retry or the release, and the
    closing of the tree, so the result passes the persistence checks. *)

From S2P Require Import Prelude Text Json RecursiveExecution RecursiveTreeProps RecursiveInvariants RecursiveTerminal TreeMoves Persistence PersistenceProps TreeStore TreeStoreProps TreeBooks TreeStorable.
Import NodeStatus (RecursiveNodeStatus).

Local Open Scope Z_scope.

(** ** What settling a node leaves alone *)

Definition status_leased (t : RecursiveTree) : Prop := ∀ k n, nodes t !! k = Some n →
  n_status n = NodeStatus.Leased ↔ is_Some (n_lease_id n).

(** Receipts, rejections and usage stay; leases stay those of leased nodes. *)
Record settles (t t' : RecursiveTree) : Prop := {
  st_receipts : usage_receipts t' = usage_receipts t;
  st_rejected : rejected_proposals t' = rejected_proposals t;
  st_spent : spent_budget t' = spent_budget t;
  st_usage : n_actual_usage <$> nodes t' = n_actual_usage <$> nodes t;
  st_status : status_leased t → status_leased t';
}.

#[export] Instance settles_preorder : PreOrder settles.
Proof. split; [done|]. intros ??? [] []. split; try congruence. auto. Qed.

Lemma settles_version t v : settles t (t <| t_version := v |>).
Proof. by split. Qed.

Lemma status_leased_update t t' k n' :
  nodes t' = <[k := n']> (nodes t) →
  (n_status n' = NodeStatus.Leased ↔ is_Some (n_lease_id n')) → status_leased t → status_leased t'.
Proof.
  intros E Hn' Hs k' x. rewrite E. intros [[<- <-]|[_ Hx]]%lookup_insert_Some; [done|by eapply Hs].
Qed.

Lemma settles_update t t' k n n' :
  nodes t !! k = Some n → nodes t' = <[k := n']> (nodes t) →
  usage_receipts t' = usage_receipts t → rejected_proposals t' = rejected_proposals t →
  spent_budget t' = spent_budget t → n_actual_usage n' = n_actual_usage n →
  ((n_status n = NodeStatus.Leased ↔ is_Some (n_lease_id n)) →
   (n_status n' = NodeStatus.Leased ↔ is_Some (n_lease_id n'))) → settles t t'.
Proof.
  intros Hn En E1 E2 E3 E4 Hst. split; try done.
  - rewrite En, fmap_insert, E4. apply insert_id. by rewrite lookup_fmap, Hn.
  - intros Hs. eapply status_leased_update; [exact En| |done]. apply Hst. by eapply Hs.
Qed.

Lemma settles_foldl {B} (f : RecursiveTree → B → RecursiveTree) (l : list B) t :
  (∀ t x, settles t (f t x)) → settles t (foldl f t l).
Proof.
  intros H. revert t. induction l as [|x l IH]; intros t; cbn [foldl]; [done|].
  etransitivity; [apply H|apply IH].
Qed.

Lemma fail_node_settles reason t id : settles t (fail_node reason t id).
Proof.
  unfold fail_node. destruct (nodes t !! id) as [n|] eqn:Hn; [|done].
  destruct (n_lease_id n);
    (eapply settles_update; [exact Hn|done..|]; intros _; split; [done|by intros [? [=]]]).
Qed.

Lemma release_settles id t : settles t (release_node_reservation_for_persistence id t).
Proof.
  unfold release_node_reservation_for_persistence.
  destruct (nodes t !! id) as [n|] eqn:Hn; [|done].
  set (t1 := t <| nodes := _ |> <| reserved_budget := _ |> <| root_budget := _ |>).
  assert (Q : settles t t1) by by eapply settles_update.
  transitivity t1; [exact Q|]. destruct (n_parent_node_id n) as [p|]; [|apply settles_version].
  destruct (nodes t1 !! p) as [pn|] eqn:Hp; [|apply settles_version]. by eapply settles_update.
Qed.

Lemma release_all_settles t ids : settles t (release_all t ids).
Proof. apply settles_foldl. intros. apply release_settles. Qed.

Lemma close_tree_settles t : settles t (close_tree t).
Proof. unfold close_tree. by case_match. Qed.

Lemma finalize_settles failed t t' :
  finalize_terminal_tree failed t = Some t' → settles t t'.
Proof.
  unfold finalize_terminal_tree. case_match; [by intros [= <-]|].
  destruct failed as [id|]; [|intros [= <-]; apply close_tree_settles].
  destruct (live_descendants _ _ _) as [ids|]; [|done]. intros [= <-].
  transitivity (foldl (fail_node FailureReason.TerminalFailed) t ids);
    [apply settles_foldl; intros; apply fail_node_settles|].
  etransitivity; [apply release_all_settles|apply close_tree_settles].
Qed.

(** ** Closing the tree keeps the books *)

Lemma live_descendants_sublist ns id cands ids :
  live_descendants ns id cands = Some ids → ids `sublist_of` (n_node_id <$> cands).
Proof.
  revert ids. induction cands as [|c cs IH]; intros ids; cbn [live_descendants].
  - by intros [= <-].
  - case_match; [|done]. case_match; [|done]. intros [= <-]. specialize (IH _ eq_refl).
    rewrite fmap_cons. case_match; by constructor.
Qed.

Lemma keyed_ids_nodup t : keyed t → NoDup (n_node_id <$> btree_values (nodes t)).
Proof.
  intros Hk. assert (E : n_node_id <$> btree_values (nodes t) = (btree_iter (nodes t)).*1).
  { unfold btree_values. rewrite <-list_fmap_compose. apply list_fmap_ext.
    intros i [k n] Hi%list_elem_of_lookup_2%elem_of_btree_iter. by apply Hk. }
  rewrite E. unfold btree_iter. rewrite sort_by_perm. apply NoDup_fst_map_to_list.
Qed.

Lemma keyed_values t n : keyed t → n ∈ btree_values (nodes t) → nodes t !! n_node_id n = Some n.
Proof. intros Hk [k Hn]%elem_of_btree_values. by destruct (Hk _ _ Hn) as [-> _]. Qed.

Lemma fixed_graded t t' : fixed_tree t' = fixed_tree t → graded t → graded t'.
Proof.
  intros F [Hp Hn Hr].
  assert (H : ∀ k n', nodes t' !! k = Some n' → ∃ n, nodes t !! k = Some n
    ∧ n_parent_node_id n' = n_parent_node_id n ∧ n_depth n' = n_depth n).
  { intros k n' Hn'. destruct (fixed_lookup _ _ _ _ F Hn') as (n & Hk & En). exists n.
    split_and!; [done|apply (f_equal n_parent_node_id En)|apply (f_equal n_depth En)]. }
  split.
  - intros k n' p (n & Hk & -> & ->)%H Hnp. destruct (Hp _ _ _ Hk Hnp) as (pn & Hpn & Ed).
    destruct (fixed_lookup _ _ _ _ (eq_sym F) Hpn) as (pn' & Hpn' & _).
    destruct (H _ _ Hpn') as (pn0 & ? & _ & E). simplify_eq. exists pn'. by rewrite E.
  - intros k n' (n & Hk & _ & ->)%H. by eapply Hn.
  - intros k n' (n & Hk & -> & ->)%H. by eapply Hr.
Qed.

Lemma graded_parented t : graded t → parented t.
Proof.
  intros Hg k n p Hn Hp. destruct (gr_parent _ Hg _ _ _ Hn Hp) as (pn & Hpn & Ed).
  split; [|eauto]. intros ->. simplify_eq. lia.
Qed.

Lemma books_close_tree d E t : books d E t → books d E (close_tree t).
Proof. intros B. unfold close_tree. case_match; [|done]. by apply (books_ext d E t). Qed.

(** Finalisation ends, and leaves the books balanced. *)
Lemma finalize_books failed t :
  graded t → keyed t → parented t → balanced t →
  ∃ t', finalize_terminal_tree failed t = Some t' ∧ balanced t'.
Proof.
  intros Hg Hk Hp B. unfold finalize_terminal_tree. case_match; [eauto|].
  destruct failed as [id|].
  2: { eexists. split; [done|]. intros d. apply books_close_tree, B. }
  destruct (live_descendants_spec t Hg id (btree_values (nodes t))) as (ids & Hids & Hin).
  { intros n. by apply keyed_values. }
  rewrite Hids. eexists. split; [done|]. intros d. apply books_close_tree.
  assert (Hlive : ∀ k, k ∈ ids → ∃ n, nodes t !! k = Some n ∧ is_live (n_status n) = true).
  { intros k (n & Hn & <- & Hl & _)%Hin. exists n. split; [by apply keyed_values|done]. }
  eapply books_pending; [apply books_release_all; [apply books_fail_all; [apply B| |done]| |]|].
  - eapply sublist_NoDup; [by apply keyed_ids_nodup|by eapply live_descendants_sublist].
  - eapply fixed_parented; [apply (mv_fixed _ _ _ _ (fail_all_moves _ _ _))|done].
  - intros k Hki. pose proof (outcome_of_fail_all FailureReason.TerminalFailed t ids k) as Ho.
    rewrite bool_decide_true in Ho by done. destruct (Hlive _ Hki) as (n & Hn & _).
    rewrite Hn in Ho. unfold outcome_of in Ho. destruct (nodes _ !! k) as [n'|]; [|done].
    injection Ho as Es _ _. exists n'. split; [done|]. unfold node_terminal. by rewrite Es.
  - set_solver.
Qed.

(** ** The charge *)

Section charge.
Context `{Deps : RecursiveDeps} `{TE : TreeEncoder}.

Lemma accepted_graded t : accepted t → keyed t → graded t.
Proof.
  intros Ha Hk. destruct (ac_root _ Ha) as (r & Hr & Hrp & Hrd & _).
  split.
  - intros k n p Hn Hp. destruct (decide (k = root_node_id t)) as [->|Hne]; [congruence|].
    destruct (accepted_parent _ _ _ Ha Hk Hn Hne) as (q & pn & Hq & Hpn & Ed). simplify_eq. eauto.
  - intros k n Hn. by apply (Hk _ _ Hn).
  - intros k n Hn Hp. destruct (decide (k = root_node_id t)) as [->|Hne]; [congruence|].
    destruct (accepted_parent _ _ _ Ha Hk Hn Hne) as (q & pn & Hq & _). congruence.
Qed.

Lemma record_usage_fresh rid u fp t :
  usage_receipts t !! rid = None → usage_to_string u = Some fp →
  (∀ limit, root_budget_limit t = Some limit →
     can_spend limit (budget_add (budget_add (spent_budget t) u) (spend (reserved_budget t) u)) = true) →
  record_usage rid u t = (Ok true, t
    <| spent_budget := budget_add (spent_budget t) u |>
    <| reserved_budget := spend (reserved_budget t) u |>
    <| usage_receipts := <[rid := usage_receipt_value true fp]> (usage_receipts t) |>).
Proof.
  intros Hr Hf Hb. unfold record_usage, record_usage_internal, recorded_usage. rewrite Hf, Hr.
  cbv zeta. destruct (root_budget_limit t) as [limit|]; [|done]. by rewrite (Hb limit).
Qed.

(** What an attempt that stayed within its budget must look like. *)
Record attempt (t : RecursiveTree) (id l rid fp : string) (u : RecursiveBudget)
    (n : RecursiveNode) : Prop := {
  at_node : nodes t !! id = Some n;
  at_child : id ≠ root_node_id t;
  at_lease : n_lease_id n = Some l;
  at_live : node_terminal n = false;
  at_fresh : usage_receipts t !! rid = None;
  at_usage : usage_to_string u = Some fp;
  at_typed : budget_ok u;
  at_fits : can_spend (n_budget n) u = true;
}.

Lemma attempt_reserved t id l rid fp u n d :
  balanced t → attempt t id l rid fp u n →
  0 <= amount d u <= amount d (n_budget n) ∧ amount d (n_reservation n) = amount d (n_budget n)
  ∧ amount d (n_budget n) <= amount d (reserved_budget t).
Proof.
  intros B [Hn Hc _ Hlive _ _ Hu Hf]. apply (budget_ok_range d) in Hu.
  rewrite can_spend_amount in Hf. specialize (Hf d).
  pose proof (books_reservation_le _ _ _ _ _ (B d) Hn) as Hr.
  pose proof (nb_reserves _ _ _ _ _ (bk_nodes _ _ _ (B d) _ _ Hn)) as Hd.
  unfold due in Hd. rewrite Hlive, bool_decide_false in Hd by done. cbn in Hd. lia.
Qed.

Lemma attempt_within t id l rid fp u n limit :
  balanced t → attempt t id l rid fp u n → root_budget_limit t = Some limit →
  can_spend limit (budget_add (budget_add (spent_budget t) u) (spend (reserved_budget t) u)) = true.
Proof.
  intros B A Hl. apply can_spend_amount. intros d.
  destruct (attempt_reserved _ _ _ _ _ _ _ d B A) as (Hu & _ & Hr).
  destruct (bk_limit _ _ _ (B d)) as (limit' & Hl' & Hm & Hs). simplify_eq.
  pose proof (bk_root _ _ _ (B d)). pose proof (books_spent _ _ _ (B d)). amounts. lia.
Qed.

(** The node after the charge. *)
Definition charged (ok : bool) (u : RecursiveBudget) (n n' : RecursiveNode) : Prop :=
  n_status n' = (if ok then NodeStatus.Completed else NodeStatus.Failed)
  ∧ n_lease_id n' = None ∧ n_retry_count n' = n_retry_count n
  ∧ n_actual_usage n' = budget_add (n_actual_usage n) u ∧ fixed n' = fixed n.

Lemma complete_in_budget t id l rid fp ok u n :
  balanced t → status_leased t → attempt t id l rid fp u n →
  ∃ t' n', complete_node_with_usage_receipt id l rid ok u t = (Ok (), t')
    ∧ (∀ d, books d {[id]} t') ∧ status_leased t'
    ∧ usage_receipts t' = <[rid := usage_receipt_value true fp]> (usage_receipts t)
    ∧ rejected_proposals t' = rejected_proposals t
    ∧ spent_budget t' = budget_add (spent_budget t) u
    ∧ nodes t' = <[id := n']> (nodes t) ∧ charged ok u n n'.
Proof.
  intros B Hst A. pose proof A as [Hn Hc Hl Hlive Hfresh Hfp Hu Hfit].
  unfold complete_node_with_usage_receipt. rewrite Hn, Hfresh.
  change (is_some (@None string)) with false. cbv iota.
  rewrite bool_decide_true by done. cbn [negb].
  rewrite (record_usage_fresh rid u fp) by (done || intros limit; by eapply attempt_within).
  cbn [nodes upd]. rewrite Hn, Hfit. cbn [andb negb].
  match goal with |- context [<[id := ?x]> (nodes t)] => set (n' := x) end.
  eexists _, n'. split; [reflexivity|].
  assert (Hs' : n_status n' = if ok then NodeStatus.Completed else NodeStatus.Failed)
    by (by destruct ok).
  assert (Eb : n_budget n' = spend (n_budget n) u) by done.
  assert (Ea : n_actual_usage n' = budget_add (n_actual_usage n) u) by done.
  assert (Er : n_reservation n' = spend (n_reservation n) u) by done.
  split_and!; try done; [|eapply status_leased_update; [done| |exact Hst]; cbn [n_lease_id n' upd];
    rewrite Hs'; destruct ok; (split; [done|by intros [? [=]]])].
  intros d. destruct (attempt_reserved _ _ _ _ _ _ _ d B A) as (Hud & Hres & Hrb).
  pose proof (bk_nodes _ _ _ (B d) _ _ Hn) as [].
  pose proof (bk_root _ _ _ (B d)). pose proof (books_spent _ _ _ (B d)).
  destruct (bk_limit _ _ _ (B d)) as (limit & _ & ? & ?).
  eapply (books_post d ∅ _ t _ id n n'); try done; try apply B; rewrite ?Eb, ?Ea, ?Er;
    cbn [spent_budget reserved_budget root_budget upd]; amounts; try lia; [|set_solver].
  unfold due. rewrite bool_decide_false, (bool_decide_false (id ∉ ({[id]} : gset string))) by set_solver.
  rewrite andb_false_r, Eb. cbn [orb]. amounts. lia.
Qed.

(** ** What follows the charge *)

Lemma retry_books t id n t' :
  (∀ d, books d {[id]} t) → nodes t !! id = Some n → id ≠ root_node_id t →
  n_lease_id n = None → n_retry_count n < MAX_RECURSIVE_RETRIES →
  retry_node id t = (Ok (), t') → balanced t' ∧ settles t t'.
Proof.
  intros B Hn Hc Hl Hr. unfold retry_node. rewrite Hn.
  replace (MAX_RECURSIVE_RETRIES <=? n_retry_count n) with false by lia.
  intros [= <-]. split.
  - intros d. eapply (books_status d {[id]} ∅ t _ id n); [apply B|exact Hn|done..|set_solver|].
    unfold due. rewrite (bool_decide_false (id = _)) by done.
    rewrite (bool_decide_false (id ∉ ({[id]} : gset string))), andb_false_r by set_solver. done.
  - eapply settles_update; [exact Hn|done..|]. intros _. cbn. rewrite Hl. split; [done|by intros []].
Qed.

Lemma release_books t id n :
  (∀ d, books d {[id]} t) → nodes t !! id = Some n → node_terminal n = true → parented t →
  balanced (release_node_reservation_for_persistence id t).
Proof.
  intros B Hn Ht Hp d. eapply books_pending; [eapply books_release; [apply B|exact Hn| |]|set_solver].
  - by rewrite Ht, orb_true_r.
  - intros p. by apply Hp.
Qed.

(** Settling an attempt always succeeds and balances the books again. *)
Lemma settle_attempt_balanced id b t n :
  (∀ d, books d {[id]} t) → nodes t !! id = Some n → id ≠ root_node_id t →
  node_terminal n = true → n_lease_id n = None →
  (b = true → n_retry_count n < MAX_RECURSIVE_RETRIES) →
  graded t → keyed t → parented t →
  ∃ t', (∀ db, settle_attempt id b t db = Some (Ok t', db)) ∧ balanced t' ∧ settles t t'
    ∧ keeps_leases t t' ∧ frame t t'.
Proof.
  intros B Hn Hc Ht Hl Hr Hg Hk Hp. unfold settle_attempt. destruct b.
  - destruct (retry_node id t) as [[[]|] t'] eqn:E; [|by unfold retry_node in E; rewrite Hn in E].
    destruct (retry_books _ _ _ _ B Hn Hc Hl (Hr eq_refl) E) as [B' S]. exists t'.
    split_and!; [done|done|done|by eapply keeps_retry_node|by eapply frame_retry_node].
  - set (t1 := release_node_reservation_for_persistence id t). cbv zeta.
    pose proof (mv_fixed _ _ _ _ (release_moves id t)) as F.
    destruct (finalize_books (if match nodes t1 !! id with Some node => bool_decide (n_status node = NodeStatus.Failed) | None => false end then Some id else None) t1)
      as (t' & Hf & B'); [by eapply fixed_graded|by eapply fixed_keyed|by eapply fixed_parented| |].
    { by eapply release_books. }
    rewrite Hf. exists t'. split_and!; [done|done| | |].
    + etransitivity; [apply release_settles|by eapply finalize_settles].
    + etransitivity; [apply lease_quiet_keeps, release_quiet|by eapply keeps_finalize].
    + etransitivity; [apply frame_release|by eapply frame_finalize].
Qed.

(** ** The stored tree *)

(** A stored tree that never overran, with exact leases and limits below the
    maximum. *)
Record orderly (t : RecursiveTree) : Prop := {
  od_valid : ∃ json, validate_tree_for_persistence t = Ok json;
  od_keyed : keyed t;
  od_within : recorded_overrun t = false;
  od_typed : budgets_typed t;
  od_below : limits_below t;
  od_leases : leases_exact t;
}.

Lemma orderly_balanced t : orderly t → balanced t ∧ root_limits t.
Proof. intros [[json Hv]]. eauto using validated_balanced, validated_root_limits. Qed.

Lemma orderly_graded t : orderly t → graded t.
Proof. intros [[json Hv]]. eauto using accepted_graded, validate_accepted. Qed.

Lemma orderly_status t : orderly t → status_leased t.
Proof.
  intros [[json Hv]] k n Hn. destruct (validated_parts _ _ Hv) as (_ & _ & _ & Hnv).
  pose proof (nv_lease _ _ (Hnv _ _ Hn)) as H. unfold node_lease in H.
  destruct (n_status n), (n_lease_id n); split; intros Hx; try done; by destruct Hx.
Qed.

Lemma orderly_named t : orderly t → usage_receipts t !! "" = None.
Proof.
  intros [[json Hv]]. destruct (validated_parts _ _ Hv) as (_ & _ & Hr & _).
  unfold check_receipts in Hr. passed Hr. apply orb_false_iff in Hc0 as [_ Hc0].
  rewrite existsb_false in Hc0. destruct (usage_receipts t !! "") as [v|] eqn:E; [|done].
  cut (is_empty "" = false); [done|]. apply Hc0, list_elem_of_fmap. exists ("", v).
  by rewrite elem_of_btree_iter.
Qed.

(** The tree after an attempt within its budget: charged, settled, and fit to be
    stored whenever its snapshot is. *)
Lemma completion_tree t id l rid fp ok b u n :
  orderly t → attempt t id l rid fp u n → rid ≠ "" →
  Z.of_nat (size (usage_receipts t)) < MAX_RECURSIVE_NODES_PER_ROOT * 2 →
  (b = true → n_retry_count n < MAX_RECURSIVE_RETRIES) →
  ∃ t1 t2, complete_node_with_usage_receipt id l rid ok u t = (Ok (), t1)
    ∧ (∀ db, settle_attempt id b t1 db = Some (Ok t2, db))
    ∧ fixed_tree t2 = fixed_tree t
    ∧ usage_receipts t2 = <[rid := usage_receipt_value true fp]> (usage_receipts t)
    ∧ spent_budget t2 = budget_add (spent_budget t) u
    ∧ (n_actual_usage <$> nodes t2 !! id) = Some (budget_add (n_actual_usage n) u)
    ∧ ∀ json, tree_to_string t2 = Ok json → str_len json <= MAX_RECURSIVE_TREE_BYTES →
        validate_tree_for_persistence t2 = Ok json.
Proof.
  intros O A Hrid Hsz Hb. destruct (orderly_balanced _ O) as [B Hroot].
  pose proof (orderly_status _ O) as Hst. pose proof (orderly_graded _ O) as Hg.
  destruct (complete_in_budget t id l rid fp ok u n B Hst A)
    as (t1 & n1 & Hc & B1 & Hst1 & Er & Erej & Es & En & Hs1 & Hl1 & Hr1 & Ha1 & Hf1).
  pose proof (complete_node_moves _ _ _ _ _ _ _ _ Hc) as M1.
  assert (F1 : fixed_tree t1 = fixed_tree t) by apply (mv_fixed _ _ _ _ M1).
  assert (Hn1 : nodes t1 !! id = Some n1) by (rewrite En; apply lookup_insert_eq).
  assert (Eroot : root_node_id t1 = root_node_id t) by apply (f_equal root_node_id F1).
  destruct (settle_attempt_balanced id b t1 n1) as (t2 & Hset & B2 & [] & K & Fr); try done.
  { rewrite Eroot. apply A. }
  { unfold node_terminal. rewrite Hs1. by destruct ok. }
  { intros ->. rewrite Hr1. by apply Hb. }
  { by eapply fixed_graded. }
  { eapply fixed_keyed; [done|apply O]. }
  { eapply fixed_parented; [exact F1|by apply graded_parented]. }
  exists t1, t2. assert (F2 : fixed_tree t2 = fixed_tree t).
  { rewrite <-F1. destruct (settle_attempt_moves _ _ _ _ _ _ (Hset (mkDatabase ∅ ∅ ∅ ∅ ∅ [] []))) as [_ M].
    apply (mv_fixed _ _ _ _ (M _ eq_refl)). }
  split_and!; [done|done|done|congruence|congruence| |].
  - rewrite <-lookup_fmap, st_usage0, lookup_fmap, Hn1. cbn. by rewrite Ha1.
  - pose proof (orderly_named t O) as Hnm. destruct O as [[json0 Hv] Hk _ _ _ Hex]. intros json. eapply storable_validates; try done.
    + congruence.
    + split; [|by apply st_status0|].
      * eapply K, keeps_complete_node_with_usage_receipt; [exact Hc|done].
      * pose proof (fr_leases _ _ (frame_complete_node_with_usage_receipt _ _ _ _ _ _ _ _
          (at_typed _ _ _ _ _ _ _ A) Hc)).
        pose proof (fr_leases _ _ Fr). pose proof (ac_leases _ (validate_accepted _ _ Hv)).
        assert (size (active_leases t2) <= size (active_leases t))%nat
          by (apply subseteq_size; set_solver). lia.
    + split; rewrite st_receipts0, Er.
      * rewrite map_size_insert_None by apply A. lia.
      * by rewrite lookup_insert_ne.
Qed.
End charge.

(** ** The handler *)

Section handler.
Context {V : Type} `{JV : JsonValue V} `{JT : JsonText V} `{SD : StoreDecoders V}.
Context `{Deps : RecursiveDeps} `{TE : TreeEncoder}.

(** The binding to the workflow run looks at the fixed part only. *)
Lemma check_workflow_binding_fixed t t' db :
  fixed_tree t' = fixed_tree t → check_workflow_binding t' db = check_workflow_binding t db.
Proof.
  intros F. fixed_tree_eqs F. unfold check_workflow_binding, validate_root_authority_binding.
  by rewrite Erun, Ewf, Eroot, Eagent, Emark, Ecr, Esc, Ecap, Eten, Ews, Elim, Eclim.
Qed.

(** Rows of unfinished tasks below the root name their recursive node. *)
Definition tasks_bound (run root : string) (db : database) : Prop :=
  ∀ k row, k ≠ root → workflow_run_nodes db !! (run, k) = Some row → unfinished row = true →
  ∃ v, json_parse (wn_node_json row) = Some v ∧ json_get_str v "recursive_node_id" = Some k.

(** What the handler may do to the workflow tables before it writes the tree. *)
Record tasks_closed (run root : string) (db db' : database) : Prop := {
  tc_trees : same_trees db db';
  tc_runs : workflow_runs db' = workflow_runs db;
  tc_root : workflow_run_nodes db' !! (run, root) = workflow_run_nodes db !! (run, root);
}.

#[export] Instance tasks_closed_preorder run root : PreOrder (tasks_closed run root).
Proof.
  split; [done|]. intros ??? [] []. split; [by etransitivity|congruence|congruence].
Qed.

Lemma check_workflow_binding_closed t db db' :
  tasks_closed (root_run_id t) (root_node_id t) db db' →
  check_workflow_binding t db' = check_workflow_binding t db.
Proof. intros [_ E1 E2]. unfold check_workflow_binding, root_metadata. by rewrite E1, E2. Qed.

Lemma sync_terminal_workflow_node_ok run root now n db :
  tasks_bound run root db → n_node_id n ≠ root →
  ∃ db', sync_terminal_workflow_node run now n db = Some (Ok (), db')
    ∧ tasks_bound run root db' ∧ tasks_closed run root db db'.
Proof.
  intros Hb Hne. unfold sync_terminal_workflow_node, bind, query.
  destruct (workflow_run_nodes db !! (run, n_node_id n)) as [row|] eqn:Hrow; [|by eexists].
  destruct (unfinished row) eqn:Hu; cbn [negb]; [|by eexists].
  destruct (Hb _ _ Hne Hrow Hu) as (v & Hv & Hid). unfold lift. rewrite Hv. cbn [ok_or].
  rewrite Hid, bool_decide_true by done. cbn [negb]. unfold execute.
  eexists. split; [reflexivity|]. split.
  - intros k row' Hk. cbn. intros [[[= <-] <-]|[_ Hr]]%lookup_insert_Some Hu'; [done|by eapply Hb].
  - split; [done|done|]. cbn. rewrite lookup_insert_ne; [done|congruence].
Qed.

Lemma sync_terminal_workflow_nodes_ok t now db :
  graded t → keyed t → tasks_bound (root_run_id t) (root_node_id t) db →
  n_parent_node_id <$> nodes t !! root_node_id t = Some None →
  ∃ db', sync_terminal_workflow_nodes t now db = Some (Ok (), db')
    ∧ tasks_closed (root_run_id t) (root_node_id t) db db'.
Proof.
  intros Hg Hk Hb Hroot. unfold sync_terminal_workflow_nodes.
  assert (Hns : Forall (λ n, n_node_id n ≠ root_node_id t)
    (filter (λ node, closed_by_tree node = true) (btree_values (nodes t)))).
  { apply Forall_forall. intros n [Hc Hn%(keyed_values _ _ Hk)]%list_elem_of_filter E.
    rewrite E in Hn. rewrite Hn in Hroot. injection Hroot as Hp. unfold closed_by_tree in Hc.
    by rewrite Hp in Hc. }
  revert db Hb. induction Hns as [|n ns Hne _ IH]; intros db Hb; cbn [for_each]; [by eexists|].
  destruct (sync_terminal_workflow_node_ok _ _ now n db Hb Hne) as (db1 & H1 & Hb1 & C1).
  destruct (IH db1 Hb1) as (db2 & H2 & C2). exists db2. unfold bind. rewrite H1.
  split; [done|by etransitivity].
Qed.

Lemma load_existing_ok run db row t :
  recursive_execution_trees db !! run = Some row → row_ok run row t →
  check_workflow_binding t db = Ok () → load_existing run db = Some (Ok t, db).
Proof.
  intros Hrow Hr Hb. unfold load_existing, bind, query, load_recursive_tree, load_row, row_matches.
  rewrite Hrow, (rk_decodes _ _ _ Hr).
  rewrite (rk_id _ _ _ Hr), (rk_workflow _ _ _ Hr), (rk_root _ _ _ Hr), (rk_schema _ _ _ Hr).
  rewrite (validate_schema _ _ (rk_valid _ _ _ Hr)), !bool_decide_true by done. cbn [negb andb orb].
  by rewrite (validate_limit _ _ (rk_valid _ _ _ Hr)), Hb, (rk_valid _ _ _ Hr).
Qed.

(** Writing the successor of the stored tree. *)
Lemma persist_ok t t' json now db db1 row :
  recursive_execution_trees db !! root_run_id t = Some row → row_ok (root_run_id t) row t →
  t_version t ≠ 0 → check_workflow_binding t db = Ok () →
  fixed_tree t' = fixed_tree t → tasks_closed (root_run_id t) (root_node_id t) db db1 →
  validate_tree_for_persistence t' = Ok json →
  persist_recursive_tree t' now (Some (t_version t)) db1
  = Some (Ok (), write_tree t' json now db1).
Proof.
  intros Hrow Hr Hv Hb F C Hval.
  unfold persist_recursive_tree, persist_recursive_tree_inner, bind, lift, query, execute.
  rewrite Hval, (check_workflow_binding_fixed t t') by done.
  rewrite (check_workflow_binding_closed t db db1 C), Hb. fixed_tree_eqs F. rewrite Erun.
  unfold check_expected. destruct C as [[-> _] _ _]. rewrite Hrow. cbn [fmap option_fmap option_map].
  rewrite (proj2 (Z.eqb_neq _ _) Hv), (rk_version _ _ _ Hr), bool_decide_true by done. done.
Qed.

(** Whether an attempt may be retried is always decided. *)
Lemma retry_decided env id u t n (retry : bool) :
  nodes t !! id = Some n →
  ∃ b, (∀ db, (if retry
               then r <-! tree_op (retry_allowed env id u t, t) ;; ret r.1
               else ret false) db = Some (Ok b, db))
    ∧ (b = true → n_retry_count n < MAX_RECURSIVE_RETRIES).
Proof.
  intros Hn. destruct retry; [|by exists false].
  unfold retry_allowed. rewrite Hn. cbn [ok_or]. eexists. split; [reflexivity|].
  intros H. repeat (apply andb_true_iff in H as [H ?]). by apply Z.ltb_lt.
Qed.

Hypothesis roundtrip : ∀ t s, tree_to_string t = Ok s → tree_from_str s = Ok t.

Lemma completion_handler env run id l rid fp ok retry u now db t n :
  store_ok db → stored db run = Some t → check_workflow_binding t db = Ok () →
  t_version t ≠ 0 → tasks_bound run (root_node_id t) db →
  orderly t → attempt t id l rid fp u n → rid ≠ "" →
  Z.of_nat (size (usage_receipts t)) < MAX_RECURSIVE_NODES_PER_ROOT * 2 →
  ∃ t', fixed_tree t' = fixed_tree t
    ∧ usage_receipts t' = <[rid := usage_receipt_value true fp]> (usage_receipts t)
    ∧ spent_budget t' = budget_add (spent_budget t) u
    ∧ (n_actual_usage <$> nodes t' !! id) = Some (budget_add (n_actual_usage n) u)
    ∧ ∀ json, tree_to_string t' = Ok json → str_len json <= MAX_RECURSIVE_TREE_BYTES →
      ∃ status db', sync_recursive_completion_with_receipt env run id l rid ok retry u now db
          = Some (Ok status, db')
        ∧ stored db' run = Some t' ∧ store_ok db'.
Proof using roundtrip.
  intros Hs Hst Hb Hver Htb O A Hrid Hsz. destruct (stored_Some _ _ _ Hs Hst) as (row & Hrow & Hr).
  destruct (retry_decided env id u t n retry (at_node _ _ _ _ _ _ _ A)) as (b & Hretry & Hbr).
  destruct (completion_tree t id l rid fp ok b u n O A Hrid Hsz Hbr)
    as (t1 & t2 & Hc & Hset & F & Er & Es & Ea & Hval).
  exists t2. split_and!; [done..|]. intros json Hj Hlen. specialize (Hval json Hj Hlen).
  pose proof (rk_id _ _ _ Hr) as Hrun. subst run. fixed_tree_eqs F.
  destruct (ac_root _ (validate_accepted _ _ Hval)) as (r & Hroot & Hrp & _).
  assert (Hk2 : keyed t2) by (eapply fixed_keyed; [done|apply O]).
  destruct (sync_terminal_workflow_nodes_ok t2 now db) as (db1 & Hsync & C); [|done| | |].
  { by eapply fixed_graded, orderly_graded. }
  { by rewrite Erun, Eroot. }
  { by rewrite Hroot; cbn; rewrite Hrp. }
  rewrite Erun, Eroot in C. destruct (nodes t2 !! id) as [n2|] eqn:Hn2; [|done].
  exists (NodeStatus.status_as_str (n_status n2)), (write_tree t2 json now db1).
  split_and!.
  - unfold sync_recursive_completion_with_receipt. unfold bind at 1.
    rewrite (load_existing_ok _ _ _ _ Hrow Hr Hb). unfold contains_node.
    rewrite (at_node _ _ _ _ _ _ _ A). cbn [is_some is_none negb]. unfold bind at 1, ret at 1.
    unfold bind at 1. rewrite Hretry. unfold bind at 1. rewrite Hc. cbn [tree_op]. unfold ret at 1.
    cbn [snd]. unfold bind at 1. rewrite Hset. unfold bind at 1. rewrite Hsync.
    unfold bind, lift. rewrite Hn2. cbn [ok_or fmap option_fmap option_map].
    by rewrite (persist_ok t t2 json now db db1 row).
  - rewrite write_tree_stored by done. by rewrite Erun, bool_decide_true.
  - apply write_tree_ok; [done..|]. destruct C as [[E _] _ _]. intros i x. rewrite E. apply Hs.
Qed.
End handler.
