(* ===== verification/TreeStoreTheorems.v ===== *)
(** * Correctness of the tree store *)

From S2P Require Import Prelude Text Json RecursiveExecution RecursiveTreeProps RecursiveInvariants RecursiveTerminal TreeMoves Persistence PersistenceProps PersistenceTheorems TreeStore TreeStoreProps TreeHistory TreeBooks TreeStorable TreeCompletion.
From stdpp Require Import relations.
Import ExecutionState (RecursiveExecutionState).
Import FailureReason (RecursiveFailureReason).

Local Open Scope Z_scope.

#[local] Instance RecursiveBudget_eq_dec : EqDecision RecursiveBudget.
Proof. solve_decision. Defined.
#[local] Instance RecursiveNode_eq_dec : EqDecision RecursiveNode.
Proof. solve_decision. Defined.
#[local] Instance RecursiveDecisionEvidence_eq_dec : EqDecision RecursiveDecisionEvidence.
Proof. solve_decision. Defined.
#[local] Instance RecursiveTree_eq_dec : EqDecision RecursiveTree.
Proof. solve_decision. Defined.

#[local] Instance work_row_eq_dec : EqDecision work_row.
Proof. solve_decision. Defined.
#[local] Instance database_eq_dec : EqDecision database.
Proof.
  assert (EqDecision tree_row) by solve_decision. assert (EqDecision index_row) by solve_decision.
  assert (EqDecision run_row) by solve_decision. assert (EqDecision audit_row) by solve_decision.
  assert (EqDecision edge_row) by solve_decision. assert (EqDecision event_row) by solve_decision.
  solve_decision.
Defined.
#[local] Instance result_eq_dec {E A} `{EqDecision E} `{EqDecision A} : EqDecision (result E A).
Proof. solve_decision. Defined.

(** Decides a closed proposition without reading back the maps in it. *)
Ltac evaluate := apply (bool_decide_unpack _); vm_compute; exact I.

(** ** A store to run the theorems on *)

Module StoreDemo.
Import JsonDemo.
#[export] Existing Instance json_value.
#[export] Existing Instance PersistenceDemo.deps.

Definition env : env_vars := PersistenceDemo.env.
Definition scope : RecursiveScope := mkScope (Some "repo") {["docs/"]} {["read"]}.
Definition authority : RecursiveRootAuthority :=
  mkAuthority RECURSIVE_ROOT_AUTHORITY_VERSION scope {["read"]}
    (mkBudget 10 1000 5000 60000) (mkBudget 6 600 3000 36000) UsageContract.Measured.

Definition metadata : json := JObj [
  ("recursive_root_node_id", JStr "root"); ("task_type", JStr "agent_step");
  ("agent_id", JStr "agent"); ("agent_objective", JStr "Review the documentation");
  ("creation_receipt_sha256", JStr "plan"); ("recursive_root_authority", JStr "authority")].
Definition boundaries : json := JObj [("workspace_id", JStr "w1")].

(** The two documents of the demo and a printer that only has to be a function. *)
#[export] Instance text : JsonText json := {|
  json_null := JNull; json_bool := JBool; json_int := JInt; json_string := JStr;
  json_array := JArr; json_object m := JObj (map_to_list m);
  json_print _ := "printed";
  json_parse s :=
    if bool_decide (s = "metadata") then Some metadata
    else if bool_decide (s = "boundaries") then Some boundaries else None |}.

Definition get {A} (d : A) (r : result string A) : A := match r with Ok a => a | Err _ => d end.

Definition authority_of (v : json) : option RecursiveRootAuthority :=
  match v with JStr s => if bool_decide (s = "authority") then Some authority else None
  | _ => None end.

(** Trees of a run: the root, a delegated child, its lease and its ends. *)
Section trees.
#[local] Instance no_trees : StoreDecoders json :=
  {| tree_from_str _ := Err ""; authority_from_value := authority_of |}.
Definition created : RecursiveTree :=
  get PersistenceDemo.root
    (recursive_root_tree_from_metadata "run-1" "wf-1" "root" metadata boundaries).
End trees.
Definition proposal : RecursiveProposal := {|
  p_proposal_id := "p1"; p_parent_node_id := "root"; p_parent_version := 1;
  p_objective := "Summarise section two"; p_context_summary := "";
  p_requested_capabilities := {["read"]}; p_requested_scope := scope;
  p_budget := mkBudget 2 100 500 1000; p_receipt_sha256 := "receipt-1" |}.
Definition child : string :=
  derived_node_id "run-1" "p1" (objective_fingerprint (p_objective proposal)).
Definition usage : RecursiveBudget := mkBudget 1 40 100 200.

Definition admitted : RecursiveTree :=
  match admit_child env proposal created with Some (_, t) => t | None => created end.
Definition leased : RecursiveTree := (lease_node env child "lease-1" admitted).2.
Definition reported : RecursiveTree :=
  (complete_node_with_usage_receipt child "lease-1" "lease-1" true usage leased).2.
Definition completed : RecursiveTree := release_node_reservation_for_persistence child reported.
Definition paused : RecursiveTree :=
  reconciled true (Some "recursive_execution_paused") leased.
Definition killed : RecursiveTree :=
  reconciled true (Some "recursive_kill_switch_active") leased.

(** An encoder and decoder of the trees of the demo. *)
Definition table : list (string * RecursiveTree) :=
  [("created", created); ("admitted", admitted); ("leased", leased);
   ("completed", completed); ("paused", paused); ("killed", killed)].
#[export] Instance encoder : TreeEncoder := λ t,
  match filter (λ e, e.2 = t) table with e :: _ => Ok e.1 | [] => Err "" end.
#[export] Instance decoders : StoreDecoders json := {|
  tree_from_str s := match filter (λ e, e.1 = s) table with e :: _ => Ok e.2 | [] => Err "" end;
  authority_from_value := authority_of |}.

#[export] Existing Instance listed_order.

Definition empty_store : database :=
  mkDatabase ∅ ∅ {["run-1" := mkRunRow "wf-1" "boundaries" "running" None (Some "t0") None "t0"]}
    {[("run-1", "root") := mkWorkRow "agent_step" "running" "metadata" None (Some "t0") None
      (Some "t0") 1 None None]} ∅ [] [].
Definition run {A} (m : store A) (db : database) : database :=
  match m db with Some (_, db) => db | None => db end.

Definition with_root : database :=
  run (ensure_recursive_root_tree "run-1" "wf-1" "root" metadata "t1") empty_store.
Definition with_child : database :=
  run (save_recursive_tree_with_expected_version admitted "t2" 1) with_root.
Definition with_lease : database :=
  run (sync_recursive_lease env "run-1" child "lease-1" "t3") with_child.
(** Another writer of the database, and a save of the leased tree after it. *)
Definition logged : database :=
  with_child <| audit_log := [mkAuditRow "t3" "scheduler" "tick" "run-1" ""] |>.
Definition with_saved : database :=
  run (save_recursive_tree_with_expected_version leased "t3" 2) logged.
Definition with_kill : database :=
  run (set_recursive_execution_paused true (Some "recursive_kill_switch_active") "t5")
    with_lease.
Definition with_result : database :=
  run (sync_recursive_completion env "run-1" child "lease-1" true false usage "t4") with_lease.
End StoreDemo.
Import StoreDemo.

Lemma table_roundtrip {ED : EqDecision RecursiveTree} (tbl : list (string * RecursiveTree)) t s :
  NoDup tbl.*1 →
  match filter (λ e, e.2 = t) tbl with e :: _ => Ok e.1 | [] => Err "" end = Ok s →
  match filter (λ e, e.1 = s) tbl with e :: _ => Ok e.2 | [] => Err "" end = Ok (E := string) t.
Proof.
  intros Hnd. destruct (filter (λ e, e.2 = t) tbl) as [|[k t'] l] eqn:Ef; [done|].
  intros [= <-]. assert (Hin : (k, t') ∈ filter (λ e, e.2 = t) tbl) by (rewrite Ef; left).
  apply list_elem_of_filter in Hin as [E Hin]. cbn in E. subst t'. cbn [fst].
  destruct (filter (λ e, e.1 = k) tbl) as [|[k2 t2] l2] eqn:E2.
  - assert (Hin2 : (k, t) ∈ filter (λ e, e.1 = k) tbl) by by apply list_elem_of_filter.
    rewrite E2 in Hin2. by apply not_elem_of_nil in Hin2.
  - assert (Hin2 : (k2, t2) ∈ filter (λ e, e.1 = k) tbl) by (rewrite E2; left).
    apply list_elem_of_filter in Hin2 as [E3 Hin2]. cbn in E3. subst k2.
    pose proof (NoDup_fmap_eq fst tbl _ _ Hnd Hin Hin2 eq_refl). by simplify_eq.
Qed.

Lemma demo_roundtrip t s : tree_to_string t = Ok s → tree_from_str s = Ok t.
Proof. apply table_roundtrip. evaluate. Qed.

Section theorems.
Context {V : Type} `{JV : JsonValue V} `{JT : JsonText V} `{SD : StoreDecoders V}.
Context `{Deps : RecursiveDeps} `{TE : TreeEncoder} `{HO : HashOrder}.

(** A store that the calls built up from one without trees. *)
Definition reachable_store (db : database) : Prop :=
  ∃ db0, recursive_execution_trees db0 = ∅ ∧ rtc store_step db0 db.

Lemma reachable_store_ok db :
  (∀ t s, tree_to_string t = Ok s → tree_from_str s = Ok t) →
  reachable_store db → store_ok db.
Proof.
  intros Hrt (db0 & E & Hr). eapply store_steps_ok; [exact Hrt|exact Hr|].
  intros id row. by rewrite E, lookup_empty.
Qed.

Lemma load_stored db id t :
  store_ok db → load_recursive_tree id db = Ok (Some t) → stored db id = Some t.
Proof.
  intros Hok H. destruct (load_existing_inv id db (Ok t) db) as [_ Hl].
  - unfold load_existing, bind, query, lift. by rewrite H.
  - by eapply ld_stored, Hl.
Qed.
End theorems.

(** C6: Whatever sequence of handler calls, root creations and saves built up
    the store, and whatever they returned, every stored row is sound.  Its
    snapshot decodes to a tree that passes the checks and encodes back to that
    snapshot, and the columns of the row (run, workflow, root, schema, version)
    are those of the tree. *)
Theorem stored_trees_sound {V : Type} `{JV : JsonValue V} `{JT : JsonText V}
    `{SD : StoreDecoders V} `{Deps : RecursiveDeps} `{TE : TreeEncoder} `{HO : HashOrder}
    db id row :
  (∀ t s, tree_to_string t = Ok s → tree_from_str s = Ok t) →
  reachable_store db → recursive_execution_trees db !! id = Some row →
  ∃ t, tree_from_str (tr_tree_json row) = Ok t
    ∧ validate_tree_for_persistence t = Ok (tr_tree_json row) ∧ keyed t
    ∧ root_run_id t = id ∧ tr_workflow_id row = workflow_id t
    ∧ tr_root_node_id row = root_node_id t ∧ tr_schema_version row = schema_version t
    ∧ tr_version row = as_i64_cast (t_version t).
Proof.
  intros Hrt Hr H. destruct (reachable_store_ok _ Hrt Hr _ _ H) as [t []]. eauto 10.
Qed.

Lemma store_reachable_child : reachable_store with_child.
Proof.
  exists empty_store. split; [done|].
  eapply rtc_l; [eapply (ss_ensure "run-1" "wf-1" "root" metadata "t1" _ (Ok tt) with_root);
    evaluate|].
  apply rtc_once, (ss_save admitted "t2" 1 _ (Ok tt) with_child).
  - apply (map_Forall_keyed admitted). evaluate.
  - exists 1. split; [by split|]. evaluate.
  - evaluate.
Qed.

Lemma store_reachable_lease : reachable_store with_lease.
Proof.
  destruct store_reachable_child as (db0 & E & Hr). exists db0. split; [done|].
  eapply rtc_r; [exact Hr|]. apply ss_handler.
  apply (hs_lease env "run-1" child "lease-1" "t3" _ (Ok tt)). evaluate.
Qed.

Lemma stored_trees_sound_witness :
  ∃ row t, recursive_execution_trees with_lease !! "run-1" = Some row
    ∧ tree_from_str (tr_tree_json row) = Ok t ∧ tr_version row = 3.
Proof.
  destruct (recursive_execution_trees with_lease !! "run-1") as [row|] eqn:E;
    [|by vm_compute in E].
  destruct (stored_trees_sound with_lease "run-1" row demo_roundtrip store_reachable_lease E)
    as (t & Ht & _). exists row, t. split_and!; [done..|].
  vm_compute in E. by injection E as <-.
Defined.

(** C8: No update is lost.  A writer loads a tree, any calls may happen (fewer
    than 2^38 of them), and the writer then saves with the version it loaded.
    If the save succeeds, the store still held exactly the tree the writer had
    loaded, and now holds the new one. *)
Theorem no_lost_update {V : Type} `{JV : JsonValue V} `{JT : JsonText V}
    `{SD : StoreDecoders V} `{Deps : RecursiveDeps} `{TE : TreeEncoder} `{HO : HashOrder}
    n db0 db1 db2 id t t' now :
  (∀ t s, tree_to_string t = Ok s → tree_from_str s = Ok t) →
  reachable_store db0 → load_recursive_tree id db0 = Ok (Some t) →
  nsteps store_step n db0 db1 → Z.of_nat n < 2 ^ 38 → root_run_id t' = id →
  save_recursive_tree_with_expected_version t' now (t_version t) db1 = Some (Ok tt, db2) →
  stored db1 id = Some t ∧ stored db2 id = Some t'.
Proof.
  intros Hrt Hr Hl Hn Hb Hid Hs. pose proof (reachable_store_ok _ Hrt Hr) as Hok.
  apply load_stored in Hl; [|done]. destruct (store_steps_inv Hrt _ _ _ Hn Hok) as [Hok1 Hp].
  specialize (Hp id). rewrite Hl in Hp.
  apply save_inv in Hs as [(? & [=] & _)|(json & _ & Hv & -> & Hc & _)].
  rewrite (write_tree_stored Hrt) by done. rewrite bool_decide_true by done. split; [|done].
  apply check_expected_inv in Hc; [|done]. rewrite Hid in Hc.
  destruct Hp as [->|[[? _]|(? & t1 & [= <-] & E1 & d & Hd & Ev)]]; [done..|].
  rewrite E1 in Hc. exfalso. destruct (t_version t =? 0); [done|].
  destruct Hc as (? & [= <-] & Ew). rewrite Ev in Ew. revert Ew. apply u64_wrap_ne.
  unfold CALL, STEP in Hd. lia.
Qed.

Lemma no_lost_update_witness :
  stored logged "run-1" = Some admitted ∧ stored with_saved "run-1" = Some leased.
Proof.
  apply (no_lost_update 1 with_child logged with_saved "run-1" admitted leased "t3").
  - exact demo_roundtrip.
  - exact store_reachable_child.
  - evaluate.
  - apply nsteps_once, ss_handler, hs_other. done.
  - done.
  - evaluate.
  - evaluate.
Defined.

(** Handlers never touch authority.  Over any sequence of handler calls, no
    stored tree appears or disappears, and of each one the identity, the root's
    authority and limits, the set of nodes, their lineage, scopes, capabilities
    and limits, the accepted proposals and their receipts stay what they were;
    only accounts, leases, states and versions change. *)
Theorem handlers_keep_authority {V : Type} `{JV : JsonValue V} `{JT : JsonText V}
    `{SD : StoreDecoders V} `{Deps : RecursiveDeps} `{TE : TreeEncoder} `{HO : HashOrder}
    db db' id :
  (∀ t s, tree_to_string t = Ok s → tree_from_str s = Ok t) →
  reachable_store db → rtc handler_step db db' →
  fixed_tree <$> stored db' id = fixed_tree <$> stored db id.
Proof.
  intros Hrt Hr Hst. pose proof (reachable_store_ok _ Hrt Hr) as Hok. clear Hr.
  induction Hst as [|db1 db2 db3 H _ IH]; [done|].
  apply (handler_step_effect Hrt) in H. rewrite IH by by apply H.
  destruct (ef_trees _ _ _ H Hok id) as [->|(t & t' & -> & -> & M)]; [done|].
  cbn. f_equal. apply M.
Qed.

Lemma handlers_keep_authority_witness :
  fixed_tree <$> stored with_result "run-1" = fixed_tree <$> stored with_lease "run-1"
  ∧ is_Some (stored with_result "run-1").
Proof.
  split; [|by vm_compute; eexists].
  apply (handlers_keep_authority with_lease with_result "run-1" demo_roundtrip store_reachable_lease).
  apply rtc_once.
  apply (hs_complete env "run-1" child "lease-1" "lease-1" true false usage "t4" _ (Ok "completed")).
  evaluate.
Defined.

(** C40: What is persisted is what is loaded.  After a tree was persisted with
    its workflow binding checked, loading its run from the database it left
    returns that tree. *)
Theorem persist_load_roundtrip {V : Type} `{JV : JsonValue V} `{JT : JsonText V}
    `{SD : StoreDecoders V} `{Deps : RecursiveDeps} `{TE : TreeEncoder} t now v db db' :
  (∀ t s, tree_to_string t = Ok s → tree_from_str s = Ok t) →
  persist_recursive_tree t now v db = Some (Ok tt, db') →
  load_recursive_tree (root_run_id t) db' = Ok (Some t).
Proof.
  intros Hrt H. unfold persist_recursive_tree in H.
  apply persist_inv in H as [(? & [=] & _)|(json & _ & Hv & -> & _ & Hb)].
  unfold load_recursive_tree. rewrite write_tree_trees. unfold upsert_tree. cbn.
  rewrite lookup_insert_eq. unfold load_row, row_matches. cbn.
  rewrite (Hrt _ _ (validate_json _ _ Hv)), !bool_decide_true by (done || by eapply validate_schema).
  cbn. rewrite (validate_limit _ _ Hv).
  destruct (write_tree_workflow t json now db) as [E1 E2].
  by rewrite (check_workflow_binding_ext _ _ _ E1 E2), (Hb eq_refl), Hv.
Qed.

Lemma persist_load_roundtrip_witness :
  load_recursive_tree "run-1" (run (persist_recursive_tree leased "t3" (Some 2)) with_child)
  = Ok (Some leased).
Proof.
  refine (persist_load_roundtrip leased "t3" (Some 2) with_child _ demo_roundtrip _).
  evaluate.
Defined.

(** The kill switch resolves to a terminal state, which stops nodes unless it is
    [Completed]. *)
Abbreviation kill_of t := (effective_state true (Some "recursive_kill_switch_active") t).

Lemma kill_cases t :
  kill_of t = ExecutionState.Completed ∨ stops_nodes (kill_of t) = true.
Proof.
  unfold effective_state. case_match; [by right|]. destruct (execution_state t); cbn; by auto.
Qed.

Lemma kill_state t : is_terminal (kill_of t) = true.
Proof. destruct (kill_cases t) as [->|]; [done|]. by destruct (kill_of t). Qed.

Lemma kill_stops t : kill_of t ≠ ExecutionState.Completed → stops_nodes (kill_of t) = true.
Proof. by destruct (kill_cases t). Qed.

(** C22: A kill leaves nothing running.  After the operator's kill has
    succeeded, every stored tree is in a terminal state, and unless it had
    completed it holds no lease and has no live node below its root, whatever
    was running before. *)
Theorem kill_stops_recursion {V : Type} `{JV : JsonValue V} `{JT : JsonText V}
    `{SD : StoreDecoders V} `{Deps : RecursiveDeps} `{TE : TreeEncoder} `{HO : HashOrder}
    now db changed db' id t :
  (∀ t s, tree_to_string t = Ok s → tree_from_str s = Ok t) →
  reachable_store db →
  set_recursive_execution_paused true (Some "recursive_kill_switch_active") now db
    = Some (Ok changed, db') →
  stored db' id = Some t →
  is_terminal (execution_state t) = true
  ∧ (execution_state t ≠ ExecutionState.Completed → at_rest t).
Proof.
  intros Hrt Hr H Hst. pose proof (reachable_store_ok _ Hrt Hr) as Hok.
  destruct (set_paused_inv Hrt _ _ _ _ _ _ Hok H) as (_ & _ & Hend).
  assert (Hacc : ∀ t0, stored db id = Some t0 → accepted t0).
  { intros t0 (row & _ & Hrow)%stored_Some; [|done]. by eapply validate_accepted, Hrow. }
  destruct (Hend eq_refl id) as [[E Hv]|E]; rewrite Hst in E.
  - symmetry in E. specialize (Hv t E). unfold reconciled in Hv.
    destruct (reconcile_tree _ t) as [ids t'] eqn:Et. cbn [snd] in Hv.
    apply reconcile_tree_moves in Et as [(_ & Es & Hn)|[_ (d & Hd & Ev)]].
    + rewrite Es. split; [apply kill_state|]. intros Hne. apply unstopped_at_rest; [by auto|].
      by apply Hn, kill_stops.
    + exfalso. rewrite Hv in Ev. symmetry in Ev. revert Ev. apply u64_wrap_ne.
      pose proof (node_total_le _ (ac_size _ (Hacc _ E))). lia.
  - destruct (stored db id) as [t0|] eqn:E0; [|done]. injection E as ->. unfold reconciled.
    destruct (reconcile_tree _ t0) as [ids t'] eqn:Et. cbn [snd].
    rewrite (reconcile_state _ _ _ _ Et). split; [apply kill_state|]. intros Hne.
    eapply reconcile_at_rest; [by apply Hacc|by apply kill_stops|exact Et].
Qed.

Lemma kill_stops_recursion_witness :
  stored with_kill "run-1" = Some killed
  ∧ at_rest killed.
Proof.
  split; [evaluate|].
  refine (proj2 (kill_stops_recursion "t5" with_lease 1%nat with_kill "run-1" killed
    demo_roundtrip store_reachable_lease _ _) _).
  - evaluate.
  - evaluate.
  - evaluate.
Defined.

(** An operator pause stops no work that is under way.  Pausing a running
    tree that has not exhausted its budget changes only its state and version:
    every leased node keeps its lease and its reservation. *)
Theorem pause_keeps_leases `{Deps : RecursiveDeps} t :
  execution_state t = ExecutionState.Running →
  (∀ k n, nodes t !! k = Some n → n_failure_reason n ≠ Some FailureReason.TreeBudgetExhausted) →
  reconciled true (Some "recursive_execution_paused") t
  = t <| execution_state := ExecutionState.OperatorPaused |>
      <| t_version := u64_incr (t_version t) |>.
Proof.
  intros Hs Hn. unfold reconciled, effective_state. rewrite Hs, bool_decide_false by done.
  assert (existsb (λ n, bool_decide (n_failure_reason n = Some FailureReason.TreeBudgetExhausted))
    (btree_values (nodes t)) = false) as ->.
  { apply existsb_false. intros n [k Hk]%elem_of_btree_values. by eapply bool_decide_false, Hn. }
  cbn. unfold reconcile_tree. by rewrite Hs, bool_decide_false.
Qed.

Lemma pause_keeps_leases_witness :
  reconciled true (Some "recursive_execution_paused") leased
  = leased <| execution_state := ExecutionState.OperatorPaused |>
           <| t_version := u64_incr (t_version leased) |>
  ∧ active_leases leased = {["lease-1"]}.
Proof.
  split; [|evaluate].
  apply (pause_keeps_leases leased); [evaluate|].
  assert (H : map_Forall (λ _ n, n_failure_reason n ≠ Some FailureReason.TreeBudgetExhausted)
    (nodes leased)) by evaluate.
  exact H.
Defined.

(** C18: Work within budget is recorded.  The conditions are these.  Snapshots
    decode to what was encoded; the store was reached by its own operations; the
    tree's workflow binding is intact, its version is not 0, and the rows of its
    unfinished tasks name their nodes ([tasks_bound]).  The tree passes validation,
    its nodes are stored under their ids, its list of leases is that of its
    leased nodes, no receipt records an overrun, every amount is a [u64] and
    every limit is below the maximal one ([orderly]); it holds fewer than 24 usage
    receipts.  The node is a live child that holds the reported lease, the usage
    has a fingerprint and fits the node's budget, and its receipt id is new and
    not empty ([attempt]).  Then, if the successor's snapshot encodes within the
    size limit, the completion handler stores the successor tree, whatever the
    verdict and whether the attempt is retried: the usage is charged once to the
    node and once to the tree, and no other check refuses it. *)
Theorem completion_stored {V : Type} `{JV : JsonValue V} `{JT : JsonText V}
    `{SD : StoreDecoders V} `{Deps : RecursiveDeps} `{TE : TreeEncoder} `{HO : HashOrder}
    env run id l rid fp ok retry u now db t n :
  (∀ t s, tree_to_string t = Ok s → tree_from_str s = Ok t) →
  reachable_store db → stored db run = Some t → check_workflow_binding t db = Ok () →
  t_version t ≠ 0 → tasks_bound run (root_node_id t) db →
  orderly t → attempt t id l rid fp u n → rid ≠ "" →
  Z.of_nat (size (usage_receipts t)) < MAX_RECURSIVE_NODES_PER_ROOT * 2 →
  ∃ t', fixed_tree t' = fixed_tree t
    ∧ usage_receipts t' = <[rid := usage_receipt_value true fp]> (usage_receipts t)
    ∧ spent_budget t' = budget_add (spent_budget t) u
    ∧ (n_actual_usage <$> nodes t' !! id) = Some (budget_add (n_actual_usage n) u)
    ∧ ∀ json, tree_to_string t' = Ok json → str_len json <= MAX_RECURSIVE_TREE_BYTES →
      ∃ status db', sync_recursive_completion_with_receipt env run id l rid ok retry u now db
          = Some (Ok status, db')
        ∧ stored db' run = Some t'.
Proof.
  intros Hrt Hr Hst Hb Hv Htb O A Hrid Hsz. pose proof (reachable_store_ok _ Hrt Hr) as Hok.
  destruct (completion_handler Hrt env run id l rid fp ok retry u now db t n Hok Hst Hb Hv Htb O A
    Hrid Hsz) as (t' & ? & ? & ? & ? & Hh).
  exists t'. split_and!; [done..|]. intros json Hj Hlen.
  destruct (Hh json Hj Hlen) as (status & db' & ? & ? & _). eauto.
Qed.

(** The leased tree of the demo meets the conditions. *)
#[local] Instance is_u64_dec z : Decision (is_u64 z).
Proof. unfold is_u64. apply _. Defined.
#[local] Instance budget_ok_dec b : Decision (budget_ok b).
Proof. unfold budget_ok. apply _. Defined.

Lemma leased_typed : budgets_typed leased.
Proof.
  assert (H : map_Forall (λ _ n, budget_ok (n_budget n) ∧ budget_ok (n_actual_usage n)
    ∧ budget_ok (n_child_budget n) ∧ budget_ok (n_reservation n)) (nodes leased))
    by evaluate.
  split; [by apply (bool_decide_unpack _); vm_compute..|exact H].
Qed.

Lemma leased_below : limits_below leased.
Proof.
  intros d.
  assert (H : map_Forall (λ _ n, amount d (n_budget_limit n) < u64_max
    ∧ amount d (n_child_budget_limit n) < u64_max) (nodes leased))
    by (apply (bool_decide_unpack _); destruct d; by vm_compute).
  split; [|exact H].
  assert (E : root_budget_limit leased = Some (mkBudget 10 1000 5000 60000)) by evaluate.
  rewrite E. intros ? [= <-]. by destruct d.
Qed.

Lemma leased_exact : leases_exact leased.
Proof.
  assert (E : held leased = {[child := "lease-1"]}) by evaluate.
  assert (Ea : active_leases leased = {["lease-1"]}) by evaluate.
  split.
  - intros l. rewrite E, Ea, elem_of_singleton. split; [intros ->; exists child; apply lookup_singleton_eq|].
    by intros (k & [_ <-]%lookup_singleton_Some).
  - intros k1 k2 l. rewrite E. by intros [<- _]%lookup_singleton_Some [<- _]%lookup_singleton_Some.
Qed.

Lemma leased_orderly : orderly leased.
Proof.
  split; [exists "leased"; evaluate| |evaluate|apply leased_typed|apply leased_below|
    apply leased_exact].
  apply (map_Forall_keyed leased). evaluate.
Qed.

Definition fits (n : RecursiveNode) : bool :=
  bool_decide (n_lease_id n = Some "lease-1") && negb (node_terminal n)
  && can_spend (n_budget n) usage.

Lemma leased_attempt :
  ∃ n fp, attempt leased child "lease-1" "lease-1" fp usage n.
Proof.
  assert (H : fits <$> nodes leased !! child = Some true) by evaluate.
  apply fmap_Some in H as (n & Hn & H). symmetry in H. unfold fits in H.
  rewrite !andb_true_iff, bool_decide_eq_true, negb_true_iff in H.
  destruct H as [[Hl Ht] Hf]. exists n.
  destruct (usage_to_string usage) as [fp|] eqn:Hu.
  - exists fp. split;
      [exact Hn|evaluate|exact Hl|exact Ht|evaluate|exact Hu|evaluate|exact Hf].
  - assert (is_none (usage_to_string usage) = false) by evaluate. by rewrite Hu in *.
Qed.

Lemma demo_tasks_bound : tasks_bound "run-1" "root" with_lease.
Proof.
  intros k row Hk.
  assert (E : workflow_run_nodes with_lease = {[("run-1", "root") :=
    mkWorkRow "agent_step" "running" "metadata" None (Some "t0") None (Some "t0") 1 None None]}) by evaluate.
  rewrite E, lookup_singleton_ne by congruence. done.
Qed.

Lemma completion_stored_witness :
  (∃ t', spent_budget t' = usage ∧
    ∀ json, tree_to_string t' = Ok json → str_len json <= MAX_RECURSIVE_TREE_BYTES →
    ∃ status db', sync_recursive_completion_with_receipt env "run-1" child "lease-1" "lease-1"
        true false usage "t4" with_lease = Some (Ok status, db'))
  ∧ sync_recursive_completion_with_receipt env "run-1" child "lease-1" "lease-1" true false
      usage "t4" with_lease = Some (Ok "completed", with_result).
Proof.
  split; [|evaluate].
  destruct leased_attempt as (n & fp & A).
  destruct (completion_stored env "run-1" child "lease-1" "lease-1" fp true false usage "t4"
    with_lease leased n) as (t' & _ & _ & Es & _ & Hh).
  - exact demo_roundtrip.
  - exact store_reachable_lease.
  - evaluate.
  - evaluate.
  - evaluate.
  - exact demo_tasks_bound.
  - exact leased_orderly.
  - exact A.
  - done.
  - evaluate.
  - exists t'. split; [rewrite Es; evaluate|]. intros json Hj Hlen.
    destruct (Hh json Hj Hlen) as (status & db' & H & _). eauto.
Defined.

(** ** Usage the store refuses *)

(** More calls than the child's budget of 2, within the tree's 10. *)
Definition overrun : RecursiveBudget := mkBudget 5 40 100 200.

(** A completion whose usage exceeds the node's budget but not the tree's is
    refused: its receipt claims that it was within budget, so the books do not
    balance, and nothing of it is stored. *)
Example node_overrun_refused :
  sync_recursive_completion env "run-1" child "lease-1" true false overrun "t4" with_lease
    = Some (Err "recursive tree aggregate budget is not conserved", with_lease)
  ∧ (root_budget_limit leased = Some (mkBudget 10 1000 5000 60000)
     ∧ can_spend (mkBudget 10 1000 5000 60000) overrun = true)
  ∧ usage_receipts (complete_node_with_usage_receipt child "lease-1" "lease-1" true overrun
      leased).2 = {["lease-1" := usage_receipt_value true (default "" (usage_to_string overrun))]}.
Proof. split_and!; evaluate. Qed.

(** Usage that arrives after its node was settled is refused even within the
    budget: the reservation it would draw on was released. *)
Example late_usage_refused :
  record_recursive_late_usage "run-1" child "lease-2" (mkBudget 1 0 0 0) "t5" with_result
    = Some (Err "recursive tree aggregate budget is not conserved", with_result)
  ∧ stored with_result "run-1" = Some completed
  ∧ execution_state completed = ExecutionState.Running.
Proof. split_and!; evaluate. Qed.
