(* ===== verification/Float64.v ===== *)
(** * Double-precision floats

    The [f64] operations the program uses, on the Standard Library's executable
    specification of binary64 arithmetic: precision 53, exponents below 1024,
    rounding to nearest, ties to even. *)

From S2P Require Import Prelude.
From Stdlib Require Import SpecFloat.

Local Open Scope Z_scope.

Abbreviation f64 := spec_float.

Definition f64_add (x y : f64) : f64 := SFadd 53 1024 x y.
Definition f64_sub (x y : f64) : f64 := SFsub 53 1024 x y.
Definition f64_mul (x y : f64) : f64 := SFmul 53 1024 x y.
Definition f64_div (x y : f64) : f64 := SFdiv 53 1024 x y.

(** [x < y], [x <= y] and [x > y]: false when an operand is NaN. *)
Definition f64_ltb (x y : f64) : bool := SFltb x y.
Definition f64_leb (x y : f64) : bool := SFleb x y.
Definition f64_gtb (x y : f64) : bool := SFltb y x.

(** [n as f64] for an integer. *)
Definition f64_of_Z (n : Z) : f64 := binary_normalize 53 1024 n 0 false.

Definition f64_zero : f64 := S754_zero false.
Definition f64_infinity : f64 := S754_infinity false.

(** The literal closest to [n / d], for [n] and [d] that are exact. *)
Definition f64_lit (n d : Z) : f64 := f64_div (f64_of_Z n) (f64_of_Z d).

(** [iter().sum()], which starts from negative zero. *)
Definition f64_sum (l : list f64) : f64 := foldl f64_add (S754_zero true) l.

(** [f64::round]: to the nearest integer, halves away from zero. *)
Definition f64_round (x : f64) : f64 :=
  match x with
  | S754_finite s m e =>
    if 0 <=? e then x
    else
      let d := 2 ^ (- e) in
      let q := (2 * Z.pos m + d) / (2 * d) in
      if q =? 0 then S754_zero s
      else f64_of_Z (if s then - q else q)
  | _ => x
  end.

(** [x as u64] and [x as usize]: towards zero, clamped; 0 for NaN. *)
Definition f64_as_u64 (x : f64) : Z :=
  match x with
  | S754_nan | S754_zero _ => 0
  | S754_infinity s => if s then 0 else u64_max
  | S754_finite true _ _ => 0
  | S754_finite false m e =>
    Z.min u64_max (if 0 <=? e then Z.pos m * 2 ^ e else Z.pos m / 2 ^ (- e))
  end.

(** [f64::ceil]. *)
Definition f64_ceil (x : f64) : f64 :=
  match x with
  | S754_finite s m e =>
    if 0 <=? e then x
    else
      let d := 2 ^ (- e) in
      let q := if s then - (Z.pos m / d) else - ((- Z.pos m) / d) in
      if q =? 0 then S754_zero s else f64_of_Z q
  | _ => x
  end.

Definition f64_is_finite (x : f64) : bool :=
  match x with S754_zero _ | S754_finite _ _ _ => true | _ => false end.

(** [x == y]: false when an operand is NaN. *)
Definition f64_eqb (x y : f64) : bool := SFeqb x y.

(** [{:.4}]: the exact value rounded to four decimals, ties to even. *)
Definition div_half_even (n d : Z) : Z :=
  let q := n / d in
  let r := 2 * (n mod d) in
  if r <? d then q else if d <? r then q + 1 else if Z.even q then q else q + 1.

Definition pad4 (n : Z) : string :=
  (if n <? 10 then "000" else if n <? 100 then "00" else if n <? 1000 then "0" else "")
    +:+ pretty n.

Definition fmt_fixed4 (x : f64) : string :=
  match x with
  | S754_nan => "NaN"
  | S754_infinity s => (if s then "-" else "") +:+ "inf"
  | S754_zero s => (if s then "-" else "") +:+ "0.0000"
  | S754_finite s m e =>
    let scaled := if 0 <=? e then Z.pos m * 2 ^ e * 10000
                  else div_half_even (Z.pos m * 10000) (2 ^ (- e)) in
    (if s then "-" else "") +:+ pretty (scaled / 10000) +:+ "." +:+ pad4 (scaled mod 10000)
  end.

Example f64_fmt : fmt_fixed4 (f64_add (f64_lit 1 10) (f64_lit 2 10)) = "0.3000".
Proof. vm_compute. reflexivity. Qed.

Example f64_sum_inexact : f64_add (f64_lit 1 10) (f64_lit 2 10) ≠ f64_lit 3 10.
Proof. vm_compute. discriminate. Qed.

Example f64_round_half : f64_round (f64_lit (-5) 2) = f64_of_Z (-3).
Proof. vm_compute. reflexivity. Qed.

(** ** Order *)

(** [partial_cmp]: [None] when an operand is NaN. *)
Definition f64_partial_cmp (x y : f64) : option comparison := SFcompare x y.

(** [f64::max]: the other operand when one is NaN. *)
Definition f64_max (x y : f64) : f64 :=
  match x, y with
  | S754_nan, _ => y
  | _, S754_nan => x
  | _, _ => if f64_ltb x y then y else x
  end.

(** Floats are ordered by class, exponent and mantissa. *)
Definition f64_key (x : f64) : option (Z * Z * Z) :=
  match x with
  | S754_nan => None
  | S754_infinity s => Some (if s then (-2, 0, 0) else (2, 0, 0))
  | S754_zero _ => Some (0, 0, 0)
  | S754_finite s m e => Some (if s then (-1, - e, - Z.pos m) else (1, e, Z.pos m))
  end.

Definition key_lt (a b : Z * Z * Z) : Prop :=
  a.1.1 < b.1.1 ∨ (a.1.1 = b.1.1 ∧ (a.1.2 < b.1.2 ∨ (a.1.2 = b.1.2 ∧ a.2 < b.2))).

Lemma f64_cmp_key x y :
  match SFcompare x y with
  | None => f64_key x = None ∨ f64_key y = None
  | Some c => ∃ a b, f64_key x = Some a ∧ f64_key y = Some b
      ∧ match c with Lt => key_lt a b | Eq => a = b | Gt => key_lt b a end
  end.
Proof.
  unfold key_lt. destruct x as [[]|[]| |[] m1 e1], y as [[]|[]| |[] m2 e2]; cbn; auto;
    try (do 2 eexists; split; [done|]; split; [done|]; cbn; lia);
    try (do 2 eexists; split; [done|]; split; [done|]; done);
    (destruct (Z.compare_spec e1 e2); [|do 2 eexists; split_and!; [done|done|cbn; lia]..];
     subst; fold (Pos.compare m1 m2);
     destruct (Pos.compare_spec m1 m2); cbn; subst; do 2 eexists; split_and!; try done; cbn; lia).
Qed.

Lemma f64_leb_key x y :
  f64_leb x y = true ↔
  (∃ a b, f64_key x = Some a ∧ f64_key y = Some b ∧ (key_lt a b ∨ a = b)).
Proof.
  unfold f64_leb, SFleb. pose proof (f64_cmp_key x y) as H.
  destruct (SFcompare x y) as [[]|].
  - destruct H as (a & b & ? & ? & ?). naive_solver.
  - destruct H as (a & b & ? & ? & ?). naive_solver.
  - destruct H as (a & b & Ha & Hb & ?). split; [done|]. intros (a' & b' & ? & ? & Hc).
    simplify_eq. unfold key_lt in *. destruct Hc; [|subst]; lia.
  - split; [done|]. intros (a & b & ? & ? & _). destruct H; congruence.
Qed.

Lemma f64_ltb_key x y :
  f64_ltb x y = true ↔ (∃ a b, f64_key x = Some a ∧ f64_key y = Some b ∧ key_lt a b).
Proof.
  unfold f64_ltb, SFltb. pose proof (f64_cmp_key x y) as H.
  destruct (SFcompare x y) as [[]|].
  - destruct H as (a & b & Ha & Hb & ?). split; [done|]. intros (a' & b' & ? & ? & Hc).
    simplify_eq. unfold key_lt in *. lia.
  - destruct H as (a & b & ? & ? & ?). naive_solver.
  - destruct H as (a & b & Ha & Hb & ?). split; [done|]. intros (a' & b' & ? & ? & Hc).
    simplify_eq. unfold key_lt in *. lia.
  - split; [done|]. intros (a & b & ? & ? & _). destruct H; congruence.
Qed.

Lemma f64_leb_trans x y z : f64_leb x y = true → f64_leb y z = true → f64_leb x z = true.
Proof.
  rewrite !f64_leb_key. intros (a & b & Ha & Hb & H1) (b' & c & Hb' & Hc & H2). simplify_eq.
  exists a, c. split_and!; [done..|]. unfold key_lt in *.
  destruct H1 as [H1| ->]; [|done]. destruct H2 as [H2| <-]; [left; lia|by left].
Qed.

Lemma f64_leb_ltb x y : f64_leb x y = true → f64_ltb y x = false.
Proof.
  intros H. apply not_true_iff_false. rewrite f64_leb_key in H. rewrite f64_ltb_key.
  destruct H as (a & b & ? & ? & Hc). intros (b' & a' & ? & ? & Hlt). simplify_eq.
  unfold key_lt in *. destruct Hc; [|subst]; lia.
Qed.
