(* ===== verification/Graph.v ===== *)
(** * Directed graphs

    Graph facts shared by the DAG manager and the dependency resolver: cycles
    and finishing orders for the depth-first searches, in-degrees and orders for
    Kahn's algorithm. *)

From S2P Require Import Prelude.
From stdpp Require Import relations.

Abbreviation adjacency := (gmap string (list string)).

Definition nbrs (adj : adjacency) (x : string) : list string := default [] (adj !! x).

(** The colours of a depth-first search ([const WHITE: u8 = 0], ...). *)
Inductive Color : Type := WHITE | GRAY | BLACK.
#[export] Instance Color_eq_dec : EqDecision Color.
Proof. solve_decision. Defined.

(** ** Cycles *)

(** Edges between known nodes. *)
Definition known_edge (adj : adjacency) (known : gset string) (x y : string) : Prop :=
  x ∈ known ∧ y ∈ known ∧ y ∈ nbrs adj x.

Definition cyclic (R : string → string → Prop) : Prop := ∃ x, tc R x x.

Lemma tc_inv (R : string → string → Prop) x y :
  tc R x y → R x y ∨ ∃ z, R x z ∧ tc R z y.
Proof. destruct 1; eauto. Qed.

Lemma tc_flip (R : string → string → Prop) x y : tc (flip R) x y → tc R y x.
Proof. induction 1; [by apply tc_once|]. by eapply tc_r. Qed.

Section finishing_order.
Context (R : string → string → Prop).

(** Most recently finished first: the successors of a finished node finished
    before it. *)
Definition closed_order (done : list string) : Prop :=
  ∀ pre x post, done = pre ++ x :: post → ∀ y, R x y → y ∈ post.

Lemma closed_order_nil : closed_order [].
Proof. intros [|? ?] x post; discriminate. Qed.

Lemma closed_order_cons x done :
  closed_order done → (∀ y, R x y → y ∈ done) → closed_order (x :: done).
Proof.
  intros Hc Hx [|a pre] z post E; simplify_eq/=; [done|]. by eapply Hc.
Qed.

Lemma closed_order_tail x done : closed_order (x :: done) → closed_order done.
Proof. intros Hc pre z post ->. apply (Hc (x :: pre)). done. Qed.

Lemma closed_order_step done x y : closed_order done → x ∈ done → R x y → y ∈ done.
Proof.
  intros Hc (pre & post & ->)%list_elem_of_split HR.
  apply elem_of_app. right. right. by eapply Hc.
Qed.

Lemma closed_order_tc done x y : closed_order done → x ∈ done → tc R x y → y ∈ done.
Proof. intros Hc Hx Ht. induction Ht; eauto using closed_order_step. Qed.

Lemma closed_order_acyclic done x :
  closed_order done → NoDup done → x ∈ done → ¬ tc R x x.
Proof.
  induction done as [|a done IH]; intros Hc Hn Hx Ht; [by apply not_elem_of_nil in Hx|].
  apply NoDup_cons in Hn as [Ha Hn]. pose proof (closed_order_tail _ _ Hc) as Hc'.
  apply elem_of_cons in Hx as [->|Hx]; [|by eapply IH].
  apply Ha. apply tc_inv in Ht as [HR|(y & HR & Ht)].
  - by apply (Hc [] a done).
  - eapply closed_order_tc; [done| |exact Ht]. by apply (Hc [] a done).
Qed.
End finishing_order.

(** In an acyclic graph on finitely many nodes, a set of nodes without a first
    one is empty. *)
Lemma acyclic_has_source (R : string → string → Prop) (known : gset string)
    (P : string → Prop) :
  ¬ cyclic R → (∀ x y, R x y → x ∈ known) →
  (∀ y, P y → ∃ x, R x y ∧ P x) → ∀ y, ¬ P y.
Proof.
  intros Hac Hfin Hstep y Hy.
  assert (Hsn : Acc (flip (flip R)) y).
  { apply tc_finite_sn.
    - intros x Ht. apply Hac. exists x. by apply tc_flip.
    - exists (elements known). intros x Ht%tc_flip. apply elem_of_elements.
      apply tc_inv in Ht as [?|(z & ? & _)]; eauto. }
  induction Hsn as [y _ IH]. destruct (Hstep y Hy) as (x & HR & Hx). eauto.
Qed.

(** ** Kahn's algorithm *)

(** Successors of [x] in the order of the edge list. *)
Definition succs (edges : list (string * string)) (x : string) : list string :=
  (filter (λ e, e.1 = x) edges).*2.

Lemma elem_of_succs edges x y : y ∈ succs edges x ↔ (x, y) ∈ edges.
Proof.
  unfold succs. rewrite list_elem_of_fmap. split.
  - intros ([a b] & -> & [E H]%list_elem_of_filter). simpl in E. by subst.
  - intros H. exists (x, y). split; [done|]. by apply list_elem_of_filter.
Qed.

(** The inner loop of both sorts: take one off the in-degree of each successor
    and emit those that reach zero. *)
Fixpoint relax (ds : list string) (deg : gmap string Z) : gmap string Z * list string :=
  match ds with
  | [] => (deg, [])
  | d :: ds =>
    match deg !! d with
    | None => relax ds deg
    | Some k =>
      let '(deg', out) := relax ds (<[d := (k - 1)%Z]> deg) in
      (deg', if (k - 1 =? 0)%Z then d :: out else out)
    end
  end.

Definition occurrences (y : string) (ds : list string) : Z :=
  Z.of_nat (length (filter (λ d, d = y) ds)).

Lemma occurrences_cons y d ds :
  occurrences y (d :: ds) = ((if bool_decide (d = y) then 1 else 0) + occurrences y ds)%Z.
Proof.
  unfold occurrences. rewrite filter_cons. case_decide; case_bool_decide; simpl; try done; lia.
Qed.

Lemma occurrences_perm y ds ds' : ds ≡ₚ ds' → occurrences y ds = occurrences y ds'.
Proof. intros H. unfold occurrences. by rewrite H. Qed.

Lemma occurrences_nonneg y ds : (0 ≤ occurrences y ds)%Z.
Proof. unfold occurrences. lia. Qed.

Lemma relax_deg ds deg deg' out :
  relax ds deg = (deg', out) →
  ∀ y, deg' !! y = (λ k, (k - occurrences y ds)%Z) <$> deg !! y.
Proof.
  revert deg deg' out. induction ds as [|d ds IH]; intros deg deg' out H y; simpl in H.
  - injection H as <- <-. destruct (deg !! y); [|done]. simpl. f_equal. unfold occurrences.
    simpl. lia.
  - rewrite occurrences_cons. destruct (deg !! d) as [k|] eqn:Hd.
    + destruct (relax ds _) as [deg1 out1] eqn:Hr. injection H as <- _.
      rewrite (IH _ _ _ Hr y). case_bool_decide as E.
      * subst d. rewrite lookup_insert_eq, Hd. simpl. f_equal. lia.
      * rewrite lookup_insert_ne by done. by rewrite Z.add_0_l.
    + rewrite (IH _ _ _ H y). case_bool_decide as E; [subst d; by rewrite Hd|].
      by rewrite Z.add_0_l.
Qed.

Lemma relax_out ds deg deg' out :
  relax ds deg = (deg', out) →
  NoDup out ∧ ∀ y, y ∈ out ↔ ∃ k, deg !! y = Some k ∧ (1 ≤ k ≤ occurrences y ds)%Z.
Proof.
  revert deg deg' out. induction ds as [|d ds IH]; intros deg deg' out H; simpl in H.
  - injection H as <- <-. split; [constructor|]. intros y. split; [by intros ?%not_elem_of_nil|].
    intros (k & _ & ?). unfold occurrences in *. simpl in *. lia.
  - destruct (deg !! d) as [k|] eqn:Hd.
    + destruct (relax ds _) as [deg1 out1] eqn:Hr. injection H as _ <-.
      apply IH in Hr as [Hnd Hout].
      assert (Hd1 : d ∈ out1 ↔ (1 ≤ k - 1 ≤ occurrences d ds)%Z).
      { rewrite Hout, lookup_insert_eq. naive_solver. }
      assert (Hy : ∀ y, y ≠ d → y ∈ out1 ↔ ∃ k, deg !! y = Some k ∧
        (1 ≤ k ≤ occurrences y (d :: ds))%Z).
      { intros y Hne. rewrite Hout, lookup_insert_ne, occurrences_cons by done.
        by rewrite bool_decide_false, Z.add_0_l by done. }
      assert (Hocc : occurrences d (d :: ds) = (1 + occurrences d ds)%Z)
        by by rewrite occurrences_cons, bool_decide_true.
      pose proof (occurrences_nonneg d ds).
      destruct (k - 1 =? 0)%Z eqn:Ek.
      * split; [constructor; [rewrite Hd1; lia|done]|]. intros y. rewrite elem_of_cons.
        destruct (decide (y = d)) as [->|Hne].
        -- rewrite Hd, Hocc. split; [|by left]. intros _. exists k. split; [done|lia].
        -- rewrite <-Hy by done. naive_solver.
      * split; [done|]. intros y. destruct (decide (y = d)) as [->|Hne]; [|by apply Hy].
        rewrite Hd1, Hd, Hocc. split.
        -- intros ?. exists k. split; [done|lia].
        -- intros (k' & [= <-] & ?). lia.
    + apply IH in H as [Hnd Hout]. split; [done|]. intros y. rewrite Hout.
      rewrite occurrences_cons. case_bool_decide as E; [subst d; naive_solver congruence|].
      by rewrite Z.add_0_l.
Qed.

Section kahn.
Context (edges : list (string * string)) (V : gset string).

(** Edges into [y] from nodes not yet output. *)
Definition indeg (done : list string) (y : string) : Z :=
  Z.of_nat (length (filter (λ e : string * string, e.2 = y ∧ e.1 ∉ done) edges)).

(** [res] has been output in this order, [q] is ready. *)
Record kahn_inv (deg : gmap string Z) (res q : list string) : Prop := {
  kh_deg : ∀ y, deg !! y = if bool_decide (y ∈ V) then Some (indeg res y) else None;
  kh_nodup : NoDup (res ++ q);
  kh_ready : ∀ y, y ∈ res ++ q ↔ y ∈ V ∧ indeg res y = 0%Z;
  kh_order : ∀ pre y post, res = pre ++ y :: post → ∀ x, (x, y) ∈ edges → x ∈ pre;
}.

Lemma indeg_0 done y : indeg done y = 0%Z ↔ ∀ x, (x, y) ∈ edges → x ∈ done.
Proof.
  unfold indeg. split.
  - intros H x Hx. destruct (decide (x ∈ done)) as [|Hn]; [done|].
    assert (Hin : (x, y) ∈ filter (λ e : string * string, e.2 = y ∧ e.1 ∉ done) edges)
      by by apply list_elem_of_filter.
    destruct (filter _ _); [by apply not_elem_of_nil in Hin|]. simpl in H. lia.
  - intros H. destruct (filter _ _) as [|[x y'] l] eqn:E; [done|]. exfalso.
    assert (Hin : (x, y') ∈ filter (λ e : string * string, e.2 = y ∧ e.1 ∉ done) edges)
      by (rewrite E; left).
    apply list_elem_of_filter in Hin as [[Hy Hn] Hin]. simpl in *. subst. eauto.
Qed.

Lemma indeg_pos done y : indeg done y ≠ 0%Z → ∃ x, (x, y) ∈ edges ∧ x ∉ done.
Proof.
  intros E. unfold indeg in E. destruct (filter _ _) as [|[x z'] l] eqn:El; [done|].
  assert (Hin : (x, z') ∈ filter (λ e : string * string, e.2 = y ∧ e.1 ∉ done) edges)
    by (rewrite El; left).
  apply list_elem_of_filter in Hin as [[Hz' ?] ?]. simpl in *. subst. eauto.
Qed.

Lemma indeg_nonneg done y : (0 ≤ indeg done y)%Z.
Proof. unfold indeg. lia. Qed.

Lemma indeg_snoc done x y :
  x ∉ done → indeg (done ++ [x]) y = (indeg done y - occurrences y (succs edges x))%Z.
Proof.
  intros Hx. unfold indeg, occurrences, succs.
  induction edges as [|[a b] es IH]; [done|]. rewrite !filter_cons; simpl.
  assert (Hmem : a ∈ done ++ [x] ↔ a ∈ done ∨ a = x).
  { by rewrite elem_of_app, list_elem_of_singleton. }
  destruct (decide (a = x)) as [->|Ha]; [rewrite fmap_cons, filter_cons; simpl|];
    repeat case_decide; simpl; naive_solver lia.
Qed.

Lemma kahn_inv_perm deg res q q' :
  q ≡ₚ q' → kahn_inv deg res q → kahn_inv deg res q'.
Proof. intros Hp []. split; [done|by rewrite <-Hp|by intros; rewrite <-Hp|done]. Qed.

Lemma kahn_inv_step deg res x q ds deg' out :
  kahn_inv deg res (x :: q) → ds ≡ₚ succs edges x → relax ds deg = (deg', out) →
  kahn_inv deg' (res ++ [x]) (q ++ out).
Proof.
  intros [Hdeg Hnd Hready Hord] Hp Hr.
  assert (Hx : x ∉ res) by (apply NoDup_app in Hnd as (_ & Hd & _); set_solver).
  assert (Hx0 : x ∈ V ∧ indeg res x = 0%Z)
    by (apply Hready, elem_of_app; right; left).
  pose proof (relax_deg _ _ _ _ Hr) as Hdeg'. apply relax_out in Hr as [Hndo Hout].
  assert (Hocc : ∀ y, indeg (res ++ [x]) y = (indeg res y - occurrences y ds)%Z).
  { intros y. rewrite indeg_snoc by done. by rewrite (occurrences_perm y ds _ Hp). }
  assert (Hout' : ∀ y, y ∈ out ↔ y ∈ V ∧ indeg res y ≠ 0%Z ∧ indeg (res ++ [x]) y = 0%Z).
  { intros y. rewrite Hout, Hdeg. pose proof (indeg_nonneg res y).
    pose proof (indeg_nonneg (res ++ [x]) y). rewrite Hocc in *.
    case_bool_decide; [|naive_solver]. split.
    - intros (k & [= <-] & ?). split_and!; [done|lia|lia].
    - intros (_ & ? & ?). eexists. split; [done|lia]. }
  assert (Happ : (res ++ [x]) ++ q ++ out ≡ₚ (res ++ x :: q) ++ out).
  { by rewrite <-!(assoc_L (++)). }
  split.
  - intros y. rewrite Hdeg', Hdeg, Hocc. by case_bool_decide.
  - rewrite Happ. apply NoDup_app. split_and!; [done| |done].
    intros y [_ Hy]%Hready (_ & Hne & _)%Hout'. done.
  - intros y. rewrite Happ, elem_of_app, Hready, Hout', Hocc.
    pose proof (indeg_nonneg (res ++ [x]) y). rewrite Hocc in *.
    pose proof (occurrences_nonneg y ds). split; [|destruct (decide (indeg res y = 0%Z)); naive_solver].
    intros [[? ?]|(?&?&?)]; split; try done; lia.
  - intros pre y post E z Hz.
    destruct post as [|w post' _] using rev_ind.
    + apply app_inj_tail in E as [<- <-].
      by apply (proj1 (indeg_0 res x) (proj2 Hx0)).
    + rewrite app_comm_cons, (assoc_L (++)) in E. apply app_inj_tail in E as [-> _].
      by eapply Hord.
Qed.

(** Each node of [V] is output at most once, so [V] bounds the steps left. *)
Lemma kahn_inv_length deg res q :
  kahn_inv deg res q → (length res + length q ≤ size V)%nat.
Proof.
  intros [_ Hnd Hready _]. rewrite <-length_app.
  rewrite <-(size_list_to_set (C := gset string)) by done.
  apply subseteq_size. intros y Hy%elem_of_list_to_set. by apply Hready.
Qed.

(** With nothing ready, an acyclic graph has been output entirely, every edge
    from an earlier to a later position. *)
Lemma kahn_inv_done deg res :
  kahn_inv deg res [] →
  (∀ x y, (x, y) ∈ edges → x ∈ V ∧ y ∈ V) →
  ¬ cyclic (λ x y, (x, y) ∈ edges) →
  NoDup res ∧ (∀ y, y ∈ res ↔ y ∈ V)
  ∧ (∀ pre y post, res = pre ++ y :: post → ∀ x, (x, y) ∈ edges → x ∈ pre).
Proof.
  intros [_ Hnd Hready Hord] Hends Hac. rewrite app_nil_r in *.
  split_and!; [done| |done]. intros y. split; [by intros [? _]%Hready|]. intros Hy.
  destruct (decide (y ∈ res)) as [|Hn]; [done|exfalso].
  refine (acyclic_has_source (λ x y, (x, y) ∈ edges) V (λ y, y ∈ V ∧ y ∉ res)
    Hac _ _ y (conj Hy Hn)).
  - intros a b ?%Hends. naive_solver.
  - intros z [Hz Hzr]. destruct (decide (indeg res z = 0%Z)) as [E|E].
    + destruct Hzr. by apply Hready.
    + apply indeg_pos in E as (x & Hx & Hxr).
      exists x. split; [done|]. split; [|done]. by destruct (Hends _ _ Hx).
Qed.
End kahn.

(** *** Building the in-degree map

    [in_degree.entry(node).or_insert(0)] for every node, then
    [*in_degree.entry(to).or_insert(0) += 1] for every edge. *)

Definition in_degrees (ids : list string) (edges : list (string * string)) : gmap string Z :=
  let deg := foldl (λ m id, match m !! id with Some _ => m | None => <[id := 0%Z]> m end)
               ∅ ids in
  foldl (λ m e, <[e.2 := (default 0 (m !! e.2) + 1)%Z]> m) deg edges.

Lemma lookup_in_degrees_nodes (ids : list string) (m : gmap string Z) y :
  foldl (λ m id, match m !! id with Some _ => m | None => <[id := 0%Z]> m end) m ids !! y =
  match m !! y with
  | Some k => Some k
  | None => if bool_decide (y ∈ ids) then Some 0%Z else None
  end.
Proof.
  revert m. induction ids as [|id ids IH]; intros m; simpl.
  - by destruct (m !! y).
  - rewrite IH. destruct (m !! id) as [k|] eqn:Hid.
    + destruct (m !! y) eqn:Hy; [done|]. assert (y ≠ id) by congruence.
      erewrite bool_decide_ext; [done|set_solver].
    + destruct (decide (y = id)) as [->|Hne].
      * rewrite lookup_insert_eq, Hid. by rewrite bool_decide_true by left.
      * rewrite lookup_insert_ne by done. destruct (m !! y); [done|].
        erewrite bool_decide_ext; [done|set_solver].
Qed.

Lemma lookup_in_degrees_edges (edges : list (string * string)) (m : gmap string Z) y :
  foldl (λ m e, <[e.2 := (default 0 (m !! e.2) + 1)%Z]> m) m edges !! y =
  if bool_decide (is_Some (m !! y) ∨ y ∈ edges.*2)
  then Some (default 0 (m !! y) + occurrences y edges.*2)%Z else None.
Proof.
  revert m. induction edges as [|[a b] edges IH]; intros m; simpl.
  - destruct (m !! y) as [k|]; [rewrite bool_decide_true by eauto|].
    + by rewrite Z.add_0_r.
    + rewrite bool_decide_false; [done|]. intros [[??]|?%not_elem_of_nil]; done.
  - rewrite IH, occurrences_cons. destruct (decide (b = y)) as [->|Hne].
    + rewrite lookup_insert_eq, (bool_decide_true (y = y)) by done.
      rewrite bool_decide_true by eauto. rewrite bool_decide_true by (right; left).
      by rewrite Z.add_assoc.
    + rewrite lookup_insert_ne, (bool_decide_false (b = y)) by done.
      erewrite bool_decide_ext; [done|]. rewrite elem_of_cons. naive_solver.
Qed.

Lemma indeg_nil edges y : indeg edges [] y = occurrences y edges.*2.
Proof.
  unfold indeg, occurrences. f_equal. induction edges as [|[a b] es IH]; [done|].
  rewrite fmap_cons, !filter_cons. simpl. pose proof (not_elem_of_nil a).
  destruct (decide (b = y)); [rewrite decide_True by done|rewrite decide_False by tauto];
    simpl; [f_equal|]; exact IH.
Qed.

(** The nodes Kahn's algorithm knows: the listed ones and the edge targets. *)
Definition kahn_nodes (ids : list string) (edges : list (string * string)) : gset string :=
  list_to_set ids ∪ list_to_set edges.*2.

Lemma lookup_in_degrees ids edges y :
  in_degrees ids edges !! y =
  if bool_decide (y ∈ kahn_nodes ids edges) then Some (indeg edges [] y) else None.
Proof.
  unfold in_degrees, kahn_nodes. rewrite lookup_in_degrees_edges, lookup_in_degrees_nodes.
  rewrite lookup_empty, indeg_nil.
  assert (E : is_Some (if bool_decide (y ∈ ids) then Some 0%Z else None) ∨ y ∈ edges.*2 ↔
    y ∈ (list_to_set ids ∪ list_to_set edges.*2 : gset string)).
  { rewrite elem_of_union, !elem_of_list_to_set. case_bool_decide; split; intros [?|?]; eauto.
    - by destruct H0.
    - done. }
  rewrite (bool_decide_ext _ _ E). case_bool_decide; [|done]. by case_bool_decide.
Qed.

(** The initially ready nodes, in any order. *)
Lemma kahn_inv_init ids edges q :
  q ≡ₚ (filter (λ p : string * Z, p.2 = 0%Z) (map_to_list (in_degrees ids edges))).*1 →
  kahn_inv edges (kahn_nodes ids edges) (in_degrees ids edges) [] q.
Proof.
  intros Hq. split; simpl.
  - apply lookup_in_degrees.
  - rewrite Hq. apply NoDup_fmap_fst; [|apply NoDup_filter, NoDup_map_to_list].
    intros x a b [_ H1]%list_elem_of_filter [_ H2]%list_elem_of_filter.
    apply elem_of_map_to_list in H1, H2. congruence.
  - intros y. rewrite Hq, list_elem_of_fmap. split.
    + intros ([y' d] & -> & [Hd H%elem_of_map_to_list]%list_elem_of_filter). simpl in *.
      subst d. rewrite lookup_in_degrees in H. case_bool_decide; naive_solver.
    + intros [Hy H0]. exists (y, 0%Z). split; [done|]. apply list_elem_of_filter.
      split; [done|]. apply elem_of_map_to_list.
      by rewrite lookup_in_degrees, bool_decide_true, H0.
  - intros [|? ?]; discriminate.
Qed.

(** The errors both validations report for edges with missing ends. *)
Lemma endpoint_errors_nil {E} (from to msg1 msg2 : E → string) (ids : list string) (es : list E) :
  mjoin ((λ e, (if bool_decide (from e ∈ ids) then [] else [msg1 e])
               ++ (if bool_decide (to e ∈ ids) then [] else [msg2 e])) <$> es) = []
  ↔ ∀ x y, (x, y) ∈ (λ e, (from e, to e)) <$> es → x ∈ ids ∧ y ∈ ids.
Proof.
  induction es as [|e es IH]; simpl; [split; [set_solver|done]|]. rewrite app_nil, IH. split.
  - intros [H1 H2] x y [[= -> ->]|?]%elem_of_cons; [|auto]. by repeat case_bool_decide.
  - intros H. split; [|intros; apply H; by right].
    destruct (H _ _ (list_elem_of_here _ _)). by rewrite !bool_decide_true.
Qed.
