(* ===== verification/DagManager.v ===== *)
(** * The DAG manager

    Model of workflow/dag_manager: the state of a task graph, the mutations that
    produce a new version of it, rollback, and the queries (validation,
    topological order, ready nodes, paths). *)

From S2P Require Import Prelude Json Graph.

Local Open Scope Z_scope.

Section dag_manager.
Context {V : Type} `{JV : JsonValue V}.

(** ** Data *)

Record DAGNode : Type := mkDAGNode {
  node_id : string;
  task_id : option string;
  node_type : string;
  node_status : string;
  tier : string;
  node_metadata : json_map V;
}.

Record DAGEdge : Type := mkDAGEdge {
  edge_id : string;
  from_node : string;
  to_node : string;
  dependency_type : string;
  edge_status : string;
}.

Record DAGState : Type := mkDAGState {
  state_dag_id : string;
  version : Z;
  dag_nodes : list DAGNode;
  dag_edges : list DAGEdge;
  created_at : string;
  updated_at : string;
}.

Record DAGMutationProposal : Type := mkDAGMutationProposal {
  proposal_id : string;
  proposal_dag_id : string;
  mutation_type : string;
  target_node_id : option string;
  target_edge_id : option string;
  payload : json_map V;
  proposal_reason : string;
  proposal_requires_approval : bool;
  proposal_status : string;
}.

Record DAGMutationResult : Type := mkDAGMutationResult {
  result_proposal_id : string;
  applied : bool;
  new_dag_version : Z;
  rolled_back : bool;
  errors : list string;
}.

(** [history] has the most recently pushed entry first. *)
Record DAGManager : Type := mkDAGManager {
  manager_dag_id : string;
  state : DAGState;
  history : list (DAGState * DAGMutationProposal);
}.

(** ** Cycle detection *)

Definition ids_of (nodes : list DAGNode) : list string := node_id <$> nodes.
Definition pairs_of (edges : list DAGEdge) : list (string * string) :=
  (λ e, (from_node e, to_node e)) <$> edges.

(** [adj.entry(id).or_default()] for every node, then a push on the list of the
    source of every edge, if that source is a node. *)
Definition adjacency_of (ids : list string) (edges : list (string * string)) : adjacency :=
  let adj := foldl (λ m id, match m !! id with Some _ => m | None => <[id := []]> m end)
               ∅ ids in
  foldl (λ m e, match m !! e.1 with
                | Some list => <[e.1 := list ++ [e.2]]> m
                | None => m
                end) adj edges.

(** The [while let Some((node, idx)) = stack.pop()] loop: [Some (true, _)] is
    [return true], [Some (false, color)] the end of the loop, [None] no fuel
    left. *)
Fixpoint cycle_search (fuel : nat) (adj : adjacency) (stack : list (string * nat))
    (color : gmap string Color) : option (bool * gmap string Color) :=
  match fuel with
  | O => None
  | S fuel =>
    match stack with
    | [] => Some (false, color)
    | (node, idx) :: stack =>
      let neighbors := default [] (adj !! node) in
      match neighbors !! idx with
      | None => cycle_search fuel adj stack (<[node := BLACK]> color)
      | Some neighbor =>
        match color !! neighbor with
        | Some GRAY => Some (true, color)
        | Some WHITE =>
          cycle_search fuel adj ((neighbor, O) :: (node, S idx) :: stack)
            (<[neighbor := GRAY]> color)
        | _ => cycle_search fuel adj ((node, S idx) :: stack) color
        end
      end
    end
  end.

(** As many iterations as nodes and edges. *)
Definition search_fuel (adj : adjacency) : nat :=
  S (map_fold (λ _ l n, S (length l) + n)%nat O adj).

(** The loop over the start nodes. *)
Fixpoint cycle_from (adj : adjacency) (starts : list string)
    (color : gmap string Color) : option bool :=
  match starts with
  | [] => Some false
  | start :: starts =>
    if bool_decide (color !! start = Some WHITE) then
      match cycle_search (search_fuel adj) adj [(start, O)] (<[start := GRAY]> color) with
      | None => None
      | Some (true, _) => Some true
      | Some (false, color) => cycle_from adj starts color
      end
    else cycle_from adj starts color
  end.

(** [None] when a search runs out of fuel. *)
Definition has_cycle (nodes : list DAGNode) (edges : list DAGEdge) : option bool :=
  let ids := ids_of nodes in
  let color := foldl (λ m id, <[id := WHITE]> m) (∅ : gmap string Color) ids in
  cycle_from (adjacency_of ids (pairs_of edges)) (sort_strings ids) color.

(** ** Helpers *)

Definition find_node (nodes : list DAGNode) (id : string) : option DAGNode :=
  List.find (λ n, bool_decide (node_id n = id)) nodes.

Definition find_edge (edges : list DAGEdge) (id : string) : option DAGEdge :=
  List.find (λ e, bool_decide (edge_id e = id)) edges.

Definition requires_approval (proposal : DAGMutationProposal) (st : DAGState) : bool :=
  bail proposal_requires_approval proposal with true ;;
  bail bool_decide (mutation_type proposal = "remove_node")
    && match target_node_id proposal ≫= find_node (dag_nodes st) with
       | Some node => bool_decide (node_status node = "running")
                      || bool_decide (node_status node = "completed")
       | None => false
       end with true ;;
  bail bool_decide (mutation_type proposal = "rewire_edge")
    && match target_edge_id proposal ≫= find_edge (dag_edges st) with
       | Some edge =>
         match find_node (dag_nodes st) (from_node edge) with
         | Some node => bool_decide (node_status node = "completed")
         | None => false
         end
       | None => false
       end with true ;;
  false.

(** ** Mutations *)

Abbreviation mutation_result := (result string DAGState).

(** The new version every mutation builds. *)
Definition next_state (st : DAGState) (proposal : DAGMutationProposal)
    (nodes : list DAGNode) (edges : list DAGEdge) : DAGState :=
  mkDAGState (state_dag_id st) (i64_add (version st) 1) nodes edges (created_at st)
    (proposal_id proposal).

Definition apply_add_node (st : DAGState) (proposal : DAGMutationProposal)
    : mutation_result :=
  let p := payload proposal in
  id <-? ok_or (get_str p "node_id") "missing node_id" ;;
  bail is_some (find_node (dag_nodes st) id) with Err ("node " +:+ id +:+ " already exists") ;;
  let new_node := {|
    node_id := id;
    task_id := get_str p "task_id";
    node_type := get_str_or p "node_type" "task";
    node_status := get_str_or p "status" "pending";
    tier := get_str_or p "tier" "cheap_executor";
    node_metadata := default ∅ (p !! "metadata" ≫= as_object) |} in
  Ok (next_state st proposal (dag_nodes st ++ [new_node]) (dag_edges st)).

Definition apply_remove_node (st : DAGState) (proposal : DAGMutationProposal)
    : mutation_result :=
  id <-? ok_or (target_node_id proposal) "missing target_node_id" ;;
  bail is_none (find_node (dag_nodes st) id) with Err ("node " +:+ id +:+ " not found") ;;
  let connected := filter (λ e, from_node e = id ∨ to_node e = id) (dag_edges st) in
  bail negb (bool_decide (connected = []))
    with Err ("node " +:+ id +:+ " has " +:+ pretty (length connected) +:+
              " connected edges; remove them first") ;;
  Ok (next_state st proposal (filter (λ n, node_id n ≠ id) (dag_nodes st)) (dag_edges st)).

(** The mutations that call [has_cycle] return [None] when it runs out of fuel. *)
Definition apply_add_edge (st : DAGState) (proposal : DAGMutationProposal)
    : option mutation_result :=
  let p := payload proposal in
  match
    id <-? ok_or (get_str p "edge_id") "missing edge_id" ;;
    from <-? ok_or (get_str p "from_node") "missing from_node" ;;
    to <-? ok_or (get_str p "to_node") "missing to_node" ;;
    bail is_none (find_node (dag_nodes st) from)
      with Err ("from_node " +:+ from +:+ " not found") ;;
    bail is_none (find_node (dag_nodes st) to)
      with Err ("to_node " +:+ to +:+ " not found") ;;
    bail is_some (find_edge (dag_edges st) id)
      with Err ("edge " +:+ id +:+ " already exists") ;;
    Ok {| edge_id := id; from_node := from; to_node := to;
          dependency_type := get_str_or p "dependency_type" "hard";
          edge_status := get_str_or p "status" "pending" |}
  with
  | Err e => Some (Err e)
  | Ok new_edge =>
    let test_edges := dag_edges st ++ [new_edge] in
    match has_cycle (dag_nodes st) test_edges with
    | None => None
    | Some true =>
      Some (Err ("adding edge " +:+ edge_id new_edge +:+ " would create a cycle"))
    | Some false => Some (Ok (next_state st proposal (dag_nodes st) test_edges))
    end
  end.

Definition apply_remove_edge (st : DAGState) (proposal : DAGMutationProposal)
    : mutation_result :=
  id <-? ok_or (target_edge_id proposal) "missing target_edge_id" ;;
  bail is_none (find_edge (dag_edges st) id) with Err ("edge " +:+ id +:+ " not found") ;;
  Ok (next_state st proposal (dag_nodes st)
        (filter (λ e, edge_id e ≠ id) (dag_edges st))).

Definition apply_rewire_edge (st : DAGState) (proposal : DAGMutationProposal)
    : option mutation_result :=
  let p := payload proposal in
  match
    id <-? ok_or (target_edge_id proposal) "missing target_edge_id" ;;
    edge <-? ok_or (find_edge (dag_edges st) id) ("edge " +:+ id +:+ " not found") ;;
    let new_from := get_str_or p "from_node" (from_node edge) in
    let new_to := get_str_or p "to_node" (to_node edge) in
    bail is_none (find_node (dag_nodes st) new_from)
      with Err ("from_node " +:+ new_from +:+ " not found") ;;
    bail is_none (find_node (dag_nodes st) new_to)
      with Err ("to_node " +:+ new_to +:+ " not found") ;;
    Ok (id, edge, {| edge_id := edge_id edge; from_node := new_from; to_node := new_to;
          dependency_type := get_str_or p "dependency_type" (dependency_type edge);
          edge_status := edge_status edge |})
  with
  | Err e => Some (Err e)
  | Ok (id, edge, rewired) =>
    let test_edges := filter (λ e, edge_id e ≠ edge_id edge) (dag_edges st) ++ [rewired] in
    match has_cycle (dag_nodes st) test_edges with
    | None => None
    | Some true => Some (Err ("rewiring edge " +:+ id +:+ " would create a cycle"))
    | Some false => Some (Ok (next_state st proposal (dag_nodes st) test_edges))
    end
  end.

Definition apply_update_node (st : DAGState) (proposal : DAGMutationProposal)
    : mutation_result :=
  id <-? ok_or (target_node_id proposal) "missing target_node_id" ;;
  node <-? ok_or (find_node (dag_nodes st) id) ("node " +:+ id +:+ " not found") ;;
  let p := payload proposal in
  let updated := {|
    node_id := node_id node;
    task_id := match p !! "task_id" with
               | Some v => Some (default "" (as_str v))
               | None => task_id node
               end;
    node_type := get_str_or p "node_type" (node_type node);
    node_status := get_str_or p "status" (node_status node);
    tier := get_str_or p "tier" (tier node);
    node_metadata := default (node_metadata node) (p !! "metadata" ≫= as_object) |} in
  Ok (next_state st proposal
        ((λ n, if bool_decide (node_id n = id) then updated else n) <$> dag_nodes st)
        (dag_edges st)).

(** ** Compensation *)

Definition compensate (proposal : DAGMutationProposal) : DAGMutationProposal :=
  let inv :=
    if bool_decide (mutation_type proposal = "add_node") then "remove_node"
    else if bool_decide (mutation_type proposal = "remove_node") then "add_node"
    else if bool_decide (mutation_type proposal = "add_edge") then "remove_edge"
    else if bool_decide (mutation_type proposal = "remove_edge") then "add_edge"
    else mutation_type proposal in
  {| proposal_id := "comp_" +:+ proposal_id proposal;
     proposal_dag_id := proposal_dag_id proposal;
     mutation_type := inv;
     target_node_id := target_node_id proposal;
     target_edge_id := target_edge_id proposal;
     payload := payload proposal;
     proposal_reason := "compensate " +:+ proposal_id proposal;
     proposal_requires_approval := false;
     proposal_status := "pending" |}.

(** ** The manager *)

Definition manager_new (dag_id timestamp : string) : DAGManager := {|
  manager_dag_id := dag_id;
  state := mkDAGState dag_id 0 [] [] timestamp timestamp;
  history := [] |}.

(** The function selected by the mutation type; [None] for an unknown one. *)
Definition apply_fn (kind : string) :
    option (DAGState → DAGMutationProposal → option mutation_result) :=
  if bool_decide (kind = "add_node") then Some (λ s p, Some (apply_add_node s p))
  else if bool_decide (kind = "remove_node") then Some (λ s p, Some (apply_remove_node s p))
  else if bool_decide (kind = "add_edge") then Some apply_add_edge
  else if bool_decide (kind = "remove_edge") then Some (λ s p, Some (apply_remove_edge s p))
  else if bool_decide (kind = "rewire_edge") then Some apply_rewire_edge
  else if bool_decide (kind = "update_node") then Some (λ s p, Some (apply_update_node s p))
  else None.

Definition rejected (self : DAGManager) (proposal : DAGMutationProposal) (e : string)
    : DAGMutationResult :=
  mkDAGMutationResult (proposal_id proposal) false (version (state self)) false [e].

Definition apply_mutation (self : DAGManager) (proposal : DAGMutationProposal)
    : option (DAGMutationResult * DAGManager) :=
  bail negb (bool_decide (proposal_dag_id proposal = manager_dag_id self))
    with Some (rejected self proposal ("dag_id mismatch: expected " +:+ manager_dag_id self
                 +:+ ", got " +:+ proposal_dag_id proposal), self) ;;
  match apply_fn (mutation_type proposal) with
  | None =>
    Some (rejected self proposal ("unknown mutation_type: " +:+ mutation_type proposal), self)
  | Some f =>
    bail requires_approval proposal (state self)
      with Some (rejected self proposal
                   "mutation requires approval; set status=approved to proceed", self) ;;
    match f (state self) proposal with
    | None => None
    | Some (Ok new_state) =>
      Some (mkDAGMutationResult (proposal_id proposal) true (version new_state) false [],
            mkDAGManager (manager_dag_id self) new_state
              ((state self, proposal) :: history self))
    | Some (Err e) => Some (rejected self proposal e, self)
    end
  end.

Fixpoint rollback_loop (to_version : Z) (st : DAGState)
    (hist : list (DAGState * DAGMutationProposal))
    : DAGState * list (DAGState * DAGMutationProposal) :=
  if to_version <? version st then
    match hist with
    | [] => (st, [])
    | (prev_state, _) :: hist => rollback_loop to_version prev_state hist
    end
  else (st, hist).

Definition rollback (to_version : Z) (self : DAGManager) : DAGManager :=
  let '(st, hist) := rollback_loop to_version (state self) (history self) in
  mkDAGManager (manager_dag_id self) st hist.

(** ** Queries *)

Definition validate_dag (self : DAGManager) : option (list string) :=
  let st := state self in
  let node_ids := ids_of (dag_nodes st) in
  let endpoint_errors :=
    mjoin ((λ e,
      (if bool_decide (from_node e ∈ node_ids) then []
       else ["edge " +:+ edge_id e +:+ ": from_node " +:+ from_node e +:+ " not found"])
      ++ (if bool_decide (to_node e ∈ node_ids) then []
          else ["edge " +:+ edge_id e +:+ ": to_node " +:+ to_node e +:+ " not found"]))
      <$> dag_edges st) in
  match has_cycle (dag_nodes st) (dag_edges st) with
  | None => None
  | Some cycle => Some (endpoint_errors ++ if cycle then ["DAG contains a cycle"] else [])
  end.

(** The [while let Some(node) = queue.pop_front()] loop of Kahn's algorithm. *)
Fixpoint topological_loop (fuel : nat) (adj : adjacency) (queue : list string)
    (in_degree : gmap string Z) (result : list string) : option (list string) :=
  match queue with
  | [] => Some result
  | node :: queue =>
    match fuel with
    | O => None
    | S fuel =>
      let '(in_degree, pushed) :=
        match adj !! node with
        | Some neighbors => relax (sort_strings neighbors) in_degree
        | None => (in_degree, [])
        end in
      topological_loop fuel adj (queue ++ pushed) in_degree (result ++ [node])
    end
  end.

(** The queue starts with the nodes of in-degree zero, collected from a
    [HashMap] and sorted. *)
Definition zero_degree (in_degree : gmap string Z) : list string :=
  sort_strings (filter (λ p : string * Z, p.2 = 0) (map_to_list in_degree)).*1.

Definition topological_order (self : DAGManager) : option (list string) :=
  let st := state self in
  let ids := ids_of (dag_nodes st) in
  let edges := pairs_of (dag_edges st) in
  let in_degree := in_degrees ids edges in
  topological_loop (size in_degree) (adjacency_of ids edges) (zero_degree in_degree)
    in_degree [].

Definition nodes_ready (self : DAGManager) (completed : gset string) : list DAGNode :=
  let st := state self in
  sort_by (λ a b, String.leb (node_id a) (node_id b))
    (filter (λ node,
       ¬ (node_id node ∈ completed ∨ node_status node ≠ "pending")
       ∧ Forall (λ e, from_node e ∈ completed)
           (filter (λ e, to_node e = node_id node) (dag_edges st)))
      (dag_nodes st)).

(** The [for neighbor in sorted_neighbors] loop of [path_between]'s [dfs], whose
    recursive call is [dfs]; [path] has its last element first. *)
Fixpoint path_scan
    (dfs : string → gset string → list string → option (bool * gset string * list string))
    (current : string) (neighbors : list string) (visited : gset string) (path : list string)
    : option (bool * gset string * list string) :=
  match neighbors with
  | [] => Some (false, visited, path)
  | neighbor :: rest =>
    if bool_decide (neighbor ∈ visited) then path_scan dfs current rest visited path
    else
      match dfs neighbor visited (current :: path) with
      | None => None
      | Some (true, visited, path) => Some (true, visited, path)
      | Some (false, visited, path) => path_scan dfs current rest visited (tail path)
      end
  end.

Fixpoint path_dfs (fuel : nat) (adj : adjacency) (target current : string)
    (visited : gset string) (path : list string)
    : option (bool * gset string * list string) :=
  match fuel with
  | O => None
  | S fuel =>
    if bool_decide (current = target) then Some (true, visited, current :: path)
    else
      let visited := {[current]} ∪ visited in
      match adj !! current with
      | Some neighbors =>
        path_scan (path_dfs fuel adj target) current (sort_strings neighbors) visited path
      | None => Some (false, visited, path)
      end
  end.

(** [None] when the search runs out of fuel. *)
Definition path_between (self : DAGManager) (from to : string)
    : option (option (list string)) :=
  let st := state self in
  let edges := pairs_of (dag_edges st) in
  let adj := adjacency_of (ids_of (dag_nodes st)) edges in
  match path_dfs (S (size adj)) adj to from ∅ [] with
  | None => None
  | Some (true, _, path) => Some (Some (rev path))
  | Some (false, _, _) => Some None
  end.

End dag_manager.
