(* ===== verification/DagCycle.v ===== *)
(** * Cycle detection of the DAG manager

    The iterative three-colour search of dag_manager/helpers.rs always ends and
    answers whether the graph has a cycle. *)

From S2P Require Import Prelude Json Graph DagManager.
From stdpp Require Import relations.

(** ** The adjacency map *)

Lemma lookup_adjacency_nodes (ids : list string) (m : adjacency) x :
  foldl (λ m id, match m !! id with Some _ => m | None => <[id := []]> m end) m ids !! x =
  match m !! x with
  | Some l => Some l
  | None => if bool_decide (x ∈ ids) then Some [] else None
  end.
Proof.
  revert m. induction ids as [|id ids IH]; intros m; simpl; [by destruct (m !! x)|].
  rewrite IH. destruct (m !! id) as [k|] eqn:Hid.
  - destruct (m !! x) eqn:Hx; [done|]. assert (x ≠ id) by congruence.
    erewrite bool_decide_ext; [done|set_solver].
  - destruct (decide (x = id)) as [->|Hne].
    + rewrite lookup_insert_eq, Hid. by rewrite bool_decide_true by left.
    + rewrite lookup_insert_ne by done. destruct (m !! x); [done|].
      erewrite bool_decide_ext; [done|set_solver].
Qed.

Lemma lookup_adjacency_edges (edges : list (string * string)) (m : adjacency) x :
  foldl (λ m e, match m !! e.1 with
                | Some list => <[e.1 := list ++ [e.2]]> m
                | None => m
                end) m edges !! x =
  (λ l, l ++ succs edges x) <$> m !! x.
Proof.
  revert m. induction edges as [|[a b] edges IH]; intros m; simpl.
  - destruct (m !! x); [|done]. simpl. by rewrite app_nil_r.
  - rewrite IH. unfold succs. rewrite filter_cons. simpl.
    destruct (m !! a) as [l|] eqn:Ha; case_decide as E; try subst a.
    + rewrite lookup_insert_eq, Ha. simpl. by rewrite <-(assoc_L (++)).
    + by rewrite lookup_insert_ne.
    + by rewrite Ha.
    + done.
Qed.

Lemma lookup_adjacency_of ids edges x :
  adjacency_of ids edges !! x = if bool_decide (x ∈ ids) then Some (succs edges x) else None.
Proof.
  unfold adjacency_of. rewrite lookup_adjacency_edges, lookup_adjacency_nodes, lookup_empty.
  by case_bool_decide.
Qed.

Lemma nbrs_adjacency_of ids edges x :
  nbrs (adjacency_of ids edges) x = if bool_decide (x ∈ ids) then succs edges x else [].
Proof. unfold nbrs. rewrite lookup_adjacency_of. by case_bool_decide. Qed.

Lemma dom_adjacency_of ids edges : dom (adjacency_of ids edges) = (list_to_set ids : gset string).
Proof.
  apply set_eq. intros x. rewrite elem_of_dom, lookup_adjacency_of, elem_of_list_to_set.
  case_bool_decide; split; [done|eauto|intros [??]; done|done].
Qed.

(** ** Sums *)

Lemma sum_list_with_ext {A} (f g : A → nat) l :
  (∀ x, x ∈ l → f x = g x) → sum_list_with f l = sum_list_with g l.
Proof.
  induction l as [|a l IH]; intros H; simpl; [done|].
  rewrite (H a) by left. rewrite IH; [done|]. intros. apply H. by right.
Qed.

Lemma sum_list_with_perm {A} (f : A → nat) l l' :
  l ≡ₚ l' → sum_list_with f l = sum_list_with f l'.
Proof. induction 1; simpl; lia. Qed.

Lemma sum_list_with_change {A} `{EqDecision A} (f g : A → nat) l x :
  NoDup l → x ∈ l → (∀ y, y ≠ x → f y = g y) →
  sum_list_with f l + g x = sum_list_with g l + f x.
Proof.
  intros Hn Hx H. induction Hn as [|a l Ha Hn IH]; [by apply not_elem_of_nil in Hx|]. simpl.
  apply elem_of_cons in Hx as [->|Hx].
  - rewrite (sum_list_with_ext f g l); [lia|]. intros y Hy. apply H. by intros ->.
  - rewrite (H a) by (by intros ->). specialize (IH Hx). lia.
Qed.

(** ** One search *)

Section search.
Context (adj : adjacency) (known : gset string).

Local Abbreviation R := (known_edge adj known).

(** What is below the top of the stack: everything scanned so far is finished
    or is the node being explored above. *)
Fixpoint stack_ok (done : list string) (above : option string)
    (stack : list (string * nat)) : Prop :=
  match stack with
  | [] => True
  | (n, i) :: rest =>
    (∀ j y, j < i → nbrs adj n !! j = Some y → y ∈ known → y ∈ done ∨ above = Some y)
    ∧ (∀ m, above = Some m → R n m)
    ∧ stack_ok done (Some n) rest
  end.

Record search_inv (stack : list (string * nat)) (color : gmap string Color)
    (done : list string) : Prop := {
  si_dom : dom color = known;
  si_gray : ∀ x, color !! x = Some GRAY ↔ x ∈ stack.*1;
  si_black : ∀ x, color !! x = Some BLACK ↔ x ∈ done;
  si_nodup : NoDup done;
  si_stack_nodup : NoDup stack.*1;
  si_closed : closed_order R done;
  si_stack : stack_ok done None stack;
}.

Lemma stack_ok_mono done done' above above' stack :
  (∀ y, y ∈ done → y ∈ done') →
  (∀ y, above = Some y → y ∈ done' ∨ above' = Some y) →
  (∀ m, above' = Some m → above = Some m) →
  stack_ok done above stack → stack_ok done' above' stack.
Proof.
  revert above above'. induction stack as [|[n i] rest IH]; intros above above' Hd Ha Hm; [done|].
  simpl. intros (Hs & Hr & Hrest). split_and!.
  - intros j y Hj Hy Hk. destruct (Hs j y Hj Hy Hk) as [?|?]; eauto.
  - eauto.
  - eapply IH; [..|exact Hrest]; eauto.
Qed.

(** From any node on the stack there is a path to the node above its top. *)
Lemma stack_ok_path done above stack m x :
  stack_ok done above stack → above = Some m → x ∈ stack.*1 → tc R x m.
Proof.
  revert above m. induction stack as [|[n i] rest IH]; intros above m Hs Ha Hx;
    [by apply not_elem_of_nil in Hx|].
  destruct Hs as (_ & Hr & Hrest). simpl in Hx. apply elem_of_cons in Hx as [->|Hx].
  - apply tc_once. auto.
  - eapply tc_r; [by eapply IH|auto].
Qed.

Lemma search_inv_known stack color done x :
  search_inv stack color done → x ∈ known ↔
  color !! x = Some WHITE ∨ x ∈ stack.*1 ∨ x ∈ done.
Proof.
  intros Hi. rewrite <-(si_dom _ _ _ Hi), elem_of_dom, <-(si_gray _ _ _ Hi),
    <-(si_black _ _ _ Hi).
  split; [intros [[] ?]; auto|]. intros [?|[?|?]]; eauto.
Qed.

(** Leaving a node: all its successors are finished. *)
Lemma search_inv_pop n i rest color done :
  search_inv ((n, i) :: rest) color done → nbrs adj n !! i = None →
  search_inv rest (<[n := BLACK]> color) (n :: done).
Proof.
  intros Hi Hend. destruct Hi as [Hdom Hg Hb Hnd Hsnd Hc (Hs & _ & Hrest)].
  apply NoDup_cons in Hsnd as [Hn Hsnd].
  assert (Hgn : color !! n = Some GRAY) by (apply Hg; left).
  split; try done.
  - rewrite dom_insert_L. rewrite Hdom. apply subseteq_union_1_L, singleton_subseteq_l.
    rewrite <-Hdom. by apply elem_of_dom_2 in Hgn.
  - intros x. destruct (decide (x = n)) as [->|Hne].
    + rewrite lookup_insert_eq. split; [done|]. by intros ?%Hn.
    + rewrite lookup_insert_ne, Hg by done. simpl. rewrite elem_of_cons. naive_solver.
  - intros x. rewrite elem_of_cons. destruct (decide (x = n)) as [->|Hne].
    + rewrite lookup_insert_eq. naive_solver.
    + rewrite lookup_insert_ne, Hb by done. naive_solver.
  - constructor; [|done]. rewrite <-Hb, Hgn. done.
  - apply closed_order_cons; [done|]. intros y (_ & Hy & Hin).
    apply list_elem_of_lookup in Hin as [j Hj].
    destruct (Hs j y) as [?|?]; try done.
    apply lookup_ge_None in Hend. apply lookup_lt_Some in Hj. lia.
  - eapply stack_ok_mono; [..|exact Hrest]; [by right| |done].
    intros y [= ->]. left. left.
Qed.

(** A successor that is finished or unknown is skipped. *)
Lemma search_inv_skip n i rest color done y :
  search_inv ((n, i) :: rest) color done → nbrs adj n !! i = Some y →
  color !! y ≠ Some GRAY → color !! y ≠ Some WHITE →
  search_inv ((n, S i) :: rest) color done.
Proof.
  intros Hi Hy Hg Hw. assert (Hyd : y ∈ known → y ∈ done).
  { rewrite (search_inv_known _ _ _ _ Hi), <-(si_gray _ _ _ Hi). naive_solver. }
  destruct Hi as [Hdom Hgr Hb Hnd Hsnd Hc (Hs & Hr & Hrest)]. split; try done.
  split_and!; [|done|done]. intros j z Hj Hz Hk.
  destruct (decide (j = i)) as [->|]; [simplify_eq; auto|].
  apply (Hs j z); try done. lia.
Qed.

(** A new successor is explored first. *)
Lemma search_inv_push n i rest color done y :
  search_inv ((n, i) :: rest) color done → nbrs adj n !! i = Some y →
  color !! y = Some WHITE →
  search_inv ((y, 0) :: (n, S i) :: rest) (<[y := GRAY]> color) done.
Proof.
  intros Hi Hy Hw.
  assert (Hny : y ≠ n).
  { intros ->. rewrite (proj2 (si_gray _ _ _ Hi n)) in Hw; [done|]. left. }
  assert (Hkn : n ∈ known) by (apply (search_inv_known _ _ _ _ Hi); right; left; left).
  assert (Hky : y ∈ known) by (apply (search_inv_known _ _ _ _ Hi); by left).
  destruct Hi as [Hdom Hgr Hb Hnd Hsnd Hc (Hs & Hr & Hrest)]. split; try done.
  - rewrite dom_insert_L, Hdom. by apply subseteq_union_1_L, singleton_subseteq_l.
  - intros x. simpl. rewrite elem_of_cons. destruct (decide (x = y)) as [->|Hne].
    + rewrite lookup_insert_eq. naive_solver.
    + rewrite lookup_insert_ne, Hgr by done. simpl. naive_solver.
  - intros x. destruct (decide (x = y)) as [->|Hne].
    + rewrite lookup_insert_eq, <-Hb, Hw. done.
    + by rewrite lookup_insert_ne, Hb.
  - simpl. constructor; [|done]. change (y ∉ ((n, i) :: rest).*1). rewrite <-Hgr, Hw. done.
  - cbn [stack_ok]. split_and!; [intros; lia|done| | |done].
    + intros j z Hj Hz Hk. destruct (decide (j = i)) as [->|]; [right; by simplify_eq|].
      left. destruct (Hs j z) as [?|?]; try done. lia.
    + intros m [= <-]. split_and!; try done. by apply list_elem_of_lookup_2 in Hy.
Qed.

Lemma cycle_search_sound fuel stack color fin b color' :
  cycle_search fuel adj stack color = Some (b, color') → search_inv stack color fin →
  if b then cyclic R
  else ∃ fin', search_inv [] color' fin'
    ∧ ∀ x, x ∈ stack.*1 ∨ x ∈ fin → x ∈ fin'.
Proof.
  revert stack color fin. induction fuel as [|fuel IH]; intros stack color fin H Hi; [done|].
  simpl in H. destruct stack as [|[n i] rest].
  { injection H as <- <-. exists fin. split; [done|]. set_solver. }
  destruct (default [] (adj !! n) !! i) as [y|] eqn:Hy.
  - destruct (color !! y) as [[]|] eqn:Hc.
    + specialize (IH _ _ _ H (search_inv_push _ _ _ _ _ _ Hi Hy Hc)).
      destruct b; [done|]. destruct IH as (fin' & Hi' & Hsub). exists fin'. split; [done|].
      intros x Hx. apply Hsub. simpl in *. rewrite !elem_of_cons in *. naive_solver.
    + injection H as <- _.
      assert (Hyk : y ∈ known).
      { rewrite <-(si_dom _ _ _ Hi). by apply elem_of_dom_2 in Hc. }
      assert (Hnk : n ∈ known) by (apply (search_inv_known _ _ _ _ Hi); right; left; left).
      assert (HR : R n y) by (split_and!; [done|done|by apply list_elem_of_lookup_2 in Hy]).
      apply (si_gray _ _ _ Hi) in Hc. simpl in Hc. apply elem_of_cons in Hc as [->|Hc].
      * exists n. by apply tc_once.
      * exists n. eapply tc_l; [exact HR|]. destruct (si_stack _ _ _ Hi) as (_ & _ & Hrest).
        by eapply stack_ok_path.
    + refine (IH _ _ _ H _). eapply search_inv_skip; [done..| |]; congruence.
    + refine (IH _ _ _ H _). eapply search_inv_skip; [done..| |]; congruence.
  - specialize (IH _ _ _ H (search_inv_pop _ _ _ _ _ Hi Hy)).
    destruct b; [done|]. destruct IH as (fin' & Hi' & Hsub). exists fin'. split; [done|].
    intros x Hx. apply Hsub. simpl in *. rewrite !elem_of_cons in *. naive_solver.
Qed.

(** *** Termination *)

Definition white_cost (color : gmap string Color) : nat :=
  sum_list_with (λ x, if bool_decide (color !! x = Some WHITE)
                      then S (length (nbrs adj x)) else 0) (elements known).

Definition stack_cost (stack : list (string * nat)) : nat :=
  sum_list_with (λ p, S (length (nbrs adj p.1) - p.2)) stack.

Lemma white_cost_leave color x c :
  x ∈ known → color !! x = Some WHITE → c ≠ WHITE →
  white_cost color = white_cost (<[x := c]> color) + S (length (nbrs adj x)).
Proof.
  intros Hx Hw Hc. unfold white_cost.
  pose proof (sum_list_with_change
    (λ y, if bool_decide (<[x := c]> color !! y = Some WHITE) then S (length (nbrs adj y)) else 0)
    (λ y, if bool_decide (color !! y = Some WHITE) then S (length (nbrs adj y)) else 0)
    (elements known) x (NoDup_elements _) (proj2 (elem_of_elements _ _) Hx)) as E.
  cbv beta in E.
  rewrite lookup_insert_eq, Hw, (bool_decide_true (Some WHITE = _)),
    (bool_decide_false (Some c = _)) in E by congruence.
  rewrite <-Nat.add_0_r at 1. rewrite <-E; [lia|]. intros y Hy. by rewrite lookup_insert_ne.
Qed.

Lemma white_cost_same color x c c' :
  color !! x = Some c → c ≠ WHITE → c' ≠ WHITE →
  white_cost (<[x := c']> color) = white_cost color.
Proof.
  intros Hx Hc Hc'. unfold white_cost. apply sum_list_with_ext. intros y _.
  destruct (decide (y = x)) as [->|].
  - rewrite lookup_insert_eq, Hx, !bool_decide_false by congruence. done.
  - by rewrite lookup_insert_ne.
Qed.

Lemma cycle_search_total fuel stack color fin :
  search_inv stack color fin → stack_cost stack + white_cost color < fuel →
  is_Some (cycle_search fuel adj stack color).
Proof.
  revert stack color fin. induction fuel as [|fuel IH]; intros stack color fin Hi Hf; [lia|].
  simpl. destruct stack as [|[n i] rest]; [eauto|]. unfold stack_cost in Hf. simpl in Hf.
  fold (stack_cost rest) in Hf. destruct (default [] (adj !! n) !! i) as [y|] eqn:Hy.
  - pose proof (lookup_lt_Some _ _ _ Hy) as Hlt. fold (nbrs adj n) in Hlt.
    destruct (color !! y) as [[]|] eqn:Hc; [|eauto|..].
    + eapply IH; [by eapply search_inv_push|]. unfold stack_cost. simpl.
      fold (stack_cost rest). rewrite (white_cost_leave color y GRAY) in Hf; try done; [lia|].
      apply (search_inv_known _ _ _ _ Hi). by left.
    + eapply IH; [eapply search_inv_skip; [done..| |]; congruence|].
      unfold stack_cost. simpl. fold (stack_cost rest). lia.
    + eapply IH; [eapply search_inv_skip; [done..| |]; congruence|].
      unfold stack_cost. simpl. fold (stack_cost rest). lia.
  - eapply IH; [by eapply search_inv_pop|].
    rewrite (white_cost_same _ _ GRAY); [lia| |done|done].
    apply (si_gray _ _ _ Hi). left.
Qed.

(** ** All the searches *)

Lemma search_inv_start color fin start :
  search_inv [] color fin → color !! start = Some WHITE →
  search_inv [(start, 0)] (<[start := GRAY]> color) fin.
Proof.
  intros Hi Hw.
  assert (Hk : start ∈ known) by (apply (search_inv_known _ _ _ _ Hi); by left).
  destruct Hi as [Hdom Hgr Hb Hnd Hsnd Hc _]. split; try done.
  - rewrite dom_insert_L, Hdom. by apply subseteq_union_1_L, singleton_subseteq_l.
  - intros x. simpl. rewrite list_elem_of_singleton. destruct (decide (x = start)) as [->|Hne].
    + rewrite lookup_insert_eq. naive_solver.
    + rewrite lookup_insert_ne, Hgr by done. split; [by intros ?%not_elem_of_nil|done].
  - intros x. destruct (decide (x = start)) as [->|Hne].
    + rewrite lookup_insert_eq, <-Hb, Hw. done.
    + by rewrite lookup_insert_ne, Hb.
  - apply NoDup_singleton.
  - cbn [stack_ok]. split_and!; [intros; lia|done|done].
Qed.

Lemma white_cost_bound color : known = dom adj → white_cost color < search_fuel adj.
Proof.
  intros Hk. unfold search_fuel. rewrite map_fold_foldr.
  apply Nat.lt_succ_r. unfold white_cost.
  transitivity (sum_list_with (λ x, S (length (nbrs adj x))) (elements known)).
  { induction (elements known) as [|x l IH]; simpl; [done|]. case_bool_decide; lia. }
  assert (E : elements known ≡ₚ (map_to_list adj).*1).
  { rewrite Hk. apply NoDup_Permutation; [apply NoDup_elements|apply NoDup_fst_map_to_list|].
    intros x. rewrite elem_of_elements, elem_of_dom, list_elem_of_fmap. split.
    - intros [l Hl]. exists (x, l). by rewrite elem_of_map_to_list.
    - intros ([y l] & -> & Hl%elem_of_map_to_list). eauto. }
  rewrite (sum_list_with_perm _ _ _ E).
  assert (Hin : ∀ x l, (x, l) ∈ map_to_list adj → nbrs adj x = l).
  { intros x l H%elem_of_map_to_list. unfold nbrs. by rewrite H. }
  revert Hin. clear E. induction (map_to_list adj) as [|[x l] ml IH]; intros Hin; simpl; [done|].
  rewrite (Hin x l) by left. apply le_n_S, Nat.add_le_mono_l, IH.
  intros. apply Hin. by right.
Qed.

Lemma cycle_from_spec starts color fin :
  known = dom adj → search_inv [] color fin →
  (∀ x, x ∈ known → x ∈ starts ∨ x ∈ fin) →
  ∃ b, cycle_from adj starts color = Some b ∧ (b = true ↔ cyclic R).
Proof.
  intros Hk. revert color fin. induction starts as [|start starts IH];
    intros color fin Hi Hcov; cbn [cycle_from].
  - exists false. split; [done|]. split; [done|]. intros [x Hx]. exfalso.
    assert (Hxk : x ∈ known) by (apply tc_inv in Hx as [(?&?)|(?&(?&?)&_)]; done).
    apply (closed_order_acyclic R fin x); [by eapply si_closed|by eapply si_nodup| |done].
    by destruct (Hcov x Hxk) as [?%not_elem_of_nil|].
  - case_bool_decide as Hw.
    + pose proof (search_inv_start _ _ _ Hi Hw) as Hi'.
      assert (Hsk : start ∈ known) by (apply (search_inv_known _ _ _ _ Hi); by left).
      destruct (cycle_search_total (search_fuel adj) _ _ _ Hi') as [[b color'] Hs].
      { unfold stack_cost. simpl. pose proof (white_cost_bound color Hk).
        rewrite (white_cost_leave color start GRAY) in H by done. lia. }
      rewrite Hs. apply (cycle_search_sound _ _ _ _ _ _ Hs) in Hi'.
      destruct b; [exists true; done|]. destruct Hi' as (fin' & Hi' & Hsub).
      apply (IH _ _ Hi'). intros x [[->|?]%elem_of_cons|?]%Hcov; [right|by left|right];
        apply Hsub; [left; left|by right].
    + apply (IH _ _ Hi). intros x Hx. destruct (Hcov x Hx) as [[->|?]%elem_of_cons|?];
        [|by left|by right]. right.
      apply (search_inv_known _ _ _ _ Hi) in Hx as [?|[?%not_elem_of_nil|?]]; done.
Qed.
End search.

(** ** has_cycle *)

Section has_cycle.
Context {V : Type} `{JV : JsonValue V}.
Implicit Types (nodes : list (DAGNode (V := V))) (edges : list DAGEdge).

(** Edges whose two ends are nodes. *)
Definition dag_edge nodes edges (x y : string) : Prop :=
  x ∈ ids_of nodes ∧ y ∈ ids_of nodes ∧ (x, y) ∈ pairs_of edges.

Lemma lookup_white (ids : list string) (m : gmap string Color) x :
  foldl (λ m id, <[id := WHITE]> m) m ids !! x =
  if bool_decide (x ∈ ids) then Some WHITE else m !! x.
Proof.
  revert m. induction ids as [|id ids IH]; intros m; simpl; [done|]. rewrite IH.
  destruct (decide (x ∈ ids)).
  - rewrite (bool_decide_true (x ∈ ids)) by done. by rewrite bool_decide_true by (by right).
  - rewrite (bool_decide_false (x ∈ ids)) by done. destruct (decide (x = id)) as [->|].
    + by rewrite lookup_insert_eq, bool_decide_true by left.
    + rewrite lookup_insert_ne, bool_decide_false by set_solver. done.
Qed.

Lemma has_cycle_spec nodes edges :
  ∃ b, has_cycle nodes edges = Some b ∧ (b = true ↔ cyclic (dag_edge nodes edges)).
Proof.
  unfold has_cycle. set (ids := ids_of nodes). set (adj := adjacency_of ids _).
  set (color := foldl _ _ _).
  assert (Hcol : ∀ x, color !! x = if bool_decide (x ∈ ids) then Some WHITE else None).
  { intros x. unfold color. by rewrite lookup_white, lookup_empty. }
  destruct (cycle_from_spec adj (list_to_set ids) (sort_strings ids) color [])
    as (b & Hb & Hiff).
  - unfold adj. by rewrite dom_adjacency_of.
  - split; [..|done].
    + apply set_eq. intros x. rewrite elem_of_dom, Hcol, elem_of_list_to_set.
      case_bool_decide; split; [done|eauto|by intros [??]|done].
    + intros x. rewrite Hcol. split; [by case_bool_decide|by intros ?%not_elem_of_nil].
    + intros x. rewrite Hcol. split; [by case_bool_decide|by intros ?%not_elem_of_nil].
    + apply NoDup_nil_2.
    + apply NoDup_nil_2.
    + apply closed_order_nil.
  - intros x Hx%elem_of_list_to_set. left. unfold sort_strings. by rewrite elem_of_sort_by.
  - exists b. split; [done|]. rewrite Hiff.
    assert (HR : ∀ x y, known_edge adj (list_to_set ids) x y ↔ dag_edge nodes edges x y).
    { intros x y. unfold known_edge, dag_edge, adj. rewrite !elem_of_list_to_set.
      rewrite nbrs_adjacency_of. case_bool_decide; [by rewrite elem_of_succs|naive_solver]. }
    unfold cyclic. split; intros [x Hx]; exists x;
      (eapply tc_congruence with (f := id); [|exact Hx]); intros; by apply HR.
Qed.

End has_cycle.
