(* ===== verification/DagProps.v ===== *)
(** * Properties of the DAG manager

    Every manager reached by mutations and rollbacks holds a well-formed acyclic
    graph, rollback restores earlier versions exactly, and the queries answer
    what they promise. *)

From S2P Require Import Prelude Json Graph DagManager DagCycle.
From stdpp Require Import relations.

Local Open Scope Z_scope.

Section props.
Context {V : Type} `{JV : JsonValue V}.
Implicit Types (st : DAGState (V := V)) (m : DAGManager (V := V))
  (p : DAGMutationProposal (V := V)).

(** ** Well-formed graphs *)

Record dag_wf st : Prop := {
  wf_nodes : NoDup (ids_of (dag_nodes st));
  wf_edges : NoDup (edge_id <$> dag_edges st);
  wf_ends : ∀ x y, (x, y) ∈ pairs_of (dag_edges st) →
    x ∈ ids_of (dag_nodes st) ∧ y ∈ ids_of (dag_nodes st);
  wf_acyclic : ¬ cyclic (λ x y, (x, y) ∈ pairs_of (dag_edges st));
}.

Lemma find_node_Some (nodes : list (DAGNode (V := V))) id n :
  find_node nodes id = Some n → n ∈ nodes ∧ node_id n = id.
Proof.
  unfold find_node. intros [Hin Hid]%List.find_some.
  by rewrite bool_decide_eq_true, <-list_elem_of_In in *.
Qed.

Lemma find_node_is_Some (nodes : list (DAGNode (V := V))) id :
  is_Some (find_node nodes id) ↔ id ∈ ids_of nodes.
Proof.
  unfold ids_of. rewrite list_elem_of_fmap. split.
  - intros [n [Hn <-]%find_node_Some]. eauto.
  - intros (n & -> & Hn). destruct (find_node nodes (node_id n)) eqn:E; [eauto|exfalso].
    apply list_elem_of_In in Hn. by apply (List.find_none _ _ E) in Hn as ?%bool_decide_eq_false.
Qed.

Lemma find_node_None (nodes : list (DAGNode (V := V))) id :
  find_node nodes id = None ↔ id ∉ ids_of nodes.
Proof. rewrite <-find_node_is_Some, eq_None_not_Some. done. Qed.

Lemma find_edge_Some (edges : list DAGEdge) id e :
  find_edge edges id = Some e → e ∈ edges ∧ edge_id e = id.
Proof.
  unfold find_edge. intros [Hin Hid]%List.find_some.
  by rewrite bool_decide_eq_true, <-list_elem_of_In in *.
Qed.

Lemma find_edge_None (edges : list DAGEdge) id :
  find_edge edges id = None → id ∉ edge_id <$> edges.
Proof.
  intros Hf (e & -> & He)%list_elem_of_fmap. apply list_elem_of_In in He.
  by apply (List.find_none _ _ Hf) in He as ?%bool_decide_eq_false.
Qed.

Lemma cyclic_mono (R R' : string → string → Prop) :
  (∀ x y, R x y → R' x y) → cyclic R → cyclic R'.
Proof. intros H [x Hx]. exists x. by eapply tc_congruence with (f := id). Qed.

(** ** Validation *)

Lemma validate_dag_spec (m : DAGManager (V := V)) :
  let ids := ids_of (dag_nodes (state m)) in
  let edges := pairs_of (dag_edges (state m)) in
  ∃ errors, validate_dag m = Some errors
    ∧ (errors = [] ↔ (∀ x y, (x, y) ∈ edges → x ∈ ids ∧ y ∈ ids)
                     ∧ ¬ cyclic (λ x y, (x, y) ∈ edges)).
Proof.
  intros ids edges. unfold validate_dag.
  destruct (has_cycle_spec (dag_nodes (state m)) (dag_edges (state m))) as (b & -> & Hb).
  eexists. split; [done|]. rewrite app_nil, endpoint_errors_nil. split.
  - intros [Hends Hnb]. split; [exact Hends|]. intros Hc. destruct b; [done|].
    assert (false = true); [|done]. apply Hb. eapply cyclic_mono; [|exact Hc].
    intros x y Hxy. destruct (Hends x y Hxy). by split_and!.
  - intros [Hends Hac]. split; [exact Hends|]. destruct b; [|done]. destruct Hac.
    eapply cyclic_mono; [|by apply Hb]. by intros x y (_&_&?).
Qed.

(** ** Each mutation keeps the graph well formed *)

Lemma add_node_wf st p st' : dag_wf st → apply_add_node st p = Ok st' → dag_wf st'.
Proof.
  intros [Hn He Hends Hac]. unfold apply_add_node.
  destruct (get_str _ "node_id") as [id|]; [|done]; cbn.
  destruct (find_node _ _) eqn:Hf; [done|]. cbn. intros [= <-].
  apply find_node_None in Hf. split; cbn; try done; unfold ids_of in *; rewrite fmap_app.
  - apply NoDup_app. split_and!; [done| |apply NoDup_singleton]. set_solver.
  - intros x y Hxy. apply Hends in Hxy. set_solver.
Qed.

Lemma remove_node_wf st p st' : dag_wf st → apply_remove_node st p = Ok st' → dag_wf st'.
Proof.
  intros [Hn He Hends Hac]. unfold apply_remove_node.
  destruct (target_node_id p) as [id|]; [|done]; cbn.
  destruct (find_node _ _) eqn:Hf; [|done]. cbn.
  case_bool_decide as Hc; [|done]. cbn. intros [= <-].
  assert (Hids : ∀ x, x ∈ ids_of (filter (λ n, node_id n ≠ id) (dag_nodes st)) ↔
    x ∈ ids_of (dag_nodes st) ∧ x ≠ id).
  { intros x. unfold ids_of. rewrite !list_elem_of_fmap.
    setoid_rewrite list_elem_of_filter. naive_solver. }
  split; cbn; try done.
  - eapply sublist_NoDup; [exact Hn|]. apply fmap_sublist, sublist_filter.
  - intros x y Hxy. rewrite !Hids. destruct (Hends _ _ Hxy).
    apply list_elem_of_fmap in Hxy as (e & [= -> ->] & Hin).
    assert (Hno : ¬ (from_node e = id ∨ to_node e = id)).
    { intros Hor. assert (e ∈ filter (λ e, from_node e = id ∨ to_node e = id) (dag_edges st))
        as Hin' by by apply list_elem_of_filter.
      rewrite Hc in Hin'. by apply not_elem_of_nil in Hin'. }
    naive_solver.
Qed.

(** Replacing the edge list, after the cycle test. *)
Lemma new_edges_wf st p (edges : list DAGEdge) :
  dag_wf st → NoDup (edge_id <$> edges) →
  (∀ x y, (x, y) ∈ pairs_of edges →
    x ∈ ids_of (dag_nodes st) ∧ y ∈ ids_of (dag_nodes st)) →
  has_cycle (dag_nodes st) edges = Some false →
  dag_wf (next_state st p (dag_nodes st) edges).
Proof.
  intros [Hn _ _ _] He Hends Hc. split; cbn; try done.
  destruct (has_cycle_spec (dag_nodes st) edges) as (b & Hb & Hiff).
  assert (b = false) as -> by congruence. intros Hcyc.
  assert (false = true); [|done]. apply Hiff. eapply cyclic_mono; [|exact Hcyc].
  intros x y Hxy. destruct (Hends _ _ Hxy). split_and!; done.
Qed.

Lemma add_edge_wf st p st' :
  dag_wf st → apply_add_edge st p = Some (Ok st') → dag_wf st'.
Proof.
  intros Hwf. unfold apply_add_edge.
  destruct (get_str _ "edge_id") as [id|]; [|done]; cbn.
  destruct (get_str _ "from_node") as [from|]; [|done]; cbn.
  destruct (get_str _ "to_node") as [to|]; [|done]; cbn.
  destruct (find_node _ from) eqn:Hfrom; [|done]. cbn.
  destruct (find_node _ to) eqn:Hto; [|done]. cbn.
  destruct (find_edge _ _) eqn:Hfe; [done|]. cbn.
  case_match eqn:Hc; [|done]. case_match; [done|]. intros [= <-]. subst.
  apply new_edges_wf; [done|..|done].
  - rewrite fmap_app. apply find_edge_None in Hfe. apply NoDup_app.
    split_and!; [apply Hwf| |apply NoDup_singleton]. set_solver.
  - intros x y. unfold pairs_of. rewrite fmap_app, elem_of_app. intros [Hxy|Hxy].
    + by apply (wf_ends _ Hwf).
    + apply list_elem_of_singleton in Hxy as [= -> ->].
      rewrite <-!find_node_is_Some, Hfrom, Hto. eauto.
Qed.

Lemma remove_edge_wf st p st' : dag_wf st → apply_remove_edge st p = Ok st' → dag_wf st'.
Proof.
  intros [Hn He Hends Hac]. unfold apply_remove_edge.
  destruct (target_edge_id p) as [id|]; [|done]; cbn.
  destruct (find_edge _ _) eqn:Hf; [|done]. cbn. intros [= <-].
  assert (Hsub : ∀ x y, (x, y) ∈ pairs_of (filter (λ e, edge_id e ≠ id) (dag_edges st)) →
    (x, y) ∈ pairs_of (dag_edges st)).
  { intros x y. unfold pairs_of. rewrite !list_elem_of_fmap.
    setoid_rewrite list_elem_of_filter. naive_solver. }
  split; cbn; [done|..].
  - eapply sublist_NoDup; [exact He|]. apply fmap_sublist, sublist_filter.
  - eauto.
  - intros Hc. apply Hac. eapply cyclic_mono; [|exact Hc]. exact Hsub.
Qed.

Lemma rewire_edge_wf st p st' :
  dag_wf st → apply_rewire_edge st p = Some (Ok st') → dag_wf st'.
Proof.
  intros Hwf. unfold apply_rewire_edge.
  destruct (target_edge_id p) as [id|]; [|done]; cbn.
  destruct (find_edge _ _) as [edge|] eqn:Hfe; [|done]. cbn.
  destruct (find_node _ (get_str_or _ "from_node" _)) eqn:Hfrom; [|done]. cbn.
  destruct (find_node _ (get_str_or _ "to_node" _)) eqn:Hto; [|done]. cbn.
  case_match eqn:Hc; [|done]. case_match; [done|]. intros [= <-]. subst.
  apply new_edges_wf; [done|..|done].
  - rewrite fmap_app. apply NoDup_app. split_and!; [|..|apply NoDup_singleton].
    + eapply sublist_NoDup; [exact (wf_edges _ Hwf)|]. apply fmap_sublist, sublist_filter.
    + intros x (e & -> & [Hne _]%list_elem_of_filter)%list_elem_of_fmap.
      by intros ?%list_elem_of_singleton.
  - intros x y. unfold pairs_of. rewrite fmap_app, elem_of_app. intros [Hxy|Hxy].
    + apply (wf_ends _ Hwf). unfold pairs_of. apply list_elem_of_fmap in Hxy as (e & -> & Hin).
      apply list_elem_of_fmap. exists e. split; [done|]. by apply list_elem_of_filter in Hin as [_ ?].
    + apply list_elem_of_singleton in Hxy as [= -> ->].
      rewrite <-!find_node_is_Some, Hfrom, Hto. eauto.
Qed.

Lemma update_node_wf st p st' : dag_wf st → apply_update_node st p = Ok st' → dag_wf st'.
Proof.
  intros [Hn He Hends Hac]. unfold apply_update_node.
  destruct (target_node_id p) as [id|]; [|done]; cbn.
  destruct (find_node _ _) as [node|] eqn:Hf; [|done]. cbn. intros [= <-].
  apply find_node_Some in Hf as [_ Hid].
  set (nodes' := _ <$> dag_nodes st).
  assert (Hids : ids_of nodes' = ids_of (dag_nodes st)).
  { unfold ids_of, nodes'. rewrite <-list_fmap_compose. apply list_fmap_ext.
    intros i n _. simpl. by case_bool_decide; subst. }
  split; cbn [dag_nodes dag_edges next_state]; rewrite ?Hids; done.
Qed.

(** ** Applying a mutation *)

Lemma apply_fn_total kind f st p :
  apply_fn kind = Some f → ∃ r, f st p = Some r.
Proof.
  unfold apply_fn. intros Hf.
  repeat match type of Hf with (if ?b then _ else _) = _ => destruct b end; simplify_eq;
    eauto; unfold apply_add_edge, apply_rewire_edge;
    match goal with |- context [match ?r with Ok _ => _ | Err _ => _ end] =>
      destruct r as [x|]; [|eauto] end;
    [|destruct x as [[id e] x]];
    match goal with |- context [has_cycle ?n ?e] =>
      destruct (has_cycle_spec n e) as ([] & -> & _) end; eauto.
Qed.

Lemma apply_fn_wf kind f st p st' :
  apply_fn kind = Some f → f st p = Some (Ok st') → dag_wf st → dag_wf st'.
Proof.
  unfold apply_fn. intros Hf H Hwf.
  repeat match type of Hf with (if ?b then _ else _) = _ => destruct b end; simplify_eq;
    eauto using add_node_wf, remove_node_wf, add_edge_wf, remove_edge_wf, rewire_edge_wf,
      update_node_wf.
Qed.

(** The version a successful mutation produces. *)
Lemma apply_fn_version kind f st p st' :
  apply_fn kind = Some f → f st p = Some (Ok st') →
  version st' = i64_add (version st) 1 ∧ state_dag_id st' = state_dag_id st.
Proof.
  unfold apply_fn. intros Hf H.
  repeat match type of Hf with (if ?b then _ else _) = _ => destruct b end; simplify_eq;
    unfold apply_add_node, apply_remove_node, apply_add_edge, apply_remove_edge,
      apply_rewire_edge, apply_update_node in H;
    repeat (case_match; simplify_eq/=; try done).
Qed.

Lemma apply_mutation_inv m p r m' :
  apply_mutation m p = Some (r, m') →
  (m' = m ∧ applied r = false ∧ ∃ e, errors r = [e]
     ∧ r = rejected m p e) ∨
  ∃ f st', apply_fn (mutation_type p) = Some f ∧ f (state m) p = Some (Ok st')
    ∧ requires_approval p (state m) = false
    ∧ proposal_dag_id p = manager_dag_id m
    ∧ m' = mkDAGManager (manager_dag_id m) st' ((state m, p) :: history m)
    ∧ r = mkDAGMutationResult (proposal_id p) true (version st') false [].
Proof.
  unfold apply_mutation. case_bool_decide as Hid; cbn [negb]; [|intros [= <- <-]; left; eauto 10].
  destruct (apply_fn _) as [f|] eqn:Hf; [|intros [= <- <-]; left; eauto 10].
  destruct (requires_approval _ _) eqn:Ha; [intros [= <- <-]; left; eauto 10|].
  destruct (f _ _) as [[st'|e]|] eqn:Hr; intros [= <- <-]; [right|left]; eauto 10.
Qed.

Lemma apply_mutation_total m p : is_Some (apply_mutation m p).
Proof.
  unfold apply_mutation. case_match; [eauto|]. destruct (apply_fn _) as [f|] eqn:Hf; [|eauto].
  case_match; [eauto|]. destruct (apply_fn_total _ _ (state m) p Hf) as [[] ->]; eauto.
Qed.

(** ** Reachable managers *)

Inductive manager_step m : DAGManager (V := V) → Prop :=
  | step_mutate p r m' : apply_mutation m p = Some (r, m') → manager_step m m'
  | step_rollback v : manager_step m (rollback v m).

Definition manager_reach m : Prop :=
  ∃ dag_id timestamp, rtc manager_step (manager_new dag_id timestamp) m.

(** A state and its history, the version counting the history. *)
Fixpoint history_ok st (hist : list (DAGState (V := V) * DAGMutationProposal (V := V))) : Prop :=
  dag_wf st
  ∧ match hist with
    | [] => version st = 0
    | (prev, p) :: rest => version st = i64_add (version prev) 1 ∧ history_ok prev rest
    end.

Lemma history_ok_wf st hist : history_ok st hist → dag_wf st.
Proof. by destruct hist; intros []. Qed.

Lemma history_ok_version st hist :
  history_ok st hist → Z.of_nat (length hist) <= 9223372036854775807 →
  version st = Z.of_nat (length hist).
Proof.
  revert st. induction hist as [|[prev p] rest IH]; intros st [_ H] Hlen; [done|].
  destruct H as [-> Hrest]. simpl length in *. rewrite (IH prev Hrest) by lia.
  rewrite i64_add_small; [lia|]. int_lia.
Qed.

Lemma rollback_loop_ok v st hist st' hist' :
  history_ok st hist → rollback_loop v st hist = (st', hist') → history_ok st' hist'.
Proof.
  revert st. induction hist as [|[prev p] rest IH]; intros st Hh; simpl.
  - case_match; intros [= <- <-]; done.
  - case_match; [|by intros [= <- <-]]. apply IH. by destruct Hh as [_ [_ ?]].
Qed.

Lemma empty_wf dag_id ts : dag_wf (state (manager_new dag_id ts)).
Proof.
  split; cbn; [apply NoDup_nil_2|apply NoDup_nil_2|by intros ?? ?%not_elem_of_nil|].
  intros [x Hx]. apply tc_inv in Hx as [?%not_elem_of_nil|(?&?%not_elem_of_nil&_)]; done.
Qed.

Lemma manager_step_ok m m' :
  manager_step m m' → history_ok (state m) (history m) → history_ok (state m') (history m').
Proof.
  destruct 1 as [p r m' H|v]; intros Hh.
  - apply apply_mutation_inv in H as [(-> & _)|(f & st' & Hf & H & _ & _ & -> & _)]; [done|].
    cbn. split; [eapply apply_fn_wf; [done|done|by eapply history_ok_wf]|].
    split; [|done]. by eapply apply_fn_version.
  - unfold rollback. destruct (rollback_loop _ _ _) as [st' hist'] eqn:E. cbn.
    by eapply rollback_loop_ok.
Qed.

Lemma manager_reach_ok m : manager_reach m → history_ok (state m) (history m).
Proof.
  intros (dag_id & ts & Hs). remember (manager_new dag_id ts) as m0 eqn:E0.
  assert (H0 : history_ok (state m0) (history m0)).
  { subst. split; [apply empty_wf|done]. }
  clear E0. induction Hs; eauto using manager_step_ok.
Qed.

Lemma manager_reach_wf m : manager_reach m → dag_wf (state m).
Proof. intros H. eapply history_ok_wf. by apply manager_reach_ok. Qed.
End props.
