(* ===== verification/DagQueries.v ===== *)
(** * Queries of the DAG manager

    Lemmas on the topological order and the path search of dag_manager. *)

From S2P Require Import Prelude Json Graph DagManager DagCycle DagProps.
From stdpp Require Import relations.

(** ** Paths *)

(** [walk adj x t l]: [l] lists the nodes of a path from [x] to [t]. *)
Inductive walk (adj : adjacency) : string → string → list string → Prop :=
  | walk_end t : walk adj t t [t]
  | walk_step x y t l : y ∈ nbrs adj x → walk adj y t l → walk adj x t (x :: l).

Section dfs.
Context (adj : adjacency) (target : string).

(** The outcome of a search that starts with [visited] and [path]: a walk from
    [x] added to the path, or a closed set of visited nodes. *)
Definition dfs_outcome (x : string) (visited : gset string) (path : list string)
    (r : bool * gset string * list string) : Prop :=
  let '(b, visited', path') := r in
  visited ⊆ visited' ∧
  if b then ∃ seg, path' = seg ++ path ∧ walk adj x target (rev seg)
  else path' = path
    ∧ ∀ z, z ∈ visited' → z ∉ visited →
        z ≠ target ∧ ∀ y, y ∈ nbrs adj z → y ∈ visited'.

Lemma path_scan_spec dfs x l vis path :
  (∀ n vis' path', vis ⊆ vis' → n ∉ vis' → ∃ r, dfs n vis' path' = Some r
    ∧ dfs_outcome n vis' path' r ∧ (r.1.1 = false → n ∈ r.1.2)) →
  (∀ y, y ∈ l → y ∈ nbrs adj x) →
  ∃ r, path_scan dfs x l vis path = Some r ∧ dfs_outcome x vis path r
    ∧ (r.1.1 = false → ∀ y, y ∈ l → y ∈ r.1.2).
Proof.
  revert vis. induction l as [|n l IHl]; intros vis IH Hl; cbn [path_scan].
  - eexists. split; [done|]. split; [|set_solver]. split; [done|]. split; [done|].
    by intros z ? ?.
  - case_bool_decide as Hn.
    + destruct (IHl vis) as ([[b v'] p'] & -> & Ho & Hc); [done|set_solver|].
      eexists. split; [done|]. split; [done|]. destruct Ho as [Hs _].
      simpl in *. set_solver.
    + destruct (IH n vis (x :: path)) as ([[b v'] p'] & -> & [Hs Ho] & Hc); [done..|].
      destruct b.
      * eexists. split; [done|]. split; [|done]. split; [done|].
        destruct Ho as (seg & -> & Hw). exists (seg ++ [x]).
        rewrite <-(assoc_L (++)), rev_app_distr. split; [done|]. simpl.
        econstructor; [|done]. apply Hl. left.
      * destruct Ho as [-> Ho]. cbn [tail].
        destruct (IHl v') as ([[b2 v2] p2] & -> & [Hs2 Ho2] & Hc2);
          [intros; apply IH; set_solver|set_solver|].
        eexists. split; [done|]. split.
        -- split; [set_solver|]. destruct b2; [done|]. destruct Ho2 as [-> Ho2].
           split; [done|]. intros z Hz Hnz. destruct (decide (z ∈ v')) as [Hz'|Hz'].
           ++ destruct (Ho z Hz' Hnz) as [? Hcl]. split; [done|]. set_solver.
           ++ by apply Ho2.
        -- simpl in *. intros Hb y [->|Hy]%elem_of_cons; [|by apply Hc2].
           apply Hs2. by apply Hc.
Qed.

Lemma path_dfs_spec fuel x visited path :
  x ∉ visited → (size (dom adj ∖ visited : gset string) < fuel)%nat →
  ∃ r, path_dfs fuel adj target x visited path = Some r
    ∧ dfs_outcome x visited path r
    ∧ (r.1.1 = false → x ∈ r.1.2).
Proof.
  revert x visited path. induction fuel as [|fuel IH]; intros x visited path Hx Hf; [lia|].
  cbn [path_dfs]. case_bool_decide as Ht.
  { subst x. eexists. split; [done|]. split; [|done]. split; [done|].
    exists [target]. split; [done|]. constructor. }
  destruct (adj !! x) as [ns|] eqn:Hadj.
  2: { eexists. split; [done|]. split; [|set_solver]. split; [set_solver|]. split; [done|].
       intros z Hz Hnz. assert (z = x) as -> by set_solver. split; [done|].
       unfold nbrs. rewrite Hadj. set_solver. }
  assert (Hns : ∀ y, y ∈ sort_strings ns ↔ y ∈ nbrs adj x).
  { intros y. unfold sort_strings, nbrs. by rewrite elem_of_sort_by, Hadj. }
  destruct (path_scan_spec (path_dfs fuel adj target) x (sort_strings ns)
    ({[x]} ∪ visited) path) as ([[b v'] p'] & Hr & [Hs Ho] & Hc).
  - intros n vis' path' Hvis Hn. apply IH; [done|].
    assert (x ∈ (dom adj : gset string)) by by apply elem_of_dom_2 in Hadj.
    assert (Hlt : (size (dom adj ∖ vis' : gset string) < size (dom adj ∖ visited : gset string))%nat)
      by (apply subset_size; set_solver). lia.
  - apply Hns.
  - eexists. split; [exact Hr|]. simpl in *. split; [|set_solver]. split; [set_solver|].
    destruct b; [done|]. destruct Ho as [-> Ho]. split; [done|]. intros z Hz Hnz.
    destruct (decide (z = x)) as [->|Hne]; [|apply Ho; set_solver].
    split; [done|]. intros y Hy. apply Hc; [done|]. by apply Hns.
Qed.
End dfs.

Lemma walk_closed adj x t l (S : gset string) :
  walk adj x t l → x ∈ S → (∀ z y, z ∈ S → y ∈ nbrs adj z → y ∈ S) → t ∈ S.
Proof. induction 1; eauto. Qed.

Lemma path_dfs_complete adj from target :
  ∃ b vis path, path_dfs (S (size adj)) adj target from ∅ [] = Some (b, vis, path)
    ∧ if b then walk adj from target (rev path)
      else ∀ l, ¬ walk adj from target l.
Proof.
  destruct (path_dfs_spec adj target (S (size adj)) from ∅ [])
    as ([[b vis] path] & H & [_ Ho] & Hc); [set_solver|..].
  { rewrite difference_empty_L, size_dom. lia. }
  exists b, vis, path. split; [done|]. destruct b.
  - destruct Ho as (seg & -> & Hw). by rewrite app_nil_r.
  - destruct Ho as [_ Ho]. intros l Hw. simpl in Hc.
    assert (target ∈ vis) as Hin.
    { eapply walk_closed; [exact Hw|by apply Hc|]. intros z y Hz Hy.
      destruct (Ho z Hz) as [_ Hcl]; [set_solver|]. by apply Hcl. }
    destruct (Ho target Hin) as [? _]; [set_solver|done].
Qed.

(** ** Topological order *)

Section topological.
Context (ids : list string) (edges : list (string * string)).
Hypothesis Hends : ∀ x y, (x, y) ∈ edges → x ∈ ids ∧ y ∈ ids.

Lemma kahn_nodes_ids : kahn_nodes ids edges = list_to_set ids.
Proof using Hends.
  unfold kahn_nodes. apply set_eq. intros y.
  rewrite elem_of_union, !elem_of_list_to_set. split; [|by left].
  intros [?|([a b] & -> & ?)%list_elem_of_fmap]; [done|]. by eapply Hends.
Qed.

Lemma topological_loop_spec fuel q deg res :
  kahn_inv edges (kahn_nodes ids edges) deg res q →
  (size (kahn_nodes ids edges) ≤ fuel + length res)%nat →
  ∃ res' deg', topological_loop fuel (adjacency_of ids edges) q deg res = Some res'
    ∧ kahn_inv edges (kahn_nodes ids edges) deg' res' [].
Proof using Hends.
  revert q deg res. induction fuel as [|fuel IH]; intros [|x q] deg res Hk Hf;
    cbn [topological_loop]; [eauto| |eauto|].
  - apply kahn_inv_length in Hk. simpl in Hk. lia.
  - assert (x ∈ ids) as Hx.
    { rewrite <-(elem_of_list_to_set (C := gset string)), <-kahn_nodes_ids.
      apply (kh_ready _ _ _ _ _ Hk). apply elem_of_app. right. left. }
    rewrite lookup_adjacency_of, bool_decide_true by done.
    destruct (relax _ deg) as [deg' out] eqn:Hr.
    apply IH; [|rewrite length_app; simpl; lia].
    eapply kahn_inv_step; [exact Hk| |exact Hr]. unfold sort_strings. by rewrite sort_by_perm.
Qed.

Lemma in_degrees_size : size (in_degrees ids edges) = size (kahn_nodes ids edges).
Proof using Type.
  rewrite <-(size_dom (D := gset string)). f_equal. apply set_eq. intros y.
  rewrite elem_of_dom, lookup_in_degrees.
  case_bool_decide; split; [done|eauto|by intros [??]|done].
Qed.

Lemma topological_loop_complete :
  ∃ res deg', topological_loop (size (in_degrees ids edges)) (adjacency_of ids edges)
      (zero_degree (in_degrees ids edges)) (in_degrees ids edges) [] = Some res
    ∧ kahn_inv edges (kahn_nodes ids edges) deg' res [].
Proof using Hends.
  apply topological_loop_spec; [|rewrite in_degrees_size; simpl; lia].
  apply kahn_inv_init. unfold zero_degree, sort_strings. apply sort_by_perm.
Qed.
End topological.

(** The order a topological sort promises. *)
Definition topologically_sorted (edges : list (string * string)) (l : list string) : Prop :=
  ∀ x y, (x, y) ∈ edges → ∃ l1 l2 l3, l = l1 ++ x :: l2 ++ y :: l3.

Lemma kahn_sorted edges (V : gset string) res :
  (∀ y, y ∈ res ↔ y ∈ V) → (∀ x y, (x, y) ∈ edges → x ∈ V ∧ y ∈ V) →
  (∀ pre y post, res = pre ++ y :: post → ∀ x, (x, y) ∈ edges → x ∈ pre) →
  topologically_sorted edges res.
Proof.
  intros Hmem Hends Hord x y Hxy. destruct (Hends _ _ Hxy) as [_ Hy].
  apply Hmem, list_elem_of_split in Hy as (pre & post & ->).
  pose proof (Hord _ _ _ eq_refl x Hxy) as Hx.
  apply list_elem_of_split in Hx as (l1 & l2 & ->). exists l1, l2, post.
  by rewrite <-(assoc_L (++)).
Qed.

(** A well-formed graph has a topological order. *)
Lemma topological_order_wf {V : Type} `{JV : JsonValue V} (m : DAGManager (V := V)) :
  dag_wf (state m) →
  ∃ order, topological_order m = Some order
    ∧ order ≡ₚ ids_of (dag_nodes (state m))
    ∧ topologically_sorted (pairs_of (dag_edges (state m))) order.
Proof.
  intros [Hn _ Hends Hac].
  destruct (topological_loop_complete _ _ Hends) as (order & deg & Ho & Hk).
  exists order. split; [exact Ho|]. rewrite (kahn_nodes_ids _ _ Hends) in Hk.
  destruct (kahn_inv_done _ _ _ _ Hk) as (Hnd & Hmem & Hord); [|exact Hac|].
  { intros x y Hxy. rewrite !elem_of_list_to_set. by apply Hends. }
  split.
  - apply NoDup_Permutation; [done|done|]. intros x. by rewrite Hmem, elem_of_list_to_set.
  - eapply kahn_sorted; [exact Hmem| |done].
    intros x y Hxy. rewrite !elem_of_list_to_set. by apply Hends.
Qed.

(** Positions in that order grow along every edge. *)
Lemma dag_rank {V : Type} `{JV : JsonValue V} (m : DAGManager (V := V)) :
  dag_wf (state m) →
  ∃ rank : string → nat, ∀ x y, (x, y) ∈ pairs_of (dag_edges (state m)) → (rank x < rank y)%nat.
Proof.
  intros Hwf. destruct (topological_order_wf m Hwf) as (order & _ & Hp & Hs).
  assert (Hnd : NoDup order) by (rewrite Hp; apply Hwf).
  exists (λ x, default O (fst <$> list_find (x =.) order)). intros x y Hxy.
  destruct (Hs x y Hxy) as (l1 & l2 & l3 & ->).
  assert (Hfind : ∀ (z : string) (l l' : list string), NoDup (l ++ z :: l') → list_find (z =.) (l ++ z :: l') = Some (length l, z)).
  { clear. intros z l l' Hnd. apply list_find_Some. split_and!; [|done|].
    - by rewrite lookup_app_r, Nat.sub_diag by lia.
    - intros j w Hj Hlt <-. rewrite lookup_app_l in Hj by done.
      apply list_elem_of_lookup_2 in Hj. apply NoDup_app in Hnd as (_ & H & _).
      eapply H; [done|]. left. }
  rewrite (Hfind x l1 _ Hnd). rewrite app_comm_cons, app_assoc in Hnd |- *.
  rewrite (Hfind y _ _ Hnd). cbn. rewrite length_app. cbn. lia.
Qed.
