(* ===== verification/DagTheorems.v ===== *)
(** * Correctness of the DAG manager

    The theorems about dag_manager and their runs on concrete graphs. *)

From S2P Require Import Prelude Json Graph DagManager DagCycle DagProps DagQueries.
From stdpp Require Import relations.

Local Open Scope Z_scope.

(** ** A concrete graph *)

Module DagDemo.
#[local] Existing Instance JsonDemo.json_value.
Import JsonDemo.

Definition proposal (id kind : string) (node edge : option string)
    (payload : list (string * json)) : DAGMutationProposal :=
  mkDAGMutationProposal id "dag" kind node edge (list_to_map payload) "" false "pending".

Definition proposals : list DAGMutationProposal :=
  [proposal "p1" "add_node" None None [("node_id", JStr "a")];
   proposal "p2" "add_node" None None [("node_id", JStr "b")];
   proposal "p3" "add_edge" None None
     [("edge_id", JStr "e"); ("from_node", JStr "b"); ("to_node", JStr "a")]].

Definition apply_all (m : DAGManager) (ps : list DAGMutationProposal) : DAGManager :=
  foldl (λ m p, match apply_mutation m p with Some (_, m) => m | None => m end) m ps.

Definition manager : DAGManager := apply_all (manager_new "dag" "t0") proposals.
End DagDemo.
#[local] Existing Instance JsonDemo.json_value.

Lemma apply_all_mutates m ps :
  rtc (λ a b, ∃ p r, apply_mutation a p = Some (r, b)) m (DagDemo.apply_all m ps).
Proof.
  revert m. induction ps as [|p ps IH]; intros m; [constructor|]. simpl.
  destruct (apply_mutation_total m p) as [[r m'] H]. rewrite H.
  eapply rtc_l; [by eauto|apply IH].
Qed.

Lemma dag_demo_reach : manager_reach DagDemo.manager.
Proof.
  exists "dag", "t0". eapply rtc_subrel; [|apply apply_all_mutates].
  intros a b (p & r & H). by eapply step_mutate.
Qed.

(** ** Cycle detection *)

(** the cycle test of the DAG manager always ends and answers exactly
    whether some node reaches itself along edges between existing nodes. *)
Theorem dag_has_cycle_exact {V : Type} (nodes : list (DAGNode (V := V)))
    (edges : list DAGEdge) :
  ∃ b, has_cycle nodes edges = Some b ∧ (b = true ↔ cyclic (dag_edge nodes edges)).
Proof. apply has_cycle_spec. Qed.

(** ** Graphs under mutation *)

Lemma validate_wf {V} (m : DAGManager (V := V)) :
  dag_wf (state m) → validate_dag m = Some [].
Proof.
  intros [_ _ Hends Hac]. destruct (validate_dag_spec m) as (errors & -> & Hv).
  f_equal. by apply Hv.
Qed.

(** C19: every graph reached by mutations and rollbacks, in any order and with
    any payloads, has distinct node ids, distinct edge ids, edges between
    existing nodes and no cycle, so validation reports no error. *)
Theorem dag_always_valid {V : Type} `{JV : JsonValue V} (m : DAGManager (V := V)) :
  manager_reach m → dag_wf (state m) ∧ validate_dag m = Some [].
Proof. intros Hm. apply manager_reach_wf in Hm. auto using validate_wf. Qed.

Lemma dag_always_valid_witness :
  dag_wf (state DagDemo.manager) ∧ validate_dag DagDemo.manager = Some [].
Proof. exact (dag_always_valid DagDemo.manager dag_demo_reach). Defined.

(** a mutation always returns; when it is not applied the manager is
    unchanged, the result carries the current version and one error; when it is
    applied the version is the next one, the result carries it and no error, and
    the previous state is on top of the history. *)
Theorem mutation_atomic {V : Type} `{JV : JsonValue V} (m : DAGManager (V := V))
    (p : DAGMutationProposal (V := V)) :
  ∃ r m', apply_mutation m p = Some (r, m')
    ∧ result_proposal_id r = proposal_id p
    ∧ new_dag_version r = version (state m')
    ∧ (if applied r
       then version (state m') = i64_add (version (state m)) 1 ∧ errors r = []
            ∧ history m' = (state m, p) :: history m
       else m' = m ∧ length (errors r) = 1%nat).
Proof.
  destruct (apply_mutation_total m p) as [[r m'] H]. exists r, m'. split; [done|].
  apply apply_mutation_inv in H as
    [(-> & Ha & e & He & ->)|(f & st' & Hf & Hst & _ & _ & -> & ->)]; cbn; [done|].
  split_and!; try done. by eapply apply_fn_version.
Qed.

Lemma mutate_rollback {V} `{JV : JsonValue V} (m m' : DAGManager (V := V)) :
  rtc (λ a b, ∃ p r, apply_mutation a p = Some (r, b)) m m' →
  history_ok (state m) (history m) →
  Z.of_nat (length (history m')) <= 9223372036854775807 →
  history_ok (state m') (history m') ∧ manager_dag_id m' = manager_dag_id m
  ∧ (length (history m) <= length (history m'))%nat
  ∧ rollback_loop (version (state m)) (state m') (history m') = (state m, history m).
Proof.
  intros Hs Hh. revert m' Hs. refine (rtc_ind_r _ m _ _);
    [intros Hlen|intros m1 m2 _ (p & r & H) IH Hlen].
  - split_and!; try done. unfold rollback_loop. destruct (history m); by rewrite Z.ltb_irrefl.
  - apply apply_mutation_inv in H as
      [(-> & _)|(f & st' & Hf & Hst & _ & _ & -> & _)]; [by apply IH|]. cbn in *.
    destruct IH as (Hh1 & Hid & Hle & Hroll); [lia|].
    pose proof (apply_fn_version _ _ _ _ _ Hf Hst) as [Hv _].
    pose proof (history_ok_version _ _ Hh1) as Hv1.
    pose proof (history_ok_version _ _ Hh) as Hv0.
    rewrite Hv1, Hv0 in * by lia. rewrite i64_add_small in Hv by int_lia.
    split_and!; [| |done|done|lia|].
    + eapply apply_fn_wf; [done..|by eapply history_ok_wf].
    + rewrite Hv. by rewrite i64_add_small by int_lia.
    + rewrite Hv. destruct (Z.ltb_spec (Z.of_nat (length (history m)))
        (Z.of_nat (length (history m1)) + 1)); [done|lia].
Qed.

(** rollback is exact: from any reachable manager, after any sequence of
    mutations (applied or not), rolling back to the version it had restores the
    manager itself, its graph and its history, as long as the version counter
    has not run past the 64-bit range. *)
Theorem rollback_restores {V : Type} `{JV : JsonValue V} (m m' : DAGManager (V := V)) :
  manager_reach m →
  rtc (λ a b, ∃ p r, apply_mutation a p = Some (r, b)) m m' →
  Z.of_nat (length (history m')) <= 9223372036854775807 →
  rollback (version (state m)) m' = m.
Proof.
  intros Hm Hs Hlen.
  destruct (mutate_rollback _ _ Hs (manager_reach_ok _ Hm) Hlen) as (_ & Hid & _ & Hroll).
  unfold rollback. rewrite Hroll, Hid. by destruct m.
Qed.

Lemma rollback_restores_witness :
  rollback 0 DagDemo.manager = manager_new "dag" "t0".
Proof.
  apply (rollback_restores (manager_new "dag" "t0") DagDemo.manager).
  - exists "dag", "t0". constructor.
  - apply apply_all_mutates.
  - vm_compute. discriminate.
Defined.

(** on a reachable graph the topological order always exists, lists every
    node exactly once, and puts the source of every edge before its target. *)
Theorem topological_order_correct {V : Type} `{JV : JsonValue V}
    (m : DAGManager (V := V)) :
  manager_reach m →
  ∃ order, topological_order m = Some order
    ∧ order ≡ₚ ids_of (dag_nodes (state m))
    ∧ topologically_sorted (pairs_of (dag_edges (state m))) order.
Proof. intros Hm. by apply topological_order_wf, manager_reach_wf. Qed.

Lemma topological_order_correct_witness : ∃ order,
  topological_order DagDemo.manager = Some order ∧
  topologically_sorted [("b", "a")] order.
Proof.
  destruct (topological_order_correct DagDemo.manager dag_demo_reach)
    as (order & H & _ & Hs).
  exists order. split; [exact H|exact Hs].
Defined.

(** the ready nodes are exactly the pending nodes that are not completed
    and whose predecessors all are, listed by node id. *)
Theorem nodes_ready_exact {V : Type} (m : DAGManager (V := V)) (completed : gset string) :
  (∀ n, n ∈ nodes_ready m completed ↔
     n ∈ dag_nodes (state m) ∧ node_status n = "pending" ∧ (node_id n ∉ completed)
     ∧ ∀ x, (x, node_id n) ∈ pairs_of (dag_edges (state m)) → x ∈ completed)
  ∧ StronglySorted (λ a b, String.leb (node_id a) (node_id b) = true) (nodes_ready m completed).
Proof.
  unfold nodes_ready. split.
  - intros n. rewrite elem_of_sort_by, list_elem_of_filter, Forall_forall.
    assert (Hpred : (∀ e, e ∈ filter (λ e, to_node e = node_id n) (dag_edges (state m)) →
      from_node e ∈ completed) ↔
      ∀ x, (x, node_id n) ∈ pairs_of (dag_edges (state m)) → x ∈ completed).
    { unfold pairs_of. setoid_rewrite list_elem_of_filter. setoid_rewrite list_elem_of_fmap.
      split.
      - intros H x (e & [= -> Hto] & He). by apply H.
      - intros H e [Hto He]. apply H. exists e. by rewrite Hto. }
    rewrite Hpred. destruct (decide (node_status n = "pending")); naive_solver.
  - apply sort_by_sorted; intros; [apply str_leb_total|by eapply str_leb_trans].
Qed.

(** the path query always ends; it returns a path along edges from the
    first node to the second when there is one, and none when there is none. *)
Theorem path_between_correct {V : Type} (m : DAGManager (V := V)) (from to : string) :
  let adj := adjacency_of (ids_of (dag_nodes (state m))) (pairs_of (dag_edges (state m))) in
  ∃ r, path_between m from to = Some r
    ∧ match r with
      | Some path => walk adj from to path
      | None => ∀ path, ¬ walk adj from to path
      end.
Proof.
  intros adj. unfold path_between. fold adj.
  destruct (path_dfs_complete adj from to) as (b & vis & path & -> & H).
  destruct b; eauto.
Qed.

(** ** Approval and compensation *)

(** a mutation that requires approval is never applied, whatever status
    its proposal carries. *)
Theorem approval_never_granted {V : Type} `{JV : JsonValue V} (m : DAGManager (V := V))
    (p : DAGMutationProposal (V := V)) :
  requires_approval p (state m) = true →
  ∃ r, apply_mutation m p = Some (r, m) ∧ applied r = false.
Proof.
  intros Ha. destruct (apply_mutation_total m p) as [[r m'] H]. exists r.
  pose proof H as [(-> & ? & _)|(f & st' & _ & _ & Hn & _)]%apply_mutation_inv; [done|congruence].
Qed.

Lemma approval_never_granted_witness : ∃ r,
  apply_mutation DagDemo.manager (mkDAGMutationProposal "q" "dag" "add_node" None None
    (list_to_map [("node_id", JsonDemo.JStr "c")]) "" true "approved")
  = Some (r, DagDemo.manager) ∧ applied r = false.
Proof. apply (approval_never_granted DagDemo.manager). reflexivity. Defined.

(** The mutation a result was applied through. *)
Lemma applied_inv {V} `{JV : JsonValue V} (m m' : DAGManager (V := V)) p r :
  apply_mutation m p = Some (r, m') → applied r = true →
  ∃ f, apply_fn (mutation_type p) = Some f ∧ f (state m) p = Some (Ok (state m'))
    ∧ manager_dag_id m' = manager_dag_id m ∧ proposal_dag_id p = manager_dag_id m.
Proof.
  intros [(-> & Ha & _)|(f & st' & Hf & Hst & _ & Hid & -> & _)]%apply_mutation_inv Ha';
    [congruence|]. eauto 10.
Qed.

(** What a successful [add_node] leaves. *)
Lemma add_node_inv {V} `{JV : JsonValue V} (st st' : DAGState (V := V)) p id :
  get_str (payload p) "node_id" = Some id → apply_add_node st p = Ok st' →
  (id ∉ ids_of (dag_nodes st)) ∧ dag_edges st' = dag_edges st
  ∧ ∃ n, dag_nodes st' = dag_nodes st ++ [n] ∧ node_id n = id
       ∧ node_status n = get_str_or (payload p) "status" "pending".
Proof.
  intros Hp. unfold apply_add_node. rewrite Hp. cbn.
  destruct (find_node _ _) eqn:Hf; [done|]. cbn. intros [= <-].
  apply find_node_None in Hf. split_and!; [done|done|]. by eexists.
Qed.

Lemma find_node_snoc {V} (nodes : list (DAGNode (V := V))) n :
  node_id n ∉ ids_of nodes → find_node (nodes ++ [n]) (node_id n) = Some n.
Proof.
  unfold find_node, ids_of. induction nodes as [|a nodes IH]; simpl; intros Hn.
  - by rewrite bool_decide_true.
  - rewrite bool_decide_false by set_solver. apply IH. set_solver.
Qed.

(** compensation undoes an added node exactly when the proposal also named
    the node as its target: then the inverse mutation is applied and gives back
    the previous nodes and edges (the added node not being recorded as running
    or completed); without a target the inverse mutation is refused and the node
    stays. *)
Theorem compensate_add_node {V : Type} `{JV : JsonValue V} (m m1 : DAGManager (V := V))
    (p : DAGMutationProposal (V := V)) (r : DAGMutationResult) (id : string) :
  manager_reach m → mutation_type p = "add_node" →
  get_str (payload p) "node_id" = Some id →
  get_str_or (payload p) "status" "pending" ∉ ["running"; "completed"] →
  apply_mutation m p = Some (r, m1) → applied r = true →
  ∃ r2 m2, apply_mutation m1 (compensate p) = Some (r2, m2)
    ∧ (target_node_id p = Some id → applied r2 = true
         ∧ dag_nodes (state m2) = dag_nodes (state m)
         ∧ dag_edges (state m2) = dag_edges (state m))
    ∧ (target_node_id p = None → applied r2 = false ∧ m2 = m1).
Proof.
  intros [_ _ Hends _]%manager_reach_wf Hk Hp Hst H Ha.
  destruct (applied_inv _ _ _ _ H Ha) as (f & Hf & Hadd & Hmid & Hid). rewrite Hk in Hf.
  injection Hf as <-. injection Hadd as Hadd.
  apply (add_node_inv _ _ _ _ Hp) in Hadd as (Hfresh & He & n & Hn & <- & Hns).
  destruct (apply_mutation_total m1 (compensate p)) as [[r2 m2] H2].
  exists r2, m2. split; [exact H2|].
  assert (Hkc : mutation_type (compensate p) = "remove_node")
    by (unfold compensate; cbn; by rewrite Hk).
  assert (Hdc : proposal_dag_id (compensate p) = manager_dag_id m1) by (cbn; congruence).
  unfold apply_mutation, requires_approval in H2.
  rewrite (bool_decide_true _ Hdc), Hkc, (bool_decide_true ("remove_node" = _)),
    (bool_decide_false ("remove_node" = _)) in H2 by done.
  change (apply_fn "remove_node") with
    (Some (λ s p, Some (apply_remove_node (V := V) s p))) in H2.
  change (target_node_id (compensate p)) with (target_node_id p) in H2.
  split; intros Ht; unfold apply_remove_node in H2;
    change (target_node_id (compensate p)) with (target_node_id p) in H2;
    rewrite Ht in H2; cbn in H2; [|by injection H2 as <- <-].
  rewrite Hn, He, find_node_snoc in H2 by done. cbn in H2.
  assert (Hst1 : get_str_or (payload p) "status" "pending" ≠ "running") by set_solver.
  assert (Hst2 : get_str_or (payload p) "status" "pending" ≠ "completed") by set_solver.
  rewrite Hns, (bool_decide_false _ Hst1), (bool_decide_false _ Hst2) in H2. cbn in H2.
  rewrite (filter_none _ (dag_edges (state m))) in H2.
  2: { intros e Hin Hor. apply Hfresh. destruct (Hends (from_node e) (to_node e)) as [??];
        [by apply (list_elem_of_fmap_2 (λ e, (from_node e, to_node e)))|].
       by destruct Hor as [<-|<-]. }
  rewrite bool_decide_true in H2 by done. cbn in H2. injection H2 as <- <-. cbn.
  split_and!; [done| |done].
  rewrite filter_app, filter_all, filter_none; [apply app_nil_r| |].
  - intros x ->%list_elem_of_singleton Hne. by apply Hne.
  - intros x Hx E. apply Hfresh. rewrite <-E. by apply list_elem_of_fmap_2.
Qed.

Lemma compensate_add_node_witness : ∃ r2 m2,
  apply_mutation (DagDemo.apply_all (manager_new "dag" "t0")
      [DagDemo.proposal "p1" "add_node" (Some "a") None [("node_id", JsonDemo.JStr "a")]])
    (compensate (DagDemo.proposal "p1" "add_node" (Some "a") None
      [("node_id", JsonDemo.JStr "a")])) = Some (r2, m2)
  ∧ applied r2 = true ∧ dag_nodes (state m2) = [].
Proof.
  destruct (compensate_add_node (manager_new "dag" "t0")
    (DagDemo.apply_all (manager_new "dag" "t0")
      [DagDemo.proposal "p1" "add_node" (Some "a") None [("node_id", JsonDemo.JStr "a")]])
    (DagDemo.proposal "p1" "add_node" (Some "a") None [("node_id", JsonDemo.JStr "a")])
    (mkDAGMutationResult "p1" true 1 false []) "a") as (r2 & m2 & H & Hc & _).
  - exists "dag", "t0". constructor.
  - reflexivity.
  - vm_compute. reflexivity.
  - apply (bool_decide_unpack _). vm_compute. exact I.
  - vm_compute. reflexivity.
  - reflexivity.
  - exists r2, m2. split; [exact H|]. destruct (Hc eq_refl) as (? & ? & _). auto.
Defined.
