(* ===== verification/Orchestration.v ===== *)
(** * Workflow orchestration

    Model of engine/src/orchestration: workflow graphs, the dependency resolver,
    the work queue, the agent role registry, the task decomposer, conflict
    detection, the human approval gate, the budget manager, the result
    aggregator and the workflow engine that drives them. *)

From S2P Require Import Prelude Text Graph Float64.

Local Open Scope Z_scope.

(** ** Schemas *)

Record WorkflowNode : Type := mkWorkflowNode {
  wn_schema_version : string;
  wn_node_id : string;
  wn_workflow_id : string;
  wn_task_type : string;
  wn_assigned_agent_id : option string;
  wn_status : string;
  wn_input_refs : list string;
  wn_output_ref : option string;
  wn_budget : f64;
  wn_cost_incurred : f64;
  wn_error : option string;
  wn_created_at : string;
  wn_started_at : option string;
  wn_completed_at : option string;
}.
#[export] Instance eta_WorkflowNode : Eta WorkflowNode := λ n,
  mkWorkflowNode (wn_schema_version n) (wn_node_id n) (wn_workflow_id n)
    (wn_task_type n) (wn_assigned_agent_id n) (wn_status n) (wn_input_refs n)
    (wn_output_ref n) (wn_budget n) (wn_cost_incurred n) (wn_error n)
    (wn_created_at n) (wn_started_at n) (wn_completed_at n).

Record WorkflowEdge : Type := mkWorkflowEdge {
  we_schema_version : string;
  we_edge_id : string;
  we_from_node_id : string;
  we_to_node_id : string;
  we_edge_type : string;
}.

(** The entries of the aggregated result, a map serialised with serde_json. *)
Record NodeResult : Type := mkNodeResult {
  nr_task_type : string;
  nr_status : string;
  nr_output_ref : option string;
  nr_error : option string;
  nr_agent_id : option string;
}.

Record AggregateResult : Type := mkAggregateResult {
  ar_workflow_id : string;
  ar_dispatch_id : string;
  ar_total_nodes : Z;
  ar_completed_nodes : Z;
  ar_failed_nodes : Z;
  ar_total_cost : f64;
  ar_node_results : gmap string NodeResult;
}.

Record WorkflowGraph : Type := mkWorkflowGraph {
  wg_schema_version : string;
  wg_workflow_id : string;
  wg_dispatch_id : string;
  wg_nodes : list WorkflowNode;
  wg_edges : list WorkflowEdge;
  wg_status : string;
  wg_created_at : string;
  wg_updated_at : string;
  wg_started_at : option string;
  wg_completed_at : option string;
  wg_result : option AggregateResult;
}.
#[export] Instance eta_WorkflowGraph : Eta WorkflowGraph := λ g,
  mkWorkflowGraph (wg_schema_version g) (wg_workflow_id g) (wg_dispatch_id g)
    (wg_nodes g) (wg_edges g) (wg_status g) (wg_created_at g) (wg_updated_at g)
    (wg_started_at g) (wg_completed_at g) (wg_result g).

Record ConflictRecord : Type := mkConflictRecord {
  cr_schema_version : string;
  cr_conflict_id : string;
  cr_workflow_id : string;
  cr_conflict_type : string;
  cr_involved_nodes : list string;
  cr_resolution_strategy : option string;
  cr_resolution_result : option string;
  cr_resolved_at : option string;
}.

Record AgentRole : Type := mkAgentRole {
  role_schema_version : string;
  role_id : string;
  role_name : string;
  role_capabilities : list string;
  role_max_concurrent_nodes : Z;
  role_budget_limit : f64;
}.

(** The part of a task analysis the decomposer reads. *)
Record TaskAnalysis : Type := mkTaskAnalysis {
  ta_task_domain : string;
  ta_risk_flags : list string;
  ta_complexity_score : f64;
  ta_execution_budget_estimate : Z;
}.

(** ** Dependency resolver *)

Module DependencyResolver.

Definition node_ids (graph : WorkflowGraph) : list string := wn_node_id <$> wg_nodes graph.
Definition edge_pairs (graph : WorkflowGraph) : list (string * string) :=
  (λ e, (we_from_node_id e, we_to_node_id e)) <$> wg_edges graph.

(** [adj.insert(id, Vec::new())] for every node, then a push for every edge on
    the entry of its source, created when missing. *)
Definition adjacency_all (ids : list string) (edges : list (string * string)) : adjacency :=
  let adj := foldl (λ m id, <[id := []]> m) ∅ ids in
  foldl (λ m e, <[e.1 := default [] (m !! e.1) ++ [e.2]]> m) adj edges.

(** The loop over the neighbours of the node being visited, with [dfs] its
    recursive call. *)
Fixpoint scan_neighbors (dfs : string → gmap string Color → option (bool * gmap string Color))
    (neighbors : list string) (color : gmap string Color)
    : option (bool * gmap string Color) :=
  match neighbors with
  | [] => Some (false, color)
  | dep :: rest =>
    match color !! dep with
    | Some GRAY => Some (true, color)
    | Some WHITE =>
      match dfs dep color with
      | None => None
      | Some (true, color) => Some (true, color)
      | Some (false, color) => scan_neighbors dfs rest color
      end
    | _ => scan_neighbors dfs rest color
    end
  end.

Fixpoint dfs (fuel : nat) (adj : adjacency) (nid : string) (color : gmap string Color)
    : option (bool * gmap string Color) :=
  match fuel with
  | O => None
  | S fuel =>
    let color := <[nid := GRAY]> color in
    match
      match adj !! nid with
      | Some neighbors => scan_neighbors (dfs fuel adj) neighbors color
      | None => Some (false, color)
      end
    with
    | None => None
    | Some (true, color) => Some (true, color)
    | Some (false, color) => Some (false, <[nid := BLACK]> color)
    end
  end.

Fixpoint visit_all (fuel : nat) (adj : adjacency) (starts : list string)
    (color : gmap string Color) : option bool :=
  match starts with
  | [] => Some false
  | nid :: starts =>
    match dfs fuel adj nid color with
    | None => None
    | Some (true, _) => Some true
    | Some (false, color) => visit_all fuel adj starts color
    end
  end.

(** The start nodes are collected before the first search, in hash order.
    [None] when a search runs out of fuel. *)
Definition has_cycle `{HashOrder} (graph : WorkflowGraph) : option bool :=
  let ids := node_ids graph in
  let color := foldl (λ m id, <[id := WHITE]> m) (∅ : gmap string Color) ids in
  let white_nodes := (filter (λ p, p.2 = WHITE) (hash_iter color)).*1 in
  visit_all (S (size color)) (adjacency_all ids (edge_pairs graph)) white_nodes color.

Definition validate `{HashOrder} (graph : WorkflowGraph) : option (bool * list string) :=
  let ids := node_ids graph in
  let endpoint_errors :=
    mjoin ((λ e,
      (if bool_decide (we_from_node_id e ∈ ids) then []
       else ["missing_source:" +:+ we_from_node_id e])
      ++ (if bool_decide (we_to_node_id e ∈ ids) then []
          else ["missing_target:" +:+ we_to_node_id e])) <$> wg_edges graph) in
  match has_cycle graph with
  | None => None
  | Some cycle =>
    let errors := endpoint_errors ++ if cycle then ["cycle_detected"] else [] in
    Some (bool_decide (errors = []), errors)
  end.

(** One wave: relax the dependents of every ready node in turn. *)
Fixpoint relax_wave (dependents : adjacency) (ready : list string) (deg : gmap string Z)
    : gmap string Z * list string :=
  match ready with
  | [] => (deg, [])
  | nid :: ready =>
    let '(deg, out) :=
      match dependents !! nid with
      | Some deps => relax deps deg
      | None => (deg, [])
      end in
    let '(deg, out') := relax_wave dependents ready deg in
    (deg, out ++ out')
  end.

Fixpoint wave_loop (fuel : nat) (dependents : adjacency) (ready : list string)
    (deg : gmap string Z) (waves : list (list string)) : option (list (list string)) :=
  match ready with
  | [] => Some waves
  | _ =>
    match fuel with
    | O => None
    | S fuel =>
      let '(deg, next_ready) := relax_wave dependents ready deg in
      wave_loop fuel dependents (sort_strings next_ready) deg (waves ++ [ready])
    end
  end.

(** [dependents.entry(id).or_default()] for every node, then a push for every
    edge. *)
Definition dependents_of (ids : list string) (edges : list (string * string)) : adjacency :=
  let m := foldl (λ m id, match m !! id with Some _ => m | None => <[id := []]> m end)
             ∅ ids in
  foldl (λ m e, <[e.1 := default [] (m !! e.1) ++ [e.2]]> m) m edges.

Definition execution_order `{HashOrder} (graph : WorkflowGraph)
    : option (list (list string)) :=
  match validate graph with
  | None => None
  | Some (false, _) => Some []
  | Some (true, _) =>
    let ids := node_ids graph in
    let edges := edge_pairs graph in
    let in_degree := in_degrees ids edges in
    let ready := sort_strings (filter (λ p : string * Z, p.2 = 0) (hash_iter in_degree)).*1 in
    wave_loop (size in_degree) (dependents_of ids edges) ready in_degree []
  end.

Definition dependencies_of (graph : WorkflowGraph) (node_id : string) : list string :=
  we_from_node_id <$>
    filter (λ e, we_to_node_id e = node_id ∧ we_edge_type e = "dependency") (wg_edges graph).

Definition ready_nodes (graph : WorkflowGraph) : list string :=
  let completed := wn_node_id <$> filter (λ n, wn_status n = "completed") (wg_nodes graph) in
  sort_strings (wn_node_id <$>
    filter (λ n, wn_status n = "pending"
                 ∧ Forall (λ d, d ∈ completed) (dependencies_of graph (wn_node_id n)))
      (wg_nodes graph)).

(** [impl GraphOperations for ResolvableGraph]. *)
Definition resolvable_topological_order `{HashOrder} (graph : WorkflowGraph)
    : option (list string) :=
  match execution_order graph with
  | None => None
  | Some waves => Some (mjoin waves : list string)
  end.

Definition resolvable_ready_nodes (graph : WorkflowGraph) (completed : gset string)
    : list string :=
  sort_strings (wn_node_id <$>
    filter (λ n, wn_status n = "pending"
                 ∧ Forall (λ d, d ∈ completed) (dependencies_of graph (wn_node_id n)))
      (wg_nodes graph)).

End DependencyResolver.

(** ** Work queue *)

Module WorkQueue.

Definition find_node (graph : WorkflowGraph) (node_id : string) : option WorkflowNode :=
  List.find (λ n, bool_decide (wn_node_id n = node_id)) (wg_nodes graph).

Definition replace_node (graph : WorkflowGraph) (node_id : string)
    (replacement : WorkflowNode) : WorkflowGraph :=
  graph <| wg_nodes :=
    (λ n, if bool_decide (wn_node_id n = node_id) then replacement else n)
      <$> wg_nodes graph |>.

Definition enqueue (graph : WorkflowGraph) (_ : WorkflowNode) : WorkflowGraph := graph.

Definition dequeue_ready (graph : WorkflowGraph) : list WorkflowNode :=
  filter (λ n, wn_status n = "ready") (wg_nodes graph).

Definition update_node (graph : WorkflowGraph) (node_id status : string) : WorkflowGraph :=
  match find_node graph node_id with
  | None => graph
  | Some node =>
    replace_node graph node_id (node
      <| wn_status := status |>
      <| wn_started_at :=
           if bool_decide (status = "running") && is_none (wn_started_at node)
           then Some "now" else wn_started_at node |>
      <| wn_completed_at :=
           if bool_decide (status = "completed") || bool_decide (status = "failed")
           then Some "now" else wn_completed_at node |>)
  end.

Definition start (graph : WorkflowGraph) (node_id : string) : WorkflowGraph :=
  update_node graph node_id "running".

Definition complete (graph : WorkflowGraph) (node_id output_ref : string) : WorkflowGraph :=
  match find_node graph node_id with
  | None => graph
  | Some node =>
    replace_node graph node_id (node
      <| wn_status := "completed" |>
      <| wn_output_ref := Some output_ref |>
      <| wn_completed_at := Some "now" |>)
  end.

Definition fail (graph : WorkflowGraph) (node_id error : string) : WorkflowGraph :=
  match find_node graph node_id with
  | None => graph
  | Some node =>
    replace_node graph node_id (node
      <| wn_status := "failed" |>
      <| wn_error := Some error |>
      <| wn_completed_at := Some "now" |>)
  end.

(** The statuses a node does not leave. *)
Definition is_final (status : string) : bool :=
  bool_decide (status = "completed") || bool_decide (status = "failed")
  || bool_decide (status = "cancelled").

Definition cancel (graph : WorkflowGraph) (node_id : string) : WorkflowGraph :=
  match find_node graph node_id with
  | None => graph
  | Some node =>
    if is_final (wn_status node) then graph else update_node graph node_id "cancelled"
  end.

Definition status_of (graph : WorkflowGraph) (node_id : string) : string :=
  match find_node graph node_id with
  | Some n => wn_status n
  | None => "pending"
  end.

End WorkQueue.

(** ** Agent roles *)

Module AgentRoleRegistry.

Record AgentRoleRegistry : Type := mkRegistry {
  roles : gmap string AgentRole;
  active_count : gmap string Z;
  assignments : gmap (string * string) string;
}.
#[export] Instance eta_AgentRoleRegistry : Eta AgentRoleRegistry := λ r,
  mkRegistry (roles r) (active_count r) (assignments r).

Definition registry_new : AgentRoleRegistry := mkRegistry ∅ ∅ ∅.

Definition register_role (role : AgentRole) (self : AgentRoleRegistry) : AgentRoleRegistry :=
  self <| active_count :=
            match active_count self !! role_id role with
            | Some _ => active_count self
            | None => <[role_id role := 0]> (active_count self)
            end |>
       <| roles := <[role_id role := role]> (roles self) |>.

Definition active_of (self : AgentRoleRegistry) (id : string) : Z :=
  default 0 (active_count self !! id).

Definition roles_for_task_type `{HashOrder} (task_type : string) (self : AgentRoleRegistry)
    : list AgentRole :=
  filter (λ r, task_type ∈ role_capabilities r) (hash_iter (roles self)).*2.

(** The loop over the candidate role ids. *)
Fixpoint assign_first (workflow_id node_id : string) (candidates : list string)
    (self : AgentRoleRegistry) : option string * AgentRoleRegistry :=
  match candidates with
  | [] => (None, self)
  | id :: rest =>
    let active := active_of self id in
    match roles self !! id with
    | Some role =>
      if active <? role_max_concurrent_nodes role then
        (Some id,
         self <| active_count := <[id := active + 1]> (active_count self) |>
              <| assignments := <[(workflow_id, node_id) := id]> (assignments self) |>)
      else assign_first workflow_id node_id rest self
    | None => assign_first workflow_id node_id rest self
    end
  end.

Definition assign_agent `{HashOrder} (workflow_id node_id task_type : string)
    (self : AgentRoleRegistry) : option string * AgentRoleRegistry :=
  assign_first workflow_id node_id (role_id <$> roles_for_task_type task_type self) self.

Definition release_agent (id : string) (self : AgentRoleRegistry) : AgentRoleRegistry :=
  self <| active_count :=
    <[id := u64_saturating_sub (active_of self id) 1]> (active_count self) |>.

Definition release_node (workflow_id node_id : string) (self : AgentRoleRegistry)
    : option string * AgentRoleRegistry :=
  match assignments self !! (workflow_id, node_id) with
  | Some id =>
    (Some id, release_agent id
       (self <| assignments := delete (workflow_id, node_id) (assignments self) |>))
  | None => (None, self)
  end.

Definition get_role (id : string) (self : AgentRoleRegistry) : option AgentRole :=
  roles self !! id.

Definition all_roles `{HashOrder} (self : AgentRoleRegistry) : list AgentRole :=
  (hash_iter (roles self)).*2.

Definition get_assignment (workflow_id node_id : string) (self : AgentRoleRegistry)
    : option string := assignments self !! (workflow_id, node_id).

End AgentRoleRegistry.

(** ** Deterministic runtime (runtime.rs) *)

Module FixtureRuntime.

Definition FIXTURE_TIMESTAMP : string := "2000-01-01T00:00:00+00:00".

(** The counters by prefix. *)
Abbreviation FixtureRuntime := (gmap string Z).

Definition now (_ : FixtureRuntime) : string := FIXTURE_TIMESTAMP.

(** [format!("{prefix}{counter:04}")]. *)
Definition next_id (prefix : string) (self : FixtureRuntime) : string * FixtureRuntime :=
  let counter := u64_add (default 0 (self !! prefix)) 1 in
  (prefix +:+ pad4 counter, <[prefix := counter]> self).

End FixtureRuntime.

(** ** Task decomposer *)

Module TaskDecomposer.
Import AgentRoleRegistry (AgentRoleRegistry).

(** What [&mut self] and [&mut runtime] hold: the registry, if any, and the
    counters. *)
Abbreviation decomposer_state := (option AgentRoleRegistry * FixtureRuntime.FixtureRuntime)%type.

Definition WORKFLOW_SCHEMA_VERSION : string := "workflow_graph.v1".
Definition WORKFLOW_NODE_SCHEMA_VERSION : string := "workflow_node.v1".
Definition WORKFLOW_EDGE_SCHEMA_VERSION : string := "workflow_edge.v1".

Section decompose.
Context `{HashOrder}.

Definition make_node (workflow_id task_type : string) (analysis : TaskAnalysis)
    (input_refs : list string) (s : decomposer_state) : WorkflowNode * decomposer_state :=
  let '(registry, runtime) := s in
  let '(node_id, runtime) := FixtureRuntime.next_id "node" runtime in
  let '(agent_id, registry) :=
    match registry with
    | Some r =>
      let '(agent, r) := AgentRoleRegistry.assign_agent workflow_id node_id task_type r in
      (agent, Some r)
    | None => (None, None)
    end in
  let risk_divisor := f64_of_Z (Z.of_nat (length (ta_risk_flags analysis)) + 1) in
  let budget := f64_div (f64_of_Z (ta_execution_budget_estimate analysis)) risk_divisor in
  ({| wn_schema_version := WORKFLOW_NODE_SCHEMA_VERSION;
      wn_node_id := node_id; wn_workflow_id := workflow_id; wn_task_type := task_type;
      wn_assigned_agent_id := agent_id; wn_status := "pending";
      wn_input_refs := input_refs; wn_output_ref := None;
      wn_budget := f64_div (f64_round (f64_mul budget (f64_of_Z 100))) (f64_of_Z 100);
      wn_cost_incurred := f64_zero; wn_error := None;
      wn_created_at := FixtureRuntime.now runtime;
      wn_started_at := None; wn_completed_at := None |}, (registry, runtime)).

(** A dependency edge between two nodes, with the next edge id. *)
Definition make_edge (from to : WorkflowNode) (s : decomposer_state)
    : WorkflowEdge * decomposer_state :=
  let '(registry, runtime) := s in
  let '(id, runtime) := FixtureRuntime.next_id "edge" runtime in
  (mkWorkflowEdge WORKFLOW_EDGE_SCHEMA_VERSION id (wn_node_id from) (wn_node_id to)
     "dependency", (registry, runtime)).

Abbreviation built := (list WorkflowNode * list WorkflowEdge * decomposer_state)%type.

Definition simple_graph (workflow_id : string) (analysis : TaskAnalysis)
    (s : decomposer_state) : built :=
  let '(node, s) := make_node workflow_id (ta_task_domain analysis) analysis [] s in
  ([node], [], s).

Definition medium_graph (workflow_id : string) (analysis : TaskAnalysis)
    (s : decomposer_state) : built :=
  let domain := ta_task_domain analysis in
  let '(analyze, s) := make_node workflow_id (domain +:+ "_analyze") analysis [] s in
  let '(execute, s) := make_node workflow_id (domain +:+ "_execute") analysis
                         [wn_node_id analyze] s in
  let '(edge, s) := make_edge analyze execute s in
  ([analyze; execute], [edge], s).

Definition complex_graph (workflow_id : string) (analysis : TaskAnalysis)
    (s : decomposer_state) : built :=
  let domain := ta_task_domain analysis in
  let '(analyze, s) := make_node workflow_id (domain +:+ "_analyze") analysis [] s in
  let '(plan, s) := make_node workflow_id (domain +:+ "_plan") analysis
                      [wn_node_id analyze] s in
  let '(execute, s) := make_node workflow_id (domain +:+ "_execute") analysis
                         [wn_node_id plan] s in
  let '(review, s) := make_node workflow_id (domain +:+ "_review") analysis
                        [wn_node_id execute] s in
  let '(e1, s) := make_edge analyze plan s in
  let '(e2, s) := make_edge plan execute s in
  let '(e3, s) := make_edge execute review s in
  ([analyze; plan; execute; review], [e1; e2; e3], s).

Definition build_graph (workflow_id : string) (analysis : TaskAnalysis)
    (s : decomposer_state) : built :=
  let complexity := ta_complexity_score analysis in
  if f64_ltb complexity (f64_lit 3 10) && bool_decide (ta_risk_flags analysis = [])
  then simple_graph workflow_id analysis s
  else if f64_leb (f64_lit 6 10) complexity || (2 <=? length (ta_risk_flags analysis))%nat
  then complex_graph workflow_id analysis s
  else medium_graph workflow_id analysis s.

Definition decompose (analysis : TaskAnalysis) (dispatch_id : string)
    (s : decomposer_state) : WorkflowGraph * decomposer_state :=
  let '(registry, runtime) := s in
  let '(workflow_id, runtime) := FixtureRuntime.next_id "wf" runtime in
  let '(nodes, edges, s) := build_graph workflow_id analysis (registry, runtime) in
  ({| wg_schema_version := WORKFLOW_SCHEMA_VERSION; wg_workflow_id := workflow_id;
      wg_dispatch_id := dispatch_id; wg_nodes := nodes; wg_edges := edges;
      wg_status := "decomposed"; wg_created_at := FixtureRuntime.now s.2;
      wg_updated_at := FixtureRuntime.now s.2; wg_started_at := None;
      wg_completed_at := None; wg_result := None |}, s).

End decompose.
End TaskDecomposer.

(** ** Conflict resolver *)

Module ConflictResolver.

Definition CONFLICT_RECORD_SCHEMA_VERSION : string := "conflict_record.v1".

(** [groups.entry(key).or_default().push(id)] over the nodes that have a key. *)
Definition group_by (key : WorkflowNode → option string) (nodes : list WorkflowNode)
    : gmap string (list string) :=
  foldl (λ m n, match key n with
                | Some k => <[k := default [] (m !! k) ++ [wn_node_id n]]> m
                | None => m
                end) ∅ nodes.

Section conflicts.
Context `{HashOrder}.

(** The groups of more than one node, in hash order. *)
Definition shared_groups (m : gmap string (list string)) : list (list string) :=
  filter (λ ids, (1 < length ids)%nat) (hash_iter m).*2.

(** The type and the nodes of every conflict, in the order they are pushed. *)
Definition conflict_specs (graph : WorkflowGraph) : list (string * list string) :=
  let nodes := wg_nodes graph in
  let failed := wn_node_id <$> filter (λ n, wn_status n = "failed") nodes in
  let dependency :=
    match failed with [] => [] | _ => [("dependency_violation", failed)] end in
  let outputs := (λ ids, ("output_conflict", ids)) <$>
    shared_groups (group_by wn_output_ref (filter (λ n, wn_status n = "completed") nodes)) in
  let resources := (λ ids, ("resource_conflict", ids)) <$>
    shared_groups (group_by wn_assigned_agent_id
                     (filter (λ n, wn_status n = "running") nodes)) in
  let total_cost := f64_sum (wn_cost_incurred <$> nodes) in
  let total_budget := f64_sum (wn_budget <$> nodes) in
  let overrun :=
    if f64_gtb total_budget f64_zero && f64_gtb total_cost total_budget
    then [("budget_overrun", wn_node_id <$> nodes)] else [] in
  dependency ++ outputs ++ resources ++ overrun.

(** [short_id i] is the clock reading that names the [i]-th conflict. *)
Definition detect_conflicts (short_id : nat → string) (graph : WorkflowGraph)
    : list ConflictRecord :=
  imap (λ i '(conflict_type, ids),
    mkConflictRecord CONFLICT_RECORD_SCHEMA_VERSION ("conflict-" +:+ short_id i)
      (wg_workflow_id graph) conflict_type ids None None None) (conflict_specs graph).
End conflicts.

Definition pick_strategy (conflict_type : string) : string :=
  if bool_decide (conflict_type = "output_conflict") then "latest_wins"
  else if bool_decide (conflict_type = "resource_conflict") then "priority_wins"
  else if bool_decide (conflict_type = "budget_overrun") then "human_decides"
  else "skip".

Definition resolve (conflict : ConflictRecord) : ConflictRecord :=
  let ty := cr_conflict_type conflict in
  let strategy := pick_strategy ty in
  let outcome :=
    if bool_decide (ty = "output_conflict") then "latest_output_wins"
    else if bool_decide (ty = "resource_conflict") then "serialized_execution"
    else if bool_decide (ty = "dependency_violation") then "failed_node_skipped"
    else if bool_decide (ty = "budget_overrun") then "workflow_cancelled"
    else "unresolved" in
  mkConflictRecord (cr_schema_version conflict) (cr_conflict_id conflict)
    (cr_workflow_id conflict) ty (cr_involved_nodes conflict) (Some strategy)
    (Some outcome) (Some "now").

End ConflictResolver.

(** ** Human approval gate *)

Module HumanApprovalGate.

Record HumanApprovalGate : Type := mkGate {
  risk_threshold : f64;
  approved : gset string;
  rejected : gmap string string;
}.
#[export] Instance eta_HumanApprovalGate : Eta HumanApprovalGate := λ g,
  mkGate (risk_threshold g) (approved g) (rejected g).

Definition gate_new (risk_threshold : f64) : HumanApprovalGate := mkGate risk_threshold ∅ ∅.

Definition is_approved (self : HumanApprovalGate) (node_id : string) : bool :=
  bool_decide (node_id ∈ approved self).
Definition is_rejected (self : HumanApprovalGate) (node_id : string) : bool :=
  is_some (rejected self !! node_id).
Definition rejection_reason (self : HumanApprovalGate) (node_id : string) : option string :=
  rejected self !! node_id.

Definition requires_approval (self : HumanApprovalGate) (node : WorkflowNode) : bool :=
  bail is_approved self (wn_node_id node) || is_rejected self (wn_node_id node) with false ;;
  bail f64_gtb (wn_budget node) f64_zero
    && f64_gtb (wn_cost_incurred node) (f64_mul (wn_budget node) (risk_threshold self))
    with true ;;
  bool_decide (wn_status node = "failed").

Definition approve (node_id : string) (self : HumanApprovalGate)
    : bool * HumanApprovalGate :=
  if is_rejected self node_id then (false, self)
  else (true, self <| approved := {[node_id]} ∪ approved self |>).

Definition reject (node_id reason : string) (self : HumanApprovalGate)
    : bool * HumanApprovalGate :=
  if is_approved self node_id then (false, self)
  else (true, self <| rejected := <[node_id := reason]> (rejected self) |>).

End HumanApprovalGate.

(** ** Multi-agent budgets *)

Module MultiAgentBudgetManager.

Record WorkflowBudget : Type := mkWorkflowBudget {
  total_limit : f64;
  consumed : f64;
  agent_limits : gmap string f64;
  agent_consumed : gmap string f64;
  node_reservations : gmap string f64;
}.
#[export] Instance eta_WorkflowBudget : Eta WorkflowBudget := λ b,
  mkWorkflowBudget (total_limit b) (consumed b) (agent_limits b) (agent_consumed b)
    (node_reservations b).

Record MultiAgentBudgetManager : Type := mkBudgetManager {
  budgets : gmap string WorkflowBudget;
  overrun_strategy : string;
}.
#[export] Instance eta_MultiAgentBudgetManager : Eta MultiAgentBudgetManager := λ m,
  mkBudgetManager (budgets m) (overrun_strategy m).

Definition budget_manager_new (strategy : string) : MultiAgentBudgetManager := mkBudgetManager ∅ strategy.

Definition create_workflow_budget (workflow_id : string) (limit : f64)
    (self : MultiAgentBudgetManager) : string * MultiAgentBudgetManager :=
  (workflow_id,
   self <| budgets := <[workflow_id := mkWorkflowBudget limit f64_zero ∅ ∅ ∅]> (budgets self) |>).

Definition agent_limit_of (b : WorkflowBudget) (agent_id : string) : f64 :=
  default f64_infinity (agent_limits b !! agent_id).
Definition agent_consumed_of (b : WorkflowBudget) (agent_id : string) : f64 :=
  default f64_zero (agent_consumed b !! agent_id).

Definition reserve_node_budget (workflow_id node_id agent_id : string)
    (estimated_cost : f64) (self : MultiAgentBudgetManager)
    : bool * MultiAgentBudgetManager :=
  match budgets self !! workflow_id with
  | None => (false, self)
  | Some budget =>
    bail f64_gtb (f64_add (consumed budget) estimated_cost) (total_limit budget)
      with (false, self) ;;
    bail f64_gtb (f64_add (agent_consumed_of budget agent_id) estimated_cost)
           (agent_limit_of budget agent_id) with (false, self) ;;
    (true, self <| budgets := <[workflow_id := budget <| node_reservations :=
             <[node_id := estimated_cost]> (node_reservations budget) |>]> (budgets self) |>)
  end.

Definition record_cost (workflow_id _node_id agent_id : string) (cost : f64)
    (self : MultiAgentBudgetManager) : MultiAgentBudgetManager :=
  match budgets self !! workflow_id with
  | None => self
  | Some budget =>
    self <| budgets := <[workflow_id := budget
      <| consumed := f64_add (consumed budget) cost |>
      <| agent_consumed :=
           <[agent_id := f64_add (agent_consumed_of budget agent_id) cost]>
             (agent_consumed budget) |>]> (budgets self) |>
  end.

Definition check_workflow_budget (workflow_id : string) (self : MultiAgentBudgetManager)
    : bool * option string :=
  match budgets self !! workflow_id with
  | None => (true, None)
  | Some budget =>
    if f64_gtb (consumed budget) (total_limit budget)
    then (false, Some ("workflow_budget_exceeded:" +:+ fmt_fixed4 (consumed budget)
                       +:+ "/" +:+ fmt_fixed4 (total_limit budget)))
    else (true, None)
  end.

Definition check_agent_budget (workflow_id agent_id : string)
    (self : MultiAgentBudgetManager) : bool * option string :=
  match budgets self !! workflow_id with
  | None => (true, None)
  | Some budget =>
    let limit := agent_limit_of budget agent_id in
    let used := agent_consumed_of budget agent_id in
    if f64_gtb used limit
    then (false, Some ("agent_budget_exceeded:" +:+ agent_id +:+ ":" +:+ fmt_fixed4 used
                       +:+ "/" +:+ fmt_fixed4 limit))
    else (true, None)
  end.

Definition set_agent_limit (workflow_id agent_id : string) (limit : f64)
    (self : MultiAgentBudgetManager) : MultiAgentBudgetManager :=
  match budgets self !! workflow_id with
  | None => self
  | Some budget =>
    self <| budgets := <[workflow_id := budget
      <| agent_limits := <[agent_id := limit]> (agent_limits budget) |>]> (budgets self) |>
  end.

Definition get_workflow_cost (workflow_id : string) (self : MultiAgentBudgetManager) : f64 :=
  match budgets self !! workflow_id with Some b => consumed b | None => f64_zero end.

Definition get_agent_cost (workflow_id agent_id : string)
    (self : MultiAgentBudgetManager) : f64 :=
  match budgets self !! workflow_id with
  | Some b => agent_consumed_of b agent_id
  | None => f64_zero
  end.

End MultiAgentBudgetManager.

(** ** Result aggregator *)

Module ResultAggregator.

Definition is_complete (graph : WorkflowGraph) : bool :=
  forallb (λ n, WorkQueue.is_final (wn_status n)) (wg_nodes graph).

Definition node_result (n : WorkflowNode) : NodeResult :=
  mkNodeResult (wn_task_type n) (wn_status n) (wn_output_ref n) (wn_error n)
    (wn_assigned_agent_id n).

Definition aggregate (graph : WorkflowGraph) : AggregateResult := {|
  ar_workflow_id := wg_workflow_id graph;
  ar_dispatch_id := wg_dispatch_id graph;
  ar_total_nodes := Z.of_nat (length (wg_nodes graph));
  ar_completed_nodes :=
    Z.of_nat (length (filter (λ n, wn_status n = "completed") (wg_nodes graph)));
  ar_failed_nodes :=
    Z.of_nat (length (filter (λ n, wn_status n = "failed") (wg_nodes graph)));
  ar_total_cost := f64_sum (wn_cost_incurred <$> wg_nodes graph);
  ar_node_results :=
    foldl (λ m n, <[wn_node_id n := node_result n]> m) ∅ (wg_nodes graph) |}.

End ResultAggregator.

(** ** Workflow engine *)

Module WorkflowEngine.
Import HumanApprovalGate (HumanApprovalGate).
Import MultiAgentBudgetManager (MultiAgentBudgetManager).
Import AgentRoleRegistry (AgentRoleRegistry).

(** The components that hold state; the others have none. *)
Record WorkflowEngine : Type := mkEngine {
  decomposer_registry : option AgentRoleRegistry;
  approval_gate : HumanApprovalGate;
  budget_manager : MultiAgentBudgetManager;
}.
#[export] Instance eta_WorkflowEngine : Eta WorkflowEngine := λ e,
  mkEngine (decomposer_registry e) (approval_gate e) (budget_manager e).

Definition engine_new (registry : option AgentRoleRegistry) : WorkflowEngine :=
  mkEngine registry (HumanApprovalGate.gate_new (f64_lit 7 10))
    (MultiAgentBudgetManager.budget_manager_new "cancel").

Definition set_status (graph : WorkflowGraph) (status : string) : WorkflowGraph :=
  graph <| wg_status := status |>
        <| wg_updated_at := "now" |>
        <| wg_started_at :=
             if bool_decide (status = "running") && is_none (wg_started_at graph)
             then Some "now" else wg_started_at graph |>
        <| wg_completed_at := if WorkQueue.is_final status then Some "now" else None |>.

Definition update_node_field (graph : WorkflowGraph) (node_id : string) (cost : f64)
    : WorkflowGraph :=
  graph <| wg_nodes :=
    (λ n, if bool_decide (wn_node_id n = node_id) then n <| wn_cost_incurred := cost |>
          else n) <$> wg_nodes graph |>.

Definition start_ready_nodes (graph : WorkflowGraph) : WorkflowGraph :=
  foldl WorkQueue.start graph (DependencyResolver.ready_nodes graph).

Definition check_approval_needed (self : WorkflowEngine) (graph : WorkflowGraph) : bool :=
  existsb (λ node,
    (bool_decide (wn_status node = "completed") || bool_decide (wn_status node = "failed")
     || bool_decide (wn_status node = "waiting_human"))
    && HumanApprovalGate.requires_approval (approval_gate self) node) (wg_nodes graph).

Definition failed_or_cancelled (n : WorkflowNode) : bool :=
  bool_decide (wn_status n = "failed") || bool_decide (wn_status n = "cancelled").

Definition handle_failed_nodes (self : WorkflowEngine) (graph : WorkflowGraph)
    : WorkflowGraph :=
  if existsb (HumanApprovalGate.requires_approval (approval_gate self))
       (filter (λ n, failed_or_cancelled n = true) (wg_nodes graph))
  then set_status graph "waiting_human" else graph.

Definition resolve_conflicts (graph : WorkflowGraph) (conflicts : list ConflictRecord)
    : WorkflowGraph :=
  if existsb (λ c, bool_decide (cr_resolution_result (ConflictResolver.resolve c)
                                = Some "workflow_cancelled")) conflicts
  then set_status graph "cancelled" else graph.

Section engine.
Context `{HashOrder}.

(** [debug] is the [{:?}] format of a string. *)
Definition create_workflow (debug : string → string) (analysis : TaskAnalysis)
    (dispatch_id : string) (budget_limit : f64) (decision_status : string)
    (runtime : FixtureRuntime.FixtureRuntime) (self : WorkflowEngine)
    : option (result string WorkflowGraph * FixtureRuntime.FixtureRuntime * WorkflowEngine) :=
  bail negb (bool_decide (decision_status = "decided"))
    with Some (Err ("Cannot create workflow: decision_status=" +:+ debug decision_status
                    +:+ ", requires 'decided'"), runtime, self) ;;
  let '(graph, (registry, runtime)) :=
    TaskDecomposer.decompose analysis dispatch_id (decomposer_registry self, runtime) in
  match DependencyResolver.validate graph with
  | None => None
  | Some (valid, _) =>
    let graph := if valid then graph else set_status graph "failed" in
    Some (Ok graph, runtime,
          self <| decomposer_registry := registry |>
               <| budget_manager := (MultiAgentBudgetManager.create_workflow_budget
                    (wg_workflow_id graph) budget_limit (budget_manager self)).2 |>)
  end.

Definition tick (short_id : nat → string) (self : WorkflowEngine) (graph : WorkflowGraph)
    : WorkflowGraph :=
  bail WorkQueue.is_final (wg_status graph) with graph ;;
  let graph := start_ready_nodes graph in
  if ResultAggregator.is_complete graph then
    let has_failed := existsb failed_or_cancelled (wg_nodes graph) in
    let graph := if has_failed then handle_failed_nodes self graph else graph in
    let unresolved := filter (λ c, cr_resolution_strategy c = None)
                        (ConflictResolver.detect_conflicts short_id graph) in
    let resolved := match unresolved with
                    | [] => graph
                    | _ => resolve_conflicts graph unresolved
                    end in
    bail negb (bool_decide (unresolved = [])) && bool_decide (wg_status resolved = "cancelled")
      with resolved ;;
    let graph := resolved in
    bail check_approval_needed self graph with set_status graph "waiting_human" ;;
    bail has_failed && negb (bool_decide (wg_status graph = "failed"))
         && negb (bool_decide (wg_status graph = "cancelled"))
      with set_status graph "failed" ;;
    graph <| wg_status := "completed" |>
          <| wg_completed_at := Some "now" |>
          <| wg_result := Some (ResultAggregator.aggregate graph) |>
  else if bool_decide (wg_status graph = "created")
          || bool_decide (wg_status graph = "decomposed")
  then set_status graph "running"
  else graph.

Definition resume_after_approval (graph : WorkflowGraph) (_ : string) : WorkflowGraph :=
  if bool_decide (wg_status graph = "waiting_human") then set_status graph "running"
  else graph.

Definition cancel_workflow (graph : WorkflowGraph) : WorkflowGraph :=
  let ids := wn_node_id <$>
    filter (λ n, WorkQueue.is_final (wn_status n) = false) (wg_nodes graph) in
  set_status (foldl WorkQueue.cancel graph ids) "cancelled".

Definition complete_node (node_id output_ref : string) (cost : f64)
    (self : WorkflowEngine) (graph : WorkflowGraph) : WorkflowGraph * WorkflowEngine :=
  let graph := WorkQueue.complete graph node_id output_ref in
  if f64_gtb cost f64_zero then
    match WorkQueue.find_node graph node_id with
    | Some node =>
      let agent_id := default "" (wn_assigned_agent_id node) in
      let self := self <| budget_manager := MultiAgentBudgetManager.record_cost
        (wg_workflow_id graph) node_id agent_id cost (budget_manager self) |> in
      let '(ok, _) := MultiAgentBudgetManager.check_workflow_budget
                        (wg_workflow_id graph) (budget_manager self) in
      if negb ok && bool_decide (MultiAgentBudgetManager.overrun_strategy
                                   (budget_manager self) = "cancel")
      then (set_status graph "failed", self)
      else (update_node_field graph node_id cost, self)
    | None => (update_node_field graph node_id cost, self)
    end
  else (graph, self).

Definition fail_node (node_id error : string) (graph : WorkflowGraph) : WorkflowGraph :=
  WorkQueue.fail graph node_id error.

End engine.
End WorkflowEngine.
