(* ===== verification/ResolverProps.v ===== *)
(** * Properties of the dependency resolver

    Its recursive cycle search is exact for every hash order, and its execution
    waves are a layered topological order. *)

From S2P Require Import Prelude Text Graph DagManager DagCycle DagQueries Float64 Orchestration.
From stdpp Require Import relations.

Import DependencyResolver.

(** ** The adjacency maps *)

Lemma lookup_push_edges (edges : list (string * string)) (m : adjacency) x :
  foldl (λ m e, <[e.1 := default [] (m !! e.1) ++ [e.2]]> m) m edges !! x =
  match m !! x, succs edges x with
  | None, [] => None
  | l, ys => Some (default [] l ++ ys)
  end.
Proof.
  revert m. induction edges as [|[a b] edges IH]; intros m; simpl.
  - unfold succs. simpl. destruct (m !! x); [|done]. simpl. by rewrite app_nil_r.
  - rewrite IH. unfold succs. rewrite filter_cons. simpl. case_decide as E.
    + subst a. rewrite lookup_insert_eq. simpl. fold (succs edges x).
      destruct (m !! x); simpl; [by rewrite <-(assoc_L (++))|done].
    + rewrite lookup_insert_ne by done. done.
Qed.

Lemma nbrs_push_edges (edges : list (string * string)) (m : adjacency) x :
  nbrs (foldl (λ m e, <[e.1 := default [] (m !! e.1) ++ [e.2]]> m) m edges) x =
  nbrs m x ++ succs edges x.
Proof.
  unfold nbrs. rewrite lookup_push_edges.
  by destruct (m !! x) as [[]|], (succs edges x).
Qed.

Lemma nbrs_insert_empty (ids : list string) (m : adjacency) x :
  (∀ y, nbrs m y = []) → nbrs (foldl (λ m id, <[id := []]> m) m ids) x = [].
Proof.
  revert m. induction ids as [|id ids IH]; intros m Hm; simpl; [done|]. apply IH.
  intros y. unfold nbrs. destruct (decide (y = id)) as [->|].
  - by rewrite lookup_insert_eq.
  - rewrite lookup_insert_ne by done. apply Hm.
Qed.

Lemma nbrs_adjacency_all ids edges x : nbrs (adjacency_all ids edges) x = succs edges x.
Proof.
  unfold adjacency_all. rewrite nbrs_push_edges, nbrs_insert_empty; [done|].
  intros y. unfold nbrs. by rewrite lookup_empty.
Qed.

Lemma nbrs_dependents_of ids edges x : nbrs (dependents_of ids edges) x = succs edges x.
Proof.
  unfold dependents_of. rewrite nbrs_push_edges. unfold nbrs at 1.
  rewrite lookup_adjacency_nodes, lookup_empty. by case_bool_decide.
Qed.

(** ** The recursive search *)

Section search.
Context (adj : adjacency) (known : gset string).
Local Abbreviation R := (known_edge adj known).

Definition is_white (p : string * Color) : Prop := p.2 = WHITE.
#[local] Instance is_white_dec p : Decision (is_white p).
Proof. unfold is_white. apply _. Defined.

Definition white_count (color : gmap string Color) : nat := size (filter is_white color).

Record visit_inv (color : gmap string Color) (fin : list string) : Prop := {
  vi_dom : dom color = known;
  vi_black : ∀ x, color !! x = Some BLACK ↔ x ∈ fin;
  vi_nodup : NoDup fin;
  vi_closed : closed_order R fin;
}.

(** What a search that finds no cycle leaves: more finished nodes, the same open
    ones. *)
Definition visit_post (color : gmap string Color) (fin : list string)
    (color' : gmap string Color) (fin' : list string) : Prop :=
  visit_inv color' fin' ∧ (∀ x, x ∈ fin → x ∈ fin')
  ∧ (∀ x, color' !! x = Some GRAY ↔ color !! x = Some GRAY)
  ∧ white_count color' ≤ white_count color.

Lemma white_count_le color : white_count color ≤ size color.
Proof. apply map_size_filter. Qed.

Lemma white_count_change color x c c' :
  color !! x = Some c → c' ≠ WHITE →
  white_count (<[x := c']> color) + (if bool_decide (c = WHITE) then 1 else 0)
  = white_count color.
Proof.
  intros Hx Hc. unfold white_count.
  rewrite map_filter_insert_False by (unfold is_white; done).
  assert (E : filter is_white color =
    if bool_decide (c = WHITE) then <[x := c]> (filter is_white (delete x color))
    else filter is_white (delete x color)).
  { rewrite <-(insert_delete_id color x c Hx) at 1. case_bool_decide as Hw.
    - rewrite map_filter_insert_True by done. done.
    - rewrite map_filter_insert_False by (unfold is_white; done).
      by rewrite delete_delete_eq. }
  rewrite E. case_bool_decide; [|lia]. rewrite map_size_insert_None; [lia|].
  apply map_lookup_filter_None. left. apply lookup_delete_eq.
Qed.

Lemma scan_neighbors_spec dfs (x : string) (ns : list string) color fin :
  visit_inv color fin → color !! x = Some GRAY → x ∈ known →
  (∀ y, y ∈ ns → y ∈ nbrs adj x) →
  (∀ g, color !! g = Some GRAY → g = x ∨ tc R g x) →
  (∀ (dep : string) (color1 : gmap string Color) fin1, visit_inv color1 fin1 → white_count color1 ≤ white_count color →
     color1 !! dep = Some WHITE → (∀ g, color1 !! g = Some GRAY → tc R g dep) →
     ∃ (b : bool) (color2 : gmap string Color), dfs dep color1 = Some (b, color2)
       ∧ if b then cyclic R
         else ∃ fin2, visit_post color1 fin1 color2 fin2 ∧ dep ∈ fin2) →
  ∃ b color', scan_neighbors dfs ns color = Some (b, color')
    ∧ if b then cyclic R
      else ∃ fin', visit_post color fin color' fin'
        ∧ ∀ y, y ∈ ns → y ∈ known → y ∈ fin'.
Proof.
  revert color fin. induction ns as [|dep ns IH]; intros color fin Hi Hgx Hxk Hns Hanc Hdfs;
    cbn [scan_neighbors].
  { exists false, color. split; [done|]. exists fin. split; [|set_solver].
    split_and!; [done..|lia]. }
  assert (Hskip : (dep ∈ known → dep ∈ fin) →
    ∃ b color', scan_neighbors dfs ns color = Some (b, color')
    ∧ if b then cyclic R
      else ∃ fin', visit_post color fin color' fin'
        ∧ ∀ y, y ∈ dep :: ns → y ∈ known → y ∈ fin').
  { intros Hdep. destruct (IH color fin) as (b & color' & -> & Hr); try done; [set_solver|].
    exists b, color'. split; [done|]. destruct b; [done|].
    destruct Hr as (fin' & Hp & Hall). exists fin'. split; [done|].
    destruct Hp as (_ & Hsub & _). set_solver. }
  assert (Hedge : dep ∈ known → R x dep) by (intros; split_and!; [done|done|apply Hns; left]).
  destruct (color !! dep) as [[]|] eqn:Hc.
  - assert (Hdk : dep ∈ known) by (rewrite <-(vi_dom _ _ Hi); by apply elem_of_dom_2 in Hc).
    destruct (Hdfs dep color fin Hi) as (b & color1 & -> & Hr); [lia|done| |].
    { intros g [->|Hg]%Hanc; [by apply tc_once, Hedge|eapply tc_r; [done|by apply Hedge]]. }
    destruct b; [eauto|]. destruct Hr as (fin1 & (Hi1 & Hsub1 & Hg1 & Hw1) & Hd1).
    destruct (IH color1 fin1 Hi1) as (b & color' & -> & Hr).
    + by apply Hg1.
    + done.
    + set_solver.
    + intros g Hg. apply Hanc. by apply Hg1.
    + intros d c1 f1 ? ? ? ?. apply Hdfs; try done. lia.
    + exists b, color'. split; [done|]. destruct b; [done|].
      destruct Hr as (fin' & (Hi' & Hsub' & Hg' & Hw') & Hall). exists fin'.
      split; [|set_solver]. split_and!; [done|set_solver| |lia].
      intros y. by rewrite Hg', Hg1.
  - exists true, color. split; [done|].
    assert (Hdk : dep ∈ known) by (rewrite <-(vi_dom _ _ Hi); by apply elem_of_dom_2 in Hc).
    exists x. apply Hanc in Hc as [->|Ht]; [by apply tc_once, Hedge|].
    eapply tc_l; [by apply Hedge|done].
  - apply Hskip. intros _. by apply (vi_black _ _ Hi).
  - apply Hskip. rewrite <-(vi_dom _ _ Hi), elem_of_dom, Hc. by intros [??].
Qed.

Lemma dfs_unfold fuel x color :
  dfs (S fuel) adj x color =
  match scan_neighbors (dfs fuel adj) (nbrs adj x) (<[x := GRAY]> color) with
  | None => None
  | Some (true, color) => Some (true, color)
  | Some (false, color) => Some (false, <[x := BLACK]> color)
  end.
Proof. cbn [dfs]. unfold nbrs. by destruct (adj !! x). Qed.

Lemma visit_inv_open color fin x :
  visit_inv color fin → color !! x = Some WHITE → visit_inv (<[x := GRAY]> color) fin.
Proof.
  intros [Hdom Hb Hnd Hc] Hx. split; try done.
  - rewrite dom_insert_L, Hdom. apply subseteq_union_1_L, singleton_subseteq_l.
    rewrite <-Hdom. by apply elem_of_dom_2 in Hx.
  - intros y. destruct (decide (y = x)) as [->|].
    + rewrite lookup_insert_eq, <-Hb, Hx. done.
    + by rewrite lookup_insert_ne, Hb.
Qed.

Lemma visit_inv_close color fin x :
  visit_inv color fin → color !! x = Some GRAY →
  (∀ y, R x y → y ∈ fin) → visit_inv (<[x := BLACK]> color) (x :: fin).
Proof.
  intros [Hdom Hb Hnd Hc] Hx Hall. split.
  - rewrite dom_insert_L, Hdom. apply subseteq_union_1_L, singleton_subseteq_l.
    rewrite <-Hdom. by apply elem_of_dom_2 in Hx.
  - intros y. rewrite elem_of_cons. destruct (decide (y = x)) as [->|].
    + rewrite lookup_insert_eq. naive_solver.
    + rewrite lookup_insert_ne, Hb by done. naive_solver.
  - constructor; [|done]. rewrite <-Hb, Hx. done.
  - by apply closed_order_cons.
Qed.

Lemma dfs_spec fuel x color fin :
  visit_inv color fin → color !! x = Some WHITE → white_count color < fuel + 1 →
  (∀ g, color !! g = Some GRAY → tc R g x) →
  ∃ b color', dfs (S fuel) adj x color = Some (b, color')
    ∧ if b then cyclic R
      else ∃ fin', visit_post color fin color' fin' ∧ x ∈ fin'.
Proof.
  revert x color fin. induction fuel as [|fuel IH]; intros x color fin Hi Hx Hw Hg;
    pose proof (white_count_change color x _ GRAY Hx) as Hcount;
    rewrite bool_decide_true in Hcount by done; [specialize (Hcount ltac:(done)); lia|].
  specialize (Hcount ltac:(done)). rewrite dfs_unfold.
  assert (Hxk : x ∈ known) by (rewrite <-(vi_dom _ _ Hi); by apply elem_of_dom_2 in Hx).
  destruct (scan_neighbors_spec (dfs (S fuel) adj) x (nbrs adj x) (<[x := GRAY]> color) fin)
    as (b & color1 & -> & Hr).
  - by apply visit_inv_open.
  - apply lookup_insert_eq.
  - done.
  - done.
  - intros g. destruct (decide (g = x)) as [->|]; [by left|].
    rewrite lookup_insert_ne by done. auto.
  - intros dep c1 f1 H1 H2 H3 H4. apply IH; try done. lia.
  - destruct b; [exists true; eauto|]. destruct Hr as (fin1 & (Hi1 & Hsub & Hg1 & Hw1) & Hall).
    exists false, (<[x := BLACK]> color1). split; [done|]. exists (x :: fin1).
    assert (Hgx : color1 !! x = Some GRAY) by (apply Hg1, lookup_insert_eq).
    split; [|left]. split_and!.
    + apply visit_inv_close; [done|done|]. intros y (_ & Hy & Hin). by apply Hall.
    + intros y ?. right. by apply Hsub.
    + intros y. destruct (decide (y = x)) as [->|].
      * rewrite lookup_insert_eq, Hx. naive_solver.
      * rewrite lookup_insert_ne, Hg1, lookup_insert_ne by done. done.
    + pose proof (white_count_change color1 x _ BLACK Hgx ltac:(done)). lia.
Qed.

(** A node that is already finished is visited again without effect. *)
Lemma dfs_finished fuel x color fin :
  visit_inv color fin → (∀ y, color !! y ≠ Some GRAY) → color !! x = Some BLACK →
  dfs (S fuel) adj x color = Some (false, color).
Proof.
  intros Hi Hng Hx. rewrite dfs_unfold.
  assert (Hxk : x ∈ known) by (rewrite <-(vi_dom _ _ Hi); by apply elem_of_dom_2 in Hx).
  assert (Hsucc : ∀ y, y ∈ nbrs adj x → y ∈ known → y ≠ x ∧ color !! y = Some BLACK).
  { intros y Hy Hk. assert (HR : R x y) by done.
    assert (Hxf : x ∈ fin) by by apply (vi_black _ _ Hi).
    split; [|apply (vi_black _ _ Hi); by eapply closed_order_step; [apply Hi| |]].
    intros ->. apply (closed_order_acyclic R fin x); [apply Hi|apply Hi|done|].
    by apply tc_once. }
  assert (Hscan : ∀ ns, (∀ y, y ∈ ns → y ∈ nbrs adj x) →
    scan_neighbors (dfs fuel adj) ns (<[x := GRAY]> color) = Some (false, <[x := GRAY]> color)).
  { induction ns as [|y ns IHns]; intros Hns; cbn [scan_neighbors]; [done|].
    destruct (decide (y ∈ known)) as [Hk|Hk].
    - destruct (Hsucc y) as [Hne Hb]; [apply Hns; left|done|].
      rewrite lookup_insert_ne, Hb by done. apply IHns. set_solver.
    - rewrite lookup_insert_ne by congruence.
      replace (color !! y) with (@None Color); [apply IHns; set_solver|].
      symmetry. apply not_elem_of_dom. by rewrite (vi_dom _ _ Hi). }
  rewrite Hscan by done. by rewrite insert_insert_eq, insert_id.
Qed.

Lemma visit_all_spec fuel starts color fin :
  visit_inv color fin → (∀ y, color !! y ≠ Some GRAY) → white_count color < fuel + 1 →
  (∀ y, y ∈ starts → y ∈ known) → (∀ y, y ∈ known → y ∈ starts ∨ y ∈ fin) →
  ∃ b, visit_all (S fuel) adj starts color = Some b ∧ (b = true ↔ cyclic R).
Proof.
  revert color fin. induction starts as [|x starts IH]; intros color fin Hi Hng Hw Hk Hcov;
    cbn [visit_all].
  - exists false. split; [done|]. split; [done|]. intros [x Hx]. exfalso.
    assert (Hxk : x ∈ known) by (apply tc_inv in Hx as [(?&?)|(?&(?&?)&_)]; done).
    apply (closed_order_acyclic R fin x); [apply Hi|apply Hi| |done].
    by destruct (Hcov x Hxk) as [?%not_elem_of_nil|].
  - assert (Hxc : is_Some (color !! x)).
    { apply elem_of_dom. rewrite (vi_dom _ _ Hi). apply Hk. left. }
    destruct Hxc as [[] Hx]; [|by apply Hng in Hx|].
    + destruct (dfs_spec fuel x color fin Hi Hx Hw) as (b & color' & -> & Hr).
      { intros g Hg. by apply Hng in Hg. }
      destruct b; [by exists true|]. destruct Hr as (fin' & (Hi' & Hsub & Hg & Hwc) & Hxf).
      apply (IH color' fin' Hi').
      * intros y. by rewrite Hg.
      * lia.
      * set_solver.
      * intros y Hy. destruct (Hcov y Hy) as [[->|?]%elem_of_cons|?]; auto.
    + rewrite (dfs_finished fuel x color fin) by done.
      apply (IH color fin Hi Hng Hw); [set_solver|]. intros y Hy.
      destruct (Hcov y Hy) as [[->|?]%elem_of_cons|?]; auto. right. by apply (vi_black _ _ Hi).
Qed.
End search.

(** ** The resolver *)

Section resolver.
Context `{HO : HashOrder}.

Definition graph_edge (graph : WorkflowGraph) (x y : string) : Prop :=
  x ∈ node_ids graph ∧ y ∈ node_ids graph ∧ (x, y) ∈ edge_pairs graph.

Lemma resolver_has_cycle_spec (graph : WorkflowGraph) :
  ∃ b, has_cycle graph = Some b ∧ (b = true ↔ cyclic (graph_edge graph)).
Proof.
  unfold has_cycle. set (ids := node_ids graph). set (adj := adjacency_all ids _).
  set (color := foldl _ _ _).
  assert (Hcol : ∀ x, color !! x = if bool_decide (x ∈ ids) then Some WHITE else None).
  { intros x. unfold color. by rewrite lookup_white, lookup_empty. }
  set (starts := (filter _ (hash_iter color)).*1).
  assert (Hst : ∀ x, x ∈ starts ↔ x ∈ ids).
  { intros x. unfold starts. rewrite list_elem_of_fmap. split.
    - intros ([y c] & -> & [_ H]%list_elem_of_filter). apply elem_of_hash_iter in H.
      rewrite Hcol in H. by case_bool_decide.
    - intros Hx. exists (x, WHITE). split; [done|]. apply list_elem_of_filter. split; [done|].
      apply elem_of_hash_iter. by rewrite Hcol, bool_decide_true. }
  destruct (visit_all_spec adj (list_to_set ids) (size color) starts color [])
    as (b & Hb & Hiff).
  - split; [|..|apply NoDup_nil_2|apply closed_order_nil].
    + apply set_eq. intros x. rewrite elem_of_dom, Hcol, elem_of_list_to_set.
      case_bool_decide; split; [done|eauto|by intros [??]|done].
    + intros x. rewrite Hcol. split; [by case_bool_decide|by intros ?%not_elem_of_nil].
  - intros x. rewrite Hcol. by case_bool_decide.
  - pose proof (white_count_le color). lia.
  - intros x ?%Hst. by apply elem_of_list_to_set.
  - intros x ?%elem_of_list_to_set. left. by apply Hst.
  - exists b. split; [done|]. rewrite Hiff.
    assert (HR : ∀ x y, known_edge adj (list_to_set ids) x y ↔ graph_edge graph x y).
    { intros x y. unfold known_edge, graph_edge, adj.
      by rewrite !elem_of_list_to_set, nbrs_adjacency_all, elem_of_succs. }
    unfold cyclic. split; intros [x Hx]; exists x;
      (eapply tc_congruence with (f := id); [|exact Hx]); intros; by apply HR.
Qed.

(** A graph the resolver accepts. *)
Record graph_wf (graph : WorkflowGraph) : Prop := {
  gw_ends : ∀ x y, (x, y) ∈ edge_pairs graph → x ∈ node_ids graph ∧ y ∈ node_ids graph;
  gw_acyclic : ¬ cyclic (λ x y, (x, y) ∈ edge_pairs graph);
}.

Lemma validate_spec (graph : WorkflowGraph) :
  ∃ valid errors, validate graph = Some (valid, errors)
    ∧ (valid = true ↔ errors = []) ∧ (valid = true ↔ graph_wf graph).
Proof.
  unfold validate. destruct (resolver_has_cycle_spec graph) as (b & -> & Hb).
  set (errs := mjoin _). do 2 eexists. split; [done|].
  rewrite bool_decide_eq_true. split; [done|].
  assert (He : errs = [] ↔ ∀ x y, (x, y) ∈ edge_pairs graph →
    x ∈ node_ids graph ∧ y ∈ node_ids graph).
  { apply endpoint_errors_nil. }
  rewrite app_nil, He. split.
  - intros [Hends Hnb]. split; [done|]. intros Hc. destruct b; [done|].
    assert (false = true); [|done]. apply Hb. destruct Hc as [x Hx]. exists x.
    eapply tc_congruence with (f := id); [|exact Hx]. intros a c ?.
    destruct (Hends a c); [done|]. by split_and!.
  - intros [Hends Hac]. split; [done|]. destruct b; [|done]. exfalso. apply Hac.
    destruct (proj1 Hb eq_refl) as [x Hx]. exists x.
    eapply tc_congruence with (f := id); [|exact Hx]. by intros a c (_&_&?).
Qed.

(** *** Waves *)

Lemma relax_wave_inv ids edges deg res ready q deg' out :
  kahn_inv edges (kahn_nodes ids edges) deg res (ready ++ q) →
  relax_wave (dependents_of ids edges) ready deg = (deg', out) →
  kahn_inv edges (kahn_nodes ids edges) deg' (res ++ ready) (q ++ out).
Proof.
  revert deg res q out. induction ready as [|x ready IH]; intros deg res q out Hk Hr; simpl in Hr.
  - injection Hr as <- <-. by rewrite !app_nil_r.
  - assert (Hrel : (match dependents_of ids edges !! x with
      | Some deps => relax deps deg | None => (deg, []) end)
      = relax (nbrs (dependents_of ids edges) x) deg).
    { unfold nbrs. by destruct (dependents_of ids edges !! x). }
    rewrite Hrel, nbrs_dependents_of in Hr.
    destruct (relax (succs edges x) deg) as [deg1 out1] eqn:H1.
    destruct (relax_wave _ ready deg1) as [deg2 out2] eqn:H2. injection Hr as <- <-.
    simpl in Hk. pose proof (kahn_inv_step _ _ _ _ _ _ _ _ _ Hk (reflexivity _) H1) as Hk1.
    rewrite <-(assoc_L (++)) in Hk1. apply (IH _ _ _ _ Hk1) in H2.
    by rewrite cons_middle, !(assoc_L (++)).
Qed.

(** Every node is in a later wave than its predecessors, and as early as they
    allow. *)
Record layered (edges : list (string * string)) (waves : list (list string)) : Prop := {
  ly_after : ∀ ws1 w ws2, waves = ws1 ++ w :: ws2 →
    ∀ x y, y ∈ w → (x, y) ∈ edges → x ∈ mjoin ws1;
  ly_tight : ∀ ws1 w w' ws2, waves = ws1 ++ w :: w' :: ws2 →
    ∀ y, y ∈ w' → ∃ x, x ∈ w ∧ (x, y) ∈ edges;
}.

Lemma layered_snoc edges waves w :
  layered edges waves →
  (∀ x y, y ∈ w → (x, y) ∈ edges → x ∈ mjoin waves) →
  (∀ ws v, waves = ws ++ [v] → ∀ y, y ∈ w → ∃ x, x ∈ v ∧ (x, y) ∈ edges) →
  layered edges (waves ++ [w]).
Proof.
  intros [Ha Ht] Hafter Htight. split.
  - intros ws1 v ws2 E. destruct ws2 as [|v' ws2 _] using rev_ind.
    + apply app_inj_tail in E as [<- <-]. eauto.
    + rewrite app_comm_cons, (assoc_L (++)) in E. apply app_inj_tail in E as [-> _]. eauto.
  - intros ws1 v v' ws2 E. destruct ws2 as [|u ws2 _] using rev_ind.
    + rewrite (cons_middle v), (assoc_L (++)) in E. apply app_inj_tail in E as [-> ->]. eauto.
    + rewrite !app_comm_cons, (assoc_L (++)) in E. apply app_inj_tail in E as [-> _]. eauto.
Qed.

Lemma wave_loop_spec ids edges fuel ready deg waves :
  kahn_inv edges (kahn_nodes ids edges) deg (mjoin waves) ready →
  (size (kahn_nodes ids edges) ≤ fuel + length (mjoin waves))%nat →
  layered edges waves →
  (∀ ws v, waves = ws ++ [v] → ∀ y, y ∈ ready → ∃ x, x ∈ v ∧ (x, y) ∈ edges) →
  ∃ waves' deg', wave_loop fuel (dependents_of ids edges) ready deg waves = Some waves'
    ∧ kahn_inv edges (kahn_nodes ids edges) deg' (mjoin waves') []
    ∧ layered edges waves'.
Proof.
  revert ready deg waves. induction fuel as [|fuel IH]; intros [|r ready] deg waves Hk Hf Hlay Hti;
    cbn [wave_loop]; [eauto 10| |eauto 10|].
  - apply kahn_inv_length in Hk. simpl in Hk. lia.
  - destruct (relax_wave _ _ _) as [deg' next] eqn:Hr.
    set (w := r :: ready) in *.
    assert (Hjoin : mjoin (waves ++ [w]) = mjoin waves ++ w).
    { rewrite join_app. simpl. by rewrite app_nil_r. }
    assert (Hnext : kahn_inv edges (kahn_nodes ids edges) deg' (mjoin (waves ++ [w]))
      (sort_strings next)).
    { rewrite Hjoin. rewrite <-(app_nil_r w) in Hk.
      eapply kahn_inv_perm; [|exact (relax_wave_inv _ _ _ _ _ _ _ _ Hk Hr)].
      unfold sort_strings. by rewrite sort_by_perm. }
    apply IH.
    + exact Hnext.
    + rewrite Hjoin, length_app. unfold w. simpl. lia.
    + apply layered_snoc; [done| |done]. intros x y Hy Hxy.
      destruct (proj1 (kh_ready _ _ _ _ _ Hk y)) as [_ H0]; [apply elem_of_app; by right|].
      by apply (proj1 (indeg_0 _ _ _) H0).
    + intros ws v [<- <-]%app_inj_tail y Hy.
      destruct (proj1 (kh_ready _ _ _ _ _ Hnext y)) as [HyV H0]; [apply elem_of_app; by right|].
      assert (Hny : y ∉ mjoin (waves ++ [w])).
      { pose proof (kh_nodup _ _ _ _ _ Hnext) as (_ & Hd & _)%NoDup_app. by intros ?%Hd. }
      rewrite Hjoin in Hny, H0.
      destruct (decide (indeg edges (mjoin waves) y = 0%Z)) as [E|E].
      * destruct Hny. by apply (kh_ready _ _ _ _ _ Hk).
      * apply indeg_pos in E as (x & Hxy & Hx). exists x. split; [|done].
        apply (proj1 (indeg_0 _ _ _) H0) in Hxy. set_solver.
Qed.

Lemma execution_order_valid (graph : WorkflowGraph) :
  graph_wf graph →
  ∃ waves, execution_order graph = Some waves
    ∧ NoDup (mjoin waves) ∧ (∀ x, x ∈ mjoin waves ↔ x ∈ node_ids graph)
    ∧ layered (edge_pairs graph) waves
    ∧ (∀ pre y post, mjoin waves = pre ++ y :: post →
         ∀ x, (x, y) ∈ edge_pairs graph → x ∈ pre).
Proof.
  intros Hwf. unfold execution_order.
  destruct (validate_spec graph) as (valid & errs & -> & _ & Hv).
  apply Hv in Hwf as Hvt. rewrite Hvt. destruct Hwf as [Hends Hac].
  set (ids := node_ids graph). set (edges := edge_pairs graph).
  destruct (wave_loop_spec ids edges (size (in_degrees ids edges))
    (sort_strings (filter (λ p : string * Z, p.2 = 0%Z) (hash_iter (in_degrees ids edges))).*1)
    (in_degrees ids edges) []) as (waves & deg & Hw & Hk & Hlay).
  - apply kahn_inv_init. unfold sort_strings. rewrite sort_by_perm, hash_iter_perm. done.
  - rewrite in_degrees_size. simpl. lia.
  - split; intros [|? ?]; discriminate.
  - intros [|? ?]; discriminate.
  - exists waves. split; [exact Hw|]. rewrite (kahn_nodes_ids ids edges) in Hk by done.
    destruct (kahn_inv_done _ _ _ _ Hk) as (Hnd & Hmem & Hord); [|exact Hac|].
    { intros x y Hxy. rewrite !elem_of_list_to_set. by apply Hends. }
    split_and!; [done| |done|exact Hord]. intros x. by rewrite Hmem, elem_of_list_to_set.
Qed.

Lemma execution_order_invalid (graph : WorkflowGraph) :
  ¬ graph_wf graph → execution_order graph = Some [].
Proof.
  intros Hwf. unfold execution_order.
  destruct (validate_spec graph) as (valid & errs & -> & _ & Hv).
  destruct valid; [|done]. destruct Hwf. by apply Hv.
Qed.
End resolver.

(** The iteration order of the hash maps does not reach the result. *)
Lemma validate_hash_order (H1 H2 : HashOrder) (graph : WorkflowGraph) :
  @validate H1 graph = @validate H2 graph.
Proof.
  unfold validate. destruct (@resolver_has_cycle_spec H1 graph) as (b1 & -> & Hb1).
  destruct (@resolver_has_cycle_spec H2 graph) as (b2 & -> & Hb2).
  assert (b1 = b2) as ->; [|done]. apply eq_bool_prop_intro. rewrite !Is_true_true. tauto.
Qed.

Lemma execution_order_hash_order (H1 H2 : HashOrder) (graph : WorkflowGraph) :
  @execution_order H1 graph = @execution_order H2 graph.
Proof.
  unfold execution_order. rewrite (validate_hash_order H1 H2).
  destruct (@validate H2 graph) as [[[] ?]|]; [|done|done]. f_equal.
  apply sort_strings_perm_eq. by rewrite (@hash_iter_perm H1), (@hash_iter_perm H2).
Qed.
