(* ===== verification/GraphOps.v ===== *)
(** * The graph interface

    The trait [GraphOperations] of workflow/graph_operations.rs as a class, what
    it promises as laws on an abstract view of the graph, and its two
    implementations: the DAG manager and the resolver's [ResolvableGraph].  The
    client theorem is proved from the laws alone. *)

From S2P Require Import Prelude Text Json Graph DagManager DagCycle DagProps DagQueries Float64 Orchestration ResolverProps.
From stdpp Require Import relations.

Class GraphOperations (G : Type) : Type := {
  go_validate : G → option (bool * list string);
  go_topological_order : G → option (list string);
  go_ready_nodes : G → gset string → list string;
}.

(** The nodes, the edges and the pending nodes of a graph. *)
Class GraphView (G : Type) : Type := {
  gv_ids : G → list string;
  gv_edges : G → list (string * string);
  gv_pending : G → string → Prop;
}.

Definition sound {G} `{GraphView G} (g : G) : Prop :=
  (∀ x y, (x, y) ∈ gv_edges g → x ∈ gv_ids g ∧ y ∈ gv_ids g)
  ∧ ¬ cyclic (λ x y, (x, y) ∈ gv_edges g).

Class LawfulGraph (G : Type) `{GraphOperations G} `{GraphView G} : Prop := {
  law_validate (g : G) : ∃ valid errors, go_validate g = Some (valid, errors)
    ∧ (valid = true ↔ errors = []) ∧ (valid = true ↔ sound g);
  law_order (g : G) : sound g →
    ∃ order, go_topological_order g = Some order
      ∧ (∀ x, x ∈ order ↔ x ∈ gv_ids g) ∧ NoDup order
      ∧ ∀ pre y post, order = pre ++ y :: post → ∀ x, (x, y) ∈ gv_edges g → x ∈ pre;
  law_ready (g : G) (completed : gset string) y :
    y ∈ gv_ids g → gv_pending g y → y ∉ completed →
    (∀ x, (x, y) ∈ gv_edges g → x ∈ completed) → y ∈ go_ready_nodes g completed;
  law_ready_sorted (g : G) (completed : gset string) :
    StronglySorted (λ a b, String.leb a b = true) (go_ready_nodes g completed);
}.

(** ** A client: running the nodes in topological order *)

Lemma order_never_blocks {G} `{LawfulGraph G} (g : G) errors :
  go_validate g = Some (true, errors) → (∀ y, y ∈ gv_ids g → gv_pending g y) →
  ∃ order, go_topological_order g = Some order
    ∧ (∀ x, x ∈ order ↔ x ∈ gv_ids g) ∧ NoDup order
    ∧ ∀ pre y post, order = pre ++ y :: post → y ∈ go_ready_nodes g (list_to_set pre).
Proof.
  intros Hv Hp. destruct (law_validate g) as (valid & errs & E & _ & Hs).
  rewrite Hv in E. injection E as <- <-.
  destruct (law_order g (proj1 Hs eq_refl)) as (order & Ho & Hmem & Hnd & Hord).
  exists order. split_and!; [done..|]. intros pre y post E.
  assert (Hy : y ∈ gv_ids g) by (apply Hmem; rewrite E; set_solver).
  apply law_ready; [done|by apply Hp| |].
  - rewrite elem_of_list_to_set. subst order. apply NoDup_app in Hnd as (_ & Hd & _).
    intros Hin. apply (Hd y Hin). left.
  - intros x Hx. apply elem_of_list_to_set. by eapply Hord.
Qed.

(** ** [impl GraphOperations for DAGManager] *)

Section dag.
Context {V : Type} `{JV : JsonValue V}.

#[export] Instance dag_operations : GraphOperations (DAGManager (V := V)) := {|
  go_validate self := (λ errors, (bool_decide (errors = []), errors)) <$> validate_dag self;
  go_topological_order self := DagManager.topological_order self;
  go_ready_nodes self completed := node_id <$> nodes_ready self completed;
|}.

#[export] Instance dag_view : GraphView (DAGManager (V := V)) := {|
  gv_ids self := ids_of (dag_nodes (state self));
  gv_edges self := pairs_of (dag_edges (state self));
  gv_pending self y :=
    ∀ n, n ∈ dag_nodes (state self) → node_id n = y → node_status n = "pending";
|}.

#[export] Instance dag_lawful : LawfulGraph (DAGManager (V := V)).
Proof.
  split.
  - intros m. destruct (validate_dag_spec m) as (errors & E & Hs).
    eexists _, errors. cbn [go_validate dag_operations]. rewrite E. split; [done|].
    by rewrite bool_decide_eq_true.
  - intros m [Hends Hac]. cbn in *.
    destruct (topological_loop_complete _ _ Hends) as (order & deg & Ho & Hk).
    exists order. split; [exact Ho|]. rewrite (kahn_nodes_ids _ _ Hends) in Hk.
    destruct (kahn_inv_done _ _ _ _ Hk) as (Hnd & Hmem & Hord); [|exact Hac|].
    { intros x y Hxy. rewrite !elem_of_list_to_set. by apply Hends. }
    split_and!; [|done..]. intros x. by rewrite Hmem, elem_of_list_to_set.
  - intros m completed y (n & -> & Hn)%list_elem_of_fmap Hp Hy Hd. cbn in *.
    apply list_elem_of_fmap. exists n. split; [done|].
    unfold nodes_ready. rewrite elem_of_sort_by. apply list_elem_of_filter.
    split_and!; [intros [?|Hs]; [done|by apply Hs, Hp]| |done].
    apply Forall_forall. intros e [Hto He]%list_elem_of_filter. apply Hd.
    apply list_elem_of_fmap. exists e. by rewrite Hto.
  - intros m completed. cbn. unfold nodes_ready.
    eapply StronglySorted_fmap; [|apply sort_by_sorted; intros; [apply str_leb_total|by eapply str_leb_trans]]. done.
Qed.
End dag.

(** ** [impl GraphOperations for ResolvableGraph] *)

Section resolvable.
Context `{HO : HashOrder}.
Import DependencyResolver.

#[export] Instance resolvable_operations : GraphOperations WorkflowGraph := {|
  go_validate graph := validate graph;
  go_topological_order graph := resolvable_topological_order graph;
  go_ready_nodes graph completed := resolvable_ready_nodes graph completed;
|}.

#[export] Instance resolvable_view : GraphView WorkflowGraph := {|
  gv_ids graph := node_ids graph;
  gv_edges graph := edge_pairs graph;
  gv_pending graph y := ∀ n, n ∈ wg_nodes graph → wn_node_id n = y → wn_status n = "pending";
|}.

#[export] Instance resolvable_lawful : LawfulGraph WorkflowGraph.
Proof.
  split.
  - intros g. destruct (validate_spec g) as (valid & errors & E & He & Hv).
    exists valid, errors. split_and!; [done..|]. rewrite Hv. unfold sound. cbn.
    split; intros []; by split.
  - intros g [Hends Hac]. destruct (execution_order_valid g) as (waves & E & Hnd & Hmem & _ & Hord);
      [by split|]. exists (mjoin waves). cbn. unfold resolvable_topological_order. by rewrite E.
  - intros g completed y (n & -> & Hn)%list_elem_of_fmap Hp _ Hd. cbn in *.
    unfold resolvable_ready_nodes, sort_strings. rewrite elem_of_sort_by.
    apply list_elem_of_fmap. exists n. split; [done|]. apply list_elem_of_filter.
    split_and!; [by apply Hp| |done]. apply Forall_forall. unfold dependencies_of.
    intros d (e & -> & [[Hto _] He]%list_elem_of_filter)%list_elem_of_fmap.
    apply Hd, list_elem_of_fmap. exists e. by rewrite Hto.
  - intros g completed. apply sort_strings_sorted.
Qed.
End resolvable.
