(* ===== verification/EngineProps.v ===== *)
(** * Properties of the workflow engine

    With distinct node ids the queue operations update one node each.  A tick
    starts exactly the nodes that are ready and settles the workflow by one
    verdict on its nodes. *)

From S2P Require Import Prelude Text Graph Float64 Orchestration ResolverProps.
From stdpp Require Import relations.

Import DependencyResolver.

(** ** Updating one node *)

Definition map_nodes (f : WorkflowNode → WorkflowNode) (g : WorkflowGraph) : WorkflowGraph :=
  g <| wg_nodes := f <$> wg_nodes g |>.

Definition only (node_id : string) (f : WorkflowNode → WorkflowNode) (n : WorkflowNode) :=
  if bool_decide (wn_node_id n = node_id) then f n else n.

Lemma map_nodes_ext f h g :
  (∀ n, n ∈ wg_nodes g → f n = h n) → map_nodes f g = map_nodes h g.
Proof.
  intros Hext. unfold map_nodes. by rewrite (list_fmap_ext f h (wg_nodes g))
    by (intros i n Hn; apply Hext; by eapply list_elem_of_lookup_2).
Qed.

Lemma map_nodes_id f g : (∀ n, n ∈ wg_nodes g → f n = n) → map_nodes f g = g.
Proof.
  intros Hid. rewrite (map_nodes_ext f id) by done. unfold map_nodes.
  rewrite list_fmap_id. by destruct g.
Qed.

Lemma map_nodes_compose f h g : map_nodes f (map_nodes h g) = map_nodes (f ∘ h) g.
Proof. unfold map_nodes. destruct g. cbn. by rewrite list_fmap_compose. Qed.

Lemma node_ids_map_nodes f g :
  (∀ n, wn_node_id (f n) = wn_node_id n) → node_ids (map_nodes f g) = node_ids g.
Proof.
  intros Hf. unfold node_ids, map_nodes. destruct g. cbn. rewrite <-list_fmap_compose.
  apply list_fmap_ext. intros. apply Hf.
Qed.

Lemma queue_find_Some g id n :
  WorkQueue.find_node g id = Some n → n ∈ wg_nodes g ∧ wn_node_id n = id.
Proof.
  unfold WorkQueue.find_node. intros [Hin Hb]%List.find_some.
  apply bool_decide_eq_true in Hb. by apply list_elem_of_In in Hin.
Qed.

Lemma queue_find_None g id n :
  WorkQueue.find_node g id = None → n ∈ wg_nodes g → wn_node_id n ≠ id.
Proof.
  unfold WorkQueue.find_node. intros Hf Hn%list_elem_of_In E.
  eapply List.find_none in Hf; [|exact Hn]. by rewrite bool_decide_true in Hf.
Qed.

Section distinct.
Context (g : WorkflowGraph).
Hypothesis Hnd : NoDup (node_ids g).

Lemma node_unique n m :
  n ∈ wg_nodes g → m ∈ wg_nodes g → wn_node_id n = wn_node_id m → n = m.
Proof using Hnd. by apply NoDup_fmap_eq. Qed.

(** Every queue operation finds the node, builds its replacement and puts it
    in its place. *)
Lemma replace_found f id :
  match WorkQueue.find_node g id with
  | None => g
  | Some n => WorkQueue.replace_node g id (f n)
  end = map_nodes (only id f) g.
Proof using Hnd.
  destruct (WorkQueue.find_node g id) as [n|] eqn:Hf.
  - apply queue_find_Some in Hf as [Hn Hid]. apply map_nodes_ext. intros m Hm.
    unfold only. case_bool_decide as E; [|done]. f_equal. apply node_unique; [done..|congruence].
  - symmetry. apply map_nodes_id. intros m Hm. unfold only. rewrite bool_decide_false; [done|].
    by eapply queue_find_None.
Qed.
End distinct.

(** A sequence of such updates at distinct ids is one update of all of them. *)
Lemma foldl_updates (op : WorkflowGraph → string → WorkflowGraph)
    (f : WorkflowNode → WorkflowNode) (ids : list string) (g : WorkflowGraph) :
  (∀ n, wn_node_id (f n) = wn_node_id n) →
  (∀ g id, NoDup (node_ids g) → op g id = map_nodes (only id f) g) →
  NoDup (node_ids g) → NoDup ids →
  foldl op g ids = map_nodes (λ n, if bool_decide (wn_node_id n ∈ ids) then f n else n) g.
Proof.
  intros Hf Hop. revert g. induction ids as [|id ids IH]; intros g Hg Hids; simpl.
  - symmetry. apply map_nodes_id. done.
  - apply NoDup_cons in Hids as [Hid Hids].
    assert (Hko : ∀ n, wn_node_id (only id f n) = wn_node_id n).
    { intros n. unfold only. case_bool_decide; auto. }
    rewrite Hop, IH by (try rewrite node_ids_map_nodes; done). rewrite map_nodes_compose.
    apply map_nodes_ext. intros n _. cbn. rewrite Hko. unfold only.
    destruct (decide (wn_node_id n = id)) as [->|Hne].
    + by rewrite (bool_decide_true (id = id)), bool_decide_false, bool_decide_true by set_solver.
    + rewrite (bool_decide_false (wn_node_id n = id)) by done.
      erewrite bool_decide_ext; [done|set_solver].
Qed.

(** [WorkflowNode] with a new status, as [WorkQueue::update_node] builds it. *)
Definition with_status (status : string) (n : WorkflowNode) : WorkflowNode :=
  n <| wn_status := status |>
    <| wn_started_at :=
         if bool_decide (status = "running") && is_none (wn_started_at n)
         then Some "now" else wn_started_at n |>
    <| wn_completed_at :=
         if bool_decide (status = "completed") || bool_decide (status = "failed")
         then Some "now" else wn_completed_at n |>.

Definition cancelled (n : WorkflowNode) : WorkflowNode :=
  if WorkQueue.is_final (wn_status n) then n else with_status "cancelled" n.

Lemma start_update g id :
  NoDup (node_ids g) → WorkQueue.start g id = map_nodes (only id (with_status "running")) g.
Proof. intros Hg. by rewrite <-replace_found. Qed.

Lemma cancel_update g id :
  NoDup (node_ids g) → WorkQueue.cancel g id = map_nodes (only id cancelled) g.
Proof.
  intros Hg. rewrite <-(replace_found _ Hg cancelled id). unfold WorkQueue.cancel, cancelled.
  unfold WorkQueue.update_node. destruct (WorkQueue.find_node g id) as [n|] eqn:Hf; [|done].
  destruct (WorkQueue.is_final (wn_status n)); [|done]. apply queue_find_Some in Hf as [Hn Hid].
  symmetry. apply (map_nodes_id (only id (λ _, n))). intros m Hm. unfold only.
  case_bool_decide; [|done]. apply (node_unique g Hg); [done..|congruence].
Qed.

(** ** Starting nodes *)

(** A node is ready when it is pending and every dependency edge into it comes
    from a completed node. *)
Definition startable (g : WorkflowGraph) (n : WorkflowNode) : Prop :=
  wn_status n = "pending" ∧
  ∀ e, e ∈ wg_edges g → we_to_node_id e = wn_node_id n → we_edge_type e = "dependency" →
    ∃ m, m ∈ wg_nodes g ∧ wn_node_id m = we_from_node_id e ∧ wn_status m = "completed".

Definition ready_b (g : WorkflowGraph) (n : WorkflowNode) : bool :=
  bool_decide (wn_status n = "pending"
    ∧ Forall (λ d, d ∈ wn_node_id <$> filter (λ m, wn_status m = "completed") (wg_nodes g))
        (dependencies_of g (wn_node_id n))).

Lemma ready_b_startable g n : ready_b g n = true ↔ startable g n.
Proof.
  unfold ready_b, startable, dependencies_of. rewrite bool_decide_eq_true. apply and_iff_compat_l.
  rewrite Forall_forall. split.
  - intros Hd e He Ht Hty.
    destruct (proj1 (list_elem_of_fmap _ _ _) (Hd (we_from_node_id e)
      (list_elem_of_fmap_2 _ _ _ (proj2 (list_elem_of_filter _ _ _) (conj (conj Ht Hty) He)))))
      as (m & E & [Hs Hm]%list_elem_of_filter). eauto.
  - intros Hd d (e & -> & [[Ht Hty] He]%list_elem_of_filter)%list_elem_of_fmap.
    destruct (Hd e He Ht Hty) as (m & Hm & <- & Hs). apply list_elem_of_fmap_2.
    by apply list_elem_of_filter.
Qed.

Lemma elem_of_ready_nodes g n :
  NoDup (node_ids g) → n ∈ wg_nodes g → wn_node_id n ∈ ready_nodes g ↔ ready_b g n = true.
Proof.
  intros Hg Hn. unfold ready_nodes, sort_strings, ready_b.
  rewrite elem_of_sort_by, list_elem_of_fmap, bool_decide_eq_true. split.
  - intros (m & E & [Hs Hm]%list_elem_of_filter). by rewrite (node_unique g Hg n m).
  - intros H. exists n. split; [done|]. by apply list_elem_of_filter.
Qed.

Lemma NoDup_ready_nodes g : NoDup (node_ids g) → NoDup (ready_nodes g).
Proof.
  intros Hg. unfold ready_nodes, sort_strings. rewrite sort_by_perm.
  eapply sublist_NoDup; [exact Hg|]. apply fmap_sublist, sublist_filter.
Qed.

Lemma start_ready_nodes_spec g :
  NoDup (node_ids g) →
  WorkflowEngine.start_ready_nodes g =
  map_nodes (λ n, if ready_b g n then with_status "running" n else n) g.
Proof.
  intros Hg. unfold WorkflowEngine.start_ready_nodes.
  rewrite (foldl_updates _ (with_status "running")); [|done|apply start_update|done|].
  - apply map_nodes_ext. intros n Hn. case_bool_decide as E;
      rewrite (elem_of_ready_nodes g n Hg Hn) in E; by destruct (ready_b g n).
  - by apply NoDup_ready_nodes.
Qed.

(** ** The verdict of a tick *)

Section tick.
Context `{HO : HashOrder} (short_id : nat → string).

Definition overrun (g : WorkflowGraph) : bool :=
  f64_gtb (f64_sum (wn_budget <$> wg_nodes g)) f64_zero
  && f64_gtb (f64_sum (wn_cost_incurred <$> wg_nodes g)) (f64_sum (wn_budget <$> wg_nodes g)).

(** Of the conflicts detected only a budget overrun cancels the workflow. *)
Lemma conflict_specs_overrun g :
  "budget_overrun" ∈ (ConflictResolver.conflict_specs g).*1 ↔ overrun g = true.
Proof.
  unfold ConflictResolver.conflict_specs, overrun. rewrite !fmap_app, !elem_of_app.
  rewrite !list_elem_of_fmap. split.
  - intros [H|[H|[H|H]]]; destruct H as ([ty ids] & E & H).
    + destruct (wn_node_id <$> _); [by apply not_elem_of_nil in H|].
      apply list_elem_of_singleton in H. simplify_eq.
    + apply list_elem_of_fmap in H as (? & ? & _). simplify_eq.
    + apply list_elem_of_fmap in H as (? & ? & _). simplify_eq.
    + destruct (_ && _); [done|]. by apply not_elem_of_nil in H.
  - intros ->. right; right; right. eexists. split; [|apply list_elem_of_singleton; reflexivity].
    done.
Qed.

Lemma resolve_cancels c :
  cr_resolution_result (ConflictResolver.resolve c) = Some "workflow_cancelled" ↔
  cr_conflict_type c = "budget_overrun".
Proof.
  unfold ConflictResolver.resolve. cbn [cr_resolution_result].
  repeat case_bool_decide; naive_solver congruence.
Qed.

Lemma detect_conflicts_unresolved g c :
  c ∈ ConflictResolver.detect_conflicts short_id g →
  cr_resolution_strategy c = None ∧ cr_conflict_type c ∈ (ConflictResolver.conflict_specs g).*1.
Proof.
  unfold ConflictResolver.detect_conflicts. intros (i & [ty ids] & -> & Hi)%elem_of_lookup_imap_1.
  split; [done|]. apply list_elem_of_fmap. exists (ty, ids). split; [done|].
  by eapply list_elem_of_lookup_2.
Qed.

Lemma resolve_conflicts_spec g :
  WorkflowEngine.resolve_conflicts g (ConflictResolver.detect_conflicts short_id g) =
  if overrun g then WorkflowEngine.set_status g "cancelled" else g.
Proof.
  unfold WorkflowEngine.resolve_conflicts.
  assert (Hiff : existsb (λ c, bool_decide (cr_resolution_result (ConflictResolver.resolve c)
      = Some "workflow_cancelled")) (ConflictResolver.detect_conflicts short_id g) = true
      ↔ overrun g = true).
  { rewrite <-conflict_specs_overrun, existsb_exists. split.
    - intros (c & Hc%list_elem_of_In & H%bool_decide_eq_true). apply resolve_cancels in H.
      rewrite <-H. by apply detect_conflicts_unresolved.
    - intros ([ty ids] & E & [i Hi]%list_elem_of_lookup)%list_elem_of_fmap. simpl in E. subst ty.
      eexists. split; [apply list_elem_of_In|apply bool_decide_eq_true, resolve_cancels].
      + unfold ConflictResolver.detect_conflicts. apply elem_of_lookup_imap. eauto.
      + done. }
  destruct (existsb _ _), (overrun g); naive_solver.
Qed.

Lemma unresolved_all g :
  filter (λ c, cr_resolution_strategy c = None) (ConflictResolver.detect_conflicts short_id g)
  = ConflictResolver.detect_conflicts short_id g.
Proof. apply filter_all. intros c Hc. by destruct (detect_conflicts_unresolved g c Hc). Qed.

(** The tick's handling of the conflicts of a workflow not yet cancelled. *)
Lemma resolved_conflicts g :
  wg_status g ≠ "cancelled" →
  let conflicts := ConflictResolver.detect_conflicts short_id g in
  let resolved := match conflicts with
                  | [] => g
                  | _ => WorkflowEngine.resolve_conflicts g conflicts
                  end in
  resolved = (if overrun g then WorkflowEngine.set_status g "cancelled" else g)
  ∧ (negb (bool_decide (conflicts = [])) && bool_decide (wg_status resolved = "cancelled"))
    = overrun g.
Proof.
  intros Hs conflicts resolved.
  assert (Hr : resolved = if overrun g then WorkflowEngine.set_status g "cancelled" else g).
  { unfold resolved. rewrite <-resolve_conflicts_spec. fold conflicts. by destruct conflicts. }
  split; [done|]. rewrite Hr. destruct (overrun g) eqn:Ho.
  - rewrite (bool_decide_true (wg_status _ = _)) by done. rewrite bool_decide_false; [done|].
    intros E. apply conflict_specs_overrun in Ho.
    unfold conflicts, ConflictResolver.detect_conflicts in E. apply (f_equal length) in E.
    rewrite length_imap in E. apply nil_length_inv in E. rewrite E in Ho.
    by apply not_elem_of_nil in Ho.
  - by rewrite (bool_decide_false (wg_status g = _)), andb_false_r by done.
Qed.

(** What a tick decides about a workflow whose nodes are all finished. *)
Definition verdict (self : WorkflowEngine.WorkflowEngine) (g : WorkflowGraph) : string :=
  if overrun g then "cancelled"
  else if WorkflowEngine.check_approval_needed self g then "waiting_human"
  else if existsb WorkflowEngine.failed_or_cancelled (wg_nodes g) then "failed"
  else "completed".

Lemma tick_final self g :
  WorkQueue.is_final (wg_status g) = true → WorkflowEngine.tick short_id self g = g.
Proof. intros Hf. unfold WorkflowEngine.tick. by rewrite Hf. Qed.

Lemma start_ready_nodes_complete g :
  NoDup (node_ids g) → ResultAggregator.is_complete g = true →
  WorkflowEngine.start_ready_nodes g = g.
Proof.
  intros Hg Hc. rewrite start_ready_nodes_spec by done. apply map_nodes_id. intros n Hn.
  unfold ResultAggregator.is_complete in Hc. rewrite forallb_forall in Hc.
  apply list_elem_of_In, Hc in Hn. unfold ready_b. rewrite bool_decide_false; [done|].
  intros [E _]. by rewrite E in Hn.
Qed.

Lemma start_ready_nodes_incomplete g :
  NoDup (node_ids g) → ResultAggregator.is_complete g = false →
  ResultAggregator.is_complete (WorkflowEngine.start_ready_nodes g) = false.
Proof.
  intros Hg Hc. rewrite start_ready_nodes_spec by done. apply not_true_iff_false.
  apply not_true_iff_false in Hc. contradict Hc.
  unfold ResultAggregator.is_complete, map_nodes in *. rewrite forallb_forall in *.
  intros n Hn. assert (Hin : (if ready_b g n then with_status "running" n else n) ∈
    ((λ n, if ready_b g n then with_status "running" n else n) <$> wg_nodes g)).
  { apply list_elem_of_fmap. exists n. split; [done|]. by apply list_elem_of_In. }
  apply list_elem_of_In, Hc in Hin. by destruct (ready_b g n).
Qed.

(** [handle_failed_nodes] only touches the status. *)
Lemma handle_failed_nodes_cases self g :
  WorkflowEngine.handle_failed_nodes self g = g
  ∨ WorkflowEngine.handle_failed_nodes self g = WorkflowEngine.set_status g "waiting_human".
Proof. unfold WorkflowEngine.handle_failed_nodes. destruct (existsb _ _); auto. Qed.

Lemma tick_complete self g :
  NoDup (node_ids g) → WorkQueue.is_final (wg_status g) = false →
  ResultAggregator.is_complete g = true →
  let g' := WorkflowEngine.tick short_id self g in
  wg_status g' = verdict self g ∧ wg_nodes g' = wg_nodes g ∧ wg_edges g' = wg_edges g
  ∧ wg_result g' = (if bool_decide (verdict self g = "completed")
                    then Some (ResultAggregator.aggregate g) else wg_result g).
Proof.
  intros Hg Hf Hc. unfold WorkflowEngine.tick. rewrite Hf, start_ready_nodes_complete, Hc by done.
  set (failed := existsb WorkflowEngine.failed_or_cancelled (wg_nodes g)).
  set (g1 := if failed then _ else g).
  assert (Hg1 : (failed = false ∧ g1 = g) ∨
    (wg_nodes g1 = wg_nodes g ∧ wg_edges g1 = wg_edges g ∧ wg_result g1 = wg_result g
     ∧ WorkQueue.is_final (wg_status g1) = false ∧ failed = true)).
  { unfold g1. destruct failed; [right|by left].
    by destruct (handle_failed_nodes_cases self g) as [->| ->]. }
  rewrite !unresolved_all. unfold verdict. fold failed.
  assert (Hov : overrun g1 = overrun g ∧ WorkflowEngine.check_approval_needed self g1
    = WorkflowEngine.check_approval_needed self g).
  { unfold overrun, WorkflowEngine.check_approval_needed.
    by destruct Hg1 as [[_ ->]|(-> & _)]. }
  destruct Hov as [Hov Hap]. clearbody g1.
  assert (Hst : WorkQueue.is_final (wg_status g1) = false) by naive_solver.
  assert (Hns : wg_status g1 ≠ "failed" ∧ wg_status g1 ≠ "cancelled").
  { split; intros E; by rewrite E in Hst. }
  destruct (resolved_conflicts g1 (proj2 Hns)) as [-> ->]. rewrite Hov.
  destruct (overrun g) eqn:Ho; [naive_solver|]. rewrite Hap.
  destruct (WorkflowEngine.check_approval_needed self g); [naive_solver|].
  rewrite !bool_decide_false by naive_solver. simpl. rewrite andb_true_r.
  destruct Hg1 as [[-> ->]|(? & ? & ? & ? & ->)]; [done|]. done.
Qed.
Lemma tick_incomplete self g :
  NoDup (node_ids g) → WorkQueue.is_final (wg_status g) = false →
  ResultAggregator.is_complete g = false →
  let g' := WorkflowEngine.tick short_id self g in
  wg_status g' = (if bool_decide (wg_status g = "created") || bool_decide (wg_status g = "decomposed")
                  then "running" else wg_status g)
  ∧ wg_nodes g' = wg_nodes (WorkflowEngine.start_ready_nodes g) ∧ wg_edges g' = wg_edges g
  ∧ wg_result g' = wg_result g.
Proof.
  intros Hg Hf Hc. unfold WorkflowEngine.tick.
  rewrite Hf, start_ready_nodes_incomplete by done. rewrite start_ready_nodes_spec by done.
  unfold map_nodes. cbn. destruct (_ || _); done.
Qed.

Lemma tick_nodes self g :
  NoDup (node_ids g) → WorkQueue.is_final (wg_status g) = false →
  wg_nodes (WorkflowEngine.tick short_id self g) =
    (λ n, if ready_b g n then with_status "running" n else n) <$> wg_nodes g.
Proof.
  intros Hg Hf. transitivity (wg_nodes (WorkflowEngine.start_ready_nodes g)).
  - destruct (ResultAggregator.is_complete g) eqn:Hc.
    + rewrite start_ready_nodes_complete by done. by destruct (tick_complete self g Hg Hf Hc) as (_ & ? & _).
    + by destruct (tick_incomplete self g Hg Hf Hc) as (_ & ? & _).
  - by rewrite start_ready_nodes_spec.
Qed.

Lemma tick_edges self g :
  NoDup (node_ids g) → wg_edges (WorkflowEngine.tick short_id self g) = wg_edges g.
Proof.
  intros Hg. destruct (WorkQueue.is_final (wg_status g)) eqn:Hf; [by rewrite tick_final|].
  destruct (ResultAggregator.is_complete g) eqn:Hc.
  - by destruct (tick_complete self g Hg Hf Hc) as (_ & _ & ? & _).
  - by destruct (tick_incomplete self g Hg Hf Hc) as (_ & _ & ? & _).
Qed.

Lemma tick_ids self g :
  NoDup (node_ids g) → node_ids (WorkflowEngine.tick short_id self g) = node_ids g.
Proof.
  intros Hg. destruct (WorkQueue.is_final (wg_status g)) eqn:Hf; [by rewrite tick_final|].
  unfold node_ids. rewrite tick_nodes by done. rewrite <-list_fmap_compose.
  apply list_fmap_ext. intros i n _. cbn. by destruct (ready_b g n).
Qed.

(** *** Polling a workflow: ticks, and the resumption of a waiting one *)

Inductive polled (self : WorkflowEngine.WorkflowEngine) : relation WorkflowGraph :=
  | polled_tick g : polled self g (WorkflowEngine.tick short_id self g)
  | polled_resume g node_id : polled self g (WorkflowEngine.resume_after_approval g node_id).

(** A pending node behind a failed or cancelled one. *)
Record blocked (g : WorkflowGraph) (p f : WorkflowNode) : Prop := {
  bl_ids : NoDup (node_ids g);
  bl_open : WorkQueue.is_final (wg_status g) = false;
  bl_pending : p ∈ wg_nodes g ∧ wn_status p = "pending";
  bl_failed : f ∈ wg_nodes g ∧ WorkflowEngine.failed_or_cancelled f = true;
  bl_edge : ∃ e, e ∈ wg_edges g ∧ we_from_node_id e = wn_node_id f
    ∧ we_to_node_id e = wn_node_id p ∧ we_edge_type e = "dependency";
}.

Lemma failed_or_cancelled_status f :
  WorkflowEngine.failed_or_cancelled f = true ↔
  wn_status f = "failed" ∨ wn_status f = "cancelled".
Proof.
  unfold WorkflowEngine.failed_or_cancelled.
  by rewrite orb_true_iff, !bool_decide_eq_true.
Qed.

Lemma blocked_not_ready g p f : blocked g p f → ready_b g p = false ∧ ready_b g f = false.
Proof.
  intros [Hg _ [Hp _] [Hf Hs%failed_or_cancelled_status] (e & He & Hfrom & Hto & Hty)]. split.
  - apply not_true_iff_false. intros [_ Hd]%ready_b_startable.
    destruct (Hd e He Hto Hty) as (m & Hm & Hid & Hc).
    assert (m = f) as -> by (apply (node_unique g Hg); congruence). naive_solver congruence.
  - apply not_true_iff_false. intros [Hpd _]%ready_b_startable. naive_solver congruence.
Qed.

Lemma blocked_polled self g g' p f : blocked g p f → polled self g g' → blocked g' p f.
Proof.
  intros Hb Hp. pose proof Hb as [Hg Ho [Hpn Hps] [Hfn Hfs] Hedge].
  destruct (blocked_not_ready _ _ _ Hb) as [Hrp Hrf]. destruct Hp as [g|g id].
  - assert (Hc : ResultAggregator.is_complete g = false).
    { apply not_true_iff_false. unfold ResultAggregator.is_complete. rewrite forallb_forall.
      intros H. apply list_elem_of_In, H in Hpn. by rewrite Hps in Hpn. }
    split.
    + by rewrite tick_ids.
    + destruct (tick_incomplete self g Hg Ho Hc) as (-> & _). by destruct (_ || _).
    + split; [|done]. rewrite tick_nodes by done. apply list_elem_of_fmap. exists p.
      by rewrite Hrp.
    + split; [|done]. rewrite tick_nodes by done. apply list_elem_of_fmap. exists f.
      by rewrite Hrf.
    + by rewrite tick_edges.
  - unfold WorkflowEngine.resume_after_approval. case_bool_decide; [|done].
    split; [done..|exact Hedge].
Qed.
End tick.

(** ** The approval gate is never told *)

(** The operations of the engine that change it. *)
Inductive engine_step `{HashOrder} :
    WorkflowEngine.WorkflowEngine → WorkflowEngine.WorkflowEngine → Prop :=
  | engine_create debug analysis dispatch_id limit decision runtime self res runtime' self' :
      WorkflowEngine.create_workflow debug analysis dispatch_id limit decision runtime self
        = Some (res, runtime', self') → engine_step self self'
  | engine_complete node_id output_ref cost self g g' self' :
      WorkflowEngine.complete_node node_id output_ref cost self g = (g', self') →
      engine_step self self'.

Lemma engine_step_gate `{HashOrder} self self' :
  engine_step self self' →
  WorkflowEngine.approval_gate self' = WorkflowEngine.approval_gate self.
Proof.
  intros [debug analysis dispatch_id limit decision runtime s res runtime' s' E
         |node_id output_ref cost s g g' s' E].
  - unfold WorkflowEngine.create_workflow in E.
    destruct (negb _); [naive_solver|].
    destruct (TaskDecomposer.decompose _ _ _) as [g [registry rt]].
    destruct (validate g) as [[valid errs]|]; [|done]. by injection E as _ _ <-.
  - unfold WorkflowEngine.complete_node in E.
    destruct (f64_gtb _ _); [|naive_solver].
    destruct (WorkQueue.find_node _ _); [|naive_solver].
    destruct (MultiAgentBudgetManager.check_workflow_budget _ _) as [ok msg].
    destruct (_ && _); by injection E as _ <-.
Qed.

Lemma engine_reachable_gate `{HashOrder} registry self :
  rtc engine_step (WorkflowEngine.engine_new registry) self →
  WorkflowEngine.approval_gate self = HumanApprovalGate.gate_new (f64_lit 7 10).
Proof.
  intros Hr. revert Hr. generalize (WorkflowEngine.engine_new registry),
    (eq_refl : WorkflowEngine.approval_gate (WorkflowEngine.engine_new registry)
               = HumanApprovalGate.gate_new (f64_lit 7 10)).
  intros e He Hr. revert He. induction Hr as [|e e1 e2 Hs _ IH]; [done|].
  intros He. apply IH. by rewrite (engine_step_gate _ _ Hs).
Qed.

Lemma gate_new_failed thr n :
  wn_status n = "failed" → HumanApprovalGate.requires_approval (HumanApprovalGate.gate_new thr) n = true.
Proof.
  intros Hs. unfold HumanApprovalGate.requires_approval, HumanApprovalGate.is_approved,
    HumanApprovalGate.is_rejected. cbn [HumanApprovalGate.approved HumanApprovalGate.rejected
    HumanApprovalGate.gate_new].
  rewrite bool_decide_false by set_solver. rewrite lookup_empty. cbn [orb is_some].
  rewrite bool_decide_true by done. by destruct (_ && _).
Qed.

(** ** Cancelling a workflow *)

Lemma cancel_nodes g :
  NoDup (node_ids g) → wg_nodes (WorkflowEngine.cancel_workflow g) = cancelled <$> wg_nodes g.
Proof.
  intros Hg. unfold WorkflowEngine.cancel_workflow.
  rewrite (foldl_updates _ cancelled); [|..|done|].
  - unfold WorkflowEngine.set_status, map_nodes. cbn. apply list_fmap_ext. intros i n Hn.
    apply list_elem_of_lookup_2 in Hn. case_bool_decide as E; [done|]. unfold cancelled.
    destruct (WorkQueue.is_final (wn_status n)) eqn:Hf; [done|]. destruct E.
    apply list_elem_of_fmap. exists n. split; [done|]. by apply list_elem_of_filter.
  - intros n. unfold cancelled. by destruct (WorkQueue.is_final _).
  - intros. by apply cancel_update.
  - eapply sublist_NoDup; [exact Hg|]. apply fmap_sublist, sublist_filter.
Qed.

(** A workflow with the nodes of [g0], finished with a failed one, waits. *)
Lemma tick_failed_waits `{HO : HashOrder} short_id self thr g0 g n :
  WorkflowEngine.approval_gate self = HumanApprovalGate.gate_new thr →
  NoDup (node_ids g0) → ResultAggregator.is_complete g0 = true → overrun g0 = false →
  n ∈ wg_nodes g0 → wn_status n = "failed" →
  wg_nodes g = wg_nodes g0 → WorkQueue.is_final (wg_status g) = false →
  wg_status (WorkflowEngine.tick short_id self g) = "waiting_human"
  ∧ wg_nodes (WorkflowEngine.tick short_id self g) = wg_nodes g.
Proof.
  unfold node_ids, ResultAggregator.is_complete, overrun.
  intros Hgate Hg Hc Ho Hn Hs Heq Hf. rewrite <-Heq in Hg, Hc, Ho, Hn.
  destruct (tick_complete short_id self g Hg Hf Hc) as (-> & -> & _). split; [|done].
  fold (overrun g) in Ho. unfold verdict. rewrite Ho.
  assert (WorkflowEngine.check_approval_needed self g = true) as ->; [|done].
  unfold WorkflowEngine.check_approval_needed. apply existsb_exists. exists n.
  split; [by apply list_elem_of_In|]. rewrite Hgate, gate_new_failed, Hs by done. done.
Qed.

(** ** Reservations *)

Section reservations.
Import MultiAgentBudgetManager.
Context (workflow_id agent_id : string) (cost : f64).

Definition grants (m : MultiAgentBudgetManager) : Prop :=
  ∃ b, budgets m !! workflow_id = Some b
    ∧ f64_gtb (f64_add (consumed b) cost) (total_limit b) = false
    ∧ f64_gtb (f64_add (agent_consumed_of b agent_id) cost) (agent_limit_of b agent_id) = false.

Lemma grants_reserve node_id m :
  grants m →
  (reserve_node_budget workflow_id node_id agent_id cost m).1 = true
  ∧ grants (reserve_node_budget workflow_id node_id agent_id cost m).2.
Proof.
  intros (b & Hb & Ht & Ha). unfold reserve_node_budget. rewrite Hb, Ht, Ha. split; [done|].
  eexists. split; [apply lookup_insert_eq|]. done.
Qed.

Lemma reserve_granted node_id m m' :
  reserve_node_budget workflow_id node_id agent_id cost m = (true, m') → grants m ∧ grants m'.
Proof.
  intros E. assert (Hg : grants m).
  { unfold reserve_node_budget in E. destruct (budgets m !! workflow_id) as [b|] eqn:Hb; [|done].
    exists b. destruct (f64_gtb (f64_add (consumed b) _) _); [done|].
    by destruct (f64_gtb _ _). }
  split; [done|]. apply (grants_reserve node_id) in Hg as [_ Hg]. by rewrite E in Hg.
Qed.
End reservations.
