(* ===== verification/DecomposerProps.v ===== *)
(** * Properties of the task decomposer and the agent registry

    Node ids are distinct, so the graphs the decomposer builds are accepted by
    the resolver.  The registry's active counts are the assignments it holds. *)

From S2P Require Import Prelude Text Graph Float64 Orchestration ResolverProps.
From Stdlib Require Import Ascii.
From stdpp Require Import relations pretty.

Local Open Scope Z_scope.

(** ** Ids *)

Lemma pretty_N_go_head (x : N) (s : string) :
  (0 < x)%N → ∃ c r, pretty_N_go x s = String c r ∧ c ≠ "0"%char.
Proof.
  revert s. induction (N.lt_wf_0 x) as [x _ IH]. intros s Hx.
  rewrite pretty_N_go_step by done. destruct (decide (x < 10)%N) as [Hlt|Hge].
  - rewrite N.div_small by done. rewrite pretty_N_go_0. do 2 eexists. split; [done|].
    rewrite N.mod_small by done.
    destruct x as [|[[[]|[]|]|[[]|[]|]|]]; try done; cbn in Hlt; try lia;
      destruct p; done || lia.
  - apply IH; [apply N.div_lt; lia|]. apply N.div_str_pos. lia.
Qed.

Lemma pretty_no_leading_zero (n : Z) (r : string) :
  0 < n → pretty n ≠ String "0"%char r.
Proof.
  intros Hn E. destruct n as [|p|]; [lia| |lia].
  change (pretty_N_go (N.pos p) "" = String "0"%char r) in E.
  destruct (pretty_N_go_head (N.pos p) "") as (c & s & E' & Hc); [lia|].
  rewrite E' in E. by injection E.
Qed.

Lemma pad4_inj n m : 0 ≤ n → 0 ≤ m → pad4 n = pad4 m → n = m.
Proof.
  intros Hn Hm. unfold pad4.
  assert (Hz : ∀ k, 10 ≤ k → ∀ r, pretty k = String "0"%char r → False).
  { intros k Hk r. apply pretty_no_leading_zero. lia. }
  assert (Hi : ∀ i j : Z, pretty i = pretty j → i = j) by apply (inj pretty).
  revert Hz Hi. generalize (pretty : Z → string) as p. intros p Hz Hi.
  repeat match goal with |- context [?a <? ?b] => destruct (Z.ltb_spec a b) end;
    try lia; simpl; intros E; repeat (injection E; clear E; intros E); auto; exfalso;
    first [eapply (Hz n); [lia|exact E] | eapply (Hz m); [lia|symmetry; exact E]].
Qed.

(** ** Chains *)

Definition chain (l : list string) : list (string * string) := zip l (tail l).

Lemma chain_closed_order l : NoDup l → closed_order (λ x y, (x, y) ∈ chain l) l.
Proof.
  intros Hn pre x post E y [j Hj]%list_elem_of_lookup. unfold chain in Hj.
  apply lookup_zip_with_Some in Hj as (a & b & [= <- <-] & Hx & Hy).
  assert (Hpre : l !! length pre = Some x) by (subst l; by rewrite list_lookup_middle).
  assert (j = length pre) as -> by (eapply NoDup_lookup; done).
  apply list_elem_of_lookup. exists 0%nat. rewrite lookup_tail, E in Hy.
  rewrite lookup_app_r in Hy by lia.
  by replace (S (length pre) - length pre)%nat with 1%nat in Hy by lia.
Qed.

Lemma chain_wf (graph : WorkflowGraph) :
  NoDup (DependencyResolver.node_ids graph) →
  DependencyResolver.edge_pairs graph = chain (DependencyResolver.node_ids graph) →
  graph_wf graph.
Proof.
  intros Hn He. set (ids := DependencyResolver.node_ids graph) in *.
  assert (Hends : ∀ x y, (x, y) ∈ chain ids → x ∈ ids ∧ y ∈ ids).
  { intros x y [j Hj]%list_elem_of_lookup. unfold chain in Hj.
    apply lookup_zip_with_Some in Hj as (a & b & [= <- <-] & Hx & Hy).
    rewrite lookup_tail in Hy. split; by eapply list_elem_of_lookup_2. }
  split; rewrite He; [exact Hends|]. intros [x Hx].
  eapply closed_order_acyclic; [by apply chain_closed_order|done| |exact Hx].
  apply tc_inv in Hx as [H|(z & H & _)]; by apply Hends in H as [? _].
Qed.

(** ** The decomposer *)

Section decomposer.
Context `{HO : HashOrder}.
Import TaskDecomposer.

Definition node_counter (s : decomposer_state) : Z := default 0 (s.2 !! "node").

Definition node_name (k : Z) : string := "node" +:+ pad4 k.

Lemma node_name_inj i j : 0 ≤ i → 0 ≤ j → node_name i = node_name j → i = j.
Proof. intros Hi Hj E. apply pad4_inj; [done..|]. by apply (inj (String.append "node")). Qed.

(** A node as the decomposer creates it. *)
Definition fresh_node (workflow_id : string) (k : Z) (n : WorkflowNode) : Prop :=
  wn_node_id n = node_name k ∧ wn_workflow_id n = workflow_id ∧ wn_status n = "pending"
  ∧ wn_started_at n = None ∧ wn_output_ref n = None.

Lemma make_node_spec workflow_id ty an refs s n s' k :
  make_node workflow_id ty an refs s = (n, s') → node_counter s = k →
  0 ≤ k < u64_max → fresh_node workflow_id (k + 1) n ∧ node_counter s' = k + 1.
Proof.
  destruct s as [reg rt]. unfold node_counter. cbn [snd]. intros E Hk Hb.
  unfold make_node, FixtureRuntime.next_id in E.
  rewrite Hk, (u64_add_small k 1) in E by int_lia. fold (node_name (k + 1)) in E.
  assert (Hins : default 0 (<["node" := k + 1]> rt !! "node") = k + 1)
    by by rewrite lookup_insert_eq.
  destruct reg as [r|];
    [destruct (AgentRoleRegistry.assign_agent _ _ _ _)|]; injection E as <- <-;
    (split; [by split_and!|exact Hins]).
Qed.

Lemma make_edge_spec from to s e s' :
  make_edge from to s = (e, s') →
  we_from_node_id e = wn_node_id from ∧ we_to_node_id e = wn_node_id to
  ∧ node_counter s' = node_counter s.
Proof.
  destruct s as [reg rt]. unfold make_edge, FixtureRuntime.next_id, node_counter.
  intros [= <- <-]. split_and!; [done..|]. cbn [snd]. by rewrite lookup_insert_ne.
Qed.

(** The number of nodes by the analysis. *)
Definition graph_size (an : TaskAnalysis) : nat :=
  if f64_ltb (ta_complexity_score an) (f64_lit 3 10) && bool_decide (ta_risk_flags an = [])
  then 1
  else if f64_leb (f64_lit 6 10) (ta_complexity_score an)
          || (2 <=? length (ta_risk_flags an))%nat
  then 4 else 2.

Definition built_chain (workflow_id : string) (k : Z) (size : nat)
    (nodes : list WorkflowNode) (edges : list WorkflowEdge) : Prop :=
  Forall2 (fresh_node workflow_id) ((λ i, k + Z.of_nat i) <$> seq 1 size) nodes
  ∧ (λ e, (we_from_node_id e, we_to_node_id e)) <$> edges = chain (wn_node_id <$> nodes).

Lemma built_chain_NoDup workflow_id k size nodes edges :
  0 ≤ k → built_chain workflow_id k size nodes edges → NoDup (wn_node_id <$> nodes).
Proof.
  intros Hk [Hf _]. assert (E : wn_node_id <$> nodes =
    (λ i, node_name (k + Z.of_nat i)) <$> seq 1 size).
  { change (λ i, node_name (k + Z.of_nat i)) with (node_name ∘ (λ i, k + Z.of_nat i)).
    rewrite list_fmap_compose. induction Hf as [|a n la ln [Hn _] _ IH]; [done|].
    cbn. by rewrite Hn, IH. }
  rewrite E. apply NoDup_fmap_2_strong; [|apply NoDup_seq].
  intros i j _ _ H%node_name_inj; lia.
Qed.

Lemma build_graph_spec workflow_id an s k nodes edges s' :
  build_graph workflow_id an s = (nodes, edges, s') → node_counter s = k →
  0 ≤ k ≤ u64_max - 4 → built_chain workflow_id k (graph_size an) nodes edges.
Proof.
  intros E Hk Hb. unfold build_graph in E. unfold graph_size.
  destruct (_ && _); [|destruct (_ || _)];
    unfold simple_graph, medium_graph, complex_graph in E;
    repeat match type of E with
    | (let '(_, _) := make_node ?w ?t ?a ?r ?s in _) = _ =>
      let H := fresh "H" in
      destruct (make_node w t a r s) eqn:H;
      eapply make_node_spec in H as [? ?]; [|eassumption|lia]
    | (let '(_, _) := make_edge ?a ?b ?s in _) = _ =>
      let H := fresh "H" in
      destruct (make_edge a b s) eqn:H; apply make_edge_spec in H as (? & ? & ?)
    end; injection E as <- <- <-.
  all: split; [|cbn; by repeat f_equal].
  all: try rewrite <-!Z.add_assoc in *; cbn -[fresh_node].
  all: repeat (apply Forall2_cons_2; [eassumption|]); apply Forall2_nil_2.
Qed.
End decomposer.

(** ** The agent registry *)

Section registry.
Context `{HO : HashOrder}.
Import AgentRoleRegistry.

Definition held_by (r : AgentRoleRegistry) (id : string) : Z :=
  Z.of_nat (size (filter (λ kv, kv.2 = id) (assignments r))).

Record registry_inv (r : AgentRoleRegistry) : Prop := {
  ri_keys : ∀ id role, roles r !! id = Some role → role_id role = id;
  ri_active : ∀ id, active_of r id = held_by r id;
  ri_capacity : ∀ id role, roles r !! id = Some role →
    active_of r id ≤ role_max_concurrent_nodes role;
  ri_known : ∀ k id, assignments r !! k = Some id → is_Some (roles r !! id);
}.

(** Registrations that do not lower a capacity, assignments of nodes that have
    none, and releases. *)
Inductive registry_step : AgentRoleRegistry → AgentRoleRegistry → Prop :=
  | registry_register role r :
      0 ≤ role_max_concurrent_nodes role →
      (∀ old, roles r !! role_id role = Some old →
         role_max_concurrent_nodes old ≤ role_max_concurrent_nodes role) →
      registry_step r (register_role role r)
  | registry_assign workflow_id node_id task_type r :
      assignments r !! (workflow_id, node_id) = None →
      registry_step r (assign_agent workflow_id node_id task_type r).2
  | registry_release workflow_id node_id r :
      registry_step r (release_node workflow_id node_id r).2.

(** The first candidate with capacity, if there is one. *)
Lemma assign_first_spec workflow_id node_id cands r :
  let '(res, r') := assign_first workflow_id node_id cands r in
  (res = None ∧ r' = r ∧ ∀ id role, id ∈ cands → roles r !! id = Some role →
     role_max_concurrent_nodes role ≤ active_of r id)
  ∨ ∃ id role, res = Some id ∧ id ∈ cands ∧ roles r !! id = Some role
      ∧ active_of r id < role_max_concurrent_nodes role
      ∧ r' = mkRegistry (roles r) (<[id := active_of r id + 1]> (active_count r))
               (<[(workflow_id, node_id) := id]> (assignments r)).
Proof.
  induction cands as [|c cands IH]; cbn [assign_first].
  - left. split_and!; [done..|]. by intros ? ? ?%not_elem_of_nil.
  - destruct (roles r !! c) as [role|] eqn:Hc.
    + destruct (Z.ltb_spec (active_of r c) (role_max_concurrent_nodes role)) as [Hlt|Hge].
      * right. exists c, role. split_and!; [done|left|done|done|done].
      * destruct (assign_first _ _ _ _) as [res r']. destruct IH as [(-> & -> & IH)|IH].
        -- left. split_and!; [done..|]. intros id role' [->|?]%elem_of_cons ?; naive_solver.
        -- right. destruct IH as (id & role' & ? & ? & ?). exists id, role'. set_solver.
    + destruct (assign_first _ _ _ _) as [res r']. destruct IH as [(-> & -> & IH)|IH].
      * left. split_and!; [done..|]. intros id role' [->|?]%elem_of_cons ?; naive_solver congruence.
      * right. destruct IH as (id & role' & ? & ? & ?). exists id, role'. set_solver.
Qed.

Lemma held_by_insert r k id id' :
  assignments r !! k = None →
  Z.of_nat (size (filter (λ kv, kv.2 = id') (<[k := id]> (assignments r)))) =
  held_by r id' + (if bool_decide (id = id') then 1 else 0).
Proof.
  intros Hk. unfold held_by. case_bool_decide as E.
  - rewrite map_filter_insert_True by done.
    rewrite map_size_insert_None; [lia|]. by apply map_lookup_filter_None_2; left.
  - rewrite map_filter_insert_False by done. rewrite delete_id by done. lia.
Qed.

Lemma held_by_delete r k id id' :
  assignments r !! k = Some id →
  Z.of_nat (size (filter (λ kv, kv.2 = id') (delete k (assignments r)))) =
  held_by r id' - (if bool_decide (id = id') then 1 else 0).
Proof.
  intros Hk. pose proof (held_by_insert
    (mkRegistry ∅ ∅ (delete k (assignments r))) k id id' (lookup_delete_eq _ _)) as H.
  cbn [assignments] in H. rewrite insert_delete_id in H by done. unfold held_by in *.
  cbn [assignments] in H. lia.
Qed.

Lemma active_of_insert r id id' z :
  default 0 (<[id := z]> (active_count r) !! id') = if bool_decide (id = id') then z else active_of r id'.
Proof.
  case_bool_decide as E; [subst; by rewrite lookup_insert_eq|]. by rewrite lookup_insert_ne.
Qed.

Lemma held_by_unknown r id : registry_inv r → roles r !! id = None → held_by r id = 0.
Proof.
  intros Hi Hn. unfold held_by. apply (f_equal Z.of_nat (y := 0%nat)), map_size_empty_iff,  map_empty_filter_2.
  intros k id' Hk. cbn. intros ->. destruct (ri_known _ Hi _ _ Hk). congruence.
Qed.

Lemma registry_step_inv r r' : registry_inv r → registry_step r r' → registry_inv r'.
Proof.
  intros Hi Hs. destruct Hs as [role s Hpos Hold|wf nd ty s Hfree|wf nd s];
    pose proof Hi as [Hk Ha Hc Hkn].
  - assert (Hact : ∀ id, active_of (register_role role s) id = active_of s id).
    { intros id. unfold active_of, register_role. cbn.
      destruct (active_count s !! role_id role) eqn:E; [done|].
      destruct (decide (id = role_id role)) as [->|]; [|by rewrite lookup_insert_ne].
      by rewrite lookup_insert_eq, E. }
    split; [|by intros; rewrite Hact; apply Ha| |intros k id Hid; cbn; rewrite lookup_insert_is_Some';
      right; by eapply Hkn]; intros id role'; rewrite ?Hact; cbn;
      (destruct (decide (id = role_id role)) as [->|];
       [rewrite lookup_insert_eq; intros [= <-]|rewrite lookup_insert_ne by done; auto]); [done|].
    destruct (roles s !! role_id role) as [old|] eqn:E.
    + specialize (Hc _ _ E). specialize (Hold _ eq_refl). lia.
    + by rewrite Ha, held_by_unknown.
  - unfold assign_agent. pose proof (assign_first_spec wf nd
      (role_id <$> roles_for_task_type ty s) s) as Hs.
    destruct (assign_first _ _ _ _) as [res s']. destruct Hs as [(_ & -> & _)|Hs]; [by split|].
    destruct Hs as (id & role & _ & _ & Hr & Hlt & ->). split; cbn [snd roles].
    + done.
    + intros id'. unfold active_of at 1, held_by. cbn [active_count assignments].
      rewrite active_of_insert, held_by_insert, !Ha by done. case_bool_decide; [by subst|lia].
    + intros id' role' Hr'. unfold active_of at 1. cbn [active_count]. rewrite active_of_insert.
      case_bool_decide; [|by apply Hc]. subst. simplify_eq. lia.
    + intros k id'. cbn [assignments]. rewrite lookup_insert_Some. naive_solver.
  - unfold release_node. destruct (assignments s !! (wf, nd)) as [id|] eqn:Hasg; [|by split].
    assert (Hpos : 1 ≤ active_of s id).
    { rewrite Ha. pose proof (held_by_delete _ _ _ id Hasg). rewrite bool_decide_true in H by done. lia. }
    split; cbn [snd].
    + done.
    + intros id'. unfold active_of at 1, held_by. cbn. rewrite active_of_insert.
      rewrite (held_by_delete _ _ _ id' Hasg). rewrite <-Ha. unfold u64_saturating_sub.
      case_bool_decide; [subst; change (active_of _ id') with (active_of s id'); lia|].
      change (active_of _ id') with (active_of s id'). lia.
    + intros id' role' Hr'. unfold active_of at 1. cbn. rewrite active_of_insert.
      specialize (Hc _ _ Hr'). unfold u64_saturating_sub. case_bool_decide; [|done].
      subst. change (active_of _ id') with (active_of s id'). lia.
    + intros k id'. cbn. rewrite lookup_delete_Some. naive_solver.
Qed.

Lemma registry_reachable_inv r : rtc registry_step registry_new r → registry_inv r.
Proof.
  intros Hr. assert (Hi : registry_inv registry_new).
  { split; [by intros ? ?|intros id|by intros ? ?|by intros ? ?]. unfold active_of, held_by, registry_new. cbn.
    by rewrite lookup_empty. }
  revert Hi. induction Hr; eauto using registry_step_inv.
Qed.
End registry.
