(* ===== verification/OrchestrationTheorems.v ===== *)
(** * Theorems on the orchestration components

    The resolver, the decomposer with its registry, and the workflow engine. *)

From S2P Require Import Prelude Text Json Graph DagManager DagProps DagTheorems Float64 Orchestration ResolverProps GraphOps EngineProps DecomposerProps.
From stdpp Require Import relations.

Import DependencyResolver.

(** ** Concrete inputs *)

Module OrchestrationDemo.

#[export] Existing Instance listed_order.

Definition node (id status : string) : WorkflowNode :=
  mkWorkflowNode "workflow_node.v1" id "wf0001" "code" None status [] None
    (f64_of_Z 10) f64_zero None FixtureRuntime.FIXTURE_TIMESTAMP None None.

Definition dep (from to : string) : WorkflowEdge :=
  mkWorkflowEdge "workflow_edge.v1" (from +:+ to) from to "dependency".

Definition graph (status : string) (nodes : list WorkflowNode) (edges : list WorkflowEdge) :=
  mkWorkflowGraph "workflow_graph.v1" "wf0001" "d1" nodes edges status "" "" None None None.

(** A diamond: [a] before [b] and [c], both before [d]. *)
Definition diamond : WorkflowGraph :=
  graph "running" [node "a" "completed"; node "b" "pending"; node "c" "pending"; node "d" "pending"]
    [dep "a" "b"; dep "a" "c"; dep "b" "d"; dep "c" "d"].

Definition fresh_diamond : WorkflowGraph :=
  graph "running" ((λ id, node id "pending") <$> ["a"; "b"; "c"; "d"])
    [dep "a" "b"; dep "a" "c"; dep "b" "d"; dep "c" "d"].

(** Two nodes, the first finished badly. *)
Definition stuck : WorkflowGraph :=
  graph "running" [node "a" "failed"; node "b" "pending"] [dep "a" "b"].

Definition finished (status : string) : WorkflowGraph :=
  graph "running" [node "a" "completed"; node "b" status] [dep "a" "b"].

Definition engine : WorkflowEngine.WorkflowEngine := WorkflowEngine.engine_new None.

Definition analysis : TaskAnalysis :=
  mkTaskAnalysis "code" ["risky"] (f64_lit 5 10) 1000%Z.

Definition role (id : string) (cap : Z) : AgentRole :=
  mkAgentRole "agent_role.v1" id id ["code"] cap (f64_of_Z 100).

Definition short_id (_ : nat) : string := "0".

Lemma diamond_ids : NoDup (node_ids diamond).
Proof. apply (bool_decide_unpack _). by vm_compute. Qed.

Lemma stuck_blocked : blocked stuck (node "b" "pending") (node "a" "failed").
Proof.
  split.
  - apply (bool_decide_unpack _). by vm_compute.
  - by vm_compute.
  - split; [right; left|done].
  - split; [left|done].
  - exists (dep "a" "b"). split_and!; [left|done..].
Qed.
End OrchestrationDemo.

Import OrchestrationDemo.

(** ** The dependency resolver *)

(** The resolver's validation answers on every graph, for every iteration
    order of its hash maps.  It accepts, and then reports no error, exactly the
    graphs all of whose edges join listed nodes and that have no directed
    cycle. *)
Theorem resolver_validate_exact (HO : HashOrder) (graph : WorkflowGraph) :
  ∃ valid errors, validate graph = Some (valid, errors)
    ∧ (valid = true ↔ errors = [])
    ∧ (valid = true ↔
         (∀ e, e ∈ wg_edges graph → we_from_node_id e ∈ node_ids graph
            ∧ we_to_node_id e ∈ node_ids graph)
         ∧ ¬ ∃ x, tc (λ x y, (x, y) ∈ edge_pairs graph) x x).
Proof.
  destruct (validate_spec graph) as (valid & errors & E & Herr & Hwf).
  exists valid, errors. split_and!; [done..|]. rewrite Hwf. split.
  - intros [Hends Hac]. split; [|done]. intros e He. apply Hends. apply list_elem_of_fmap. eauto.
  - intros [Hends Hac]. split; [|done]. intros x y (e & [= -> ->] & He)%list_elem_of_fmap. eauto.
Qed.

(** C31: On a valid graph the execution order is a list of waves that holds
    every node exactly once.  All predecessors of a node are in earlier waves,
    and a node beyond the first wave has a predecessor in the wave just before
    its own, so no node could run earlier.  The loop ends within its bound. *)
Theorem execution_order_layers (HO : HashOrder) (graph : WorkflowGraph) :
  graph_wf graph →
  ∃ waves, execution_order graph = Some waves
    ∧ NoDup (mjoin waves) ∧ (∀ x, x ∈ mjoin waves ↔ x ∈ node_ids graph)
    ∧ (∀ ws1 w ws2, waves = ws1 ++ w :: ws2 →
         ∀ x y, y ∈ w → (x, y) ∈ edge_pairs graph → x ∈ mjoin ws1)
    ∧ (∀ ws1 w w' ws2, waves = ws1 ++ w :: w' :: ws2 →
         ∀ y, y ∈ w' → ∃ x, x ∈ w ∧ (x, y) ∈ edge_pairs graph).
Proof.
  intros (waves & ? & ? & ? & [??] & _)%execution_order_valid. by exists waves.
Qed.

Lemma execution_order_layers_witness :
  ∃ waves, execution_order diamond = Some waves ∧ NoDup (mjoin waves).
Proof.
  destruct (execution_order_layers listed_order diamond) as (waves & E & Hn & _).
  - destruct (validate_spec diamond) as (valid & errors & E & _ & Hv). apply Hv.
    assert (H : validate diamond = Some (true, [])) by (vm_compute; reflexivity). congruence.
  - by exists waves.
Defined.

(** The validation and the execution order of a graph do not depend on the
    iteration order of the hash maps they are computed with: two runs of the
    program report the same errors and the same waves. *)
Theorem execution_order_deterministic (H1 H2 : HashOrder) (graph : WorkflowGraph) :
  @validate H1 graph = @validate H2 graph
  ∧ @execution_order H1 graph = @execution_order H2 graph.
Proof. split; [apply validate_hash_order|apply execution_order_hash_order]. Qed.

Example diamond_waves : execution_order diamond = Some [["a"]; ["b"; "c"]; ["d"]].
Proof. vm_compute. reflexivity. Qed.

(** For every implementation of the graph interface that keeps its laws,
    in particular the DAG manager and the resolver's view of a workflow: on a
    graph that validates and whose nodes are all pending, the topological order
    exists and lists every node once, and a client that completes the nodes in
    that order finds each next node among the ready ones, so it never blocks. *)
Theorem topological_order_runs {G : Type} `{LG : LawfulGraph G} (g : G) (errors : list string) :
  go_validate g = Some (true, errors) → (∀ y, y ∈ gv_ids g → gv_pending g y) →
  ∃ order, go_topological_order g = Some order
    ∧ (∀ x, x ∈ order ↔ x ∈ gv_ids g) ∧ NoDup order
    ∧ ∀ pre y post, order = pre ++ y :: post → y ∈ go_ready_nodes g (list_to_set pre).
Proof. apply order_never_blocks. Qed.

Lemma topological_order_runs_witness :
  (∃ order, DagManager.topological_order DagDemo.manager = Some order
     ∧ ∀ pre y post, order = pre ++ y :: post →
         y ∈ node_id <$> nodes_ready DagDemo.manager (list_to_set pre))
  ∧ (∃ order, resolvable_topological_order fresh_diamond = Some order
     ∧ ∀ pre y post, order = pre ++ y :: post →
         y ∈ resolvable_ready_nodes fresh_diamond (list_to_set pre)).
Proof.
  split.
  - destruct (topological_order_runs DagDemo.manager []) as (order & E & _ & _ & H).
    + vm_compute. reflexivity.
    + intros y _ n Hn _. vm_compute in Hn.
      repeat (apply elem_of_cons in Hn as [->|Hn]; [reflexivity|]). by apply not_elem_of_nil in Hn.
    + exists order. split; [exact E|exact H].
  - destruct (topological_order_runs fresh_diamond []) as (order & E & _ & _ & H).
    + vm_compute. reflexivity.
    + intros y _ n Hn _. cbn in Hn.
      repeat (apply elem_of_cons in Hn as [->|Hn]; [reflexivity|]). by apply not_elem_of_nil in Hn.
    + exists order. split; [exact E|exact H].
Defined.

(** ** The workflow engine *)

(** A workflow is created exactly for decided tasks; any other decision is
    refused with nothing changed.  The graph has one, two or four nodes by the
    analysis, all pending, with distinct ids, its edges form a chain through
    the nodes, and it always passes the resolver's validation, so it is handed
    out as [decomposed] and never as [failed].  A fresh budget with the given
    limit is installed under its id. *)
Theorem create_workflow_valid (HO : HashOrder) debug analysis dispatch_id limit decision
    runtime self :
  (0 ≤ node_counter (WorkflowEngine.decomposer_registry self, runtime) ≤ u64_max - 4)%Z →
  ∃ res runtime' self',
    WorkflowEngine.create_workflow debug analysis dispatch_id limit decision runtime self
      = Some (res, runtime', self')
    ∧ (decision ≠ "decided" → (∃ e, res = Err e) ∧ runtime' = runtime ∧ self' = self)
    ∧ (decision = "decided" → ∃ graph, res = Ok graph
        ∧ wg_status graph = "decomposed"
        ∧ length (wg_nodes graph) = graph_size analysis
        ∧ (∀ n, n ∈ wg_nodes graph → wn_status n = "pending"
             ∧ wn_workflow_id n = wg_workflow_id graph)
        ∧ NoDup (node_ids graph) ∧ edge_pairs graph = chain (node_ids graph)
        ∧ graph_wf graph
        ∧ MultiAgentBudgetManager.budgets (WorkflowEngine.budget_manager self')
            !! wg_workflow_id graph
          = Some (MultiAgentBudgetManager.mkWorkflowBudget limit f64_zero ∅ ∅ ∅)).
Proof.
  intros Hb. unfold WorkflowEngine.create_workflow. case_bool_decide as Hd; cbn [negb].
  2:{ do 3 eexists. split; [done|]. split; [eauto|done]. }
  unfold TaskDecomposer.decompose, FixtureRuntime.next_id.
  set (wid := ("wf" +:+ _)). set (rt := <[ "wf" := _ ]> runtime).
  destruct (TaskDecomposer.build_graph _ _ _) as [[nodes edges] [registry rt']] eqn:E.
  eapply build_graph_spec in E; [|reflexivity|].
  2:{ unfold node_counter, rt in *. cbn [snd] in *. by rewrite lookup_insert_ne. }
  set (g := {| wg_schema_version := _ |}).
  assert (Hnd : NoDup (node_ids g)).
  { eapply built_chain_NoDup; [|exact E]. unfold node_counter, rt in *. cbn [snd] in *.
    rewrite lookup_insert_ne by done. lia. }
  destruct E as [Hf He]. assert (Hwf : graph_wf g) by by apply chain_wf.
  destruct (validate_spec g) as (valid & errs & -> & _ & Hv).
  assert (valid = true) as -> by by apply Hv.
  do 3 eexists. split; [reflexivity|]. split; [done|]. intros _. exists g.
  split_and!; [done|done| | |done|exact He|done|apply lookup_insert_eq].
  - apply Forall2_length in Hf. by rewrite length_fmap, length_seq in Hf.
  - intros n [i Hi]%list_elem_of_lookup. destruct (Forall2_lookup_r _ _ _ _ _ Hf Hi)
      as (k & _ & _ & Hw & Hs & _). done.
Qed.

Lemma create_workflow_valid_witness :
  ∃ graph runtime' self',
    WorkflowEngine.create_workflow id analysis "d1" (f64_of_Z 5) "decided" ∅ engine
      = Some (Ok graph, runtime', self') ∧ wg_status graph = "decomposed".
Proof.
  destruct (create_workflow_valid listed_order id analysis "d1" (f64_of_Z 5) "decided" ∅ engine)
    as (res & runtime' & self' & E & _ & Hd).
  - vm_compute. split; discriminate.
  - destruct (Hd eq_refl) as (graph & -> & Hs & _). exists graph, runtime', self'. by split.
Defined.

(** A tick of an unfinished workflow starts exactly the nodes that are
    pending with all their dependencies completed: each of them becomes
    running, with its start recorded, and every other node is left as it
    is. *)
Theorem tick_starts_ready (HO : HashOrder) short_id self (graph : WorkflowGraph) :
  NoDup (node_ids graph) → WorkQueue.is_final (wg_status graph) = false →
  Forall2 (λ n n',
    (startable graph n ∧ n' = with_status "running" n) ∨ (¬ startable graph n ∧ n' = n))
    (wg_nodes graph) (wg_nodes (WorkflowEngine.tick short_id self graph)).
Proof.
  intros Hg Hf. rewrite tick_nodes by done. apply Forall2_fmap_r, Forall_Forall2_diag.
  apply Forall_true. intros n. unfold compose. pose proof (ready_b_startable graph n) as Hr.
  destruct (ready_b graph n); [left|right]; (split; [|done]); [by apply Hr|].
  by intros ?%Hr.
Qed.

Lemma tick_starts_ready_witness :
  Forall2 (λ n n',
    (startable diamond n ∧ n' = with_status "running" n) ∨ (¬ startable diamond n ∧ n' = n))
    (wg_nodes diamond) (wg_nodes (WorkflowEngine.tick short_id engine diamond))
  ∧ (wn_status <$> wg_nodes (WorkflowEngine.tick short_id engine diamond))
    = ["completed"; "running"; "running"; "pending"].
Proof.
  split; [|vm_compute; reflexivity].
  apply (tick_starts_ready listed_order); [apply diamond_ids|by vm_compute].
Defined.

(** C20: The status a tick leaves, for a workflow whose nodes have distinct ids.  A
    finished workflow is left alone.  While a node is unfinished a created or
    decomposed workflow becomes running, and any other keeps its status.  Once
    every node is finished it is cancelled when the total cost exceeds a positive
    total budget, else waits for a human when a node needs approval, else failed
    when some node failed or was cancelled, else completed; only in that last
    case the aggregate of its nodes is stored as its result. *)
Theorem tick_settles (HO : HashOrder) short_id self (graph : WorkflowGraph) :
  NoDup (node_ids graph) →
  let graph' := WorkflowEngine.tick short_id self graph in
  let complete := ∀ n, n ∈ wg_nodes graph →
    wn_status n = "completed" ∨ wn_status n = "failed" ∨ wn_status n = "cancelled" in
  (WorkQueue.is_final (wg_status graph) = true → graph' = graph)
  ∧ (WorkQueue.is_final (wg_status graph) = false → ¬ complete →
      wg_status graph' =
        (if bool_decide (wg_status graph ∈ ["created"; "decomposed"]) then "running"
         else wg_status graph)
      ∧ wg_result graph' = wg_result graph)
  ∧ (WorkQueue.is_final (wg_status graph) = false → complete →
      wg_status graph' =
        (if overrun graph then "cancelled"
         else if WorkflowEngine.check_approval_needed self graph then "waiting_human"
         else if existsb WorkflowEngine.failed_or_cancelled (wg_nodes graph) then "failed"
         else "completed")
      ∧ wg_result graph' =
          (if bool_decide (wg_status graph' = "completed")
           then Some (ResultAggregator.aggregate graph) else wg_result graph)).
Proof.
  intros Hg graph' complete. assert (Hc : ResultAggregator.is_complete graph = true ↔ complete).
  { unfold ResultAggregator.is_complete, complete. rewrite forallb_forall. split.
    - intros H n Hn. apply list_elem_of_In, H in Hn. unfold WorkQueue.is_final in Hn.
      rewrite !orb_true_iff, !bool_decide_eq_true in Hn. tauto.
    - intros H n Hn. apply list_elem_of_In, H in Hn. unfold WorkQueue.is_final.
      rewrite !orb_true_iff, !bool_decide_eq_true. tauto. }
  split_and!; intros Hf; [by apply tick_final|intros Hn|intros Hn].
  - assert (Hcf : ResultAggregator.is_complete graph = false)
      by (apply not_true_iff_false; tauto).
    destruct (tick_incomplete short_id self graph Hg Hf Hcf) as (Hs & _ & _ & Hr).
    split; [|exact Hr]. unfold graph'. rewrite Hs.
    assert (E : wg_status graph ∈ ["created"; "decomposed"]
      ↔ wg_status graph = "created" ∨ wg_status graph = "decomposed")
      by (rewrite !elem_of_cons, elem_of_nil; tauto).
    by rewrite (bool_decide_ext _ _ E), bool_decide_or.
  - destruct (tick_complete short_id self graph Hg Hf (proj2 Hc Hn)) as (Hs & _ & _ & Hr).
    split; [exact Hs|]. unfold graph'. rewrite Hr. by rewrite Hs.
Qed.

Lemma tick_settles_witness :
  wg_status (WorkflowEngine.tick short_id engine (graph "created" [node "b" "pending"] [])) = "running"
  ∧ wg_status (WorkflowEngine.tick short_id engine (finished "completed")) = "completed"
  ∧ wg_status (WorkflowEngine.tick short_id engine (finished "cancelled")) = "failed".
Proof.
  assert (Hn : ∀ s, NoDup (node_ids (finished s)))
    by (intros s; apply (bool_decide_unpack _); by vm_compute).
  split_and!.
  - destruct (tick_settles listed_order short_id engine (graph "created" [node "b" "pending"] [])
      (NoDup_singleton _)) as (_ & [-> _] & _); [done| |done].
    intros H. destruct (H (node "b" "pending")) as [?|[?|?]]; [by left|done..].
  - destruct (tick_settles listed_order short_id engine (finished "completed") (Hn _))
      as (_ & _ & [-> _]); [done| |by vm_compute].
    intros n [->|[->|[]%not_elem_of_nil]%elem_of_cons]%elem_of_cons; auto.
  - destruct (tick_settles listed_order short_id engine (finished "cancelled") (Hn _))
      as (_ & _ & [-> _]); [done| |by vm_compute].
    intros n [->|[->|[]%not_elem_of_nil]%elem_of_cons]%elem_of_cons; auto.
Defined.

(** No engine operation records an approval, so a workflow that finished
    with a failed node never settles.  Every tick leaves it waiting for a human,
    and resuming it only makes it run again: after any number of rounds of tick
    and resumption it is still open, and the next tick waits again. *)
Theorem failed_workflow_waits_forever (HO : HashOrder) short_id registry self
    (graph : WorkflowGraph) (n : WorkflowNode) (node_id : string) :
  rtc engine_step (WorkflowEngine.engine_new registry) self →
  NoDup (node_ids graph) → WorkQueue.is_final (wg_status graph) = false →
  ResultAggregator.is_complete graph = true → overrun graph = false →
  n ∈ wg_nodes graph → wn_status n = "failed" →
  ∀ rounds, let graph' := Nat.iter rounds (λ g, WorkflowEngine.resume_after_approval
      (WorkflowEngine.tick short_id self g) node_id) graph in
    WorkQueue.is_final (wg_status graph') = false
    ∧ wg_status (WorkflowEngine.tick short_id self graph') = "waiting_human".
Proof.
  intros Hgate%engine_reachable_gate Hg Hf Hc Ho Hn Hs rounds. cbv zeta.
  set (next := λ g, WorkflowEngine.resume_after_approval _ _).
  assert (Hinv : let g := Nat.iter rounds next graph in
    wg_nodes g = wg_nodes graph ∧ WorkQueue.is_final (wg_status g) = false).
  { induction rounds as [|rounds IH]; [done|]. simpl. destruct IH as [Hng Hfg].
    set (g := Nat.iter rounds next graph) in *. unfold next.
    destruct (tick_failed_waits short_id self _ graph g n Hgate) as [Ht Htn]; [done..|].
    unfold WorkflowEngine.resume_after_approval. rewrite Ht, bool_decide_true by done.
    split; [|done]. by rewrite <-Hng, <-Htn. }
  destruct Hinv as [Hng Hfg]. split; [exact Hfg|].
  by eapply (tick_failed_waits short_id self _ graph).
Qed.

Lemma failed_workflow_waits_forever_witness :
  wg_status (WorkflowEngine.tick short_id engine (Nat.iter 5 (λ g,
    WorkflowEngine.resume_after_approval (WorkflowEngine.tick short_id engine g) "b")
    (finished "failed"))) = "waiting_human".
Proof.
  refine (proj2 (failed_workflow_waits_forever listed_order short_id None engine
    (finished "failed") (node "b" "failed") "b" _ _ _ _ _ _ _ 5)).
  - apply rtc_refl.
  - apply (bool_decide_unpack _). by vm_compute.
  - done.
  - by vm_compute.
  - by vm_compute.
  - right; left.
  - done.
Defined.

(** A pending node that depends on a failed or cancelled node is never
    started and never cancelled by the engine: after any sequence of ticks and
    resumptions it is still pending and the workflow is still open, so a
    workflow with a failure behind which work is pending stalls. *)
Theorem blocked_workflow_stalls (HO : HashOrder) short_id self (graph graph' : WorkflowGraph)
    (p f : WorkflowNode) :
  blocked graph p f → rtc (polled short_id self) graph graph' →
  p ∈ wg_nodes graph' ∧ wn_status p = "pending"
  ∧ WorkQueue.is_final (wg_status graph') = false.
Proof.
  intros Hb Hr. assert (Hb' : blocked graph' p f)
    by (induction Hr; eauto using blocked_polled).
  destruct Hb' as [_ Ho [? ?] _ _]. done.
Qed.

Lemma blocked_workflow_stalls_witness :
  WorkQueue.is_final (wg_status (WorkflowEngine.tick short_id engine
    (WorkflowEngine.tick short_id engine stuck))) = false.
Proof.
  eapply (blocked_workflow_stalls listed_order short_id engine stuck); [exact stuck_blocked|].
  eapply rtc_l; [apply polled_tick|]. eapply rtc_l; [apply polled_tick|]. apply rtc_refl.
Defined.

(** Cancelling a workflow finishes it and all its nodes: nodes that had
    finished keep everything they had, every other node becomes cancelled with
    nothing else changed, and no later tick changes the workflow. *)
Theorem cancel_finishes (HO : HashOrder) short_id self (graph : WorkflowGraph) :
  NoDup (node_ids graph) →
  let graph' := WorkflowEngine.cancel_workflow graph in
  wg_status graph' = "cancelled"
  ∧ Forall2 (λ n n', n' = if WorkQueue.is_final (wn_status n) then n
                         else n <| wn_status := "cancelled" |>)
      (wg_nodes graph) (wg_nodes graph')
  ∧ ResultAggregator.is_complete graph' = true
  ∧ WorkflowEngine.tick short_id self graph' = graph'.
Proof.
  intros Hg graph'. split_and!; [done| | |by apply tick_final].
  - unfold graph'. rewrite cancel_nodes by done. apply Forall2_fmap_r, Forall_Forall2_diag.
    apply Forall_true. intros n. unfold compose, cancelled.
    by destruct (WorkQueue.is_final (wn_status n)), n.
  - unfold ResultAggregator.is_complete, graph'. rewrite cancel_nodes by done.
    apply forallb_forall. intros n' (n & -> & _)%list_elem_of_In%list_elem_of_fmap.
    unfold cancelled. destruct (WorkQueue.is_final (wn_status n)) eqn:E; done.
Qed.

Lemma cancel_finishes_witness :
  ResultAggregator.is_complete (WorkflowEngine.cancel_workflow diamond) = true.
Proof. apply (cancel_finishes listed_order short_id engine), diamond_ids. Defined.

(** ** Agents and budgets *)

(** After any sequence of registrations that do not lower a capacity,
    assignments of unassigned nodes and releases, the active count of every
    role is the number of nodes it holds and is within its capacity.  An
    assignment is refused exactly when every role capable of the task is full,
    and then changes nothing. *)
Theorem registry_counts_exact (HO : HashOrder) (r : AgentRoleRegistry.AgentRoleRegistry) :
  rtc registry_step AgentRoleRegistry.registry_new r →
  (∀ id, AgentRoleRegistry.active_of r id = held_by r id)
  ∧ (∀ id role, AgentRoleRegistry.roles r !! id = Some role →
       (AgentRoleRegistry.active_of r id ≤ role_max_concurrent_nodes role)%Z)
  ∧ (∀ workflow_id node_id task_type,
       let '(res, r') := AgentRoleRegistry.assign_agent workflow_id node_id task_type r in
       (res = None ↔ ∀ id role, AgentRoleRegistry.roles r !! id = Some role →
          task_type ∈ role_capabilities role →
          held_by r id = role_max_concurrent_nodes role)
       ∧ (res = None → r' = r)).
Proof.
  intros Hi%registry_reachable_inv. pose proof Hi as [Hk Ha Hc _]. split_and!; [done..|].
  intros workflow_id node_id task_type. unfold AgentRoleRegistry.assign_agent.
  set (cands := role_id <$> _).
  assert (Hin : ∀ id role, AgentRoleRegistry.roles r !! id = Some role →
    id ∈ cands ↔ task_type ∈ role_capabilities role).
  { intros id role Hr. unfold cands, AgentRoleRegistry.roles_for_task_type.
    rewrite list_elem_of_fmap. split.
    - intros (role' & E & [Ht ([i rl] & -> & Hm%elem_of_hash_iter)%list_elem_of_fmap]
        %list_elem_of_filter). cbn in *. pose proof (Hk _ _ Hm). congruence.
    - intros Ht. exists role. split; [symmetry; by apply Hk|]. apply list_elem_of_filter.
      split; [done|]. apply list_elem_of_fmap. exists (id, role). by rewrite elem_of_hash_iter. }
  pose proof (assign_first_spec workflow_id node_id cands r) as Hs.
  destruct (AgentRoleRegistry.assign_first _ _ _ _) as [res r'].
  destruct Hs as [(-> & -> & Hfull)|(id & role & -> & Hid & Hr & Hlt & _)].
  - split; [|done]. split; [|done]. intros _ id role Hr Ht. rewrite <-Ha.
    specialize (Hfull id role (proj2 (Hin _ _ Hr) Ht) Hr). specialize (Hc _ _ Hr). lia.
  - split; [|done]. split; [done|]. intros Hfull.
    specialize (Hfull id role Hr (proj1 (Hin _ _ Hr) Hid)). rewrite Ha in Hlt. lia.
Qed.

Lemma registry_counts_exact_witness :
  let r := (AgentRoleRegistry.assign_agent "wf" "n1" "code"
              (AgentRoleRegistry.register_role (role "coder" 2) AgentRoleRegistry.registry_new)).2 in
  AgentRoleRegistry.active_of r "coder" = held_by r "coder" ∧ held_by r "coder" = 1%Z.
Proof.
  intros r. split; [|vm_compute; reflexivity].
  refine (proj1 (registry_counts_exact listed_order r _) "coder").
  apply (rtc_l _ _ (AgentRoleRegistry.register_role (role "coder" 2) AgentRoleRegistry.registry_new)).
  - apply registry_register; [done|by intros old E].
  - apply rtc_once. apply (registry_assign "wf" "n1" "code"). apply lookup_empty.
Defined.

(** A reservation is checked against the recorded costs only, never
    against earlier reservations: once a reservation of some cost has been
    granted, the same cost is granted again for any node, as often as it is
    asked for, however small the workflow's limit is. *)
Theorem reservations_never_accumulate workflow_id node_id agent_id cost manager manager' :
  MultiAgentBudgetManager.reserve_node_budget workflow_id node_id agent_id cost manager
    = (true, manager') →
  ∀ nodes : list string,
    let manager2 := foldl (λ m n, (MultiAgentBudgetManager.reserve_node_budget workflow_id n
                                     agent_id cost m).2) manager' nodes in
    ∀ n, (MultiAgentBudgetManager.reserve_node_budget workflow_id n agent_id cost manager2).1
         = true.
Proof.
  intros H%reserve_granted nodes. cbv zeta.
  assert (Hm : grants workflow_id agent_id cost manager') by by apply H. clear H.
  revert manager' Hm. induction nodes as [|x nodes IH]; intros m Hm n; simpl.
  - by apply grants_reserve.
  - apply IH. by apply grants_reserve.
Qed.

Lemma reservations_never_accumulate_witness :
  let m := (MultiAgentBudgetManager.create_workflow_budget "wf" (f64_of_Z 10)
              (MultiAgentBudgetManager.budget_manager_new "cancel")).2 in
  let m1 := (MultiAgentBudgetManager.reserve_node_budget "wf" "a" "x" (f64_of_Z 9) m).2 in
  (MultiAgentBudgetManager.reserve_node_budget "wf" "c" "x" (f64_of_Z 9)
    (foldl (λ m n, (MultiAgentBudgetManager.reserve_node_budget "wf" n "x" (f64_of_Z 9) m).2)
       m1 ["b"])).1 = true.
Proof.
  intros m m1. apply (reservations_never_accumulate "wf" "a" "x" (f64_of_Z 9) m m1).
  vm_compute. reflexivity.
Defined.
