(* ===== verification/CircuitBreaker.v ===== *)
(** * Circuit breaker

    Model of infrastructure/circuit_breaker.rs and of the provider wrapper of
    provider/circuit_breaker_provider.rs.  A protected call is a guard, the call
    itself and a record of its outcome; other calls may come between these.  Here
    each of these operations takes effect as a whole; the code makes several
    atomic accesses in each, which [BreakerAccess] models one by one.  Clock
    readings are arguments, in nanoseconds.  The specification is a three-state
    automaton, which answers every sequence of whole operations alike. *)

From S2P Require Import Prelude.

Local Open Scope Z_scope.

(** ** Model *)

Inductive CircuitState : Type := Closed | Open | HalfOpen.
#[export] Instance CircuitState_eq_dec : EqDecision CircuitState.
Proof. solve_decision. Defined.

Inductive CircuitBreakerError (E : Type) : Type :=
  | CircuitOpen
  | Inner (e : E).
Arguments CircuitOpen {E}.
Arguments Inner {E} e.

Record CircuitBreaker : Type := mkBreaker {
  breaker_name : string;
  breaker_state : CircuitState;
  failure_count : Z;
  success_count : Z;
  total_calls : Z;
  failure_threshold : Z;
  recovery_timeout_ms : Z;
  last_failure_at : option Z;
  consecutive_successes_in_half_open : Z;
}.
#[export] Instance eta_CircuitBreaker : Eta CircuitBreaker := λ b,
  mkBreaker (breaker_name b) (breaker_state b) (failure_count b) (success_count b)
    (total_calls b) (failure_threshold b) (recovery_timeout_ms b) (last_failure_at b)
    (consecutive_successes_in_half_open b).

Definition breaker_new (name : string) (threshold timeout_ms : Z) : CircuitBreaker :=
  mkBreaker name Closed 0 0 0 threshold timeout_ms None 0.

Definition transition_to (new_state : CircuitState) (b : CircuitBreaker) : CircuitBreaker :=
  b <| breaker_state := new_state |>.

(** [t.elapsed().as_millis() as u64]; an earlier clock reading elapses zero. *)
Definition elapsed_ms (t now : Z) : Z := u64_wrap (Z.max (now - t) 0 / 1000000).

Definition should_try_reset (now : Z) (b : CircuitBreaker) : bool :=
  match last_failure_at b with
  | Some t => recovery_timeout_ms b <=? elapsed_ms t now
  | None => true
  end.

Definition record_call (b : CircuitBreaker) : CircuitBreaker :=
  b <| total_calls := u64_add (total_calls b) 1 |>.

Definition record_success (b : CircuitBreaker) : CircuitBreaker :=
  let b := b <| success_count := u64_add (success_count b) 1 |>
             <| failure_count := 0 |> in
  match breaker_state b with
  | HalfOpen =>
    let consec := u64_add (consecutive_successes_in_half_open b) 1 in
    let b := b <| consecutive_successes_in_half_open := consec |> in
    if 2 <=? consec
    then transition_to Closed b <| consecutive_successes_in_half_open := 0 |>
    else b
  | Closed | Open => b
  end.

Definition record_failure (now : Z) (b : CircuitBreaker) : CircuitBreaker :=
  let count := u64_add (failure_count b) 1 in
  let b := b <| failure_count := count |>
             <| success_count := 0 |>
             <| last_failure_at := Some now |> in
  match breaker_state b with
  | Closed => if failure_threshold b <=? count then transition_to Open b else b
  | HalfOpen => transition_to Open b <| consecutive_successes_in_half_open := 0 |>
  | Open => b
  end.

Definition reset (b : CircuitBreaker) : CircuitBreaker :=
  transition_to Closed b
    <| failure_count := 0 |>
    <| success_count := 0 |>
    <| consecutive_successes_in_half_open := 0 |>
    <| last_failure_at := None |>.

(** The guard both [call] and [invoke] start with: whether the inner call is
    made, counted if so. *)
Definition guard_call (now : Z) (b : CircuitBreaker) : bool * CircuitBreaker :=
  match breaker_state b with
  | Open =>
    if should_try_reset now b then (true, record_call (transition_to HalfOpen b))
    else (false, b)
  | HalfOpen | Closed => (true, record_call b)
  end.

(** [f] is what the closure returns, [later] the clock when it does. *)
Definition call {T E} (now later : Z) (f : result E T) (b : CircuitBreaker)
    : result (CircuitBreakerError E) T * CircuitBreaker :=
  match guard_call now b with
  | (false, b) => (Err CircuitOpen, b)
  | (true, b) =>
    match f with
    | Ok v => (Ok v, record_success b)
    | Err e => (Err (Inner e), record_failure later b)
    end
  end.

Record ProviderError : Type := mkProviderError {
  pe_schema_version : string;
  pe_provider_id : string;
  pe_error_domain : string;
  pe_message : string;
  pe_retryable : bool;
}.

(** [CircuitBreakerProvider::invoke] up to the provider's answer, and after
    it. *)
Definition invoke_begin (provider_id : string) (now : Z) (b : CircuitBreaker)
    : result ProviderError unit * CircuitBreaker :=
  match guard_call now b with
  | (false, b) =>
    (Err (mkProviderError "provider_error.v1" provider_id "provider_circuit_open"
       "circuit breaker is open; provider calls are temporarily blocked" false), b)
  | (true, b) => (Ok (), b)
  end.

Definition invoke_end {T} (later : Z) (answer : result ProviderError T) (b : CircuitBreaker)
    : result ProviderError T * CircuitBreaker :=
  match answer with
  | Ok result => (Ok result, record_success b)
  | Err err => (Err err, record_failure later b)
  end.

(** ** Specification *)

(** [AClosed n] after [n] failures in a row, [AOpen t] since the failure at
    [t], [AHalf k] after [k] probes that succeeded. *)
Inductive automaton : Type := AClosed (n : Z) | AOpen (t : Z) | AHalf (k : Z).

(** What tasks do to a breaker, one operation after the other. *)
Inductive event : Type :=
  | Begin (now : Z)
  | Succeed
  | Fail (now : Z)
  | Reset.

Section spec.
Context (threshold timeout_ms : Z).

Definition spec_step (a : automaton) (e : event) : option bool * automaton :=
  match e, a with
  | Begin now, AOpen t =>
    if timeout_ms <=? elapsed_ms t now then (Some true, AHalf 0) else (Some false, a)
  | Begin _, _ => (Some true, a)
  | Succeed, AClosed _ => (None, AClosed 0)
  | Succeed, AHalf k => (None, if 2 <=? k + 1 then AClosed 0 else AHalf (k + 1))
  | Succeed, AOpen t => (None, AOpen t)
  | Fail now, AClosed n => (None, if threshold <=? n + 1 then AOpen now else AClosed (n + 1))
  | Fail now, _ => (None, AOpen now)
  | Reset, _ => (None, AClosed 0)
  end.
End spec.

Definition breaker_step (b : CircuitBreaker) (e : event) : option bool * CircuitBreaker :=
  match e with
  | Begin now => let '(ok, b) := guard_call now b in (Some ok, b)
  | Succeed => (None, record_success b)
  | Fail now => (None, record_failure now b)
  | Reset => (None, reset b)
  end.

(** The replies to a sequence of events and the state after it. *)
Fixpoint replies {S} (step : S → event → option bool * S) (s : S) (es : list event)
    : list (option bool) * S :=
  match es with
  | [] => ([], s)
  | e :: es =>
    let '(r, s) := step s e in
    let '(rs, s) := replies step s es in
    (r :: rs, s)
  end.

(** ** Simulation *)

Section simulation.
Context (threshold timeout_ms : Z).

Record simulates (b : CircuitBreaker) (a : automaton) : Prop := {
  sim_threshold : failure_threshold b = threshold;
  sim_timeout : recovery_timeout_ms b = timeout_ms;
  sim_state : match a with
    | AClosed n => breaker_state b = Closed ∧ failure_count b = n ∧ 0 <= n
                   ∧ (n = 0 ∨ n < threshold) ∧ consecutive_successes_in_half_open b = 0
    | AOpen t => breaker_state b = Open ∧ last_failure_at b = Some t
                 ∧ consecutive_successes_in_half_open b = 0
    | AHalf k => breaker_state b = HalfOpen ∧ consecutive_successes_in_half_open b = k
                 ∧ 0 <= k <= 1
    end;
}.

Lemma new_simulates name : simulates (breaker_new name threshold timeout_ms) (AClosed 0).
Proof. split; [done..|]. cbn. split_and!; [done..|lia|by left|done]. Qed.

Lemma step_simulates b a e :
  is_u64 threshold → simulates b a →
  let '(r, b') := breaker_step b e in
  let '(r', a') := spec_step threshold timeout_ms a e in
  r = r' ∧ simulates b' a'.
Proof.
  intros Ht [Hth Hto Hs]. destruct e as [now| |now|]; destruct a as [n|t|k];
    destruct Hs as (Hst & Hs); cbn [breaker_step spec_step].
  - unfold guard_call. rewrite Hst. split; [done|]. by split.
  - unfold guard_call, should_try_reset. destruct Hs as [Hl Hc]. rewrite Hst, Hl, Hto.
    destruct (timeout_ms <=? elapsed_ms t now); (split; [done|]); split; done || cbn; by split_and!.
  - unfold guard_call. rewrite Hst. split; [done|]. by split.
  - unfold record_success. cbn. rewrite Hst. split; [done|]. split; [done..|]. cbn.
    destruct Hs as (_ & _ & _ & ?). split_and!; [done..|by left|done].
  - unfold record_success. cbn. rewrite Hst. split; [done|]. by split.
  - unfold record_success. cbn. rewrite Hst. destruct Hs as [Hc Hk]. rewrite Hc.
    rewrite u64_add_small by int_lia. destruct (2 <=? k + 1) eqn:E.
    + split; [done|]. split; [done..|]. cbn. split_and!; [done..|by left|done].
    + apply Z.leb_gt in E. split; [done|]. split; [done..|]. cbn. split_and!; [done..|lia|lia].
  - unfold record_failure. cbn. rewrite Hst, Hth. destruct Hs as (Hn & H0 & Hlt & Hc). rewrite Hn.
    rewrite u64_add_small by int_lia. destruct (threshold <=? n + 1) eqn:E.
    + split; [done|]. by split.
    + apply Z.leb_gt in E. split; [done|]. split; [done..|]. cbn. split_and!; [done..|lia|lia|done].
  - unfold record_failure. cbn. rewrite Hst. destruct Hs. split; [done|].
    split; [done..|]. by split_and!.
  - unfold record_failure. cbn. rewrite Hst. split; [done|]. by split.
  - split; [done|]. split; [done..|]. cbn. split_and!; [done..|by left|done].
  - split; [done|]. split; [done..|]. cbn. split_and!; [done..|by left|done].
  - split; [done|]. split; [done..|]. cbn. split_and!; [done..|by left|done].
Qed.

Lemma replies_simulate b a es :
  is_u64 threshold → simulates b a →
  let '(rs, b') := replies breaker_step b es in
  let '(rs', a') := replies (spec_step threshold timeout_ms) a es in
  rs = rs' ∧ simulates b' a'.
Proof.
  intros Ht. revert b a. induction es as [|e es IH]; intros b a Hs; [done|]. cbn [replies].
  pose proof (step_simulates b a e Ht Hs) as Hstep.
  destruct (breaker_step b e) as [r b1], (spec_step threshold timeout_ms a e) as [r' a1].
  destruct Hstep as [-> Hs1]. specialize (IH b1 a1 Hs1).
  destruct (replies breaker_step b1 es), (replies (spec_step _ _) a1 es).
  destruct IH as [-> ?]. done.
Qed.
End simulation.

(** Guards of a half-open breaker are all let through. *)
Lemma half_open_begins b probes :
  breaker_state b = HalfOpen ∧ consecutive_successes_in_half_open b = 0 →
  let '(rs, b') := replies breaker_step b (Begin <$> probes) in
  Forall (λ r, r = Some true) rs ∧ breaker_state b' = HalfOpen
  ∧ consecutive_successes_in_half_open b' = 0.
Proof.
  revert b. induction probes as [|now probes IH]; intros b [Hs Hc]; [by repeat constructor|].
  rewrite fmap_cons. cbn [replies breaker_step]. unfold guard_call. rewrite Hs.
  specialize (IH (record_call b) (conj Hs Hc)).
  destruct (replies breaker_step (record_call b) _) as [rs b'].
  destruct IH as (Hrs & ? & ?). split_and!; [by constructor|done..].
Qed.

(** ** Theorems *)

(** One successful probe does not close a half-open breaker, and a probe in
    flight does not keep others out.  When the recovery timeout of an open
    breaker has elapsed, any number of guards are let through before the first
    answer; after one success it is still half-open, and it closes only at the
    second. *)
Theorem half_open_takes_two (b : CircuitBreaker) (now t : Z) (probes : list Z) :
  breaker_state b = Open → last_failure_at b = Some t →
  consecutive_successes_in_half_open b = 0 →
  recovery_timeout_ms b <= elapsed_ms t now →
  let '(rs, b1) := replies breaker_step b (Begin <$> now :: probes) in
  Forall (λ r, r = Some true) rs
  ∧ breaker_state b1 = HalfOpen
  ∧ breaker_state (record_success b1) = HalfOpen
  ∧ breaker_state (record_success (record_success b1)) = Closed.
Proof.
  intros Hst Hl Hc He. rewrite fmap_cons. cbn [replies breaker_step].
  unfold guard_call, should_try_reset. rewrite Hst, Hl, (proj2 (Z.leb_le _ _) He).
  set (b0 := record_call _).
  assert (H0 : breaker_state b0 = HalfOpen ∧ consecutive_successes_in_half_open b0 = 0) by done.
  clearbody b0. pose proof (half_open_begins b0 probes H0) as H.
  destruct (replies breaker_step b0 _) as [rs b1]. destruct H as (Hrs & Hs1 & Hc1).
  destruct b1. cbn in Hs1, Hc1. subst. by split_and!; [constructor|..].
Qed.

Lemma half_open_takes_two_witness :
  let b := (replies breaker_step (breaker_new "p" 1 50) [Begin 0; Fail 1]).2 in
  let '(rs, b1) := replies breaker_step b (Begin <$> [100000000; 100000001; 100000002]) in
  Forall (λ r, r = Some true) rs ∧ breaker_state b1 = HalfOpen
  ∧ breaker_state (record_success b1) = HalfOpen
  ∧ breaker_state (record_success (record_success b1)) = Closed.
Proof.
  intros b. apply (half_open_takes_two b 100000000 1); [done|done|done|].
  vm_compute. discriminate.
Defined.
