(* ===== verification/BreakerAccess.v ===== *)
(** * The circuit breaker, access by access

    The operations of infrastructure/circuit_breaker.rs share no lock: each is a
    sequence of accesses to atomics and to the mutex around the time of the last
    failure, and the accesses of concurrent calls interleave.  [access] is one of
    them, with what a task still has to do as its program counter.  An operation
    that no other overlaps has the effect [CircuitBreaker] gives it, so sequences
    of operations that do not overlap are answered as by the automaton.  When they
    do overlap, a breaker with fewer failures than its threshold still rejects no
    call; but a success can close a breaker that a failure has just opened. *)

From S2P Require Import Prelude CircuitBreaker.
From stdpp Require Import relations.

Local Open Scope Z_scope.

(** ** Accesses *)

(** The access a task makes next. *)
Inductive pc : Type :=
  | LoadState                     (** [call]: [self.state()] *)
  | ReadElapsed                   (** [should_try_reset] under the mutex *)
  | StoreHalfOpen
  | AddTotalCalls
  | Rejected                      (** [Err(CircuitOpen)] *)
  | LetThrough                    (** the inner call is under way *)
  | AddSuccess                    (** [record_success] *)
  | SwapFailures
  | LoadAfterSuccess
  | AddConsecutive
  | StoreClosed
  | ClearConsecutive
  | AddFailure                    (** [record_failure] *)
  | ClearSuccesses (count : Z)
  | WriteLastFailure (count : Z)
  | LoadAfterFailure (count : Z)
  | StoreOpen
  | StoreReopened
  | ResetState                    (** [reset] *)
  | ResetFailures
  | ResetSuccesses
  | ResetConsecutive
  | ResetLastFailure
  | Finished.

(** One access at time [now]: the next one, and the memory after it. *)
Definition access (now : Z) (p : pc) (b : CircuitBreaker) : pc * CircuitBreaker :=
  match p with
  | LoadState =>
    (match breaker_state b with Open => ReadElapsed | HalfOpen | Closed => AddTotalCalls end, b)
  | ReadElapsed => (if should_try_reset now b then StoreHalfOpen else Rejected, b)
  | StoreHalfOpen => (AddTotalCalls, transition_to HalfOpen b)
  | AddTotalCalls => (LetThrough, record_call b)
  | AddSuccess => (SwapFailures, b <| success_count := u64_add (success_count b) 1 |>)
  | SwapFailures => (LoadAfterSuccess, b <| failure_count := 0 |>)
  | LoadAfterSuccess =>
    (match breaker_state b with HalfOpen => AddConsecutive | Closed | Open => Finished end, b)
  | AddConsecutive =>
    let consec := u64_add (consecutive_successes_in_half_open b) 1 in
    (if 2 <=? consec then StoreClosed else Finished,
     b <| consecutive_successes_in_half_open := consec |>)
  | StoreClosed => (ClearConsecutive, transition_to Closed b)
  | ClearConsecutive => (Finished, b <| consecutive_successes_in_half_open := 0 |>)
  | AddFailure =>
    let count := u64_add (failure_count b) 1 in
    (ClearSuccesses count, b <| failure_count := count |>)
  | ClearSuccesses count => (WriteLastFailure count, b <| success_count := 0 |>)
  | WriteLastFailure count => (LoadAfterFailure count, b <| last_failure_at := Some now |>)
  | LoadAfterFailure count =>
    (match breaker_state b with
     | Closed => if failure_threshold b <=? count then StoreOpen else Finished
     | HalfOpen => StoreReopened
     | Open => Finished
     end, b)
  | StoreOpen => (Finished, transition_to Open b)
  | StoreReopened => (ClearConsecutive, transition_to Open b)
  | ResetState => (ResetFailures, transition_to Closed b)
  | ResetFailures => (ResetSuccesses, b <| failure_count := 0 |>)
  | ResetSuccesses => (ResetConsecutive, b <| success_count := 0 |>)
  | ResetConsecutive => (ResetLastFailure, b <| consecutive_successes_in_half_open := 0 |>)
  | ResetLastFailure => (Finished, b <| last_failure_at := None |>)
  | Rejected | LetThrough | Finished => (p, b)
  end.

(** ** Operations that no other overlaps *)

Definition first_access (e : event) : pc :=
  match e with
  | Begin _ => LoadState
  | Succeed => AddSuccess
  | Fail _ => AddFailure
  | Reset => ResetState
  end.

Definition time_of (e : event) : Z :=
  match e with Begin now | Fail now => now | Succeed | Reset => 0 end.

(** No operation makes more than six accesses. *)
Definition alone (e : event) (b : CircuitBreaker) : pc * CircuitBreaker :=
  Nat.iter 6 (λ s, access (time_of e) s.1 s.2) (first_access e, b).

(** What the task is told: whether its call was let through. *)
Definition access_step (b : CircuitBreaker) (e : event) : option bool * CircuitBreaker :=
  let '(p, b) := alone e b in
  (match p with LetThrough => Some true | Rejected => Some false | _ => None end, b).

Lemma access_step_whole b e : access_step b e = breaker_step b e.
Proof.
  destruct b as [name st fc sc tc th to lf hc], e as [now| |now|];
    cbv [access_step alone first_access time_of breaker_step guard_call record_success record_failure
         reset Nat.iter]; destruct st; cbn [access breaker_state fst snd]; try reflexivity.
  - cbn. by destruct (should_try_reset _ _).
  - cbn. by destruct (2 <=? _).
  - cbn. by destruct (th <=? _).
Qed.

Lemma replies_ext {S} (f g : S → event → option bool * S) s es :
  (∀ s e, f s e = g s e) → replies f s es = replies g s es.
Proof.
  intros H. revert s. induction es as [|e es IH]; intros s; [done|]. cbn [replies].
  rewrite H. destruct (g s e) as [r s']. by rewrite IH.
Qed.

(** ** Operations that overlap *)

(** The memory, the tasks, and how many failures were counted so far. *)
Record machine : Type := mkMachine {
  memory : CircuitBreaker;
  tasks : list pc;
  failures : Z;
}.

Definition is_add_failure (p : pc) : bool := match p with AddFailure => true | _ => false end.

(** The [i]-th task makes its next access. *)
Definition advance (i : nat) (now : Z) (m : machine) : machine :=
  match tasks m !! i with
  | Some p =>
    let '(p', b) := access now p (memory m) in
    mkMachine b (<[i := p']> (tasks m)) (failures m + if is_add_failure p then 1 else 0)
  | None => m
  end.

(** A call or a reset begins, an inner call answers, or some task makes its next
    access. *)
Inductive machine_step (m : machine) : machine → Prop :=
  | ms_begin p :
      p = LoadState ∨ p = ResetState →
      machine_step m (mkMachine (memory m) (tasks m ++ [p]) (failures m))
  | ms_answer i p :
      tasks m !! i = Some LetThrough → p = AddSuccess ∨ p = AddFailure →
      machine_step m (mkMachine (memory m) (<[i := p]> (tasks m)) (failures m))
  | ms_access i now : machine_step m (advance i now m).

(** Where a task may be while the breaker has never opened. *)
Definition calm_task (n : Z) (p : pc) : Prop :=
  match p with
  | ReadElapsed | StoreHalfOpen | Rejected | AddConsecutive | StoreClosed | ClearConsecutive
  | StoreOpen | StoreReopened => False
  | ClearSuccesses count | WriteLastFailure count | LoadAfterFailure count => count <= n
  | _ => True
  end.

Record calm_machine (threshold : Z) (m : machine) : Prop := {
  cm_threshold : failure_threshold (memory m) = threshold;
  cm_state : breaker_state (memory m) = Closed;
  cm_count : 0 <= failure_count (memory m) <= failures m;
  cm_tasks : Forall (calm_task (failures m)) (tasks m);
}.

Lemma calm_task_mono n n' p : n <= n' → calm_task n p → calm_task n' p.
Proof. destruct p; cbn; try done; lia. Qed.

Lemma access_calm threshold b p n now :
  failure_threshold b = threshold → breaker_state b = Closed → 0 <= failure_count b <= n →
  calm_task n p → is_u64 threshold → n + (if is_add_failure p then 1 else 0) < threshold →
  let '(p', b') := access now p b in
  failure_threshold b' = threshold ∧ breaker_state b' = Closed
  ∧ 0 <= failure_count b' <= n + (if is_add_failure p then 1 else 0)
  ∧ calm_task (n + if is_add_failure p then 1 else 0) p'.
Proof.
  intros Ht Hs Hc Hp Hu Hn. destruct p; cbn in *; rewrite ?Hs in *; try done;
    try (split_and!; first [done|lia]).
  - rewrite u64_add_small by int_lia. split_and!; first [done|lia].
  - rewrite Ht, (proj2 (Z.leb_gt _ _)) by lia. split_and!; first [done|lia].
Qed.

Lemma machine_failures m m' : machine_step m m' → failures m <= failures m'.
Proof.
  destruct 1; cbn; [lia..|]. unfold advance. destruct (tasks m !! i); [|done].
  destruct (access _ _ _). cbn. case_match; lia.
Qed.

Lemma calm_step threshold m m' :
  is_u64 threshold → machine_step m m' → failures m' < threshold →
  calm_machine threshold m → calm_machine threshold m'.
Proof.
  intros Hu H Hn [Ht Hs Hc Hp]. destruct H as [p Hk|i p Hi Hk|i now].
  - split; [done..|]. apply Forall_app. split; [done|]. apply Forall_singleton. by destruct Hk as [-> | ->].
  - split; [done..|]. apply Forall_insert; [done|]. by destruct Hk as [-> | ->].
  - unfold advance in *. destruct (tasks m !! i) as [p|] eqn:Ei; [|done].
    pose proof (access_calm threshold (memory m) p (failures m) now Ht Hs Hc
      (Forall_lookup_1 _ _ _ _ Hp Ei) Hu) as H.
    destruct (access now p (memory m)) as [p' b']. cbn in Hn. destruct (H Hn) as (? & ? & ? & ?).
    split; [done..|]. cbn. apply Forall_insert; [|done]. eapply Forall_impl; [exact Hp|].
    intros q. apply calm_task_mono. case_match; lia.
Qed.

(** While fewer failures than the threshold were counted, whatever tasks overlap,
    the breaker is closed and no call was rejected. *)
Theorem few_failures_admitted name threshold timeout_ms m :
  is_u64 threshold →
  rtc machine_step (mkMachine (breaker_new name threshold timeout_ms) [] 0) m →
  failures m < threshold →
  breaker_state (memory m) = Closed ∧ Rejected ∉ tasks m.
Proof.
  intros Hu H Hn. assert (calm_machine threshold m) as [_ Hs _ Hp].
  { revert m H Hn. apply (rtc_ind_r (λ m, failures m < threshold → calm_machine threshold m)).
    - intros _. split; [done|done|cbn; lia|constructor].
    - intros m1 m2 _ Hstep IH Hn. eapply calm_step; [done..|]. apply IH.
      pose proof (machine_failures _ _ Hstep). lia. }
  split; [done|]. intros Hin. by apply (proj1 (Forall_forall _ _) Hp) in Hin.
Qed.

(** ** Theorems *)

(** C32: A sequence of guards, successes, failures and resets that do not overlap,
    each a run of its accesses to the end, on a breaker made with a threshold and
    a timeout: every guard is answered as by the automaton, and the reported state
    is the automaton's.  So the breaker opens at the threshold-th failure in a
    row, rejects every call until the recovery timeout after the last failure,
    then lets calls through half-open, closes after two successes there and
    reopens at any failure.  (The comment on the type says that a single probe is
    let through and that its success closes the breaker.)  Between the guard and
    the outcome of a call there may be any operations of other calls; that the
    accesses of two operations do not interleave is assumed, and needed, see
    [overlap_closes_reopened]. *)
Theorem breaker_refines_automaton (name : string) (threshold timeout_ms : Z) (es : list event) :
  is_u64 threshold →
  let '(rs, b) := replies access_step (breaker_new name threshold timeout_ms) es in
  let '(rs', a) := replies (spec_step threshold timeout_ms) (AClosed 0) es in
  rs = rs'
  ∧ breaker_state b = match a with AClosed _ => Closed | AOpen _ => Open | AHalf _ => HalfOpen end.
Proof.
  intros Ht. rewrite (replies_ext access_step breaker_step) by apply access_step_whole.
  pose proof (replies_simulate threshold timeout_ms
    (breaker_new name threshold timeout_ms) (AClosed 0) es Ht (new_simulates _ _ _)) as H.
  destruct (replies breaker_step _ es) as [rs b], (replies (spec_step _ _) _ es) as [rs' a].
  destruct H as [-> [_ _ Hs]]. split; [done|]. destruct a; apply Hs.
Qed.

Lemma breaker_refines_automaton_witness :
  let es := [Begin 0; Fail 1; Begin 2; Fail 3; Begin 4; Begin 100000000; Succeed; Begin 100000001;
             Succeed] in
  let '(rs, b) := replies access_step (breaker_new "p" 2 50) es in
  rs = [Some true; None; Some true; None; Some false; Some true; None; Some true; None]
  ∧ breaker_state b = Closed.
Proof.
  intros es. pose proof (breaker_refines_automaton "p" 2 50 es ltac:(int_lia)) as H.
  assert (E : replies (spec_step 2 50) (AClosed 0) es =
    ([Some true; None; Some true; None; Some false; Some true; None; Some true; None], AClosed 0))
    by (vm_compute; reflexivity).
  rewrite E in H. exact H.
Defined.

(** ** When operations overlap *)

(** A half-open breaker with one success: the second success has read the state,
    then a failure opens the breaker again, and then the success closes it.  Calls
    are let through at once, although the last outcome was a failure and no
    recovery time has passed. *)
Definition half_open : CircuitBreaker :=
  (replies access_step (breaker_new "p" 1 50) [Begin 0; Fail 1; Begin 100000000; Succeed]).2.
Definition overlap : machine :=
  let succeeding := Nat.iter 3 (advance 0 100000001) (mkMachine half_open [AddSuccess; AddFailure] 0) in
  let failed := Nat.iter 5 (advance 1 100000002) succeeding in
  Nat.iter 3 (advance 0 100000003) failed.

Example overlap_closes_reopened :
  breaker_state (memory overlap) = Closed
  ∧ last_failure_at (memory overlap) = Some 100000002
  ∧ (access_step (memory overlap) (Begin 100000004)).1 = Some true.
Proof. vm_compute. done. Qed.
