(* ===== verification/Concurrency.v ===== *)
(** * The concurrency controller

    Model of workflow/concurrency: which of the ready items of a task graph run
    next to each other.  Items are JSON values; the graph and the active file
    claims decide which of them are blocked, and the files they read and write
    decide which of the rest can share a batch. *)

From S2P Require Import Prelude Json.

Local Open Scope Z_scope.

Section concurrency.
Context {V : Type} `{JV : JsonValue V}.

(** ** Data *)

Record FileOverlap : Type := mkFileOverlap {
  item_a_id : string;
  item_b_id : string;
  overlap_files : list string;
}.

Record ScheduleBatch : Type := mkScheduleBatch {
  scheduled_items : list V;
  blocked_items : list V;
  file_overlaps : list FileOverlap;
  warnings : list string;
}.

Record DagNode : Type := mkDagNode {
  dn_node_id : string;
  dn_task_id : option string;
  dn_node_type : string;
  dn_status : string;
  dn_tier : string;
  dn_metadata : V;
}.

Record DagEdge : Type := mkDagEdge {
  de_edge_id : string;
  de_from_node : string;
  de_to_node : string;
  de_dependency_type : string;
  de_status : string;
}.

Record DagState : Type := mkDagState {
  ds_dag_id : string;
  ds_version : Z;
  ds_nodes : list DagNode;
  ds_edges : list DagEdge;
  ds_created_at : string;
  ds_updated_at : string;
}.

Definition empty_batch : ScheduleBatch := mkScheduleBatch [] [] [] [].

(** ** Items *)

Definition item_id (item : V) : string :=
  let named key := non_empty (as_object item ≫= λ obj, get_str obj key) in
  match named "node_id" with
  | Some id => id
  | None =>
    match named "task_id" with
    | Some id => id
    | None =>
      match named "item_id" with
      | Some id => id
      | None => default "" (as_str item)
      end
    end
  end.

Definition metadata (item : V) : V := default item (json_get item "metadata").

(** [meta.get(key).and_then(as_array)], its strings. *)
Definition string_list (item : V) (key : string) : list string :=
  match json_get (metadata item) key ≫= as_array with
  | Some arr => omap as_str arr
  | None => []
  end.

Definition read_files (item : V) : list string := sort_strings (string_list item "read_files").
Definition write_files (item : V) : list string := sort_strings (string_list item "write_files").

Definition conflicting_files (item_a item_b : V) : list string :=
  let a_writes : gset string := list_to_set (write_files item_a) in
  let b_writes : gset string := list_to_set (write_files item_b) in
  let a_reads : gset string := list_to_set (read_files item_a) in
  let b_reads : gset string := list_to_set (read_files item_b) in
  let conflicts :=
    filter (λ f, f ∈ b_writes ∨ f ∈ b_reads) a_writes ∪ filter (λ f, f ∈ a_reads) b_writes in
  sort_strings (elements conflicts).

(** ** Blocked items *)

Definition edge_blocks (edge : DagEdge) (item : V) (node_status : gmap string string) : bool :=
  if bool_decide (de_dependency_type edge = "soft") then false
  else if bool_decide (de_status edge = "satisfied") then false
  else if bool_decide (de_dependency_type edge = "artifact") then
    let verified := string_list item "verified_artifacts" in
    negb (bool_decide (de_edge_id edge ∈ verified))
    && negb (bool_decide (de_from_node edge ∈ verified))
  else negb (bool_decide (node_status !! de_from_node edge = Some "completed")).

(** Collecting pairs into a [HashMap]: the last one of a key stays. *)
Definition status_of_nodes (nodes : list DagNode) : gmap string string :=
  foldl (λ m n, <[dn_node_id n := dn_status n]> m) ∅ nodes.

Definition incoming_edges (id : string) (state : DagState) : list DagEdge :=
  sort_by (λ a b, String.leb (de_edge_id a) (de_edge_id b))
    (filter (λ e, de_to_node e = id) (ds_edges state)).

(** The path of a claim that is not released. *)
Definition claimed_path (claim : V) : option string :=
  obj ← as_object claim;
  if default false (obj !! "released" ≫= as_bool) then None else get_str obj "file_path".

Definition active_files (active_claims : list V) : gset string :=
  list_to_set (omap claimed_path active_claims) ∖ {[""]}.

Definition blocking_reason (item : V) (state : DagState) (active_claims : list V)
    : option string :=
  let id := item_id item in
  let node_status := status_of_nodes (ds_nodes state) in
  match List.find (λ edge, edge_blocks edge item node_status) (incoming_edges id state) with
  | Some edge => Some (id +:+ " blocked by " +:+ de_dependency_type edge +:+ " dependency "
                         +:+ de_edge_id edge)
  | None =>
    let conflict :=
      sort_strings (elements (active_files active_claims
                                ∩ (list_to_set (write_files item) : gset string))) in
    match conflict with
    | first :: _ => Some (id +:+ " blocked by active write claim on " +:+ first)
    | [] => None
    end
  end.

(** ** Batches *)

Definition sort_items (items : list V) : list V :=
  sort_by (λ a b, String.leb (item_id a) (item_id b)) items.

(** The overlaps of the first item with the ones behind it. *)
Definition overlaps_with (item_a : V) (rest : list V) : list FileOverlap :=
  omap (λ item_b,
    match conflicting_files item_a item_b with
    | [] => None
    | files => Some (mkFileOverlap (item_id item_a) (item_id item_b) files)
    end) rest.

Fixpoint all_overlaps (items : list V) : list FileOverlap :=
  match items with
  | [] => []
  | item_a :: rest => overlaps_with item_a rest ++ all_overlaps rest
  end.

Definition detect_file_overlaps (items : list V) : list FileOverlap :=
  all_overlaps (sort_items items).

Definition can_run_parallel (item_a item_b : V) (overlaps : list FileOverlap) : bool :=
  let pair := sort_strings [item_id item_a; item_id item_b] in
  forallb (λ overlap,
    negb (bool_decide (pair = sort_strings [item_a_id overlap; item_b_id overlap]))) overlaps.

(** The two loops of [schedule]: the first separates the blocked items from the
    eligible ones, the second fills the batch. *)
Fixpoint separate (items : list V) (dag : DagState) (active_claims : list V)
    : list V * list V * list string :=
  match items with
  | [] => ([], [], [])
  | item :: items =>
    let '(blocked, eligible, reasons) := separate items dag active_claims in
    match blocking_reason item dag active_claims with
    | Some reason => (item :: blocked, eligible, reason :: reasons)
    | None => (blocked, item :: eligible, reasons)
    end
  end.

Fixpoint fill (max_concurrent : nat) (overlaps : list FileOverlap) (scheduled : list V)
    (eligible : list V) : list V * list V * list string :=
  match eligible with
  | [] => (scheduled, [], [])
  | item :: eligible =>
    if bool_decide (max_concurrent ≤ length scheduled)%nat then
      let '(scheduled, blocked, reasons) := fill max_concurrent overlaps scheduled eligible in
      (scheduled, item :: blocked, (item_id item +:+ " exceeds max_concurrent") :: reasons)
    else if forallb (λ existing, can_run_parallel existing item overlaps) scheduled then
      fill max_concurrent overlaps (scheduled ++ [item]) eligible
    else
      let '(scheduled, blocked, reasons) := fill max_concurrent overlaps scheduled eligible in
      (scheduled, item :: blocked,
       (item_id item +:+ " conflicts with scheduled file claims") :: reasons)
  end.

(** [ConcurrencyController::new] panics on 0. *)
Definition new_controller (max_concurrent : nat) : option nat :=
  if bool_decide (max_concurrent < 1)%nat then None else Some max_concurrent.

Definition schedule (max_concurrent : nat) (ready_items : list V) (dag : DagState)
    (active_claims : list V) : ScheduleBatch :=
  match ready_items with
  | [] => empty_batch
  | _ =>
    let overlaps := detect_file_overlaps ready_items in
    let '(blocked, eligible, reasons) := separate (sort_items ready_items) dag active_claims in
    let '(scheduled, refused, more) := fill max_concurrent overlaps [] eligible in
    mkScheduleBatch scheduled (blocked ++ refused) overlaps (reasons ++ more)
  end.

Definition item_ids (batch : ScheduleBatch) : list string := item_id <$> scheduled_items batch.
End concurrency.
Arguments DagNode : clear implicits.
Arguments DagState : clear implicits.
Arguments ScheduleBatch : clear implicits.

(** ** Lemmas *)

Section properties.
Context {V : Type} `{JV : JsonValue V}.

(** A conflict is a file one of the two writes and the other reads or writes. *)
Lemma conflicting_files_nil a b :
  (conflicting_files a b = []) ↔
  (∀ f, (f ∈ write_files a → (f ∉ write_files b) ∧ (f ∉ read_files b))
     ∧ (f ∈ write_files b → f ∉ read_files a)).
Proof.
  unfold conflicting_files. set (c := _ ∪ _).
  assert (E : (sort_strings (elements c) = []) ↔ (∀ f, f ∉ c)).
  { unfold sort_strings. rewrite <-elem_of_equiv_empty, <-elements_empty_iff. split; intros H.
    - apply Permutation_nil. by rewrite <-H, sort_by_perm.
    - by rewrite H. }
  rewrite E. unfold c. setoid_rewrite elem_of_union. setoid_rewrite elem_of_filter.
  setoid_rewrite elem_of_list_to_set. split.
  - intros H f. split; [intros Ha; split|intros Hb]; intros Hx; apply (H f); auto.
  - intros H f [[[Hb|Hb] Ha]|[Ha Hb]]; destruct (H f) as [H1 H2];
      [by destruct (H1 Ha)|by destruct (H1 Ha)|by apply H2].
Qed.

Lemma separate_spec items dag claims :
  separate items dag claims
  = (filter (λ i, blocking_reason i dag claims ≠ None) items,
     filter (λ i, blocking_reason i dag claims = None) items,
     omap (λ i, blocking_reason i dag claims) items).
Proof.
  induction items as [|i items IH]; [done|]. cbn [separate omap list_omap].
  rewrite IH, !filter_cons. destruct (blocking_reason i dag claims).
  - by rewrite decide_True, decide_False.
  - by rewrite decide_False, decide_True by auto.
Qed.

Record filled (max : nat) (ov : list FileOverlap) (sch el s b : list V) (r : list string)
    : Prop := {
  fl_added : ∃ added, s = sch ++ added ∧ added `sublist_of` el ∧ added ++ b ≡ₚ el;
  fl_parallel : StronglySorted (λ x y, can_run_parallel x y ov = true) sch →
    StronglySorted (λ x y, can_run_parallel x y ov = true) s;
  fl_bound : (length s ≤ max `max` length sch)%nat;
  fl_cause : ∀ x, x ∈ b → (max ≤ length s)%nat ∨ ∃ y, y ∈ s ∧ can_run_parallel y x ov = false;
  fl_reasons : length r = length b;
}.

Lemma filled_refuse max ov sch x el s b r why :
  filled max ov sch el s b r →
  (max ≤ length sch)%nat ∨ (∃ y, y ∈ sch ∧ can_run_parallel y x ov = false) →
  filled max ov sch (x :: el) s (x :: b) (why :: r).
Proof.
  intros [(added & -> & Hsub & Hperm) Hp Hb Hc Hr] Hx. split; [|done|done| |cbn; lia].
  - exists added. split_and!; [done|by constructor|].
    by rewrite <-Permutation_middle, Hperm.
  - intros z [->|Hz]%elem_of_cons; [|by apply Hc]. rewrite length_app.
    destruct Hx as [?|(y & Hy & ?)]; [left; lia|right]. exists y. split; [set_solver|done].
Qed.

Lemma fill_spec max ov sch el :
  ∃ s b r, fill max ov sch el = (s, b, r) ∧ filled max ov sch el s b r.
Proof.
  revert sch. induction el as [|x el IH]; intros sch; cbn [fill].
  { exists sch, [], []. split; [done|]. split; [|done|lia|set_solver|done].
    exists []. by rewrite app_nil_r. }
  case_bool_decide as Hmax.
  { destruct (IH sch) as (s & b & r & -> & F). do 3 eexists. split; [done|].
    apply filled_refuse; auto. }
  destruct (forallb _ sch) eqn:Hp.
  - destruct (IH (sch ++ [x])) as (s & b & r & -> & [(added & -> & Hs & Hperm) Hpar Hb Hc Hr]).
    do 3 eexists. split; [done|].
    rewrite (length_app sch [x]) in Hb. cbn [length] in Hb.
    split; [|intros Hss; apply Hpar; apply strongly_sorted_snoc; [done|]|lia|done|done].
    + exists (x :: added). rewrite <-(assoc_L (++)). split_and!; [done|by constructor|].
      cbn. by rewrite Hperm.
    + rewrite forallb_forall in Hp. apply Forall_forall. intros y Hy%list_elem_of_In. auto.
  - destruct (IH sch) as (s & b & r & -> & F). do 3 eexists. split; [done|].
    apply filled_refuse; [done|]. right. apply forallb_false in Hp. naive_solver.
Qed.

(** Every conflict of two items, in the order of the list, is recorded. *)
Lemma all_overlaps_spec (items : list V) ov :
  all_overlaps items ⊆ ov →
  StronglySorted (λ x y, conflicting_files x y ≠ [] →
    mkFileOverlap (item_id x) (item_id y) (conflicting_files x y) ∈ ov) items.
Proof.
  induction items as [|x items IH]; intros Hov; cbn [all_overlaps] in Hov; constructor.
  - apply IH. set_solver.
  - apply Forall_forall. intros y Hy Hc. apply Hov, elem_of_app. left. unfold overlaps_with.
    apply list_elem_of_omap. exists y. split; [done|]. by destruct (conflicting_files x y).
Qed.

Lemma recorded_not_parallel x y files ov :
  mkFileOverlap (item_id x) (item_id y) files ∈ ov → can_run_parallel x y ov = false.
Proof.
  intros H. apply forallb_false. eexists. split; [exact H|]. cbn. by rewrite bool_decide_true.
Qed.

(** The batch, in terms of the two loops. *)
Lemma schedule_inv max ready dag claims :
  ∃ s b r, filled max (detect_file_overlaps ready) []
      (filter (λ i, blocking_reason i dag claims = None) (sort_items ready)) s b r
    ∧ scheduled_items (schedule max ready dag claims) = s
    ∧ blocked_items (schedule max ready dag claims)
      = filter (λ i, blocking_reason i dag claims ≠ None) (sort_items ready) ++ b
    ∧ warnings (schedule max ready dag claims)
      = omap (λ i, blocking_reason i dag claims) (sort_items ready) ++ r
    ∧ file_overlaps (schedule max ready dag claims) = detect_file_overlaps ready.
Proof.
  destruct (fill_spec max (detect_file_overlaps ready) []
    (filter (λ i, blocking_reason i dag claims = None) (sort_items ready)))
    as (s & b & r & E & F).
  exists s, b, r. split; [done|]. unfold schedule. destruct ready as [|i ready].
  - cbn in E. by injection E as <- <- <-.
  - by rewrite separate_spec, E.
Qed.

Lemma scheduled_sublist max ready dag claims :
  scheduled_items (schedule max ready dag claims)
  `sublist_of` filter (λ i, blocking_reason i dag claims = None) (sort_items ready).
Proof.
  destruct (schedule_inv max ready dag claims) as (s & b & r & [(added & E & Hs & _)] & -> & _).
  by rewrite E.
Qed.

Lemma scheduled_sorted_conflicts max ready dag claims :
  StronglySorted (λ x y, conflicting_files x y = [])
    (scheduled_items (schedule max ready dag claims)).
Proof.
  pose proof (scheduled_sublist max ready dag claims) as Hsub.
  destruct (schedule_inv max ready dag claims) as (s & b & r & [_ Hp _ _ _] & E & _).
  rewrite E in *. specialize (Hp ltac:(constructor)).
  assert (Hov : StronglySorted (λ x y, conflicting_files x y ≠ [] →
    mkFileOverlap (item_id x) (item_id y) (conflicting_files x y) ∈ detect_file_overlaps ready) s).
  { eapply sublist_strongly_sorted; [exact Hsub|].
    eapply sublist_strongly_sorted; [apply sublist_filter|]. by apply all_overlaps_spec. }
  clear -Hp Hov. induction Hp as [|x l _ IH Hx]; [constructor|].
  apply StronglySorted_inv in Hov as [Hl Hox]. constructor; [auto|].
  rewrite Forall_forall in Hx, Hox |- *. intros y Hy.
  destruct (decide (conflicting_files x y = [])) as [|Hne]; [done|].
  specialize (Hx y Hy). by rewrite (recorded_not_parallel _ _ _ _ (Hox y Hy Hne)) in Hx.
Qed.

Lemma count_blocked dag claims (items : list V) :
  length (omap (λ i, blocking_reason i dag claims) items)
  = length (filter (λ i, blocking_reason i dag claims ≠ None) items).
Proof.
  induction items as [|i items IH]; [done|]. cbn [omap list_omap]. rewrite filter_cons.
  destruct (blocking_reason i dag claims); [rewrite decide_True|rewrite decide_False]; cbn; auto.
Qed.

Lemma edge_clear id item dag claims edge :
  blocking_reason item dag claims = None → item_id item = id →
  edge ∈ ds_edges dag → de_to_node edge = id →
  edge_blocks edge item (status_of_nodes (ds_nodes dag)) = false.
Proof.
  intros H <- He Ht. unfold blocking_reason in H.
  destruct (List.find _ _) eqn:Hf; [done|]. eapply List.find_none in Hf; [exact Hf|].
  apply list_elem_of_In. unfold incoming_edges. rewrite elem_of_sort_by.
  by apply list_elem_of_filter.
Qed.

Lemma claims_clear item dag claims f :
  blocking_reason item dag claims = None → f ∈ write_files item → f ∉ active_files claims.
Proof.
  intros H Hw Ha. unfold blocking_reason in H. destruct (List.find _ _); [done|].
  destruct (sort_strings _) as [|g l] eqn:E; [|done].
  assert (Hin : f ∈ sort_strings (elements (active_files claims
    ∩ (list_to_set (write_files item) : gset string)))).
  { unfold sort_strings. rewrite elem_of_sort_by, elem_of_elements, elem_of_intersection,
      elem_of_list_to_set. done. }
  rewrite E in Hin. by apply not_elem_of_nil in Hin.
Qed.
End properties.

(** ** A graph and three ready items to run the theorems on *)

Module ConcurrencyDemo.
Import JsonDemo.
#[export] Existing Instance json_value.

Definition item (id : string) (reads writes : list string) : json :=
  JObj [("node_id", JStr id);
        ("metadata", JObj [("read_files", JArr (JStr <$> reads));
                           ("write_files", JArr (JStr <$> writes))])].
Definition dag : DagState json :=
  mkDagState "d" 1
    [mkDagNode "plan" None "task" "completed" "" JNull;
     mkDagNode "review" None "task" "running" "" JNull]
    [mkDagEdge "e1" "plan" "a" "hard" "pending"; mkDagEdge "e2" "review" "d" "hard" "pending"]
    "t0" "t0".
Definition ready : list json :=
  [item "d" [] ["d.rs"]; item "c" ["log.md"] ["c.rs"]; item "b" ["lib.rs"] [];
   item "a" [] ["lib.rs"]; item "e" [] ["claimed.rs"]].
Definition claims : list json :=
  [JObj [("file_path", JStr "claimed.rs")];
   JObj [("file_path", JStr "c.rs"); ("released", JBool true)]].
Definition batch : ScheduleBatch json := schedule 4 ready dag claims.
End ConcurrencyDemo.
Import ConcurrencyDemo.

(** The batch of the demo: [b] reads what [a] writes, [d] waits for the review,
    [e] wants a claimed file. *)
Example demo_batch :
  item_ids batch = ["a"; "c"]
  ∧ warnings batch = ["d blocked by hard dependency e2";
                      "e blocked by active write claim on claimed.rs";
                      "b conflicts with scheduled file claims"].
Proof. by vm_compute. Qed.

(** ** Theorems *)

(** C28: Items that run together never touch each other's files.  Whatever the
    ready items, the graph and the claims, two different entries of a scheduled
    batch share no file that one of them writes: a file written by one is
    neither written nor read by the other. *)
Theorem schedule_conflict_free {V : Type} `{JV : JsonValue V} max ready dag claims i j
    (a b : V) f :
  scheduled_items (schedule max ready dag claims) !! i = Some a →
  scheduled_items (schedule max ready dag claims) !! j = Some b → i ≠ j →
  f ∈ write_files a → (f ∉ write_files b) ∧ (f ∉ read_files b).
Proof.
  intros Ha Hb Hij Hf. pose proof (scheduled_sorted_conflicts max ready dag claims) as Hs.
  destruct (decide (i < j)%nat) as [Hlt|Hge].
  - apply (strongly_sorted_lookup _ _ _ _ _ _ Hs Ha Hb) in Hlt.
    by apply (proj1 (conflicting_files_nil a b) Hlt f).
  - assert (Hlt : (j < i)%nat) by lia.
    apply (strongly_sorted_lookup _ _ _ _ _ _ Hs Hb Ha) in Hlt.
    destruct (proj1 (conflicting_files_nil b a) Hlt f) as [H1 H2].
    split; [intros Hw; by destruct (H1 Hw)|by apply H2].
Qed.

Lemma schedule_conflict_free_witness :
  ("lib.rs" ∉ write_files (item "c" ["log.md"] ["c.rs"]))
  ∧ ("lib.rs" ∉ read_files (item "c" ["log.md"] ["c.rs"])).
Proof.
  apply (schedule_conflict_free 4 ready dag claims 0 1 (item "a" [] ["lib.rs"]));
    [by vm_compute..|done|by vm_compute; left].
Defined.

(** A batch waits for its dependencies and for the files others hold.  Of
    every scheduled item, each incoming edge that is not soft is satisfied, or,
    for an artifact dependency, the item has verified the edge or its source, or,
    for any other, the source has completed; and no file the item writes is
    under an active claim. *)
Theorem schedule_respects_graph {V : Type} `{JV : JsonValue V} max ready dag claims (a : V) :
  a ∈ scheduled_items (schedule max ready dag claims) →
  (∀ edge, edge ∈ ds_edges dag → de_to_node edge = item_id a →
     de_dependency_type edge = "soft" ∨ de_status edge = "satisfied"
     ∨ (de_dependency_type edge = "artifact"
        ∧ (de_edge_id edge ∈ string_list a "verified_artifacts"
           ∨ de_from_node edge ∈ string_list a "verified_artifacts"))
     ∨ (de_dependency_type edge ≠ "artifact"
        ∧ status_of_nodes (ds_nodes dag) !! de_from_node edge = Some "completed"))
  ∧ ∀ f, f ∈ write_files a → f ∉ active_files claims.
Proof.
  intros Ha. pose proof (scheduled_sublist max ready dag claims) as Hsub.
  assert (Hn : blocking_reason a dag claims = None).
  { eapply elem_of_submseteq in Ha; [|by apply sublist_submseteq].
    by apply list_elem_of_filter in Ha as [? _]. }
  split; [|intros f; by apply (claims_clear a dag)].
  intros edge He Ht. pose proof (edge_clear _ a dag claims edge Hn eq_refl He Ht) as Hb.
  unfold edge_blocks in Hb. repeat (case_bool_decide; [by auto|]).
  destruct (decide (de_dependency_type edge = "artifact")) as [Hd|Hd].
  - rewrite bool_decide_true in Hb by done. apply andb_false_iff in Hb.
    rewrite !negb_false_iff, !bool_decide_eq_true in Hb. auto.
  - rewrite bool_decide_false, negb_false_iff, bool_decide_eq_true in Hb by done. auto 10.
Qed.

Lemma schedule_respects_graph_witness :
  item "a" [] ["lib.rs"] ∈ scheduled_items batch
  ∧ status_of_nodes (ds_nodes dag) !! "plan" = Some "completed".
Proof.
  assert (H : item "a" [] ["lib.rs"] ∈ scheduled_items batch) by (vm_compute; left).
  split; [exact H|].
  destruct (proj1 (schedule_respects_graph 4 ready dag claims _ H)
    (mkDagEdge "e1" "plan" "a" "hard" "pending")) as [?|[?|[[? _]|[_ ?]]]];
    [left|done|done|done|done|done].
Defined.

(** Nothing is lost and nothing waits without cause.  The scheduled and the
    blocked items are together exactly the ready ones, no more than
    [max_concurrent] are scheduled, every blocked item comes with one warning,
    and it is blocked because the graph or a claim blocks it, because the batch
    is full, or because it conflicts with a scheduled item. *)
Theorem schedule_complete {V : Type} `{JV : JsonValue V} max ready dag (claims : list V) :
  let batch := schedule max ready dag claims in
  scheduled_items batch ++ blocked_items batch ≡ₚ ready
  ∧ (length (scheduled_items batch) ≤ max)%nat
  ∧ length (warnings batch) = length (blocked_items batch)
  ∧ ∀ x, x ∈ blocked_items batch →
      blocking_reason x dag claims ≠ None
      ∨ length (scheduled_items batch) = max
      ∨ ∃ y, y ∈ scheduled_items batch ∧ can_run_parallel y x (file_overlaps batch) = false.
Proof.
  cbv zeta. destruct (schedule_inv max ready dag claims)
    as (s & b & r & [(added & E & Hsub & Hperm) _ Hb Hc Hr] & -> & -> & -> & ->).
  cbn in E. subst s. cbn [length] in Hb. split_and!.
  - rewrite (Permutation_app_comm (filter _ _) b), (assoc (++)), Hperm.
    rewrite (Permutation_app_comm (filter _ _)).
    assert (Hall : ∀ l : list V, filter (λ i, blocking_reason i dag claims ≠ None) l
      ++ filter (λ i, blocking_reason i dag claims = None) l ≡ₚ l).
    { induction l as [|x l IH]; [done|]. rewrite !filter_cons.
      destruct (blocking_reason x dag claims) eqn:Ex.
      - rewrite decide_True, decide_False by done. cbn. by rewrite IH.
      - rewrite decide_False, decide_True by auto. by rewrite <-Permutation_middle, IH. }
    rewrite Hall. apply sort_by_perm.
  - lia.
  - by rewrite !length_app, count_blocked, Hr.
  - intros x [[Hx _]%list_elem_of_filter|Hx]%elem_of_app; [by left|right].
    destruct (Hc x Hx) as [?|?]; [left; lia|by right].
Qed.
