(* ===== verification/RateLimiter.v ===== *)
(** * The rate limiter

    Model of infrastructure/rate_limiter: one bucket of request times per tenant
    and key, a sliding window over it, and a bound on the number of buckets.
    Times are [f64] seconds, arguments of the operations. *)

From S2P Require Import Prelude Float64.
From Stdlib Require Import SpecFloat.

Local Open Scope Z_scope.

(** ** Binary search *)

(** [slice::binary_search_by]: the loop halves the range and ends at [base]. *)
Fixpoint search_loop {A} (fuel : nat) (f : A → comparison) (l : list A) (base size : nat)
    : nat :=
  match fuel with
  | O => base
  | S fuel =>
    if bool_decide (size ≤ 1)%nat then base
    else
      let half := Nat.div2 size in
      let mid := (base + half)%nat in
      let base := match f <$> l !! mid with Some Gt | None => base | _ => mid end in
      search_loop fuel f l base (size - half)
  end.

(** [inl i] is [Ok(i)], [inr i] is [Err(i)]. *)
Definition binary_search_by {A} (f : A → comparison) (l : list A) : nat + nat :=
  let base := search_loop (length l) f l 0 (length l) in
  match f <$> l !! base with
  | None => inr 0%nat
  | Some Eq => inl base
  | Some Lt => inr (S base)
  | Some Gt => inr base
  end.

(** ** Data *)

Record RateLimitResult : Type := mkRateLimitResult {
  allowed : bool;
  remaining : Z;
  rl_limit : Z;
  retry_after : option f64;
}.

Abbreviation bucket_key := (string * string)%type.

Record RateLimiter : Type := mkRateLimiter {
  window_seconds : f64;
  max_buckets : nat;
  buckets : gmap bucket_key (list f64);
}.
#[export] Instance eta_RateLimiter : Eta RateLimiter := λ r,
  mkRateLimiter (window_seconds r) (max_buckets r) (buckets r).

Definition new_limiter (window_seconds : f64) (max_buckets : nat) : RateLimiter :=
  mkRateLimiter window_seconds max_buckets ∅.

(** The order in which the [HashMap] visits its buckets. *)
Class BucketOrder : Type := {
  bucket_iter : gmap bucket_key (list f64) → list (bucket_key * list f64);
  bucket_iter_perm : ∀ m, bucket_iter m ≡ₚ map_to_list m;
}.

(** ** Operations *)

(** [t.partial_cmp(&window_start).unwrap_or(Equal)]. *)
Definition cmp_or_equal (t window_start : f64) : comparison :=
  default Eq (f64_partial_cmp t window_start).

(** One more than the last index whose element satisfies [p]; 0 without one:
    [rposition] and the [match] on it. *)
Fixpoint after_last {A} (p : A → bool) (l : list A) : nat :=
  match l with
  | [] => O
  | x :: l =>
    match after_last p l with
    | O => if p x then 1%nat else O
    | S n => S (S n)
    end
  end.

Definition prune (timestamps : list f64) (window_start : f64) : list f64 :=
  let cutoff :=
    match binary_search_by (λ t, cmp_or_equal t window_start) timestamps with
    | inl i => i
    | inr i => i
    end in
  let cutoff := after_last (λ t, f64_leb t window_start) (take cutoff timestamps) in
  drop cutoff timestamps.

Definition first_or_infinity (timestamps : list f64) : f64 :=
  default f64_infinity (head timestamps).

(** [Iterator::min_by] keeps the earlier of two equal elements. *)
Definition older (a b : bucket_key * list f64) : bucket_key * list f64 :=
  match cmp_or_equal (first_or_infinity a.2) (first_or_infinity b.2) with
  | Gt => b
  | _ => a
  end.

Definition min_bucket (l : list (bucket_key * list f64)) : option bucket_key :=
  match l with
  | [] => None
  | x :: l => Some (foldl older x l).1
  end.

(** A new key makes room for itself when the table is full. *)
Definition evict `{BucketOrder} (key : bucket_key) (self : RateLimiter) : RateLimiter :=
  if is_none (buckets self !! key) && bool_decide (max_buckets self ≤ size (buckets self))%nat
  then match min_bucket (bucket_iter (buckets self)) with
       | Some oldest_key => self <| buckets := delete oldest_key (buckets self) |>
       | None => self
       end
  else self.

Definition unlimited : RateLimitResult := mkRateLimitResult true (-1) (-1) None.

(** [timestamps[0]] is in range: a full bucket is not empty. *)
Definition check `{BucketOrder} (tenant_id api_key_id : string) (rate_limit : option Z)
    (now : f64) (self : RateLimiter) : RateLimitResult * RateLimiter :=
  match rate_limit with
  | None => (unlimited, self)
  | Some limit =>
    if negb (0 <? limit) then (unlimited, self)
    else
      let window_start := f64_sub now (window_seconds self) in
      let key := (tenant_id, api_key_id) in
      let self := evict key self in
      let timestamps := prune (default [] (buckets self !! key)) window_start in
      let current_count := Z.of_nat (length timestamps) in
      if limit <=? current_count then
        let oldest_in_window := first_or_infinity timestamps in
        let retry_after :=
          f64_max (f64_sub (f64_add oldest_in_window (window_seconds self)) now) f64_zero in
        (mkRateLimitResult false 0 limit (Some retry_after),
         self <| buckets := <[key := timestamps]> (buckets self) |>)
      else
        (mkRateLimitResult true (limit - current_count - 1) limit None,
         self <| buckets := <[key := timestamps ++ [now]]> (buckets self) |>)
  end.

Definition cleanup (now : f64) (self : RateLimiter) : nat * RateLimiter :=
  let window_start := f64_sub now (window_seconds self) in
  let pruned := (λ timestamps, prune timestamps window_start) <$> buckets self in
  let removed := foldr (λ e n, n + (length e.2 - length (prune e.2 window_start)))%nat O
                   (map_to_list (buckets self)) in
  (removed, self <| buckets := filter (λ e, e.2 ≠ []) pruned |>).

Definition bucket_count (self : RateLimiter) : nat := size (buckets self).

(** ** Pruning *)

Definition ascending (l : list f64) : Prop := StronglySorted (λ a b, f64_leb a b = true) l.

Lemma ascending_lookup l i j x y :
  ascending l → l !! i = Some x → l !! j = Some y → (i < j)%nat → f64_leb x y = true.
Proof. apply (strongly_sorted_lookup (λ a b, f64_leb a b = true)). Qed.

Lemma after_last_spec {A} (p : A → bool) l :
  (after_last p l ≤ length l)%nat
  ∧ (∀ n, after_last p l = S n → ∃ x, l !! n = Some x ∧ p x = true)
  ∧ ∀ j x, (after_last p l ≤ j)%nat → l !! j = Some x → p x = false.
Proof.
  induction l as [|y l (Hle & Hlast & Hafter)]; cbn [after_last]; [done|].
  destruct (after_last p l) as [|m] eqn:E.
  - destruct (p y) eqn:Ep; cbn.
    + split_and!; [lia|intros n [= <-]; by exists y|]. intros [|j] x Hj; [lia|]. cbn. eauto with lia.
    + split_and!; [lia|done|]. intros [|j] x _; cbn; [by intros [= <-]|]. eauto with lia.
  - cbn. split_and!; [lia|intros n [= <-]; cbn; eauto|].
    intros [|j] x Hj; [lia|]. cbn. apply Hafter. lia.
Qed.

Definition keeps_greater {A} (f : A → comparison) (l : list A) : Prop :=
  ∀ i j x y, l !! i = Some x → l !! j = Some y → (i ≤ j)%nat → f x = Gt → f y = Gt.

(** Where the search ends, everything behind is greater. *)
Lemma search_loop_spec {A} (f : A → comparison) l fuel base size :
  keeps_greater f l → (size ≤ fuel)%nat → (1 ≤ size)%nat → (base + size ≤ length l)%nat →
  (∀ j x, (base + size ≤ j)%nat → l !! j = Some x → f x = Gt) →
  (search_loop fuel f l base size < length l)%nat
  ∧ ∀ j x, (search_loop fuel f l base size < j)%nat → l !! j = Some x → f x = Gt.
Proof.
  intros Hg. revert base size. induction fuel as [|fuel IH]; intros base size Hf H1 Hlen Hgt; [lia|].
  cbn [search_loop]. case_bool_decide as Hs.
  - split; [lia|]. intros j x Hj. apply Hgt. lia.
  - assert (Hh : (0 < Nat.div2 size < size)%nat).
    { split; [|apply Nat.lt_div2; lia]. destruct size as [|[|n]]; [lia..|apply Nat.lt_0_succ]. }
    destruct (lookup_lt_is_Some_2 l (base + Nat.div2 size)) as [y Hy]; [lia|].
    rewrite Hy. cbn [fmap option_fmap option_map]. destruct (f y) eqn:Ey.
    + apply IH; [lia..|]. intros j x Hj. apply Hgt. lia.
    + apply IH; [lia..|]. intros j x Hj. apply Hgt. lia.
    + apply IH; [lia..|]. intros j x Hj Hx.
      apply (Hg (base + Nat.div2 size)%nat j y x); try done. pose proof (Nat.div2_odd size).
      destruct (Nat.odd size); cbn in *; lia.
Qed.

Lemma binary_search_spec {A} (f : A → comparison) l :
  keeps_greater f l →
  ∀ j x, (match binary_search_by f l with inl i => i | inr i => i end ≤ j)%nat →
  l !! j = Some x → f x ≠ Lt.
Proof.
  intros Hg j x Hj Hx. unfold binary_search_by in Hj.
  assert (Hl : (0 < length l)%nat) by (apply lookup_lt_Some in Hx; lia).
  destruct (search_loop_spec f l (length l) 0 (length l) Hg) as [Hb Hgt]; [lia..| |].
  { intros i y Hi Hy. apply lookup_lt_Some in Hy. lia. }
  set (b := search_loop _ _ _ _ _) in *.
  destruct (lookup_lt_is_Some_2 l b Hb) as [y Hy]. rewrite Hy in Hj.
  cbn [fmap option_fmap option_map] in Hj.
  destruct (f y) eqn:Ey; (destruct (decide (b < j)%nat) as [Hlt|]; [by rewrite (Hgt j x)|]);
    assert (j = b) as -> by lia; simplify_eq; congruence || lia.
Qed.

Lemma cmp_keeps_greater ws l : ascending l → keeps_greater (λ t, cmp_or_equal t ws) l.
Proof.
  intros Hs i j x y Hx Hy Hij Hgt. destruct (decide (i = j)) as [->|Hne]; [by simplify_eq|].
  assert (Hle : f64_leb x y = true) by (apply (ascending_lookup l i j); [done..|lia]).
  unfold cmp_or_equal, f64_partial_cmp in *.
  pose proof (f64_cmp_key x ws) as Hx'. pose proof (f64_cmp_key y ws) as Hy'.
  destruct (SFcompare x ws) as [[]|]; try done. destruct Hx' as (a & w & Ha & Hw & Hlt).
  apply f64_leb_key in Hle as (a' & b & Ha' & Hb & Hle). simplify_eq.
  destruct (SFcompare y ws) as [c|]; [|destruct Hy'; congruence].
  destruct Hy' as (b' & w' & ? & ? & Hc). simplify_eq. cbn. unfold key_lt in *.
  destruct c; [|exfalso|done]; destruct Hle as [|]; subst; lia.
Qed.

(** Pruning splits the bucket: what goes is at or before the start of the
    window, what stays is not before it. *)
Lemma prune_split ts ws :
  ascending ts →
  ∃ gone, ts = gone ++ prune ts ws ∧ Forall (λ t, f64_leb t ws = true) gone
    ∧ Forall (λ t, f64_ltb t ws = false) (prune ts ws).
Proof.
  intros Hs. unfold prune.
  pose proof (binary_search_spec _ ts (cmp_keeps_greater ws ts Hs)) as Hbs.
  set (cut := match binary_search_by _ ts with inl i => i | inr i => i end) in *.
  destruct (after_last_spec (λ t, f64_leb t ws) (take cut ts)) as (Hle & Hlast & Hafter).
  set (c := after_last _ _) in *. exists (take c ts). split; [by rewrite take_drop|]. split.
  - apply Forall_lookup. intros j y Hy. apply lookup_take_Some in Hy as [Hy Hj].
    destruct c as [|n] eqn:Ec; [lia|]. destruct (Hlast n eq_refl) as (x & Hx & Hp).
    apply lookup_take_Some in Hx as [Hx _].
    destruct (decide (j = n)) as [->|]; [by simplify_eq|].
    eapply f64_leb_trans; [apply (ascending_lookup ts j n); [done..|lia]|exact Hp].
  - apply Forall_lookup. intros j y. rewrite lookup_drop. intros Hy.
    destruct (decide (c + j < cut)%nat) as [Hlt|Hge].
    + specialize (Hafter (c + j)%nat y ltac:(lia)). rewrite lookup_take_lt in Hafter by done.
      specialize (Hafter Hy). apply not_true_iff_false. intros Hltb.
      apply not_true_iff_false in Hafter. apply Hafter. rewrite f64_leb_key.
      apply f64_ltb_key in Hltb as (a & b & ? & ? & ?). eauto 10.
    + specialize (Hbs (c + j)%nat y ltac:(lia) Hy). apply not_true_iff_false. intros Hltb.
      apply Hbs. unfold cmp_or_equal, f64_partial_cmp. unfold f64_ltb, SFltb in Hltb.
      by destruct (SFcompare y ws) as [[]|].
Qed.

Lemma prune_ascending ts ws : ascending ts → ascending (prune ts ws).
Proof.
  intros Hs. destruct (prune_split ts ws Hs) as (gone & E & _). rewrite E in Hs.
  by apply strongly_sorted_app_inv in Hs as [_ ?].
Qed.

(** ** Histories *)

Inductive event : Type :=
  | Request (key : bucket_key) (rate_limit : option Z) (now : f64)
  | Cleanup (now : f64).

Definition event_time (e : event) : f64 :=
  match e with Request _ _ now | Cleanup now => now end.

Section history.
Context `{BO : BucketOrder}.

(** The limiter after an event, and the times at which [k] was served. *)
Definition serve (k : bucket_key) (s : list f64 * RateLimiter) (e : event)
    : list f64 * RateLimiter :=
  match e with
  | Request key rate_limit now =>
    let '(r, rl) := check key.1 key.2 rate_limit now s.2 in
    (if bool_decide (key = k) && allowed r then s.1 ++ [now] else s.1, rl)
  | Cleanup now => (s.1, (cleanup now s.2).2)
  end.

Definition history (k : bucket_key) (rl : RateLimiter) (es : list event)
    : list f64 * RateLimiter :=
  foldl (serve k) ([], rl) es.

(** *** The number of buckets *)

Lemma min_bucket_elem l k : min_bucket l = Some k → ∃ v, (k, v) ∈ l.
Proof.
  destruct l as [|x l]; [done|]. cbn [min_bucket]. intros [= <-].
  assert (H : ∀ l y, foldl older y l ∈ y :: l).
  { clear x l. induction l as [|z l IH]; intros y; cbn [foldl]; [left|].
    specialize (IH (older y z)). assert (older y z = y ∨ older y z = z) as [E|E]
      by (unfold older; case_match; auto); rewrite E in *; set_solver. }
  specialize (H l x). destruct (foldl _ x l) as [k v]. eauto.
Qed.

Lemma evict_size key rl :
  (size (buckets rl) ≤ 1 `max` max_buckets rl)%nat →
  (size (<[key := []]> (buckets (evict key rl))) ≤ 1 `max` max_buckets rl)%nat
  ∧ max_buckets (evict key rl) = max_buckets rl
  ∧ window_seconds (evict key rl) = window_seconds rl.
Proof.
  intros Hs. unfold evict. destruct (buckets rl !! key) as [v|] eqn:Hk; cbn [is_none andb].
  { rewrite map_size_insert_Some by eauto. done. }
  case_bool_decide as Hfull.
  2: { rewrite map_size_insert_None by done. split_and!; [lia|done|done]. }
  destruct (min_bucket (bucket_iter (buckets rl))) as [k|] eqn:Em.
  - apply min_bucket_elem in Em as [v Hv]. rewrite bucket_iter_perm in Hv.
    apply elem_of_map_to_list in Hv. cbn [buckets max_buckets window_seconds upd].
    rewrite map_size_insert_None by (apply lookup_delete_None; auto).
    rewrite map_size_delete_Some by eauto.
    assert (size (buckets rl) ≠ 0)%nat by (intros E%map_size_empty_inv; by rewrite E in Hv).
    split_and!; [lia|done|done].
  - rewrite map_size_insert_None by done.
    destruct (bucket_iter (buckets rl)) as [|x l] eqn:El; [|done].
    assert (E : map_to_list (buckets rl) = []).
    { apply Permutation_nil. by rewrite <-(bucket_iter_perm (buckets rl)), El. }
    apply map_to_list_empty_iff in E. rewrite E, map_size_empty. split_and!; [lia|done|done].
Qed.

(** *** One check *)

Lemma f64_max_zero x : f64_ltb (f64_max x f64_zero) f64_zero = false.
Proof.
  unfold f64_max. destruct (f64_ltb x f64_zero) eqn:E; destruct x; done.
Qed.

Lemma evict_fixed key rl :
  max_buckets (evict key rl) = max_buckets rl ∧ window_seconds (evict key rl) = window_seconds rl.
Proof. unfold evict. case_match; [|done]. by case_match. Qed.

(** What a check of [key] against a limit answers and leaves. *)
Record checked (key : bucket_key) (limit : Z) (now : f64) (rl : RateLimiter)
    (r : RateLimitResult) (rl' : RateLimiter) (ts : list f64) : Prop := {
  ck_limit : 0 < limit ∧ rl_limit r = limit;
  ck_pruned : ts = prune (default [] (buckets (evict key rl) !! key))
    (f64_sub now (window_seconds rl));
  ck_state : rl' = (evict key rl) <| buckets :=
    <[key := if allowed r then ts ++ [now] else ts]> (buckets (evict key rl)) |>;
  ck_answer : if allowed r
    then Z.of_nat (length ts) < limit ∧ remaining r = limit - Z.of_nat (length ts) - 1
      ∧ retry_after r = None
    else limit <= Z.of_nat (length ts) ∧ remaining r = 0
      ∧ ∃ x, retry_after r = Some x ∧ f64_ltb x f64_zero = false;
}.

Lemma check_inv key lim now rl r rl' :
  check key.1 key.2 lim now rl = (r, rl') →
  (r = unlimited ∧ rl' = rl ∧ ∀ limit, lim = Some limit → limit <= 0)
  ∨ ∃ limit ts, lim = Some limit ∧ checked key limit now rl r rl' ts.
Proof.
  unfold check. destruct lim as [limit|]; [|intros [= <- <-]; by left].
  destruct (0 <? limit) eqn:Hl; cbn [negb].
  2: { intros [= <- <-]. left. split_and!; [done..|]. intros ? [= <-]. lia. }
  replace (key.1, key.2) with key by by destruct key.
  rewrite (proj2 (evict_fixed key rl)). apply Z.ltb_lt in Hl. intros H. right.
  exists limit. eexists. split; [done|].
  destruct (limit <=? _) eqn:Hc; injection H as <- <-; (split; [done|reflexivity|done|]); cbn.
  - split_and!; [lia|done|]. eexists. split; [done|apply f64_max_zero].
  - split_and!; [lia|done|done].
Qed.

Lemma serve_bounded k s e :
  (bucket_count s.2 ≤ 1 `max` max_buckets s.2)%nat →
  (bucket_count (serve k s e).2 ≤ 1 `max` max_buckets s.2)%nat
  ∧ max_buckets (serve k s e).2 = max_buckets s.2.
Proof.
  unfold bucket_count. intros Hs. destruct e as [key lim now|now]; cbn [serve].
  - destruct (check _ _ _ _ _) as [r rl] eqn:E. cbn [snd].
    apply check_inv in E as [(_ & -> & _)|(limit & ts & _ & [_ _ -> _])]; [done|].
    destruct (evict_size key s.2 Hs) as (Hsz & Hm & _).
    cbn [buckets max_buckets upd]. rewrite Hm. split; [|done].
    erewrite map_size_insert in Hsz |- *. exact Hsz.
  - cbn. split; [|done]. etransitivity; [|exact Hs].
    etransitivity; [apply map_subseteq_size, map_filter_subseteq|]. by rewrite map_size_fmap.
Qed.

Lemma history_bounded k rl es :
  (bucket_count rl ≤ 1 `max` max_buckets rl)%nat →
  (bucket_count (history k rl es).2 ≤ 1 `max` max_buckets rl)%nat.
Proof.
  unfold history. change rl with (([] : list f64, rl).2) at 1 2 4.
  generalize (([] : list f64), rl). clear rl.
  induction es as [|e es IH]; intros s Hs; cbn [foldl]; [done|].
  destruct (serve_bounded k s e Hs) as [Hb Hm]. rewrite <-Hm in Hb |- *. by apply IH.
Qed.

(** *** The window *)

(** The bucket of [k] is what is left of the times it was served: the ones that
    are gone are out of the window. *)
Record tracks (k : bucket_key) (limit : Z) (w now : f64) (s : list f64 * RateLimiter)
    : Prop := {
  tr_window : window_seconds s.2 = w;
  tr_split : ∃ gone, s.1 = gone ++ default [] (buckets s.2 !! k)
    ∧ Forall (λ t, f64_leb t (f64_sub now w) = true) gone;
  tr_ascending : ascending s.1;
  tr_past : Forall (λ t, f64_leb t now = true) s.1;
  tr_length : Z.of_nat (length (default [] (buckets s.2 !! k))) <= limit;
}.

Lemma tracks_advance k limit w now now' s :
  tracks k limit w now s → f64_leb now now' = true →
  f64_leb (f64_sub now w) (f64_sub now' w) = true → tracks k limit w now' s.
Proof.
  intros [Hw (gone & E & Hg) Ha Hp Hl] H1 H2. split; [done| |done| |done].
  - exists gone. split; [done|]. eapply Forall_impl; [exact Hg|]. intros t Ht.
    eapply f64_leb_trans; [exact Ht|done].
  - eapply Forall_impl; [exact Hp|]. intros t Ht. eapply f64_leb_trans; [exact Ht|done].
Qed.

(** Pruning the bucket of [k], and serving it once more. *)
Lemma tracks_prune k limit w now h rl b served :
  tracks k limit w now (h, rl) → window_seconds b = w →
  default [] (buckets b !! k)
    = prune (default [] (buckets rl !! k)) (f64_sub now w) ++ served →
  served = [] ∨ (served = [now] ∧ f64_leb now now = true
    ∧ Z.of_nat (length (prune (default [] (buckets rl !! k)) (f64_sub now w))) < limit) →
  tracks k limit w now (h ++ served, b).
Proof.
  intros [Hw (gone & E & Hg) Ha Hp Hl] Hb Eb Hs. cbn [fst snd] in *.
  assert (Hbucket : ascending (default [] (buckets rl !! k)))
    by (rewrite E in Ha; by apply strongly_sorted_app_inv in Ha as [_ ?]).
  destruct (prune_split _ (f64_sub now w) Hbucket) as (gone' & E' & Hg' & _).
  split; cbn [fst snd]; [done| | | |].
  - exists (gone ++ gone'). rewrite Eb, E, E' at 1. rewrite <-!(assoc_L (++)). split; [done|].
    by apply Forall_app.
  - destruct Hs as [->|(-> & _ & _)]; [by rewrite app_nil_r|]. by apply strongly_sorted_snoc.
  - apply Forall_app. split; [done|]. destruct Hs as [->|(-> & Hn & _)]; by repeat constructor.
  - rewrite Eb, length_app. apply (f_equal length) in E'. rewrite length_app in E'.
    destruct Hs as [->|(-> & _ & ?)]; cbn [length]; lia.
Qed.

Lemma tracks_same k limit w now h rl b :
  tracks k limit w now (h, rl) → window_seconds b = w →
  buckets b !! k = buckets rl !! k → tracks k limit w now (h, b).
Proof. intros [Hw Hs Ha Hp Hl] Hb E. cbn [fst snd] in *. split; cbn [fst snd]; by rewrite ?E. Qed.

(** With room for every key, nothing is evicted. *)
Lemma evict_room (key : bucket_key) (rl : RateLimiter) (K : gset bucket_key) :
  dom (buckets rl) ⊆ K → key ∈ K → (size K ≤ max_buckets rl)%nat → evict key rl = rl.
Proof.
  intros HK Hk Hsz. unfold evict. destruct (buckets rl !! key) eqn:E; [done|]. cbn [is_none andb].
  rewrite bool_decide_false; [done|]. intros Hfull.
  assert (Hsub : {[key]} ∪ dom (buckets rl) ⊆ K) by set_solver.
  apply subseteq_size in Hsub. rewrite size_union, size_singleton, size_dom in Hsub; [lia|].
  apply disjoint_singleton_l. by apply not_elem_of_dom.
Qed.

Definition event_ok (K : gset bucket_key) (k : bucket_key) (limit : Z) (e : event) : Prop :=
  match e with
  | Request key lim _ => key ∈ K ∧ (key = k → lim = Some limit)
  | Cleanup _ => True
  end.

Lemma serve_tracks K k limit w e s :
  0 < limit → event_ok K k limit e → f64_leb (event_time e) (event_time e) = true →
  dom (buckets s.2) ⊆ K → (size K ≤ max_buckets s.2)%nat →
  tracks k limit w (event_time e) s →
  tracks k limit w (event_time e) (serve k s e) ∧ dom (buckets (serve k s e).2) ⊆ K
  ∧ max_buckets (serve k s e).2 = max_buckets s.2.
Proof.
  destruct s as [h rl]. cbn [snd]. intros Hpos He Hn HK Hsz T.
  pose proof (tr_window _ _ _ _ _ T) as Hw.
  destruct e as [key lim now|now]; cbn [serve event_time event_ok fst snd] in *.
  - destruct He as [Hin Hlim]. destruct (check _ _ _ _ _) as [r rl'] eqn:E. cbn [fst snd].
    apply check_inv in E as [(-> & -> & Hun)|(l & ts & El & [_ Ets -> Hans])].
    { rewrite bool_decide_false; [done|]. intros Ek. specialize (Hun _ (Hlim Ek)). lia. }
    rewrite (evict_room key rl K HK Hin Hsz) in *. cbn [buckets max_buckets upd].
    split; [|split; [set_solver|done]]. case_bool_decide as Ek; cbn [andb].
    + subst key. rewrite (Hlim eq_refl) in El. injection El as <-. rewrite Hw in Ets. subst ts.
      destruct (allowed r) eqn:Ha.
      * eapply (tracks_prune _ _ _ _ h rl _ [now]); [done|done| |right; by destruct Hans].
        cbn. by rewrite lookup_insert_eq.
      * rewrite <-(app_nil_r h). eapply (tracks_prune _ _ _ _ h rl _ []); [done|done| |by left].
        cbn. by rewrite lookup_insert_eq, app_nil_r.
    + eapply tracks_same; [exact T|done|]. cbn. by rewrite lookup_insert_ne.
  - cbn [cleanup snd fst buckets max_buckets upd]. split; [|split; [|done]].
    + rewrite <-(app_nil_r h). eapply (tracks_prune _ _ _ _ h rl _ []); [done|done| |by left].
      rewrite app_nil_r. cbn. rewrite map_lookup_filter, lookup_fmap, Hw.
      destruct (buckets rl !! k) as [ts|]; cbn; [|done].
      destruct (prune ts (f64_sub now w)); [by rewrite option_guard_False by auto|].
      by rewrite option_guard_True.
    + etransitivity; [|exact HK]. etransitivity; [apply dom_filter_subseteq|]. by rewrite dom_fmap_L.
Qed.

(** The clock never goes back, and neither does the start of the window. *)
Definition time_le (w a b : f64) : Prop :=
  f64_leb a b = true ∧ f64_leb (f64_sub a w) (f64_sub b w) = true.

Definition not_after (w : f64) (a b : event) : Prop := time_le w (event_time a) (event_time b).

Definition clock_ok (w : f64) (es : list event) : Prop :=
  StronglySorted (not_after w) es
  ∧ Forall (λ e, not_after w e e) es.

Lemma strongly_sorted_last {A} (R : A → A → Prop) l x :
  StronglySorted R (l ++ [x]) → Forall (λ y, R y x) l.
Proof.
  intros H. apply Forall_lookup. intros i y Hy.
  eapply (strongly_sorted_lookup R _ i (length l)); [exact H|by apply lookup_app_l_Some| |].
  - by rewrite list_lookup_middle.
  - by eapply lookup_lt_Some.
Qed.

(** Events at some of the times of a clock. *)
Lemma clock_sublist w es ts :
  event_time <$> es `sublist_of` ts → StronglySorted (time_le w) ts →
  Forall (λ t, time_le w t t) ts → clock_ok w es.
Proof.
  intros Hsub Hs Hn. split.
  - apply (strongly_sorted_fmap (time_le w) event_time). by eapply sublist_strongly_sorted.
  - apply (Forall_fmap event_time (λ t, time_le w t t)).
    apply Forall_forall. intros t Ht. rewrite Forall_forall in Hn. apply Hn.
    by eapply elem_of_sublist.
Qed.

Lemma history_tracks K k limit w mb es :
  0 < limit → (size K ≤ mb)%nat → Forall (event_ok K k limit) es → clock_ok w es →
  let s := history k (new_limiter w mb) es in
  dom (buckets s.2) ⊆ K ∧ max_buckets s.2 = mb
  ∧ ∀ e, Forall (λ e', not_after w e' e) es → tracks k limit w (event_time e) s.
Proof.
  intros Hpos HK. induction es as [|e es IH] using rev_ind; intros Hev [Hs Hn]; cbv zeta.
  { split_and!; [set_solver|done|]. intros e _.
    split; cbn; rewrite ?lookup_empty; [done|by exists []|apply SSorted_nil|done|cbn; lia]. }
  pose proof (strongly_sorted_last _ _ _ Hs) as Hlast.
  apply strongly_sorted_app_inv in Hs as [Hs _]. apply Forall_app in Hev as [Hev He].
  apply Forall_app in Hn as [Hn Hne]. rewrite Forall_singleton in He, Hne.
  destruct (IH Hev (conj Hs Hn)) as (Hd & Hm & Ht). unfold history in *. rewrite foldl_app.
  cbn [foldl].
  destruct (serve_tracks K k limit w e _ Hpos He (proj1 Hne) Hd ltac:(lia) (Ht e Hlast)) as (T & Hd' & Hm').
  split_and!; [done|congruence|]. intros e' Hall. apply Forall_app in Hall as [_ Hall].
  rewrite Forall_singleton in Hall. destruct Hall. by eapply tracks_advance.
Qed.

(** Served times in the window are in the bucket. *)
Lemma tracks_count k limit w now s :
  tracks k limit w now s →
  Z.of_nat (length (filter (λ t, f64_ltb (f64_sub now w) t = true) s.1)) <= limit.
Proof.
  intros [_ (gone & -> & Hg) _ _ Hl]. rewrite filter_app, filter_none.
  - cbn. pose proof (length_filter (λ t, f64_ltb (f64_sub now w) t = true)
      (default [] (buckets s.2 !! k))). lia.
  - intros t Ht. rewrite Forall_forall in Hg. by rewrite (f64_leb_ltb _ _ (Hg t Ht)).
Qed.
End history.

(** ** A limiter to run the theorems on *)

Module LimiterDemo.
#[export] Instance any_order : BucketOrder :=
  {| bucket_iter m := map_to_list m; bucket_iter_perm m := reflexivity _ |}.
Definition secs (n : Z) : f64 := f64_of_Z n.
Definition k : bucket_key := ("tenant", "key").
Definition other : bucket_key := ("tenant", "other").
Definition keys : gset bucket_key := {[k; other]}.
Definition calls : list event :=
  [Request k (Some 2) (secs 0); Request other (Some 1) (secs 10); Request k (Some 2) (secs 20);
   Request k (Some 2) (secs 40); Cleanup (secs 50)].
Definition final : event := Request k (Some 2) (secs 65).

#[export] Instance event_ok_dec e : Decision (event_ok keys k 2 e).
Proof. destruct e; cbn; apply _. Defined.
End LimiterDemo.
Import LimiterDemo.

(** Two of three requests of a minute are served, and one more when the first is
    more than a minute old. *)
Example demo_served :
  (history k (new_limiter (secs 60) 10) calls).1 = [secs 0; secs 20]
  ∧ (history k (new_limiter (secs 60) 10) (calls ++ [final])).1 = [secs 0; secs 20; secs 65].
Proof. by vm_compute. Qed.

(** With a single bucket a request of another key evicts that of [k], which is
    then served a third time within the minute. *)
Example eviction_forgets :
  (history k (new_limiter (secs 60) 1)
     [Request k (Some 2) (secs 0); Request k (Some 2) (secs 1); Request k (Some 2) (secs 2);
      Request other (Some 2) (secs 3); Request k (Some 2) (secs 4)]).1 = [secs 0; secs 1; secs 4].
Proof. by vm_compute. Qed.

(** ** Theorems *)

(** C29: No key exceeds its rate while the table has room.  Requests of keys in
    [K] and cleanups arrive in any order; [K] has at most [max_buckets] keys, so
    no bucket is ever evicted; every request of [k] carries the same positive
    limit [limit]; and the clock and the start of the window never go back.  Then
    after every event [k] was served at most [limit] times within the window that
    ends at the event.  With more keys than buckets this fails, see
    [eviction_forgets]. *)
Theorem rate_limit_window `{BO : BucketOrder} K k limit w mb es e :
  0 < limit → (size K ≤ mb)%nat → Forall (event_ok K k limit) (es ++ [e]) →
  clock_ok w (es ++ [e]) →
  Z.of_nat (length (filter (λ t, f64_ltb (f64_sub (event_time e) w) t = true)
    (history k (new_limiter w mb) (es ++ [e])).1)) <= limit.
Proof.
  intros Hpos HK Hev Hc. eapply tracks_count.
  destruct (history_tracks K k limit w mb (es ++ [e]) Hpos HK Hev Hc) as (_ & _ & Ht).
  apply (Ht e). apply Forall_app. destruct Hc as [Hs Hn].
  split; [by apply strongly_sorted_last|]. apply Forall_app in Hn as [_ Hn].
  by rewrite Forall_singleton in Hn |- *.
Qed.

#[local] Instance not_after_dec w a b : Decision (not_after w a b).
Proof. unfold not_after, time_le. apply _. Defined.

Lemma rate_limit_window_witness :
  Z.of_nat (length (filter (λ t, f64_ltb (f64_sub (secs 65) (secs 60)) t = true)
    (history k (new_limiter (secs 60) 10) (calls ++ [final])).1)) <= 2.
Proof.
  apply (rate_limit_window keys k 2 (secs 60) 10 calls final).
  - done.
  - apply (bool_decide_unpack _). by vm_compute.
  - apply (bool_decide_unpack _). by vm_compute.
  - split; [|apply (bool_decide_unpack _); by vm_compute].
    repeat (constructor; [|apply (bool_decide_unpack _); by vm_compute]). constructor.
Defined.

(** The limiter stays within its bounds.  After any sequence of requests and
    cleanups, with any clock, it holds at most [max_buckets] buckets (one if that
    is 0); and every answer to a request with a positive limit is either a grant
    with fewer than [limit] requests remaining, or a refusal with none remaining
    and a waiting time that is not negative. *)
Theorem limiter_bounds `{BO : BucketOrder} w mb es tenant key limit now k r rl :
  0 < limit →
  check tenant key (Some limit) now (history k (new_limiter w mb) es).2 = (r, rl) →
  (bucket_count rl ≤ 1 `max` mb)%nat
  ∧ rl_limit r = limit
  ∧ if allowed r then 0 <= remaining r < limit ∧ retry_after r = None
    else remaining r = 0 ∧ ∃ x, retry_after r = Some x ∧ f64_ltb x f64_zero = false.
Proof.
  intros Hpos Hc. split.
  - pose proof (history_bounded k (new_limiter w mb) (es ++ [Request (tenant, key) (Some limit) now]))
      as Hb.
    unfold history in *. rewrite foldl_app in Hb. cbn [foldl serve fst snd] in Hb.
    rewrite Hc in Hb. apply Hb. cbn. rewrite map_size_empty. lia.
  - apply (check_inv (tenant, key)) in Hc as [(_ & _ & Hl)|(l & ts & [= <-] & [[_ El] _ _ Ha])].
    { specialize (Hl _ eq_refl). lia. }
    split; [done|]. destruct (allowed r); [|by destruct Ha as (_ & ? & ?)].
    destruct Ha as (? & -> & ?). split; [lia|done].
Qed.

Lemma limiter_bounds_witness :
  remaining (check "tenant" "key" (Some 2) (secs 65)
    (history k (new_limiter (secs 60) 10) calls).2).1 = 0
  ∧ 0 <= remaining (check "tenant" "key" (Some 2) (secs 65)
      (history k (new_limiter (secs 60) 10) calls).2).1 < 2.
Proof.
  split; [by vm_compute|].
  destruct (check "tenant" "key" (Some 2) (secs 65)
    (history k (new_limiter (secs 60) 10) calls).2) as [r rl] eqn:E.
  assert (Hal : allowed (r, rl).1 = true) by (rewrite <-E; by vm_compute).
  destruct (limiter_bounds (secs 60) 10 calls "tenant" "key" 2 (secs 65) k r rl ltac:(done) E)
    as (_ & _ & H).
  cbn [fst] in *. rewrite Hal in H. apply H.
Defined.

(** Pruning keeps a request made exactly one window ago, so it still counts. *)
Example prune_keeps_boundary :
  prune [secs 5; secs 10; secs 20] (secs 10) = [secs 10; secs 20]
  ∧ f64_leb (secs 10) (secs 10) = true.
Proof. by vm_compute. Qed.
