(* ===== verification/ProviderRetry.v ===== *)
(** * Provider retries, fallback and cost gates

    Model of provider/retry: the loop that invokes a provider again after a
    retryable error, waits in between, asks for budget before each new attempt
    and falls back to another provider in the end; and of provider/cost_gate.
    Providers, the budget check and the timer are arguments over an arbitrary
    state of the world. *)

From S2P Require Import Prelude Float64 CircuitBreaker.
From Stdlib Require Import SpecFloat.

Local Open Scope Z_scope.

(** ** Floats to integers *)

(** [f64::trunc] and [f64::fract]. *)
Definition f64_trunc (x : f64) : f64 :=
  match x with
  | S754_finite s m e =>
    if 0 <=? e then x
    else
      let q := Z.pos m / 2 ^ (- e) in
      if q =? 0 then S754_zero s else f64_of_Z (if s then - q else q)
  | _ => x
  end.

Definition f64_fract (x : f64) : f64 := f64_sub x (f64_trunc x).

Definition i64_min : Z := - 2 ^ 63.
Definition i64_max : Z := 2 ^ 63 - 1.

(** [x as i64]: towards zero, clamped; 0 for NaN. *)
Definition f64_as_i64 (x : f64) : Z :=
  match x with
  | S754_nan | S754_zero _ => 0
  | S754_infinity s => if s then i64_min else i64_max
  | S754_finite s m e =>
    let q := if 0 <=? e then Z.pos m * 2 ^ e else Z.pos m / 2 ^ (- e) in
    Z.max i64_min (Z.min i64_max (if s then - q else q))
  end.

(** [2_i64.pow(n)], which wraps. *)
Definition i64_pow2 (n : Z) : Z := if 64 <=? n then 0 else i64_wrap (2 ^ n).
Definition i64_mul (a b : Z) : Z := i64_wrap (a * b).

(** ** Policies *)

Record RetryPolicy : Type := mkRetryPolicy {
  rp_schema_version : string;
  policy_id : string;
  max_retries : Z;
  backoff_strategy : string;
  base_delay_ms : Z;
  max_delay_ms : Z;
  retryable_error_domains : list string;
  budget_check_per_retry : bool;
}.

Definition default_retryable_domains : list string :=
  ["provider_rate_limit"; "provider_timeout"; "provider_capacity"].

Definition new_policy (policy_id : string) : RetryPolicy :=
  mkRetryPolicy "retry_policy.v1" policy_id 3 "exponential" 1000 30000
    default_retryable_domains true.

Definition should_retry (error : ProviderError) (policy : RetryPolicy) (attempt : Z) : bool :=
  if max_retries policy <=? attempt then false
  else if negb (pe_retryable error) then false
  else bool_decide (pe_error_domain error ∈ retryable_error_domains policy).

(** [attempt as u32] is [attempt mod 2^32]. *)
Definition base_delay (policy : RetryPolicy) (attempt : Z) : Z :=
  if bool_decide (backoff_strategy policy = "linear")
  then i64_mul (base_delay_ms policy) (i64_add attempt 1)
  else if bool_decide (backoff_strategy policy = "exponential")
  then Z.min (i64_mul (base_delay_ms policy) (i64_pow2 (attempt mod 2 ^ 32)))
         (max_delay_ms policy)
  else 0.

Definition jitter_factor (attempt : Z) : f64 :=
  f64_add (f64_of_Z 1)
    (f64_mul (f64_sub (f64_fract (f64_mul (f64_of_Z attempt)
                                    (f64_lit 618033988749895 1000000000000000)))
                (f64_lit 1 2))
       (f64_lit 4 10)).

Definition compute_delay_ms (policy : RetryPolicy) (attempt : Z) : Z :=
  f64_as_i64 (f64_round (f64_mul (f64_of_Z (base_delay policy attempt)) (jitter_factor attempt))).

(** ** The manager *)

(** What the manager does, in order. *)
Inductive action : Type :=
  | InvokePrimary
  | CheckBudget (passed : bool)
  | Sleep (ms : Z)
  | InvokeFallback.

Section manager.
Context {W R : Type}.

Abbreviation provider := (W → result ProviderError R * W).

Record RetryFallbackManager : Type := mkManager {
  primary_id : string;
  primary : provider;
  fallback : option provider;
  policy : RetryPolicy;
  budget_check : W → bool * W;
  sleep : Z → W → W;
}.

Definition budget_error (provider_id : string) : ProviderError :=
  mkProviderError "provider_error.v1" provider_id "budget_exhausted"
    "budget check failed before retry" false.

(** After the loop. *)
Definition exhausted_retries (self : RetryFallbackManager) (last_err : ProviderError) (w : W)
    : result ProviderError R * W * list action :=
  if bool_decide (pe_error_domain last_err = "budget_exhausted") then (Err last_err, w, [])
  else match fallback self with
       | Some fallback => (fallback w, [InvokeFallback])
       | None => (Err last_err, w, [])
       end.

(** [if self.policy.budget_check_per_retry && !(self.budget_check)()]. *)
Definition budget_stops (self : RetryFallbackManager) (w : W) : bool * W * list action :=
  if budget_check_per_retry (policy self)
  then let '(passed, w) := budget_check self w in (negb passed, w, [CheckBudget passed])
  else (false, w, []).

(** The [while] loop; [None] when the fuel runs out. *)
Fixpoint retry_loop (fuel : nat) (self : RetryFallbackManager) (last_err : ProviderError)
    (attempt : Z) (w : W) : option (result ProviderError R * W * list action) :=
  match fuel with
  | O => None
  | S fuel =>
    if should_retry last_err (policy self) attempt then
      let '(stop, w, check) := budget_stops self w in
      if stop then Some (Err (budget_error (primary_id self)), w, check)
      else
        let delay := compute_delay_ms (policy self) attempt in
        let w := sleep self (u64_wrap delay) w in
        let steps := check ++ [Sleep (u64_wrap delay); InvokePrimary] in
        match primary self w with
        | (Ok resp, w) => Some (Ok resp, w, steps)
        | (Err e, w) =>
          match retry_loop fuel self e (attempt + 1) w with
          | Some (r, w, rest) => Some (r, w, steps ++ rest)
          | None => None
          end
        end
    else Some (exhausted_retries self last_err w)
  end.

Definition invoke (fuel : nat) (self : RetryFallbackManager) (w : W)
    : option (result ProviderError R * W * list action) :=
  match primary self w with
  | (Ok resp, w) => Some (Ok resp, w, [InvokePrimary])
  | (Err e, w) =>
    match retry_loop fuel self e 0 w with
    | Some (r, w, rest) => Some (r, w, InvokePrimary :: rest)
    | None => None
    end
  end.
End manager.
Arguments RetryFallbackManager : clear implicits.

(** ** Cost gates *)

Record CostGateConfig : Type := mkCostGateConfig {
  per_dispatch_cap_usd : option f64;
  daily_cap_usd : option f64;
}.

Definition is_active (config : CostGateConfig) : bool :=
  is_some (per_dispatch_cap_usd config) || is_some (daily_cap_usd config).

Inductive CostGateBlock : Type :=
  | PerDispatchExceeded (cap reserved : f64)
  | DailyExceeded (cap today_total : f64).

Definition check_cost_gates (config : CostGateConfig) (reserved_cost daily_cost_usd : f64)
    : result CostGateBlock unit :=
  let over cap := f64_gtb (f64_add daily_cost_usd reserved_cost) cap in
  let daily :=
    match daily_cap_usd config with
    | Some cap => if over cap then Err (DailyExceeded cap daily_cost_usd) else Ok tt
    | None => Ok tt
    end in
  match per_dispatch_cap_usd config with
  | Some cap =>
    if f64_gtb reserved_cost cap then Err (PerDispatchExceeded cap reserved_cost) else daily
  | None => daily
  end.

(** ** What an invocation does *)

(** The actions after the first call: rounds of a passed budget check, if the
    policy asks for one, a wait and a call, then nothing, a refused check, or the
    fallback. *)
Inductive retry_trace (checks : bool) : nat → list action → Prop :=
  | rt_stop : retry_trace checks 0 []
  | rt_denied : checks = true → retry_trace checks 0 [CheckBudget false]
  | rt_fallback : retry_trace checks 0 [InvokeFallback]
  | rt_retry ms n tr :
      retry_trace checks n tr →
      retry_trace checks (S n)
        ((if checks then [CheckBudget true] else []) ++ [Sleep ms; InvokePrimary] ++ tr).

Section invocation.
Context {W R : Type} (self : RetryFallbackManager W R).

Record settled (n : nat) (attempt : Z) (r : result ProviderError R) (tr : list action) : Prop := {
  se_trace : retry_trace (budget_check_per_retry (policy self)) n tr;
  se_bound : Z.of_nat n <= Z.max 0 (max_retries (policy self) - attempt);
  se_denied : CheckBudget false ∈ tr → r = Err (budget_error (primary_id self));
}.

Lemma give_up_settled e w attempt :
  ∃ r w' tr, exhausted_retries self e w = (r, w', tr) ∧ settled 0 attempt r tr.
Proof.
  unfold exhausted_retries. case_bool_decide.
  - do 3 eexists. split; [done|]. split; [constructor|lia|set_solver].
  - destruct (fallback self) as [f|].
    + destruct (f w) as [r w'] eqn:E. do 3 eexists. split; [done|]. split; [constructor|lia|set_solver].
    + do 3 eexists. split; [done|]. split; [constructor|lia|set_solver].
Qed.

Lemma settled_retry n attempt r tr ms :
  attempt < max_retries (policy self) → settled n (attempt + 1) r tr →
  settled (S n) attempt r
    ((if budget_check_per_retry (policy self) then [CheckBudget true] else [])
       ++ [Sleep ms; InvokePrimary] ++ tr).
Proof.
  intros Hlt [Ht Hb Hd]. split; [by constructor|lia|]. intros Hin. apply Hd.
  destruct (budget_check_per_retry _); set_solver.
Qed.

Lemma retry_loop_settles fuel e attempt w :
  (Z.to_nat (max_retries (policy self) - attempt) < fuel)%nat →
  ∃ r w' tr n, retry_loop fuel self e attempt w = Some (r, w', tr) ∧ settled n attempt r tr.
Proof.
  revert e attempt w. induction fuel as [|fuel IH]; intros e attempt w Hf; [lia|].
  cbn [retry_loop]. destruct (should_retry e (policy self) attempt) eqn:Hs.
  2: { destruct (give_up_settled e w attempt) as (r & w' & tr & -> & S). eauto 10. }
  assert (Hlt : attempt < max_retries (policy self))
    by (unfold should_retry in Hs; case_match; [done|lia]).
  assert (Hb : ∃ stop w' tr, budget_stops self w = (stop, w', tr)
    ∧ tr = (if budget_check_per_retry (policy self) then [CheckBudget (negb stop)] else [])
    ∧ (stop = true → budget_check_per_retry (policy self) = true)).
  { unfold budget_stops. destruct (budget_check_per_retry _); [|by do 3 eexists].
    destruct (budget_check self w) as [p w']. do 3 eexists. by rewrite negb_involutive. }
  destruct Hb as ([] & w1 & tr1 & -> & -> & Hc).
  { rewrite Hc by done. do 4 eexists. split; [done|].
    split; [rewrite Hc by done; by apply rt_denied|lia|done]. }
  set (ms := u64_wrap _). cbn [negb].
  destruct (primary self (sleep self ms w1)) as [[resp|e'] w2].
  - do 4 eexists. split; [done|]. rewrite <-(app_nil_r [Sleep ms; InvokePrimary]).
    apply settled_retry; [done|]. split; [constructor|lia|set_solver].
  - destruct (IH e' (attempt + 1) w2) as (r & w3 & tr & n & -> & S); [lia|].
    exists r, w3. eexists _, (Datatypes.S n). split; [done|]. rewrite <-(assoc_L (++)).
    by apply settled_retry.
Qed.
End invocation.

(** ** Behind a circuit breaker *)

Section behind_breaker.
Context {W R : Type} (clock : W → Z) (inner : W → result ProviderError R * W).

(** [CircuitBreakerProvider::invoke] with the breaker as part of the world. *)
Definition breaker_provider (provider_id : string) (s : CircuitBreaker * W)
    : result ProviderError R * (CircuitBreaker * W) :=
  match invoke_begin provider_id (clock s.2) s.1 with
  | (Err e, b) => (Err e, (b, s.2))
  | (Ok _, b) =>
    let '(answer, w) := inner s.2 in
    let '(answer, b) := invoke_end (clock w) answer b in
    (answer, (b, w))
  end.
End behind_breaker.

(** ** Worlds to run the theorems on *)

Module RetryDemo.
Definition err (domain : string) (retryable : bool) : ProviderError :=
  mkProviderError "provider_error.v1" "p" domain "" retryable.

(** The world counts the calls and the waiting time; the primary answers from
    its third call on. *)
Definition slow (w : Z * Z) : result ProviderError string * (Z * Z) :=
  (if w.1 <? 2 then Err (err "provider_timeout" true) else Ok "answer", (w.1 + 1, w.2)).
Definition manager : RetryFallbackManager (Z * Z) string :=
  mkManager "p" slow None (new_policy "rp") (λ w, (true, w)) (λ ms w, (w.1, w.2 + ms)).

(** A breaker that opened at time 0, and a fallback that works. *)
Definition opened : CircuitBreaker := record_failure 0 (breaker_new "p" 1 30000).
Definition guarded : RetryFallbackManager (CircuitBreaker * (Z * Z)) string :=
  mkManager "p" (breaker_provider (λ _, 1) slow "p") (Some (λ s, (Ok "fallback", s)))
    (new_policy "rp") (λ s, (true, s)) (λ _ s, s).
End RetryDemo.
Import RetryDemo.

Example demo_retries :
  invoke 4 manager (0, 0)
  = Some (Ok "answer", (3, 2894),
      [InvokePrimary; CheckBudget true; Sleep 800; InvokePrimary;
       CheckBudget true; Sleep 2094; InvokePrimary]).
Proof. by vm_compute. Qed.

(** ** Theorems *)

(** C35: An invocation always ends.  Whatever the providers, the budget check and
    the world do, the retry loop returns after at most [max_retries] further
    calls of the primary.  Each of them comes right after a wait and, if the
    policy asks for it, a passed budget check.  After the last one there is at
    most one more action, a call of the fallback or a refused budget check; a
    refused check ends the invocation with the budget error and no further call. *)
Theorem retry_terminates {W R : Type} (self : RetryFallbackManager W R) w :
  ∃ r w' tr n,
    invoke (S (Z.to_nat (max_retries (policy self)))) self w = Some (r, w', InvokePrimary :: tr)
    ∧ retry_trace (budget_check_per_retry (policy self)) n tr
    ∧ Z.of_nat n <= Z.max 0 (max_retries (policy self))
    ∧ (CheckBudget false ∈ tr → r = Err (budget_error (primary_id self))).
Proof.
  unfold invoke. destruct (primary self w) as [[resp|e] w1].
  - exists (Ok resp), w1, [], 0%nat. split_and!; [done|constructor|lia|set_solver].
  - destruct (retry_loop_settles self (S (Z.to_nat (max_retries (policy self)))) e 0 w1)
      as (r & w' & tr & n & -> & [Ht Hb Hd]); [rewrite Z.sub_0_r; lia|].
    exists r, w', tr, n. rewrite Z.sub_0_r in Hb. by split_and!.
Qed.

(** An open circuit breaker goes straight to the fallback.  When the primary
    sits behind a breaker that is open and whose recovery timeout has not passed,
    an invocation makes no call of the provider behind it, waits for nothing,
    leaves the breaker as it was and returns the fallback's answer. *)
Theorem open_breaker_falls_back {W R : Type} clock inner provider_id f
    (self : RetryFallbackManager (CircuitBreaker * W) R) b w fuel :
  primary self = breaker_provider clock inner provider_id → fallback self = Some f →
  breaker_state b = Open → should_try_reset (clock w) b = false → (0 < fuel)%nat →
  invoke fuel self (b, w) = Some (f (b, w), [InvokePrimary; InvokeFallback]).
Proof.
  intros Hp Hf Hb Hr Hfuel. destruct fuel as [|fuel]; [lia|]. unfold invoke.
  rewrite Hp. unfold breaker_provider, invoke_begin, guard_call. cbn [fst snd].
  rewrite Hb, Hr. cbn [retry_loop should_retry]. unfold should_retry, exhausted_retries. cbn.
  rewrite Hf, bool_decide_false by done. destruct (f (b, w)). by destruct (_ <=? _).
Qed.

Lemma open_breaker_falls_back_witness :
  invoke 1 guarded (opened, (0, 0))
  = Some (Ok "fallback", (opened, (0, 0)), [InvokePrimary; InvokeFallback]).
Proof.
  apply (open_breaker_falls_back (λ _, 1) slow "p" (λ s, (Ok "fallback", s)) guarded opened (0, 0) 1);
    [done..|lia].
Defined.

(** The jitter is applied after the cap: with the default policy the seventh
    retry waits longer than [max_delay_ms], and from the 55th on the product
    overflows and the wait is no longer a number of milliseconds a caller would
    see the end of. *)
Example delay_exceeds_cap :
  max_delay_ms (new_policy "rp") = 30000 ∧ compute_delay_ms (new_policy "rp") 6 = 32498
  ∧ compute_delay_ms (new_policy "rp") 54 = -410526880860531968
  ∧ u64_wrap (compute_delay_ms (new_policy "rp") 54) = 18036217192849019648.
Proof. by vm_compute. Qed.

(** A gate lets a cost through exactly when no cap is exceeded. *)
Lemma check_cost_gates_exact config reserved daily :
  check_cost_gates config reserved daily = Ok () ↔
  (∀ cap, per_dispatch_cap_usd config = Some cap → f64_ltb cap reserved = false)
  ∧ (∀ cap, daily_cap_usd config = Some cap → f64_ltb cap (f64_add daily reserved) = false).
Proof.
  unfold check_cost_gates, f64_gtb, f64_ltb.
  destruct (per_dispatch_cap_usd config) as [c1|], (daily_cap_usd config) as [c2|];
    repeat case_match; naive_solver congruence.
Qed.
