(* ===== verification/RunQueue.v ===== *)
(** * The run queue and its backpressure

    Model of workflow/run_queue (dispatch order, admission, deadlines) and of
    workflow/backpressure (when queued runs are paused, and how far concurrency
    is reduced).  Both decide from a snapshot of the queue; only the backpressure
    keeps a state. *)

From S2P Require Import Prelude Text Float64.
From Stdlib Require Import Ascii SpecFloat.

Local Open Scope Z_scope.

(** ** Comparison functions *)

Record cmp_order {A} (c : A → A → comparison) : Prop := {
  co_sym : ∀ x y, c y x = CompOpp (c x y);
  co_eq : ∀ x y z, c x y = Eq → c x z = c y z;
  co_lt : ∀ x y z, c x y = Lt → c y z = Lt → c x z = Lt;
}.

Definition cmp_leb {A} (c : A → A → comparison) (x y : A) : bool :=
  match c x y with Gt => false | _ => true end.

(** [Ord] of strings and integers. *)
Definition str_cmp (a b : string) : comparison :=
  if bool_decide (a = b) then Eq else if String.leb a b then Lt else Gt.

(** ** Parsing *)

Definition digit (c : ascii) : option Z :=
  let n := byte_val c - 48 in if (0 <=? n) && (n <=? 9) then Some n else None.

Fixpoint digits (acc : Z) (s : string) : option Z :=
  match s with
  | EmptyString => Some acc
  | String c s => match digit c with Some d => digits (10 * acc + d) s | None => None end
  end.

(** [str::parse::<i64>]: an optional sign, at least one digit, no overflow. *)
Definition parse_i64 (s : string) : option Z :=
  let unsigned s := match s with EmptyString => None | _ => digits 0 s end in
  let n :=
    match s with
    | String c s' =>
      if bool_decide (c = "-"%char) then Z.opp <$> unsigned s'
      else if bool_decide (c = "+"%char) then unsigned s'
      else unsigned s
    | EmptyString => None
    end in
  match n with
  | Some n => if (- 2 ^ 63 <=? n) && (n <? 2 ^ 63) then Some n else None
  | None => None
  end.

(** [str::split] on a character: one piece more than there are separators. *)
Fixpoint split_char (c : ascii) (s : string) : list string :=
  match s with
  | EmptyString => [EmptyString]
  | String d s =>
    if bool_decide (d = c) then EmptyString :: split_char c s
    else match split_char c s with
         | piece :: rest => String d piece :: rest
         | [] => [String d EmptyString]
         end
  end.

(** [str::trim_end_matches] on a character. *)
Fixpoint trim_end_char (c : ascii) (s : string) : string :=
  match s with
  | EmptyString => EmptyString
  | String d s =>
    match trim_end_char c s with
    | EmptyString => if bool_decide (d = c) then EmptyString else String d EmptyString
    | s => String d s
    end
  end.

(** ** Data *)

Record QueuedRun : Type := mkQueuedRun {
  run_id : string;
  priority : Z;
  run_created_at : string;
  deadline_at : option string;
  sla_ms : option Z;
  tenant_id : option string;
  pause_reason : option string;
  queue_position : option Z;
}.

Record QueueConfig : Type := mkQueueConfig {
  qc_max_concurrent : Z;
  max_queued : Z;
  priority_ceiling : Z;
  priority_floor : Z;
  deadline_overdue_threshold_ms : Z;
}.

Definition default_queue_config : QueueConfig := mkQueueConfig 4 100 10 1 60000.

Record TenantQueueInfo : Type := mkTenantQueueInfo {
  tq_tenant_id : string;
  run_count : Z;
  tq_avg_priority : f64;
}.

Record QueueStatus : Type := mkQueueStatus {
  total_queued : Z;
  total_running : Z;
  total_paused : Z;
  total_completed : Z;
  total_failed : Z;
  avg_priority : f64;
  overdue_count : Z;
  capacity_utilization : f64;
  queue_depth_ratio : f64;
  backpressure_active : bool;
  tenant_counts : list TenantQueueInfo;
}.

Record AdmissionResult : Type := mkAdmissionResult {
  admission_allowed : bool;
  admission_reason : string;
  suggested_action : option string;
}.

Record DeadlineAction : Type := mkDeadlineAction {
  da_run_id : string;
  da_action : string;
  da_reason : string;
}.

Record BackpressureSignal : Type := mkBackpressureSignal {
  bs_active : bool;
  bs_degrade_mode : option string;
  pause_targets : list string;
  priority_ceiling_temp : option Z;
  bs_reason : string;
}.

(** [{:.1}]: the exact value rounded to one decimal, ties to even. *)
Definition fmt_fixed1 (x : f64) : string :=
  match x with
  | S754_nan => "NaN"
  | S754_infinity s => (if s then "-" else "") +:+ "inf"
  | S754_zero s => (if s then "-" else "") +:+ "0.0"
  | S754_finite s m e =>
    let scaled := if 0 <=? e then Z.pos m * 2 ^ e * 10
                  else div_half_even (Z.pos m * 10) (2 ^ (- e)) in
    (if s then "-" else "") +:+ pretty (scaled / 10) +:+ "." +:+ pretty (scaled mod 10)
  end.

(** [format!("{:.1}", x * 100.0)]. *)
Definition percent (x : f64) : string := fmt_fixed1 (f64_mul x (f64_of_Z 100)).

(** ** The dispatch order *)

Definition compare_deadline (a b : option string) : comparison :=
  match a, b with
  | Some a, Some b => str_cmp a b
  | Some _, None => Lt
  | None, Some _ => Gt
  | None, None => Eq
  end.

Definition run_cmp (a b : QueuedRun) : comparison :=
  match is_some (pause_reason a), is_some (pause_reason b) with
  | false, true => Lt
  | true, false => Gt
  | _, _ =>
    match priority a ?= priority b with
    | Eq =>
      match compare_deadline (deadline_at a) (deadline_at b) with
      | Eq => str_cmp (run_created_at a) (run_created_at b)
      | c => c
      end
    | c => c
    end
  end.

Definition sort_runs (runs : list QueuedRun) : list QueuedRun := sort_by (cmp_leb run_cmp) runs.

(** ** Admission *)

Definition admission_check (config : QueueConfig) (queue_status : QueueStatus)
    : AdmissionResult :=
  if max_queued config <=? total_queued queue_status then
    mkAdmissionResult false
      ("queue at capacity: " +:+ pretty (total_queued queue_status) +:+ " / "
         +:+ pretty (max_queued config)) (Some "wait")
  else if f64_gtb (capacity_utilization queue_status) (f64_lit 9 10) then
    mkAdmissionResult true
      ("utilization high: " +:+ percent (capacity_utilization queue_status) +:+ "%")
      (Some "throttle")
  else mkAdmissionResult true "within limits" None.

Definition compute_backpressure (config : QueueConfig) (queue_status : QueueStatus)
    : BackpressureSignal :=
  let utilization_high := f64_gtb (capacity_utilization queue_status) (f64_lit 8 10) in
  let queue_depth_high := f64_gtb (queue_depth_ratio queue_status) (f64_lit 8 10) in
  if utilization_high || queue_depth_high then
    let reason_parts :=
      (if utilization_high
       then ["utilization " +:+ percent (capacity_utilization queue_status) +:+ "%"] else [])
      ++ (if queue_depth_high
          then ["queue depth " +:+ percent (queue_depth_ratio queue_status) +:+ "%"] else []) in
    mkBackpressureSignal true (Some "throttle") []
      (Some (Z.min (priority_ceiling config) 5)) (join ", " reason_parts)
  else mkBackpressureSignal false None [] None "within limits".

Definition validate_priority (config : QueueConfig) (priority : Z) : result string Z :=
  if (priority <? priority_floor config) || (priority_ceiling config <? priority)
  then Err ("priority " +:+ pretty priority +:+ " outside range ["
              +:+ pretty (priority_floor config) +:+ ", "
              +:+ pretty (priority_ceiling config) +:+ "]")
  else Ok priority.

(** ** Deadlines *)

(** Milliseconds of a date and time, 30 days to a month and 365 to a year.  The
    sums and products wrap, so one reduction at the end is enough. *)
Definition approximate_ms (year month day hour minute second : Z) : Z :=
  let days_since_epoch := (year - 1970) * 365 + (month - 1) * 30 + (day - 1) in
  i64_wrap ((days_since_epoch * 86400 + hour * 3600 + minute * 60 + second) * 1000).

Definition parse_timestamp_ms (ts : string) : option Z :=
  match parse_i64 ts with
  | Some epoch => Some epoch
  | None =>
    match split_char "T" (trim_end_char "Z" ts) with
    | [date; time] =>
      match split_char "-" date with
      | [year; month; day] =>
        year ← parse_i64 year;
        month ← parse_i64 month;
        day ← parse_i64 day;
        match split_char ":" time with
        | hour :: minute :: second :: _ =>
          hour ← parse_i64 hour;
          minute ← parse_i64 minute;
          second ← head (split_char "." second) ≫= parse_i64;
          Some (approximate_ms year month day hour minute second)
        | _ => None
        end
      | _ => None
      end
    | _ => None
    end
  end.

Definition check_deadline (config : QueueConfig) (run : QueuedRun) : option DeadlineAction :=
  deadline ← deadline_at run;
  deadline_ts ← parse_timestamp_ms deadline;
  now_ms ← parse_timestamp_ms (run_created_at run);
  let effective_deadline :=
    match sla_ms run with Some sla => i64_add now_ms sla | None => deadline_ts end in
  let overdue_ms := i64_wrap (now_ms - effective_deadline) in
  if 0 <? overdue_ms then
    Some (mkDeadlineAction (run_id run) "boost" ("overdue by " +:+ pretty overdue_ms +:+ "ms"))
  else if i64_wrap (- deadline_overdue_threshold_ms config) <? overdue_ms then
    Some (mkDeadlineAction (run_id run) "warn"
      ("approaching deadline: " +:+ pretty (i64_wrap (- overdue_ms)) +:+ "ms remaining"))
  else None.

Definition check_deadlines (config : QueueConfig) (runs : list QueuedRun)
    : list DeadlineAction :=
  omap (check_deadline config) runs.

(** ** Backpressure *)

Record BackpressureConfig : Type := mkBackpressureConfig {
  enabled : bool;
  activation_threshold : f64;
  deactivation_threshold : f64;
  max_paused_runs : Z;
  degrade_concurrency_factor : f64;
  cooldown_after_pause_ms : Z;
}.

Definition default_backpressure_config : BackpressureConfig :=
  mkBackpressureConfig true (f64_lit 8 10) (f64_lit 5 10) 10 (f64_lit 5 10) 60000.

Record BackpressureDecision : Type := mkBackpressureDecision {
  bd_active : bool;
  bd_action : string;
  runs_to_pause : list string;
  degrade_mode : option string;
  effective_concurrency : Z;
  bd_reason : string;
}.

Record Backpressure : Type := mkBackpressure {
  bp_config : BackpressureConfig;
  paused_runs : gmap string Z;
  bp_active : bool;
}.
#[export] Instance eta_Backpressure : Eta Backpressure := λ b,
  mkBackpressure (bp_config b) (paused_runs b) (bp_active b).

Definition new_backpressure (config : BackpressureConfig) : Backpressure :=
  mkBackpressure config ∅ false.

Definition effective_max_concurrent (self : Backpressure) (base : Z) (active : bool) : Z :=
  if active
  then Z.max (f64_as_u64 (f64_mul (f64_of_Z base)
                              (degrade_concurrency_factor (bp_config self)))) 1
  else base.

Definition cooling (self : Backpressure) (now paused_at : Z) : bool :=
  u64_saturating_sub now paused_at <? cooldown_after_pause_ms (bp_config self).

Definition cleanup_expired_cooldowns (now : Z) (self : Backpressure) : Backpressure :=
  self <| paused_runs := filter (λ e, cooling self now e.2 = true) (paused_runs self) |>.

Definition record_pause (run : string) (timestamp_ms : Z) (self : Backpressure) : Backpressure :=
  self <| paused_runs := <[run := timestamp_ms]> (paused_runs self) |>.

Definition should_skip_run (self : Backpressure) (run : string) (now : Z) : bool :=
  if negb (bp_active self) then false
  else match paused_runs self !! run with
       | Some paused_at => cooling self now paused_at
       | None => false
       end.

Definition inactive_decision (reason : string) : BackpressureDecision :=
  mkBackpressureDecision false "none" [] None 0 reason.

(** The switch with its two thresholds. *)
Definition update_active (pool_utilization queue_depth_ratio : f64) (self : Backpressure)
    : Backpressure :=
  let config := bp_config self in
  let should_activate :=
    f64_gtb pool_utilization (activation_threshold config)
    || f64_gtb queue_depth_ratio (activation_threshold config) in
  let should_deactivate :=
    f64_ltb pool_utilization (deactivation_threshold config)
    && f64_ltb queue_depth_ratio (deactivation_threshold config) in
  if should_activate && negb (bp_active self) then self <| bp_active := true |>
  else if should_deactivate && bp_active self
  then self <| bp_active := false |> <| paused_runs := ∅ |>
  else self.

(** The names [overdue_0], [overdue_1], ... used without real run ids. *)
Definition placeholder_ids (n : Z) : list string :=
  (λ i, "overdue_" +:+ pretty (Z.of_nat i)) <$> seq 0 (Z.to_nat n).

Definition choose_pauses (self : Backpressure) (overdue_count : Z)
    (overdue_run_ids : option (list string)) : list string :=
  let paused := Z.of_nat (size (paused_runs self)) in
  if (0 <? overdue_count) && (paused <? max_paused_runs (bp_config self)) then
    let can_pause := max_paused_runs (bp_config self) - paused in
    let to_pause := Z.min overdue_count can_pause in
    match overdue_run_ids with
    | Some real_ids => take (Z.to_nat to_pause) real_ids
    | None => placeholder_ids to_pause
    end
  else [].

Definition evaluate (pool_utilization : f64) (queue_depth max_queue overdue_count now : Z)
    (overdue_run_ids : option (list string)) (self : Backpressure)
    : BackpressureDecision * Backpressure :=
  if negb (enabled (bp_config self)) then (inactive_decision "backpressure disabled", self)
  else
    let queue_depth_ratio :=
      if 0 <? max_queue then f64_div (f64_of_Z queue_depth) (f64_of_Z max_queue)
      else f64_zero in
    let self := update_active pool_utilization queue_depth_ratio self in
    if negb (bp_active self) then (inactive_decision "below threshold", self)
    else
      let self := cleanup_expired_cooldowns now self in
      let runs_to_pause := choose_pauses self overdue_count overdue_run_ids in
      let effective_concurrency := effective_max_concurrent self 10 true in
      let degrade_mode :=
        if f64_gtb pool_utilization (f64_lit 95 100) then Some "severe" else Some "throttle" in
      let reason :=
        "utilization " +:+ percent pool_utilization +:+ "%, queue depth "
          +:+ percent queue_depth_ratio +:+ "%, overdue " +:+ pretty overdue_count in
      (mkBackpressureDecision true "pause_and_throttle" runs_to_pause degrade_mode
         effective_concurrency reason, self).

(** ** Orders *)

Lemma str_cmp_order : cmp_order str_cmp.
Proof.
  unfold str_cmp. split.
  - intros x y. repeat case_bool_decide; try congruence; [done|].
    destruct (String.leb x y) eqn:E1, (String.leb y x) eqn:E2; try done.
    + by pose proof (str_leb_antisym _ _ E1 E2).
    + destruct (str_leb_total x y); congruence.
  - intros x y z. case_bool_decide; [by subst|]. by case_match.
  - intros x y z. case_bool_decide as Hxy; [done|].
    destruct (String.leb x y) eqn:E1; [|done]. intros _. case_bool_decide as Hyz; [done|].
    destruct (String.leb y z) eqn:E2; [|done]. intros _. case_bool_decide as Hxz.
    + subst z. by pose proof (str_leb_antisym _ _ E1 E2).
    + by rewrite (str_leb_trans _ _ _ E1 E2).
Qed.

Lemma Z_compare_order : cmp_order Z.compare.
Proof.
  split.
  - intros x y. apply Z.compare_antisym.
  - intros x y z ->%Z.compare_eq. done.
  - intros x y z. rewrite !Z.compare_lt_iff. lia.
Qed.

Lemma compare_deadline_order : cmp_order compare_deadline.
Proof.
  destruct str_cmp_order as [Hs He Hl]. split.
  - intros [x|] [y|]; cbn; auto.
  - intros [x|] [y|] [z|]; cbn; try done. apply He.
  - intros [x|] [y|] [z|]; cbn; try done. apply Hl.
Qed.

Lemma on_order {A B} (f : B → A) c : cmp_order c → cmp_order (λ x y, c (f x) (f y)).
Proof. intros [Hs He Hl]. split; eauto. Qed.

Lemma then_order {A} (c1 c2 : A → A → comparison) :
  cmp_order c1 → cmp_order c2 →
  cmp_order (λ x y, match c1 x y with Eq => c2 x y | c => c end).
Proof.
  intros [S1 E1 L1] [S2 E2 L2].
  assert (R1 : ∀ x y z, c1 y z = Eq → c1 x y = c1 x z).
  { intros x y z H. rewrite (S1 y x), (S1 z x). by rewrite (E1 _ _ x H). }
  split.
  - intros x y. rewrite (S1 x y). destruct (c1 x y); cbn; [apply S2|done..].
  - intros x y z. destruct (c1 x y) eqn:E; try done. intros H2. rewrite (E1 _ _ z E).
    destruct (c1 y z); [by apply E2|done..].
  - intros x y z H1 H2. destruct (c1 x y) eqn:Exy; try done.
    + rewrite (E1 _ _ z Exy). destruct (c1 y z); try done. by eapply L2.
    + destruct (c1 y z) eqn:Eyz; try done.
      * by rewrite <-(R1 x _ _ Eyz), Exy.
      * by rewrite (L1 _ _ _ Exy Eyz).
Qed.

Definition pause_cmp (a b : bool) : comparison :=
  match a, b with false, true => Lt | true, false => Gt | _, _ => Eq end.

Lemma pause_cmp_order : cmp_order pause_cmp.
Proof. split; [by intros [] []|by intros [] [] []..]. Qed.

Lemma run_cmp_order : cmp_order run_cmp.
Proof.
  pose proof (then_order _ _ (on_order (λ r, is_some (pause_reason r)) _ pause_cmp_order)
    (then_order _ _ (on_order priority _ Z_compare_order)
      (then_order _ _ (on_order deadline_at _ compare_deadline_order)
        (on_order run_created_at _ str_cmp_order)))) as [S E L].
  assert (Heq : ∀ x y, run_cmp x y
    = match pause_cmp (is_some (pause_reason x)) (is_some (pause_reason y)) with
      | Eq => match priority x ?= priority y with
              | Eq => match compare_deadline (deadline_at x) (deadline_at y) with
                      | Eq => str_cmp (run_created_at x) (run_created_at y)
                      | c => c
                      end
              | c => c
              end
      | c => c
      end).
  { intros x y. unfold run_cmp. by destruct (is_some _), (is_some _). }
  split; intros; rewrite !Heq in *; eauto.
Qed.

Lemma cmp_leb_total {A} (c : A → A → comparison) x y :
  cmp_order c → cmp_leb c x y = true ∨ cmp_leb c y x = true.
Proof. intros [S _ _]. unfold cmp_leb. rewrite (S x y). destruct (c x y); auto. Qed.

Lemma cmp_leb_trans {A} (c : A → A → comparison) x y z :
  cmp_order c → cmp_leb c x y = true → cmp_leb c y z = true → cmp_leb c x z = true.
Proof.
  intros [S E L]. unfold cmp_leb. intros H1 H2.
  destruct (c x y) eqn:Exy; [by rewrite (E _ _ z Exy)| |done].
  destruct (c y z) eqn:Eyz; [|by rewrite (L _ _ _ Exy Eyz)|done].
  assert (Ezx : c z x = c y x) by (symmetry; by apply E).
  rewrite S, Ezx, S, Exy. done.
Qed.

Lemma tie_order (a b : QueuedRun) :
  match compare_deadline (deadline_at a) (deadline_at b) with
  | Eq => str_cmp (run_created_at a) (run_created_at b)
  | c => c
  end ≠ Gt →
  compare_deadline (deadline_at a) (deadline_at b) ≠ Gt
  ∧ (deadline_at a = deadline_at b →
     String.leb (run_created_at a) (run_created_at b) = true).
Proof.
  intros H. split; [by destruct (compare_deadline _ _)|]. intros Hd. rewrite Hd in H.
  assert (Hrefl : compare_deadline (deadline_at b) (deadline_at b) = Eq).
  { destruct (deadline_at b) as [d|]; [|done]. cbn. unfold str_cmp. by rewrite bool_decide_true. }
  rewrite Hrefl in H. unfold str_cmp in H. case_bool_decide as E; [|by destruct (String.leb _ _)].
  rewrite E. by destruct (str_leb_total (run_created_at b) (run_created_at b)).
Qed.

(** ** The switch *)

(** The ratio [evaluate] compares with the thresholds. *)
Abbreviation depth_ratio queue_depth max_queue :=
  (if 0 <? max_queue then f64_div (f64_of_Z queue_depth) (f64_of_Z max_queue) else f64_zero).

Lemma choose_pauses_bound bp overdue ids :
  Z.of_nat (length (choose_pauses bp overdue ids)) <= Z.max 0 overdue
  ∧ (choose_pauses bp overdue ids = []
     ∨ Z.of_nat (size (paused_runs bp)) + Z.of_nat (length (choose_pauses bp overdue ids))
       <= max_paused_runs (bp_config bp)).
Proof.
  unfold choose_pauses. cbn zeta.
  destruct (_ && _) eqn:E; [|split; [cbn; lia|by left]].
  apply andb_true_iff in E as [E1 E2]. apply Z.ltb_lt in E1, E2.
  assert (Hlen : ∀ to_pause, 0 <= to_pause →
    Z.of_nat (length match ids with
      | Some real_ids => take (Z.to_nat to_pause) real_ids
      | None => placeholder_ids to_pause end) <= to_pause).
  { intros n Hn. destruct ids as [ids|].
    - rewrite length_take. lia.
    - unfold placeholder_ids. rewrite length_fmap, length_seq. lia. }
  specialize (Hlen (Z.min overdue (max_paused_runs (bp_config bp)
    - Z.of_nat (size (paused_runs bp))))).
  ospecialize (Hlen _); [lia|].
  split; [lia|right; lia].
Qed.

Lemma update_active_switch u q bp :
  let bp' := update_active u q bp in
  bp_config bp' = bp_config bp
  ∧ (bp_active bp = false → bp_active bp' = true →
     f64_gtb u (activation_threshold (bp_config bp)) = true
     ∨ f64_gtb q (activation_threshold (bp_config bp)) = true)
  ∧ (bp_active bp = true → bp_active bp' = false →
     f64_ltb u (deactivation_threshold (bp_config bp)) = true
     ∧ f64_ltb q (deactivation_threshold (bp_config bp)) = true
     ∧ paused_runs bp' = ∅)
  ∧ (size (paused_runs bp') ≤ size (paused_runs bp))%nat.
Proof.
  unfold update_active. destruct (bp_active bp) eqn:Ha; cbn [negb];
    rewrite ?andb_false_r, ?andb_true_r.
  - destruct (_ && _) eqn:E; [|rewrite Ha; by split_and!].
    apply andb_true_iff in E as [E1 E2]. split_and!; try done. cbn. rewrite map_size_empty. lia.
  - destruct (_ || _) eqn:E; [|rewrite Ha; by split_and!].
    apply orb_true_iff in E. by split_and!.
Qed.

Lemma record_pauses_size now runs bp :
  (size (paused_runs (foldr (λ run, record_pause run now) bp runs))
   ≤ length runs + size (paused_runs bp))%nat.
Proof.
  induction runs as [|r runs IH]; [done|]. cbn [foldr length].
  set (b := foldr _ bp runs) in *. change (paused_runs (record_pause r now b))
    with (<[r := now]> (paused_runs b)). rewrite map_size_insert. case_match; unfold id; lia.
Qed.

(** ** Theorems *)

(** Runs are dispatched in order.  [sort_runs] returns the same runs so that
    of any two, the one further back is paused if the one in front is; between
    runs that are both paused or both not, the one in front has a priority that
    is not larger; at equal priorities its deadline is not later, a run without
    a deadline coming last; and at equal deadlines it is not the younger one. *)
Theorem queue_order runs :
  sort_runs runs ≡ₚ runs
  ∧ ∀ i j a b, sort_runs runs !! i = Some a → sort_runs runs !! j = Some b → (i < j)%nat →
    (is_some (pause_reason a) = true → is_some (pause_reason b) = true)
    ∧ (is_some (pause_reason a) = is_some (pause_reason b) →
       priority a <= priority b
       ∧ (priority a = priority b →
          compare_deadline (deadline_at a) (deadline_at b) ≠ Gt
          ∧ (deadline_at a = deadline_at b →
             String.leb (run_created_at a) (run_created_at b) = true))).
Proof.
  split; [apply sort_by_perm|]. intros i j a b Ha Hb Hij.
  assert (Hle : cmp_leb run_cmp a b = true).
  { eapply (strongly_sorted_lookup (λ x y, cmp_leb run_cmp x y = true) _ i j); [|exact Ha|exact Hb|done].
    apply sort_by_sorted; intros; [by apply cmp_leb_total, run_cmp_order|].
    eapply cmp_leb_trans; [apply run_cmp_order|done|done]. }
  unfold cmp_leb, run_cmp in Hle.
  destruct (is_some (pause_reason a)), (is_some (pause_reason b)); try done; (split; [done|]);
    intros Hpause; try done; clear Hpause;
    (destruct (Z.compare_spec (priority a) (priority b)); [|split; [lia|intros; lia]|done]);
    (split; [lia|]; intros _); apply tie_order; by intros Hg; rewrite Hg in Hle.
Qed.

(** Deadlines are measured against the moment a run was created, never
    against the clock.  A run with a service level of [sla ≥ 0] milliseconds is
    never reported overdue, whatever its deadline: it is warned about exactly
    when the service level is shorter than the warning threshold.  A run without
    one is reported overdue exactly when its deadline precedes its creation. *)
Theorem deadlines_ignore_the_clock config run now dl :
  deadline_at run ≫= parse_timestamp_ms = Some dl →
  parse_timestamp_ms (run_created_at run) = Some now →
  is_i64 (now - dl) → is_i64 (deadline_overdue_threshold_ms config) →
  0 <= deadline_overdue_threshold_ms config →
  (∀ sla, sla_ms run = Some sla → 0 <= sla ∧ is_i64 sla ∧ is_i64 (now + sla)) →
  da_action <$> check_deadline config run
  = match sla_ms run with
    | Some sla =>
      if sla <? deadline_overdue_threshold_ms config then Some "warn" else None
    | None =>
      if dl <? now then Some "boost"
      else if dl - now <? deadline_overdue_threshold_ms config then Some "warn" else None
    end.
Proof.
  intros Hdl Hnow Hdiff Hth Hth0 Hsla. unfold check_deadline.
  destruct (deadline_at run) as [d|]; [|done]. cbn in Hdl. cbn [mbind option_bind].
  rewrite Hdl, Hnow. cbn [mbind option_bind].
  rewrite (i64_wrap_small (- deadline_overdue_threshold_ms config)) by (unfold is_i64 in *; lia).
  destruct (sla_ms run) as [sla|].
  - destruct (Hsla sla eq_refl) as (Hpos & Hty & Hfit). rewrite i64_add_small by done.
    replace (now - (now + sla)) with (- sla) by lia.
    rewrite i64_wrap_small by (unfold is_i64 in *; lia).
    rewrite (proj2 (Z.ltb_ge 0 (- sla))) by lia.
    repeat case_match; try done; lia.
  - rewrite i64_wrap_small by done.
    repeat case_match; try done; lia.
Qed.

(** The backpressure switch.  The decision is active exactly when the
    backpressure is enabled and on; it goes on only above the activation
    threshold and off only when both measures are below the deactivation
    threshold, and then no run stays paused.  An active decision leaves at least
    one run of concurrency.  It names at most as many runs as are overdue, and
    pausing them at once never exceeds the configured number of paused runs. *)
Theorem backpressure_switch u depth max overdue now ids bp dec bp' :
  evaluate u depth max overdue now ids bp = (dec, bp') →
  bd_active dec = enabled (bp_config bp) && bp_active bp'
  ∧ (bp_active bp = false → bp_active bp' = true →
     f64_gtb u (activation_threshold (bp_config bp)) = true
     ∨ f64_gtb (depth_ratio depth max) (activation_threshold (bp_config bp)) = true)
  ∧ (bp_active bp = true → bp_active bp' = false →
     f64_ltb u (deactivation_threshold (bp_config bp)) = true
     ∧ f64_ltb (depth_ratio depth max) (deactivation_threshold (bp_config bp)) = true
     ∧ paused_runs bp' = ∅)
  ∧ (bd_active dec = true → 1 <= effective_concurrency dec)
  ∧ Z.of_nat (length (runs_to_pause dec)) <= Z.max 0 overdue
  ∧ (Z.of_nat (size (paused_runs bp)) <= max_paused_runs (bp_config bp) →
     Z.of_nat (size (paused_runs (foldr (λ run, record_pause run now) bp' (runs_to_pause dec))))
     <= max_paused_runs (bp_config bp)).
Proof.
  unfold evaluate. destruct (enabled (bp_config bp)) eqn:Een; cbn [negb].
  2: { intros [= <- <-]. cbn. split_and!; try done; intros; try congruence; lia. }
  destruct (update_active_switch u (depth_ratio depth max) bp) as (Hc & Hon & Hoff & Hsz).
  set (bp1 := update_active u (depth_ratio depth max) bp) in *.
  destruct (bp_active bp1) eqn:Ha; cbn [negb]; intros [= <- <-]; cbn [bd_active andb].
  - set (bp2 := cleanup_expired_cooldowns now bp1).
    assert (Hsz2 : (size (paused_runs bp2) ≤ size (paused_runs bp))%nat).
    { etrans; [|exact Hsz]. apply map_subseteq_size, map_filter_subseteq. }
    destruct (choose_pauses_bound bp2 overdue ids) as [Hl Hb].
    pose proof (record_pauses_size now (choose_pauses bp2 overdue ids) bp2) as Hrec.
    cbn [bd_active runs_to_pause effective_concurrency].
    change (bp_config bp2) with (bp_config bp1) in Hb. change (bp_active bp2) with (bp_active bp1).
    rewrite Ha. rewrite Hc in Hb. split_and!; [done|by auto| | |done|].
    + done.
    + intros _. unfold effective_max_concurrent. lia.
    + intros Hmax. destruct Hb as [Hb|Hb]; [rewrite Hb in *; cbn in *; lia|lia].
  - rewrite Ha. cbn. split_and!; try done; try lia; by auto.
Qed.

(** ** Examples *)

Module QueueDemo.

Definition run (id : string) (deadline : option string) (sla : option Z) : QueuedRun :=
  mkQueuedRun id 5 "2026-01-01T00:00:00Z" deadline sla None None None.

(** A year past its deadline, and nothing is reported: with a service level of
    an hour the deadline is always an hour away. *)
Lemma deadlines_ignore_the_clock_witness :
  da_action <$> check_deadline default_queue_config
    (run "r" (Some "2025-01-01T00:00:00Z") (Some 3600000)) = None.
Proof.
  apply (deadlines_ignore_the_clock default_queue_config
    (run "r" (Some "2025-01-01T00:00:00Z") (Some 3600000)) 1766016000000 1734480000000);
    [by vm_compute|by vm_compute|unfold is_i64; cbn; lia..|].
  intros sla [= <-]. unfold is_i64. lia.
Defined.

(** Three overdue runs at 90% utilization, one place left: one run is paused. *)
Definition busy : Backpressure :=
  mkBackpressure (mkBackpressureConfig true (f64_lit 8 10) (f64_lit 5 10) 2 (f64_lit 5 10) 60000)
    {["r0" := 1000]} false.

Definition busy_decision : BackpressureDecision :=
  mkBackpressureDecision true "pause_and_throttle" ["r1"] (Some "throttle") 5
    "utilization 90.0%, queue depth 10.0%, overdue 3".

Lemma backpressure_switch_witness :
  evaluate (f64_lit 9 10) 10 100 3 2000 (Some ["r1"; "r2"; "r3"]) busy
  = (busy_decision, busy <| bp_active := true |>)
  ∧ Z.of_nat (size (paused_runs (record_pause "r1" 2000 busy))) <= 2.
Proof.
  assert (E : evaluate (f64_lit 9 10) 10 100 3 2000 (Some ["r1"; "r2"; "r3"]) busy
    = (busy_decision, busy <| bp_active := true |>)) by (vm_compute; reflexivity).
  split; [exact E|].
  destruct (backpressure_switch _ _ _ _ _ _ _ _ _ E) as (_ & _ & _ & _ & _ & H).
  apply H. vm_compute. discriminate.
Defined.

End QueueDemo.
