(* ===== verification/Auth.v ===== *)
(** * API keys and tenants

    Model of infrastructure/auth: the in-memory table of tenants and API keys,
    how a key is created and how the header of a request is resolved to a tenant
    and its scopes.  SHA-256, the random identifiers and the clock are arguments;
    the iteration order of the key table is a parameter. *)

From S2P Require Import Prelude Text Float64.
From Stdlib Require Import Ascii.

Local Open Scope Z_scope.

Definition LOCAL_BOOTSTRAP_API_KEY_ID : string := "local-admin-env".
Definition LOCAL_BOOTSTRAP_TENANT_ID : string := "local".
Definition API_KEY_PREFIX : string := "harness_".
Definition API_KEY_SUFFIX_LEN : Z := 64.

(** ** Data *)

Record Tenant : Type := mkTenant {
  t_tenant_id : string;
  t_name : string;
  t_scopes : gset string;
  rate_limit : option Z;
}.

Record APIKey : Type := mkAPIKey {
  key_id : string;
  k_tenant_id : string;
  key_hash : string;
  key_salt : string;
  k_scopes : gset string;
  k_created_at : f64;
  expires_at : option f64;
  revoked_at : option f64;
  last_used_at : option f64;
}.
#[export] Instance eta_APIKey : Eta APIKey := λ k,
  mkAPIKey (key_id k) (k_tenant_id k) (key_hash k) (key_salt k) (k_scopes k) (k_created_at k)
    (expires_at k) (revoked_at k) (last_used_at k).

Record AuthDecision : Type := mkAuthDecision {
  auth_allowed : bool;
  auth_tenant_id : option string;
  auth_key_id : option string;
  auth_scopes : gset string;
  auth_reason : string;
}.

Record TenantResolver : Type := mkTenantResolver {
  api_keys : gmap string APIKey;
  tenants : gmap string Tenant;
}.
#[export] Instance eta_TenantResolver : Eta TenantResolver := λ r,
  mkTenantResolver (api_keys r) (tenants r).

(** ** Tokens *)

Definition is_ascii_hexdigit (c : ascii) : bool :=
  let n := byte_val c in
  ((48 <=? n) && (n <=? 57)) || ((65 <=? n) && (n <=? 70)) || ((97 <=? n) && (n <=? 102)).

Fixpoint str_all (p : ascii → bool) (s : string) : bool :=
  match s with
  | EmptyString => true
  | String c s => p c && str_all p s
  end.

Definition validate_token_shape (token : string) : bool :=
  match strip_prefix API_KEY_PREFIX token with
  | None => false
  | Some suffix =>
    if negb (str_len suffix =? API_KEY_SUFFIX_LEN) then false
    else str_all is_ascii_hexdigit suffix
  end.

(** [result |= x ^ y] over the paired bytes. *)
Fixpoint xor_bytes (result : Z) (a b : string) : Z :=
  match a, b with
  | String x a, String y b => xor_bytes (Z.lor result (Z.lxor (byte_val x) (byte_val y))) a b
  | _, _ => result
  end.

Definition constant_time_eq (a b : string) : bool :=
  if negb (str_len a =? str_len b) then false else xor_bytes 0 a b =? 0.

(** [splitn(2, ' ')] with two parts. *)
Fixpoint split_once_space (s : string) : option (string * string) :=
  match s with
  | EmptyString => None
  | String c s =>
    if bool_decide (c = " "%char) then Some (EmptyString, s)
    else '(a, b) ← split_once_space s; Some (String c a, b)
  end.

(** ** The resolver *)

Section auth.
(** Hex-encoded SHA-256, and [{:?}] of a set of scopes. *)
Context (sha256_hex : string → string) (debug_scopes : gset string → string).
Context `{HO : HashOrder}.

Definition hash_api_key (raw_key salt : string) : string := sha256_hex (salt +:+ raw_key).

Definition new_resolver : TenantResolver := mkTenantResolver ∅ ∅.

Definition add_tenant (tenant : Tenant) (self : TenantResolver) : TenantResolver :=
  self <| tenants := <[t_tenant_id tenant := tenant]> (tenants self) |>.

Definition add_api_key (key : APIKey) (self : TenantResolver) : TenantResolver :=
  self <| api_keys := <[key_id key := key]> (api_keys self) |>.

Definition remove_api_key (id : string) (self : TenantResolver) : bool * TenantResolver :=
  (is_some (api_keys self !! id), self <| api_keys := delete id (api_keys self) |>).

Definition mark_key_used (id : string) (now : f64) (self : TenantResolver) : TenantResolver :=
  match api_keys self !! id with
  | Some key => self <| api_keys := <[id := key <| last_used_at := Some now |>]> (api_keys self) |>
  | None => self
  end.

Definition tenant_rate_limit (tenant_id : string) (self : TenantResolver) : option Z :=
  tenants self !! tenant_id ≫= rate_limit.

(** [!tenant.scopes.is_empty() && !scopes.is_subset(&tenant.scopes)]. *)
Definition exceeds_tenant (scopes : gset string) (tenant : Tenant) : bool :=
  negb (bool_decide (t_scopes tenant = ∅)) && negb (bool_decide (scopes ⊆ t_scopes tenant)).

Definition validate_api_key_scopes (id : string) (scopes : gset string) (self : TenantResolver)
    : result string unit :=
  key <-? ok_or (api_keys self !! id) ("unknown api key: " +:+ id) ;;
  tenant <-? ok_or (tenants self !! k_tenant_id key) ("unknown tenant: " +:+ k_tenant_id key) ;;
  bail exceeds_tenant scopes tenant with Err "key scopes exceed tenant scopes" ;;
  Ok ().

(** [None] stands for the panic of [expect]. *)
Definition update_api_key_scopes (id : string) (scopes : gset string) (self : TenantResolver)
    : option (result string unit * TenantResolver) :=
  match validate_api_key_scopes id scopes self with
  | Err e => Some (Err e, self)
  | Ok _ =>
    key ← api_keys self !! id;
    Some (Ok (), self <| api_keys := <[id := key <| k_scopes := scopes |>]> (api_keys self) |>)
  end.

(** The five identifiers a key is made of, each [Uuid::new_v4().simple()]. *)
Record key_material : Type := mkKeyMaterial {
  raw_1 : string; raw_2 : string; salt_1 : string; salt_2 : string; id_1 : string;
}.

Definition prepare_api_key (uuids : key_material) (tenant_id : string)
    (scopes : option (gset string)) (expires_at : option f64) (now : f64) (self : TenantResolver)
    : result string (APIKey * string) :=
  tenant <-? ok_or (tenants self !! tenant_id) ("unknown tenant: " +:+ tenant_id) ;;
  let raw_key := API_KEY_PREFIX +:+ raw_1 uuids +:+ raw_2 uuids in
  let salt := salt_1 uuids +:+ salt_2 uuids in
  let key_hash := hash_api_key raw_key salt in
  let key_scopes := default (t_scopes tenant) scopes in
  bail exceeds_tenant key_scopes tenant with
    Err ("key scopes " +:+ debug_scopes key_scopes +:+ " exceed tenant scopes "
           +:+ debug_scopes (t_scopes tenant)) ;;
  Ok (mkAPIKey ("key_" +:+ id_1 uuids) tenant_id key_hash salt key_scopes now expires_at None None,
      raw_key).

Definition create_api_key (uuids : key_material) (tenant_id : string)
    (scopes : option (gset string)) (expires_at : option f64) (now : f64) (self : TenantResolver)
    : result string (APIKey * string) * TenantResolver :=
  match prepare_api_key uuids tenant_id scopes expires_at now self with
  | Err e => (Err e, self)
  | Ok (key, raw_key) =>
    (Ok (key, raw_key), self <| api_keys := <[key_id key := key]> (api_keys self) |>)
  end.

Definition refused (reason : string) : AuthDecision := mkAuthDecision false None None ∅ reason.

(** The first key whose hash matches, in the iteration order of the table. *)
Definition key_matches (raw_token : string) (key : APIKey) : bool :=
  constant_time_eq (hash_api_key raw_token (key_salt key)) (key_hash key).

Definition matched (raw_token : string) (self : TenantResolver) : option APIKey :=
  List.find (key_matches raw_token) (hash_iter (api_keys self)).*2.

(** No character outside ASCII becomes a letter of "bearer" in lower case, so
    comparing the lower-cased scheme ignores the case of ASCII letters only. *)
Definition bearer_token (header : string) : option string :=
  '(scheme, raw_token) ← split_once_space header;
  if eq_ignore_ascii_case scheme "bearer" then Some raw_token else None.

Definition expired (now : f64) (key : APIKey) : bool :=
  match expires_at key with Some expires => f64_gtb now expires | None => false end.

Definition revoked (now : f64) (key : APIKey) : bool :=
  match revoked_at key with Some revoked => f64_leb revoked now | None => false end.

Definition resolve_mut (auth_header : option string) (now : f64) (self : TenantResolver)
    : AuthDecision * TenantResolver :=
  match auth_header with
  | None => (refused "missing authorization header", self)
  | Some header =>
    match bearer_token header with
    | None => (refused "invalid authorization format", self)
    | Some raw_token =>
      if negb (validate_token_shape raw_token) then (refused "invalid api key", self)
      else
        match matched raw_token self with
        | None => (refused "invalid api key", self)
        | Some key =>
          if expired now key then (refused "api key expired", self)
          else if revoked now key then (refused "api key revoked", self)
          else if is_none (tenants self !! k_tenant_id key) then (refused "unknown tenant", self)
          else
            (mkAuthDecision true (Some (k_tenant_id key)) (Some (key_id key)) (k_scopes key) "",
             mark_key_used (key_id key) now self)
        end
    end
  end.
End auth.

(** ** Tokens and hashes *)

Lemma byte_val_inj a b : byte_val a = byte_val b → a = b.
Proof.
  unfold byte_val. intros H. apply Nat2Z.inj in H.
  by rewrite <-(ascii_nat_embedding a), H, ascii_nat_embedding.
Qed.

Lemma xor_bytes_zero a b result :
  String.length a = String.length b → (xor_bytes result a b = 0 ↔ result = 0 ∧ a = b).
Proof.
  revert b result. induction a as [|x a IH]; intros [|y b] result Hl; try done; [by intuition|].
  cbn in *. rewrite IH by lia. rewrite Z.lor_eq_0_iff, Z.lxor_eq_0_iff. split.
  - intros [[-> ->%byte_val_inj] ->]. done.
  - intros [-> [= -> ->]]. done.
Qed.

(** The comparison without early exit is equality. *)
Lemma constant_time_eq_spec a b : constant_time_eq a b = true ↔ a = b.
Proof.
  unfold constant_time_eq, str_len. destruct (Z.eqb_spec (Z.of_nat (String.length a))
    (Z.of_nat (String.length b))) as [Hl|Hl]; cbn [negb].
  - rewrite Z.eqb_eq, xor_bytes_zero by lia. by intuition.
  - split; [done|]. by intros ->.
Qed.

Lemma length_string_app a b : String.length (a +:+ b) = (String.length a + String.length b)%nat.
Proof. induction a as [|c a IH]; [done|]. exact (f_equal S IH). Qed.

Lemma str_all_app p a b : str_all p (a +:+ b) = str_all p a && str_all p b.
Proof.
  induction a as [|c a IH]; [done|].
  change (p c && str_all p (a +:+ b) = (p c && str_all p a) && str_all p b).
  by rewrite IH, andb_assoc.
Qed.

(** [Uuid::simple]: 32 hexadecimal digits. *)
Definition uuid_simple (s : string) : Prop :=
  String.length s = 32%nat ∧ str_all is_ascii_hexdigit s = true.

Lemma token_shape a b :
  uuid_simple a → uuid_simple b → validate_token_shape (API_KEY_PREFIX +:+ a +:+ b) = true.
Proof.
  intros [La Ha] [Lb Hb]. unfold validate_token_shape. rewrite strip_prefix_app.
  unfold str_len. rewrite length_string_app, La, Lb, str_all_app, Ha, Hb. done.
Qed.

(** ** Reachable resolvers *)

Section reachable.
Context (sha256_hex : string → string) (debug_scopes : gset string → string).
Context `{HO : HashOrder}.

Definition scopes_within (key : APIKey) (r : TenantResolver) : Prop :=
  ∃ t, tenants r !! k_tenant_id key = Some t ∧ (t_scopes t = ∅ ∨ k_scopes key ⊆ t_scopes t).

Lemma exceeds_tenant_spec scopes t :
  exceeds_tenant scopes t = false ↔ t_scopes t = ∅ ∨ scopes ⊆ t_scopes t.
Proof.
  unfold exceeds_tenant. rewrite andb_false_iff, !negb_false_iff, !bool_decide_eq_true. done.
Qed.

Definition tenant_keys (tenant_id : string) (r : TenantResolver) : gset string :=
  dom (filter (λ ik, k_tenant_id ik.2 = tenant_id) (api_keys r)).

(** One call of the resolver.  Beside it goes the set of the vetted keys, those
    whose scopes were last set by [create_api_key] or [update_api_key_scopes],
    which compare them with the scopes of the tenant, and whose tenant was not
    registered anew since.  [add_api_key] loads a key with whatever scopes it has,
    and [add_tenant] replaces a tenant that has keys. *)
Inductive auth_step : TenantResolver * gset string → TenantResolver * gset string → Prop :=
  | step_tenant r vetted t :
      auth_step (r, vetted) (add_tenant t r, vetted ∖ tenant_keys (t_tenant_id t) r)
  | step_key r vetted key : auth_step (r, vetted) (add_api_key key r, vetted ∖ {[key_id key]})
  | step_remove r vetted id : auth_step (r, vetted) ((remove_api_key id r).2, vetted)
  | step_mark r vetted id now : auth_step (r, vetted) (mark_key_used id now r, vetted)
  | step_update r vetted id scopes r' :
      update_api_key_scopes id scopes r = Some (Ok (), r') →
      auth_step (r, vetted) (r', {[id]} ∪ vetted)
  | step_update_err r vetted id scopes e r' :
      update_api_key_scopes id scopes r = Some (Err e, r') → auth_step (r, vetted) (r', vetted)
  | step_create r vetted uuids tenant scopes expires now key raw r' :
      create_api_key sha256_hex debug_scopes uuids tenant scopes expires now r
        = (Ok (key, raw), r') →
      auth_step (r, vetted) (r', {[key_id key]} ∪ vetted)
  | step_create_err r vetted uuids tenant scopes expires now e r' :
      create_api_key sha256_hex debug_scopes uuids tenant scopes expires now r = (Err e, r') →
      auth_step (r, vetted) (r', vetted)
  | step_resolve r vetted header now :
      auth_step (r, vetted) ((resolve_mut sha256_hex header now r).2, vetted).

Definition reachable_resolver (vetted : gset string) (r : TenantResolver) : Prop :=
  rtc auth_step (new_resolver, ∅) (r, vetted).

Definition resolver_ok (vetted : gset string) (r : TenantResolver) : Prop :=
  map_Forall (λ id key, key_id key = id ∧ (id ∈ vetted → scopes_within key r)) (api_keys r).

Lemma insert_key_ok vetted vetted' id key r :
  resolver_ok vetted r → key_id key = id → (id ∈ vetted' → scopes_within key r) →
  vetted' ⊆ {[id]} ∪ vetted →
  resolver_ok vetted' (r <| api_keys := <[id := key]> (api_keys r) |>).
Proof.
  intros Hr Hid Hk Hv i k Hi. cbn in Hi. apply lookup_insert_Some in Hi as [[<- <-]|[Hne Hi]].
  - split; [done|exact Hk].
  - destruct (Hr _ _ Hi) as [? Hw]. split; [done|]. intros Hin. apply Hw.
    apply Hv, elem_of_union in Hin as [E%elem_of_singleton|]; [by subst|done].
Qed.

Lemma mark_key_used_ok vetted id now r :
  resolver_ok vetted r → resolver_ok vetted (mark_key_used id now r).
Proof.
  intros Hr. unfold mark_key_used. destruct (api_keys r !! id) as [key|] eqn:E; [|done].
  destruct (Hr _ _ E) as [Hid Hk]. apply (insert_key_ok vetted); [done..|apply union_subseteq_r].
Qed.

Lemma prepare_api_key_ok uuids tenant scopes expires now r key raw :
  prepare_api_key sha256_hex debug_scopes uuids tenant scopes expires now r = Ok (key, raw) →
  scopes_within key r ∧ k_tenant_id key = tenant ∧ revoked_at key = None
  ∧ expires_at key = expires ∧ key_hash key = hash_api_key sha256_hex raw (key_salt key)
  ∧ raw = API_KEY_PREFIX +:+ raw_1 uuids +:+ raw_2 uuids.
Proof.
  unfold prepare_api_key. destruct (tenants r !! tenant) as [t|] eqn:Et; [|done]. cbn.
  destruct (exceeds_tenant _ t) eqn:Ex; [done|]. intros [= <- <-]. split_and!; try done.
  exists t. by rewrite exceeds_tenant_spec in Ex.
Qed.

(** The [expect] never fails. *)
Lemma update_api_key_scopes_total id scopes r :
  ∃ x r', update_api_key_scopes id scopes r = Some (x, r')
    ∧ match x with
      | Ok _ => ∀ vetted, resolver_ok vetted r → resolver_ok ({[id]} ∪ vetted) r'
      | Err _ => r' = r
      end.
Proof.
  unfold update_api_key_scopes, validate_api_key_scopes.
  destruct (api_keys r !! id) as [key|] eqn:Ek; cbn; [|by eexists _, r].
  destruct (tenants r !! k_tenant_id key) as [t|] eqn:Et; cbn; [|by eexists _, r].
  destruct (exceeds_tenant scopes t) eqn:Ex; [by eexists _, r|]. do 2 eexists. split; [done|].
  intros vetted Hr. destruct (Hr _ _ Ek) as [Hid _]. apply (insert_key_ok vetted); [done..| |done].
  intros _. exists t. by rewrite exceeds_tenant_spec in Ex.
Qed.

Lemma add_tenant_ok vetted t r :
  resolver_ok vetted r → resolver_ok (vetted ∖ tenant_keys (t_tenant_id t) r) (add_tenant t r).
Proof.
  intros Hr id key Hkey. destruct (Hr _ _ Hkey) as (Hid & Hw). split; [done|].
  intros [Hin Hnot]%elem_of_difference. destruct (Hw Hin) as (t' & Ht & Hsub). exists t'. split; [|done].
  cbn. rewrite lookup_insert_ne; [done|]. intros E. apply Hnot. unfold tenant_keys.
  apply elem_of_dom. exists key. by apply map_lookup_filter_Some.
Qed.

Lemma auth_step_ok s s' : auth_step s s' → resolver_ok s.2 s.1 → resolver_ok s'.2 s'.1.
Proof.
  destruct 1 as [r vetted t|r vetted key|r vetted id|r vetted id now|r vetted id scopes r' E
    |r vetted id scopes e r' E|r vetted uuids tenant scopes expires now key raw r' E
    |r vetted uuids tenant scopes expires now e r' E|r vetted header now]; intros Hr; cbn [fst snd] in *.
  - by apply add_tenant_ok.
  - apply (insert_key_ok vetted); [done..| |].
    + intros [_ []]%elem_of_difference. by apply elem_of_singleton.
    + intros i [? _]%elem_of_difference. apply elem_of_union. by right.
  - intros i key Hkey. cbn in Hkey. apply lookup_delete_Some in Hkey as [_ Hkey]. by apply Hr.
  - by apply mark_key_used_ok.
  - destruct (update_api_key_scopes_total id scopes r) as (x & r2 & E' & H).
    rewrite E in E'. injection E' as <- <-. by apply H.
  - destruct (update_api_key_scopes_total id scopes r) as (x & r2 & E' & H).
    rewrite E in E'. injection E' as <- <-. by rewrite H.
  - unfold create_api_key in E. destruct (prepare_api_key _ _ _ _ _ _ _ _) as [[k w]|] eqn:Ep; [|done].
    injection E as -> -> <-. apply (insert_key_ok vetted); [done..| |done].
    intros _. by apply prepare_api_key_ok in Ep as [? _].
  - unfold create_api_key in E. destruct (prepare_api_key _ _ _ _ _ _ _ _) as [[k w]|]; [done|].
    by injection E as _ <-.
  - unfold resolve_mut. repeat case_match; try done; by apply mark_key_used_ok.
Qed.

Lemma reachable_resolver_ok vetted r : reachable_resolver vetted r → resolver_ok vetted r.
Proof.
  assert (Hs : ∀ s s', rtc auth_step s s' → resolver_ok s.2 s.1 → resolver_ok s'.2 s'.1).
  { induction 1 as [|s1 s2 s3 H _ IH]; [done|]. intros H1. apply IH. by eapply auth_step_ok. }
  intros H. by apply (Hs _ _ H), map_Forall_empty.
Qed.

Lemma matched_Some token r key :
  matched sha256_hex token r = Some key →
  (∃ id, api_keys r !! id = Some key) ∧ hash_api_key sha256_hex token (key_salt key) = key_hash key.
Proof.
  unfold matched. intros [Hin Hm]%find_some. split; [|by apply constant_time_eq_spec].
  apply list_elem_of_In, list_elem_of_fmap in Hin as ([id k] & -> & Hin).
  exists id. by apply elem_of_hash_iter.
Qed.

(** A key that alone matches a token is the one that is found. *)
Lemma matched_unique token r id key :
  api_keys r !! id = Some key → key_matches sha256_hex token key = true →
  (∀ id' key', api_keys r !! id' = Some key' → key_matches sha256_hex token key' = true →
     key' = key) →
  matched sha256_hex token r = Some key.
Proof.
  intros Hk Hm Hu. unfold matched.
  destruct (List.find _ _) as [k|] eqn:E.
  - apply find_some in E as [Hin Hm']. f_equal.
    apply list_elem_of_In, list_elem_of_fmap in Hin as ([i k'] & -> & Hin%elem_of_hash_iter).
    by eapply Hu.
  - assert (Hin : key ∈ (hash_iter (api_keys r)).*2).
    { apply list_elem_of_fmap. exists (id, key). split; [done|]. by apply elem_of_hash_iter. }
    apply list_elem_of_In in Hin. apply (find_none _ _ E) in Hin. congruence.
Qed.

(** A key that lets the token in at [now]. *)
Record live_key (vetted : gset string) (r : TenantResolver) (token : string) (now : f64) (key : APIKey)
    (tenant : Tenant) : Prop := {
  lk_stored : api_keys r !! key_id key = Some key;
  lk_hash : sha256_hex (key_salt key +:+ token) = key_hash key;
  lk_expires : ∀ e, expires_at key = Some e → f64_gtb now e = false;
  lk_revoked : ∀ t, revoked_at key = Some t → f64_leb t now = false;
  lk_tenant : tenants r !! k_tenant_id key = Some tenant;
  lk_scopes : key_id key ∈ vetted → t_scopes tenant = ∅ ∨ k_scopes key ⊆ t_scopes tenant;
}.

Lemma resolve_inv vetted r header now d r' :
  resolver_ok vetted r → resolve_mut sha256_hex header now r = (d, r') →
  if auth_allowed d then
    ∃ h token key tenant,
      header = Some h ∧ bearer_token h = Some token ∧ validate_token_shape token = true
      ∧ live_key vetted r token now key tenant
      ∧ d = mkAuthDecision true (Some (k_tenant_id key)) (Some (key_id key)) (k_scopes key) ""
      ∧ r' = r <| api_keys :=
          <[key_id key := key <| last_used_at := Some now |>]> (api_keys r) |>
  else d = refused (auth_reason d) ∧ r' = r.
Proof.
  intros Hr. unfold resolve_mut.
  destruct header as [h|]; [|by intros [= <- <-]].
  destruct (bearer_token h) as [token|] eqn:Eb; [|by intros [= <- <-]].
  destruct (validate_token_shape token) eqn:Ev; cbn [negb]; [|by intros [= <- <-]].
  destruct (matched _ token r) as [key|] eqn:Em; [|by intros [= <- <-]].
  destruct (expired now key) eqn:Ee; [by intros [= <- <-]|].
  destruct (revoked now key) eqn:Ek; [by intros [= <- <-]|].
  destruct (tenants r !! k_tenant_id key) as [tenant|] eqn:Et; cbn [is_none];
    [|by intros [= <- <-]].
  apply matched_Some in Em as [[id Hid] Hh]. destruct (Hr _ _ Hid) as [<- Hsub].
  unfold mark_key_used. rewrite Hid. intros [= <- <-]. cbn [auth_allowed].
  exists h, token, key, tenant. split_and!; try done. split; try done.
  - intros e He. unfold expired in Ee. by rewrite He in Ee.
  - intros e He. unfold revoked in Ek. by rewrite He in Ek.
  - intros Hv. destruct (Hsub Hv) as (t & Ht & ?). rewrite Et in Ht. by injection Ht as <-.
Qed.
End reachable.

(** ** Theorems *)

(** C21: Only a live key opens the door, and it opens only its tenant's.  After any
    calls of the resolver, a request is allowed only with a bearer token of the
    right shape whose salted hash is that of a stored key that has neither expired
    nor been revoked and whose tenant is known; the decision carries the ids and
    the stored scopes of that key, and only its time of last use changes.  If the
    key is vetted, that is if its scopes were last set by [create_api_key] or
    [update_api_key_scopes] and its tenant was not registered anew since, they are
    among those of the tenant, unless the tenant's set is empty, which stands for
    no restriction.  Nothing is said of the scopes of a key that [add_api_key]
    loaded.  A refusal grants nothing and changes nothing. *)
Theorem resolve_sound sha256_hex debug_scopes `{HO : HashOrder} vetted r header now d r' :
  reachable_resolver sha256_hex debug_scopes vetted r →
  resolve_mut sha256_hex header now r = (d, r') →
  if auth_allowed d then
    ∃ h token key tenant,
      header = Some h ∧ bearer_token h = Some token ∧ validate_token_shape token = true
      ∧ api_keys r !! key_id key = Some key
      ∧ sha256_hex (key_salt key +:+ token) = key_hash key
      ∧ (∀ e, expires_at key = Some e → f64_gtb now e = false)
      ∧ (∀ t, revoked_at key = Some t → f64_leb t now = false)
      ∧ tenants r !! k_tenant_id key = Some tenant
      ∧ (key_id key ∈ vetted → t_scopes tenant = ∅ ∨ k_scopes key ⊆ t_scopes tenant)
      ∧ d = mkAuthDecision true (Some (k_tenant_id key)) (Some (key_id key)) (k_scopes key) ""
      ∧ r' = r <| api_keys :=
          <[key_id key := key <| last_used_at := Some now |>]> (api_keys r) |>
  else d = refused (auth_reason d) ∧ r' = r.
Proof.
  intros Hr%reachable_resolver_ok Hd. eapply resolve_inv in Hd; [|exact Hr].
  destruct (auth_allowed d); [|done].
  destruct Hd as (h & token & key & tenant & ? & ? & ? & [Hk Hh He Hv Ht Hs] & ? & ?).
  exists h, token, key, tenant. by split_and!.
Qed.

(** The life of a key.  The token handed out at the creation of a key is
    accepted with the scopes of the key as long as it has not expired, provided
    no stored key has the same salted hash; and once the key is removed the token
    is refused. *)
Theorem key_lifecycle sha256_hex debug_scopes `{HO : HashOrder}
    uuids tenant scopes expires t0 r key raw r1 now later :
  create_api_key sha256_hex debug_scopes uuids tenant scopes expires t0 r
    = (Ok (key, raw), r1) →
  uuid_simple (raw_1 uuids) → uuid_simple (raw_2 uuids) →
  (∀ id key', api_keys r !! id = Some key' → key_matches sha256_hex raw key' = false) →
  (∀ e, expires = Some e → f64_gtb now e = false) →
  (resolve_mut sha256_hex (Some ("Bearer " +:+ raw)) now r1).1
    = mkAuthDecision true (Some tenant) (Some (key_id key)) (k_scopes key) ""
  ∧ (resolve_mut sha256_hex (Some ("Bearer " +:+ raw)) later
       (remove_api_key (key_id key) r1).2).1 = refused "invalid api key".
Proof.
  unfold create_api_key. destruct (prepare_api_key _ _ _ _ _ _ _ _) as [[k w]|e] eqn:Ep; [|done].
  intros [= -> -> <-] H1 H2 Hfresh Hexp.
  apply prepare_api_key_ok in Ep as ((t & Ht & _) & Hten & Hrev & Hex & Hhash & Hraw).
  assert (Hb : bearer_token ("Bearer " +:+ raw) = Some raw) by done.
  assert (Hs : validate_token_shape raw = true) by (rewrite Hraw; by apply token_shape).
  assert (Hm : key_matches sha256_hex raw key = true).
  { unfold key_matches. rewrite <-Hhash. by apply constant_time_eq_spec. }
  unfold resolve_mut. rewrite Hb, Hs. cbn [negb]. split.
  - rewrite (matched_unique _ raw _ (key_id key) key); [|cbn; apply lookup_insert_eq|done|].
    + unfold expired, revoked. rewrite Hrev, Hex.
      change (tenants (_ <| api_keys := _ |>)) with (tenants r). rewrite Ht, Hten.
      destruct expires as [e|]; [by rewrite Hexp|done].
    + intros id key' Hk. cbn in Hk.
      apply lookup_insert_Some in Hk as [[_ <-]|[_ Hk]]; [done|].
      intros Hmk. by rewrite (Hfresh _ _ Hk) in Hmk.
  - destruct (matched _ raw _) as [key'|] eqn:Em; [|done]. exfalso.
    unfold matched in Em. apply find_some in Em as [Hin Hmk].
    apply list_elem_of_In, list_elem_of_fmap in Hin as ([id k] & -> & Hin%elem_of_hash_iter).
    cbn in Hin. rewrite delete_insert_eq in Hin. apply lookup_delete_Some in Hin as [_ Hin].
    apply Hfresh in Hin. cbn [snd] in Hmk. congruence.
Qed.

(** ** Example *)

Module AuthDemo.

(** Stands for SHA-256. *)
Definition toy_hash (s : string) : string := "h" +:+ s.

#[local] Existing Instance listed_order.

Definition zeros : string := "00000000000000000000000000000000".
Definition fresh : key_material := mkKeyMaterial zeros zeros "5a" "17" "1".

Definition acme : Tenant := mkTenant "acme" "Acme" {["tasks:read"; "tasks:write"]} (Some 10).

Definition start : TenantResolver := add_tenant acme new_resolver.

Definition created : result string (APIKey * string) * TenantResolver :=
  create_api_key toy_hash (λ _, "{}") fresh "acme" (Some {["tasks:read"]}) (Some (f64_of_Z 100))
    (f64_of_Z 1) start.

Definition the_key : APIKey :=
  mkAPIKey "key_1" "acme" ("h5a17harness_" +:+ zeros +:+ zeros) "5a17" {["tasks:read"]} (f64_of_Z 1)
    (Some (f64_of_Z 100)) None None.

Definition token : string := "harness_" +:+ zeros +:+ zeros.

Lemma key_lifecycle_witness :
  (resolve_mut toy_hash (Some ("Bearer " +:+ token)) (f64_of_Z 50) created.2).1
    = mkAuthDecision true (Some "acme") (Some "key_1") {["tasks:read"]} ""
  ∧ (resolve_mut toy_hash (Some ("Bearer " +:+ token)) (f64_of_Z 60)
       (remove_api_key "key_1" created.2).2).1 = refused "invalid api key".
Proof.
  apply (key_lifecycle toy_hash (λ _, "{}") fresh "acme" (Some {["tasks:read"]})
    (Some (f64_of_Z 100)) (f64_of_Z 1) start the_key token created.2).
  - vm_compute. reflexivity.
  - split; vm_compute; reflexivity.
  - split; vm_compute; reflexivity.
  - intros id key H. by vm_compute in H.
  - intros e [= <-]. vm_compute. reflexivity.
Defined.

Lemma resolve_sound_witness :
  (resolve_mut toy_hash (Some ("bearer " +:+ token)) (f64_of_Z 50) created.2).1
    = mkAuthDecision true (Some "acme") (Some "key_1") {["tasks:read"]} ""
  ∧ ∃ key tenant, api_keys created.2 !! key_id key = Some key
      ∧ tenants created.2 !! k_tenant_id key = Some tenant
      ∧ toy_hash (key_salt key +:+ token) = key_hash key.
Proof.
  split; [vm_compute; reflexivity|].
  destruct (resolve_mut toy_hash (Some ("bearer " +:+ token)) (f64_of_Z 50) created.2)
    as [d r'] eqn:E.
  assert (Ha : auth_allowed (d, r').1 = true) by (rewrite <-E; vm_compute; reflexivity).
  assert (Hr : reachable_resolver toy_hash (λ _, "{}") {["key_1"]} created.2).
  { unfold reachable_resolver. eapply rtc_l; [apply (step_tenant _ _ new_resolver ∅ acme)|].
    apply rtc_once. refine (step_create _ _ start _ fresh "acme" (Some {["tasks:read"]})
      (Some (f64_of_Z 100)) (f64_of_Z 1) the_key token created.2 _). vm_compute. reflexivity. }
  pose proof (resolve_sound toy_hash (λ _, "{}") _ _ _ _ _ _ Hr E) as H. cbn [fst] in Ha.
  rewrite Ha in H. destruct H as (h & tok & key & tenant & [= <-] & Htok & _ & Hk & Hh & _ & _ & Ht & _).
  exists key, tenant. vm_compute in Htok. injection Htok as <-.
  split_and!; [exact Hk|exact Ht|exact Hh].
Defined.

(** A loaded key keeps scopes that its tenant does not have. *)
Example loaded_key_exceeds_tenant :
  (resolve_mut toy_hash (Some ("Bearer " +:+ token)) (f64_of_Z 50)
     (add_api_key (the_key <| k_scopes := {["admin"]} |>) start)).1
    = mkAuthDecision true (Some "acme") (Some "key_1") {["admin"]} "".
Proof. vm_compute. reflexivity. Qed.

End AuthDemo.
