(* ===== verification/Gateway.v ===== *)
(** * The gate of the HTTP server

    Model of http_server/middleware: how a request is authorised, which composes
    the API keys of [Auth] with the limiter of [RateLimiter], and the calendar
    date the handlers stamp records with.  Each request is one step; the clock
    reading, the header and the request id are arguments. *)

From S2P Require Import Prelude Text Float64 Auth RateLimiter.
From Stdlib Require Import Ascii.

Local Open Scope Z_scope.

(** ** Data *)

(** A [Mutex]: locking fails after a holder panicked. *)
Record mutex (A : Type) : Type := mkMutex { poisoned : bool; guarded : A }.
Arguments mkMutex {A} _ _.
Arguments poisoned {A} _.
Arguments guarded {A} _.

Record ApiRequestContext : Type := mkContext {
  c_tenant_id : string;
  c_api_key_id : string;
  c_request_id : string;
  c_scopes : gset string;
}.

Record ApiError : Type := mkApiError {
  e_code : string;
  e_status : Z;
  e_error : string;
}.

(** The value of a header: [to_str] succeeds when its bytes are visible ASCII. *)
Inductive HeaderValue : Type := Visible (s : string) | Opaque.

Definition to_str (value : HeaderValue) : option string :=
  match value with Visible s => Some s | Opaque => None end.

(** The parts of [AxumApiState] the gate uses. *)
Record ApiState : Type := mkApiState {
  tenant_resolver : option (mutex TenantResolver);
  rate_limiter : mutex RateLimiter;
  default_rate_limit : option Z;
}.
#[export] Instance eta_ApiState : Eta ApiState := λ s,
  mkApiState (tenant_resolver s) (rate_limiter s) (default_rate_limit s).

Definition BAD_REQUEST : Z := 400.
Definition UNAUTHORIZED : Z := 401.
Definition FORBIDDEN : Z := 403.
Definition NOT_FOUND : Z := 404.
Definition TOO_MANY_REQUESTS : Z := 429.
Definition INTERNAL_SERVER_ERROR : Z := 500.
Definition SERVICE_UNAVAILABLE : Z := 503.

Definition default_error_code (status : Z) : string :=
  if status =? BAD_REQUEST then "bad_request"
  else if status =? UNAUTHORIZED then "auth_required"
  else if status =? FORBIDDEN then "missing_scope"
  else if status =? NOT_FOUND then "not_found"
  else if status =? TOO_MANY_REQUESTS then "rate_limited"
  else if status =? SERVICE_UNAVAILABLE then "service_unavailable"
  else if status =? INTERNAL_SERVER_ERROR then "internal_error"
  else "api_error".

Definition new_error (status : Z) (error : string) : ApiError :=
  mkApiError (default_error_code status) status error.

Definition with_code (status : Z) (code error : string) : ApiError :=
  mkApiError code status error.

Definition HEALTH_PATHS : list string := ["/api/v1/health"; "/api/v1/ready"].
Definition is_health_path (path : string) : bool := bool_decide (path ∈ HEALTH_PATHS).

Definition auth_context_from_decision (decision : AuthDecision) (required_scopes : list string)
    (request_id : string) : result ApiError ApiRequestContext :=
  bail negb (auth_allowed decision) with Err (with_code UNAUTHORIZED "auth_required" "unauthorized") ;;
  bail negb (existsb (λ required, bool_decide (required ∈ auth_scopes decision)) required_scopes)
    with Err (with_code FORBIDDEN "missing_scope" "forbidden") ;;
  Ok (mkContext (default "unknown" (auth_tenant_id decision))
        (default "unknown" (auth_key_id decision)) request_id (auth_scopes decision)).

Section gate.
Context (sha256_hex : string → string) `{HO : HashOrder} `{BO : BucketOrder}.

(** [authorization] is the value of the Authorization header. *)
Definition authorize_any (authorization : option HeaderValue) (required_scopes : list string)
    (path request_id : string) (now : f64) (state : ApiState)
    : result ApiError ApiRequestContext * ApiState :=
  match tenant_resolver state with
  | None =>
    (Ok (mkContext "local" "none" request_id (list_to_set (required_scopes ++ ["team:admin"]))),
     state)
  | Some resolver =>
    let auth_header := authorization ≫= to_str in
    if is_none auth_header && is_health_path path then
      (Ok (mkContext "local" "health-bypass" request_id (list_to_set required_scopes)), state)
    else if poisoned resolver then
      (Err (with_code INTERNAL_SERVER_ERROR "auth_unavailable" "auth unavailable"), state)
    else
      let '(decision, table) := resolve_mut sha256_hex auth_header now (guarded resolver) in
      let state := state <| tenant_resolver := Some (mkMutex false table) |> in
      match auth_context_from_decision decision required_scopes request_id with
      | Err e => (Err e, state)
      | Ok context =>
        let tenant_limit := tenant_rate_limit (c_tenant_id context) table in
        let limit := match tenant_limit with Some l => Some l | None => default_rate_limit state end in
        if poisoned (rate_limiter state) then
          (Err (with_code INTERNAL_SERVER_ERROR "rate_limiter_unavailable" "rate limiter unavailable"),
           state)
        else
          let '(rate, limiter) :=
            check (c_tenant_id context) (c_api_key_id context) limit now
              (guarded (rate_limiter state)) in
          let state := state <| rate_limiter := mkMutex false limiter |> in
          if negb (allowed rate) then
            (Err (new_error TOO_MANY_REQUESTS "rate limit exceeded"), state)
          else (Ok context, state)
      end
  end.

Definition authorize (authorization : option HeaderValue) (required_scope path request_id : string)
    (now : f64) (state : ApiState) : result ApiError ApiRequestContext * ApiState :=
  authorize_any authorization [required_scope] path request_id now state.
End gate.

(** ** Dates *)

Definition is_leap (y : Z) : bool :=
  ((Z.rem y 4 =? 0) && negb (Z.rem y 100 =? 0)) || (Z.rem y 400 =? 0).

(** The year loop; [None] when it is out of fuel. *)
Fixpoint year_loop (fuel : nat) (y days : Z) : option (Z * Z) :=
  match fuel with
  | O => None
  | S fuel =>
    let day_count := if is_leap y then 366 else 365 in
    if days <? day_count then Some (y, days) else year_loop fuel (y + 1) (days - day_count)
  end.

Definition month_days (leap : bool) : list Z :=
  [31; if leap then 29 else 28; 31; 30; 31; 30; 31; 31; 30; 31; 30; 31].

(** The month loop: month 0 when no month is left. *)
Fixpoint month_loop (i : Z) (days : list Z) (remaining : Z) : Z * Z :=
  match days with
  | [] => (0, remaining)
  | md :: days =>
    if remaining <? md then (i + 1, remaining) else month_loop (i + 1) days (remaining - md)
  end.

Definition civil_date (days : Z) : option (Z * Z * Z) :=
  '(y, remaining) ← year_loop (S (Z.to_nat (days / 365))) 1970 days;
  let '(m, remaining) := month_loop 0 (month_days (is_leap y)) remaining in
  Some (y, m, remaining + 1).

Definition chrono_free_date_from_unix_days (days : Z) : option string :=
  '(y, m, d) ← civil_date days;
  Some (pad_zeros 4 y +:+ "-" +:+ pad_zeros 2 m +:+ "-" +:+ pad_zeros 2 d).

(** ** The calendar *)

(** Leap years before [y], and days from 1970-01-01 to the first day of [y]. *)
Definition leaps_before (y : Z) : Z := (y - 1) / 4 - (y - 1) / 100 + (y - 1) / 400.

Definition days_before_year (y : Z) : Z :=
  365 * (y - 1970) + (leaps_before y - leaps_before 1970).

Definition days_in_month (y m : Z) : Z := nth (Z.to_nat (m - 1)) (month_days (is_leap y)) 0.

Definition days_before_month (y m : Z) : Z :=
  foldr Z.add 0 (take (Z.to_nat (m - 1)) (month_days (is_leap y))).

(** The reference: the day number of a date of the Gregorian calendar. *)
Definition unix_days (date : Z * Z * Z) : Z :=
  let '(y, m, d) := date in days_before_year y + days_before_month y m + (d - 1).

Definition valid_date (date : Z * Z * Z) : Prop :=
  let '(y, m, d) := date in 1 <= m <= 12 ∧ 1 <= d <= days_in_month y m.

Lemma is_leap_spec y :
  0 <= y →
  is_leap y = true ↔ (y mod 4 = 0 ∧ y mod 100 ≠ 0) ∨ y mod 400 = 0.
Proof.
  intros Hy. unfold is_leap. rewrite !Z.rem_mod_nonneg by lia.
  rewrite orb_true_iff, andb_true_iff, negb_true_iff, Z.eqb_neq, !Z.eqb_eq. done.
Qed.

Lemma leaps_step y :
  1 <= y → leaps_before (y + 1) = leaps_before y + (if is_leap y then 1 else 0).
Proof.
  intros Hy. unfold leaps_before. replace (y + 1 - 1) with y by lia.
  destruct (is_leap y) eqn:E.
  - apply is_leap_spec in E; [|lia]. Z.div_mod_to_equations. lia.
  - assert (¬ ((y mod 4 = 0 ∧ y mod 100 ≠ 0) ∨ y mod 400 = 0))
      by (rewrite <-is_leap_spec by lia; congruence).
    Z.div_mod_to_equations. lia.
Qed.

Lemma year_step y :
  1 <= y → days_before_year (y + 1) = days_before_year y + (if is_leap y then 366 else 365).
Proof. intros Hy. unfold days_before_year. rewrite leaps_step by lia. case_match; lia. Qed.

Lemma year_loop_spec fuel y days :
  1 <= y → 0 <= days → days < 365 * Z.of_nat fuel →
  ∃ y' rest, year_loop fuel y days = Some (y', rest)
    ∧ y <= y' ∧ 0 <= rest < (if is_leap y' then 366 else 365)
    ∧ days_before_year y + days = days_before_year y' + rest.
Proof.
  revert y days. induction fuel as [|fuel IH]; intros y days Hy Hd Hf; [lia|]. cbn [year_loop].
  destruct (Z.ltb_spec days (if is_leap y then 366 else 365)).
  { exists y, days. split_and!; [done|lia..]. }
  destruct (IH (y + 1) (days - (if is_leap y then 366 else 365))) as (y' & rest & E & ? & ? & Hs);
    [lia|case_match; lia|case_match; lia|].
  exists y', rest. rewrite E. rewrite year_step in Hs by done. split_and!; [done|lia..].
Qed.

Lemma month_loop_spec leap i days pre remaining :
  month_days leap = pre ++ days → i = Z.of_nat (length pre) →
  0 <= remaining < foldr Z.add 0 days →
  ∃ m rest, month_loop i days remaining = (m, rest)
    ∧ i + 1 <= m <= 12 ∧ 0 <= rest < nth (Z.to_nat (m - 1)) (month_days leap) 0
    ∧ foldr Z.add 0 (take (Z.to_nat (m - 1)) (month_days leap)) + rest
      = foldr Z.add 0 pre + remaining.
Proof.
  revert i pre remaining. induction days as [|md days IH]; intros i pre remaining Hp -> Hr;
    cbn [month_loop foldr] in *; [lia|].
  assert (Hlen : (length pre < 12)%nat).
  { apply (f_equal length) in Hp. rewrite length_app in Hp. cbn in Hp. lia. }
  assert (Hsum : ∀ l x, foldr Z.add 0 (l ++ [x]) = foldr Z.add 0 l + x).
  { induction l as [|z l IHl]; intros x; cbn; [lia|]. rewrite IHl. lia. }
  destruct (Z.ltb_spec remaining md) as [Hlt|Hge].
  - exists (Z.of_nat (length pre) + 1), remaining.
    replace (Z.to_nat (Z.of_nat (length pre) + 1 - 1)) with (length pre) by lia.
    rewrite Hp, take_app_length, nth_middle. split_and!; [done|lia..].
  - destruct (IH (Z.of_nat (length pre) + 1) (pre ++ [md]) (remaining - md)) as (m & rest & E & H).
    + by rewrite <-(assoc_L (++)).
    + rewrite length_app. cbn. lia.
    + lia.
    + exists m, rest. rewrite Hsum in H. split; [done|]. lia.
Qed.

Lemma civil_date_spec days :
  0 <= days →
  ∃ date, civil_date days = Some date ∧ valid_date date ∧ unix_days date = days.
Proof.
  intros Hd. unfold civil_date.
  destruct (year_loop_spec (S (Z.to_nat (days / 365))) 1970 days) as (y & rest & -> & Hy & Hr & Hs);
    [lia|done|Z.div_mod_to_equations; lia|].
  cbn [mbind option_bind].
  destruct (month_loop_spec (is_leap y) 0 (month_days (is_leap y)) [] rest)
    as (m & rest' & -> & Hm & Hrest & Hsum); [done|done|by destruct (is_leap y)|].
  exists (y, m, rest' + 1). split; [done|]. unfold valid_date, unix_days, days_in_month,
    days_before_month. cbn in Hsum. split; [lia|].
  replace (days_before_year 1970) with 0 in Hs by done. lia.
Qed.

Example date_of_leap_day : chrono_free_date_from_unix_days (365 + 365 + 31 + 28) = Some "1972-02-29".
Proof. by vm_compute. Qed.

(** ** One request *)

Section requests.
Context (sha256_hex : string → string) `{HO : HashOrder} `{BO : BucketOrder}.

(** The limit a tenant's requests are checked against. *)
Definition limit_of (state : ApiState) (tenant : Tenant) : option Z :=
  match rate_limit tenant with Some l => Some l | None => default_rate_limit state end.

Definition health_context (required_scopes : list string) (request_id : string)
    : ApiRequestContext :=
  mkContext "local" "health-bypass" request_id (list_to_set required_scopes).

(** The table after [key] was used. *)
Definition use_key (key : APIKey) (now : f64) (r : TenantResolver) : TenantResolver :=
  r <| api_keys := <[key_id key := key <| last_used_at := Some now |>]> (api_keys r) |>.

(** What becomes of a request when authentication is on. *)
Inductive gate_case (auth_header : option string) (required_scopes : list string)
    (path request_id : string) (now : f64) (state : ApiState) (vetted : gset string)
    (table : TenantResolver) : result ApiError ApiRequestContext → ApiState → Prop :=
  | gate_health :
      auth_header = None → is_health_path path = true →
      gate_case auth_header required_scopes path request_id now state vetted table
        (Ok (health_context required_scopes request_id)) state
  | gate_unavailable e state' :
      e_status e = INTERNAL_SERVER_ERROR →
      (state' = state ∨ ∃ header token key tenant,
         auth_header = Some header ∧ bearer_token header = Some token
         ∧ live_key sha256_hex vetted table token now key tenant
         ∧ state' = state <| tenant_resolver := Some (mkMutex false (use_key key now table)) |>) →
      gate_case auth_header required_scopes path request_id now state vetted table (Err e) state'
  | gate_unauthorized :
      gate_case auth_header required_scopes path request_id now state vetted table
        (Err (with_code UNAUTHORIZED "auth_required" "unauthorized"))
        (state <| tenant_resolver := Some (mkMutex false table) |>)
  | gate_forbidden header token key tenant :
      auth_header = Some header → bearer_token header = Some token →
      live_key sha256_hex vetted table token now key tenant →
      (∀ s, s ∈ required_scopes → s ∉ k_scopes key) →
      gate_case auth_header required_scopes path request_id now state vetted table
        (Err (with_code FORBIDDEN "missing_scope" "forbidden"))
        (state <| tenant_resolver := Some (mkMutex false (use_key key now table)) |>)
  | gate_checked header token key tenant s rate limiter :
      auth_header = Some header → bearer_token header = Some token →
      live_key sha256_hex vetted table token now key tenant →
      s ∈ required_scopes → s ∈ k_scopes key →
      check (k_tenant_id key) (key_id key) (limit_of state tenant) now
        (guarded (rate_limiter state)) = (rate, limiter) →
      gate_case auth_header required_scopes path request_id now state vetted table
        (if allowed rate
         then Ok (mkContext (k_tenant_id key) (key_id key) request_id (k_scopes key))
         else Err (new_error TOO_MANY_REQUESTS "rate limit exceeded"))
        (state <| tenant_resolver := Some (mkMutex false (use_key key now table)) |>
               <| rate_limiter := mkMutex false limiter |>).

Lemma authorize_cases authorization required_scopes path request_id now state vetted m :
  tenant_resolver state = Some m → resolver_ok vetted (guarded m) →
  let '(res, state') :=
    authorize_any sha256_hex authorization required_scopes path request_id now state in
  gate_case (authorization ≫= to_str) required_scopes path request_id now state vetted (guarded m)
    res state'.
Proof.
  intros Hm Hok. unfold authorize_any. rewrite Hm. cbv zeta.
  generalize (authorization ≫= to_str). intros auth_header.
  destruct (is_none auth_header && is_health_path path) eqn:Eh.
  { apply andb_true_iff in Eh as [E1 E2]. destruct auth_header; [done|]. by apply gate_health. }
  destruct (poisoned m); [by apply gate_unavailable; auto|].
  destruct (resolve_mut _ _ _ _) as [d table] eqn:Er. eapply resolve_inv in Er; [|exact Hok].
  unfold auth_context_from_decision.
  destruct (auth_allowed d) eqn:Ea; cbn [negb]; [|destruct Er as [_ ->]; apply gate_unauthorized].
  destruct Er as (h & token & key & tenant & Hh & Htok & _ & Hlive & -> & ->).
  cbn [auth_scopes auth_tenant_id auth_key_id default]. unfold id.
  destruct (existsb _ required_scopes) eqn:Es; cbn [negb].
  2: { eapply gate_forbidden; [done..|]. intros s Hs Hin.
       rewrite existsb_false in Es. specialize (Es s Hs).
       by apply bool_decide_eq_false in Es. }
  apply existsb_exists in Es as (s & Hs & Hin). apply list_elem_of_In in Hs.
  apply bool_decide_eq_true in Hin. cbn [c_tenant_id c_api_key_id].
  destruct (poisoned (rate_limiter _)) eqn:Ep.
  { apply gate_unavailable; [done|]. right. by exists h, token, key, tenant. }
  change (tenant_rate_limit (k_tenant_id key) _)
    with (tenants (guarded m) !! k_tenant_id key ≫= rate_limit).
  rewrite (lk_tenant _ _ _ _ _ _ _ Hlive). cbn [mbind option_bind].
  destruct (check _ _ _ _ _) as [rate limiter] eqn:Ec.
  pose proof (gate_checked auth_header required_scopes path request_id now state vetted (guarded m)
    h token key tenant s rate limiter Hh Htok Hlive Hs Hin Ec) as H.
  by destruct (allowed rate).
Qed.

(** ** Many requests *)

Record request : Type := mkRequest {
  rq_header : option HeaderValue;
  rq_scopes : list string;
  rq_path : string;
  rq_id : string;
  rq_now : f64;
}.

(** The state after a request, and the times at which [k] was let in. *)
Definition handle (k : bucket_key) (s : list f64 * ApiState) (rq : request)
    : list f64 * ApiState :=
  let '(res, state) :=
    authorize_any sha256_hex (rq_header rq) (rq_scopes rq) (rq_path rq) (rq_id rq) (rq_now rq) s.2 in
  (match res with
   | Ok c => if bool_decide ((c_tenant_id c, c_api_key_id c) = k) then s.1 ++ [rq_now rq] else s.1
   | Err _ => s.1
   end, state).

Definition handle_all (k : bucket_key) (state : ApiState) (rqs : list request)
    : list f64 * ApiState :=
  foldl (handle k) ([], state) rqs.

(** The resolver knows the keys [K], and [limit] is the limit of [k]. *)
Definition table_ok (K : gset bucket_key) (k : bucket_key) (limit : Z) (state : ApiState)
    (r : TenantResolver) : Prop :=
  resolver_ok ∅ r
  ∧ map_Forall (λ _ key, (k_tenant_id key, key_id key) ∈ K) (api_keys r)
  ∧ ∀ t, tenants r !! k.1 = Some t → limit_of state t = Some limit.

(** The limiter has seen events at some of the times [ts], and [k] was let in
    exactly when the limiter served it. *)
Definition gate_inv (K : gset bucket_key) (k : bucket_key) (limit : Z) (w : f64) (mb : nat)
    (ts : list f64) (s : list f64 * ApiState) : Prop :=
  ∃ m es, tenant_resolver s.2 = Some m ∧ table_ok K k limit s.2 (guarded m)
    ∧ (s.1, guarded (rate_limiter s.2)) = history k (new_limiter w mb) es
    ∧ Forall (event_ok K k limit) es ∧ event_time <$> es `sublist_of` ts.

Lemma use_key_ok K k limit state r token now key tenant :
  table_ok K k limit state r → live_key sha256_hex ∅ r token now key tenant →
  table_ok K k limit state (use_key key now r).
Proof.
  intros (Hok & HK & Hl) [Hk _ _ _ Ht Hs]. split_and!; [| |done].
  - by apply (insert_key_ok ∅); [..|apply union_subseteq_r].
  - apply map_Forall_insert_2; [exact (HK _ _ Hk)|done].
Qed.

Lemma handle_inv K k limit w mb ts s rq :
  k ≠ ("local", "health-bypass") →
  gate_inv K k limit w mb ts s → gate_inv K k limit w mb (ts ++ [rq_now rq]) (handle k s rq).
Proof.
  intros Hk (m & es & Hm & Htab & Hhist & Hev & Hsub). unfold handle.
  pose proof (authorize_cases (rq_header rq) (rq_scopes rq) (rq_path rq) (rq_id rq) (rq_now rq)
    s.2 ∅ m Hm (proj1 Htab)) as Hcase.
  destruct (authorize_any _ _ _ _ _ _ _) as [res state'].
  assert (Hsub' : event_time <$> es `sublist_of` ts ++ [rq_now rq]).
  { rewrite <-(app_nil_r (event_time <$> es)). apply sublist_app; [done|]. apply sublist_nil_l. }
  destruct Hcase as [_ _|e state' _ [->|(h & token & key & tenant & _ & _ & Hlive & ->)]|
    |h token key tenant _ _ Hlive _|h token key tenant s' rate limiter _ _ Hlive _ _ Hcheck].
  - rewrite bool_decide_false by auto. by exists m, es.
  - by exists m, es.
  - eexists _, es. split; [done|]. split; [by eapply use_key_ok|done].
  - eexists _, es. by split.
  - eexists _, es. split; [done|]. split; [by eapply use_key_ok|done].
  - eexists _, (es ++ [Request (k_tenant_id key, key_id key) (limit_of s.2 tenant) (rq_now rq)]).
    split; [done|]. split; [by eapply use_key_ok|]. split_and!.
    + unfold history in *. rewrite foldl_app, <-Hhist. cbn [foldl serve fst snd].
      rewrite Hcheck. destruct (allowed rate); cbn; rewrite ?andb_true_r, ?andb_false_r; done.
    + apply Forall_app. split; [done|]. rewrite Forall_singleton. destruct Htab as (_ & HK & Hl).
      split; [by apply (HK (key_id key)), lk_stored with (1 := Hlive)|].
      intros <-. apply Hl. by apply (lk_tenant _ _ _ _ _ _ _ Hlive).
    + rewrite fmap_app. by apply sublist_app.
Qed.

Lemma handle_all_inv K k limit w mb rqs state :
  k ≠ ("local", "health-bypass") → gate_inv K k limit w mb [] ([], state) →
  gate_inv K k limit w mb (rq_now <$> rqs) (handle_all k state rqs).
Proof.
  intros Hk H0. induction rqs as [|rq rqs IH] using rev_ind; [done|].
  unfold handle_all in *. rewrite foldl_app, fmap_app. by apply handle_inv.
Qed.




End requests.

(** ** Theorems *)


(** The gate enforces the rate of every key.  Handle any sequence of requests,
    of any keys and with any headers, one after the other from an unused limiter
    with room for the keys of the table, on a clock that does not go back.  Then a
    key whose tenant has the limit [limit] was let in at most [limit] times within
    the window that ends at the last request. *)
Theorem gate_rate sha256_hex `{HO : HashOrder} `{BO : BucketOrder}
    K k limit w mb dflt table rqs rq :
  let state := mkApiState (Some (mkMutex false table)) (mkMutex false (new_limiter w mb)) dflt in
  k ≠ ("local", "health-bypass") → 0 < limit → (size K ≤ mb)%nat →
  table_ok K k limit state table →
  StronglySorted (time_le w) (rq_now <$> rqs ++ [rq]) →
  Forall (λ t, time_le w t t) (rq_now <$> rqs ++ [rq]) →
  Z.of_nat (length (filter (λ t, f64_ltb (f64_sub (rq_now rq) w) t = true)
    (handle_all sha256_hex k state (rqs ++ [rq])).1)) <= limit.
Proof.
  intros state Hk Hpos HK Htab Hs Hn.
  destruct (handle_all_inv sha256_hex K k limit w mb (rqs ++ [rq]) state Hk)
    as (m & es & _ & _ & Hh & Hev & Hsub).
  { by exists (mkMutex false table), []. }
  pose proof (clock_sublist w es _ Hsub Hs Hn) as Hc.
  destruct (history_tracks K k limit w mb es Hpos HK Hev Hc) as (_ & _ & Ht).
  apply (f_equal fst) in Hh. cbn [fst] in Hh. rewrite Hh.
  eapply (tracks_count k), (Ht (Cleanup (rq_now rq))). apply Forall_forall. intros e He.
  assert (Hin : event_time e ∈ rq_now <$> rqs ++ [rq]).
  { eapply elem_of_sublist; [|exact Hsub]. apply list_elem_of_fmap. by exists e. }
  rewrite fmap_app in Hs, Hn, Hin. apply elem_of_app in Hin as [Hin|Hin].
  - apply strongly_sorted_last in Hs. rewrite Forall_forall in Hs. by apply Hs.
  - rewrite Forall_forall in Hn. cbn in Hin. apply list_elem_of_singleton in Hin.
    unfold not_after. rewrite Hin. apply Hn. cbn. set_solver.
Qed.

(** Dates are those of the calendar.  For every number of days since
    1970-01-01 the loops end with a valid date of the Gregorian calendar that lies
    that many days after it, printed as year, month and day; the fuel is enough for every
    number of days. *)
Theorem date_roundtrip days :
  0 <= days →
  ∃ y m d, civil_date days = Some (y, m, d) ∧ valid_date (y, m, d) ∧ unix_days (y, m, d) = days
    ∧ chrono_free_date_from_unix_days days
      = Some (pad_zeros 4 y +:+ "-" +:+ pad_zeros 2 m +:+ "-" +:+ pad_zeros 2 d).
Proof.
  intros Hd. destruct (civil_date_spec days Hd) as ([[y m] d] & E & Hv & Hu).
  exists y, m, d. unfold chrono_free_date_from_unix_days. by rewrite E.
Qed.

Lemma date_roundtrip_witness :
  ∃ y m d, civil_date 789 = Some (y, m, d) ∧ (y, m, d) = (1972, 2, 29).
Proof.
  destruct (date_roundtrip 789) as (y & m & d & E & _); [lia|].
  exists y, m, d. split; [exact E|]. vm_compute in E. by injection E as <- <- <-.
Defined.

(** ** Example *)

Module GateDemo.
Import AuthDemo LimiterDemo.
#[local] Existing Instance listed_order.
#[local] Instance time_le_dec w a b : Decision (time_le w a b).
Proof. unfold time_le. apply _. Defined.

Definition gate : ApiState :=
  mkApiState (Some (mkMutex false created.2)) (mkMutex false (new_limiter (secs 60) 10)) (Some 5).

Definition visit (now : Z) : request :=
  mkRequest (Some (Visible ("Bearer " +:+ token))) ["tasks:read"] "/api/v1/tasks" "r" (secs now).

Definition visitor : bucket_key := ("acme", "key_1").

Lemma created_reachable : reachable_resolver toy_hash (λ _, "{}") {["key_1"]} created.2.
Proof.
  unfold reachable_resolver. eapply rtc_l; [apply (step_tenant _ _ new_resolver ∅ acme)|].
  apply rtc_once. refine (step_create _ _ start _ fresh "acme" (Some {["tasks:read"]})
    (Some (f64_of_Z 100)) (f64_of_Z 1) the_key token created.2 _). vm_compute. reflexivity.
Qed.

Lemma created_ok : resolver_ok ∅ created.2.
Proof.
  intros id key Hk. destruct (reachable_resolver_ok _ _ _ _ created_reachable _ _ Hk) as [? _].
  split; [done|]. by intros ?%not_elem_of_empty.
Qed.


Lemma gate_rate_witness :
  Z.of_nat (length (filter (λ t, f64_ltb (f64_sub (secs 65) (secs 60)) t = true)
    (handle_all toy_hash visitor gate ([visit 0; visit 20; visit 40] ++ [visit 65])).1)) <= 10.
Proof.
  apply (gate_rate toy_hash {[visitor]} visitor 10 (secs 60) 10 (Some 5) created.2
    [visit 0; visit 20; visit 40] (visit 65)).
  - discriminate.
  - lia.
  - vm_compute. lia.
  - split; [exact created_ok|]. split.
    + apply (bool_decide_unpack _). vm_compute. exact I.
    + intros t Ht. assert (E : tenants created.2 !! "acme" = Some acme) by (vm_compute; reflexivity).
      change (visitor.1) with "acme" in Ht. rewrite E in Ht. injection Ht as <-. reflexivity.
  - repeat (constructor; [|apply (bool_decide_unpack _); vm_compute; exact I]). constructor.
  - apply (bool_decide_unpack _). vm_compute. exact I.
Defined.

(** Four visits within a window of a minute, the oldest of which has left it. *)
Example demo_visits :
  (handle_all toy_hash visitor gate [visit 0; visit 20; visit 40; visit 65]).1
  = [secs 0; secs 20; secs 40; secs 65].
Proof. vm_compute. reflexivity. Qed.

End GateDemo.
