(* ===== verification/NodeExecution.v ===== *)
(** * Results of node executions

    Model of the parts of node_executor.rs and of storage/local_product_store/
    workflow_runs.rs that classify the result of an executor: the process
    outcome, whether a failure may be retried, what a managed product execution
    has used of its token budget, the usage a recursive node is charged with, and
    which recursive node a workflow node stands for. *)

From S2P Require Import Prelude Text Json Float64 RecursiveExecution.
From Stdlib Require Import Ascii.
Import FailureReason (RecursiveFailureReason).

Local Open Scope Z_scope.

(** Further accessors of [serde_json::Value], and numbers that are not integers. *)
Class JsonNumbers (V : Type) : Type := {
  as_u64 : V → option Z;
  as_f64 : V → option f64;
  json_f64 : f64 → V;
  json_is_null : V → bool;
}.

(** ** Process outcomes *)

Record ProcessOutcome : Type := mkProcessOutcome {
  po_schema_version : string;
  po_state : string;
  exit_code : option Z;
  po_signal : option Z;
  unavailable_reason : option string;
}.

Inductive ProcessEffectState : Type := EffectNotStarted | EffectStarted | EffectUnknown.
Inductive ProcessOutcomeState : Type := KnownSuccess | KnownFailure | OutcomeUnknown.

Record ProcessBoundaryMapping : Type := mkBoundary {
  pb_effect : ProcessEffectState;
  pb_outcome : ProcessOutcomeState;
}.

Definition boundary_unknown : ProcessBoundaryMapping := mkBoundary EffectUnknown OutcomeUnknown.

Definition is_known_success (self : ProcessBoundaryMapping) : bool :=
  match pb_effect self, pb_outcome self with
  | EffectStarted, KnownSuccess => true
  | _, _ => false
  end.

Definition outcome_failure (state : string) (signal : option Z) (reason : string)
    : ProcessOutcome :=
  mkProcessOutcome "process_outcome.v1" state None signal (Some reason).

Definition outcome_unavailable (reason : string) : ProcessOutcome :=
  outcome_failure "unavailable" None reason.

Definition exited (code : Z) : ProcessOutcome :=
  mkProcessOutcome "process_outcome.v1" "exited" (Some code) None None.

Definition signaled (signal : option Z) : ProcessOutcome :=
  mkProcessOutcome "process_outcome.v1" "signaled" None signal
    (if is_none signal then Some "termination signal unavailable on this platform" else None).

Definition admission_refused_before_spawn : ProcessOutcome :=
  outcome_failure "admission_refused_before_spawn" None
    "launcher admission rejected before gateway or child creation".

Definition store_lease_consumed_before_child : ProcessOutcome :=
  outcome_failure "store_lease_consumed_before_child" None
    "store attempt lease consumed before gateway forwarding or child spawn".

Definition provider_no_external_effect : ProcessOutcome :=
  outcome_failure "provider_no_external_effect" None
    "managed provider request was rejected before an external effect".

Definition is_owner_proven_pre_spawn_refusal (self : ProcessOutcome) : bool :=
  bool_decide (unavailable_reason self ∈
    [Some "command rejected before process spawn";
     Some "empty command rejected before process spawn";
     Some "workspace rejected before process spawn"]).

Definition successful_exit (self : ProcessOutcome) : bool :=
  bool_decide (po_state self = "exited") && bool_decide (exit_code self = Some 0).

(** [schema_version == "process_outcome.v1" && exit_code.is_none() &&
    signal.is_none()]. *)
Definition no_process (self : ProcessOutcome) : bool :=
  bool_decide (po_schema_version self = "process_outcome.v1")
  && is_none (exit_code self) && is_none (po_signal self).

Definition process_effect (self : ProcessOutcome) : option ProcessEffectState :=
  let state := po_state self in
  if bool_decide (state ∈ ["admission_refused_before_spawn"; "store_lease_consumed_before_child"])
     && no_process self then Some EffectNotStarted
  else if bool_decide (state ∈ ["spawn_failed"; "process_tree_containment_unavailable";
            "process_tree_containment_unsupported"; "invalid_output_limits";
            "provider_no_external_effect"]) && no_process self then Some EffectNotStarted
  else if bool_decide (state ∈ ["exited"; "signaled"; "output_read_failed"; "timed_out"; "timeout";
            "wait_failed"; "stdout_reader_failed"; "stderr_reader_failed"; "combined_reader_failed";
            "process_tree_cleanup_failed"; "output_limit_exceeded"]) then Some EffectStarted
  else if bool_decide (state = "unavailable") then
    Some (if is_owner_proven_pre_spawn_refusal self then EffectNotStarted else EffectUnknown)
  else None.

Definition boundary_mapping (self : ProcessOutcome) : ProcessBoundaryMapping :=
  match process_effect self with
  | None => boundary_unknown
  | Some EffectUnknown => mkBoundary EffectUnknown OutcomeUnknown
  | Some effect =>
    mkBoundary effect (if successful_exit self then KnownSuccess else KnownFailure)
  end.

(** ** Node results *)

Record NodeExecutionOutput : Type := mkOutput {
  o_status : string;
  o_executor_type : string;
  o_output : option string;
  o_error_domain : option string;
  o_error_message : option string;
  o_input_tokens : option Z;
  o_output_tokens : option Z;
  o_estimated_cost : option f64;
  o_latency_ms : option Z;
  o_process_outcome : option ProcessOutcome;
  o_resolved_model : option string;
}.
#[export] Instance eta_NodeExecutionOutput : Eta NodeExecutionOutput := λ o,
  mkOutput (o_status o) (o_executor_type o) (o_output o) (o_error_domain o) (o_error_message o)
    (o_input_tokens o) (o_output_tokens o) (o_estimated_cost o) (o_latency_ms o)
    (o_process_outcome o) (o_resolved_model o).

Definition LANGGRAPH_TASK_TYPE : string := "langgraph_external".
Definition LANGGRAPH_EXECUTOR_TYPE : string := "langgraph_external".
Definition OPENCODE_TASK_TYPE : string := "opencode_external".
Definition OPENCODE_EXECUTOR_TYPE : string := "opencode_external".

Inductive RecursiveUsageMode : Type := ModeUnavailable | ModeFixture | ModeMeasured.

Definition codex_nonretryable_pre_child (self : NodeExecutionOutput) : bool :=
  bool_decide (o_executor_type self = "codex_cli")
  && match o_process_outcome self with
     | Some outcome =>
       bool_decide (po_schema_version outcome = "process_outcome.v1")
       && bool_decide (po_state outcome ∈
            ["admission_refused_before_spawn"; "store_lease_consumed_before_child"])
       && is_none (exit_code outcome) && is_none (po_signal outcome)
     | None => false
     end.

(** The error domains after which a node is not run again. *)
Definition final_error_domains : list string :=
  ["tool_effect_outcome_unknown"; "tool_effect_rejected_after_execution";
   "tool_execution_outcome_unknown"; "tool_execution_receipt_invalid";
   "tool_execution_receipt_error"; "provider_outcome_unknown"; "provider_terminal_failure";
   "product_token_budget_exhausted"; "product_call_budget_exhausted";
   "product_token_usage_unavailable"; "cli_timeout"; "cli_wait_error";
   "cli_stdout_reader_error"; "cli_stderr_reader_error"; "cli_combined_reader_error";
   "cli_output_limit_exceeded"; "cli_process_tree_cleanup_error";
   "cli_process_tree_containment_unavailable"; "cli_attempt_terminalization_failed"].

Definition retryable_node_failure (output : NodeExecutionOutput) : bool :=
  if negb (bool_decide (o_status output = "failed")) then false
  else if codex_nonretryable_pre_child output then false
  else match o_error_domain output with
       | Some domain => negb (bool_decide (domain ∈ final_error_domains))
       | None => true
       end.

(** The failure of an executor that may not run this type of task. *)
Definition reserved_executor_mismatch (task_type executor_type : string) : bool :=
  if bool_decide (task_type = "agent_step") then negb (bool_decide (executor_type = "agent_step"))
  else if bool_decide (task_type = LANGGRAPH_TASK_TYPE)
  then negb (bool_decide (executor_type = LANGGRAPH_EXECUTOR_TYPE))
  else if bool_decide (task_type = OPENCODE_TASK_TYPE)
  then negb (bool_decide (executor_type = OPENCODE_EXECUTOR_TYPE))
  else bool_decide (executor_type ∈
         ["agent_step"; LANGGRAPH_EXECUTOR_TYPE; OPENCODE_EXECUTOR_TYPE]).

Definition mismatch_output (task_type executor_type : string) : NodeExecutionOutput :=
  mkOutput "failed" executor_type None (Some "reserved_executor_mismatch")
    (Some ("task_type " +:+ task_type +:+ " is incompatible with executor_type " +:+ executor_type))
    None None None (Some 0) None None.

Section results.
Context {V : Type} `{JV : JsonValue V} `{JT : JsonText V} `{JN : JsonNumbers V}.

(** serde's decoding of a usage contract. *)
Context (contract_from_value : V → option UsageContract.RecursiveUsageContract).

(** [json!] of an option. *)
Definition json_opt {A} (f : A → V) (o : option A) : V := from_option f json_null o.

Definition outcome_to_value (self : ProcessOutcome) : V :=
  json_object (list_to_map [
    ("schema_version", json_string (po_schema_version self));
    ("state", json_string (po_state self));
    ("exit_code", json_opt json_int (exit_code self));
    ("signal", json_opt json_int (po_signal self));
    ("unavailable_reason", json_opt json_string (unavailable_reason self))]).

(** The gates and the kill path of the trace of an external executor. *)
Definition trace_fields (self : NodeExecutionOutput) : string * string * string * string :=
  if bool_decide (o_executor_type self = "adaptive_provider") then
    ("provider_plus_adaptive", "dispatch_execute_with_configured_auth",
     "global_plus_plan_plus_per_call", "adaptive_kill_switch_or_provider_timeout")
  else if bool_decide (o_executor_type self = LANGGRAPH_EXECUTOR_TYPE) then
    ("external_runtime_enabled_and_mode_bound", "workflow_execute_with_configured_auth",
     "per_call_plus_per_run_plus_daily", "external_runtime_kill_switch_or_process_timeout")
  else
    ("passed", "explicit_local_runtime",
     if is_some (o_estimated_cost self) then "evaluated" else "not_applicable",
     "workflow_cancel_or_process_timeout").

Definition trace_value (self : NodeExecutionOutput) : V :=
  let '(env_gate, auth_scope, cost_gate, kill_path) := trace_fields self in
  json_object (list_to_map [
    ("schema_version", json_string "execution_trace.v2");
    ("executor_type", json_string (o_executor_type self));
    ("env_gate", json_string env_gate);
    ("auth_scope", json_string auth_scope);
    ("output_policy", json_string "redacted_and_capped");
    ("cost_gate", json_string cost_gate);
    ("kill_path", json_string kill_path)]).

Definition to_value (self : NodeExecutionOutput) : V :=
  let fields : gmap string V := list_to_map [
    ("status", json_string (o_status self));
    ("executor_type", json_string (o_executor_type self));
    ("output", json_opt json_string (o_output self));
    ("error_domain", json_opt json_string (o_error_domain self));
    ("error_message", json_opt json_string (o_error_message self));
    ("input_tokens", json_opt json_int (o_input_tokens self));
    ("output_tokens", json_opt json_int (o_output_tokens self));
    ("estimated_cost", json_opt json_f64 (o_estimated_cost self));
    ("latency_ms", json_opt json_int (o_latency_ms self));
    ("process_outcome", outcome_to_value (default (outcome_unavailable
      "executor does not own an OS process outcome for this node result") (o_process_outcome self)))] in
  let fields :=
    match o_resolved_model self with
    | Some model => <["resolved_model" := json_string model]> fields
    | None => fields
    end in
  let fields :=
    if bool_decide (o_executor_type self ∈
         ["provider"; "adaptive_provider"; "claude_code_cli"; "codex_cli"; LANGGRAPH_EXECUTOR_TYPE])
    then <["trace" := trace_value self]> fields else fields in
  json_object fields.

(** ** The token budget of a managed product execution *)

Definition json_pointer2 (v : V) (a b : string) : option V := json_get v a ≫= λ v, json_get v b.

Definition is_managed_product_apply (node_metadata : V) : bool :=
  bool_decide (json_get_str node_metadata "executor_class" = Some "managed_coding")
  && bool_decide (json_pointer2 node_metadata "managed_supervised_patch" "operation" ≫= as_str
                  = Some "product_apply").

(** [.filter(|n| *n > 0)]. *)
Definition positive (n : option Z) : option Z :=
  match n with Some n => if 0 <? n then Some n else None | None => None end.

Definition fail_output (domain message : string) (output : NodeExecutionOutput)
    : NodeExecutionOutput :=
  output <| o_status := "failed" |> <| o_error_domain := Some domain |>
         <| o_error_message := Some message |>.

(** The tokens of the attempts before [execution_attempt]. *)
Definition prior_cumulative (execution_attempt : option Z) (prior : option V) : option Z :=
  match execution_attempt, prior with
  | Some attempt, None => if attempt =? 1 then Some 0 else None
  | Some attempt, Some prior =>
    if bool_decide (json_get_str prior "schema_version" = Some "product_managed_usage.v1")
       && bool_decide (json_get prior "last_attempt" ≫= as_u64
                       = Some (u64_saturating_sub attempt 1))
    then json_get prior "cumulative_tokens" ≫= as_u64 else None
  | None, _ => None
  end.

Definition u64_checked_add (a b : Z) : option Z :=
  if a + b <=? u64_max then Some (a + b) else None.

Definition measured_tokens (output : NodeExecutionOutput) : option Z :=
  match o_input_tokens output, o_output_tokens output with
  | Some input, Some output =>
    if (0 <=? input) && (0 <=? output) then u64_checked_add input output else None
  | _, _ => None
  end.

Definition unavailable_usage (attempt prior : Z) : V :=
  json_object (list_to_map [
    ("schema_version", json_string "product_managed_usage.v1");
    ("last_attempt", json_int attempt);
    ("cumulative_tokens", json_int prior);
    ("current_attempt_tokens", json_null);
    ("status", json_string "unavailable");
    ("raw_output_stored", json_bool false)]).

Definition measured_usage (attempt cumulative measured limit : Z) : V :=
  json_object (list_to_map [
    ("schema_version", json_string "product_managed_usage.v1");
    ("last_attempt", json_int attempt);
    ("cumulative_tokens", json_int cumulative);
    ("current_attempt_tokens", json_int measured);
    ("limit_tokens", json_int limit);
    ("status", json_string (if limit <? cumulative then "exhausted" else "within_budget"));
    ("raw_output_stored", json_bool false)]).

(** The result after its tokens were settled, and the usage to be stored. *)
Definition enforce_product_managed_token_budget (output : NodeExecutionOutput) (node_metadata : V)
    : NodeExecutionOutput * option V :=
  if negb (is_managed_product_apply node_metadata) then (output, None)
  else
    match positive (json_pointer2 node_metadata "product_budget" "total_tokens" ≫= as_u64) with
    | None =>
      (fail_output "product_token_usage_unavailable"
         "product token budget is unavailable; managed completion cannot be trusted" output, None)
    | Some limit =>
      let execution_attempt := positive (json_get node_metadata "execution_attempt" ≫= as_u64) in
      match execution_attempt,
            prior_cumulative execution_attempt (json_get node_metadata "product_managed_usage") with
      | Some attempt, Some prior =>
        match measured_tokens output with
        | None =>
          ((if bool_decide (o_status output = "completed") || retryable_node_failure output
            then fail_output "product_token_usage_unavailable"
                   "managed executor did not provide authoritative non-negative token usage" output
            else output), Some (unavailable_usage attempt prior))
        | Some measured =>
          match u64_checked_add prior measured with
          | None =>
            (fail_output "product_token_budget_exhausted" "budget_exhausted:total_tokens overflow"
               output, None)
          | Some cumulative =>
            ((if (limit <? cumulative)
                 && (bool_decide (o_status output = "completed") || retryable_node_failure output)
              then fail_output "product_token_budget_exhausted"
                     ("budget_exhausted:total_tokens limit=" +:+ pretty limit +:+ " cumulative="
                        +:+ pretty cumulative) output
              else output), Some (measured_usage attempt cumulative measured limit))
          end
        end
      | _, _ =>
        (fail_output "product_token_usage_unavailable"
           "managed token usage attempt lineage is missing or stale" output, None)
      end
    end.

(** ** The usage of a recursive node *)

Record RecursiveUsageEvidence : Type := mkEvidence {
  u_budget : RecursiveBudget;
  u_receipt_id : option string;
}.

Fixpoint all_hex (s : string) : bool :=
  match s with
  | EmptyString => true
  | String c s =>
    let n := byte_val c in
    (((48 <=? n) && (n <=? 57)) || ((65 <=? n) && (n <=? 70)) || ((97 <=? n) && (n <=? 102)))
    && all_hex s
  end.

Definition output_value (output : NodeExecutionOutput) : option V := o_output output ≫= json_parse.

Definition recursive_usage_receipt_from_output (output : NodeExecutionOutput)
    : result string (option string) :=
  match output_value output ≫= λ v, json_get_str v "execution_usage_receipt" with
  | None => Ok None
  | Some receipt =>
    hash <-? ok_or (strip_prefix "agent-action:" receipt) "recursive_usage_unavailable" ;;
    bail negb (str_len hash =? 64) || negb (all_hex hash) with Err "recursive_usage_unavailable" ;;
    Ok (Some receipt)
  end.

Definition is_provider_report (usage : V) : bool :=
  is_some (non_empty (json_get_str usage "provider_id"))
  && is_some (non_empty (json_get_str usage "model"))
  && bool_decide (json_get_str usage "token_provenance" = Some "provider_reported")
  && bool_decide (json_get_str usage "cost_provenance" = Some "harness_derived").

Definition opt_f64_eqb (a b : option f64) : bool :=
  match a, b with
  | Some a, Some b => f64_eqb a b
  | None, None => true
  | _, _ => false
  end.

Definition fixture_evidence (contract : UsageContract.RecursiveUsageContract)
    (output : NodeExecutionOutput) : result string RecursiveUsageEvidence :=
  match UsageContract.fixture_usage contract with
  | None => Err "fixture_usage_contract_invalid"
  | Some usage =>
    bail (calls_remaining usage =? 0) || (tokens_remaining usage =? 0)
      || (cost_micros_remaining usage =? 0) || (time_ms_remaining usage =? 0)
      with Err "fixture_usage_contract_invalid" ;;
    receipt <-? recursive_usage_receipt_from_output output ;;
    Ok (mkEvidence usage receipt)
  end.

Definition measured_evidence (output : NodeExecutionOutput) : result string RecursiveUsageEvidence :=
  let unavailable := "recursive_usage_unavailable" in
  reported <-? ok_or (usage ← output_value output ≫= λ v, json_get v "provider_usage";
                      if is_provider_report usage then Some usage else None) unavailable ;;
  token_count <-? ok_or (match o_input_tokens output, o_output_tokens output with
                         | Some input, Some output =>
                           if (0 <=? input) && (0 <=? output)
                           then Some (u64_saturating_add input output) else None
                         | _, _ => None
                         end) unavailable ;;
  bail negb (bool_decide (json_get reported "input_tokens" ≫= as_i64 = o_input_tokens output))
    || negb (bool_decide (json_get reported "output_tokens" ≫= as_i64 = o_output_tokens output))
    with Err unavailable ;;
  cost_micros <-? ok_or (cost ← o_estimated_cost output;
                         if f64_is_finite cost && f64_leb f64_zero cost
                         then Some (f64_as_u64 (f64_ceil (f64_mul cost (f64_of_Z 1000000))))
                         else None) unavailable ;;
  bail negb (opt_f64_eqb (json_get reported "estimated_cost_usd" ≫= as_f64) (o_estimated_cost output))
    with Err unavailable ;;
  time_ms <-? ok_or (latency ← o_latency_ms output;
                     if 0 <=? latency then Some latency else None) unavailable ;;
  receipt <-? recursive_usage_receipt_from_output output ;;
  receipt_id <-? ok_or receipt unavailable ;;
  Ok (mkEvidence (mkBudget 1 token_count cost_micros time_ms) (Some receipt_id)).

Definition recursive_usage_from_output (output : NodeExecutionOutput) (node_metadata : V)
    (executor_mode : RecursiveUsageMode) : result string RecursiveUsageEvidence :=
  value <-? ok_or (json_get node_metadata "usage_contract") "fixture_usage_contract_missing" ;;
  contract <-? ok_or (contract_from_value value) "fixture_usage_contract_invalid" ;;
  match contract, executor_mode with
  | UsageContract.Unavailable, _ | _, ModeUnavailable => Err "recursive_usage_unavailable"
  | _, ModeFixture => fixture_evidence contract output
  | _, ModeMeasured => measured_evidence output
  end.

Definition recursive_usage_failure_reason (error : string) : option RecursiveFailureReason :=
  if bool_decide (error = "fixture_usage_contract_missing")
  then Some FailureReason.FixtureUsageContractMissing
  else if bool_decide (error = "fixture_usage_contract_invalid")
  then Some FailureReason.FixtureUsageContractInvalid
  else if bool_decide (error = "recursive_usage_unavailable")
  then Some FailureReason.RecursiveUsageUnavailable
  else if bool_decide (error = "recursive_node_identity_malformed")
  then Some FailureReason.RecursiveNodeIdentityMalformed
  else None.

Definition recursive_retry_usage : RecursiveBudget := mkBudget 0 0 0 0.

(** ** Which recursive node a workflow node stands for *)

Record RecursiveCompletionIdentity : Type := mkIdentity {
  rc_node_json : V;
  rc_recursive_node_id : option string;
  rc_root : bool;
  rc_terminal_reason : option RecursiveFailureReason;
  rc_metadata_writable : bool;
}.

(** A marker is absent or a string that is not empty. *)
Definition marker_well_typed (marker : option V) : bool :=
  match marker with
  | None => true
  | Some value => is_some (non_empty (as_str value))
  end.

Definition marker_valid (node_id : string) (indexed_root : option string)
    (recursive_enabled : bool) (metadata : V) : bool :=
  let child_value := json_get metadata "recursive_node_id" in
  let root_value := json_get metadata "recursive_root_node_id" in
  let child := child_value ≫= as_str in
  let root_marker := root_value ≫= as_str in
  if negb (marker_well_typed child_value && marker_well_typed root_value)
     || (is_some child_value && is_some root_value) then false
  else if bool_decide (indexed_root = Some node_id) then
    is_none child && bool_decide (root_marker = Some node_id)
  else if is_some indexed_root then
    bool_decide (child = Some node_id) && is_none root_marker
  else if negb recursive_enabled then negb (is_some child && is_some root_marker)
  else is_none child_value && is_none root_value.

Definition resolve_recursive_completion_identity (node_id node_json_text : string)
    (indexed_root_node_id : option string) (recursive_enabled : bool)
    : result string RecursiveCompletionIdentity :=
  let parsed := json_parse node_json_text in
  let indexed := is_some indexed_root_node_id in
  let root := bool_decide (indexed_root_node_id = Some node_id) in
  let valid_object := is_some (parsed ≫= as_object) in
  let valid :=
    match parsed with
    | Some metadata => marker_valid node_id indexed_root_node_id recursive_enabled metadata
    | None => false
    end in
  bail negb indexed && negb valid with Err "recursive_node_identity_malformed" ;;
  let malformed := indexed && (negb valid_object || negb valid) in
  Ok (mkIdentity (default json_null parsed) (if indexed then Some node_id else None) root
        (if malformed then Some FailureReason.RecursiveNodeIdentityMalformed else None)
        (negb malformed && valid_object)).

Definition recursive_marker_from_node_json (node_json : string) : result string bool :=
  let malformed := "recursive_node_identity_malformed" in
  metadata <-? ok_or (json_parse node_json) malformed ;;
  let child_marker := json_get metadata "recursive_node_id" in
  let root_marker := json_get metadata "recursive_root_node_id" in
  bail is_some child_marker && is_some root_marker with Err malformed ;;
  match (match child_marker with Some m => Some m | None => root_marker end) with
  | None => Ok false
  | Some marker =>
    _m <-? ok_or (non_empty (as_str marker)) malformed ;;
    Ok true
  end.

Definition recursive_identity_for_claim (node_id node_json : string)
    (indexed_root_node_id : option string) : result string bool :=
  let malformed := "recursive_node_identity_malformed" in
  metadata <-? ok_or (json_parse node_json) malformed ;;
  let child := json_get_str metadata "recursive_node_id" in
  let root := json_get_str metadata "recursive_root_node_id" in
  match indexed_root_node_id with
  | Some indexed_root =>
    let exact :=
      if bool_decide (indexed_root = node_id)
      then is_none child && bool_decide (root = Some node_id)
      else bool_decide (child = Some node_id) && is_none root in
    if exact then Ok true else Err malformed
  | None =>
    marked <-? recursive_marker_from_node_json node_json ;;
    if negb marked then Ok false
    else if bool_decide (child = Some node_id) || bool_decide (root = Some node_id)
    then Ok true else Err malformed
  end.
End results.

Arguments RecursiveCompletionIdentity : clear implicits.
