(* ===== verification/WorkflowRuns.v ===== *)
(** * The workflow run scheduler

    Model of the SQLite path of storage/local_product_store/workflow_runs.rs: how
    a tick leases a ready node of a run and later records the result of its
    executor, how stale leases are recovered, and how a run ends.  A tick is two
    transactions, [lease_ready_node] and [record_result]; what happens between
    them, in this tick or in another process, is a sequence of other operations.

    [self.now()] is read several times in one operation: [clock i] is the i-th
    reading.  A [SELECT] without [ORDER BY] returns its rows in some order, a
    [RowOrder].  [event_sequence] and [attempt_count] stay far below 2^63 and are
    not wrapped.  Failures of the database itself are not modelled. *)

From S2P Require Import Prelude Text Json Float64 RecursiveExecution Persistence TreeStore NodeExecution.
Import FailureReason (RecursiveFailureReason).

Local Open Scope Z_scope.

Class RowOrder : Type := {
  sql_rows : ∀ {A}, gmap (string * string) A → list ((string * string) * A);
  sql_rows_perm : ∀ {A} (m : gmap (string * string) A), sql_rows m ≡ₚ map_to_list m;
}.

(** One such order, for concrete runs. *)
Definition listed_rows : RowOrder :=
  {| sql_rows := λ A m, map_to_list m; sql_rows_perm := λ A m, Permutation_refl _ |}.

(** Run [m] for its result, errors included. *)
Definition attempt_store {A} (m : store A) : store (result string A) := λ db,
  match m db with
  | Some (r, db) => Some (Ok r, db)
  | None => None
  end.

(** ** Owners and terminal states *)

Definition API_OWNED_SUPERVISED_PATCH : string := "api_owned_supervised_patch".
Definition EXECUTION_OWNER_CONFLICT_PREFIX : string := "workflow run execution owner conflict".

Definition require_run_execution_owner (run_id : string) (current_owner expected_owner : option string)
    : result string unit :=
  match bool_decide (current_owner = Some API_OWNED_SUPERVISED_PATCH),
        bool_decide (expected_owner = Some API_OWNED_SUPERVISED_PATCH) with
  | true, true => Ok ()
  | true, false => Err (EXECUTION_OWNER_CONFLICT_PREFIX +:+ ": " +:+ run_id
                         +:+ " is owned by the supervised-patch API")
  | false, true => Err (EXECUTION_OWNER_CONFLICT_PREFIX +:+ ": " +:+ run_id
                         +:+ " is no longer owned by the supervised-patch API")
  | false, false => Ok ()
  end.

Definition is_execution_owner_conflict (error : string) : bool :=
  starts_with error EXECUTION_OWNER_CONFLICT_PREFIX.

Definition is_run_terminal (status : string) : bool :=
  bool_decide (status ∈ ["completed"; "failed"; "cancelled"]).

(** The statuses of a node that has ended, and those that fail a run. *)
Definition node_done (status : string) : bool :=
  bool_decide (status ∈ ["completed"; "failed"; "cancelled"; "blocked"; "recovered"]).
Definition node_failed (status : string) : bool := bool_decide (status ∈ ["failed"; "blocked"]).

(** [parent.status IN ('failed','cancelled','blocked')]. *)
Definition blocks_children (status : string) : bool :=
  bool_decide (status ∈ ["failed"; "cancelled"; "blocked"]).

Definition agent_running (row : work_row) : bool :=
  bool_decide (wn_task_type row = "agent_step") && bool_decide (wn_status row = "running").

(** ** Leases *)

(** [format!("workflow:{run_id}:{node_id}:{attempt}")]. *)
Definition claim_id (run_id node_id : string) (attempt : Z) : string :=
  "workflow:" +:+ run_id +:+ ":" +:+ node_id +:+ ":" +:+ pretty attempt.

(** [(now_time - lease_time).num_milliseconds() as u64 > lease_timeout_ms];
    [parse_time] is chrono's parser of [%Y-%m-%dT%H:%M:%SZ], in seconds. *)
Definition stale_lease_is_expired (parse_time : string → option Z) (leased_at now : string)
    (lease_timeout_ms : Z) : bool :=
  match parse_time leased_at, parse_time now with
  | Some lease_time, Some now_time =>
    lease_timeout_ms <? u64_wrap ((now_time - lease_time) * 1000)
  | _, _ => false
  end.

Section workflow_runs.
Context {V : Type} `{JV : JsonValue V} `{JT : JsonText V} `{JN : JsonNumbers V}.
Context `{SD : StoreDecoders V} `{Deps : RecursiveDeps} `{TE : TreeEncoder} `{RO : RowOrder}.

(** serde's decoding of a usage contract. *)
Context (contract_from_value : V → option UsageContract.RecursiveUsageContract).

Inductive LeaseResult : Type :=
  | Terminal (action : string) (run : run_row)
  | NoReadyNode (run : run_row)
  | Leased (node_id task_type workflow_id : string) (attempt : Z) (node_metadata : V).

(** ** Runs and events *)

Definition ensure_run_exists_locked (run_id : string) (db : database) : result string unit :=
  if is_some (workflow_runs db !! run_id) then Ok ()
  else Err ("workflow run not found: " +:+ run_id).

Definition get_run_row (run_id : string) (db : database) : result string run_row :=
  ok_or (workflow_runs db !! run_id) ("workflow run not found: " +:+ run_id).

(** [SELECT COALESCE(MAX(event_sequence), 0) + 1 FROM workflow_run_events]. *)
Definition next_sequence (db : database) : Z :=
  match ev_sequence <$> workflow_run_events db with
  | [] => 1
  | s :: l => foldl Z.max s l + 1
  end.

Definition insert_workflow_run_event_locked (run_id : string) (node_id : option string)
    (event_type actor : string) (details : list (string * V)) (created_at : string) : store unit :=
  execute (λ db,
    let sequence := next_sequence db in
    db <| workflow_run_events := workflow_run_events db ++
      [mkEventRow sequence ("workflow-event-" +:+ pad_zeros 4 sequence) run_id node_id event_type
         actor created_at (json_print (json_object (list_to_map details)))] |>).

(** [COALESCE(started_at, ?3)] and [completed_at] depend on the new status. *)
Definition with_run_status (status updated_at : string) (row : run_row) : run_row :=
  let running := bool_decide (status = "running") in
  row <| wr_status := status |>
      <| wr_updated_at := updated_at |>
      <| wr_started_at := if running then Some (default updated_at (wr_started_at row))
                          else wr_started_at row |>
      <| wr_completed_at := if is_run_terminal status then Some updated_at
                            else if running then None else wr_completed_at row |>.

Definition update_workflow_run_status_locked (run_id status updated_at : string) : store unit :=
  execute (λ db, db <| workflow_runs :=
    alter (with_run_status status updated_at) run_id (workflow_runs db) |>).

Definition workflow_run_terminal_audit_details (boundaries : V) : list (string * V) :=
  let execution_authority := default "disabled" (json_get_str boundaries "execution_authority") in
  [("metadata_only", json_bool (bool_decide (execution_authority = "disabled")));
   ("execution_authority", json_string execution_authority)].

Definition workflow_run_terminal_audit_details_locked (run_id : string) (db : database)
    : result string (list (string * V)) :=
  run <-? query_row (workflow_runs db !! run_id) ;;
  boundaries <-? ok_or (json_parse (wr_boundaries_json run)) "invalid workflow run boundaries" ;;
  Ok (workflow_run_terminal_audit_details boundaries).

(** ** Counting leases *)

Definition count_running_agent_steps_locked (db : database) : Z :=
  Z.of_nat (size (filter (λ kr, agent_running kr.2 = true) (workflow_run_nodes db))).

Definition count_running_agent_steps_for_run_locked (run_id : string) (db : database) : Z :=
  Z.of_nat (size (filter (λ kr, kr.1.1 = run_id ∧ agent_running kr.2 = true)
                    (workflow_run_nodes db))).

(** The join of [recursive_execution_nodes] and [recursive_execution_trees]. *)
Definition indexed_recursive_root (run_id node_id : string) (db : database) : option string :=
  _n ← recursive_execution_nodes db !! (run_id, node_id);
  tr_root_node_id <$> recursive_execution_trees db !! run_id.

Definition workflow_node_is_recursive_locked (run_id node_id : string) (db : database)
    : result string bool :=
  row <-? query_row (workflow_run_nodes db !! (run_id, node_id)) ;;
  recursive_identity_for_claim node_id (wn_node_json row) (indexed_recursive_root run_id node_id db).

(** The rows of running agent steps [p] holds of; the first error ends the scan. *)
Fixpoint count_rows (p : string * string → work_row → result string bool)
    (rows : list ((string * string) * work_row)) : result string Z :=
  match rows with
  | [] => Ok 0
  | (key, row) :: rows =>
    counts <-? (if agent_running row then p key row else Ok false) ;;
    rest <-? count_rows p rows ;;
    Ok ((if counts then 1 else 0) + rest)
  end.

Definition count_running_recursive_steps_locked (db : database) : result string Z :=
  count_rows (λ key _, workflow_node_is_recursive_locked key.1 key.2 db)
    (sql_rows (workflow_run_nodes db)).

(** [json_extract(node_json, '$.key') IS NOT NULL]. *)
Definition json_extract_not_null (value : V) (key : string) : bool :=
  match json_get value key with Some v => negb (json_is_null v) | None => false end.

(** The rows the guard of a recursive claim counts. *)
Definition marked_recursive (db : database) (key : string * string) (row : work_row)
    : result string bool :=
  if is_some (recursive_execution_nodes db !! key) then Ok true
  else
    value <-? ok_or (json_parse (wn_node_json row)) "malformed JSON" ;;
    Ok (json_extract_not_null value "recursive_node_id"
        || json_extract_not_null value "recursive_root_node_id").

(** ** Ready nodes *)

(** The nodes of a run, in the order the table returns them. *)
Definition run_nodes (run_id : string) (db : database) : list (string * work_row) :=
  omap (λ kr, if bool_decide (kr.1.1 = run_id) then Some (kr.1.2, kr.2) else None)
    (sql_rows (workflow_run_nodes db)).

(** The statuses of the nodes with an edge to [node_id]. *)
Definition predecessor_statuses (run_id node_id : string) (db : database) : list string :=
  omap (λ ke, if bool_decide (ke.1.1 = run_id) && bool_decide (we_to_node_id ke.2 = node_id)
              then wn_status <$> workflow_run_nodes db !! (run_id, we_from_node_id ke.2) else None)
    (sql_rows (workflow_run_edges db)).

(** [ORDER BY node_id]. *)
Definition pending_nodes (run_id : string) (db : database) : list string :=
  sort_strings (filter (λ nr, wn_status nr.2 = "pending") (run_nodes run_id db)).*1.

Definition dependency_met (task_type status : string) : bool :=
  bool_decide (status = "completed")
  || (bool_decide (task_type = "fix") && bool_decide (status ∈ ["failed"; "recovered"])).

(** [(target_task_type == "agent_step") != is_agent_executor]. *)
Definition executor_matches (agent_executor : option bool) (task_type : string) : bool :=
  match agent_executor with
  | Some is_agent => Bool.eqb (bool_decide (task_type = "agent_step")) is_agent
  | None => true
  end.

Definition is_ready (run_id : string) (skip : list string) (agent_executor : option bool)
    (db : database) (node_id : string) : bool :=
  match workflow_run_nodes db !! (run_id, node_id) with
  | Some row =>
    negb (bool_decide (node_id ∈ skip))
    && executor_matches agent_executor (wn_task_type row)
    && forallb (dependency_met (wn_task_type row)) (predecessor_statuses run_id node_id db)
  | None => false
  end.

Definition find_ready_node_locked (run_id : string) (skip : list string)
    (agent_executor : option bool) (db : database) : option string :=
  List.find (is_ready run_id skip agent_executor db) (pending_nodes run_id db).

(** ** Failed dependencies *)

Definition has_failed_parent (run_id : string) (db : database) (node_id : string) : bool :=
  existsb blocks_children (predecessor_statuses run_id node_id db).

(** [SELECT DISTINCT child.node_id ..]. *)
Definition blocked_children (run_id : string) (db : database) : list string :=
  (filter (λ nr, wn_status nr.2 = "pending" ∧ has_failed_parent run_id db nr.1 = true)
    (run_nodes run_id db)).*1.

Definition block_child (run_id actor now node_id : string) : store unit :=
  row <-! query (λ db, Ok (workflow_run_nodes db !! (run_id, node_id))) ;;
  match row with
  | Some row =>
    if bool_decide (wn_status row = "pending") then
      _u <-! execute (λ db, db <| workflow_run_nodes := <[(run_id, node_id) := row
        <| wn_status := "blocked" |>
        <| wn_blocked_reason := Some "failed_dependency" |>
        <| wn_completed_at := Some now |>]> (workflow_run_nodes db) |>) ;;
      insert_workflow_run_event_locked run_id (Some node_id) "node.blocked" actor
        [("reason", json_string "failed_dependency")] now
    else ret tt
  | None => ret tt
  end.

(** The loop blocks at least one node per round: [fuel] bounds the rounds. *)
Fixpoint propagate_loop (fuel : nat) (run_id actor now : string) : store unit :=
  match fuel with
  | O => panic
  | S fuel =>
    blocked <-! query (λ db, Ok (blocked_children run_id db)) ;;
    match blocked with
    | [] => ret tt
    | _ => _u <-! for_each blocked (block_child run_id actor now) ;;
           propagate_loop fuel run_id actor now
    end
  end.

Definition propagate_failed_dependencies_locked (run_id actor now : string) : store unit := λ db,
  propagate_loop (S (size (workflow_run_nodes db))) run_id actor now db.

(** ** The end of a run *)

Definition check_run_completion_locked (run_id : string) (db : database) : bool * bool :=
  let statuses := wn_status ∘ snd <$> run_nodes run_id db in
  match statuses with
  | [] => (true, false)
  | _ => (forallb node_done statuses, existsb node_failed statuses)
  end.

(** The statements both phases of a tick run when every node has ended. *)
Definition conclude_run (run_id actor now : string) : store (option string) :=
  completion <-! query (λ db, Ok (check_run_completion_locked run_id db)) ;;
  let '(all_done, has_failure) := completion in
  if all_done then
    let terminal_status := if has_failure then "failed" else "completed" in
    _u <-! update_workflow_run_status_locked run_id terminal_status now ;;
    _u <-! insert_workflow_run_event_locked run_id None ("workflow_run." +:+ terminal_status) actor
      [("reason", json_string (if has_failure then "node_failure" else "all_nodes_completed"))] now ;;
    terminal_audit_details <-! query (workflow_run_terminal_audit_details_locked run_id) ;;
    _u <-! append_audit now actor ("workflow_run." +:+ terminal_status) run_id
      terminal_audit_details ;;
    ret (Some terminal_status)
  else ret None.

(** ** Phase 1: lease a ready node *)

Section lease.
Context (env : env_vars) (run_id : string).

Definition task_type_of (node_id : string) (db : database) : option string :=
  wn_task_type <$> workflow_run_nodes db !! (run_id, node_id).

(** The audit of a candidate that is at a cap. *)
Definition claim_conflict (now action node_id reason : string) (running cap : Z)
    (more : list (string * V)) : store unit :=
  append_audit now "scheduler" action node_id
    ([("run_id", json_string run_id); ("node_id", json_string node_id);
      ("reason", json_string reason); ("running", json_int running); ("cap", json_int cap)] ++ more).

(** [recursive_running >= MAX_RECURSIVE_LEASES] skips the candidate. *)
Definition recursive_cap_reached (now node_id : string) : store bool :=
  is_recursive <-! query (workflow_node_is_recursive_locked run_id node_id) ;;
  if is_recursive then
    recursive_running <-! query count_running_recursive_steps_locked ;;
    if MAX_RECURSIVE_LEASES <=? recursive_running then
      _u <-! claim_conflict now "recursive.claim_conflict" node_id "scheduler_capacity_exhausted"
        recursive_running MAX_RECURSIVE_LEASES [] ;;
      ret true
    else ret false
  else ret false.

(** [global_cap as i64], [per_run_cap as i64]. *)
Definition agent_caps_admit (now node_id : string) (global_cap per_run_cap : Z) : store bool :=
  global_running <-! query (λ db, Ok (count_running_agent_steps_locked db)) ;;
  per_run_running <-! query (λ db, Ok (count_running_agent_steps_for_run_locked run_id db)) ;;
  if as_i64_cast global_cap <=? global_running then
    _u <-! claim_conflict now "agent_step.claim_conflict" node_id "global_cap_exceeded"
      global_running global_cap [("per_run_running", json_int per_run_running)] ;;
    ret false
  else if as_i64_cast per_run_cap <=? per_run_running then
    _u <-! claim_conflict now "agent_step.claim_conflict" node_id "per_run_cap_exceeded"
      per_run_running per_run_cap [("global_running", json_int global_running)] ;;
    ret false
  else
    _u <-! append_audit now "scheduler" "agent_step.claim_attempt" node_id
      [("run_id", json_string run_id); ("node_id", json_string node_id);
       ("global_running", json_int global_running);
       ("per_run_running", json_int per_run_running)] ;;
    ret true.

(** [None]: the candidate is at a cap; otherwise whether it is an agent step
    that was admitted under the caps ([found_is_agent_step]). *)
Definition admit_candidate (now node_id : string) (caps : option (Z * Z)) : store (option bool) :=
  task_type <-! query (λ db, Ok (default EmptyString (task_type_of node_id db))) ;;
  if negb (bool_decide (task_type = "agent_step")) then ret (Some false)
  else
    capped <-! (if recursive_enabled env then recursive_cap_reached now node_id else ret false) ;;
    if capped then ret None
    else
      match caps with
      | None => ret (Some false)
      | Some (global_cap, per_run_cap) =>
        admitted <-! agent_caps_admit now node_id global_cap per_run_cap ;;
        ret (if admitted then Some true else None)
      end.

(** Nodes for this kind of executor first; any ready node when there is none. *)
Definition candidate (capped_skip : list string) (agent_executor : bool) (db : database)
    : option string :=
  match find_ready_node_locked run_id capped_skip (Some agent_executor) db, capped_skip with
  | None, [] => find_ready_node_locked run_id [] None db
  | matching, _ => matching
  end.

(** Each round skips one more pending node: [fuel] bounds the rounds. *)
Fixpoint pick_node (fuel : nat) (now : string) (agent_executor : bool) (caps : option (Z * Z))
    (capped_skip : list string) : store (option (string * bool)) :=
  match fuel with
  | O => panic
  | S fuel =>
    found <-! query (λ db, Ok (candidate capped_skip agent_executor db)) ;;
    match found with
    | None => ret None
    | Some node_id =>
      admitted <-! admit_candidate now node_id caps ;;
      match admitted with
      | Some found_is_agent_step => ret (Some (node_id, found_is_agent_step))
      | None => pick_node fuel now agent_executor caps (capped_skip ++ [node_id])
      end
    end
  end.

(** The guards of the three [UPDATE]s that take a lease. *)
Definition claim_guard (caps : option (Z * Z)) (found_is_agent_step recursive_claim : bool)
    (db : database) : result string bool :=
  if found_is_agent_step then
    caps <-? ok_or caps "agent concurrency caps are required" ;;
    Ok ((count_running_agent_steps_locked db <? as_i64_cast caps.1)
        && (count_running_agent_steps_for_run_locked run_id db <? as_i64_cast caps.2))
  else if recursive_claim then
    running <-? count_rows (marked_recursive db) (sql_rows (workflow_run_nodes db)) ;;
    Ok (running <? MAX_RECURSIVE_LEASES)
  else Ok true.

Definition leased_row (now : string) (row : work_row) : work_row :=
  row <| wn_status := "running" |>
      <| wn_started_at := Some now |>
      <| wn_leased_at := Some now |>
      <| wn_attempt_count := wn_attempt_count row + 1 |>.

(** Whether a row was updated. *)
Definition claim_node (now node_id : string) (caps : option (Z * Z))
    (found_is_agent_step recursive_claim : bool) : store bool :=
  guard <-! query (claim_guard caps found_is_agent_step recursive_claim) ;;
  row <-! query (λ db, Ok (workflow_run_nodes db !! (run_id, node_id))) ;;
  match row with
  | Some row =>
    if guard && bool_decide (wn_status row = "pending") then
      _u <-! execute (λ db, db <| workflow_run_nodes :=
        <[(run_id, node_id) := leased_row now row]> (workflow_run_nodes db) |>) ;;
      ret true
    else ret false
  | None => ret false
  end.

(** [agent_concurrency_caps.is_none() && recursive_enabled() && ..]. *)
Definition is_recursive_claim (node_id : string) (caps : option (Z * Z)) (db : database)
    : result string bool :=
  if is_none caps && recursive_enabled env
     && bool_decide (task_type_of node_id db = Some "agent_step")
  then workflow_node_is_recursive_locked run_id node_id db else Ok false.

(** The recursive node a leased workflow node runs; the tree of a root is created. *)
Definition recursive_node_of (now wf_id node_id : string) (node_metadata : V)
    : store (option string) :=
  match json_get_str node_metadata "recursive_node_id",
        json_get_str node_metadata "recursive_root_node_id" with
  | Some recursive_marker, _ =>
    if bool_decide (recursive_marker = node_id) then ret (Some recursive_marker)
    else fail "recursive_node_identity_malformed"
  | None, Some root_id =>
    if recursive_enabled env then
      if bool_decide (root_id = node_id) then
        _u <-! ensure_recursive_root_tree run_id wf_id node_id node_metadata now ;;
        ret (Some root_id)
      else fail "recursive_node_identity_malformed"
    else ret None
  | None, None => ret None
  end.

(** What follows a successful claim. *)
Definition finish_lease (actor now node_id : string) : store LeaseResult :=
  attempt <-! query (λ db, Ok (default 1
    (wn_attempt_count <$> workflow_run_nodes db !! (run_id, node_id)))) ;;
  task_type <-! query (λ db, Ok (default "unknown" (task_type_of node_id db))) ;;
  wf_id <-! query (λ db, Ok (default EmptyString (wr_workflow_id <$> workflow_runs db !! run_id))) ;;
  row <-! query (λ db, query_row (workflow_run_nodes db !! (run_id, node_id))) ;;
  node_metadata <-! lift (ok_or (json_parse (wn_node_json row))
    "recursive_node_identity_malformed") ;;
  if is_none (as_object node_metadata) then fail "recursive_node_identity_malformed"
  else
    recursive_node_id <-! recursive_node_of now wf_id node_id node_metadata ;;
    _u <-! match recursive_node_id with
           | Some recursive_node_id =>
             sync_recursive_lease env run_id recursive_node_id (claim_id run_id node_id attempt) now
           | None => ret tt
           end ;;
    _u <-! insert_workflow_run_event_locked run_id (Some node_id) "node.leased" actor
      [("node_id", json_string node_id); ("status", json_string "running");
       ("attempt", json_int attempt)] now ;;
    _u <-! (if bool_decide (task_type = "agent_step") then
              append_audit now "scheduler" "agent_step.claim_success" node_id
                [("run_id", json_string run_id); ("node_id", json_string node_id);
                 ("attempt", json_int attempt)]
            else ret tt) ;;
    ret (Leased node_id task_type wf_id attempt node_metadata).

(** No candidate: failures are propagated and the run may end. *)
Definition no_candidate (actor : string) (clock : nat → string) : store LeaseResult :=
  _u <-! propagate_failed_dependencies_locked run_id actor (clock 1%nat) ;;
  terminal <-! conclude_run run_id actor (clock 2%nat) ;;
  run <-! query (get_run_row run_id) ;;
  ret (match terminal with
       | Some action => Terminal action run
       | None => NoReadyNode run
       end).

Definition take_lease (actor now node_id : string) (caps : option (Z * Z))
    (found_is_agent_step : bool) : store LeaseResult :=
  recursive_claim <-! query (is_recursive_claim node_id caps) ;;
  updated <-! claim_node now node_id caps found_is_agent_step recursive_claim ;;
  if updated then finish_lease actor now node_id
  else
    _u <-! (if found_is_agent_step then
              append_audit now "scheduler" "agent_step.claim_conflict" node_id
                [("run_id", json_string run_id); ("node_id", json_string node_id);
                 ("reason", json_string "lease_lost"); ("metadata_only", json_bool true)]
            else ret tt) ;;
    run <-! query (get_run_row run_id) ;;
    ret (NoReadyNode run).

(** [if run_status == "created" { .. }]. *)
Definition start_run (actor now : string) (max_retries : Z) (run_status : string) : store unit :=
  if bool_decide (run_status = "created") then
    _u <-! update_workflow_run_status_locked run_id "running" now ;;
    insert_workflow_run_event_locked run_id None "workflow_run.tick_started" actor
      [("trigger", json_string "tick"); ("max_retries", json_int max_retries)] now
  else ret tt.

Definition lease_ready_node (actor : string) (clock : nat → string) (max_retries : Z)
    (agent_executor : bool) (caps : option (Z * Z)) (expected_owner : option string)
    : store LeaseResult :=
  transaction (
    _u <-! query (ensure_run_exists_locked run_id) ;;
    run <-! query (λ db, query_row (workflow_runs db !! run_id)) ;;
    _u <-! lift (require_run_execution_owner run_id (wr_pause_reason run) expected_owner) ;;
    if is_run_terminal (wr_status run)
    then fail ("workflow run " +:+ run_id +:+ " is terminal: " +:+ wr_status run)
    else
      let now := clock 0%nat in
      _u <-! start_run actor now max_retries (wr_status run) ;;
      nodes <-! query (λ db, Ok (size (workflow_run_nodes db))) ;;
      picked <-! pick_node (S nodes) now agent_executor caps [] ;;
      match picked with
      | None => no_candidate actor clock
      | Some (node_id, found_is_agent_step) =>
        take_lease actor (clock 1%nat) node_id caps found_is_agent_step
      end).
End lease.

(** ** Phase 3: record the result *)

Section record.
Context (env : env_vars) (run_id node_id : string).

(** The claim a leased node carries in its metadata. *)
Definition claimed_metadata (attempt : Z) (node_metadata : V) : V :=
  let object := default ∅ (as_object node_metadata) in
  json_object (<["scheduler_claim_id" := json_string (claim_id run_id node_id attempt)]>
    (<["execution_attempt" := json_int attempt]> object)).

(** The usage a recursive node is charged with, or why it fails for good. *)
Definition recursive_usage_of (identity : RecursiveCompletionIdentity V) (output : NodeExecutionOutput)
    (mode : RecursiveUsageMode)
    : result string (option RecursiveFailureReason * option RecursiveUsageEvidence) :=
  let no_usage := mkEvidence budget_default None in
  match rc_recursive_node_id identity, rc_terminal_reason identity with
  | None, reason => Ok (reason, None)
  | Some _, Some reason => Ok (Some reason, Some no_usage)
  | Some _, None =>
    let usage_result :=
      if rc_root identity then
        metadata <-? ok_or (json_get (rc_node_json identity) "recursive_root_authority")
          "recursive_node_identity_malformed" ;;
        recursive_usage_from_output contract_from_value output metadata mode
      else recursive_usage_from_output contract_from_value output (rc_node_json identity) mode in
    match usage_result with
    | Ok usage => Ok (None, Some usage)
    | Err error =>
      match recursive_usage_failure_reason error with
      | Some reason => Ok (Some reason, Some no_usage)
      | None => Err error
      end
    end
  end.

Definition decide_retry (recursive_node_id : option string)
    (terminal_reason : option RecursiveFailureReason) (usage : option RecursiveUsageEvidence)
    (output : NodeExecutionOutput) (attempt max_retries : Z) : store bool :=
  let limit := if is_some recursive_node_id then 1 else max_retries in
  if is_none terminal_reason && retryable_node_failure output && (attempt <=? limit) then
    match recursive_node_id with
    | Some recursive_node_id =>
      usage <-! unwrap usage ;;
      recursive_retry_allowed env run_id recursive_node_id (u_budget usage)
    | None => ret true
    end
  else ret false.

(** [SET status, completed_at, leased_at = NULL WHERE .. status = 'running' AND
    attempt_count = ?5]; whether a row was updated. *)
Definition finalize_node (actual_status now : string) (attempt : Z) : store bool :=
  row <-! query (λ db, Ok (workflow_run_nodes db !! (run_id, node_id))) ;;
  match row with
  | Some row =>
    if bool_decide (wn_status row = "running") && (wn_attempt_count row =? attempt) then
      let ended := bool_decide (actual_status ∈ ["completed"; "failed"; "cancelled"; "recovered"]) in
      _u <-! execute (λ db, db <| workflow_run_nodes := <[(run_id, node_id) := row
        <| wn_status := actual_status |>
        <| wn_completed_at := if ended then Some now else None |>
        <| wn_leased_at := None |>]> (workflow_run_nodes db) |>) ;;
      ret true
    else ret false
  | None => ret false
  end.

(** [UPDATE workflow_run_nodes SET .. WHERE run_id AND node_id]. *)
Definition update_node (f : work_row → work_row) : store unit :=
  execute (λ db, db <| workflow_run_nodes :=
    alter f (run_id, node_id) (workflow_run_nodes db) |>).

Definition receipt_of (attempt : Z) (usage : RecursiveUsageEvidence) : string :=
  default (claim_id run_id node_id attempt) (u_receipt_id usage).

(** The audit of a late result of a recursive node. *)
Definition late_audit (actor now action recursive_node_id : string) (attempt : Z)
    (more : list (string * V)) : store unit :=
  append_audit now actor action node_id
    ([("run_id", json_string run_id); ("node_id", json_string node_id);
      ("attempt", json_int attempt); ("recursive_node_id", json_string recursive_node_id)] ++ more).

(** The usage of a result whose lease is gone is charged all the same. *)
Definition account_late_usage (actor now recursive_node_id : string) (root : bool) (attempt : Z)
    (terminal_reason : option RecursiveFailureReason) (usage : option RecursiveUsageEvidence)
    : store unit :=
  match terminal_reason with
  | Some reason =>
    late_audit actor now "workflow_node.late_usage_refused" recursive_node_id attempt
      [("reason", json_string (FailureReason.reason_as_str reason))]
  | None =>
    usage <-! unwrap usage ;;
    let receipt := receipt_of attempt usage in
    late_usage <-! attempt_store
      (if root then record_recursive_root_late_usage run_id receipt (u_budget usage) now
       else record_recursive_late_usage run_id recursive_node_id receipt (u_budget usage) now) ;;
    match late_usage with
    | Ok within_tree_budget =>
      late_audit actor now "workflow_node.late_usage_accounted" recursive_node_id attempt
        [("within_tree_budget", json_bool within_tree_budget)]
    | Err error =>
      late_audit actor now "workflow_node.late_usage_refused" recursive_node_id attempt
        [("reason", json_string error)]
    end
  end.

(** The tree's own account of the attempt; the status of its node. *)
Definition settle_recursive (now recursive_node_id : string) (root : bool) (attempt : Z)
    (terminal_reason : option RecursiveFailureReason) (usage : option RecursiveUsageEvidence)
    (success should_retry : bool) : store string :=
  let workflow_receipt := claim_id run_id node_id attempt in
  match terminal_reason with
  | Some reason =>
    if root then sync_recursive_root_terminal_failure run_id workflow_receipt reason now
    else sync_recursive_terminal_failure env run_id recursive_node_id workflow_receipt reason now
  | None =>
    usage <-! unwrap usage ;;
    if root then
      sync_recursive_root_completion_with_receipt run_id workflow_receipt
        (receipt_of attempt usage) success (u_budget usage) now
    else
      sync_recursive_completion_with_receipt env run_id recursive_node_id workflow_receipt
        (receipt_of attempt usage) success should_retry (u_budget usage) now
  end.

Definition recursive_failure_reason (recursive_node_id : string) (db : database)
    : result string (option string) :=
  tree <-? load_recursive_tree run_id db ;;
  Ok (tree ← tree; node ← nodes tree !! recursive_node_id;
      FailureReason.reason_as_str <$> n_failure_reason node).

(** The node's stored JSON after the attempt. *)
Definition settled_node_json (persisted_status now : string) (result : V)
    (product_managed_usage : option V) (node_json : V) : V :=
  match as_object node_json with
  | None => node_json
  | Some object =>
    let object := <["result" := result]> (<["status" := json_string persisted_status]> object) in
    let object :=
      match product_managed_usage with
      | Some usage => <["product_managed_usage" := usage]> object
      | None => object
      end in
    json_object (if bool_decide (persisted_status = "completed")
                 then <["completed_at" := json_string now]> object else object)
  end.

Definition report_retry (actor now task_type : string) (attempt : Z) (output : NodeExecutionOutput)
    : store unit :=
  _u <-! update_node (λ row, row <| wn_blocked_reason := Some ("retry after attempt "
    +:+ pretty attempt +:+ ": " +:+ default EmptyString (o_error_message output)) |>) ;;
  _u <-! insert_workflow_run_event_locked run_id (Some node_id) "node.retry_scheduled" actor
    [("node_id", json_string node_id); ("attempt", json_int attempt);
     ("error_domain", json_opt json_string (o_error_domain output));
     ("error_message", json_opt json_string (o_error_message output))] now ;;
  _u <-! append_audit now actor "workflow_run.node_tick" run_id
    [("node_id", json_string node_id); ("executor_type", json_string (o_executor_type output));
     ("status", json_string "retry_scheduled"); ("attempt", json_int attempt);
     ("latency_ms", json_opt json_int (o_latency_ms output))] ;;
  if bool_decide (task_type = "agent_step") then
    append_audit now "scheduler" "agent_step.execution_released" node_id
      [("run_id", json_string run_id); ("node_id", json_string node_id);
       ("status", json_string "retry"); ("attempt", json_int attempt)]
  else ret tt.

Definition report_end (actor now task_type persisted_status : string) (attempt : Z) (result : V)
    (output : NodeExecutionOutput) : store unit :=
  let event_type :=
    if bool_decide (persisted_status = "completed") then "node.completed"
    else if bool_decide (persisted_status = "awaiting_approval") then "node.awaiting_approval"
    else "node.failed" in
  _u <-! insert_workflow_run_event_locked run_id (Some node_id) event_type actor
    [("node_id", json_string node_id); ("executor_type", json_string (o_executor_type output));
     ("attempt", json_int attempt); ("result", result)] now ;;
  _u <-! append_audit now actor "workflow_run.node_tick" run_id
    [("node_id", json_string node_id); ("executor_type", json_string (o_executor_type output));
     ("status", json_string (o_status output)); ("attempt", json_int attempt);
     ("latency_ms", json_opt json_int (o_latency_ms output));
     ("error_domain", json_opt json_string (o_error_domain output))] ;;
  if bool_decide (task_type = "agent_step") then
    append_audit now "scheduler"
      (if bool_decide (o_status output = "completed") then "agent_step.execution_completed"
       else "agent_step.execution_failed") node_id
      [("run_id", json_string run_id); ("node_id", json_string node_id);
       ("status", json_string (o_status output)); ("attempt", json_int attempt)]
  else ret tt.

Record tick_result : Type := mkTickResult {
  action : string;
  tk_node_id : string;
  executor_type : string;
  tk_attempt : Z;
  tk_result : V;
  run : run_row;
}.

(** The result of an attempt whose lease is gone. *)
Definition ignore_stale (actor now : string) (identity : RecursiveCompletionIdentity V) (attempt : Z)
    (terminal_reason : option RecursiveFailureReason) (usage : option RecursiveUsageEvidence)
    (output : NodeExecutionOutput) : store tick_result :=
  _u <-! match rc_recursive_node_id identity with
         | Some recursive_node_id =>
           account_late_usage actor now recursive_node_id (rc_root identity) attempt
             terminal_reason usage
         | None => ret tt
         end ;;
  _u <-! append_audit now actor "workflow_node.stale_completion_ignored" node_id
    [("run_id", json_string run_id); ("node_id", json_string node_id);
     ("attempt", json_int attempt); ("executor_type", json_string (o_executor_type output));
     ("result_excluded", json_bool true)] ;;
  run <-! query (get_run_row run_id) ;;
  ret (mkTickResult "stale_completion_ignored" node_id (o_executor_type output) attempt
         (to_value output) run).

(** The status and the reason the tree decides for its workflow node. *)
Definition store_recursive_status (actual_status persisted_status : string)
    (recursive_node_id : option string) (failure_reason : option string) : store unit :=
  let failed := bool_decide (persisted_status = "failed") in
  if negb (bool_decide (persisted_status = actual_status)) || (is_some recursive_node_id && failed)
  then update_node (λ row, row
         <| wn_status := persisted_status |>
         <| wn_blocked_reason :=
              if failed then Some (default (FailureReason.reason_as_str
                                     FailureReason.ExecutionFailure) failure_reason)
              else None |>)
  else ret tt.

(** The result of the current attempt; the status its row is left with. *)
Definition store_result (actor now task_type : string) (identity : RecursiveCompletionIdentity V)
    (attempt : Z) (terminal_reason : option RecursiveFailureReason)
    (usage : option RecursiveUsageEvidence) (should_retry : bool) (actual_status : string)
    (output : NodeExecutionOutput) (product_managed_usage : option V) : store unit :=
  let recursive_identity := rc_recursive_node_id identity in
  recursive_status <-! match recursive_identity with
    | Some recursive_node_id =>
      status <-! settle_recursive now recursive_node_id (rc_root identity) attempt terminal_reason
        usage (bool_decide (o_status output = "completed")) should_retry ;;
      ret (Some status)
    | None => ret None
    end ;;
  let persisted_status := default actual_status recursive_status in
  failure_reason <-! match recursive_identity with
    | Some recursive_node_id => query (recursive_failure_reason recursive_node_id)
    | None => ret None
    end ;;
  _u <-! store_recursive_status actual_status persisted_status recursive_identity failure_reason ;;
  let result_json := to_value output in
  _u <-! (if rc_metadata_writable identity then
            update_node (λ row, row <| wn_node_json := json_print (settled_node_json
              persisted_status now result_json product_managed_usage (rc_node_json identity)) |>)
          else ret tt) ;;
  if should_retry then report_retry actor now task_type attempt output
  else report_end actor now task_type persisted_status attempt result_json output.

Definition record_result (actor : string) (clock : nat → string) (max_retries : Z)
    (mode : RecursiveUsageMode) (task_type : string) (attempt : Z) (output : NodeExecutionOutput)
    (product_managed_usage : option V) : store tick_result :=
  transaction (
    let now := clock 0%nat in
    row <-! query (λ db, query_row (workflow_run_nodes db !! (run_id, node_id))) ;;
    indexed_root <-! query (λ db, Ok (indexed_recursive_root run_id node_id db)) ;;
    identity <-! lift (resolve_recursive_completion_identity node_id (wn_node_json row)
      indexed_root (recursive_enabled env)) ;;
    charged <-! lift (recursive_usage_of identity output mode) ;;
    let '(terminal_reason, usage) := charged in
    should_retry <-! decide_retry (rc_recursive_node_id identity) terminal_reason usage output
      attempt max_retries ;;
    let actual_status := if is_some terminal_reason then "failed"
                         else if should_retry then "pending" else o_status output in
    finalized <-! finalize_node actual_status now attempt ;;
    if negb finalized
    then ignore_stale actor now identity attempt terminal_reason usage output
    else
      _u <-! store_result actor now task_type identity attempt terminal_reason usage should_retry
        actual_status output product_managed_usage ;;
      _u <-! propagate_failed_dependencies_locked run_id actor (clock 1%nat) ;;
      _t <-! conclude_run run_id actor (clock 2%nat) ;;
      run <-! query (get_run_row run_id) ;;
      ret (mkTickResult (if should_retry then "node_retry" else "node_executed") node_id
             (o_executor_type output) attempt (to_value output) run)).
End record.

(** ** A tick *)

Section tick.
Context (env : env_vars) (run_id : string).

(** What a tick reads for its executor in other tables and gets from its caller:
    the objective of the product task a node names (by task and fingerprint), the
    request of the run's plan, the workspace of the run and a command. *)
Record injection : Type := mkInjection {
  product_execution_objective : string → string → option string;
  raw_request : option V;
  workspace_path : option string;
  command_override : option string;
}.

Definition injected_prompt (inject : injection) (node_metadata : V) : option V :=
  let exact_product_prompt :=
    if bool_decide (json_pointer2 node_metadata "managed_supervised_patch" "operation" ≫= as_str
                    = Some "product_apply")
    then task_id ← json_get_str node_metadata "product_task_id";
         fingerprint ← json_get_str node_metadata "objective_fingerprint";
         json_string <$> product_execution_objective inject task_id fingerprint
    else None in
  match exact_product_prompt with
  | Some prompt => Some prompt
  | None => raw_request inject
  end.

(** [obj.insert(field, value)] when there is a value and [node_metadata] is an object. *)
Definition with_field (field : string) (value : option V) (node_metadata : V) : V :=
  match value, as_object node_metadata with
  | Some value, Some object => json_object (<[field := value]> object)
  | _, _ => node_metadata
  end.

(** The metadata the executor sees. *)
Definition prepared_metadata (inject : injection) (task_type : string) (node_metadata : V) : V :=
  let langgraph := bool_decide (task_type = LANGGRAPH_TASK_TYPE) in
  let prompt :=
    if is_none (command_override inject) && negb langgraph
       && is_none (json_get node_metadata "prompt") && is_none (json_get node_metadata "command")
    then injected_prompt inject node_metadata else None in
  let node_metadata := with_field "prompt" prompt node_metadata in
  let node_metadata := with_field "workspace_path"
    (if langgraph then None else json_string <$> workspace_path inject) node_metadata in
  with_field "command" (json_string <$> command_override inject) node_metadata.

(** Phase 2: an executor only runs the task types it is reserved for, and the
    tokens of a managed execution are settled before its result is recorded. *)
Definition execute_leased (executor_type : string) (execute : V → NodeExecutionOutput)
    (task_type : string) (node_metadata : V) : NodeExecutionOutput * option V :=
  let agent_executor := bool_decide (executor_type = "agent_step") in
  let output :=
    if reserved_executor_mismatch task_type executor_type
       || negb (Bool.eqb (bool_decide (task_type = "agent_step")) agent_executor)
    then mismatch_output task_type executor_type
    else execute node_metadata in
  enforce_product_managed_token_budget output node_metadata.

Inductive tick_outcome : Type :=
  | TickTerminal (action : string) (run : run_row)
  | TickNoReadyNode (run : run_row)
  | TickRecorded (result : tick_result).

(** [tick_with_executor_and_command_inner_for_owner] when nothing runs between
    its phases and its reads of other tables succeed; context injection is off. *)
Definition tick (actor : string) (lease_clock record_clock : nat → string) (max_retries : Z)
    (executor_type : string) (mode : RecursiveUsageMode) (execute : V → NodeExecutionOutput)
    (inject : injection) (caps : option (Z * Z)) (expected_owner : option string)
    : store tick_outcome :=
  lease <-! lease_ready_node env run_id actor lease_clock max_retries
    (bool_decide (executor_type = "agent_step")) caps expected_owner ;;
  match lease with
  | Terminal action run => ret (TickTerminal action run)
  | NoReadyNode run => ret (TickNoReadyNode run)
  | Leased node_id task_type _ attempt node_metadata =>
    let node_metadata := prepared_metadata inject task_type
      (claimed_metadata run_id node_id attempt node_metadata) in
    _u <-! (if bool_decide (task_type = "agent_step") then
              append_audit (lease_clock 3%nat) "scheduler" "agent_step.execution_started" node_id
                [("run_id", json_string run_id); ("node_id", json_string node_id);
                 ("attempt", json_int attempt)]
            else ret tt) ;;
    let '(output, usage) := execute_leased executor_type execute task_type node_metadata in
    result <-! record_result env run_id node_id actor record_clock max_retries mode task_type
      attempt output usage ;;
    ret (TickRecorded result)
  end.
End tick.

(** ** Stale leases *)

(** The recursive side of a stale lease: the node, its attempt, its JSON when
    that may be written, whether it is the root and whether it is malformed. *)
Record StaleRecursiveIdentity : Type := mkStaleIdentity {
  st_recursive_node_id : string;
  st_attempt : Z;
  st_node_json : option V;
  st_root : bool;
  st_malformed : bool;
}.

Definition stale_recursive_identity (env : env_vars) (node_id node_json : string)
    (attempt_count : Z) (indexed_root_node_id : option string)
    : result string (option StaleRecursiveIdentity) :=
  identity <-? resolve_recursive_completion_identity node_id node_json indexed_root_node_id
    (recursive_enabled env) ;;
  Ok ((λ recursive_node_id, mkStaleIdentity recursive_node_id attempt_count
        (if rc_metadata_writable identity then Some (rc_node_json identity) else None)
        (rc_root identity)
        (bool_decide (rc_terminal_reason identity
           = Some FailureReason.RecursiveNodeIdentityMalformed)))
      <$> rc_recursive_node_id identity).

(** What the tree says about running a stale node again. *)
Inductive stale_verdict : Type :=
  | RetryStale
  | GiveUpStale
  | MalformedStale
  | TreeMissing
  | NodeMissing.

Definition recovery_reason (verdict : stale_verdict) : string :=
  match verdict with
  | MalformedStale => "recursive_node_identity_malformed"
  | TreeMissing => "recursive_tree_missing"
  | NodeMissing => "recursive_node_missing"
  | RetryStale | GiveUpStale => "recursive_retry_exhausted"
  end.

Definition judge_stale (env : env_vars) (run_id : string) (state : StaleRecursiveIdentity)
    : store stale_verdict :=
  if st_malformed state then ret MalformedStale
  else
    allowed <-! attempt_store (recursive_retry_allowed env run_id (st_recursive_node_id state)
      recursive_retry_usage) ;;
    match allowed with
    | Ok allowed => ret (if (st_attempt state <=? MAX_RECURSIVE_RETRIES) && allowed
                         then RetryStale else GiveUpStale)
    | Err error =>
      if bool_decide (error = "recursive_tree_missing") then ret TreeMissing
      else if bool_decide (error = "recursive_node_missing") then ret NodeMissing
      else fail error
    end.

(** The status a stale row gets: [None] stands for a node without a tree. *)
Definition recovery_status (verdict : option stale_verdict) : string :=
  match verdict with
  | None | Some RetryStale => "pending"
  | Some _ => "failed"
  end.

Definition recovered_json (now status : string) (node_json : V) : V :=
  match as_object node_json with
  | None => node_json
  | Some object =>
    let object := <["status" := json_string status]> object in
    json_object (if bool_decide (status = "failed")
                 then <["completed_at" := json_string now]> object
                 else delete "completed_at" object)
  end.

(** [UPDATE .. WHERE status = 'running' AND leased_at = ?7]. *)
Definition recover_row (run_id node_id leased_at now : string) (verdict : option stale_verdict)
    (node_json : option V) : store bool :=
  row <-! query (λ db, Ok (workflow_run_nodes db !! (run_id, node_id))) ;;
  match row with
  | Some row =>
    if bool_decide (wn_status row = "running") && bool_decide (wn_leased_at row = Some leased_at)
    then
      let status := recovery_status verdict in
      let failed := bool_decide (status = "failed") in
      _u <-! execute (λ db, db <| workflow_run_nodes := <[(run_id, node_id) := row
        <| wn_status := status |>
        <| wn_completed_at := if failed then Some now else None |>
        <| wn_blocked_reason := if failed then recovery_reason <$> verdict else None |>
        <| wn_leased_at := None |>
        <| wn_node_json := match node_json with
             | Some node_json => json_print (recovered_json now status node_json)
             | None => wn_node_json row
             end |>]> (workflow_run_nodes db) |>) ;;
      ret true
    else ret false
  | None => ret false
  end.

(** The tree after a stale lease was taken back. *)
Definition recover_tree (env : env_vars) (run_id node_id now : string)
    (state : StaleRecursiveIdentity) (verdict : stale_verdict) : store unit :=
  let lease_id := claim_id run_id node_id (st_attempt state) in
  let missing action more :=
    append_audit now "scheduler" action node_id
      ([("run_id", json_string run_id); ("node_id", json_string node_id)] ++ more) in
  match verdict with
  | MalformedStale =>
    _s <-! (if st_root state
            then sync_recursive_root_terminal_failure run_id lease_id
                   FailureReason.RecursiveNodeIdentityMalformed now
            else sync_recursive_terminal_failure env run_id (st_recursive_node_id state) lease_id
                   FailureReason.RecursiveNodeIdentityMalformed now) ;;
    ret tt
  | TreeMissing =>
    missing "recursive.tree_missing_terminalized"
      [("reason", json_string "recursive_tree_missing")]
  | NodeMissing =>
    missing "recursive.node_missing_terminalized"
      [("recursive_node_id", json_string (st_recursive_node_id state));
       ("reason", json_string "recursive_node_missing")]
  | RetryStale | GiveUpStale =>
    _s <-! sync_recursive_stale_recovery run_id (st_recursive_node_id state) lease_id
      (match verdict with RetryStale => true | _ => false end) now ;;
    ret tt
  end.

(** [stale_lease_audit_payload] and the audit of an agent step. *)
Definition audit_recovery (run_id node_id leased_at now : string) (lease_timeout_ms : Z)
    : store unit :=
  _u <-! append_audit now "scheduler" "workflow_node.stale_lease_recovered" node_id
    [("run_id", json_string run_id); ("leased_at", json_string leased_at);
     ("lease_timeout_ms", json_int lease_timeout_ms)] ;;
  task_type <-! query (λ db, Ok (task_type_of run_id node_id db)) ;;
  if bool_decide (task_type = Some "agent_step") then
    append_audit now "scheduler" "agent_step.lease_expired" node_id
      [("run_id", json_string run_id); ("node_id", json_string node_id);
       ("leased_at", json_string leased_at); ("lease_timeout_ms", json_int lease_timeout_ms)]
  else ret tt.

(** One stale lease: the number of rows it changed. *)
Definition recover_stale_lease_of (env : env_vars) (now : string) (lease_timeout_ms : Z)
    (run_id node_id leased_at : string) : store Z :=
  row <-! query (λ db, Ok (workflow_run_nodes db !! (run_id, node_id))) ;;
  indexed_root <-! query (λ db, Ok (indexed_recursive_root run_id node_id db)) ;;
  state <-! match row with
            | Some row => lift (stale_recursive_identity env node_id (wn_node_json row)
                                  (wn_attempt_count row) indexed_root)
            | None => ret None
            end ;;
  verdict <-! match state with
              | Some state => v <-! judge_stale env run_id state ;; ret (Some v)
              | None => ret None
              end ;;
  updated <-! recover_row run_id node_id leased_at now verdict (state ≫= st_node_json) ;;
  if updated then
    _u <-! match state, verdict with
           | Some state, Some verdict => recover_tree env run_id node_id now state verdict
           | _, _ => ret tt
           end ;;
    _u <-! audit_recovery run_id node_id leased_at now lease_timeout_ms ;;
    ret 1
  else ret 0.

(** [STALE_LEASE_SELECT_SQL] and the filter on the lease time. *)
Definition stale_leases (parse_time : string → option Z) (now : string) (lease_timeout_ms : Z)
    (db : database) : list (string * string * string) :=
  omap (λ kr,
    if bool_decide (wn_status kr.2 = "running") then
      leased_at ← wn_leased_at kr.2;
      if stale_lease_is_expired parse_time leased_at now lease_timeout_ms
      then Some (kr.1.1, kr.1.2, leased_at) else None
    else None) (sql_rows (workflow_run_nodes db)).

Fixpoint recover_all (env : env_vars) (now : string) (lease_timeout_ms : Z)
    (stale : list (string * string * string)) : store Z :=
  match stale with
  | [] => ret 0
  | (run_id, node_id, leased_at) :: stale =>
    updated <-! recover_stale_lease_of env now lease_timeout_ms run_id node_id leased_at ;;
    rest <-! recover_all env now lease_timeout_ms stale ;;
    ret (updated + rest)
  end.

Definition recover_stale_leases (env : env_vars) (parse_time : string → option Z) (now : string)
    (lease_timeout_ms : Z) : store Z :=
  transaction (
    stale <-! query (λ db, Ok (stale_leases parse_time now lease_timeout_ms db)) ;;
    recover_all env now lease_timeout_ms stale).

(** ** Requests of operators, and what runs between the phases *)

Definition update_workflow_run_status_with_event (run_id status event_type actor : string)
    (reason : option string) (updated_at : string) : store unit :=
  let details := [("reason", json_opt json_string reason); ("metadata_only", json_bool true);
                  ("execution_authority", json_string "disabled")] in
  transaction (
    _u <-! query (ensure_run_exists_locked run_id) ;;
    run <-! query (λ db, query_row (workflow_runs db !! run_id)) ;;
    _u <-! lift (require_run_execution_owner run_id (wr_pause_reason run) None) ;;
    _u <-! update_workflow_run_status_locked run_id status updated_at ;;
    _u <-! insert_workflow_run_event_locked run_id None event_type actor details updated_at ;;
    append_audit updated_at actor event_type run_id details).

Definition request_workflow_run_resume (run_id actor : string) (reason : option string)
    (updated_at : string) : store unit :=
  update_workflow_run_status_with_event run_id "running" "workflow_resume_requested" actor reason
    updated_at.

Definition request_workflow_run_cancel (run_id actor : string) (reason : option string)
    (updated_at : string) : store unit :=
  update_workflow_run_status_with_event run_id "cancelled" "workflow_cancel_requested" actor reason
    updated_at.

Definition persist_context_injection (run_id node_id : string) (context_injection : V)
    : store unit :=
  row <-! query (λ db, query_row (workflow_run_nodes db !! (run_id, node_id))) ;;
  let node_json := default json_null (json_parse (wn_node_json row)) in
  let node_json :=
    match as_object node_json with
    | Some object => json_object (<["context_injection" := context_injection]> object)
    | None => node_json
    end in
  update_node run_id node_id (λ row, row <| wn_node_json := json_print node_json |>).

(** ** What a scheduler asks before a tick *)

(** Each round skips one more pending node: [fuel] bounds the rounds. *)
Fixpoint next_ready_loop (fuel : nat) (run_id : string) (caps : option (Z * Z)) (db : database)
    (skip : list string) (saw_capped_agent : bool) : option (option string) :=
  match fuel with
  | O => None
  | S fuel =>
    match find_ready_node_locked run_id skip None db with
    | None => Some (if saw_capped_agent then Some "agent_step" else None)
    | Some node_id =>
      let task_type := default EmptyString (task_type_of run_id node_id db) in
      let capped :=
        match caps with
        | Some (global_cap, per_run_cap) =>
          bool_decide (task_type = "agent_step")
          && ((as_i64_cast global_cap <=? count_running_agent_steps_locked db)
              || (as_i64_cast per_run_cap <=? count_running_agent_steps_for_run_locked run_id db))
        | None => false
        end in
      if capped then next_ready_loop fuel run_id caps db (skip ++ [node_id]) true
      else Some (Some task_type)
    end
  end.

Definition next_ready_workflow_node_task_type_with_agent_caps (run_id : string)
    (caps : option (Z * Z)) : store (option string) :=
  _u <-! query (ensure_run_exists_locked run_id) ;;
  db <-! query (λ db, Ok db) ;;
  unwrap (next_ready_loop (S (size (workflow_run_nodes db))) run_id caps db [] false).
End workflow_runs.

Arguments LeaseResult : clear implicits.
Arguments tick_result : clear implicits.
Arguments tick_outcome : clear implicits.
Arguments injection : clear implicits.
