(* ===== verification/WorkflowFrames.v ===== *)
(** * What the operations on runs leave alone

    A small logic of database relations: [always R m] says that [m] moves the
    database along [R] whatever it returns.  With it, the handlers of the tree
    store change workflow rows only by closing unfinished ones, and every
    scheduler operation is a sequence of steps of the tree store. *)

From S2P Require Import Prelude Text Json Float64 RecursiveExecution Persistence TreeStore TreeStoreProps TreeHistory NodeExecution WorkflowRuns.
Import FailureReason (RecursiveFailureReason).

Local Open Scope Z_scope.

(** ** Relations that hold across an operation *)

Definition always (R : database → database → Prop) {A} (m : store A) : Prop :=
  ∀ db r db', m db = Some (r, db') → R db db'.

Create HintDb frames.
#[export] Hint Extern 0 (PreOrder _) => typeclasses eauto : frames.

Section always.
Context (R : database → database → Prop) `{!PreOrder R}.

Lemma always_ret {A} (a : A) : always R (ret a).
Proof. by intros db r db' [= _ <-]. Qed.

Lemma always_fail {A} e : always R (fail (A:=A) e).
Proof. by intros db r db' [= _ <-]. Qed.

Lemma always_query {A} (f : database → result string A) : always R (query f).
Proof. by intros db r db' [_ ->]%query_inv. Qed.

Lemma always_lift {A} (x : result string A) : always R (lift x).
Proof. by intros db r db' [_ ->]%lift_inv. Qed.

Lemma always_unwrap {A} (o : option A) : always R (unwrap o).
Proof. by intros db r db' (_ & _ & _ & ->)%unwrap_inv. Qed.

Lemma always_tree_op {A} (x : tree_result A) : always R (tree_op x).
Proof. by intros db r db' [-> _]%tree_op_inv. Qed.

Lemma always_execute f : (∀ db, R db (f db)) → always R (execute f).
Proof. by intros H db r db' [= _ <-]. Qed.

Lemma always_bind {A B} (m : store A) (k : A → store B) :
  always R m → (∀ a, always R (k a)) → always R (bind m k).
Proof.
  intros Hm Hk db r db' [(e & H & _)|(a & db1 & H1 & H2)]%bind_inv; [by eapply Hm|].
  transitivity db1; [by eapply Hm|by eapply Hk].
Qed.

(** A query whose answer the rest relies on. *)
Lemma always_read {A B} (f : database → result string A) (k : A → store B) :
  (∀ db a r db', f db = Ok a → k a db = Some (r, db') → R db db') → always R (bind (query f) k).
Proof.
  intros Hk db r db' [(e & [_ ->]%query_inv & _)|(a & db1 & [E ->]%query_inv & H)]%bind_inv;
    [done|by eapply Hk].
Qed.

Lemma always_for_each {A} (l : list A) body : (∀ a, always R (body a)) → always R (for_each l body).
Proof. intros H db r db'. by apply (for_each_inv R). Qed.

Lemma always_transaction {A} (m : store A) : always R m → always R (transaction m).
Proof.
  intros Hm db r db'. unfold transaction. destruct (m db) as [[[a|e] db1]|] eqn:E; [|by intros [= _ <-]|done].
  intros [= _ <-]. by eapply Hm.
Qed.

Lemma always_attempt {A} (m : store A) : always R m → always R (attempt_store m).
Proof.
  intros Hm db r db'. unfold attempt_store. destruct (m db) as [[? ?]|] eqn:E; [|done].
  intros [= _ <-]. by eapply Hm.
Qed.
End always.

(** Walks through the structure of an operation. *)
Ltac walk_step :=
  match goal with
  | |- always _ (ret _) => apply always_ret
  | |- always _ (fail _) => apply always_fail
  | |- always _ (query _) => apply always_query
  | |- always _ (lift _) => apply always_lift
  | |- always _ (unwrap _) => apply always_unwrap
  | |- always _ (tree_op _) => apply always_tree_op
  | |- always _ (transaction _) => apply always_transaction
  | |- always _ (attempt_store _) => apply always_attempt
  | |- always _ (for_each _ _) => apply always_for_each; [typeclasses eauto|intros ?]
  | |- always _ (bind _ _) => apply always_bind; [typeclasses eauto| |intros ?]
  | |- always _ (match ?x with _ => _ end) => destruct x
  | |- always _ (let '(_, _) := ?x in _) => destruct x
  | |- PreOrder _ => typeclasses eauto
  end.
Ltac walk := repeat first [solve [eauto with frames nocore] | walk_step].

(** ** Workflow rows a tree closes *)

(** A row stays, or an unfinished one fails with its type and its attempts. *)
Inductive closes : option work_row → option work_row → Prop :=
  | closes_same o : closes o o
  | closes_fail row row' :
      unfinished row = true → wn_status row' = "failed" →
      wn_task_type row' = wn_task_type row → wn_attempt_count row' = wn_attempt_count row →
      closes (Some row) (Some row').

Lemma unfinished_failed row : wn_status row = "failed" → unfinished row = false.
Proof. unfold unfinished. by intros ->. Qed.

#[export] Instance closes_preorder : PreOrder closes.
Proof.
  split; [by constructor|]. intros o1 o2 o3 [?|r1 r2 U S T C] H; [done|].
  inversion H; subst; [by constructor|]. by rewrite unfinished_failed in *.
Qed.

Record tree_frame (db db' : database) : Prop := {
  tf_runs : workflow_runs db' = workflow_runs db;
  tf_edges : workflow_run_edges db' = workflow_run_edges db;
  tf_events : workflow_run_events db' = workflow_run_events db;
  tf_nodes : ∀ k, closes (workflow_run_nodes db !! k) (workflow_run_nodes db' !! k);
}.

#[export] Instance tree_frame_preorder : PreOrder tree_frame.
Proof.
  split; [by split; [done..|constructor]|]. intros ??? [?? ? H1] [?? ? H2].
  split; [congruence..|]. intros k. by transitivity (workflow_run_nodes y !! k).
Qed.

(** The workflow tables are untouched; only the trees and the audit log move. *)
Record same_workflow (db db' : database) : Prop := {
  sw_runs : workflow_runs db' = workflow_runs db;
  sw_nodes : workflow_run_nodes db' = workflow_run_nodes db;
  sw_edges : workflow_run_edges db' = workflow_run_edges db;
  sw_events : workflow_run_events db' = workflow_run_events db;
}.

#[export] Instance same_workflow_preorder : PreOrder same_workflow.
Proof. split; [by split|]. intros ??? [] []. split; congruence. Qed.

Lemma same_workflow_frame db db' : same_workflow db db' → tree_frame db db'.
Proof. intros [?? ? ?]. split; [done..|]. intros k. rewrite sw_nodes0. constructor. Qed.

Lemma always_weaken (R S : database → database → Prop) {A} (m : store A) :
  (∀ db db', R db db' → S db db') → always R m → always S m.
Proof. intros H Hm db r db' E. by eapply H, Hm. Qed.

Lemma close_row_frame db k row row' :
  workflow_run_nodes db !! k = Some row → unfinished row = true → wn_status row' = "failed" →
  wn_task_type row' = wn_task_type row → wn_attempt_count row' = wn_attempt_count row →
  tree_frame db (db <| workflow_run_nodes := <[k := row']> (workflow_run_nodes db) |>).
Proof.
  intros E U S T C. split; [done..|]. intros k'. cbn.
  destruct (decide (k = k')) as [<-|]; [|rewrite lookup_insert_ne by done; constructor].
  rewrite lookup_insert_eq, E. by constructor.
Qed.

Section handlers.
Context {V : Type} `{JV : JsonValue V} `{JT : JsonText V} `{SD : StoreDecoders V}.
Context `{Deps : RecursiveDeps} `{TE : TreeEncoder} `{RO : RowOrder}.

Lemma foldl_same {A} (f : database → A → database) (l : list A) db :
  (∀ db a, same_workflow db (f db a)) → same_workflow db (foldl f db l).
Proof.
  intros Hf. revert db. induction l as [|a l IH]; intros db; [done|]. cbn. by rewrite <-IH.
Qed.

Lemma write_tree_same t json now db : same_workflow db (write_tree t json now db).
Proof. unfold write_tree. etransitivity; [|by apply foldl_same]. by split. Qed.

Lemma persist_same t now exp b : always same_workflow (persist_recursive_tree_inner t now exp b).
Proof. unfold persist_recursive_tree_inner. walk. apply always_execute. apply write_tree_same. Qed.

Lemma persist_frame t now exp : always tree_frame (persist_recursive_tree t now exp).
Proof. eapply always_weaken; [apply same_workflow_frame|apply persist_same]. Qed.
#[local] Hint Resolve persist_same persist_frame : frames.

Lemma sync_terminal_frame t now : always tree_frame (sync_terminal_workflow_nodes t now).
Proof.
  apply always_for_each; [apply _|]. intros n. apply always_read; [apply _|].
  intros db o r db' [= Eo] H. destruct o as [row|]; [|by injection H as _ <-].
  destruct (unfinished row) eqn:U; cbn [negb] in H; [|by injection H as _ <-].
  apply bind_inv in H as [(e & [_ ->]%lift_inv & _)|(j & db2 & [_ ->]%lift_inv & H)]; [done|].
  case_match; [by injection H as _ <-|]. injection H as _ <-. by eapply close_row_frame.
Qed.
#[local] Hint Resolve sync_terminal_frame : frames.

Lemma load_existing_frame R `{!PreOrder R} run : always R (load_existing run).
Proof. unfold load_existing. walk. Qed.

Lemma contains_node_frame R `{!PreOrder R} t id : always R (contains_node t id).
Proof. unfold contains_node. walk. Qed.
#[local] Hint Resolve load_existing_frame contains_node_frame : frames.

Lemma retry_allowed_frame R `{!PreOrder R} env run id u :
  always R (recursive_retry_allowed env run id u).
Proof. unfold recursive_retry_allowed. walk. Qed.

Lemma lease_same env run id l now : always same_workflow (sync_recursive_lease env run id l now).
Proof. unfold sync_recursive_lease, persist_recursive_tree. walk. Qed.

Lemma ensure_same run wf id metadata now :
  always same_workflow (ensure_recursive_root_tree run wf id metadata now).
Proof. unfold ensure_recursive_root_tree, persist_recursive_tree. walk. Qed.

Lemma stale_recovery_frame run id l retry now :
  always tree_frame (sync_recursive_stale_recovery run id l retry now).
Proof. unfold sync_recursive_stale_recovery. walk. Qed.

Lemma completion_frame env run id l rid ok retry u now :
  always tree_frame (sync_recursive_completion_with_receipt env run id l rid ok retry u now).
Proof. unfold sync_recursive_completion_with_receipt, settle_attempt. walk. Qed.

Lemma root_completion_frame run l rid ok u now :
  always tree_frame (sync_recursive_root_completion_with_receipt run l rid ok u now).
Proof. unfold sync_recursive_root_completion_with_receipt. walk. Qed.

Lemma late_usage_frame run id rid u now :
  always tree_frame (record_recursive_late_usage run id rid u now).
Proof. unfold record_recursive_late_usage. walk. Qed.

Lemma root_late_usage_frame run rid u now :
  always tree_frame (record_recursive_root_late_usage run rid u now).
Proof. unfold record_recursive_root_late_usage. walk. Qed.

Lemma terminal_failure_frame env run id l reason now :
  always tree_frame (sync_recursive_terminal_failure env run id l reason now).
Proof.
  unfold sync_recursive_terminal_failure, sync_recursive_completion.
  pose proof completion_frame. walk.
Qed.

Lemma root_terminal_failure_frame run receipt reason now :
  always tree_frame (sync_recursive_root_terminal_failure run receipt reason now).
Proof.
  unfold sync_recursive_root_terminal_failure, sync_corrupt_recursive_root_terminal_failure,
    sync_recursive_root_completion.
  pose proof root_completion_frame.
  walk; apply always_execute; intros db; apply same_workflow_frame; [by split|by apply foldl_same].
Qed.

Lemma append_audit_same now actor action resource details :
  always same_workflow (append_audit now actor action resource details).
Proof. by apply always_execute. Qed.

Lemma append_audit_frame now actor action resource details :
  always tree_frame (append_audit now actor action resource details).
Proof. eapply always_weaken; [apply same_workflow_frame|apply append_audit_same]. Qed.
#[local] Hint Resolve append_audit_frame : frames.

Lemma still_live_unfinished row : still_live row = true → unfinished row = true.
Proof. unfold still_live, unfinished. do 2 case_bool_decide; cbn; done. Qed.

Lemma stop_workflow_node_frame run now reason id :
  always tree_frame (stop_workflow_node run now reason id).
Proof.
  apply always_read; [apply _|]. intros db [[run_row|] [row|]] r db' [= _ E] H;
    try by injection H as _ <-.
  destruct (still_live row) eqn:L; cbn [negb] in H; [|by injection H as _ <-].
  apply bind_inv in H as [(e & H & _)|(u & db1 & Ha & H)].
  - case_match; [by eapply append_audit_frame|by injection H as _ <-].
  - assert (tree_frame db db1 ∧ workflow_run_nodes db1 = workflow_run_nodes db) as [F N].
    { case_match; [|by injection Ha as _ <-]. split; [by eapply append_audit_frame|].
      by apply append_audit_same in Ha as []. }
    transitivity db1; [done|]. injection H as _ <-. eapply close_row_frame;
      [by rewrite N|by apply still_live_unfinished|done..].
Qed.
#[local] Hint Resolve stop_workflow_node_frame : frames.

Lemma pause_frame `{HO : HashOrder} paused why now :
  always tree_frame (set_recursive_execution_paused paused why now).
Proof.
  unfold set_recursive_execution_paused.
  apply always_transaction; [apply _|]. apply always_bind; [apply _|walk|].
  assert (∀ t now exp, always tree_frame (persist_recursive_tree_control_state t now exp)).
  { intros. eapply always_weaken; [apply same_workflow_frame|apply persist_same]. }
  intros rows. induction rows as [|[run row] rows IH]; cbn; [walk|].
  unfold reconcile_row, report_reconciled. walk.
Qed.
End handlers.

#[export] Hint Resolve retry_allowed_frame lease_same ensure_same stale_recovery_frame
  completion_frame root_completion_frame late_usage_frame root_late_usage_frame
  terminal_failure_frame root_terminal_failure_frame append_audit_same pause_frame : frames.

(** ** Scheduler operations as histories of the tree store *)

Section histories.
Context {V : Type} `{JV : JsonValue V} `{JT : JsonText V} `{JN : JsonNumbers V}.
Context `{SD : StoreDecoders V} `{Deps : RecursiveDeps} `{TE : TreeEncoder}.
Context `{RO : RowOrder} `{HO : HashOrder}.
Context (contract_from_value : V → option UsageContract.RecursiveUsageContract).

Abbreviation history := (rtc store_step).

Lemma other_history f : (∀ db, same_trees db (f db)) → always history (execute f).
Proof. intros H. apply always_execute. intros db. apply rtc_once, ss_handler, hs_other, H. Qed.

Lemma handler_history {A} (m : store A) :
  (∀ db r db', m db = Some (r, db') → handler_step db db') → always history m.
Proof. intros H db r db' E. by eapply rtc_once, ss_handler, H. Qed.

Lemma audit_history now actor action resource details :
  always history (append_audit now actor action resource details).
Proof. by apply other_history. Qed.

Lemma event_history run id ty actor details now :
  always history (insert_workflow_run_event_locked run id ty actor details now).
Proof. by apply other_history. Qed.

Lemma status_history run status now : always history (update_workflow_run_status_locked run status now).
Proof. by apply other_history. Qed.

Lemma update_node_history run id f : always history (update_node run id f).
Proof. by apply other_history. Qed.
#[local] Hint Resolve audit_history event_history status_history update_node_history : frames.
#[local] Hint Extern 1 (always history (execute _)) => by apply other_history : frames.
#[local] Hint Extern 2 (always history _) =>
  apply handler_history; intros ???; first [by apply hs_lease | by apply hs_recover
    | by apply hs_complete | by apply hs_complete_root | by apply hs_late | by apply hs_root_late
    | by apply hs_fail | by apply hs_fail_root] : frames.

Lemma ensure_history run wf id metadata now :
  always history (ensure_recursive_root_tree run wf id metadata now).
Proof. intros db r db' H. by eapply rtc_once, ss_ensure. Qed.
#[local] Hint Resolve ensure_history : frames.

Lemma propagate_history run actor now : always history (propagate_failed_dependencies_locked run actor now).
Proof.
  assert (∀ fuel, always history (propagate_loop fuel run actor now)) as H.
  { induction fuel as [|fuel IH]; [by intros ???|]. cbn [propagate_loop]. unfold block_child. walk. }
  intros db r db' E. by eapply H.
Qed.

Lemma conclude_history run actor now : always history (conclude_run run actor now).
Proof. unfold conclude_run. walk. Qed.
#[local] Hint Resolve propagate_history conclude_history : frames.

Lemma pick_history env run fuel now agent caps skip :
  always history (pick_node env run fuel now agent caps skip).
Proof.
  revert skip. induction fuel as [|fuel IH]; intros skip; [by intros ???|]. cbn [pick_node].
  unfold admit_candidate, recursive_cap_reached, agent_caps_admit, claim_conflict. walk.
Qed.
#[local] Hint Resolve pick_history : frames.

Lemma lease_history env run actor clock retries agent caps owner :
  always history (lease_ready_node env run actor clock retries agent caps owner).
Proof.
  unfold lease_ready_node, start_run, no_candidate, take_lease, claim_node, finish_lease,
    recursive_node_of. walk.
Qed.

Lemma record_history env run id actor clock retries mode ty attempt output usage :
  always history (record_result contract_from_value env run id actor clock retries mode ty attempt
                    output usage).
Proof.
  unfold record_result, decide_retry, finalize_node, ignore_stale, account_late_usage, late_audit,
    store_result, settle_recursive, store_recursive_status, report_retry, report_end. walk.
Qed.

Lemma recover_history env parse_time now timeout :
  always history (recover_stale_leases env parse_time now timeout).
Proof.
  unfold recover_stale_leases. apply always_transaction; [apply _|]. apply always_bind; [apply _|walk|].
  intros stale. induction stale as [|[[run id] l] stale IH]; cbn; [walk|].
  unfold recover_stale_lease_of, judge_stale, recover_row, recover_tree, audit_recovery.
  cbv zeta beta. walk.
Qed.

Lemma request_history run status ty actor reason now :
  always history (update_workflow_run_status_with_event run status ty actor reason now).
Proof. unfold update_workflow_run_status_with_event. walk. Qed.

Lemma context_history run id v : always history (persist_context_injection run id v).
Proof. unfold persist_context_injection. walk. Qed.
End histories.
