(* ===== verification/WorkflowProps.v ===== *)
(** * What the operations on runs do

    The queries as statements on the tables, the loops with their bounds, and
    the exact effect of taking a lease, of propagating a failure and of ending a
    run. *)

From S2P Require Import Prelude Text Json Float64 RecursiveExecution Persistence PersistenceProps TreeStore TreeStoreProps NodeExecution WorkflowRuns WorkflowFrames.
Import FailureReason (RecursiveFailureReason).

Local Open Scope Z_scope.

(** ** Lists and maps *)

Lemma find_Some_elem {A} (f : A → bool) (l : list A) x :
  List.find f l = Some x → x ∈ l ∧ f x = true.
Proof. intros [H ?]%find_some. split; [by apply list_elem_of_In|done]. Qed.

Lemma find_None_elem {A} (f : A → bool) (l : list A) :
  List.find f l = None → ∀ x, x ∈ l → f x = false.
Proof. intros H x Hx. by eapply find_none, list_elem_of_In. Qed.

Lemma find_elem_Some {A} (f : A → bool) (l : list A) x :
  x ∈ l → f x = true → ∃ y, List.find f l = Some y.
Proof.
  intros Hx Hf. destruct (List.find f l) eqn:E; [by eexists|].
  rewrite (find_None_elem _ _ E x Hx) in Hf. done.
Qed.

Lemma omap_length_le {A B} (f : A → option B) (l : list A) : (length (omap f l) ≤ length l)%nat.
Proof. induction l as [|x l IH]; [done|]. cbn. destruct (f x); cbn; lia. Qed.

Lemma size_filter_le {K A} `{Countable K} (P Q : K * A → Prop) `{∀ x, Decision (P x), ∀ x, Decision (Q x)}
    (m m' : gmap K A) :
  (∀ k x, m' !! k = Some x → Q (k, x) → ∃ y, m !! k = Some y ∧ P (k, y)) →
  (size (filter Q m') ≤ size (filter P m))%nat.
Proof.
  intros HPQ. rewrite <- !size_dom. apply subseteq_size. intros k Hk.
  apply elem_of_dom in Hk as [x [Hx HQ]%map_lookup_filter_Some].
  destruct (HPQ k x Hx HQ) as (y & Hy & HP). apply elem_of_dom. exists y.
  by apply map_lookup_filter_Some.
Qed.

(** Only the audit log differs. *)
Definition audited (db db' : database) : Prop := ∃ log, db' = db <| audit_log := log |>.

#[export] Instance audited_preorder : PreOrder audited.
Proof.
  split; [intros db; exists (audit_log db); by destruct db|].
  intros ??? [l1 ->] [l2 ->]. by exists l2.
Qed.

(** Only runs, events and the audit log differ. *)
Definition bookkept (db db' : database) : Prop := ∃ runs events log,
  db' = db <| workflow_runs := runs |> <| workflow_run_events := events |> <| audit_log := log |>.

#[export] Instance bookkept_preorder : PreOrder bookkept.
Proof.
  split; [intros db; exists (workflow_runs db), (workflow_run_events db), (audit_log db); by destruct db|].
  intros ??? (? & ? & ? & ->) (r & e & l & ->). by exists r, e, l.
Qed.

Lemma audited_bookkept db db' : audited db db' → bookkept db db'.
Proof. intros [log ->]. by exists (workflow_runs db), (workflow_run_events db), log. Qed.

(** The nodes and the edges of the runs are untouched. *)
Definition same_nodes (db db' : database) : Prop :=
  workflow_run_nodes db' = workflow_run_nodes db ∧ workflow_run_edges db' = workflow_run_edges db.

#[export] Instance same_nodes_preorder : PreOrder same_nodes.
Proof. split; [done|]. intros ??? [] []. split; congruence. Qed.

Lemma bookkept_same_nodes db db' : bookkept db db' → same_nodes db db'.
Proof. by intros (? & ? & ? & ->). Qed.

Lemma same_workflow_nodes db db' : same_workflow db db' → same_nodes db db'.
Proof. by intros []. Qed.

Lemma audited_same db db' : audited db db' → same_workflow db db'.
Proof. intros [log ->]. by split. Qed.

Section props.
Context {V : Type} `{JV : JsonValue V} `{JT : JsonText V} `{JN : JsonNumbers V}.
Context `{SD : StoreDecoders V} `{Deps : RecursiveDeps} `{TE : TreeEncoder} `{RO : RowOrder}.

(** ** Queries *)

Lemma elem_of_sql_rows {A} (m : gmap (string * string) A) k x :
  (k, x) ∈ sql_rows m ↔ m !! k = Some x.
Proof. by rewrite sql_rows_perm, elem_of_map_to_list. Qed.

Lemma elem_of_run_nodes run db id row :
  (id, row) ∈ run_nodes run db ↔ workflow_run_nodes db !! (run, id) = Some row.
Proof.
  unfold run_nodes. rewrite list_elem_of_omap. split.
  - intros ([[run' id'] row'] & H%elem_of_sql_rows & E). cbn in E. case_bool_decide; [|done]. naive_solver.
  - intros H. exists ((run, id), row). cbn. rewrite bool_decide_true by done.
    split; [by apply elem_of_sql_rows|done].
Qed.

Lemma elem_of_predecessor_statuses run id db s :
  s ∈ predecessor_statuses run id db ↔
  ∃ eid e row, workflow_run_edges db !! (run, eid) = Some e ∧ we_to_node_id e = id
    ∧ workflow_run_nodes db !! (run, we_from_node_id e) = Some row ∧ wn_status row = s.
Proof.
  unfold predecessor_statuses. rewrite list_elem_of_omap. split.
  - intros ([[run' eid] e] & H%elem_of_sql_rows & E). cbn in E.
    case_bool_decide; [|done]. case_bool_decide; [|done]. cbn in E. subst run'.
    apply fmap_Some in E as (row & ? & ->). by exists eid, e, row.
  - intros (eid & e & row & He & <- & Hr & <-). exists ((run, eid), e). cbn.
    rewrite !bool_decide_true by done. cbn. rewrite Hr. split; [by apply elem_of_sql_rows|done].
Qed.

Lemma elem_of_pending_nodes run db id :
  id ∈ pending_nodes run db ↔
  ∃ row, workflow_run_nodes db !! (run, id) = Some row ∧ wn_status row = "pending".
Proof.
  unfold pending_nodes, sort_strings. rewrite elem_of_sort_by, list_elem_of_fmap. split.
  - intros ([id' row] & -> & [? ?%elem_of_run_nodes]%list_elem_of_filter). by exists row.
  - intros (row & ? & ?). exists (id, row). split; [done|]. apply list_elem_of_filter.
    split; [done|by apply elem_of_run_nodes].
Qed.

(** Every node [id] waits for has a status its type accepts. *)
Definition dependencies_met (run id : string) (row : work_row) (db : database) : Prop :=
  ∀ eid e parent, workflow_run_edges db !! (run, eid) = Some e → we_to_node_id e = id →
    workflow_run_nodes db !! (run, we_from_node_id e) = Some parent →
    dependency_met (wn_task_type row) (wn_status parent) = true.

Lemma is_ready_spec run skip agent db id :
  is_ready run skip agent db id = true ↔
  ∃ row, workflow_run_nodes db !! (run, id) = Some row ∧ (id ∉ skip)
    ∧ executor_matches agent (wn_task_type row) = true ∧ dependencies_met run id row db.
Proof.
  unfold is_ready. destruct (workflow_run_nodes db !! (run, id)) as [row|]; [|naive_solver].
  rewrite !andb_true_iff, negb_true_iff, bool_decide_eq_false, forallb_forall. split.
  - intros [[Hs Hm] H]. exists row. split_and!; [done..|]. intros eid e p He Hto Hp.
    apply H, list_elem_of_In, elem_of_predecessor_statuses. by exists eid, e, p.
  - intros (row' & [= <-] & Hs & Hm & H). split_and!; [done..|]. intros s Hi%list_elem_of_In.
    apply elem_of_predecessor_statuses in Hi as (eid & e & p & He & Hto & Hp & <-). by eapply H.
Qed.

Lemma find_ready_Some run skip agent db id :
  find_ready_node_locked run skip agent db = Some id →
  ∃ row, workflow_run_nodes db !! (run, id) = Some row ∧ wn_status row = "pending" ∧ (id ∉ skip)
    ∧ executor_matches agent (wn_task_type row) = true ∧ dependencies_met run id row db.
Proof.
  intros [(row & Hr & Hp)%elem_of_pending_nodes Hready]%find_Some_elem.
  apply is_ready_spec in Hready as (row' & Hr' & ?). rewrite Hr in Hr'. injection Hr' as <-.
  by exists row.
Qed.

Lemma candidate_Some run skip agent db id :
  candidate run skip agent db = Some id →
  ∃ row, workflow_run_nodes db !! (run, id) = Some row ∧ wn_status row = "pending" ∧ (id ∉ skip)
    ∧ dependencies_met run id row db.
Proof.
  unfold candidate. destruct (find_ready_node_locked run skip (Some agent) db) eqn:E.
  - intros [= ->]. apply find_ready_Some in E as (row & ? & ? & ? & ? & ?). by exists row.
  - destruct skip; [|done]. intros (row & ? & ? & ? & ? & ?)%find_ready_Some. by exists row.
Qed.

(** ** The search for a candidate *)

Lemma append_audit_audited now actor action resource details :
  always audited (append_audit now actor action resource details).
Proof. apply always_execute. intros db. by eexists. Qed.
#[local] Hint Resolve append_audit_audited : frames.

Lemma recursive_cap_audited run now id : always audited (recursive_cap_reached run now id).
Proof. unfold recursive_cap_reached, claim_conflict. walk. Qed.

Lemma admit_audited env run now id caps : always audited (admit_candidate env run now id caps).
Proof.
  unfold admit_candidate, recursive_cap_reached, agent_caps_admit, claim_conflict. walk.
Qed.

Lemma pick_audited env run fuel now agent caps skip :
  always audited (pick_node env run fuel now agent caps skip).
Proof.
  revert skip. induction fuel as [|fuel IH]; intros skip; [by intros ???|]. cbn [pick_node].
  pose proof admit_audited. walk.
Qed.

(** Why the caps let a candidate through; [agent]: it was counted as an agent step. *)
Definition admitted (env : env_vars) (run id : string) (caps : option (Z * Z)) (agent : bool)
    (db : database) : Prop :=
  if bool_decide (default EmptyString (task_type_of run id db) = "agent_step") then
    (recursive_enabled env = true → ∃ recursive, workflow_node_is_recursive_locked run id db = Ok recursive
      ∧ (recursive = true → ∃ n, count_running_recursive_steps_locked db = Ok n
          ∧ n < MAX_RECURSIVE_LEASES))
    ∧ match caps with
      | None => agent = false
      | Some (global_cap, per_run_cap) => agent = true
          ∧ count_running_agent_steps_locked db < as_i64_cast global_cap
          ∧ count_running_agent_steps_for_run_locked run db < as_i64_cast per_run_cap
      end
  else agent = false.

Lemma bind_Ok {A B} (m : store A) (k : A → store B) db b db' :
  bind m k db = Some (Ok b, db') → ∃ a db1, m db = Some (Ok a, db1) ∧ k a db1 = Some (Ok b, db').
Proof. intros [(e & _ & [=])|(a & db1 & ? & ?)]%bind_inv. by exists a, db1. Qed.

Lemma query_Ok {A} (f : database → result string A) db a db' :
  query f db = Some (Ok a, db') → f db = Ok a ∧ db' = db.
Proof. by intros [<- ->]%query_inv. Qed.

Lemma lift_Ok {A} (x : result string A) db a db' : lift x db = Some (Ok a, db') → x = Ok a ∧ db' = db.
Proof. by intros [<- ->]%lift_inv. Qed.

Lemma query_bind {A B} (f : database → result string A) (k : A → store B) db :
  bind (query f) k db = match f db with Ok a => k a db | Err e => Some (Err e, db) end.
Proof. unfold bind, query. by destruct (f db). Qed.

Lemma recursive_cap_open run now id db db' :
  recursive_cap_reached run now id db = Some (Ok false, db') →
  ∃ recursive, workflow_node_is_recursive_locked run id db = Ok recursive
    ∧ (recursive = true → ∃ n, count_running_recursive_steps_locked db = Ok n
        ∧ n < MAX_RECURSIVE_LEASES).
Proof.
  unfold recursive_cap_reached. rewrite query_bind.
  destruct (workflow_node_is_recursive_locked run id db) as [[]|]; [|by exists false|done].
  rewrite query_bind. destruct (count_running_recursive_steps_locked db) as [n|] eqn:E; [|done].
  destruct (Z.leb_spec MAX_RECURSIVE_LEASES n); [done|]. intros _. exists true. split; [done|].
  intros _. by exists n.
Qed.

Lemma agent_caps_open run now id g p db db' :
  agent_caps_admit run now id g p db = Some (Ok true, db') →
  count_running_agent_steps_locked db < as_i64_cast g
  ∧ count_running_agent_steps_for_run_locked run db < as_i64_cast p.
Proof.
  unfold agent_caps_admit. rewrite !query_bind.
  destruct (Z.leb_spec (as_i64_cast g) (count_running_agent_steps_locked db)); [done|].
  by destruct (Z.leb_spec (as_i64_cast p) (count_running_agent_steps_for_run_locked run db)).
Qed.

Lemma admit_Some env run now id caps db a db' :
  admit_candidate env run now id caps db = Some (Ok (Some a), db') → admitted env run id caps a db.
Proof.
  unfold admit_candidate, admitted. rewrite query_bind. case_bool_decide as Ht; cbn [negb];
    [|by intros [= <-]].
  intros (capped & db1 & Hc & H)%bind_Ok. destruct capped; [done|].
  assert (audited db db1) as [log ->].
  { destruct (recursive_enabled env); [|injection Hc as <-; done].
    by eapply recursive_cap_audited. }
  split.
  - intros He. rewrite He in Hc. by eapply recursive_cap_open.
  - destruct caps as [[g p]|]; [|by injection H as <-].
    apply bind_Ok in H as (ok & db2 & H & E). destruct ok; [|done]. injection E as <- _.
    split; [done|]. exact (agent_caps_open _ _ _ _ _ _ _ H).
Qed.

Lemma pick_Some env run fuel now agent caps skip db id a db' :
  pick_node env run fuel now agent caps skip db = Some (Ok (Some (id, a)), db') →
  ∃ skip', candidate run skip' agent db = Some id ∧ admitted env run id caps a db.
Proof.
  revert skip db. induction fuel as [|fuel IH]; intros skip db; [done|]. cbn [pick_node].
  rewrite query_bind. destruct (candidate run skip agent db) as [id'|] eqn:Ec; [|done].
  intros (o & db1 & Ha & H)%bind_Ok. destruct (admit_audited _ _ _ _ _ _ _ _ Ha) as [log ->].
  destruct o as [a'|]; [|by apply IH in H].
  injection H as -> ->. exists skip. split; [done|]. by eapply admit_Some.
Qed.

Definition total {A} (m : store A) : Prop := ∀ db, m db ≠ None.

Lemma total_bind {A B} (m : store A) (k : A → store B) :
  total m → (∀ a, total (k a)) → total (bind m k).
Proof.
  intros Hm Hk db. unfold bind. specialize (Hm db). destruct (m db) as [[[a|e] db1]|]; [|done..].
  apply Hk.
Qed.

Lemma total_query {A} (f : database → result string A) : total (query f).
Proof. done. Qed.
Lemma total_execute f : total (execute f).
Proof. done. Qed.

Ltac walk_total :=
  repeat first
    [ solve [intros ?; done]
    | match goal with
      | |- total (bind _ _) => apply total_bind; [|intros ?]
      | |- total (match ?x with _ => _ end) => destruct x
      end ].

Lemma admit_total env run now id caps : total (admit_candidate env run now id caps).
Proof. unfold admit_candidate, recursive_cap_reached, agent_caps_admit, claim_conflict. walk_total. Qed.

Lemma length_pending run db : (length (pending_nodes run db) ≤ size (workflow_run_nodes db))%nat.
Proof.
  unfold pending_nodes, sort_strings. rewrite length_sort_by, length_fmap.
  etransitivity; [apply length_filter|]. unfold run_nodes. etransitivity; [apply omap_length_le|].
  by rewrite sql_rows_perm, length_map_to_list.
Qed.

(** Each round of the search has fewer pending nodes left. *)
Definition unskipped (run : string) (skip : list string) (db : database) : nat :=
  length (filter (λ id, id ∉ skip) (pending_nodes run db)).

Lemma length_filter_lt {A} (P Q : A → Prop) `{∀ x, Decision (P x), ∀ x, Decision (Q x)} (l : list A) x :
  (∀ y, Q y → P y) → x ∈ l → P x → ¬ Q x → (length (filter Q l) < length (filter P l))%nat.
Proof.
  intros HQP Hx HP HQ. assert (∀ k, (length (filter Q k) ≤ length (filter P k))%nat) as Hle.
  { induction k as [|y k IH]; [done|]. rewrite !filter_cons. repeat case_decide; cbn; naive_solver lia. }
  induction Hx as [y l|y z l ? IH]; rewrite !filter_cons.
  - rewrite decide_False, decide_True by done. cbn. specialize (Hle l). lia.
  - repeat case_decide; cbn; naive_solver lia.
Qed.

Lemma unskipped_lt run skip agent db id :
  candidate run skip agent db = Some id →
  (unskipped run (skip ++ [id]) db < unskipped run skip db)%nat.
Proof.
  intros (row & Hr & Hp & Hs & _)%candidate_Some. apply (length_filter_lt _ _ _ id).
  - intros y Hy Hin. apply Hy, elem_of_app. by left.
  - apply elem_of_pending_nodes. eauto.
  - done.
  - intros H. apply H, elem_of_app. right. by apply list_elem_of_singleton.
Qed.

Lemma pick_total env run fuel now agent caps skip db :
  (unskipped run skip db < fuel)%nat → pick_node env run fuel now agent caps skip db ≠ None.
Proof.
  revert skip db. induction fuel as [|fuel IH]; intros skip db Hf; [lia|]. cbn [pick_node].
  rewrite query_bind. destruct (candidate run skip agent db) as [id|] eqn:Ec; [|done].
  unfold bind. pose proof (admit_total env run now id caps db) as Ht.
  destruct (admit_candidate env run now id caps db) as [[[o|e] db1]|] eqn:Ea; [|done..].
  destruct (admit_audited _ _ _ _ _ _ _ _ Ea) as [log ->]. destruct o; [done|].
  apply IH. change (unskipped run (skip ++ [id]) db < fuel)%nat.
  apply unskipped_lt in Ec. lia.
Qed.

(** ** Taking a lease *)

Lemma event_bookkept run id ty actor details now :
  always bookkept (insert_workflow_run_event_locked run id ty actor details now).
Proof. apply always_execute. intros db. by eexists _, _, _. Qed.

Lemma status_bookkept run status now : always bookkept (update_workflow_run_status_locked run status now).
Proof. apply always_execute. intros db. by eexists _, _, _. Qed.

Lemma append_audit_bookkept now actor action resource details :
  always bookkept (append_audit now actor action resource details).
Proof. eapply always_weaken; [apply audited_bookkept|apply append_audit_audited]. Qed.
#[local] Hint Resolve event_bookkept status_bookkept append_audit_bookkept : frames.

Lemma start_bookkept run actor now retries status : always bookkept (start_run run actor now retries status).
Proof. unfold start_run. walk. Qed.

Lemma conclude_bookkept run actor now : always bookkept (conclude_run run actor now).
Proof. unfold conclude_run. walk. Qed.

Lemma bookkept_always {A} (m : store A) : always bookkept m → always same_nodes m.
Proof. by apply always_weaken, bookkept_same_nodes. Qed.

Lemma same_workflow_always {A} (m : store A) : always same_workflow m → always same_nodes m.
Proof. by apply always_weaken, same_workflow_nodes. Qed.
#[local] Hint Resolve bookkept_always same_workflow_always : frames.

Lemma finish_same env run actor now id : always same_nodes (finish_lease env run actor now id).
Proof. unfold finish_lease, recursive_node_of. walk. Qed.

Lemma finish_Leased env run actor now id db lease db' :
  finish_lease env run actor now id db = Some (Ok lease, db') →
  ∃ row meta wf, workflow_run_nodes db !! (run, id) = Some row
    ∧ json_parse (wn_node_json row) = Some meta
    ∧ lease = Leased id (wn_task_type row) wf (wn_attempt_count row) meta.
Proof.
  unfold finish_lease, task_type_of. rewrite !query_bind.
  destruct (workflow_run_nodes db !! (run, id)) as [row|]; [|done]. cbn [fmap option_fmap option_map default query_row ok_or].
  intros (meta & db1 & [E ->]%lift_Ok & H)%bind_Ok. apply ok_or_Ok in E. case_match; [done|].
  apply bind_Ok in H as (o & db2 & _ & H). apply bind_Ok in H as (? & db3 & _ & H).
  apply bind_Ok in H as (? & db4 & _ & H). apply bind_Ok in H as (? & db5 & _ & H).
  injection H as <- _. by eexists row, meta, _.
Qed.

Lemma claim_inv run now id caps agent recursive db b db' :
  claim_node run now id caps agent recursive db = Some (Ok b, db') →
  if b then ∃ row, workflow_run_nodes db !! (run, id) = Some row ∧ wn_status row = "pending"
              ∧ db' = db <| workflow_run_nodes := <[(run, id) := leased_row now row]> (workflow_run_nodes db) |>
  else db' = db.
Proof.
  unfold claim_node. rewrite query_bind. destruct (claim_guard _ _ _ _ _) as [g|]; [|done].
  rewrite query_bind. destruct (workflow_run_nodes db !! (run, id)) as [row|]; [|by intros [= <- <-]].
  destruct g; cbn [andb]; [|by intros [= <- <-]]. case_bool_decide; [|by intros [= <- <-]].
  intros (? & db1 & [= _ <-] & [= <- <-])%bind_Ok. by exists row.
Qed.

Lemma transaction_Ok {A} (m : store A) db a db' :
  transaction m db = Some (Ok a, db') → m db = Some (Ok a, db').
Proof. unfold transaction. by destruct (m db) as [[[]]|]. Qed.

Lemma transaction_Err {A} (m : store A) db e db' : transaction m db = Some (Err e, db') → db' = db.
Proof. unfold transaction. destruct (m db) as [[[]]|]; naive_solver. Qed.

(** What a lease was granted on. *)
Record granted (env : env_vars) (run id : string) (caps : option (Z * Z)) (now : string)
    (row : work_row) (db db' : database) : Prop := {
  gr_row : workflow_run_nodes db !! (run, id) = Some row;
  gr_pending : wn_status row = "pending";
  gr_ready : dependencies_met run id row db;
  gr_admitted : ∃ agent, admitted env run id caps agent db;
  gr_nodes : workflow_run_nodes db' = <[(run, id) := leased_row now row]> (workflow_run_nodes db);
  gr_edges : workflow_run_edges db' = workflow_run_edges db;
}.

Lemma take_inv env run actor now id caps agent db lease db' :
  take_lease env run actor now id caps agent db = Some (Ok lease, db') →
  (∃ r, lease = NoReadyNode r ∧ same_nodes db db')
  ∨ ∃ row meta wf, workflow_run_nodes db !! (run, id) = Some row ∧ wn_status row = "pending"
      ∧ json_parse (wn_node_json row) = Some meta
      ∧ lease = Leased id (wn_task_type row) wf (wn_attempt_count row + 1) meta
      ∧ workflow_run_nodes db' = <[(run, id) := leased_row now row]> (workflow_run_nodes db)
      ∧ workflow_run_edges db' = workflow_run_edges db.
Proof.
  unfold take_lease. intros (rc & db1 & [_ ->]%query_Ok & H)%bind_Ok.
  apply bind_Ok in H as (b & db1 & Hc & H). apply claim_inv in Hc. destruct b.
  - destruct Hc as (row & Hr & Hp & ->). right.
    pose proof (finish_same _ _ _ _ _ _ _ _ H) as [En Ee].
    apply finish_Leased in H as (row' & meta & wf & Hr' & Hm & ->).
    cbn in Hr'. rewrite lookup_insert_eq in Hr'. injection Hr' as <-. by exists row, meta, wf.
  - subst db1. left. apply bind_Ok in H as (? & db2 & Ha & H).
    apply bind_Ok in H as (r & db3 & [_ ->]%query_Ok & [= <- <-]). exists r. split; [done|].
    destruct agent; [|by injection Ha as _ <-].
    eapply bookkept_same_nodes, append_audit_bookkept, Ha.
Qed.

(** ** Failed dependencies *)

(** A pending node that can never run: a parent failed or can never run. *)
Inductive doomed (run : string) (db : database) : string → Prop :=
  | doomed_parent id row eid e parent :
      workflow_run_nodes db !! (run, id) = Some row → wn_status row = "pending" →
      workflow_run_edges db !! (run, eid) = Some e → we_to_node_id e = id →
      workflow_run_nodes db !! (run, we_from_node_id e) = Some parent →
      blocks_children (wn_status parent) = true → doomed run db id
  | doomed_step id row eid e :
      workflow_run_nodes db !! (run, id) = Some row → wn_status row = "pending" →
      workflow_run_edges db !! (run, eid) = Some e → we_to_node_id e = id →
      doomed run db (we_from_node_id e) → doomed run db id.

Lemma doomed_pending run db id :
  doomed run db id → ∃ row, workflow_run_nodes db !! (run, id) = Some row ∧ wn_status row = "pending".
Proof. destruct 1; eauto. Qed.

Definition blocked_row (now : string) (row : work_row) : work_row :=
  row <| wn_status := "blocked" |>
      <| wn_blocked_reason := Some "failed_dependency" |>
      <| wn_completed_at := Some now |>.

(** [db] is [db0] with the doomed nodes [S] blocked. *)
Record blocked_to (run now : string) (S : gset string) (db0 db : database) : Prop := {
  bt_runs : workflow_runs db = workflow_runs db0;
  bt_edges : workflow_run_edges db = workflow_run_edges db0;
  bt_trees : same_trees db0 db;
  bt_doomed : ∀ id, id ∈ S → doomed run db0 id;
  bt_hit : ∀ id, id ∈ S →
    workflow_run_nodes db !! (run, id) = blocked_row now <$> workflow_run_nodes db0 !! (run, id);
  bt_rest : ∀ k, ¬ (k.1 = run ∧ k.2 ∈ S) → workflow_run_nodes db !! k = workflow_run_nodes db0 !! k;
}.

Lemma blocked_to_refl run now db : blocked_to run now ∅ db db.
Proof. split; [done..| |done|done]; set_solver. Qed.

Lemma blocked_to_row run now S db0 db id row :
  blocked_to run now S db0 db → workflow_run_nodes db !! (run, id) = Some row →
  (id ∈ S ∧ wn_status row = "blocked")
  ∨ ((id ∉ S) ∧ workflow_run_nodes db0 !! (run, id) = Some row).
Proof.
  intros H Hr. destruct (decide (id ∈ S)) as [Hi|Hi].
  - left. split; [done|]. rewrite (bt_hit _ _ _ _ _ H id Hi) in Hr.
    by apply fmap_Some in Hr as (? & _ & ->).
  - right. split; [done|]. rewrite (bt_rest _ _ _ _ _ H (run, id)) in Hr; [done|]. cbn. naive_solver.
Qed.

Lemma blocked_children_doomed run now S db0 db id :
  blocked_to run now S db0 db → id ∈ blocked_children run db → (id ∉ S) ∧ doomed run db0 id.
Proof.
  intros H Hid. unfold blocked_children in Hid. apply list_elem_of_fmap in Hid as ([id' row] & -> & Hid).
  apply list_elem_of_filter in Hid as [[Hp Hf] Hr%elem_of_run_nodes]. cbn [fst snd] in *.
  destruct (blocked_to_row _ _ _ _ _ _ _ H Hr) as [[_ Hb]|[Hn Hr0]]; [by rewrite Hb in Hp|].
  split; [done|]. unfold has_failed_parent in Hf. apply existsb_exists in Hf as (st & Hs & Hb).
  apply list_elem_of_In, elem_of_predecessor_statuses in Hs as (eid & e & p & He & Hto & Hpr & <-).
  rewrite (bt_edges _ _ _ _ _ H) in He.
  destruct (blocked_to_row _ _ _ _ _ _ _ H Hpr) as [[Hi _]|[_ Hp0]].
  - eapply doomed_step; [done..|]. by eapply bt_doomed.
  - by eapply doomed_parent.
Qed.

Lemma block_child_ok run actor now S db0 db id :
  blocked_to run now S db0 db → id ∉ S → doomed run db0 id →
  ∃ db', block_child run actor now id db = Some (Ok tt, db') ∧ blocked_to run now ({[id]} ∪ S) db0 db'.
Proof.
  intros H Hn Hd. destruct (doomed_pending _ _ _ Hd) as (row & Hr & Hp).
  assert (Hr' : workflow_run_nodes db !! (run, id) = Some row).
  { rewrite (bt_rest _ _ _ _ _ H); [done|]. cbn. naive_solver. }
  unfold block_child. rewrite query_bind, Hr'. rewrite bool_decide_true by done.
  eexists. split; [reflexivity|]. destruct H as [E1 E2 E3 D Hh Hrest]. split; [done..| | |].
  - intros i [->%elem_of_singleton|Hi]%elem_of_union; [done|by apply D].
  - intros i Hi. cbn. destruct (decide (id = i)) as [<-|Hne].
    + by rewrite lookup_insert_eq, Hr.
    + rewrite lookup_insert_ne by congruence. apply Hh. set_solver.
  - intros k Hk. cbn. rewrite lookup_insert_ne; [apply Hrest; set_solver|].
    intros <-. apply Hk. cbn. set_solver.
Qed.

Lemma block_children_ok run actor now l S db0 db :
  NoDup l → blocked_to run now S db0 db → (∀ id, id ∈ l → (id ∉ S) ∧ doomed run db0 id) →
  ∃ db', for_each l (block_child run actor now) db = Some (Ok tt, db')
    ∧ blocked_to run now (list_to_set l ∪ S) db0 db'.
Proof.
  revert S db. induction l as [|id l IH]; intros S db Hl H Hd.
  { exists db. split; [done|]. by replace (list_to_set [] ∪ S) with S by set_solver. }
  apply NoDup_cons in Hl as [Hi Hl]. cbn [for_each].
  destruct (Hd id) as [Hn Hdi]; [by left|].
  destruct (block_child_ok _ actor _ _ _ _ _ H Hn Hdi) as (db1 & E1 & H1).
  destruct (IH ({[id]} ∪ S) db1 Hl H1) as (db2 & E2 & H2).
  { intros i Hil. destruct (Hd i); [by right|]. split; [|done]. set_solver. }
  exists db2. unfold bind. rewrite E1. split; [done|].
  replace (list_to_set (id :: l) ∪ S) with (list_to_set l ∪ ({[id]} ∪ S)) by set_solver. done.
Qed.

Lemma run_nodes_nodup run db : NoDup (run_nodes run db).*1.
Proof.
  unfold run_nodes. pose proof (NoDup_fst_map_to_list (workflow_run_nodes db)) as H.
  rewrite <-sql_rows_perm in H. induction (sql_rows (workflow_run_nodes db)) as [|[[r i] row] l IH]; [constructor|].
  cbn in *. apply NoDup_cons in H as [Hn H]. case_bool_decide as E; [|by apply IH].
  cbn. apply NoDup_cons. split; [|by apply IH]. intros Hin. apply Hn.
  apply list_elem_of_fmap in Hin as ([i' row'] & Ei & Hin). cbn in Ei. subst i'.
  apply list_elem_of_omap in Hin as ([[r' i'] row''] & Hin & E'). cbn in E'.
  case_bool_decide; [|done]. simplify_eq. apply list_elem_of_fmap. by eexists (_, _, _).
Qed.

Lemma blocked_children_nodup run db : NoDup (blocked_children run db).
Proof.
  unfold blocked_children. pose proof (run_nodes_nodup run db) as H.
  eapply sublist_NoDup; [exact H|]. apply fmap_sublist, sublist_filter.
Qed.

Lemma blocked_to_size run now S db0 db :
  blocked_to run now S db0 db → (size S ≤ size (workflow_run_nodes db0))%nat.
Proof.
  intros H. change (size S) with (length (elements S)).
  rewrite <-(length_fmap (pair run)), <-length_map_to_list, <-(length_fmap fst (map_to_list _)).
  apply submseteq_length, NoDup_submseteq.
  { apply NoDup_fmap_2; [intros ?? [=]; done|]. apply NoDup_elements. }
  intros k (id & -> & Hi%elem_of_elements)%list_elem_of_fmap.
  apply (bt_doomed _ _ _ _ _ H) in Hi. destruct (doomed_pending _ _ _ Hi) as (row & Hr & _).
  apply list_elem_of_fmap. exists ((run, id), row). split; [done|]. by apply elem_of_map_to_list.
Qed.

Lemma propagate_loop_ok run actor now fuel S db0 db :
  blocked_to run now S db0 db → (size (workflow_run_nodes db0) < fuel + size S)%nat →
  ∃ S' db', propagate_loop fuel run actor now db = Some (Ok tt, db')
    ∧ blocked_to run now S' db0 db' ∧ blocked_children run db' = [].
Proof.
  revert S db. induction fuel as [|fuel IH]; intros S db H Hf.
  { pose proof (blocked_to_size _ _ _ _ _ H). lia. }
  cbn [propagate_loop]. rewrite query_bind. destruct (blocked_children run db) as [|id l] eqn:Eb.
  { by exists S, db. }
  rewrite <-Eb. pose proof (blocked_children_nodup run db) as Hn.
  destruct (block_children_ok run actor now (blocked_children run db) S db0 db) as (db1 & E1 & H1);
    [done|done|intros i; by eapply blocked_children_doomed|].
  unfold bind. rewrite E1. eapply IH; [done|].
  assert (id ∉ S) as Hi.
  { eapply (blocked_children_doomed _ _ _ _ _ _ H). rewrite Eb. by left. }
  assert (size ({[id]} ∪ S) ≤ size (list_to_set (blocked_children run db) ∪ S))%nat as Hs.
  { apply subseteq_size. rewrite Eb. set_solver. }
  rewrite size_union, size_singleton in Hs by set_solver. lia.
Qed.

(** Exactly the doomed nodes are blocked. *)
Lemma propagate_ok run actor now db :
  ∃ S db', propagate_failed_dependencies_locked run actor now db = Some (Ok tt, db')
    ∧ blocked_to run now S db db' ∧ ∀ id, doomed run db id → id ∈ S.
Proof.
  destruct (propagate_loop_ok run actor now (S (size (workflow_run_nodes db))) ∅ db db)
    as (X & db' & E & H & Hb); [apply blocked_to_refl|lia|].
  exists X, db'. split_and!; [done..|].
  assert (Hclosed : ∀ id row eid e parent, workflow_run_nodes db !! (run, id) = Some row →
    wn_status row = "pending" → workflow_run_edges db !! (run, eid) = Some e → we_to_node_id e = id →
    workflow_run_nodes db' !! (run, we_from_node_id e) = Some parent →
    blocks_children (wn_status parent) = true → id ∈ X).
  { intros id row eid e p Hr Hp He Hto Hpr Hbl. destruct (decide (id ∈ X)) as [|Hn]; [done|].
    assert (id ∈ blocked_children run db') as Hin; [|rewrite Hb in Hin; by apply not_elem_of_nil in Hin].
    apply list_elem_of_fmap. exists (id, row). split; [done|]. apply list_elem_of_filter. cbn.
    split; [split; [done|]|].
    - apply existsb_exists. exists (wn_status p). split; [|done].
      apply list_elem_of_In, elem_of_predecessor_statuses. rewrite (bt_edges _ _ _ _ _ H). by exists eid, e, p.
    - apply elem_of_run_nodes. rewrite (bt_rest _ _ _ _ _ H); [done|]. cbn. naive_solver. }
  induction 1 as [id row eid e p Hr Hp He Hto Hpr Hbl|id row eid e Hr Hp He Hto Hd IHd].
  - eapply Hclosed; [done..| |exact Hbl]. rewrite (bt_rest _ _ _ _ _ H); [done|].
    intros [_ Hx]. apply (bt_doomed _ _ _ _ _ H), doomed_pending in Hx as (q & Hq & Hqp). cbn in Hq.
    rewrite Hpr in Hq. injection Hq as ->. rewrite Hqp in Hbl. by vm_compute in Hbl.
  - destruct (doomed_pending _ _ _ Hd) as (q & Hq & _).
    eapply Hclosed; [done..| |]; [by rewrite (bt_hit _ _ _ _ _ H _ IHd), Hq|done].
Qed.

(** ** The end of a run *)

Definition all_ended (run : string) (db : database) : Prop :=
  ∀ id row, workflow_run_nodes db !! (run, id) = Some row → node_done (wn_status row) = true.

Definition some_failed (run : string) (db : database) : Prop :=
  ∃ id row, workflow_run_nodes db !! (run, id) = Some row ∧ node_failed (wn_status row) = true.

(** The verdict on a run whose nodes have all ended. *)
Definition verdict (run : string) (db : database) (status : string) : Prop :=
  (some_failed run db ∧ status = "failed") ∨ (¬ some_failed run db ∧ status = "completed").

Lemma completion_spec run db :
  ((check_run_completion_locked run db).1 = true ↔ all_ended run db)
  ∧ ((check_run_completion_locked run db).2 = true ↔ some_failed run db).
Proof.
  assert (check_run_completion_locked run db =
    (forallb node_done (wn_status ∘ snd <$> run_nodes run db),
     existsb node_failed (wn_status ∘ snd <$> run_nodes run db))) as ->.
  { unfold check_run_completion_locked. by destruct (_ <$> run_nodes run db). }
  cbn [fst snd]. rewrite forallb_forall, existsb_exists. split; split.
  - intros H id row Hr. apply H, list_elem_of_In, list_elem_of_fmap. exists (id, row).
    by rewrite elem_of_run_nodes.
  - intros H st ([id row] & -> & Hr%elem_of_run_nodes)%list_elem_of_In%list_elem_of_fmap. by eapply H.
  - intros (st & ([id row] & -> & Hr%elem_of_run_nodes)%list_elem_of_In%list_elem_of_fmap & Hf).
    by exists id, row.
  - intros (id & row & Hr & Hf). exists (wn_status row). split; [|done].
    apply list_elem_of_In, list_elem_of_fmap. exists (id, row). by rewrite elem_of_run_nodes.
Qed.

Lemma conclude_inv run actor now db o db' :
  conclude_run run actor now db = Some (Ok o, db') →
  match o with
  | Some status => all_ended run db ∧ verdict run db status
      ∧ workflow_runs db' = alter (with_run_status status now) run (workflow_runs db)
  | None => ¬ all_ended run db ∧ db' = db
  end.
Proof.
  unfold conclude_run. rewrite query_bind. destruct (completion_spec run db) as [Ha Hf].
  destruct (check_run_completion_locked run db) as [[] failed]; cbn [fst snd] in *.
  - intros (? & db1 & [= _ <-] & H)%bind_Ok. apply bind_Ok in H as (? & db2 & [= _ <-] & H).
    apply bind_Ok in H as (details & db3 & [_ ->]%query_Ok & H).
    apply bind_Ok in H as (? & db4 & [= _ <-] & [= <- <-]). split_and!; [by apply Ha| |done].
    destruct failed; [left|right]; split; [by apply Hf|done| |done]. by intros ?%Hf.
  - intros [= <- <-]. split; [|done]. by intros ?%Ha.
Qed.

(** A run whose boundaries are JSON is concluded without an error. *)
Definition boundaries_parse (run : string) (db : database) : Prop :=
  ∃ row, workflow_runs db !! run = Some row ∧ is_Some (json_parse (wr_boundaries_json row)).

Lemma conclude_ok run actor now db :
  boundaries_parse run db → ∃ o db', conclude_run run actor now db = Some (Ok o, db').
Proof.
  intros (row & Hr & [v Hv]). unfold conclude_run. rewrite query_bind.
  destruct (check_run_completion_locked run db) as [[] failed]; [|by eexists _, _].
  unfold bind, update_workflow_run_status_locked, insert_workflow_run_event_locked, execute, query.
  unfold workflow_run_terminal_audit_details_locked. cbn. rewrite lookup_alter_eq, Hr. cbn. rewrite Hv.
  by eexists _, _.
Qed.

(** ** Leases *)

(** The doomed nodes of [run] are blocked and nothing else changed. *)
Definition blocks_doomed (run now : string) (db db' : database) : Prop := ∃ S : gset string,
  (∀ id, id ∈ S ↔ doomed run db id)
  ∧ workflow_run_edges db' = workflow_run_edges db
  ∧ (∀ id, id ∈ S →
      workflow_run_nodes db' !! (run, id) = blocked_row now <$> workflow_run_nodes db !! (run, id))
  ∧ (∀ k, ¬ (k.1 = run ∧ k.2 ∈ S) → workflow_run_nodes db' !! k = workflow_run_nodes db !! k).

Lemma blocked_to_doomed run now S db db' :
  blocked_to run now S db db' → (∀ id, doomed run db id → id ∈ S) → blocks_doomed run now db db'.
Proof. intros [] HS. exists S. split_and!; [|done..]. intros id. split; eauto. Qed.

Lemma blocks_doomed_same run now db db1 db' :
  blocks_doomed run now db db1 → same_nodes db1 db' → blocks_doomed run now db db'.
Proof.
  intros (S & HS & He & Hh & Hr) [E1 E2]. exists S. split_and!; [done|congruence|by rewrite E1..].
Qed.

Lemma doomed_ext run db db' id : same_nodes db db' → doomed run db id → doomed run db' id.
Proof.
  intros [En Ee]. induction 1; [eapply doomed_parent|eapply doomed_step]; rewrite ?En, ?Ee; eauto.
Qed.

Lemma blocks_doomed_from run now db db1 db' :
  same_nodes db db1 → blocks_doomed run now db1 db' → blocks_doomed run now db db'.
Proof.
  intros [E1 E2] (S & HS & He & Hh & Hr). rewrite E1 in Hh, Hr. exists S.
  split_and!; [|congruence|done..]. intros id. rewrite HS. by split; apply doomed_ext.
Qed.

Lemma propagate_inv run actor now db r db' :
  propagate_failed_dependencies_locked run actor now db = Some (r, db') →
  blocks_doomed run now db db' ∧ workflow_runs db' = workflow_runs db ∧ r = Ok tt.
Proof.
  destruct (propagate_ok run actor now db) as (S & db1 & E & Hb & Hd). rewrite E. intros [= <- <-].
  split; [by eapply blocked_to_doomed|]. split; [by apply Hb|done].
Qed.

(** The two ways a search without a candidate ends. *)
Inductive closing (run now : string) (db db' : database) : LeaseResult V → Prop :=
  | closing_idle r :
      ¬ all_ended run db' → workflow_runs db' = workflow_runs db →
      closing run now db db' (NoReadyNode r)
  | closing_ended r status :
      all_ended run db' → verdict run db' status →
      workflow_runs db' = alter (with_run_status status now) run (workflow_runs db) →
      workflow_runs db' !! run = Some r → closing run now db db' (Terminal status r).

Lemma no_candidate_inv run actor clock db lease db' :
  no_candidate run actor clock db = Some (Ok lease, db') →
  blocks_doomed run (clock 1%nat) db db' ∧ closing run (clock 2%nat) db db' lease.
Proof.
  unfold no_candidate. intros (? & db1 & (Hb & Er & _)%propagate_inv & H)%bind_Ok.
  apply bind_Ok in H as (o & db2 & Hc & H).
  pose proof (conclude_bookkept _ _ _ _ _ _ Hc) as (runs & events & log & Eb).
  apply bind_Ok in H as (row & db3 & [Hrow%ok_or_Ok ->]%query_Ok & [= <- <-]).
  split; [eapply blocks_doomed_same; [done|by subst db2]|].
  apply conclude_inv in Hc. rewrite Er in Hc. destruct o as [status|].
  - destruct Hc as (Ha & Hv & Hw). constructor; [by subst db2|by subst db2|done..].
  - destruct Hc as [Ha ->]. by constructor.
Qed.

(** The outcomes of the first phase of a tick. *)
Inductive lease_outcome (env : env_vars) (run : string) (clock : nat → string) (caps : option (Z * Z))
    (db db' : database) : LeaseResult V → Prop :=
  | lease_granted id row meta wf :
      granted env run id caps (clock 1%nat) row db db' → json_parse (wn_node_json row) = Some meta →
      lease_outcome env run clock caps db db'
        (Leased id (wn_task_type row) wf (wn_attempt_count row + 1) meta)
  | lease_lost r : same_nodes db db' → lease_outcome env run clock caps db db' (NoReadyNode r)
  | lease_closing db1 lease :
      bookkept db db1 → blocks_doomed run (clock 1%nat) db db' →
      closing run (clock 2%nat) db1 db' lease → lease_outcome env run clock caps db db' lease.

(** A run that may be ticked by [owner]. *)
Definition tickable (run : string) (owner : option string) (db : database) : Prop :=
  ∃ row, workflow_runs db !! run = Some row ∧ is_run_terminal (wr_status row) = false
    ∧ require_run_execution_owner run (wr_pause_reason row) owner = Ok ().

Lemma lease_inv env run actor clock retries agent caps owner db lease db' :
  lease_ready_node env run actor clock retries agent caps owner db = Some (Ok lease, db') →
  tickable run owner db ∧ lease_outcome env run clock caps db db' lease.
Proof.
  unfold lease_ready_node. intros H%transaction_Ok.
  apply bind_Ok in H as (? & ? & [_ ->]%query_Ok & H).
  apply bind_Ok in H as (row & ? & [Hrow%ok_or_Ok ->]%query_Ok & H).
  apply bind_Ok in H as ([] & ? & [Ho ->]%lift_Ok & H).
  destruct (is_run_terminal (wr_status row)) eqn:Et; [done|]. split; [by exists row|].
  apply bind_Ok in H as (? & db1 & Hs & H). pose proof (start_bookkept _ _ _ _ _ _ _ _ Hs) as Hbk.
  apply bind_Ok in H as (n & ? & [_ ->]%query_Ok & H).
  apply bind_Ok in H as (picked & db2 & Hp & H).
  pose proof (pick_audited _ _ _ _ _ _ _ _ _ _ Hp) as Ha.
  assert (bookkept db db2) as (runs & events & log & E2).
  { etransitivity; [exact Hbk|]. by apply audited_bookkept. }
  destruct picked as [[id a]|].
  - apply pick_Some in Hp as (skip & Hc & Had). apply candidate_Some in Hc as (r1 & Hr1 & Hp1 & _ & Hd).
    destruct Hbk as (runs1 & ev1 & log1 & ->).
    apply take_inv in H as [(r & -> & Hsame)|(r2 & meta & wf & Hr2 & _ & Hm & -> & Hn & He)].
    + constructor. destruct Hsame. by subst db2.
    + subst db2. cbn in Hr1, Hr2. rewrite Hr1 in Hr2. injection Hr2 as <-.
      constructor; [|done]. split; [done..|by exists a|done|done].
  - apply no_candidate_inv in H as [Hb Hc]. subst db2. eapply lease_closing; [|eapply blocks_doomed_from; [|exact Hb]; by split|exact Hc].
    by eexists _, _, _.
Qed.
End props.
