(* ===== verification/WorkflowSteps.v ===== *)
(** * Histories of the scheduler

    No operation but a lease makes a node running or counts an attempt: this is
    [calm].  A recorded result changes the row of its node only when the row
    still belongs to that attempt. *)

From S2P Require Import Prelude Text Json Float64 RecursiveExecution Persistence PersistenceProps TreeStore TreeStoreProps NodeExecution WorkflowRuns WorkflowFrames WorkflowProps.
Import FailureReason (RecursiveFailureReason).

Local Open Scope Z_scope.

(** ** Rows *)

(** What no operation but a lease changes. *)
Definition shape (row : work_row) : string * Z := (wn_task_type row, wn_attempt_count row).

Record calm_row (o o' : option work_row) : Prop := {
  ca_shape : shape <$> o' = shape <$> o;
  ca_running : ∀ row', o' = Some row' → wn_status row' = "running" →
    ∃ row, o = Some row ∧ wn_status row = "running";
}.

#[export] Instance calm_row_preorder : PreOrder calm_row.
Proof.
  split; [split; [done|eauto]|]. intros o1 o2 o3 [S1 R1] [S2 R2]. split; [congruence|].
  intros row3 E3 H3. destruct (R2 _ E3 H3) as (row2 & E2 & H2). eauto.
Qed.

Definition calm (db db' : database) : Prop :=
  workflow_run_edges db' = workflow_run_edges db
  ∧ ∀ k, calm_row (workflow_run_nodes db !! k) (workflow_run_nodes db' !! k).

#[export] Instance calm_preorder : PreOrder calm.
Proof.
  split; [done|]. intros ??? [E1 H1] [E2 H2]. split; [congruence|]. intros k. by transitivity (workflow_run_nodes y !! k).
Qed.

Lemma calm_same db db' : same_nodes db db' → calm db db'.
Proof. intros [En Ee]. split; [done|]. intros k. by rewrite En. Qed.

Lemma calm_frame db db' : tree_frame db db' → calm db db'.
Proof.
  intros [_ Ee _ Hn]. split; [done|]. intros k. destruct (Hn k) as [|row row' U S T C]; [done|].
  split; [cbn; unfold shape; congruence|]. intros ? [= <-]. congruence.
Qed.

Lemma calm_update db k row row' :
  workflow_run_nodes db !! k = Some row → shape row' = shape row →
  (wn_status row' = "running" → wn_status row = "running") →
  calm db (db <| workflow_run_nodes := <[k := row']> (workflow_run_nodes db) |>).
Proof.
  intros E S R. split; [done|]. intros k'. cbn.
  destruct (decide (k = k')) as [<-|]; [|by rewrite lookup_insert_ne].
  rewrite lookup_insert_eq, E. split; [cbn; congruence|]. intros ? [= <-]. eauto.
Qed.

Section steps.
Context {V : Type} `{JV : JsonValue V} `{JT : JsonText V} `{JN : JsonNumbers V}.
Context `{SD : StoreDecoders V} `{Deps : RecursiveDeps} `{TE : TreeEncoder} `{RO : RowOrder}.
Context (contract_from_value : V → option UsageContract.RecursiveUsageContract).

Lemma calm_blocks run now db db' : blocks_doomed run now db db' → calm db db'.
Proof.
  intros (S & HS & Ee & Hh & Hr). split; [done|]. intros [run' id].
  destruct (decide (run' = run ∧ id ∈ S)) as [[-> Hi]|Hn]; [|by rewrite Hr].
  rewrite Hh by done. split; [by destruct (_ !! _)|].
  by intros ? (row & _ & ->)%fmap_Some ?.
Qed.

Lemma calm_same_always {A} (m : store A) : always same_nodes m → always calm m.
Proof. by apply always_weaken, calm_same. Qed.

Lemma calm_frame_always {A} (m : store A) : always tree_frame m → always calm m.
Proof. by apply always_weaken, calm_frame. Qed.

Lemma calm_event run id ty actor details now :
  always calm (insert_workflow_run_event_locked run id ty actor details now).
Proof. apply calm_same_always, bookkept_always, event_bookkept. Qed.

Lemma calm_status run status now : always calm (update_workflow_run_status_locked run status now).
Proof. apply calm_same_always, bookkept_always, status_bookkept. Qed.

Lemma calm_audit now actor action resource details :
  always calm (append_audit now actor action resource details).
Proof. apply calm_same_always, bookkept_always, append_audit_bookkept. Qed.

Lemma calm_conclude run actor now : always calm (conclude_run run actor now).
Proof. apply calm_same_always, bookkept_always, conclude_bookkept. Qed.

Lemma calm_propagate run actor now : always calm (propagate_failed_dependencies_locked run actor now).
Proof. intros db r db' [H _]%propagate_inv. by eapply calm_blocks. Qed.

(** An update that keeps the shape of the row and does not start it. *)
Lemma calm_update_node run id f :
  (∀ row, shape (f row) = shape row) →
  (∀ row, wn_status (f row) = "running" → wn_status row = "running") →
  always calm (update_node run id f).
Proof.
  intros Hs Hr. apply always_execute. intros db. split; [done|]. intros k. cbn.
  destruct (decide (k = (run, id))) as [->|]; [|by rewrite lookup_alter_ne].
  rewrite lookup_alter_eq. destruct (_ !! _) as [row|]; [|done].
  split; [cbn; by rewrite Hs|]. intros ? [= <-] ?. eauto.
Qed.
#[local] Hint Resolve calm_event calm_status calm_audit calm_conclude calm_propagate
  calm_same_always calm_frame_always : frames.
#[local] Hint Extern 1 (always calm (update_node _ _ _)) => by apply calm_update_node : frames.

(** ** A recorded result *)

Lemma always_bind_Ok R `{!PreOrder R} {A B} (m : store A) (k : A → store B) :
  always R m → (∀ a db db', m db = Some (Ok a, db') → always R (k a)) → always R (bind m k).
Proof.
  intros Hm Hk db r db' [(e & H & _)|(a & db1 & H1 & H2)]%bind_inv; [by eapply Hm|].
  transitivity db1; [by eapply Hm|by eapply Hk].
Qed.

(** What an operation can return. *)
Definition returns {A} (P : A → Prop) (m : store A) : Prop :=
  ∀ db a db', m db = Some (Ok a, db') → P a.

Lemma returns_bind {A B} (P : B → Prop) (m : store A) (k : A → store B) :
  (∀ a, returns P (k a)) → returns P (bind m k).
Proof. intros H db b db' (a & db1 & _ & E)%bind_Ok. by eapply H. Qed.

Lemma returns_ret {A} (P : A → Prop) a : P a → returns P (ret a).
Proof. by intros H db a' db' [= <- _]. Qed.

Lemma returns_lift {A B} (P : B → Prop) (x : result string A) (k : A → store B) :
  (∀ a, x = Ok a → returns P (k a)) → returns P (bind (lift x) k).
Proof. intros H db b db' (a & db1 & [? ->]%lift_Ok & E)%bind_Ok. by eapply H. Qed.

Ltac walk_returns :=
  repeat match goal with
    | |- returns _ (bind (lift _) _) => apply returns_lift; intros ? ?
    | |- returns _ (bind _ _) => apply returns_bind; intros ?
    | |- returns _ (ret _) => apply returns_ret
    | |- returns _ (fail _) => by intros ???
    | |- returns _ (match ?x with _ => _ end) => destruct x
    end.

(** The tree never reports a node as running, and as pending neither. *)
Lemma settle_status env run id now rid root attempt reason usage ok retry :
  returns (λ s, s ∈ ["ready"; "leased"; "completed"; "failed"])
    (settle_recursive env run id now rid root attempt reason usage ok retry).
Proof.
  assert (∀ st, NodeStatus.status_as_str st ∈ ["ready"; "leased"; "completed"; "failed"]) as Hst.
  { intros st. apply (bool_decide_unpack _). by destruct st. }
  unfold settle_recursive, sync_recursive_root_terminal_failure, sync_recursive_terminal_failure,
    sync_corrupt_recursive_root_terminal_failure, sync_recursive_root_completion_with_receipt,
    sync_recursive_completion_with_receipt.
  walk_returns; try first [apply (Hst NodeStatus.Failed) | apply Hst].
  all: match goal with H : ok_or (_ <$> _) _ = Ok _ |- _ =>
         apply ok_or_Ok, fmap_Some in H as (? & _ & ->); apply Hst end.
Qed.

Lemma calm_finalize run id status now attempt : always calm (finalize_node run id status now attempt).
Proof.
  apply always_read; [apply _|]. intros db o r db' [= E] H. destruct o as [row|]; [|by injection H as _ <-].
  destruct (bool_decide_reflect (wn_status row = "running")); cbn [andb] in H; [|by injection H as _ <-].
  destruct (_ =? _); [|by injection H as _ <-]. injection H as _ <-. by eapply calm_update.
Qed.

Lemma calm_recursive_status run id actual o rid reason :
  (∀ s, o = Some s → s ≠ "running") →
  always calm (store_recursive_status run id actual (default actual o) rid reason).
Proof.
  intros Hs. unfold store_recursive_status. case_match eqn:E; [|walk].
  apply calm_update_node; [done|]. cbn. intros row Hrun. exfalso. destruct o as [s|]; cbn in *.
  - by eapply Hs.
  - subst actual. rewrite bool_decide_true in E by done. by destruct rid.
Qed.

Lemma calm_store_result env run id actor now ty identity attempt reason usage retry status output pmu :
  always calm (store_result env run id actor now ty identity attempt reason usage retry status output pmu).
Proof.
  unfold store_result. apply always_bind_Ok; [apply _|unfold settle_recursive; walk|].
  intros o db db' Ho. assert (∀ s, o = Some s → s ≠ "running") as Hs.
  { intros s -> ->. destruct (rc_recursive_node_id identity); [|done].
    apply bind_Ok in Ho as (s' & db1 & Hs & [= -> _]). apply settle_status in Hs.
    by apply (bool_decide_pack _) in Hs. }
  pose proof (calm_recursive_status run id status o). unfold report_retry, report_end. walk.
Qed.

Lemma calm_late run id actor now rid root attempt reason usage :
  always tree_frame (account_late_usage run id actor now rid root attempt reason usage).
Proof.
  unfold account_late_usage, late_audit. pose proof same_workflow_frame as Hw.
  assert (∀ now actor action resource details, always tree_frame (append_audit now actor action resource details)).
  { intros. eapply always_weaken; [apply Hw|apply append_audit_same]. }
  walk.
Qed.

Lemma calm_record env run id actor clock retries mode ty attempt output usage :
  always calm (record_result contract_from_value env run id actor clock retries mode ty attempt
                 output usage).
Proof.
  unfold record_result, decide_retry, ignore_stale.
  pose proof calm_finalize. pose proof calm_store_result. pose proof calm_late. walk.
Qed.

(** ** Other operations *)

Lemma calm_recover_row run id leased_at now verdict json :
  always calm (recover_row run id leased_at now verdict json).
Proof.
  apply always_read; [apply _|]. intros db o r db' [= E] H. destruct o as [row|]; [|by injection H as _ <-].
  destruct (bool_decide_reflect (wn_status row = "running")); cbn [andb] in H; [|by injection H as _ <-].
  case_match; [|by injection H as _ <-]. injection H as _ <-. by eapply calm_update.
Qed.

Lemma calm_recover env parse_time now timeout :
  always calm (recover_stale_leases env parse_time now timeout).
Proof.
  unfold recover_stale_leases. apply always_transaction; [apply _|]. apply always_bind; [apply _|walk|].
  intros stale. induction stale as [|[[run id] l] stale IH]; cbn; [walk|].
  unfold recover_stale_lease_of, judge_stale, recover_tree, audit_recovery. cbv zeta beta.
  pose proof calm_recover_row. walk.
Qed.

Lemma calm_request run status ty actor reason now :
  always calm (update_workflow_run_status_with_event run status ty actor reason now).
Proof. unfold update_workflow_run_status_with_event. walk. Qed.

Lemma calm_context run id v : always calm (persist_context_injection run id v).
Proof. unfold persist_context_injection. walk. Qed.

Lemma calm_pause `{HO : HashOrder} paused why now :
  always calm (set_recursive_execution_paused paused why now).
Proof. apply calm_frame_always, pause_frame. Qed.

(** ** Results whose lease is gone *)

Definition holds_lease (run id : string) (attempt : Z) (db : database) : Prop :=
  ∃ row, workflow_run_nodes db !! (run, id) = Some row ∧ wn_status row = "running"
    ∧ wn_attempt_count row = attempt.

Lemma finalize_Ok run id status now attempt db b db' :
  finalize_node run id status now attempt db = Some (Ok b, db') →
  if b then holds_lease run id attempt db else ¬ holds_lease run id attempt db ∧ db' = db.
Proof.
  unfold finalize_node. rewrite query_bind. unfold holds_lease.
  destruct (workflow_run_nodes db !! (run, id)) as [row|]; [|intros [= <- <-]; naive_solver].
  destruct (bool_decide_reflect (wn_status row = "running")) as [Hr|Hr]; cbn [andb];
    [|intros [= <- <-]; naive_solver].
  destruct (Z.eqb_spec (wn_attempt_count row) attempt) as [Ha|Ha]; [|intros [= <- <-]; naive_solver].
  intros (? & db1 & _ & [= <- _])%bind_Ok. eauto.
Qed.

Lemma ignore_stale_inv run id actor now identity attempt reason usage output db r db' :
  ignore_stale run id actor now identity attempt reason usage output db = Some (r, db') →
  tree_frame db db'
  ∧ (rc_recursive_node_id identity = None → audited db db')
  ∧ ∀ res, r = Ok res → action res = "stale_completion_ignored".
Proof.
  intros H. split_and!.
  - revert db r db' H. change (always tree_frame (ignore_stale run id actor now identity attempt reason usage output)).
    unfold ignore_stale. pose proof calm_late. pose proof append_audit_frame. walk.
  - intros Hn. revert db r db' H. change (always audited (ignore_stale run id actor now identity attempt reason usage output)).
    unfold ignore_stale. rewrite Hn. pose proof append_audit_audited. walk.
  - intros res ->. revert db res db' H. change (returns (λ res, action res = "stale_completion_ignored")
      (ignore_stale run id actor now identity attempt reason usage output)).
    unfold ignore_stale. by walk_returns.
Qed.

Lemma decide_retry_same env run rid reason usage output attempt retries db r db' :
  decide_retry env run rid reason usage output attempt retries db = Some (r, db') → db' = db.
Proof.
  revert db r db'. change (always (λ db db', db' = db)
    (decide_retry env run rid reason usage output attempt retries)).
  assert (PreOrder (λ db db' : database, db' = db)) by (split; [done|]; by intros ??? -> ->).
  unfold decide_retry. pose proof (retry_allowed_frame (λ db db', db' = db)). walk.
Qed.

(** The parts of a recorded result up to the fenced update. *)
Lemma record_inv env run id actor clock retries mode ty attempt output usage db res db' :
  record_result contract_from_value env run id actor clock retries mode ty attempt output usage db
    = Some (Ok res, db') →
  ∃ row identity reason evidence retry,
    workflow_run_nodes db !! (run, id) = Some row
    ∧ resolve_recursive_completion_identity id (wn_node_json row) (indexed_recursive_root run id db)
        (recursive_enabled env) = Ok identity
    ∧ recursive_usage_of contract_from_value identity output mode = Ok (reason, evidence)
    ∧ decide_retry env run (rc_recursive_node_id identity) reason evidence output attempt retries db
        = Some (Ok retry, db)
    ∧ let status := if is_some reason then "failed" else if retry then "pending" else o_status output in
      ((¬ holds_lease run id attempt db
        ∧ ignore_stale run id actor (clock 0%nat) identity attempt reason evidence output db
            = Some (Ok res, db'))
       ∨ ∃ db1 db2 db3,
         finalize_node run id status (clock 0%nat) attempt db = Some (Ok true, db1)
         ∧ store_result env run id actor (clock 0%nat) ty identity attempt reason evidence retry status
             output usage db1 = Some (Ok tt, db2)
         ∧ propagate_failed_dependencies_locked run actor (clock 1%nat) db2 = Some (Ok tt, db3)
         ∧ (∃ o, conclude_run run actor (clock 2%nat) db3 = Some (Ok o, db'))
         ∧ action res = if retry then "node_retry" else "node_executed").
Proof.
  unfold record_result. intros H%transaction_Ok.
  apply bind_Ok in H as (row & ? & [Hrow%ok_or_Ok ->]%query_Ok & H).
  apply bind_Ok in H as (root & ? & [[= <-] ->]%query_Ok & H).
  apply bind_Ok in H as (identity & ? & [Hi ->]%lift_Ok & H).
  apply bind_Ok in H as ([reason evidence] & ? & [Hu ->]%lift_Ok & H).
  apply bind_Ok in H as (retry & dbr & Hr & H).
  pose proof (decide_retry_same _ _ _ _ _ _ _ _ _ _ _ Hr) as ->.
  exists row, identity, reason, evidence, retry. split_and!; [done..|].
  apply bind_Ok in H as (b & db1 & Hf & H). pose proof (finalize_Ok _ _ _ _ _ _ _ _ Hf) as Hl.
  destruct b; cbn [negb] in H; [right|left].
  - apply bind_Ok in H as ([] & db2 & Hs & H). apply bind_Ok in H as ([] & db3 & Hp & H).
    apply bind_Ok in H as (o & db4 & Hc & H). apply bind_Ok in H as (r & ? & [_ ->]%query_Ok & [= <- <-]).
    exists db1, db2, db3. split_and!; [done..|by exists o|done].
  - by destruct Hl as [? ->].
Qed.

Lemma record_stale env run id actor clock retries mode ty attempt output usage db res db' :
  record_result contract_from_value env run id actor clock retries mode ty attempt output usage db
    = Some (Ok res, db') →
  ¬ holds_lease run id attempt db →
  action res = "stale_completion_ignored" ∧ tree_frame db db'
  ∧ (recursive_execution_nodes db !! (run, id) = None → audited db db').
Proof.
  intros (row & identity & reason & evidence & retry & _ & Hi & _ & _ & H)%record_inv Hn.
  destruct H as [[_ H]|(db1 & db2 & db3 & Hf & _)]; [|by apply finalize_Ok in Hf].
  apply ignore_stale_inv in H as (Hf & Hna & Ha). split_and!; [by apply Ha|done|].
  intros Hx. apply Hna. unfold indexed_recursive_root in Hi. rewrite Hx in Hi. cbn in Hi.
  unfold resolve_recursive_completion_identity in Hi. cbn in Hi. case_match; by simplify_eq.
Qed.

(** ** Histories *)

(** One operation on the store; [allowed] restricts the caps of the leases. *)
Inductive sched_step `{HO : HashOrder} (allowed : option (Z * Z) → Prop) (db db' : database) : Prop :=
  | sc_lease env run actor clock retries agent caps owner r :
      allowed caps →
      lease_ready_node env run actor clock retries agent caps owner db = Some (r, db') →
      sched_step allowed db db'
  | sc_record env run id actor clock retries mode ty attempt output usage r :
      record_result contract_from_value env run id actor clock retries mode ty attempt output usage
        db = Some (r, db') → sched_step allowed db db'
  | sc_recover env parse_time now timeout r :
      recover_stale_leases env parse_time now timeout db = Some (r, db') → sched_step allowed db db'
  | sc_request run status ty actor reason now r :
      update_workflow_run_status_with_event run status ty actor reason now db = Some (r, db') →
      sched_step allowed db db'
  | sc_context run id v r :
      persist_context_injection run id v db = Some (r, db') → sched_step allowed db db'
  | sc_pause paused why now r :
      set_recursive_execution_paused paused why now db = Some (r, db') → sched_step allowed db db'.

(** A step is calm, or it grants one lease. *)
Lemma sched_step_inv `{HO : HashOrder} allowed db db' :
  sched_step allowed db db' →
  calm db db' ∨ ∃ env run id caps now row, allowed caps ∧ granted env run id caps now row db db'.
Proof.
  destruct 1 as [env run actor clock retries agent caps owner [lease|e] Ha H| | | | |];
    [|left|left; by eapply calm_record|left; by eapply calm_recover|left; by eapply calm_request
     |left; by eapply calm_context|left; by eapply calm_pause].
  - apply lease_inv in H as [_ [id row meta wf Hg _|r Hs|db1 l _ Hb _]].
    + right. by eexists _, _, _, _, _, _.
    + left. by apply calm_same.
    + left. by eapply calm_blocks.
  - by apply transaction_Err in H as ->.
Qed.

(** Attempts only count up. *)
Definition counts_up (db db' : database) : Prop := ∀ k row, workflow_run_nodes db !! k = Some row →
  ∃ row', workflow_run_nodes db' !! k = Some row' ∧ wn_attempt_count row <= wn_attempt_count row'.

Lemma counts_up_refl db : counts_up db db.
Proof. intros k row H. exists row. by split. Qed.

Lemma counts_up_trans db1 db2 db3 : counts_up db1 db2 → counts_up db2 db3 → counts_up db1 db3.
Proof.
  intros H1 H2 k row H. destruct (H1 _ _ H) as (row2 & E2 & ?). destruct (H2 _ _ E2) as (row3 & E3 & ?).
  exists row3. split; [done|lia].
Qed.

Lemma calm_counts_up db db' : calm db db' → counts_up db db'.
Proof.
  intros [_ H] k row E. destruct (H k) as [S _]. rewrite E in S. cbn in S.
  apply fmap_Some in S as (row' & E' & S). exists row'. split; [done|]. injection S as _ ->. lia.
Qed.

Lemma granted_counts_up env run id caps now row db db' :
  granted env run id caps now row db db' → counts_up db db'.
Proof.
  intros [Hr _ _ _ Hn _] k r E. rewrite Hn. destruct (decide (k = (run, id))) as [->|].
  - rewrite lookup_insert_eq. eexists. split; [done|]. cbn. rewrite Hr in E. injection E as <-. lia.
  - rewrite lookup_insert_ne by done. exists r. by split.
Qed.

Lemma sched_steps_count `{HO : HashOrder} allowed db db' : rtc (sched_step allowed) db db' → counts_up db db'.
Proof.
  induction 1 as [db|db1 db2 db3 H _ IH]; [apply counts_up_refl|].
  eapply counts_up_trans; [|exact IH].
  apply sched_step_inv in H as [H|(? & ? & ? & ? & ? & ? & _ & H)];
    [by apply calm_counts_up|by eapply granted_counts_up].
Qed.

(** ** Caps *)

Definition caps_hold (global per_run : Z) (db : database) : Prop :=
  count_running_agent_steps_locked db <= global
  ∧ ∀ run, count_running_agent_steps_for_run_locked run db <= per_run.

(** Caps no looser than the two bounds. *)
Definition within_caps (global per_run : Z) (caps : option (Z * Z)) : Prop :=
  ∃ g p, caps = Some (g, p) ∧ as_i64_cast g <= global ∧ as_i64_cast p <= per_run.

Lemma agent_running_true row :
  agent_running row = true ↔ wn_task_type row = "agent_step" ∧ wn_status row = "running".
Proof. unfold agent_running. by rewrite andb_true_iff, !bool_decide_eq_true. Qed.

Lemma caps_hold_le global per_run db db' :
  (∀ k row', workflow_run_nodes db' !! k = Some row' → agent_running row' = true →
     ∃ row, workflow_run_nodes db !! k = Some row ∧ agent_running row = true) →
  caps_hold global per_run db → caps_hold global per_run db'.
Proof.
  intros H [Hg Hp]. split; [|intros run; specialize (Hp run)].
  - etransitivity; [|exact Hg]. apply inj_le, size_filter_le. intros k x Hx Ha. by eapply H.
  - etransitivity; [|exact Hp]. apply inj_le, size_filter_le. intros k x Hx [Hk Ha]. cbn in *.
    destruct (H _ _ Hx Ha) as (y & ? & ?). by exists y.
Qed.

Lemma calm_caps global per_run db db' :
  calm db db' → caps_hold global per_run db → caps_hold global per_run db'.
Proof.
  intros [_ H]. apply caps_hold_le. intros k row' E [Ht Hs]%agent_running_true. destruct (H k) as [S R].
  rewrite E in S. destruct (R _ E Hs) as (row & Er & Hr). exists row. split; [done|].
  apply agent_running_true. rewrite Er in S. cbn in S. injection S as S _. by rewrite <-S.
Qed.

Lemma size_filter_insert {K A} `{Countable K} (P : K * A → Prop) `{∀ x, Decision (P x)} (m : gmap K A) k x :
  (size (filter P (<[k := x]> m)) ≤ S (size (filter P m)))%nat.
Proof.
  rewrite <- !size_dom. transitivity (size ({[k]} ∪ dom (filter P m))).
  - apply subseteq_size. intros i [y [Hy HP]%map_lookup_filter_Some]%elem_of_dom.
    destruct (decide (i = k)) as [->|]; [set_solver|]. rewrite lookup_insert_ne in Hy by done.
    apply elem_of_union_r, elem_of_dom. exists y. by apply map_lookup_filter_Some.
  - rewrite size_union_alt, size_singleton.
    assert (size (dom (filter P m) ∖ {[k]}) ≤ size (dom (filter P m)))%nat; [|lia].
    apply subseteq_size. set_solver.
Qed.

Lemma granted_caps env run id caps now row db db' global per_run :
  granted env run id caps now row db db' → within_caps global per_run caps →
  caps_hold global per_run db → caps_hold global per_run db'.
Proof.
  intros [Hr Hp _ [agent Ha] Hn _] (g & p & -> & Hg & Hper). unfold admitted, task_type_of in Ha.
  rewrite Hr in Ha. cbn [fmap option_fmap option_map default] in Ha.
  case_bool_decide as Ht.
  - destruct Ha as (_ & -> & H1 & H2). intros [Hcg Hcp].
    unfold caps_hold, count_running_agent_steps_locked, count_running_agent_steps_for_run_locked in *.
    rewrite Hn. split.
    + pose proof (size_filter_insert (λ kr, agent_running kr.2 = true) (workflow_run_nodes db)
        (run, id) (leased_row now row)). lia.
    + intros run'. destruct (decide (run' = run)) as [->|Hne].
      * pose proof (size_filter_insert (λ kr, kr.1.1 = run ∧ agent_running kr.2 = true)
          (workflow_run_nodes db) (run, id) (leased_row now row)). lia.
      * etransitivity; [|apply (Hcp run')]. apply inj_le, size_filter_le. cbn.
        intros k x Hx [Hk Hag]. rewrite lookup_insert_ne in Hx by (intros <-; cbn in Hk; congruence). eauto.
  - apply caps_hold_le. intros k x Hx Hag. rewrite Hn in Hx.
    destruct (decide ((run, id) = k)) as [<-|]; [|rewrite lookup_insert_ne in Hx by done; eauto].
    rewrite lookup_insert_eq in Hx. injection Hx as <-. by apply agent_running_true in Hag as [? _].
Qed.

Lemma sched_steps_caps `{HO : HashOrder} global per_run db db' :
  rtc (sched_step (within_caps global per_run)) db db' →
  caps_hold global per_run db → caps_hold global per_run db'.
Proof.
  induction 1 as [|db1 db2 db3 H _ IH]; [done|]. intros Hc. apply IH.
  apply sched_step_inv in H as [H|(? & ? & ? & ? & ? & ? & Hw & H)];
    [by eapply calm_caps|by eapply granted_caps].
Qed.

(** ** Nodes that have ended *)

(** Rows of [P] that are neither pending nor running keep their status. *)
Definition kept (P : string * string → Prop) (db db' : database) : Prop := ∀ k row,
  P k → workflow_run_nodes db !! k = Some row → unfinished row = false →
  ∃ row', workflow_run_nodes db' !! k = Some row' ∧ wn_status row' = wn_status row.

Lemma unfinished_status row row' : wn_status row' = wn_status row → unfinished row' = unfinished row.
Proof. unfold unfinished. by intros ->. Qed.

#[export] Instance kept_preorder P : PreOrder (kept P).
Proof.
  split; [by intros db k row ? ? ?; exists row|]. intros db1 db2 db3 H1 H2 k row HP Hr Hu.
  destruct (H1 k row HP Hr Hu) as (row2 & Hr2 & E2).
  destruct (H2 k row2 HP Hr2) as (row3 & Hr3 & E3); [by rewrite (unfinished_status row)|].
  exists row3. split; [done|congruence].
Qed.

Lemma kept_weaken (P Q : string * string → Prop) db db' : (∀ k, Q k → P k) → kept P db db' → kept Q db db'.
Proof. intros H Hk k row HQ. by apply Hk, H. Qed.

Lemma kept_same P db db' : same_nodes db db' → kept P db db'.
Proof. intros [En _] k row _ Hr _. exists row. by rewrite En. Qed.

Lemma kept_frame P db db' : tree_frame db db' → kept P db db'.
Proof.
  intros [_ _ _ Hn] k row _ Hr Hu. specialize (Hn k). rewrite Hr in Hn.
  inversion Hn as [? E1 E2|? ? ? ? ? ?]; simplify_eq; [by exists row|congruence].
Qed.

Lemma kept_blocks P run now db db' : blocks_doomed run now db db' → kept P db db'.
Proof.
  intros (S & HS & _ & _ & Hr) [run' id] row _ Hrow Hu. rewrite Hr; [by exists row|].
  cbn. intros [-> Hd%HS]. apply doomed_pending in Hd as (r & Hr' & Hp). rewrite Hrow in Hr'. injection Hr' as <-.
  unfold unfinished in Hu. by rewrite bool_decide_true in Hu.
Qed.

Lemma kept_update P db k row row' :
  workflow_run_nodes db !! k = Some row → (P k → unfinished row = true ∨ wn_status row' = wn_status row) →
  kept P db (db <| workflow_run_nodes := <[k := row']> (workflow_run_nodes db) |>).
Proof.
  intros E Hk i r HP Hr Hu. cbn. destruct (decide (k = i)) as [<-|]; [|rewrite lookup_insert_ne by done; by exists r].
  rewrite lookup_insert_eq. rewrite E in Hr. injection Hr as <-.
  exists row'. split; [done|]. destruct (Hk HP); [congruence|done].
Qed.

Lemma kept_update_node P run id f :
  (P (run, id) → ∀ row, wn_status (f row) = wn_status row) → always (kept P) (update_node run id f).
Proof.
  intros Hf. apply always_execute. intros db k row HP Hr Hu. cbn.
  destruct (decide (k = (run, id))) as [->|]; [|rewrite lookup_alter_ne by done; by exists row].
  rewrite lookup_alter_eq, Hr. eexists. split; [done|]. by apply Hf.
Qed.

Lemma kept_same_always P {A} (m : store A) : always same_nodes m → always (kept P) m.
Proof. by apply always_weaken, kept_same. Qed.

Lemma kept_frame_always P {A} (m : store A) : always tree_frame m → always (kept P) m.
Proof. by apply always_weaken, kept_frame. Qed.

Lemma kept_event P run id ty actor details now :
  always (kept P) (insert_workflow_run_event_locked run id ty actor details now).
Proof. apply kept_same_always, bookkept_always, event_bookkept. Qed.

Lemma kept_audit P now actor action resource details :
  always (kept P) (append_audit now actor action resource details).
Proof. apply kept_same_always, bookkept_always, append_audit_bookkept. Qed.
#[local] Hint Resolve kept_event kept_audit kept_same_always kept_frame_always : frames.
#[local] Hint Extern 1 (always (kept _) (update_node _ _ _)) => by apply kept_update_node : frames.

Definition others (run id : string) (k : string * string) : Prop := k ≠ (run, id).

Lemma kept_store_result env run id actor now ty identity attempt reason usage retry status output pmu :
  always (kept (others run id))
    (store_result env run id actor now ty identity attempt reason usage retry status output pmu).
Proof.
  unfold store_result, settle_recursive, store_recursive_status, report_retry, report_end, others. walk.
Qed.

Lemma kept_finalize run id status now attempt :
  always (kept (others run id)) (finalize_node run id status now attempt).
Proof.
  apply always_read; [apply _|]. intros db o r db' [= E] H. destruct o as [row|]; [|by injection H as _ <-].
  case_match; [|by injection H as _ <-]. injection H as _ <-. by eapply kept_update.
Qed.

Lemma kept_record env run id actor clock retries mode ty attempt output usage :
  always (kept (λ _, True)) (record_result contract_from_value env run id actor clock retries mode ty
                               attempt output usage).
Proof.
  intros db [res|e] db' H; [|by apply transaction_Err in H as ->].
  apply record_inv in H as (row & identity & reason & evidence & retry & Hr & _ & _ & _ & H).
  destruct H as [[_ H]|(db1 & db2 & db3 & Hf & Hs & Hp & [o Hc] & _)].
  { apply ignore_stale_inv in H as [H _]. by apply kept_frame. }
  assert (kept (others run id) db db') as Hk.
  { transitivity db1; [by eapply kept_finalize|]. transitivity db2; [by eapply kept_store_result|].
    transitivity db3; [by apply propagate_inv in Hp as [Hp _]; eapply kept_blocks|].
    apply kept_same. eapply bookkept_same_nodes, conclude_bookkept, Hc. }
  apply finalize_Ok in Hf as (r & Hr' & Hrun & _). intros k x _ Hx Hu.
  destruct (decide (k = (run, id))) as [->|]; [|by apply Hk].
  rewrite Hx in Hr'. injection Hr' as ->. unfold unfinished in Hu. rewrite Hrun in Hu. by vm_compute in Hu.
Qed.

Lemma kept_recover env parse_time now timeout :
  always (kept (λ _, True)) (recover_stale_leases env parse_time now timeout).
Proof.
  unfold recover_stale_leases. apply always_transaction; [apply _|]. apply always_bind; [apply _|walk|].
  assert (∀ run id l now verdict json, always (kept (λ _, True)) (recover_row run id l now verdict json)).
  { intros. apply always_read; [apply _|]. intros db o r db' [= E] H. destruct o as [row|]; [|by injection H as _ <-].
    destruct (bool_decide_reflect (wn_status row = "running")) as [Hrun|]; cbn [andb] in H; [|by injection H as _ <-].
    case_match; [|by injection H as _ <-]. injection H as _ <-. eapply kept_update; [done|].
    intros _. left. unfold unfinished. rewrite Hrun. done. }
  intros stale. induction stale as [|[[run id] l] stale IH]; cbn; [walk|].
  unfold recover_stale_lease_of, judge_stale, recover_tree, audit_recovery. cbv zeta beta. walk.
Qed.

Lemma sched_step_kept `{HO : HashOrder} allowed db db' : sched_step allowed db db' → kept (λ _, True) db db'.
Proof.
  destruct 1 as [env run actor clock retries agent caps owner [lease|e] Ha H| |env pt now timeout r H
    |run status ty actor reason now r H|run id v r H|paused why now r H].
  - apply lease_inv in H as [_ [id row meta wf [Hr Hp _ _ Hn _] _|r Hs|db1 l _ Hb _]].
    + intros k x _ Hx Hu. rewrite Hn. destruct (decide ((run, id) = k)) as [<-|].
      * rewrite Hx in Hr. injection Hr as ->. unfold unfinished in Hu. by rewrite bool_decide_true in Hu.
      * rewrite lookup_insert_ne by done. by exists x.
    + by apply kept_same.
    + by eapply kept_blocks.
  - by apply transaction_Err in H as ->.
  - by eapply kept_record.
  - by eapply kept_recover.
  - revert db r db' H. change (always (kept (λ _, True)) (update_workflow_run_status_with_event run status ty actor reason now)).
    apply kept_same_always. unfold update_workflow_run_status_with_event.
    pose proof (λ run status now, bookkept_always _ (status_bookkept run status now)).
    pose proof (λ run id ty actor details now, bookkept_always _ (event_bookkept run id ty actor details now)).
    pose proof (λ a b c d e, bookkept_always _ (append_audit_bookkept a b c d e)). walk.
  - revert db r db' H. change (always (kept (λ _, True)) (persist_context_injection run id v)).
    unfold persist_context_injection. walk.
  - eapply kept_frame, pause_frame, H.
Qed.

Lemma sched_steps_kept `{HO : HashOrder} allowed db db' :
  rtc (sched_step allowed) db db' → kept (λ _, True) db db'.
Proof.
  induction 1 as [|db1 db2 db3 H _ IH]; [done|]. transitivity db2; [by eapply sched_step_kept|done].
Qed.

(** ** Retries of recursive nodes *)

Definition tree_statuses : list string := ["ready"; "leased"; "completed"; "failed"].

Lemma tree_status_ended row : wn_status row ∈ tree_statuses → unfinished row = false.
Proof.
  unfold unfinished. intros H. destruct (bool_decide_reflect (wn_status row = "pending")) as [E|];
    [rewrite E in H; by apply (bool_decide_pack _) in H|].
  destruct (bool_decide_reflect (wn_status row = "running")) as [E|]; [|done].
  rewrite E in H. by apply (bool_decide_pack _) in H.
Qed.

Lemma decide_retry_true env run rid reason usage output attempt retries db db' :
  decide_retry env run rid reason usage output attempt retries db = Some (Ok true, db') → reason = None.
Proof. unfold decide_retry. by destruct reason. Qed.

Definition same_statuses (db db' : database) : Prop := ∀ k,
  wn_status <$> workflow_run_nodes db' !! k = wn_status <$> workflow_run_nodes db !! k.

#[local] Instance same_statuses_preorder : PreOrder same_statuses.
Proof. split; [done|]. intros ??? H1 H2 k. by rewrite H2. Qed.

Lemma same_nodes_statuses {A} (m : store A) : always same_nodes m → always same_statuses m.
Proof. apply always_weaken. intros db db' [En _] k. by rewrite En. Qed.

Lemma update_node_statuses run id f :
  (∀ row, wn_status (f row) = wn_status row) → always same_statuses (update_node run id f).
Proof.
  intros Hf. apply always_execute. intros db k. cbn.
  destruct (decide (k = (run, id))) as [->|]; [|by rewrite lookup_alter_ne].
  rewrite lookup_alter_eq. destruct (_ !! _) as [row|]; [|done]. cbn. by rewrite Hf.
Qed.

#[local] Hint Resolve same_nodes_statuses bookkept_always event_bookkept append_audit_bookkept : frames.
#[local] Hint Extern 1 (always same_statuses (update_node _ _ _)) => by apply update_node_statuses : frames.

Lemma report_retry_statuses run id actor now ty attempt output :
  always same_statuses (report_retry run id actor now ty attempt output).
Proof. unfold report_retry. walk. Qed.

Lemma settle_frame env run id now rid root attempt reason usage ok retry :
  always tree_frame (settle_recursive env run id now rid root attempt reason usage ok retry).
Proof. unfold settle_recursive. walk. Qed.

(** A retry of a node of a tree is stored with the status of the tree. *)
Lemma store_retry_status env run id actor now ty identity rid attempt reason usage output pmu db row db' :
  workflow_run_nodes db !! (run, id) = Some row → rc_recursive_node_id identity = Some rid →
  store_result env run id actor now ty identity attempt reason usage true "pending" output pmu db
    = Some (Ok tt, db') →
  ∃ row', workflow_run_nodes db' !! (run, id) = Some row' ∧ wn_status row' ∈ tree_statuses.
Proof.
  intros Hr Hi. unfold store_result. rewrite Hi. intros (o & db1 & Ho & H)%bind_Ok.
  apply bind_Ok in Ho as (s & db0 & Hs & [= <- ->]). cbn [default] in H.
  pose proof (settle_status _ _ _ _ _ _ _ _ _ _ _ _ _ _ Hs) as Hin.
  apply settle_frame in Hs as [_ _ _ Hn]. specialize (Hn (run, id)). rewrite Hr in Hn.
  assert (is_Some (workflow_run_nodes db1 !! (run, id))) as [row1 Hr1] by (inversion Hn; eauto).
  apply bind_Ok in H as (why & ? & [_ ->]%query_Ok & H).
  assert (s ≠ "pending") as Hne by (intros ->; by apply (bool_decide_pack _) in Hin).
  unfold store_recursive_status in H. rewrite (bool_decide_false (s = "pending")) in H by done. cbn [negb orb] in H.
  apply bind_Ok in H as (? & db2 & Hu & H).
  apply bind_Ok in H as (? & db3 & Hj & H). apply report_retry_statuses in H.
  assert (same_statuses db2 db3) as Hj'.
  { destruct (rc_metadata_writable identity); [|by injection Hj as _ <-].
    revert Hj. by apply update_node_statuses. }
  specialize (H (run, id)). rewrite (Hj' (run, id)) in H. injection Hu as _ <-. cbn in H.
  rewrite lookup_alter_eq, Hr1 in H. cbn in H.
  apply fmap_Some in H as (row' & Hr' & Es). exists row'. by rewrite <-Es.
Qed.

Lemma finalize_row run id status now attempt db db' :
  finalize_node run id status now attempt db = Some (Ok true, db') →
  is_Some (workflow_run_nodes db' !! (run, id)).
Proof.
  unfold finalize_node. rewrite query_bind. destruct (_ !! _); [|done]. case_match; [|done].
  intros (? & ? & [= _ <-] & [= <-])%bind_Ok. cbn. rewrite lookup_insert_eq. by eexists.
Qed.

Lemma record_retry_status env run id actor clock retries mode ty attempt output usage db res db' root :
  record_result contract_from_value env run id actor clock retries mode ty attempt output usage db
    = Some (Ok res, db') →
  action res = "node_retry" → indexed_recursive_root run id db = Some root →
  ∃ row', workflow_run_nodes db' !! (run, id) = Some row' ∧ wn_status row' ∈ tree_statuses.
Proof.
  intros (row & identity & reason & evidence & retry & Hr & Hi & _ & Hd & H)%record_inv Ha Hroot.
  rewrite Hroot in Hi. cbv zeta in H.
  destruct H as [[_ H]|(db1 & db2 & db3 & Hf & Hs & Hp & [o Hc] & Hact)].
  { apply ignore_stale_inv in H as (_ & _ & H). by rewrite (H res eq_refl) in Ha. }
  rewrite Ha in Hact. destruct retry; [|done]. apply decide_retry_true in Hd as ->. cbn [is_some is_none negb] in *.
  assert (∃ rid, rc_recursive_node_id identity = Some rid) as [rid Hrid].
  { unfold resolve_recursive_completion_identity in Hi. cbn in Hi. injection Hi as <-. by eexists. }
  apply finalize_row in Hf as [row1 Hr1].
  destruct (store_retry_status _ _ _ _ _ _ _ _ _ _ _ _ _ _ _ _ Hr1 Hrid Hs) as (row2 & Hr2 & Hst).
  apply propagate_inv in Hp as [Hp _].
  destruct (kept_blocks (λ _, True) _ _ _ _ Hp (run, id) row2 I Hr2) as (row3 & Hr3 & E3);
    [by apply tree_status_ended|].
  exists row3. rewrite E3. split; [|done].
  apply conclude_bookkept, bookkept_same_nodes in Hc as [-> _]. done.
Qed.
End steps.
