(* ===== verification/WorkflowProgress.v ===== *)
(** * Runs end

    Ticks of a run without recursion whose edges have no cycle: each tick either
    ends the run or uses up one of the attempts its nodes have left. *)

From S2P Require Import Prelude Text Json Float64 RecursiveExecution Persistence PersistenceProps TreeStore TreeStoreProps NodeExecution WorkflowRuns WorkflowFrames WorkflowProps WorkflowSteps.
Import FailureReason (RecursiveFailureReason).

Local Open Scope Z_scope.

(** ** Sums over tables *)

Section msum.
Context {K A : Type} `{Countable K}.
Implicit Types (f : K → A → nat) (m : gmap K A).

Definition msum f m : nat := map_fold (λ k x n, (f k x + n)%nat) 0%nat m.

Lemma msum_insert_new f m k x : m !! k = None → msum f (<[k := x]> m) = (f k x + msum f m)%nat.
Proof. intros Hk. unfold msum. rewrite map_fold_insert_L; [done| |done]. intros. lia. Qed.

Lemma msum_delete f m k x : m !! k = Some x → msum f m = (f k x + msum f (delete k m))%nat.
Proof.
  intros Hk. rewrite <-(insert_delete_id m k x) at 1 by done.
  apply msum_insert_new, lookup_delete_eq.
Qed.

Lemma msum_update f m k x y :
  m !! k = Some x → (msum f (<[k := y]> m) + f k x = msum f m + f k y)%nat.
Proof.
  intros Hk. rewrite (msum_delete f m k x), (msum_delete f (<[k := y]> m) k y) by (by rewrite ?lookup_insert_eq).
  rewrite delete_insert_eq. lia.
Qed.

Lemma msum_le f m m' :
  (∀ k x', m' !! k = Some x' → ∃ x, m !! k = Some x ∧ (f k x' ≤ f k x)%nat) → (msum f m' ≤ msum f m)%nat.
Proof.
  revert m. induction m' as [|k x' m' Hk IH] using map_ind; intros m Hle; [unfold msum; rewrite map_fold_empty; lia|].
  destruct (Hle k x') as (x & Hx & ?); [by rewrite lookup_insert_eq|].
  rewrite msum_insert_new, (msum_delete f m k x) by done.
  assert (msum f m' ≤ msum f (delete k m))%nat; [|lia]. apply IH. intros i y Hi.
  assert (k ≠ i) by congruence. destruct (Hle i y) as (z & Hz & ?); [by rewrite lookup_insert_ne|].
  exists z. by rewrite lookup_delete_ne.
Qed.

Lemma msum_bound f m b (P : K * A → Prop) `{∀ x, Decision (P x)} :
  (∀ k x, m !! k = Some x → P (k, x) → (f k x ≤ b)%nat) →
  (∀ k x, m !! k = Some x → ¬ P (k, x) → f k x = 0%nat) →
  (msum f m ≤ size (filter P m) * b)%nat.
Proof.
  induction m as [|k x m Hk IH] using map_ind; intros Hb Hz; [unfold msum; rewrite map_fold_empty; lia|].
  rewrite msum_insert_new by done.
  assert (msum f m ≤ size (filter P m) * b)%nat.
  { apply IH; intros i y Hi; [apply Hb|apply Hz]; (rewrite lookup_insert_ne; [done|congruence]). }
  rewrite map_filter_insert. case_decide.
  - rewrite map_size_insert_None by (apply map_lookup_filter_None; left; done).
    assert (f k x ≤ b)%nat by (apply Hb; [by rewrite lookup_insert_eq|done]). lia.
  - rewrite delete_id by done. rewrite (Hz k x) by (by rewrite ?lookup_insert_eq). lia.
Qed.
End msum.

Section progress.
Context {V : Type} `{JV : JsonValue V} `{JT : JsonText V} `{JN : JsonNumbers V}.
Context `{SD : StoreDecoders V} `{Deps : RecursiveDeps} `{TE : TreeEncoder} `{RO : RowOrder}.
Context (contract_from_value : V → option UsageContract.RecursiveUsageContract).

(** serde reads back the objects it wrote. *)
Hypothesis parse_object : ∀ m : gmap string V,
  json_parse (json_print (json_object m)) = Some (json_object m).
Hypothesis object_fields : ∀ m : gmap string V, as_object (json_object m) = Some m.

(** ** Runs without recursion *)

(** Metadata that names no recursive node. *)
Definition plain_json (text : string) : Prop :=
  ∃ v m, json_parse text = Some v ∧ as_object v = Some m
    ∧ m !! "recursive_node_id" = None ∧ m !! "recursive_root_node_id" = None.

Definition at_rest_statuses : list string := ["pending"; "completed"; "failed"; "cancelled"; "blocked"].

Record plain_run (run : string) (db : database) : Prop := {
  pl_run : ∃ row, workflow_runs db !! run = Some row
    ∧ is_Some (json_parse (wr_boundaries_json row))
    ∧ wr_pause_reason row ≠ Some API_OWNED_SUPERVISED_PATCH;
  pl_status : ∀ id row, workflow_run_nodes db !! (run, id) = Some row → wn_status row ∈ at_rest_statuses;
  pl_json : ∀ id row, workflow_run_nodes db !! (run, id) = Some row → plain_json (wn_node_json row);
  pl_attempts : ∀ id row, workflow_run_nodes db !! (run, id) = Some row → 0 <= wn_attempt_count row;
  pl_unindexed : ∀ id, recursive_execution_nodes db !! (run, id) = None;
  pl_order : ∃ rank : string → nat, ∀ eid e, workflow_run_edges db !! (run, eid) = Some e →
    (rank (we_from_node_id e) < rank (we_to_node_id e))%nat;
}.

(** Without a ready node every pending node is doomed. *)
Lemma pending_doomed run agent db :
  plain_run run db → candidate run [] agent db = None →
  ∀ id row, workflow_run_nodes db !! (run, id) = Some row → wn_status row = "pending" → doomed run db id.
Proof.
  intros Hpl Hc. destruct (pl_order _ _ Hpl) as [rank Hrank].
  assert (Hfind : find_ready_node_locked run [] None db = None).
  { unfold candidate in Hc. by destruct (find_ready_node_locked run [] (Some agent) db). }
  intros id. remember (rank id) as n eqn:En. revert id En.
  induction n as [n IH] using lt_wf_ind. intros id -> row Hr Hp.
  assert (Hready : is_ready run [] None db id = false).
  { apply (find_None_elem _ _ Hfind), elem_of_pending_nodes. eauto. }
  unfold is_ready in Hready. rewrite Hr in Hready. cbn in Hready.
  apply forallb_false in Hready as (st & Hst & Hd).
  apply elem_of_predecessor_statuses in Hst as (eid & e & p & He & Hto & Hpr & <-).
  destruct (bool_decide_reflect (wn_status p = "pending")) as [Hpp|Hpp].
  - eapply doomed_step; [done..|]. eapply IH; [|done|exact Hpr|done]. rewrite <-Hto. by eapply Hrank.
  - eapply doomed_parent; [done..|]. pose proof (pl_status _ _ Hpl _ _ Hpr) as Hs.
    unfold at_rest_statuses in Hs. unfold dependency_met in Hd. apply orb_false_iff in Hd as [Hd _].
    apply bool_decide_eq_false in Hd. unfold blocks_children. apply bool_decide_eq_true. set_solver.
Qed.

Lemma no_candidate_ends run agent now db db' :
  plain_run run db → candidate run [] agent db = None → blocks_doomed run now db db' → all_ended run db'.
Proof.
  intros Hpl Hc (S & HS & _ & Hh & Hrest) id row Hr.
  destruct (decide (id ∈ S)) as [Hi|Hi].
  - rewrite Hh in Hr by done. by apply fmap_Some in Hr as (? & _ & ->).
  - rewrite Hrest in Hr by naive_solver. pose proof (pl_status _ _ Hpl _ _ Hr) as Hs.
    unfold node_done. apply bool_decide_eq_true. unfold at_rest_statuses in Hs.
    assert (wn_status row ≠ "pending"); [|set_solver]. intros Hp. apply Hi, HS.
    by eapply pending_doomed.
Qed.

(** ** The lease of a plain run *)

Lemma plain_not_recursive run db id row :
  plain_run run db → workflow_run_nodes db !! (run, id) = Some row →
  workflow_node_is_recursive_locked run id db = Ok false.
Proof.
  intros Hpl Hr. destruct (pl_json _ _ Hpl _ _ Hr) as (v & m & Hv & Hm & H1 & H2).
  unfold workflow_node_is_recursive_locked, indexed_recursive_root. rewrite Hr, (pl_unindexed _ _ Hpl). cbn.
  unfold recursive_identity_for_claim, recursive_marker_from_node_json, json_get_str, json_get.
  rewrite Hv. cbn. by rewrite Hm; cbn; rewrite H1, H2.
Qed.

Lemma admit_plain env run now id db :
  plain_run run db → is_Some (workflow_run_nodes db !! (run, id)) →
  admit_candidate env run now id None db = Some (Ok (Some false), db).
Proof.
  intros Hpl [row Hr]. unfold admit_candidate. rewrite query_bind.
  case_bool_decide; cbn [negb]; [|done].
  destruct (recursive_enabled env); [|done]. unfold recursive_cap_reached, bind, query.
  by rewrite (plain_not_recursive _ _ _ _ Hpl Hr).
Qed.

Lemma pick_plain env run fuel now agent db :
  plain_run run db →
  pick_node env run (S fuel) now agent None [] db
    = Some (Ok ((λ id, (id, false)) <$> candidate run [] agent db), db).
Proof.
  intros Hpl. cbn [pick_node]. rewrite query_bind. destruct (candidate run [] agent db) as [id|] eqn:Ec; [|done].
  apply candidate_Some in Ec as (row & Hr & _). unfold bind. by rewrite admit_plain.
Qed.

Lemma finish_plain env run actor now id db row :
  workflow_run_nodes db !! (run, id) = Some row → plain_json (wn_node_json row) →
  ∃ wf meta db', finish_lease env run actor now id db
      = Some (Ok (Leased id (wn_task_type row) wf (wn_attempt_count row) meta), db')
    ∧ bookkept db db' ∧ workflow_runs db' = workflow_runs db.
Proof.
  intros Hr (v & m & Hv & Hm & H1 & H2). unfold finish_lease, task_type_of. rewrite !query_bind, Hr.
  cbn [fmap option_fmap option_map default query_row ok_or]. unfold lift at 1. unfold bind at 1. rewrite Hv. cbn [ok_or].
  rewrite Hm. cbn [is_none]. unfold recursive_node_of, json_get_str, json_get. rewrite Hm. cbn. rewrite H1, H2. cbn.
  unfold bind, ret, insert_workflow_run_event_locked, append_audit, execute.
  destruct (bool_decide (wn_task_type row = "agent_step")); eexists _, _, _;
    (split; [reflexivity|]); (split; [by eexists _, _, _|done]).
Qed.

Lemma take_plain env run actor now id db row :
  plain_run run db → workflow_run_nodes db !! (run, id) = Some row → wn_status row = "pending" →
  ∃ wf meta db', take_lease env run actor now id None false db
      = Some (Ok (Leased id (wn_task_type row) wf (wn_attempt_count row + 1) meta), db')
    ∧ bookkept (db <| workflow_run_nodes := <[(run, id) := leased_row now row]> (workflow_run_nodes db) |>) db'
    ∧ workflow_runs db' = workflow_runs db.
Proof.
  intros Hpl Hr Hp. unfold take_lease. rewrite query_bind.
  assert (is_recursive_claim env run id None db = Ok false) as ->.
  { unfold is_recursive_claim. case_match; [|done]. by eapply plain_not_recursive. }
  unfold claim_node. unfold bind at 1. rewrite query_bind. cbn [claim_guard]. rewrite query_bind, Hr.
  rewrite bool_decide_true by done. cbn [andb]. unfold bind at 1, execute, ret.
  destruct (finish_plain env run actor now id
    (db <| workflow_run_nodes := <[(run, id) := leased_row now row]> (workflow_run_nodes db) |>)
    (leased_row now row)) as (wf & meta & db' & E & Hb & Hw).
  { cbn. by rewrite lookup_insert_eq. }
  { by apply (pl_json _ _ Hpl _ _ Hr). }
  by exists wf, meta, db'.
Qed.

(** What the run's row keeps. *)
Definition same_run (run : string) (db db' : database) : Prop :=
  ∀ row, workflow_runs db !! run = Some row → ∃ row', workflow_runs db' !! run = Some row'
    ∧ wr_boundaries_json row' = wr_boundaries_json row ∧ wr_pause_reason row' = wr_pause_reason row.

Lemma same_run_eq run db db' : workflow_runs db' = workflow_runs db → same_run run db db'.
Proof. intros E row Hr. exists row. by rewrite E. Qed.

Lemma same_run_alter run status now db db' :
  workflow_runs db' = alter (with_run_status status now) run (workflow_runs db) → same_run run db db'.
Proof. intros E row Hr. rewrite E, lookup_alter_eq, Hr. by eexists. Qed.

Lemma same_run_trans run db1 db2 db3 : same_run run db1 db2 → same_run run db2 db3 → same_run run db1 db3.
Proof.
  intros H1 H2 row Hr. destruct (H1 _ Hr) as (row2 & Hr2 & E1 & E2).
  destruct (H2 _ Hr2) as (row3 & Hr3 & E3 & E4). exists row3. split; [done|]. split; congruence.
Qed.

Lemma plain_run_kept run db db' :
  plain_run run db → same_run run db db' →
  (∀ id, recursive_execution_nodes db' !! (run, id) = None) →
  workflow_run_edges db' = workflow_run_edges db →
  (∀ id row', workflow_run_nodes db' !! (run, id) = Some row' →
     wn_status row' ∈ at_rest_statuses ∧ plain_json (wn_node_json row') ∧ 0 <= wn_attempt_count row') →
  plain_run run db'.
Proof.
  intros [(row & Hr & Hb & Hp) _ _ _ _ Ho] Hs Hx He Hn.
  split; [|naive_solver..|by rewrite He].
  destruct (Hs row Hr) as (row' & Hr' & Eb & Ep). exists row'. by rewrite Eb, Ep.
Qed.

Lemma plain_run_bookkept run db db' :
  plain_run run db → bookkept db db' → same_run run db db' → plain_run run db'.
Proof.
  intros Hpl (runs & ev & log & ->) Hs. eapply plain_run_kept; [done..|apply Hpl|done|]. cbn.
  intros id row' Hr. split_and!; by eapply Hpl.
Qed.

Definition live_run (run : string) (db : database) : Prop :=
  ∃ row, workflow_runs db !! run = Some row ∧ is_run_terminal (wr_status row) = false.

Lemma start_plain run actor now retries status db :
  plain_run run db → live_run run db →
  ∃ db', start_run run actor now retries status db = Some (Ok tt, db')
    ∧ bookkept db db' ∧ same_run run db db' ∧ live_run run db' ∧ plain_run run db'.
Proof.
  intros Hpl Hl. assert (∃ db', start_run run actor now retries status db = Some (Ok tt, db')
    ∧ same_run run db db' ∧ live_run run db') as (db' & E & Hs & Hl').
  { unfold start_run. case_bool_decide; [|by exists db; split_and!; [|apply same_run_eq|]].
    unfold bind, update_workflow_run_status_locked, insert_workflow_run_event_locked, execute.
    eexists. split; [reflexivity|]. split; [by eapply same_run_alter|]. destruct Hl as (row & Hr & _).
    eexists. cbn. rewrite lookup_alter_eq, Hr. by split. }
  exists db'. pose proof (start_bookkept _ _ _ _ _ _ _ _ E). split_and!; [done..|].
  by eapply plain_run_bookkept.
Qed.

Lemma plain_boundaries run db : plain_run run db → boundaries_parse run db.
Proof. intros [(row & Hr & Hb & _)]. by exists row. Qed.

(** The run is over, and its status is the verdict on its nodes. *)
Definition settled (run : string) (db : database) : Prop :=
  ∃ row, workflow_runs db !! run = Some row ∧ all_ended run db ∧ verdict run db (wr_status row).

Lemma settled_terminal run db :
  settled run db → ∃ row, workflow_runs db !! run = Some row ∧ is_run_terminal (wr_status row) = true.
Proof. intros (row & Hr & _ & [[_ E]|[_ E]]); exists row; by rewrite E. Qed.

Lemma closing_settled run now db db' (lease : LeaseResult V) :
  plain_run run db → closing run now db db' lease → all_ended run db' →
  settled run db' ∧ ∃ status r, lease = Terminal status r.
Proof.
  intros Hpl Hc Ha. destruct Hc as [r Hn _|r status _ Hv Hw Hr]; [done|]. split; [|by eexists _, _].
  destruct (pl_run _ _ Hpl) as (row & Hrow & _). exists r. split_and!; [done..|].
  rewrite Hw, lookup_alter_eq, Hrow in Hr. by injection Hr as <-.
Qed.

Lemma no_candidate_ok run actor clock db :
  boundaries_parse run db → ∃ lease db', no_candidate run actor clock db = Some (Ok lease, db').
Proof.
  intros (row & Hrow & Hb). unfold no_candidate.
  destruct (propagate_ok run actor (clock 1%nat) db) as (S & db1 & E & Ht & _).
  unfold bind at 1. rewrite E. destruct (conclude_ok run actor (clock 2%nat) db1) as (o & db2 & Ec).
  { exists row. by rewrite (bt_runs _ _ _ _ _ Ht). }
  unfold bind at 1. rewrite Ec, query_bind. pose proof (conclude_inv _ _ _ _ _ _ Ec) as Hc.
  assert (is_Some (workflow_runs db2 !! run)) as [row2 Hrow2].
  { destruct o; [destruct Hc as (_ & _ & ->); rewrite lookup_alter_eq|destruct Hc as [_ ->]];
      by rewrite (bt_runs _ _ _ _ _ Ht), Hrow. }
  unfold get_run_row. rewrite Hrow2. by eexists _, _.
Qed.

(** A tick of a plain run leases a node or ends the run. *)
Lemma lease_plain env run actor clock retries agent db :
  plain_run run db → live_run run db →
  ∃ lease db', lease_ready_node env run actor clock retries agent None None db = Some (Ok lease, db')
    ∧ ((∃ id row wf meta, lease = Leased id (wn_task_type row) wf (wn_attempt_count row + 1) meta
          ∧ workflow_run_nodes db !! (run, id) = Some row ∧ wn_status row = "pending"
          ∧ workflow_run_nodes db' = <[(run, id) := leased_row (clock 1%nat) row]> (workflow_run_nodes db)
          ∧ workflow_run_edges db' = workflow_run_edges db
          ∧ recursive_execution_nodes db' = recursive_execution_nodes db
          ∧ same_run run db db' ∧ live_run run db')
       ∨ ((∃ status r, lease = Terminal status r) ∧ settled run db')).
Proof.
  intros Hpl (row & Hrow & Hlive). unfold lease_ready_node, transaction.
  rewrite query_bind. unfold ensure_run_exists_locked. rewrite Hrow. cbn [is_some is_none negb].
  rewrite query_bind, Hrow. cbn [query_row ok_or]. destruct (pl_run _ _ Hpl) as (row' & Hrow' & _ & Hpause).
  rewrite Hrow in Hrow'. injection Hrow' as <-.
  unfold bind at 1, lift, require_run_execution_owner.
  rewrite (bool_decide_false (wr_pause_reason row = _)), bool_decide_false by done.
  rewrite Hlive. destruct (start_plain run actor (clock 0%nat) retries (wr_status row) db Hpl
    ltac:(by exists row)) as (db1 & Es & (runs & ev & log & Eb) & Hsr & Hl1 & Hpl1).
  unfold bind at 1. rewrite Es, query_bind. unfold bind at 1. rewrite pick_plain by done.
  destruct (candidate run [] agent db1) as [id|] eqn:Ec; cbn [fmap option_fmap option_map].
  - apply candidate_Some in Ec as (r1 & Hr1 & Hp1 & _).
    destruct (take_plain env run actor (clock 1%nat) id db1 r1 Hpl1 Hr1 Hp1)
      as (wf & meta & db2 & Et & (runs2 & ev2 & log2 & E2) & Hw). rewrite Et.
    eexists _, _. split; [done|]. left. exists id, r1, wf, meta.
    split_and!; [done|by subst db1|done|by subst db1 db2..| |].
    + eapply same_run_trans; [exact Hsr|by apply same_run_eq].
    + unfold live_run. by rewrite Hw.
  - destruct (no_candidate_ok run actor clock db1) as (lease & db2 & En); [by apply plain_boundaries|].
    rewrite En. exists lease, db2. split; [done|]. right.
    apply no_candidate_inv in En as [Hb Hc]. pose proof (no_candidate_ends _ _ _ _ _ Hpl1 Ec Hb) as Ha.
    by destruct (closing_settled _ _ _ _ _ Hpl1 Hc Ha).
Qed.

(** ** The result of a plain node *)

Lemma identity_plain id text v m enabled :
  json_parse text = Some v → as_object v = Some m →
  m !! "recursive_node_id" = None → m !! "recursive_root_node_id" = None →
  resolve_recursive_completion_identity id text None enabled = Ok (mkIdentity v None false None true).
Proof.
  intros Hv Hm H1 H2. unfold resolve_recursive_completion_identity, marker_valid, json_get. rewrite Hv. cbn.
  rewrite Hm. cbn. rewrite H1, H2. cbn. by destruct enabled.
Qed.

Lemma settled_json_plain status now result usage v m :
  as_object v = Some m → m !! "recursive_node_id" = None → m !! "recursive_root_node_id" = None →
  plain_json (json_print (settled_node_json status now result usage v)).
Proof using parse_object object_fields.
  intros Hm H1 H2. unfold settled_node_json. rewrite Hm. eexists _, _.
  split; [apply parse_object|]. split; [apply object_fields|].
  split; destruct usage; case_bool_decide; by rewrite ?lookup_insert_ne.
Qed.

Lemma alter_insert_same {A} (m : gmap (string * string) A) f k x : alter f k (<[k := x]> m) = <[k := f x]> m.
Proof. by rewrite alter_insert_eq. Qed.

(** What [store_result] does for a node without a tree. *)
Lemma store_plain env run id actor now ty v attempt reason evidence retry status output usage db m row :
  as_object v = Some m → m !! "recursive_node_id" = None → m !! "recursive_root_node_id" = None →
  workflow_run_nodes db !! (run, id) = Some row →
  ∃ db' row', store_result env run id actor now ty (mkIdentity v None false None true) attempt reason
      evidence retry status output usage db = Some (Ok tt, db')
    ∧ workflow_run_nodes db' = <[(run, id) := row']> (workflow_run_nodes db)
    ∧ wn_status row' = wn_status row ∧ plain_json (wn_node_json row') ∧ shape row' = shape row
    ∧ workflow_run_edges db' = workflow_run_edges db
    ∧ recursive_execution_nodes db' = recursive_execution_nodes db
    ∧ workflow_runs db' = workflow_runs db.
Proof using parse_object object_fields.
  intros Hm H1 H2 Hr. unfold store_result, store_recursive_status. cbn [rc_recursive_node_id rc_metadata_writable rc_node_json].
  unfold bind at 1, ret at 1. unfold bind at 1, ret at 1. cbn [default].
  rewrite bool_decide_true by done. cbn [negb orb andb is_some is_none].
  unfold bind at 1, ret at 1. unfold bind at 1, update_node at 1, execute at 1.
  set (text := json_print _). assert (plain_json text) as Ht by (by eapply settled_json_plain).
  destruct retry; unfold report_retry, report_end, bind, ret, update_node, insert_workflow_run_event_locked,
    append_audit, execute; case_bool_decide; eexists _, _; (split; [reflexivity|]); cbn.
  all: rewrite <-(insert_id (workflow_run_nodes db) (run, id) row) at 1 by done;
    rewrite ?alter_insert_same; by split_and!.
Qed.

Definition retried (output : NodeExecutionOutput) (attempt retries : Z) : bool :=
  retryable_node_failure output && (attempt <=? retries).

(** Recording the result of the attempt that holds the lease. *)
Lemma record_plain env run id actor clock retries mode ty output usage db row :
  workflow_run_nodes db !! (run, id) = Some row → wn_status row = "running" →
  plain_json (wn_node_json row) → recursive_execution_nodes db !! (run, id) = None →
  boundaries_parse run db →
  let attempt := wn_attempt_count row in
  ∃ res dbm db1 db' row' S o,
    record_result contract_from_value env run id actor clock retries mode ty attempt output usage db
      = Some (Ok res, db')
    ∧ workflow_run_nodes dbm = <[(run, id) := row']> (workflow_run_nodes db)
    ∧ wn_status row' = (if retried output attempt retries then "pending" else o_status output)
    ∧ plain_json (wn_node_json row') ∧ shape row' = shape row
    ∧ workflow_run_edges dbm = workflow_run_edges db
    ∧ recursive_execution_nodes dbm = recursive_execution_nodes db
    ∧ workflow_runs dbm = workflow_runs db
    ∧ blocked_to run (clock 1%nat) S dbm db1 ∧ (∀ i, doomed run dbm i → i ∈ S)
    ∧ conclude_run run actor (clock 2%nat) db1 = Some (Ok o, db').
Proof using parse_object object_fields.
  intros Hr Hs (v & m & Hv & Hm & H1 & H2) Hx (rrow & Hrr & Hb). cbv zeta.
  unfold record_result, transaction. rewrite query_bind, Hr. cbn [query_row ok_or]. rewrite query_bind.
  unfold indexed_recursive_root. rewrite Hx. cbn [mbind option_bind].
  rewrite (identity_plain id _ v m) by done. unfold bind at 1, lift at 1, bind at 1, lift at 1.
  cbn [recursive_usage_of rc_recursive_node_id rc_terminal_reason].
  assert (decide_retry env run None None None output (wn_attempt_count row) retries db
    = Some (Ok (retried output (wn_attempt_count row) retries), db)) as Hretry.
  { unfold decide_retry, retried. cbn. by destruct (_ && _). }
  unfold bind at 1. rewrite Hretry. cbn [is_some is_none negb].
  set (retry := retried output (wn_attempt_count row) retries).
  set (status := if retry then "pending" else o_status output).
  unfold bind at 1, finalize_node. rewrite query_bind, Hr, bool_decide_true, Z.eqb_refl by done. cbn [andb].
  unfold bind at 1, execute, ret at 1. cbn [negb].
  set (db0 := db <| workflow_run_nodes := _ |>).
  destruct (store_plain env run id actor (clock 0%nat) ty v (wn_attempt_count row) None None retry status
    output usage db0 m _ Hm H1 H2 ltac:(apply lookup_insert_eq))
    as (dbm & row' & E & Hn & Hst & Hj & Hsh & He & Hi & Hw).
  unfold bind at 1. rewrite E. destruct (propagate_ok run actor (clock 1%nat) dbm) as (S & db1 & Ep & Hbt & Hd).
  unfold bind at 1. rewrite Ep. destruct (conclude_ok run actor (clock 2%nat) db1) as (o & db2 & Ec).
  { exists rrow. by rewrite (bt_runs _ _ _ _ _ Hbt), Hw. }
  unfold bind at 1. rewrite Ec, query_bind.
  assert (is_Some (workflow_runs db2 !! run)) as [row2 Hrow2].
  { apply conclude_inv in Ec. destruct o; [destruct Ec as (_ & _ & ->); rewrite lookup_alter_eq|destruct Ec as [_ ->]];
      rewrite (bt_runs _ _ _ _ _ Hbt), Hw; cbn; by rewrite Hrr. }
  unfold get_run_row. rewrite Hrow2. cbn [ok_or]. eexists _, dbm, db1, db2, row', S, o.
  split_and!; [reflexivity| |done..].
  rewrite Hn. unfold db0. cbn. by rewrite insert_insert_eq.
Qed.

(** ** Ticks *)

(** The attempts a node may still take. *)
Definition attempts_left (retries : Z) (row : work_row) : nat :=
  if bool_decide (wn_status row = "pending")
  then Z.to_nat (Z.max 1 (retries + 1 - wn_attempt_count row)) else 0%nat.

Definition row_work (run : string) (retries : Z) (k : string * string) (row : work_row) : nat :=
  if bool_decide (k.1 = run) then attempts_left retries row else 0%nat.

Definition work (run : string) (retries : Z) (db : database) : nat :=
  msum (row_work run retries) (workflow_run_nodes db).

Lemma blocked_work run now S retries db db' :
  blocked_to run now S db db' → (work run retries db' ≤ work run retries db)%nat.
Proof.
  intros H. apply msum_le. intros [run' id] row' Hr.
  destruct (decide (run' = run ∧ id ∈ S)) as [[-> Hi]|Hn].
  - rewrite (bt_hit _ _ _ _ _ H _ Hi) in Hr. apply fmap_Some in Hr as (row & Hr & ->).
    exists row. split; [done|]. unfold row_work, attempts_left. cbn [blocked_row wn_status].
    rewrite (bool_decide_false (wn_status (blocked_row now row) = "pending")) by done. case_match; lia.
  - rewrite (bt_rest _ _ _ _ _ H (run', id) Hn) in Hr. exists row'. by split.
Qed.

Lemma blocked_plain run now S db db' :
  blocked_to run now S db db' → plain_run run db → plain_run run db'.
Proof.
  intros H Hpl. eapply plain_run_kept; [exact Hpl|apply same_run_eq, H| |apply H|].
  - intros id. destruct (bt_trees _ _ _ _ _ H) as [_ ->]. apply Hpl.
  - intros id row' Hr. destruct (decide (id ∈ S)) as [Hi|Hi].
    + rewrite (bt_hit _ _ _ _ _ H _ Hi) in Hr. apply fmap_Some in Hr as (row & Hr & ->).
      split_and!; [apply (bool_decide_unpack _); by vm_compute
        |exact (pl_json _ _ Hpl _ _ Hr)|exact (pl_attempts _ _ Hpl _ _ Hr)].
    + rewrite (bt_rest _ _ _ _ _ H) in Hr by naive_solver. split_and!; by eapply Hpl.
Qed.

Lemma enforced_status output meta :
  o_status output ∈ ["completed"; "failed"] →
  o_status (enforce_product_managed_token_budget output meta).1 ∈ ["completed"; "failed"].
Proof.
  intros H. assert (∀ d t, o_status (fail_output d t output) ∈ ["completed"; "failed"]) as Hf.
  { intros. apply (bool_decide_unpack _). by vm_compute. }
  unfold enforce_product_managed_token_budget. repeat (case_match; cbn [fst]); by try apply Hf.
Qed.

Lemma executed_status ty execute tt meta :
  (∀ v, o_status (execute v) ∈ ["completed"; "failed"]) →
  o_status (execute_leased ty execute tt meta).1 ∈ ["completed"; "failed"].
Proof.
  intros H. apply enforced_status. case_match; [|apply H]. apply (bool_decide_unpack _). by vm_compute.
Qed.

(** The work left after one attempt. *)
Lemma attempt_work run retries id row row' db dbm output :
  workflow_run_nodes db !! (run, id) = Some row → wn_status row = "pending" →
  workflow_run_nodes dbm = <[(run, id) := row']> (workflow_run_nodes db) →
  wn_attempt_count row' = wn_attempt_count row + 1 →
  o_status output ∈ ["completed"; "failed"] →
  wn_status row' = (if retried output (wn_attempt_count row + 1) retries then "pending" else o_status output) →
  (work run retries dbm < work run retries db)%nat.
Proof.
  intros Hr Hp Hn Ha Ho Hs. unfold work. rewrite Hn.
  pose proof (msum_update (row_work run retries) _ _ _ row' Hr) as Hu.
  assert (row_work run retries (run, id) row' < row_work run retries (run, id) row)%nat; [|lia].
  unfold row_work, attempts_left. cbn [fst]. rewrite !(bool_decide_true (run = run)), (bool_decide_true _ Hp) by done.
  rewrite Ha, Hs. unfold retried. destruct (retryable_node_failure output); cbn [andb].
  - destruct (Z.leb_spec (wn_attempt_count row + 1) retries); [rewrite bool_decide_true by done; lia|].
    rewrite bool_decide_false; [lia|]. intros E. rewrite E in Ho. by apply (bool_decide_pack _) in Ho.
  - rewrite bool_decide_false; [lia|]. intros E. rewrite E in Ho. by apply (bool_decide_pack _) in Ho.
Qed.

Lemma settled_conclude run actor now db db' status row :
  workflow_runs db !! run = Some row →
  conclude_run run actor now db = Some (Ok (Some status), db') → settled run db'.
Proof.
  intros Hr E. pose proof (conclude_bookkept _ _ _ _ _ _ E) as (runs & ev & log & Eb).
  apply conclude_inv in E as (Ha & Hv & Hw).
  exists (with_run_status status now row). rewrite Hw, lookup_alter_eq, Hr. subst db'. by split_and!.
Qed.

(** The run after an attempt was recorded and failures were propagated. *)
Lemma attempt_plain run now now' id row row' S db db1 dbm db2 :
  plain_run run db → workflow_run_nodes db !! (run, id) = Some row →
  workflow_run_nodes db1 = <[(run, id) := leased_row now row]> (workflow_run_nodes db) →
  workflow_run_edges db1 = workflow_run_edges db →
  recursive_execution_nodes db1 = recursive_execution_nodes db → same_run run db db1 →
  workflow_run_nodes dbm = <[(run, id) := row']> (workflow_run_nodes db1) →
  wn_status row' ∈ at_rest_statuses → plain_json (wn_node_json row') →
  wn_attempt_count row' = wn_attempt_count row + 1 →
  workflow_run_edges dbm = workflow_run_edges db1 →
  recursive_execution_nodes dbm = recursive_execution_nodes db1 → workflow_runs dbm = workflow_runs db1 →
  blocked_to run now' S dbm db2 → plain_run run db2.
Proof.
  intros Hpl Hr Hn1 He1 Hi1 Hs1 Hnm Hst Hj Ha Hem Him Hwm Hb. eapply blocked_plain; [exact Hb|].
  apply (plain_run_kept run db); [done| | |congruence|].
  - eapply same_run_trans; [exact Hs1|by apply same_run_eq].
  - intros i. rewrite Him, Hi1. apply Hpl.
  - intros i r. rewrite Hnm, Hn1, insert_insert_eq. destruct (decide (id = i)) as [<-|].
    + rewrite lookup_insert_eq. intros [= <-]. split_and!; [done..|].
      pose proof (pl_attempts _ _ Hpl _ _ Hr). lia.
    + rewrite lookup_insert_ne by congruence. intros Hi. split_and!; by eapply Hpl.
Qed.

(** [db1] is [db] with node [id] leased. *)
Record leased_in (run id now : string) (row : work_row) (db db1 : database) : Prop := {
  li_row : workflow_run_nodes db !! (run, id) = Some row;
  li_pending : wn_status row = "pending";
  li_nodes : workflow_run_nodes db1 = <[(run, id) := leased_row now row]> (workflow_run_nodes db);
  li_edges : workflow_run_edges db1 = workflow_run_edges db;
  li_index : recursive_execution_nodes db1 = recursive_execution_nodes db;
  li_run : same_run run db db1;
  li_live : live_run run db1;
}.

Definition moves_on (run : string) (retries : Z) (db db' : database) : Prop :=
  settled run db'
  ∨ (plain_run run db' ∧ live_run run db' ∧ (work run retries db' < work run retries db)%nat).

(** Recording the result of a fresh lease. *)
Lemma record_moves_on env run id now row actor clock retries mode ty output usage db db1 :
  plain_run run db → leased_in run id now row db db1 → o_status output ∈ ["completed"; "failed"] →
  ∃ res db', record_result contract_from_value env run id actor clock retries mode ty
      (wn_attempt_count row + 1) output usage db1 = Some (Ok res, db') ∧ moves_on run retries db db'.
Proof using parse_object object_fields.
  intros Hpl [Hr Hp Hn He Hi Hs Hl] Ho.
  destruct (record_plain env run id actor clock retries mode ty output usage db1 (leased_row now row))
    as (res & dbm & db2 & db' & row' & S & o & Er & Hnm & Hst & Hj & Hsh & Hem & Him & Hwm & Hbt & Hd & Ec).
  { by rewrite Hn, lookup_insert_eq. }
  { done. }
  { by apply (pl_json _ _ Hpl _ _ Hr). }
  { rewrite Hi. apply Hpl. }
  { destruct (pl_run _ _ Hpl) as (rr & Hrr & Hbp & _). destruct (Hs _ Hrr) as (rr' & Hrr' & Eb & _).
    exists rr'. by rewrite Eb. }
  exists res, db'. split; [done|]. destruct Hl as (rr & Hrr & Hlive). destruct o as [status|].
  - left. eapply settled_conclude; [|exact Ec]. rewrite (bt_runs _ _ _ _ _ Hbt), Hwm. exact Hrr.
  - right. apply conclude_inv in Ec as [_ ->].
    assert (wn_attempt_count row' = wn_attempt_count row + 1) as Hc by (by injection Hsh).
    assert (wn_status row' ∈ at_rest_statuses) as Hrest.
    { rewrite Hst. unfold at_rest_statuses. case_match; [by left|]. set_solver. }
    split_and!.
    + by eapply (attempt_plain run now (clock 1%nat)).
    + exists rr. by rewrite (bt_runs _ _ _ _ _ Hbt), Hwm.
    + eapply Nat.le_lt_trans; [by eapply blocked_work|]. eapply attempt_work; [done..| |exact Hc|exact Ho|exact Hst].
      by rewrite Hnm, Hn, insert_insert_eq.
Qed.

Lemma leased_in_audited run id now row db db1 db2 :
  leased_in run id now row db db1 → audited db1 db2 → leased_in run id now row db db2.
Proof. intros [] [log ->]. by split. Qed.

Lemma tick_plain env run actor c1 c2 retries ty mode execute inject db :
  plain_run run db → live_run run db → (∀ v, o_status (execute v) ∈ ["completed"; "failed"]) →
  ∃ o db', tick contract_from_value env run actor c1 c2 retries ty mode execute inject None None db
      = Some (Ok o, db') ∧ moves_on run retries db db'.
Proof using parse_object object_fields.
  intros Hpl Hl Hex. unfold tick.
  destruct (lease_plain env run actor c1 retries (bool_decide (ty = "agent_step")) db Hpl Hl)
    as (lease & db1 & El & Hcase). unfold bind at 1. rewrite El.
  destruct Hcase as [(id & row & wf & meta & -> & Hr & Hp & Hn & He & Hi & Hs & Hl1)|[(status & r & ->) Hset]];
    [|eexists _, _; split; [done|by left]].
  unfold bind at 1. set (audit := if bool_decide _ then _ else _).
  assert (∃ db2, audit db1 = Some (Ok tt, db2) ∧ audited db1 db2) as (db2 & Ea & Hau).
  { unfold audit. case_match; [eexists; split; [reflexivity|by eexists]|]. by exists db1. }
  rewrite Ea. destruct (execute_leased _ _ _ _) as [output usage] eqn:Eo.
  destruct (record_moves_on env run id (c1 1%nat) row actor c2 retries mode (wn_task_type row) output usage db db2)
    as (res & db' & Er & Hm); [done|by eapply leased_in_audited| |].
  { change output with (output, usage).1. rewrite <-Eo. by apply executed_status. }
  unfold bind at 1. rewrite Er. by eexists _, _.
Qed.

(** Ticks until the run has ended, at most [n]. *)
Definition run_over (run : string) (db : database) : bool :=
  match workflow_runs db !! run with
  | Some row => is_run_terminal (wr_status row)
  | None => true
  end.

Fixpoint run_ticks (n : nat) (run : string) (tick_of : nat → store (tick_outcome V)) (db : database)
    : option database :=
  if run_over run db then Some db
  else
    match n with
    | O => Some db
    | S n =>
      match tick_of (S n) db with
      | Some (_, db) => run_ticks n run tick_of db
      | None => None
      end
    end.

Lemma live_not_over run db : live_run run db → run_over run db = false.
Proof. intros (row & Hr & Ht). unfold run_over. by rewrite Hr. Qed.

Lemma settled_over run db : settled run db → run_over run db = true.
Proof. intros (row & Hr & Ht)%settled_terminal. unfold run_over. by rewrite Hr. Qed.

Lemma run_ticks_end run retries tick_of n db :
  (∀ i db, plain_run run db → live_run run db →
     ∃ o db', tick_of i db = Some (Ok o, db') ∧ moves_on run retries db db') →
  plain_run run db → live_run run db → (work run retries db < n)%nat →
  ∃ db', run_ticks n run tick_of db = Some db' ∧ settled run db'.
Proof.
  intros Ht. revert db. induction n as [|n IH]; intros db Hpl Hl Hw; [lia|].
  cbn [run_ticks]. rewrite live_not_over by done.
  destruct (Ht (S n) db Hpl Hl) as (o & db' & E & [Hs|(Hpl' & Hl' & Hlt)]); rewrite E.
  - exists db'. split; [|done]. destruct n; cbn [run_ticks]; by rewrite settled_over.
  - apply IH; [done..|lia].
Qed.

(** The attempts all nodes of the run can take together. *)
Lemma work_bound run retries db :
  plain_run run db → 0 <= retries →
  (work run retries db
   ≤ size (filter (λ kr, kr.1.1 = run) (workflow_run_nodes db)) * Z.to_nat (retries + 1))%nat.
Proof.
  intros Hpl Hret. apply msum_bound; cbn; intros [run' id] row Hr; cbn; unfold row_work, attempts_left; cbn.
  - intros ->. rewrite bool_decide_true by done. pose proof (pl_attempts _ _ Hpl _ _ Hr).
    case_match; lia.
  - intros Hne. by rewrite bool_decide_false.
Qed.
End progress.
