(* ===== verification/JsonCodec.v ===== *)
(** * A concrete JSON text

    A printer of the values of [JsonDemo] and the parser that reads them back,
    so that hypotheses on serde's printer and parser can be discharged. *)

From S2P Require Import Prelude Json Float64 NodeExecution.
From stdpp Require Import countable.
From Stdlib Require Import Ascii.
Import JsonDemo.

Local Open Scope Z_scope.

Module JsonCodec.

(** ** Induction *)

Section json_induction.
Context (P : json → Prop).
Context (Hnull : P JNull) (Hbool : ∀ b, P (JBool b)) (Hint : ∀ n, P (JInt n)) (Hstr : ∀ s, P (JStr s)).
Context (Harr : ∀ l, Forall P l → P (JArr l)).
Context (Hobj : ∀ l, Forall (λ kv, P kv.2) l → P (JObj l)).

Fixpoint json_induction (v : json) : P v :=
  match v with
  | JNull => Hnull
  | JBool b => Hbool b
  | JInt n => Hint n
  | JStr s => Hstr s
  | JArr l => Harr l ((fix go l := match l return Forall P l with
      | [] => Forall_nil_2 _
      | v :: l => Forall_cons_2 _ _ _ (json_induction v) (go l)
      end) l)
  | JObj l => Hobj l ((fix go l := match l return Forall (λ kv, P kv.2) l with
      | [] => Forall_nil_2 _
      | (k, v) :: l => Forall_cons_2 (λ kv, P kv.2) (k, v) l (json_induction v) (go l)
      end) l)
  end.
End json_induction.

(** ** Values as trees *)

Abbreviation leaf := (bool + (Z + string))%type.

Fixpoint to_tree (v : json) : gen_tree leaf :=
  match v with
  | JNull => GenNode 0 []
  | JBool b => GenLeaf (inl b)
  | JInt n => GenLeaf (inr (inl n))
  | JStr s => GenLeaf (inr (inr s))
  | JArr l => GenNode 1 (map to_tree l)
  | JObj l => GenNode 2 (map (λ '(k, v), GenNode 3 [GenLeaf (inr (inr k)); to_tree v]) l)
  end.

Fixpoint of_tree (t : gen_tree leaf) : json :=
  match t with
  | GenLeaf (inl b) => JBool b
  | GenLeaf (inr (inl n)) => JInt n
  | GenLeaf (inr (inr s)) => JStr s
  | GenNode 1 l => JArr (map of_tree l)
  | GenNode 2 l => JObj (map (λ t, match t with
      | GenNode 3 [GenLeaf (inr (inr k)); v] => (k, of_tree v)
      | _ => (EmptyString, JNull)
      end) l)
  | _ => JNull
  end.

Lemma of_to_tree v : of_tree (to_tree v) = v.
Proof.
  induction v as [|b|n|s|l IH|l IH] using json_induction; cbn; [done..| |]; f_equal; rewrite map_map.
  - induction IH as [|v l Hv _ IHl]; [done|]. cbn. by rewrite Hv, IHl.
  - induction IH as [|[k v] l Hv _ IHl]; [done|]. cbn in *. by rewrite Hv, IHl.
Qed.

#[export] Instance json_eq_dec : EqDecision json.
Proof.
  intros v w. destruct (decide (to_tree v = to_tree w)) as [E|E]; [left|right; congruence].
  by rewrite <-(of_to_tree v), <-(of_to_tree w), E.
Defined.

(** ** Text *)

Fixpoint bits (p : positive) : string :=
  match p with
  | xH => EmptyString
  | xO p => String "0"%char (bits p)
  | xI p => String "1"%char (bits p)
  end.

Fixpoint unbits (s : string) : option positive :=
  match s with
  | EmptyString => Some xH
  | String c s =>
    p ← unbits s;
    if bool_decide (c = "0"%char) then Some (xO p)
    else if bool_decide (c = "1"%char) then Some (xI p) else None
  end.

Lemma unbits_bits p : unbits (bits p) = Some p.
Proof. induction p as [p IH|p IH|]; cbn; by rewrite ?IH. Qed.

Definition json_text : JsonText json := {|
  json_null := JNull;
  json_bool := JBool;
  json_int := JInt;
  json_string := JStr;
  json_array := JArr;
  json_object m := JObj (map_to_list m);
  json_print v := bits (encode (to_tree v));
  json_parse s := of_tree <$> (unbits s ≫= decode) |}.

(** Numbers that are not integers do not occur in these values. *)
Definition json_numbers : JsonNumbers json := {|
  as_u64 v := match v with JInt n => if 0 <=? n then Some n else None | _ => None end;
  as_f64 v := match v with JInt n => Some (f64_of_Z n) | _ => None end;
  json_f64 _ := JNull;
  json_is_null v := bool_decide (v = JNull) |}.

#[export] Existing Instances json_value json_text json_numbers.

Lemma parse_print v : json_parse (json_print v) = Some v.
Proof. cbn. rewrite unbits_bits. cbn. rewrite decode_encode. cbn. by rewrite of_to_tree. Qed.

Lemma object_of_fields (m : gmap string json) : as_object (json_object m) = Some m.
Proof. cbn. by rewrite list_to_map_to_list. Qed.
End JsonCodec.
