(* ===== verification/WorkflowTheorems.v ===== *)
(** * Correctness of the workflow run scheduler *)

From S2P Require Import Prelude Text Json Float64 RecursiveExecution Persistence PersistenceProps PersistenceTheorems TreeStore TreeStoreProps TreeHistory NodeExecution WorkflowRuns WorkflowFrames WorkflowProps WorkflowSteps WorkflowProgress JsonCodec.
From stdpp Require Import relations.
Import FailureReason (RecursiveFailureReason).

Local Open Scope Z_scope.

(** The result and the database of an operation that does not panic. *)
Definition result_of {A} (m : store A) (db : database) : result string A :=
  match m db with Some (r, _) => r | None => Err EmptyString end.
Definition after {A} (m : store A) (db : database) : database :=
  match m db with Some (_, db) => db | None => db end.

Lemma ran {A} (m : store A) db : is_some (m db) = true → m db = Some (result_of m db, after m db).
Proof. unfold result_of, after. by destruct (m db) as [[]|]. Qed.

(** ** A run to tick: [build] fails for good, [test] waits for it, [lint] is free *)

Import JsonDemo JsonCodec.

Module RunDemo.
#[export] Existing Instances PersistenceDemo.deps listed_rows listed_order.
#[export] Instance no_trees : StoreDecoders json :=
  {| tree_from_str _ := Err EmptyString; authority_from_value _ := None |}.
#[export] Instance no_encoder : TreeEncoder := λ _, Err EmptyString.

Definition env : env_vars := λ _, None.
Definition contract_of (v : json) : option UsageContract.RecursiveUsageContract := None.
Definition clock (i : nat) : string := "t" +:+ pretty (Z.of_nat i).

Definition node (task_type status : string) (attempts : Z) : work_row :=
  mkWorkRow task_type status (json_print (JObj [("task_type", JStr task_type)])) None None None None
    attempts None None.
Definition runs : gmap string run_row :=
  {["r" := mkRunRow "wf" (json_print (JObj [])) "created" None None None "t0"]}.
Definition nodes : gmap (string * string) work_row := list_to_map [
  (("r", "build"), node "build" "pending" 0);
  (("r", "test"), node "agent_step" "pending" 0);
  (("r", "lint"), node "agent_step" "pending" 0)].
Definition edges : gmap (string * string) edge_row :=
  list_to_map [(("r", "e1"), mkEdgeRow "build" "test" "dependency" (json_print (JObj [])))].
Definition created : database := mkDatabase ∅ ∅ runs nodes edges [] [].

Definition output (status : string) (domain : option string) : NodeExecutionOutput :=
  mkOutput status "cli" None domain None None None None None None None.

Abbreviation lease agent caps :=
  (lease_ready_node (V:=json) env "r" "worker" clock 1 agent caps None).
Abbreviation record id ty attempt o :=
  (record_result contract_of env "r" id "worker" clock 1 ModeUnavailable ty attempt o None).

(** [lint] is leased, its lease goes stale, and it is leased again. *)
Definition caps : option (Z * Z) := Some (2, 1).
Definition seconds (s : string) : option Z := Some (if bool_decide (s = "late") then 100 else 0).
Definition no_injection : injection json := mkInjection (λ _ _, None) None None None.
Definition leased1 : database := after (lease true caps) created.
Definition recovered : database := after (recover_stale_leases env seconds "late" 60000) leased1.
Definition leased2 : database := after (lease true caps) recovered.
Definition stale : database := after (record "lint" "agent_step" 1 (output "completed" None)) leased2.
End RunDemo.
Import RunDemo.

(** C5: A lease is only taken where it may be.  When a tick leases a node, the
    run exists, has not ended and belongs to the caller; the node was pending;
    every node it depends on has completed, or has failed or recovered and the
    node is a [fix] node.  An agent step was below both caps, and one of a tree
    below the recursive cap.  The lease is the next attempt of that node, and no
    other row changes. *)
Theorem lease_sound {V : Type} `{JV : JsonValue V} `{JT : JsonText V} `{JN : JsonNumbers V}
    `{SD : StoreDecoders V} `{Deps : RecursiveDeps} `{TE : TreeEncoder} `{RO : RowOrder}
    env run actor clock retries agent caps owner db id ty wf n meta db' :
  lease_ready_node env run actor clock retries agent caps owner db
    = Some (Ok (Leased id ty wf n meta), db') →
  tickable run owner db
  ∧ ∃ row, workflow_run_nodes db !! (run, id) = Some row
      ∧ wn_status row = "pending" ∧ ty = wn_task_type row ∧ n = wn_attempt_count row + 1
      ∧ (∀ eid e parent, workflow_run_edges db !! (run, eid) = Some e → we_to_node_id e = id →
           workflow_run_nodes db !! (run, we_from_node_id e) = Some parent →
           wn_status parent = "completed"
           ∨ (ty = "fix" ∧ wn_status parent ∈ ["failed"; "recovered"]))
      ∧ (ty = "agent_step" → ∀ g p, caps = Some (g, p) →
           count_running_agent_steps_locked db < as_i64_cast g
           ∧ count_running_agent_steps_for_run_locked run db < as_i64_cast p)
      ∧ (ty = "agent_step" → recursive_enabled env = true →
           workflow_node_is_recursive_locked run id db = Ok true →
           ∃ k, count_running_recursive_steps_locked db = Ok k ∧ k < MAX_RECURSIVE_LEASES)
      ∧ workflow_run_nodes db'
        = <[(run, id) := leased_row (clock 1%nat) row]> (workflow_run_nodes db)
      ∧ workflow_run_edges db' = workflow_run_edges db.
Proof.
  intros [Ht Ho]%lease_inv. split; [done|]. inversion Ho as [id' row meta' wf' Hg Hj| |db1 l _ _ Hc]; [|inversion Hc].
  subst. destruct Hg as [Hr Hp Hd [a Ha] Hn He]. exists row.
  unfold admitted, task_type_of in Ha. rewrite Hr in Ha. cbn [fmap option_fmap option_map default] in Ha.
  split_and!; [done..| | | |done|done].
  - intros eid e parent H1 H2 H3. specialize (Hd _ _ _ H1 H2 H3). unfold dependency_met in Hd.
    apply orb_true_iff in Hd as [Hd|Hd]; [by left; apply bool_decide_eq_true in Hd|right].
    apply andb_true_iff in Hd as [? ?]. by rewrite !bool_decide_eq_true in *.
  - intros Ety g p ->. rewrite bool_decide_true in Ha by done. by destruct Ha as (_ & _ & Ha).
  - intros Ety Hen Hrec. rewrite bool_decide_true in Ha by done. destruct Ha as [Ha _].
    destruct (Ha Hen) as (b & Hb & Hk). rewrite Hrec in Hb. injection Hb as <-. by apply Hk.
Qed.

Lemma lease_sound_witness :
  ∃ row, workflow_run_nodes created !! ("r", "lint") = Some row ∧ wn_attempt_count row = 0
    ∧ workflow_run_nodes (after (lease true caps) created)
      = <[("r", "lint") := leased_row "t1" row]> (workflow_run_nodes created).
Proof.
  destruct (result_of (lease true caps) created) as [[| |id ty wf n meta]|] eqn:E;
    [vm_compute in E; discriminate E..| |vm_compute in E; discriminate E].
  assert (H : is_some (lease true caps created) = true) by (vm_compute; reflexivity).
  apply ran in H. rewrite E in H. vm_compute in E. injection E as <- _ _ <- _.
  apply lease_sound in H as (_ & row & Hr & _ & _ & Hn & _ & _ & _ & Hnodes & _).
  exists row. split; [exact Hr|]. split; [clear -Hn; lia|exact Hnodes].
Defined.

(** C16: The caps hold.  However leases, results, recoveries of stale leases and
    operator requests interleave, and whatever the executors return, the agent
    steps that are running never exceed the global cap, nor those of one run the
    cap per run, as long as every lease is asked for with caps no larger. *)
Theorem agent_caps_hold {V : Type} `{JV : JsonValue V} `{JT : JsonText V} `{JN : JsonNumbers V}
    `{SD : StoreDecoders V} `{Deps : RecursiveDeps} `{TE : TreeEncoder} `{RO : RowOrder}
    `{HO : HashOrder} contract global per_run db db' :
  rtc (sched_step contract (within_caps global per_run)) db db' →
  count_running_agent_steps_locked db <= global →
  (∀ run, count_running_agent_steps_for_run_locked run db <= per_run) →
  count_running_agent_steps_locked db' <= global
  ∧ ∀ run, count_running_agent_steps_for_run_locked run db' <= per_run.
Proof. intros H Hg Hp. by apply (sched_steps_caps _ _ _ _ _ H). Qed.

Lemma idle_count run db :
  map_Forall (λ _ row, agent_running row = false) (workflow_run_nodes db) →
  count_running_agent_steps_for_run_locked run db = 0.
Proof.
  intros Hf. unfold count_running_agent_steps_for_run_locked.
  change 0 with (Z.of_nat (size (∅ : gmap (string * string) work_row))). do 2 f_equal. apply map_eq. intros k.
  rewrite lookup_empty. apply map_lookup_filter_None. right. intros row Hk [_ Ha]. cbn [snd] in Ha.
  by rewrite (Hf k row Hk) in Ha.
Qed.

Lemma demo_lease1 : sched_step contract_of (within_caps 2 1) created leased1.
Proof.
  apply (sc_lease _ _ _ _ env "r" "worker" clock 1 true caps None (result_of (lease true caps) created)).
  - exists 2, 1. split_and!; [reflexivity|vm_compute; discriminate..].
  - apply (ran (lease true caps) created). vm_compute. reflexivity.
Qed.

Lemma demo_recover : sched_step contract_of (within_caps 2 1) leased1 recovered.
Proof.
  apply (sc_recover _ _ _ _ env seconds "late" 60000
    (result_of (recover_stale_leases env seconds "late" 60000) leased1)).
  apply (ran (recover_stale_leases env seconds "late" 60000) leased1). vm_compute. reflexivity.
Qed.

Lemma demo_lease2 : sched_step contract_of (within_caps 2 1) recovered leased2.
Proof.
  apply (sc_lease _ _ _ _ env "r" "worker" clock 1 true caps None (result_of (lease true caps) recovered)).
  - exists 2, 1. split_and!; [reflexivity|vm_compute; discriminate..].
  - apply (ran (lease true caps) recovered). vm_compute. reflexivity.
Qed.

Lemma agent_caps_hold_witness :
  rtc (sched_step contract_of (within_caps 2 1)) created leased2
  ∧ count_running_agent_steps_locked leased2 <= 2.
Proof.
  assert (H : rtc (sched_step contract_of (within_caps 2 1)) created leased2).
  { eapply rtc_l; [apply demo_lease1|]. eapply rtc_l; [apply demo_recover|]. apply rtc_once, demo_lease2. }
  split; [exact H|].
  assert (Hg : count_running_agent_steps_locked created <= 2) by (vm_compute; discriminate).
  assert (Hp : ∀ run, count_running_agent_steps_for_run_locked run created <= 1).
  { intros run. assert (map_Forall (λ _ row, agent_running row = false) (workflow_run_nodes created)) as Hf.
    { apply (bool_decide_unpack _). vm_compute. exact I. }
    rewrite idle_count by exact Hf. discriminate. }
  destruct (agent_caps_hold contract_of 2 1 created leased2 H Hg Hp) as [Hc _]. exact Hc.
Defined.

(** C26: A failure blocks exactly the nodes it dooms.  Propagation always ends.
    It blocks a pending node of the run if and only if there is a path to it, over
    pending nodes, from a node that failed, was cancelled or is blocked; every
    other row, and every edge and run, stays as it is. *)
Theorem propagation_exact {V : Type} `{JV : JsonValue V} `{JT : JsonText V} `{RO : RowOrder}
    run actor now db :
  ∃ db', propagate_failed_dependencies_locked run actor now db = Some (Ok tt, db')
    ∧ (∀ id row, workflow_run_nodes db !! (run, id) = Some row →
         (doomed run db id → workflow_run_nodes db' !! (run, id) = Some (blocked_row now row))
         ∧ (¬ doomed run db id → workflow_run_nodes db' !! (run, id) = Some row))
    ∧ (∀ k, k.1 ≠ run → workflow_run_nodes db' !! k = workflow_run_nodes db !! k)
    ∧ workflow_run_edges db' = workflow_run_edges db ∧ workflow_runs db' = workflow_runs db.
Proof.
  destruct (propagate_ok run actor now db) as (S & db' & E & H & Hd). exists db'. split; [done|].
  split_and!; [|intros k Hk; apply (bt_rest _ _ _ _ _ H); naive_solver|apply H|apply H].
  intros id row Hr. split; intros Hid.
  - by rewrite (bt_hit _ _ _ _ _ H id (Hd id Hid)), Hr.
  - rewrite (bt_rest _ _ _ _ _ H); [done|]. intros [_ Hin]. by apply Hid, (bt_doomed _ _ _ _ _ H).
Qed.

(** C14: Runs end.  Take a run without recursion whose edges have no cycle, and
    executors that complete or fail.  After at most one tick per attempt its nodes
    may take, and one more, no tick having panicked, every node has ended and the
    run's status says how: failed if and only if some node failed or was blocked. *)
Theorem run_terminates {V : Type} `{JV : JsonValue V} `{JT : JsonText V} `{JN : JsonNumbers V}
    `{SD : StoreDecoders V} `{Deps : RecursiveDeps} `{TE : TreeEncoder} `{RO : RowOrder}
    contract env run actor lease_clock record_clock retries ty mode execute inject db :
  (∀ m : gmap string V, json_parse (json_print (json_object m)) = Some (json_object m)) →
  (∀ m : gmap string V, as_object (json_object m) = Some m) →
  plain_run run db → live_run run db → 0 <= retries →
  (∀ i v, o_status (execute i v) ∈ ["completed"; "failed"]) →
  let attempts :=
    (size (filter (λ kr, kr.1.1 = run) (workflow_run_nodes db)) * Z.to_nat (retries + 1))%nat in
  ∃ db' row,
    run_ticks (S attempts) run (λ i, tick contract env run actor (lease_clock i) (record_clock i)
      retries ty mode (execute i) inject None None) db = Some db'
    ∧ workflow_runs db' !! run = Some row ∧ all_ended run db'
    ∧ ((some_failed run db' ∧ wr_status row = "failed")
       ∨ (¬ some_failed run db' ∧ wr_status row = "completed")).
Proof.
  intros Hp Ho Hpl Hl Hret Hex. cbv zeta.
  destruct (run_ticks_end run retries (λ i, tick contract env run actor (lease_clock i) (record_clock i)
    retries ty mode (execute i) inject None None)
    (S (size (filter (λ kr, kr.1.1 = run) (workflow_run_nodes db)) * Z.to_nat (retries + 1))) db)
    as (db' & E & row & Hr & Ha & Hv).
  - intros i db1 Hpl1 Hl1. by apply tick_plain.
  - done.
  - done.
  - pose proof (work_bound _ _ _ Hpl Hret). lia.
  - exists db', row. by split_and!.
Qed.

Lemma created_plain : plain_run "r" created.
Proof.
  assert (Hall : map_Forall (λ _ row, wn_status row = "pending" ∧ wn_attempt_count row = 0
    ∧ json_parse (wn_node_json row) = Some (JObj [("task_type", JStr (wn_task_type row))]))
    (workflow_run_nodes created)).
  { apply (bool_decide_unpack _). vm_compute. exact I. }
  split.
  - eexists. split; [vm_compute; reflexivity|]. split; [eexists; vm_compute; reflexivity|discriminate].
  - intros id row Hr. destruct (Hall _ _ Hr) as [Es _]. rewrite Es. by left.
  - intros id row Hr. destruct (Hall _ _ Hr) as (_ & _ & Ej). eexists _, _. split; [exact Ej|].
    split; [reflexivity|]. by split.
  - intros id row Hr. destruct (Hall _ _ Hr) as (_ & Ea & _). rewrite Ea. lia.
  - intros id. apply lookup_empty.
  - exists (λ id, if bool_decide (id = "test") then 1%nat else 0%nat). intros eid e He.
    apply elem_of_list_to_map_2 in He. apply list_elem_of_singleton in He as [= _ ->]. vm_compute. lia.
Qed.

Lemma run_terminates_witness :
  ∃ db' row, run_ticks 7 "r" (λ i, tick contract_of env "r" "worker" clock clock 1 "cli" ModeUnavailable
      (λ _, output "failed" None) no_injection None None) created = Some db'
    ∧ workflow_runs db' !! "r" = Some row ∧ all_ended "r" db'
    ∧ ((some_failed "r" db' ∧ wr_status row = "failed")
       ∨ (¬ some_failed "r" db' ∧ wr_status row = "completed")).
Proof.
  apply (run_terminates contract_of env "r" "worker" (λ _, clock) (λ _, clock) 1 "cli" ModeUnavailable
    (λ _ _, output "failed" None) no_injection created (λ m, parse_print (json_object m))
    object_of_fields created_plain).
  - eexists. split; vm_compute; reflexivity.
  - lia.
  - intros _ _. right. by left.
Defined.

(** C36: Ended nodes stay ended.  Once a node is neither pending nor running, no
    operation of the scheduler changes its status, and it is never leased again. *)
Theorem ended_nodes_stay {V : Type} `{JV : JsonValue V} `{JT : JsonText V} `{JN : JsonNumbers V}
    `{SD : StoreDecoders V} `{Deps : RecursiveDeps} `{TE : TreeEncoder} `{RO : RowOrder}
    `{HO : HashOrder} contract allowed run id row db db' :
  workflow_run_nodes db !! (run, id) = Some row → unfinished row = false →
  rtc (sched_step contract allowed) db db' →
  (∃ row', workflow_run_nodes db' !! (run, id) = Some row' ∧ wn_status row' = wn_status row)
  ∧ ∀ env actor clock retries agent caps owner ty wf n meta db'',
      lease_ready_node env run actor clock retries agent caps owner db'
        ≠ Some (Ok (Leased id ty wf n meta), db'').
Proof.
  intros Hr Hu Hs. destruct (sched_steps_kept _ _ _ _ Hs (run, id) row I Hr Hu) as (row' & Hr' & E).
  split; [by exists row'|]. intros env actor clock retries agent caps owner ty wf n meta db'' [_ Ho]%lease_inv.
  inversion Ho as [? row2 ? ? [Hr2 Hp _ _ _ _] ?| |? ? _ _ Hc]; [|inversion Hc]. subst.
  rewrite Hr' in Hr2. injection Hr2 as <-. unfold unfinished in Hu. rewrite <-E, Hp in Hu. by vm_compute in Hu.
Qed.

Definition built : database :=
  after (record "build" "build" 1 (output "completed" None)) (after (lease false None) created).

Lemma ended_nodes_stay_witness :
  ∃ row', workflow_run_nodes (after (lease true None) built) !! ("r", "build") = Some row'
    ∧ wn_status row' = "completed".
Proof.
  destruct (workflow_run_nodes built !! ("r", "build")) as [row|] eqn:E; [|vm_compute in E; discriminate E].
  assert (Hu : unfinished row = false ∧ wn_status row = "completed").
  { vm_compute in E. injection E as <-. split; vm_compute; reflexivity. }
  destruct Hu as [Hu Hs].
  assert (Hl : sched_step contract_of (λ _, True) built (after (lease true None) built)).
  { assert (H : is_some (lease true None built) = true) by (vm_compute; reflexivity). apply ran in H.
    exact (sc_lease _ _ _ _ env "r" "worker" clock 1 true None None _ I H). }
  destruct (ended_nodes_stay contract_of (λ _, True) "r" "build" row built (after (lease true None) built)
    E Hu (rtc_once _ _ Hl)) as [(row' & Hr' & Es) _].
  exists row'. split; [exact Hr'|]. rewrite Es. exact Hs.
Defined.

(** ** Where the code departs from what it says *)

(** A [fix] node may depend on a failed node, but it is blocked when one of the
    nodes it depends on has failed by the time failures are propagated. *)
Lemma fix_nodes_blocked {V : Type} `{JV : JsonValue V} `{JT : JsonText V} `{RO : RowOrder}
    run actor now db id row eid e parent :
  workflow_run_nodes db !! (run, id) = Some row → wn_task_type row = "fix" →
  wn_status row = "pending" → workflow_run_edges db !! (run, eid) = Some e → we_to_node_id e = id →
  workflow_run_nodes db !! (run, we_from_node_id e) = Some parent → wn_status parent = "failed" →
  dependency_met (wn_task_type row) (wn_status parent) = true
  ∧ ∃ db', propagate_failed_dependencies_locked run actor now db = Some (Ok tt, db')
      ∧ workflow_run_nodes db' !! (run, id) = Some (blocked_row now row).
Proof.
  intros Hr Ht Hp He Hto Hpr Hf. split; [by rewrite Ht, Hf|].
  destruct (propagate_ok run actor now db) as (S & db' & E & H & Hd). exists db'. split; [done|].
  rewrite (bt_hit _ _ _ _ _ H), Hr; [done|]. apply Hd. eapply doomed_parent; [done..|]. by rewrite Hf.
Qed.

(** A lease that was taken in the future, by a clock that was set back since,
    counts as expired at once. *)
Lemma future_lease_expires parse_time leased_at now l n timeout :
  parse_time leased_at = Some l → parse_time now = Some n → n < l < n + 2 ^ 53 → timeout < 2 ^ 63 →
  stale_lease_is_expired parse_time leased_at now timeout = true.
Proof.
  intros El En Hl Ht. unfold stale_lease_is_expired. rewrite El, En. apply Z.ltb_lt. unfold u64_wrap.
  replace ((n - l) * 1000) with (2 ^ 64 - (l - n) * 1000 + (-1) * 2 ^ 64) by lia.
  rewrite Z.mod_add by lia. rewrite Z.mod_small by lia. lia.
Qed.
