(* ===== verification/WorkflowRetry.v ===== *)
(** * Retries of recursive nodes, and the scheduler over the tree store

    The scheduler's operations are histories of the tree store, so what is proved
    of stored trees holds under the scheduler.  A retry of a node that belongs to
    a tree is announced but never takes place. *)

From S2P Require Import Prelude Text Json Float64 RecursiveExecution Persistence PersistenceProps PersistenceTheorems TreeStore TreeStoreProps TreeHistory NodeExecution WorkflowRuns WorkflowFrames WorkflowProps WorkflowSteps JsonCodec WorkflowTheorems.
From stdpp Require Import relations.
Import FailureReason (RecursiveFailureReason).
Import JsonDemo JsonCodec.

Local Open Scope Z_scope.

#[local] Instance RecursiveBudget_dec : EqDecision RecursiveBudget.
Proof. solve_decision. Defined.
#[local] Instance RecursiveNode_dec : EqDecision RecursiveNode.
Proof. solve_decision. Defined.
#[local] Instance RecursiveDecisionEvidence_dec : EqDecision RecursiveDecisionEvidence.
Proof. solve_decision. Defined.
#[local] Instance RecursiveTree_dec : EqDecision RecursiveTree.
Proof. solve_decision. Defined.

(** ** A run with a tree: [root] delegated to a child, [other] is plain *)

Module RetryDemo.
#[export] Existing Instances PersistenceDemo.deps listed_rows listed_order.

Definition env : env_vars := PersistenceDemo.env.
Definition scope : RecursiveScope := mkScope (Some "repo") {["docs/"]} {["read"]}.
Definition authority : RecursiveRootAuthority :=
  mkAuthority RECURSIVE_ROOT_AUTHORITY_VERSION scope {["read"]}
    (mkBudget 10 1000 5000 60000) (mkBudget 6 600 3000 36000) UsageContract.Measured.
Definition metadata : json := JObj [
  ("node_id", JStr "root"); ("recursive_root_node_id", JStr "root"); ("task_type", JStr "agent_step");
  ("agent_id", JStr "agent"); ("agent_objective", JStr "Review the documentation");
  ("creation_receipt_sha256", JStr "plan"); ("recursive_root_authority", JStr "authority")].
Definition boundaries : json := JObj [("workspace_id", JStr "w1")].
Definition authority_of (v : json) : option RecursiveRootAuthority :=
  if bool_decide (v = JStr "authority") then Some authority else None.
Definition usage : RecursiveBudget := mkBudget 1 40 100 200.
Definition contract_of (v : json) : option UsageContract.RecursiveUsageContract :=
  Some (UsageContract.Fixture 1 40 100 200).
Definition clock (i : nat) : string := "t" +:+ pretty (Z.of_nat i).

Section trees.
#[local] Instance no_trees : StoreDecoders json :=
  {| tree_from_str _ := Err EmptyString; authority_from_value := authority_of |}.
Definition created : RecursiveTree :=
  match recursive_root_tree_from_metadata "run-1" "wf-1" "root" metadata boundaries with
  | Ok t => t
  | Err _ => PersistenceDemo.root
  end.
End trees.
Definition proposal : RecursiveProposal := {|
  p_proposal_id := "p1"; p_parent_node_id := "root"; p_parent_version := 1;
  p_objective := "Summarise section two"; p_context_summary := EmptyString;
  p_requested_capabilities := {["read"]}; p_requested_scope := scope;
  p_budget := mkBudget 2 100 500 1000; p_receipt_sha256 := "receipt-1" |}.
Definition child : string :=
  derived_node_id "run-1" "p1" (objective_fingerprint (p_objective proposal)).
Definition admitted : RecursiveTree :=
  match admit_child env proposal created with Some (_, t) => t | None => created end.
Definition claim : string := claim_id "run-1" child 1.
Definition leased : RecursiveTree := (lease_node env child claim admitted).2.
Definition failed : RecursiveTree :=
  (complete_node_with_usage_receipt child claim claim false usage leased).2.
Definition retried : RecursiveTree := (retry_node child failed).2.
Definition leased_again : RecursiveTree := (lease_node env child (claim_id "run-1" child 2) retried).2.

Definition table : list (string * RecursiveTree) :=
  [("created", created); ("admitted", admitted); ("leased", leased); ("retried", retried);
   ("leased again", leased_again)].
#[export] Instance encoder : TreeEncoder := λ t,
  match filter (λ e, e.2 = t) table with e :: _ => Ok e.1 | [] => Err EmptyString end.
#[export] Instance decoders : StoreDecoders json := {|
  tree_from_str s := match filter (λ e, e.1 = s) table with e :: _ => Ok e.2 | [] => Err EmptyString end;
  authority_from_value := authority_of |}.

Definition row (task_type status : string) (node_json : json) (attempts : Z) : work_row :=
  mkWorkRow task_type status (json_print node_json) None None None None attempts None None.
Definition empty_store : database :=
  mkDatabase ∅ ∅
    {["run-1" := mkRunRow "wf-1" (json_print boundaries) "running" None (Some "t0") None "t0"]}
    (list_to_map [
      (("run-1", "root"), row "agent_step" "completed" metadata 1);
      (("run-1", child), row "agent_step" "pending"
         (JObj [("node_id", JStr child); ("recursive_node_id", JStr child);
                ("usage_contract", JStr "fixture")]) 0);
      (("run-1", "other"), row "build" "pending" (JObj [("node_id", JStr "other")]) 0)]) ∅ [] [].
Definition with_child : database :=
  after (save_recursive_tree_with_expected_version admitted "t2" 1)
    (after (ensure_recursive_root_tree "run-1" "wf-1" "root" metadata "t1") empty_store).

Abbreviation lease agent :=
  (lease_ready_node (V:=json) env "run-1" "worker" clock 1 agent None None).
Definition failure : NodeExecutionOutput :=
  mkOutput "failed" "agent_step" None None None None None None None None None.
Abbreviation record_child :=
  (record_result contract_of env "run-1" child "worker" clock 1 ModeFixture "agent_step" 1 failure None).
Definition with_lease : database := after (lease true) with_child.
Definition with_retry : database := after record_child with_lease.
End RetryDemo.
Import RetryDemo.

(** The scheduler keeps to the tree store.  Every history of leases, results,
    recoveries and operator requests is a history of the tree store's own
    operations: trees are only changed by loading, one operation and a save that
    checks the version.  So all that holds of stored trees holds under it. *)
Theorem scheduler_refines_store {V : Type} `{JV : JsonValue V} `{JT : JsonText V} `{JN : JsonNumbers V}
    `{SD : StoreDecoders V} `{Deps : RecursiveDeps} `{TE : TreeEncoder} `{RO : RowOrder}
    `{HO : HashOrder} contract allowed db db' :
  rtc (sched_step contract allowed) db db' → rtc store_step db db'.
Proof.
  induction 1 as [|db1 db2 db3 H _ IH]; [done|]. etransitivity; [|exact IH]. destruct H.
  - by eapply lease_history.
  - by eapply record_history.
  - by eapply recover_history.
  - by eapply request_history.
  - by eapply context_history.
  - eapply rtc_once, ss_handler, hs_control. done.
Qed.

Lemma demo_leased : sched_step contract_of (λ _, True) with_child with_lease.
Proof.
  assert (H : is_some (lease true with_child) = true) by (vm_compute; reflexivity). apply ran in H.
  exact (sc_lease _ _ _ _ env "run-1" "worker" clock 1 true None None _ I H).
Qed.

Lemma demo_recorded : sched_step contract_of (λ _, True) with_lease with_retry.
Proof.
  assert (H : is_some (record_child with_lease) = true) by (vm_compute; reflexivity). apply ran in H.
  exact (sc_record _ _ _ _ env "run-1" child "worker" clock 1 ModeFixture "agent_step" 1 failure None _ H).
Qed.

Lemma scheduler_refines_store_witness :
  recursive_execution_trees with_lease ≠ recursive_execution_trees with_retry
  ∧ rtc store_step with_child with_retry.
Proof.
  split; [intros E; apply (f_equal (λ m, tr_tree_json <$> m !! "run-1")) in E; vm_compute in E; discriminate E|].
  apply (scheduler_refines_store contract_of (λ _, True)).
  eapply rtc_l; [apply demo_leased|]. apply rtc_once, demo_recorded.
Defined.

(** The rest of the run completes, and then the run neither continues nor ends. *)
Definition with_other : database :=
  after (record_result contract_of env "run-1" "other" "worker" clock 1 ModeUnavailable "build" 1
    (mkOutput "completed" "cli" None None None None None None None None None) None)
    (after (lease false) with_retry).

Example retry_stalls_run :
  ∃ run, result_of (lease true) with_other = Ok (NoReadyNode run)
    ∧ result_of (lease false) with_other = Ok (NoReadyNode run)
    ∧ wr_status run = "running"
    ∧ wn_status <$> workflow_run_nodes with_other !! ("run-1", "other") = Some "completed".
Proof. eexists. split_and!; vm_compute; reflexivity. Qed.
