(* ===== verification/TokenBudget.v ===== *)
(** * The token budget of a managed execution, over its attempts

    Each attempt of a managed node reads the tokens of the attempts before it from
    the metadata it was leased with, and stores the new sum with its result.  The
    attempts together stay within the budget. *)

From S2P Require Import Prelude Text Json Float64 RecursiveExecution TreeStore NodeExecution WorkflowRuns JsonCodec.

Local Open Scope Z_scope.

Section token_budget.
Context {V : Type} `{JV : JsonValue V} `{JT : JsonText V} `{JN : JsonNumbers V}.

(** What serde's accessors return for values built with [json!]. *)
Hypothesis object_fields : ∀ m : gmap string V, as_object (json_object m) = Some m.
Hypothesis number_read : ∀ n, is_u64 n → as_u64 (json_int n) = Some n.
Hypothesis string_read : ∀ s, as_str (json_string s) = Some s.

(** One attempt: what the executor returned, and what its row is settled with. *)
Record attempt : Type := mkAttempt {
  at_output : NodeExecutionOutput;
  at_status : string;
  at_now : string;
}.

(** The [i]-th attempt on the stored JSON: its settled result and the new JSON. *)
Definition run_attempt (run_id node_id : string) (i : Z) (node_json : V) (a : attempt)
    : NodeExecutionOutput * V :=
  let '(output, usage) :=
    enforce_product_managed_token_budget (at_output a)
      (claimed_metadata run_id node_id i node_json) in
  (output, settled_node_json (at_status a) (at_now a) (to_value output) usage node_json).

Fixpoint run_attempts (run_id node_id : string) (i : Z) (node_json : V) (l : list attempt)
    : list NodeExecutionOutput :=
  match l with
  | [] => []
  | a :: l =>
    let '(output, node_json) := run_attempt run_id node_id i node_json a in
    output :: run_attempts run_id node_id (i + 1) node_json l
  end.

(** The tokens an attempt reports; none when it reports no usable number. *)
Definition tokens (a : attempt) : Z := default 0 (measured_tokens (at_output a)).

Definition total_tokens (l : list attempt) : Z := foldr (λ a n, tokens a + n) 0 l.

(** ** Stored usage *)

Definition field (node_json : V) (key : string) : option V := json_get node_json key.

(** The metadata of a managed node with this budget. *)
Record managed (limit : Z) (node_json : V) : Prop := {
  mg_object : is_Some (as_object node_json);
  mg_apply : is_managed_product_apply node_json = true;
  mg_limit : json_pointer2 node_json "product_budget" "total_tokens" ≫= as_u64 = Some limit;
}.

(** Attempt [i] finds the sum [n] of the attempts before it, or nothing usable,
    and then no later attempt does. *)
Definition lineage (i : Z) (node_json : V) (n : option Z) : Prop :=
  match n with
  | Some n => is_u64 n ∧ prior_cumulative (Some i) (field node_json "product_managed_usage") = Some n
  | None => ∀ k, i <= k → prior_cumulative (Some k) (field node_json "product_managed_usage") = None
  end.

Lemma claimed_field run_id node_id i node_json key :
  is_Some (as_object node_json) → key ≠ "scheduler_claim_id" → key ≠ "execution_attempt" →
  json_get (claimed_metadata run_id node_id i node_json) key = json_get node_json key.
Proof.
  intros [m Hm] H1 H2. unfold json_get, claimed_metadata. rewrite object_fields, Hm. cbn.
  by rewrite !lookup_insert_ne.
Qed.

Lemma settled_field status now result usage node_json key :
  is_Some (as_object node_json) → key ∉ ["status"; "result"; "product_managed_usage"; "completed_at"] →
  json_get (settled_node_json status now result usage node_json) key = json_get node_json key.
Proof.
  intros [m Hm] Hk. unfold json_get, settled_node_json. rewrite Hm, object_fields. cbn.
  assert (key ≠ "status" ∧ key ≠ "result" ∧ key ≠ "product_managed_usage" ∧ key ≠ "completed_at")
    as (? & ? & ? & ?) by set_solver.
  destruct usage; case_bool_decide; by rewrite ?lookup_insert_ne.
Qed.

Lemma settled_usage status now result usage node_json :
  is_Some (as_object node_json) →
  field (settled_node_json status now result usage node_json) "product_managed_usage"
  = match usage with Some u => Some u | None => field node_json "product_managed_usage" end.
Proof.
  intros [m Hm]. unfold field, json_get, settled_node_json. rewrite Hm, object_fields. cbn.
  destruct usage; case_bool_decide;
    by repeat first [rewrite lookup_insert_eq | rewrite lookup_insert_ne by done].
Qed.

Lemma managed_settled limit status now result usage node_json :
  managed limit node_json → managed limit (settled_node_json status now result usage node_json).
Proof.
  intros [Ho Ha Hl]. split.
  - destruct Ho as [m Hm]. unfold settled_node_json. rewrite Hm, object_fields. by eexists.
  - unfold is_managed_product_apply, json_pointer2, json_get_str in *.
    rewrite !settled_field; [done|done|set_solver|done|set_solver].
  - unfold json_pointer2 in *. rewrite settled_field; [done|done|set_solver].
Qed.

(** ** One attempt *)

Ltac read_fields :=
  cbn [list_to_map foldr fst snd];
  repeat first [rewrite lookup_insert_eq | rewrite lookup_insert_ne by done]; cbn [mbind option_bind].

(** What a settlement stores for the next attempt. *)
Lemma stored_measured i n t limit :
  is_u64 i → is_u64 n → prior_cumulative (Some (i + 1)) (Some (measured_usage i n t limit)) = Some n.
Proof.
  intros Hi Hn. unfold prior_cumulative, measured_usage, json_get_str, json_get. rewrite object_fields.
  cbn [mbind option_bind]. read_fields. rewrite string_read, !number_read by done.
  rewrite !bool_decide_true; [done| |done]. unfold u64_saturating_sub, is_u64 in *. f_equal. lia.
Qed.

Lemma stored_unavailable i n :
  is_u64 i → is_u64 n → prior_cumulative (Some (i + 1)) (Some (unavailable_usage i n)) = Some n.
Proof.
  intros Hi Hn. unfold prior_cumulative, unavailable_usage, json_get_str, json_get. rewrite object_fields.
  cbn [mbind option_bind]. read_fields. rewrite string_read, !number_read by done.
  rewrite !bool_decide_true; [done| |done]. unfold u64_saturating_sub, is_u64 in *. f_equal. lia.
Qed.

(** Usage that fits attempt [i] fits no later attempt. *)
Lemma prior_stale i k usage n :
  1 <= i → i < k → prior_cumulative (Some i) usage = Some n → prior_cumulative (Some k) usage = None.
Proof.
  intros Hi Hk. unfold prior_cumulative. destruct usage as [u|].
  - destruct (bool_decide _); cbn [andb]; [|done].
    case_bool_decide as E; [|done]. intros _. rewrite bool_decide_false; [done|].
    rewrite E. unfold u64_saturating_sub. intros [= ?]. lia.
  - destruct (Z.eqb_spec i 1); [|done]. destruct (Z.eqb_spec k 1); [lia|done].
Qed.

Lemma fail_output_final domain text output :
  domain ∈ final_error_domains →
  o_status (fail_output domain text output) ≠ "completed"
  ∧ retryable_node_failure (fail_output domain text output) = false.
Proof.
  intros Hd. split; [done|]. unfold retryable_node_failure. do 2 (case_match; [done|]). cbn.
  by apply negb_false_iff, bool_decide_eq_true.
Qed.

Lemma measured_tokens_nonneg output t : measured_tokens output = Some t → 0 <= t.
Proof.
  unfold measured_tokens. destruct (o_input_tokens output) as [x|], (o_output_tokens output) as [y|]; try done.
  destruct (Z.leb_spec 0 x), (Z.leb_spec 0 y); cbn; try done. unfold u64_checked_add.
  case_match; [|done]. intros [= <-]. lia.
Qed.

Definition refuses (output : NodeExecutionOutput) : Prop :=
  o_status output ≠ "completed" ∧ retryable_node_failure output = false.

(** Beyond a limit only results that are neither completed nor retried pass. *)
Definition stopped_unless (ok : bool) (domain text : string) (output : NodeExecutionOutput)
    : NodeExecutionOutput :=
  if negb ok && (bool_decide (o_status output = "completed") || retryable_node_failure output)
  then fail_output domain text output else output.

Lemma stopped_refuses domain text output :
  domain ∈ final_error_domains → refuses (stopped_unless false domain text output).
Proof.
  intros Hd. unfold stopped_unless. cbn [negb andb].
  destruct (bool_decide_reflect (o_status output = "completed")); cbn [orb]; [by apply fail_output_final|].
  destruct (retryable_node_failure output) eqn:E; [by apply fail_output_final|by split].
Qed.

(** The settlement of a managed node, on the sum of the attempts before it. *)
Lemma enforce_managed run_id node_id i limit node_json output :
  1 <= i → is_u64 i → managed limit node_json → 0 < limit →
  enforce_product_managed_token_budget output (claimed_metadata run_id node_id i node_json)
  = match prior_cumulative (Some i) (field node_json "product_managed_usage") with
    | None => (fail_output "product_token_usage_unavailable"
                 "managed token usage attempt lineage is missing or stale" output, None)
    | Some prior =>
      match measured_tokens output with
      | None => (stopped_unless false "product_token_usage_unavailable"
                   "managed executor did not provide authoritative non-negative token usage" output,
                 Some (unavailable_usage i prior))
      | Some measured =>
        match u64_checked_add prior measured with
        | None => (fail_output "product_token_budget_exhausted"
                     "budget_exhausted:total_tokens overflow" output, None)
        | Some cumulative =>
          (stopped_unless (cumulative <=? limit) "product_token_budget_exhausted"
             ("budget_exhausted:total_tokens limit=" +:+ pretty limit +:+ " cumulative="
                +:+ pretty cumulative) output, Some (measured_usage i cumulative measured limit))
        end
      end
    end.
Proof.
  intros Hi Hu [Ho Ha Hlim] Hl. unfold enforce_product_managed_token_budget.
  assert (is_managed_product_apply (claimed_metadata run_id node_id i node_json) = true) as ->.
  { unfold is_managed_product_apply, json_pointer2, json_get_str in *. by rewrite !claimed_field. }
  assert (json_pointer2 (claimed_metadata run_id node_id i node_json) "product_budget" "total_tokens" ≫= as_u64
    = Some limit) as ->.
  { unfold json_pointer2 in *. by rewrite claimed_field. }
  assert (json_get (claimed_metadata run_id node_id i node_json) "execution_attempt" = Some (json_int i)) as ->.
  { destruct Ho as [m Hm]. unfold json_get, claimed_metadata. rewrite object_fields, Hm. cbn.
    by rewrite lookup_insert_ne, lookup_insert_eq. }
  cbn [negb mbind option_bind positive]. rewrite number_read by done. cbn [positive].
  rewrite (proj2 (Z.ltb_lt 0 limit)), (proj2 (Z.ltb_lt 0 i)) by lia. cbn [positive].
  rewrite claimed_field by done. fold (field node_json "product_managed_usage").
  destruct (prior_cumulative (Some i) (field node_json "product_managed_usage")); [|done].
  destruct (measured_tokens output) as [t|]; [|done].
  destruct (u64_checked_add _ t) as [c|]; [|done]. unfold stopped_unless. by rewrite Z.leb_antisym, negb_involutive.
Qed.

(** What one attempt does to the sum; a result that is completed or retried
    leaves a sum within the budget. *)
Lemma attempt_settled run_id node_id i limit node_json n a :
  1 <= i → is_u64 i → managed limit node_json → 0 < limit → lineage i node_json n →
  let r := run_attempt run_id node_id i node_json a in
  managed limit r.2
  ∧ ∃ n', lineage (i + 1) r.2 n'
    ∧ (∀ m, n' = Some m → ∃ m0, n = Some m0 ∧ m = m0 + tokens a)
    ∧ (refuses r.1 ∨ ∃ m, n' = Some m ∧ m <= limit).
Proof.
  intros Hi Hu Hm Hl Hn. pose proof (mg_object _ _ Hm) as Ho. cbv zeta. unfold run_attempt.
  rewrite (enforce_managed run_id node_id i limit) by done.
  assert (Hnext : ∀ out usage, managed limit (settled_node_json (at_status a) (at_now a) (to_value out) usage node_json)
    ∧ field (settled_node_json (at_status a) (at_now a) (to_value out) usage node_json) "product_managed_usage"
      = match usage with Some u => Some u | None => field node_json "product_managed_usage" end).
  { intros. split; [by apply managed_settled|by apply settled_usage]. }
  assert (Hf : ∀ d t, d ∈ final_error_domains → refuses (fail_output d t (at_output a))) by exact (λ d t H, fail_output_final d t _ H).
  assert (Hu1 : "product_token_usage_unavailable" ∈ final_error_domains) by (apply (bool_decide_unpack _); by vm_compute).
  assert (Hu2 : "product_token_budget_exhausted" ∈ final_error_domains) by (apply (bool_decide_unpack _); by vm_compute).
  destruct n as [m0|]; cbn [lineage] in Hn.
  - destruct Hn as [Hm0 Hp]. rewrite Hp. unfold tokens. destruct (measured_tokens (at_output a)) as [t|] eqn:Et.
    + pose proof (measured_tokens_nonneg _ _ Et). unfold u64_checked_add.
      destruct (Z.leb_spec (m0 + t) u64_max) as [Hc|Hc]; cbn [fst snd]; (split; [apply Hnext|]).
      * exists (Some (m0 + t)). assert (is_u64 (m0 + t)) by (unfold is_u64 in *; lia).
        cbn [lineage]. rewrite (proj2 (Hnext _ _)). split_and!; [done|by apply stored_measured|by intros ? [= <-]; exists m0|].
        destruct (Z.leb_spec (m0 + t) limit); [right; by eexists|]. left. by apply stopped_refuses.
      * exists None. cbn [lineage]. split_and!; [|done|left; by apply Hf].
        intros k Hk. rewrite (proj2 (Hnext _ _)). apply (prior_stale i k _ m0); [lia..|done].
    + cbn [fst snd]. split; [apply Hnext|]. exists (Some m0). cbn [lineage]. rewrite (proj2 (Hnext _ _)).
      split_and!; [done|by apply stored_unavailable| |left; by apply stopped_refuses].
      intros ? [= <-]. exists m0. split; [done|]. cbn. lia.
  - rewrite Hn by lia. cbn [fst snd]. split; [apply Hnext|]. exists None. cbn [lineage].
    split_and!; [|done|left; by apply Hf]. intros k Hk. rewrite (proj2 (Hnext _ _)). apply Hn. lia.
Qed.

(** ** All attempts *)

Lemma attempts_within run_id node_id limit l i node_json n k out :
  1 <= i → i + Z.of_nat (length l) <= u64_max → managed limit node_json → 0 < limit →
  lineage i node_json n → run_attempts run_id node_id i node_json l !! k = Some out →
  refuses out ∨ ∃ m0, n = Some m0 ∧ m0 + total_tokens (take (S k) l) <= limit.
Proof.
  revert i node_json n k. induction l as [|a l IH]; intros i node_json n k Hi Hlen Hm Hl Hn Hk; [done|].
  cbn [run_attempts length] in *.
  destruct (attempt_settled run_id node_id i limit node_json n a) as (Hm' & n' & Hn' & Hsum & Hok);
    [done|unfold is_u64; lia|done..|].
  destruct (run_attempt run_id node_id i node_json a) as [out0 next]. cbn [fst snd] in *.
  destruct k as [|k].
  - injection Hk as <-. destruct Hok as [?|(m & -> & Hle)]; [by left|]. right.
    destruct (Hsum m eq_refl) as (m0 & -> & ->). exists m0. split; [done|].
    change (total_tokens (take 1 (a :: l))) with (tokens a + 0). lia.
  - destruct (IH (i + 1) next n' k) as [?|(m & -> & Hle)]; [lia|lia|done..|by left|]. right.
    destruct (Hsum m eq_refl) as (m0 & -> & ->). exists m0. split; [done|].
    change (total_tokens (take (S (S k)) (a :: l))) with (tokens a + total_tokens (take (S k) l)). lia.
Qed.
End token_budget.

(** C25: Managed executions stay within their token budget.  Over all attempts of
    a managed node, the stored sum being carried from one to the next, a result is
    recorded as completed, or may be retried, only while the tokens of that
    attempt and of all before it are within the limit. *)
Theorem token_budget_holds {V : Type} `{JV : JsonValue V} `{JT : JsonText V} `{JN : JsonNumbers V}
    run_id node_id limit node_json l k out :
  (∀ m : gmap string V, as_object (json_object m) = Some m) →
  (∀ n, is_u64 n → as_u64 (json_int n) = Some n) → (∀ s, as_str (json_string s) = Some s) →
  managed limit node_json → 0 < limit → json_get node_json "product_managed_usage" = None →
  Z.of_nat (length l) < u64_max →
  run_attempts run_id node_id 1 node_json l !! k = Some out →
  o_status out = "completed" ∨ retryable_node_failure out = true →
  total_tokens (take (S k) l) <= limit.
Proof.
  intros Ho Hr Hs Hm Hl Hf Hlen Hk Hout.
  destruct (attempts_within Ho Hr Hs run_id node_id limit l 1 node_json (Some 0) k out)
    as [[Hc Hr']|(m0 & [= <-] & ?)]; [lia|lia|done|done| |done| |lia].
  - split; [done|]. unfold field. by rewrite Hf.
  - destruct Hout; congruence.
Qed.

Module TokenDemo.
Import JsonDemo JsonCodec.
Definition metadata : json := JObj [
  ("executor_class", JStr "managed_coding");
  ("managed_supervised_patch", JObj [("operation", JStr "product_apply")]);
  ("product_budget", JObj [("total_tokens", JInt 100)])].
Definition output (status : string) (input_tokens : Z) : NodeExecutionOutput :=
  mkOutput status "codex_cli" None None None (Some input_tokens) (Some 10) None None None None.
Definition attempts : list attempt := [
  mkAttempt (output "failed" 30) "pending" "t1"; mkAttempt (output "completed" 40) "completed" "t2";
  mkAttempt (output "completed" 40) "completed" "t3"].

Lemma token_budget_holds_witness :
  o_status <$> run_attempts "r" "n" 1 metadata attempts = ["failed"; "completed"; "failed"]
  ∧ total_tokens (take 2 attempts) <= 100.
Proof.
  split; [vm_compute; reflexivity|].
  destruct (run_attempts "r" "n" 1 metadata attempts !! 1%nat) as [out|] eqn:E; [|vm_compute in E; discriminate E].
  assert (Hc : o_status out = "completed") by (vm_compute in E; injection E as <-; reflexivity).
  refine (token_budget_holds "r" "n" 100 metadata attempts 1 out object_of_fields _ (λ s, eq_refl) _ _ _ _ E (or_introl Hc)).
  - intros n Hn. cbn. rewrite (proj2 (Z.leb_le 0 n)); [reflexivity|]. unfold is_u64 in Hn. lia.
  - split; [by eexists|vm_compute; reflexivity|vm_compute; reflexivity].
  - lia.
  - vm_compute. reflexivity.
  - vm_compute. reflexivity.
Defined.
End TokenDemo.
