(* ===== verification/RunGraph.v ===== *)
(** * Mutations of the stored graph of a run

    Model of the SQLite path of storage/local_product_store/workflow_runs/
    dag_mutations.rs: the rows a node or an edge is stored as, the six operations
    on the graph of a run, the batch that checks every proposal with a DAG manager
    loaded from the rows before it is stored, and the replay of the event log.
    These operations are not transactions: what an operation wrote before an
    error stays.  [ORDER BY rowid] is some order of the rows, a [RowOrder]. *)

From S2P Require Import Prelude Text Json Float64 RecursiveExecution Persistence TreeStore NodeExecution WorkflowRuns DagManager.

Local Open Scope Z_scope.

Section run_graph.
Context {V : Type} `{JV : JsonValue V} `{JT : JsonText V} `{RO : RowOrder}.

(** ** Rows *)

Definition node_row_of (node : V) : work_row :=
  mkWorkRow (default "unknown" (json_get_str node "task_type"))
    (default "pending" (json_get_str node "status"))
    (json_print node)
    (json_get_str node "completed_at")
    (json_get_str node "leased_at")
    (json_get_str node "blocked_reason")
    (json_get_str node "started_at")
    (default 0 (json_get node "attempt_count" ≫= as_i64))
    (json_get node "timeout_ms" ≫= as_i64)
    (json_get_str node "profile_id").

(** [strict] inserts, otherwise an existing row is replaced. *)
Definition insert_workflow_run_node_with_mode (run_id : string) (node : V) (strict : bool)
    : store unit :=
  node_id <-! lift (ok_or (json_get_str node "node_id") "workflow node missing node_id") ;;
  existing <-! query (λ db, Ok (is_some (workflow_run_nodes db !! (run_id, node_id)))) ;;
  if strict && existing
  then fail "UNIQUE constraint failed: workflow_run_nodes.run_id, workflow_run_nodes.node_id"
  else execute (λ db, db <| workflow_run_nodes :=
         <[(run_id, node_id) := node_row_of node]> (workflow_run_nodes db) |>).

Definition insert_workflow_run_node_locked (run_id : string) (node : V) : store unit :=
  insert_workflow_run_node_with_mode run_id node false.

Definition edge_row_of (edge_id : string) (edge : V) : result string edge_row :=
  from_node_id <-? ok_or (json_get_str edge "from_node_id")
    ("workflow edge " +:+ edge_id +:+ " missing from_node_id") ;;
  to_node_id <-? ok_or (json_get_str edge "to_node_id")
    ("workflow edge " +:+ edge_id +:+ " missing to_node_id") ;;
  Ok (mkEdgeRow from_node_id to_node_id (default "dependency" (json_get_str edge "edge_type"))
        (json_print edge)).

Definition insert_workflow_run_edge_with_mode (run_id : string) (edge : V) (strict : bool)
    : store unit :=
  edge_id <-! lift (ok_or (json_get_str edge "edge_id") "workflow edge missing edge_id") ;;
  row <-! lift (edge_row_of edge_id edge) ;;
  existing <-! query (λ db, Ok (is_some (workflow_run_edges db !! (run_id, edge_id)))) ;;
  if strict && existing
  then fail "UNIQUE constraint failed: workflow_run_edges.run_id, workflow_run_edges.edge_id"
  else execute (λ db, db <| workflow_run_edges :=
         <[(run_id, edge_id) := row]> (workflow_run_edges db) |>).

Definition insert_workflow_run_edge_locked (run_id : string) (edge : V) : store unit :=
  insert_workflow_run_edge_with_mode run_id edge false.

(** The node and the edge of an admitted child. *)
Definition insert_recursive_workflow_run_node_locked (run_id : string) (node : V) : store unit :=
  node_id <-! lift (ok_or (json_get_str node "node_id") "workflow node missing node_id") ;;
  existing <-! query (λ db, Ok (is_some (workflow_run_nodes db !! (run_id, node_id)))) ;;
  if existing then fail ("duplicate node_id: " +:+ node_id)
  else insert_workflow_run_node_with_mode run_id node true.

Definition insert_recursive_workflow_run_edge_locked (run_id : string) (edge : V) : store unit :=
  edge_id <-! lift (ok_or (json_get_str edge "edge_id") "workflow edge missing edge_id") ;;
  row <-! lift (edge_row_of edge_id edge) ;;
  ends <-! query (λ db, Ok (is_some (workflow_run_nodes db !! (run_id, we_from_node_id row))
                            && is_some (workflow_run_nodes db !! (run_id, we_to_node_id row)))) ;;
  existing <-! query (λ db, Ok (is_some (workflow_run_edges db !! (run_id, edge_id)))) ;;
  if negb ends then fail ("workflow edge " +:+ edge_id +:+ " references missing endpoint")
  else if existing then fail ("duplicate edge_id: " +:+ edge_id)
  else insert_workflow_run_edge_with_mode run_id edge true.

(** ** The operations on a graph *)

Definition mutation_event (run_id : string) (node_id : option string) (kind actor : string)
    (details : list (string * V)) (now : string) : store unit :=
  insert_workflow_run_event_locked run_id node_id ("dag.mutation." +:+ kind) actor
    (details ++ [("metadata_only", json_bool true)]) now.

Definition insert_workflow_node (run_id : string) (node : V) (actor reason now : string)
    : store unit :=
  node_id <-! lift (ok_or (json_get_str node "node_id") "workflow node missing node_id") ;;
  _u <-! query (ensure_run_exists_locked run_id) ;;
  existing <-! query (λ db, Ok (is_some (workflow_run_nodes db !! (run_id, node_id)))) ;;
  if existing then fail ("duplicate node_id: " +:+ node_id)
  else
    _u <-! insert_workflow_run_node_locked run_id node ;;
    mutation_event run_id (Some node_id) "node_added" actor
      [("node_id", json_string node_id); ("reason", json_string reason)] now.

(** [from_node_id = ?2 OR to_node_id = ?2] in the edges of the run. *)
Definition connected (run_id node_id : string) (ke : (string * string) * edge_row) : Prop :=
  ke.1.1 = run_id ∧ (we_from_node_id ke.2 = node_id ∨ we_to_node_id ke.2 = node_id).
#[export] Instance connected_dec run_id node_id ke : Decision (connected run_id node_id ke) := _.

Definition remove_workflow_node (run_id node_id actor reason now : string) : store unit :=
  _u <-! query (ensure_run_exists_locked run_id) ;;
  removed_edges <-! query (λ db, Ok (Z.of_nat (size (filter (connected run_id node_id)
                                                      (workflow_run_edges db))))) ;;
  _u <-! execute (λ db, db <| workflow_run_edges :=
    filter (λ ke, ¬ connected run_id node_id ke) (workflow_run_edges db) |>) ;;
  _u <-! execute (λ db, db <| workflow_run_nodes :=
    delete (run_id, node_id) (workflow_run_nodes db) |>) ;;
  mutation_event run_id (Some node_id) "node_removed" actor
    [("node_id", json_string node_id); ("removed_edges", json_int removed_edges);
     ("reason", json_string reason)] now.

Definition valid_statuses : list string :=
  ["pending"; "running"; "completed"; "failed"; "cancelled"; "blocked"; "waiting_human";
   "recovered"].

(** [obj.insert(key, value)] when [v] is an object. *)
Definition json_insert (key : string) (value v : V) : V :=
  match as_object v with
  | Some object => json_object (<[key := value]> object)
  | None => v
  end.

Definition update_workflow_node_status (run_id node_id new_status actor reason now : string)
    : store unit :=
  if negb (bool_decide (new_status ∈ valid_statuses))
  then fail ("invalid node status: " +:+ new_status)
  else
    _u <-! query (ensure_run_exists_locked run_id) ;;
    _u <-! update_node run_id node_id (λ row, row <| wn_status := new_status |>) ;;
    row <-! query (λ db, query_row (workflow_run_nodes db !! (run_id, node_id))) ;;
    let node_json := json_insert "status" (json_string new_status)
      (default json_null (json_parse (wn_node_json row))) in
    _u <-! update_node run_id node_id (λ row, row <| wn_node_json := json_print node_json |>) ;;
    mutation_event run_id (Some node_id) "node_status_updated" actor
      [("node_id", json_string node_id); ("new_status", json_string new_status);
       ("reason", json_string reason)] now.

Definition insert_workflow_edge (run_id : string) (edge : V) (actor reason now : string)
    : store unit :=
  edge_id <-! lift (ok_or (json_get_str edge "edge_id") "workflow edge missing edge_id") ;;
  _u <-! query (ensure_run_exists_locked run_id) ;;
  existing <-! query (λ db, Ok (is_some (workflow_run_edges db !! (run_id, edge_id)))) ;;
  if existing then fail ("duplicate edge_id: " +:+ edge_id)
  else
    _u <-! insert_workflow_run_edge_locked run_id edge ;;
    mutation_event run_id None "edge_added" actor
      [("edge_id", json_string edge_id); ("reason", json_string reason)] now.

Definition remove_workflow_edge (run_id edge_id actor reason now : string) : store unit :=
  _u <-! query (ensure_run_exists_locked run_id) ;;
  _u <-! execute (λ db, db <| workflow_run_edges :=
    delete (run_id, edge_id) (workflow_run_edges db) |>) ;;
  mutation_event run_id None "edge_removed" actor
    [("edge_id", json_string edge_id); ("reason", json_string reason)] now.

Definition rewired_row (final_from final_to : string) (edge_json : V) (row : edge_row) : edge_row :=
  mkEdgeRow final_from final_to (we_edge_type row)
    (json_print (match as_object edge_json with
                 | Some object =>
                   json_object (<["to_node_id" := json_string final_to]>
                     (<["from_node_id" := json_string final_from]> object))
                 | None => edge_json
                 end)).

Definition rewire_workflow_edge (run_id edge_id : string) (new_from new_to : option string)
    (actor reason now : string) : store unit :=
  _u <-! query (ensure_run_exists_locked run_id) ;;
  row <-! query (λ db, query_row (workflow_run_edges db !! (run_id, edge_id))) ;;
  let edge_json := default json_null (json_parse (we_edge_json row)) in
  let current_from := default EmptyString (json_get_str edge_json "from_node_id") in
  let current_to := default EmptyString (json_get_str edge_json "to_node_id") in
  let final_from := default current_from new_from in
  let final_to := default current_to new_to in
  _u <-! execute (λ db, db <| workflow_run_edges :=
    alter (rewired_row final_from final_to edge_json) (run_id, edge_id)
      (workflow_run_edges db) |>) ;;
  mutation_event run_id None "edge_rewired" actor
    [("edge_id", json_string edge_id); ("old_from", json_string current_from);
     ("old_to", json_string current_to); ("new_from", json_string final_from);
     ("new_to", json_string final_to); ("reason", json_string reason)] now.

(** ** The graph as values *)

Definition put {A} (key : string) (f : A → V) (value : option A) (object : gmap string V)
    : gmap string V :=
  match value with
  | Some value => <[key := f value]> object
  | None => object
  end.

(** The stored JSON of a node with the columns of its row. *)
Definition node_value (row : work_row) : V :=
  let node := default json_null (json_parse (wn_node_json row)) in
  match as_object node with
  | None => node
  | Some object =>
    let object := <["db_status" := json_string (wn_status row)]> object in
    let object := put "started_at" json_string (wn_started_at row) object in
    let object := put "completed_at" json_string (wn_completed_at row) object in
    let object := <["attempt_count" := json_int (wn_attempt_count row)]> object in
    let object := put "timeout_ms" json_int (wn_timeout_ms row) object in
    let object := put "blocked_reason" json_string (wn_blocked_reason row) object in
    let object := put "leased_at" json_string (wn_leased_at row) object in
    json_object (put "profile_id" json_string (wn_profile_id row) object)
  end.

Definition workflow_run_nodes_locked (run_id : string) (db : database) : list V :=
  node_value ∘ snd <$> run_nodes run_id db.

(** The edges of a run, in the order the table returns them. *)
Definition run_edges (run_id : string) (db : database) : list (string * edge_row) :=
  omap (λ ke, if bool_decide (ke.1.1 = run_id) then Some (ke.1.2, ke.2) else None)
    (sql_rows (workflow_run_edges db)).

Definition edge_value (row : edge_row) : V := default json_null (json_parse (we_edge_json row)).

Definition workflow_run_edges_locked (run_id : string) (db : database) : list V :=
  edge_value ∘ snd <$> run_edges run_id db.

(** ** The batch *)

Definition dag_node_of (n : V) : DAGNode (V := V) :=
  mkDAGNode (default EmptyString (json_get_str n "node_id"))
    (json_get_str n "task_type")
    (default "task" (json_get_str n "task_type"))
    (default "pending" (match json_get_str n "db_status" with
                        | Some status => Some status
                        | None => json_get_str n "status"
                        end))
    (default "cheap_executor" (json_get_str n "tier")) ∅.

Definition dag_edge_of (e : V) : DAGEdge :=
  mkDAGEdge (default EmptyString (json_get_str e "edge_id"))
    (default EmptyString (json_get_str e "from_node_id"))
    (default EmptyString (json_get_str e "to_node_id"))
    (default "dependency" (json_get_str e "edge_type")) "pending".

(** [DAGMutationProposal { proposal_id, dag_id, mutation_type, payload, ..default }]. *)
Definition load_proposal (id run_id kind : string) (payload : list (string * V))
    : DAGMutationProposal :=
  mkDAGMutationProposal id run_id kind None None (list_to_map payload) EmptyString false "pending".

Definition load_node (run_id : string) (n : DAGNode (V := V)) : DAGMutationProposal :=
  load_proposal ("load_node_" +:+ node_id n) run_id "add_node"
    [("node_id", json_string (node_id n)); ("node_type", json_string (node_type n));
     ("status", json_string (node_status n)); ("tier", json_string (tier n))].

Definition load_edge (run_id : string) (e : DAGEdge) : DAGMutationProposal :=
  load_proposal ("load_edge_" +:+ edge_id e) run_id "add_edge"
    [("edge_id", json_string (edge_id e)); ("from_node", json_string (from_node e));
     ("to_node", json_string (to_node e))].

(** The manager after proposals whose results nobody looks at. *)
Fixpoint apply_loads (m : DAGManager (V := V)) (proposals : list DAGMutationProposal)
    : option DAGManager :=
  match proposals with
  | [] => Some m
  | proposal :: proposals => '(_, m) ← apply_mutation m proposal; apply_loads m proposals
  end.

Definition load_manager (run_id now : string) (db : database) : option DAGManager :=
  let dag_nodes := dag_node_of <$> workflow_run_nodes_locked run_id db in
  let dag_edges := dag_edge_of <$> workflow_run_edges_locked run_id db in
  apply_loads (manager_new run_id now)
    ((load_node run_id <$> dag_nodes) ++ (load_edge run_id <$> dag_edges)).

(** The stored form of an [add_node] proposal. *)
Definition added_node (proposal : DAGMutationProposal (V := V)) : V :=
  let p := payload proposal in
  match p !! "node_id" with
  | None => json_null
  | Some nid =>
    let task_type := match p !! "task_type" with Some v => Some v | None => p !! "node_type" end in
    json_object (put "profile_id" id (p !! "profile_id") (list_to_map [
      ("node_id", nid);
      ("task_type", json_string (default "task" (task_type ≫= as_str)));
      ("status", json_string (get_str_or p "status" "pending"))]))
  end.

Definition added_edge (proposal : DAGMutationProposal (V := V)) : V :=
  let p := payload proposal in
  json_object (list_to_map [
    ("edge_id", json_string (get_str_or p "edge_id" EmptyString));
    ("from_node_id", json_string (get_str_or p "from_node" EmptyString));
    ("to_node_id", json_string (get_str_or p "to_node" EmptyString))]).

(** [match proposal.mutation_type.as_str()]. *)
Definition persist_proposal (run_id actor now : string) (proposal : DAGMutationProposal (V := V))
    : store unit :=
  let kind := mutation_type proposal in
  let p := payload proposal in
  let reason := proposal_reason proposal in
  let node := default EmptyString (target_node_id proposal) in
  let edge := default EmptyString (target_edge_id proposal) in
  if bool_decide (kind = "add_node") then
    insert_workflow_node run_id (added_node proposal) actor reason now
  else if bool_decide (kind = "remove_node") then remove_workflow_node run_id node actor reason now
  else if bool_decide (kind = "add_edge") then
    insert_workflow_edge run_id (added_edge proposal) actor reason now
  else if bool_decide (kind = "remove_edge") then remove_workflow_edge run_id edge actor reason now
  else if bool_decide (kind = "rewire_edge") then
    rewire_workflow_edge run_id edge (get_str p "from_node") (get_str p "to_node") actor reason now
  else if bool_decide (kind = "update_node") then
    update_workflow_node_status run_id node (get_str_or p "status" "pending") actor reason now
  else fail ("unsupported mutation type: " +:+ kind).

Record mutation_outcome : Type := mkOutcome {
  mo_proposal_id : string;
  mo_applied : bool;
  mo_new_dag_version : option Z;
  mo_errors : list string;
}.

(** One proposal: its outcome and the manager the next one is checked with. *)
Definition apply_proposal (run_id actor : string) (persist_now applied_now : string)
    (m : DAGManager (V := V)) (proposal : DAGMutationProposal)
    : store (mutation_outcome * DAGManager) :=
  checked <-! unwrap (apply_mutation m proposal) ;;
  let '(result, m) := checked in
  if negb (applied result) then
    ret (mkOutcome (proposal_id proposal) false None (errors result), m)
  else
    persisted <-! attempt_store (persist_proposal run_id actor persist_now proposal) ;;
    match persisted with
    | Ok _ =>
      _u <-! mutation_event run_id None "applied" actor
        [("proposal_id", json_string (proposal_id proposal));
         ("mutation_type", json_string (mutation_type proposal))] applied_now ;;
      ret (mkOutcome (proposal_id proposal) true (Some (new_dag_version result)) [], m)
    | Err e => ret (mkOutcome (proposal_id proposal) false None [e], m)
    end.

(** [clock i] is the i-th reading of the clock. *)
Fixpoint apply_proposals (run_id actor : string) (clock : nat → string) (i : nat)
    (m : DAGManager (V := V)) (proposals : list DAGMutationProposal)
    : store (list mutation_outcome) :=
  match proposals with
  | [] => ret []
  | proposal :: proposals =>
    step <-! apply_proposal run_id actor (clock i) (clock (S i)) m proposal ;;
    rest <-! apply_proposals run_id actor clock (S (S i)) step.2 proposals ;;
    ret (step.1 :: rest)
  end.

Definition apply_dag_mutations_batch (run_id : string) (proposals : list DAGMutationProposal)
    (actor : string) (clock : nat → string) : store (list mutation_outcome) :=
  _u <-! query (ensure_run_exists_locked run_id) ;;
  loaded <-! query (λ db, Ok (load_manager run_id (clock 0%nat) db)) ;;
  m <-! unwrap loaded ;;
  apply_proposals run_id actor clock 1 m proposals.

(** ** Replay of the event log *)

Definition workflow_run_events_locked (run_id : string) (limit : nat) (db : database)
    : list event_row :=
  take limit (sort_by (λ a b, ev_sequence a <=? ev_sequence b)
    (filter (λ e, ev_run_id e = run_id) (workflow_run_events db))).

Definition has_id (key id : string) (v : V) : bool := bool_decide (json_get_str v key = Some id).

(** [if let Some(x) = l.iter_mut().find(p) { f(x) }]. *)
Fixpoint update_first (p : V → bool) (f : V → V) (l : list V) : list V :=
  match l with
  | [] => []
  | x :: l => if p x then f x :: l else x :: update_first p f l
  end.

(** [if !l.iter().any(..) { l.push(value) }] and [l.retain(..)]. *)
Definition push_new (key id : string) (value : V) (l : list V) : list V :=
  if existsb (has_id key id) l then l else l ++ [value].
Definition retain_other (key id : string) (l : list V) : list V :=
  filter (λ v, has_id key id v = false) l.

Definition replay_node (kind : string) (details : V) (nodes : list V) : list V :=
  match json_get_str details "node_id" with
  | None => nodes
  | Some node_id =>
    if bool_decide (kind = "dag.mutation.node_added") then
      push_new "node_id" node_id (json_object (list_to_map [
        ("node_id", json_string node_id); ("status", json_string "pending");
        ("task_type", json_string "unknown")])) nodes
    else if bool_decide (kind = "dag.mutation.node_removed") then
      retain_other "node_id" node_id nodes
    else
      match json_get_str details "new_status" with
      | Some new_status =>
        update_first (has_id "node_id" node_id) (json_insert "status" (json_string new_status)) nodes
      | None => nodes
      end
  end.

Definition replay_rewire (details edge : V) : V :=
  match as_object edge with
  | None => edge
  | Some object =>
    json_object (put "to_node_id" json_string (json_get_str details "new_to")
      (put "from_node_id" json_string (json_get_str details "new_from") object))
  end.

Definition replay_edge (kind : string) (details : V) (edges : list V) : list V :=
  match json_get_str details "edge_id" with
  | None => edges
  | Some edge_id =>
    if bool_decide (kind = "dag.mutation.edge_added") then
      push_new "edge_id" edge_id (json_object {["edge_id" := json_string edge_id]}) edges
    else if bool_decide (kind = "dag.mutation.edge_removed") then
      retain_other "edge_id" edge_id edges
    else update_first (has_id "edge_id" edge_id) (replay_rewire details) edges
  end.

Definition node_kinds : list string :=
  ["dag.mutation.node_added"; "dag.mutation.node_removed"; "dag.mutation.node_status_updated"].
Definition edge_kinds : list string :=
  ["dag.mutation.edge_added"; "dag.mutation.edge_removed"; "dag.mutation.edge_rewired"].

Record replayed : Type := mkReplayed {
  mutations_replayed : Z;
  rp_nodes : list V;
  rp_edges : list V;
}.

Definition replay_event (self : replayed) (event : event_row) : replayed :=
  let kind := ev_event_type event in
  let details := default json_null (json_parse (ev_details_json event)) in
  if bool_decide (kind ∈ node_kinds) then
    mkReplayed (u64_add (mutations_replayed self) 1) (replay_node kind details (rp_nodes self))
      (rp_edges self)
  else if bool_decide (kind ∈ edge_kinds) then
    mkReplayed (u64_add (mutations_replayed self) 1) (rp_nodes self)
      (replay_edge kind details (rp_edges self))
  else self.

(** The nodes that were completed or failed. *)
Definition protected_completed_nodes (base_nodes : list V) : list string :=
  omap (λ n,
    let status := match json_get_str n "db_status" with
                  | Some status => Some status
                  | None => json_get_str n "status"
                  end in
    if bool_decide (default EmptyString status ∈ ["completed"; "failed"])
    then json_get_str n "node_id" else None) base_nodes.

(** The replay and the nodes it must not run again. *)
Definition replay_mutation_events (run_id : string) (db : database)
    : result string (replayed * list string) :=
  _u <-? ensure_run_exists_locked run_id db ;;
  let base_nodes := workflow_run_nodes_locked run_id db in
  let base_edges := workflow_run_edges_locked run_id db in
  let mutation_events := filter (λ e, String.prefix "dag.mutation." (ev_event_type e) = true)
    (workflow_run_events_locked run_id (Z.to_nat 100000) db) in
  Ok (foldl replay_event (mkReplayed 0 base_nodes base_edges) mutation_events,
      protected_completed_nodes base_nodes).
End run_graph.

Arguments replayed : clear implicits.
