(* ===== verification/RunGraphProps.v ===== *)
(** * What the mutations do to the stored graph

    A stored graph and a graph of the DAG manager mirror each other; loading
    builds a mirror, and a proposal the manager applies is stored so that the
    mirror stays exact. *)

From S2P Require Import Prelude Text Json Graph Float64 RecursiveExecution Persistence TreeStore TreeStoreProps NodeExecution WorkflowRuns WorkflowProps WorkflowProgress DagManager DagCycle DagProps DagQueries RunGraph.
From stdpp Require Import relations.

Local Open Scope Z_scope.

(** ** Stored graphs *)

Definition run_edge (run : string) (db : database) (x y : string) : Prop :=
  ∃ eid row, workflow_run_edges db !! (run, eid) = Some row
    ∧ we_from_node_id row = x ∧ we_to_node_id row = y.

(** Both ends of every edge are nodes, and there is no cycle. *)
Record graph_ok (run : string) (db : database) : Prop := {
  go_ends : ∀ x y, run_edge run db x y →
    is_Some (workflow_run_nodes db !! (run, x)) ∧ is_Some (workflow_run_nodes db !! (run, y));
  go_acyclic : ¬ cyclic (run_edge run db);
}.

(** The rest of the database: other runs, trees, runs and the audit log. *)
Record elsewhere (run : string) (db db' : database) : Prop := {
  el_nodes : ∀ k, k.1 ≠ run → workflow_run_nodes db' !! k = workflow_run_nodes db !! k;
  el_edges : ∀ k, k.1 ≠ run → workflow_run_edges db' !! k = workflow_run_edges db !! k;
  el_runs : workflow_runs db' = workflow_runs db;
  el_trees : recursive_execution_trees db' = recursive_execution_trees db;
  el_index : recursive_execution_nodes db' = recursive_execution_nodes db;
  el_audit : audit_log db' = audit_log db;
}.

#[export] Instance elsewhere_preorder run : PreOrder (elsewhere run).
Proof.
  split; [by intros db; split|].
  intros a b c [N1 E1 R1 T1 I1 A1] [N2 E2 R2 T2 I2 A2]. split; [..|congruence|congruence|congruence|congruence].
  - intros k Hk. by rewrite N2, N1.
  - intros k Hk. by rewrite E2, E1.
Qed.

Section mirror.
Context {V : Type} `{JV : JsonValue V} `{JT : JsonText V} `{RO : RowOrder}.
Implicit Types (db : database) (st : DAGState (V := V)).

(** The JSON of a row names what its key and its columns name. *)
Definition node_names (id : string) (row : work_row) : Prop :=
  ∃ v m, json_parse (wn_node_json row) = Some v ∧ as_object v = Some m
    ∧ get_str m "node_id" = Some id.
Definition edge_names (eid : string) (row : edge_row) : Prop :=
  ∃ v m, json_parse (we_edge_json row) = Some v ∧ as_object v = Some m
    ∧ get_str m "edge_id" = Some eid ∧ get_str m "from_node_id" = Some (we_from_node_id row)
    ∧ get_str m "to_node_id" = Some (we_to_node_id row).

Record stored_ok (run : string) db : Prop := {
  so_nodes : ∀ id row, workflow_run_nodes db !! (run, id) = Some row → node_names id row;
  so_edges : ∀ eid row, workflow_run_edges db !! (run, eid) = Some row → edge_names eid row;
}.

Record mirrors (run : string) db st : Prop := {
  mi_nodes : ∀ id, id ∈ ids_of (dag_nodes st) ↔ is_Some (workflow_run_nodes db !! (run, id));
  mi_edges : ∀ eid x y,
    (∃ e, e ∈ dag_edges st ∧ edge_id e = eid ∧ from_node e = x ∧ to_node e = y)
    ↔ ∃ row, workflow_run_edges db !! (run, eid) = Some row
        ∧ we_from_node_id row = x ∧ we_to_node_id row = y;
}.

Lemma mirrors_edge run db st x y :
  mirrors run db st → (x, y) ∈ pairs_of (dag_edges st) ↔ run_edge run db x y.
Proof.
  intros [_ He]. unfold pairs_of. rewrite list_elem_of_fmap. split.
  - intros (e & [= -> ->] & Hin). destruct (He (edge_id e) (from_node e) (to_node e)) as [H _].
    destruct H as (row & Hr & ? & ?); [by eauto|]. by exists (edge_id e), row.
  - intros (eid & row & Hr & <- & <-). destruct (He eid (we_from_node_id row) (we_to_node_id row)) as [_ H].
    destruct H as (e & Hin & _ & Ef & Et); [by eauto|]. exists e. by rewrite Ef, Et.
Qed.

Lemma mirrors_graph_ok run db st : mirrors run db st → dag_wf st → graph_ok run db.
Proof.
  intros Hm Hwf. split.
  - intros x y He. rewrite <- !(mi_nodes _ _ _ Hm). by apply (wf_ends _ Hwf), (mirrors_edge run db st).
  - intros Hc. apply (wf_acyclic _ Hwf). eapply cyclic_mono; [|exact Hc].
    intros x y. by apply (mirrors_edge run db st).
Qed.

(** ** Loading *)

Context (object_fields : ∀ m : gmap string V, as_object (json_object m) = Some m).
Context (str_value : ∀ s, as_str (json_string s) = Some s).

Lemma elem_of_run_edges run db eid row :
  (eid, row) ∈ run_edges run db ↔ workflow_run_edges db !! (run, eid) = Some row.
Proof.
  unfold run_edges. rewrite list_elem_of_omap. split.
  - intros ([[r i] w] & Hin & H). cbn in H. case_bool_decide; [|done]. simplify_eq.
    rewrite sql_rows_perm in Hin. by apply elem_of_map_to_list in Hin.
  - intros Hl. exists ((run, eid), row). cbn. rewrite bool_decide_true by done. split; [|done].
    rewrite sql_rows_perm. by apply elem_of_map_to_list.
Qed.

(** The keys of the rows of a run are distinct. *)
Lemma run_rows_NoDup {A} (run : string) (m : gmap (string * string) A) :
  NoDup (omap (λ kr, if bool_decide (kr.1.1 = run) then Some (kr.1.2, kr.2) else None) (sql_rows m)).*1.
Proof.
  assert (Hnd : NoDup (sql_rows m).*1) by (rewrite sql_rows_perm; apply NoDup_fst_map_to_list).
  induction (sql_rows m) as [|[[r i] a] l IH]; [constructor|]. cbn in Hnd |- *.
  apply NoDup_cons in Hnd as [Hn Hnd]. case_bool_decide as E; [|by apply IH]. cbn. subst r.
  apply NoDup_cons. split; [|by apply IH].
  intros ([i' a'] & -> & ([[r' i''] b] & Hin & Hb)%list_elem_of_omap)%list_elem_of_fmap. cbn in Hb.
  case_bool_decide; [|done]. simplify_eq/=. apply Hn, list_elem_of_fmap. by exists (run, i', a').
Qed.

Lemma put_other {A} key key' (f : A → V) o m :
  key ≠ key' → put key f o m !! key' = m !! key'.
Proof. intros H. destruct o; cbn; [by rewrite lookup_insert_ne|done]. Qed.

Lemma node_value_names nid row :
  node_names nid row →
  node_id (dag_node_of (node_value row)) = nid
  ∧ node_status (dag_node_of (node_value row)) = wn_status row.
Proof.
  intros (v & m & Hv & Hm & Hid). unfold node_value. rewrite Hv. cbn [from_option id]. rewrite Hm.
  unfold dag_node_of, json_get_str, json_get. cbn [node_id node_status].
  rewrite !object_fields. cbn [mbind option_bind]. split.
  - rewrite put_other, put_other, put_other, put_other by done.
    rewrite lookup_insert_ne, put_other, put_other, lookup_insert_ne by done.
    unfold get_str in Hid. by rewrite Hid.
  - rewrite put_other, put_other, put_other, put_other by done.
    rewrite lookup_insert_ne, put_other, put_other, lookup_insert_eq by done. cbn. by rewrite str_value.
Qed.

Lemma edge_value_names eid row :
  edge_names eid row →
  edge_id (dag_edge_of (edge_value row)) = eid
  ∧ from_node (dag_edge_of (edge_value row)) = we_from_node_id row
  ∧ to_node (dag_edge_of (edge_value row)) = we_to_node_id row.
Proof.
  intros (v & m & Hv & Hm & Hid & Hf & Ht). unfold edge_value. rewrite Hv.
  unfold dag_edge_of, json_get_str, json_get. cbn. rewrite Hm. cbn. unfold get_str in *.
  by rewrite Hid, Hf, Ht.
Qed.

(** Proposals that name only this manager and need no approval are decided by the
    mutation itself. *)
Lemma apply_load id run kind l (m : DAGManager (V := V)) f st' :
  manager_dag_id m = run → kind = "add_node" ∨ kind = "add_edge" → apply_fn kind = Some f →
  f (state m) (load_proposal id run kind l) = Some (Ok st') →
  ∃ r hist, apply_mutation m (load_proposal id run kind l) = Some (r, mkDAGManager run st' hist).
Proof.
  intros <- Hk Hf Hst. unfold apply_mutation. cbn [load_proposal proposal_dag_id mutation_type].
  rewrite bool_decide_true by done. cbn [negb]. rewrite Hf.
  assert (requires_approval (load_proposal id (manager_dag_id m) kind l) (state m) = false) as ->.
  { unfold requires_approval. cbn. by destruct Hk as [-> | ->]. }
  cbn [negb]. rewrite Hst. eauto.
Qed.

Lemma apply_loads_app (m : DAGManager (V := V)) ps qs :
  apply_loads m (ps ++ qs) = apply_loads m ps ≫= λ m', apply_loads m' qs.
Proof.
  revert m. induction ps as [|p ps IH]; intros m; [done|]. cbn.
  destruct (apply_mutation m p) as [[r m']|]; [apply IH|done].
Qed.

Lemma apply_mutation_wf (m m' : DAGManager (V := V)) p r :
  apply_mutation m p = Some (r, m') → dag_wf (state m) → dag_wf (state m').
Proof.
  intros [(-> & _)|(f & st' & Hf & Hst & _ & _ & -> & _)]%apply_mutation_inv Hwf; [done|].
  by eapply apply_fn_wf.
Qed.

Lemma apply_loads_wf (m m' : DAGManager (V := V)) ps :
  apply_loads m ps = Some m' → dag_wf (state m) → dag_wf (state m') ∧ manager_dag_id m' = manager_dag_id m.
Proof.
  revert m. induction ps as [|p ps IH]; intros m; [by intros [= ->]|]. cbn.
  destruct (apply_mutation m p) as [[r m1]|] eqn:E; [|done]. cbn. intros H Hwf.
  apply apply_mutation_inv in E as [(-> & _)|(f & st' & Hf & Hst & _ & _ & -> & _)]; [by apply IH|].
  destruct (IH _ H) as [? ->]; [|done]. by eapply apply_fn_wf.
Qed.

(** [load_proposal]s read back what they were built from. *)
Lemma load_payload (l : list (string * V)) key s :
  list_to_map (M := gmap string V) l !! key = Some (json_string s) →
  get_str (list_to_map (M := gmap string V) l) key = Some s.
Proof. unfold get_str. intros ->. apply str_value. Qed.

Lemma load_node_applied run (m : DAGManager (V := V)) (n : DAGNode (V := V)) :
  manager_dag_id m = run → node_id n ∉ ids_of (dag_nodes (state m)) →
  ∃ r m' n', apply_mutation m (load_node run n) = Some (r, m') ∧ manager_dag_id m' = run
    ∧ dag_nodes (state m') = dag_nodes (state m) ++ [n'] ∧ dag_edges (state m') = dag_edges (state m)
    ∧ node_id n' = node_id n ∧ node_status n' = node_status n.
Proof.
  intros Hid Hn. set (p := load_node run n).
  assert (Hst : ∃ n', apply_add_node (state m) p
      = Ok (next_state (state m) p (dag_nodes (state m) ++ [n']) (dag_edges (state m)))
    ∧ node_id n' = node_id n ∧ node_status n' = node_status n).
  { assert (Hp : get_str (payload p) "node_id" = Some (node_id n)) by by apply load_payload.
    assert (Hs : get_str (payload p) "status" = Some (node_status n)) by by apply load_payload.
    unfold apply_add_node. rewrite Hp. cbn [ok_or]. apply find_node_None in Hn. rewrite Hn. cbn [is_some].
    eexists. split; [done|]. cbn [node_id node_status]. unfold get_str_or. by rewrite Hs. }
  destruct Hst as (n' & Hst & En & Es).
  destruct (apply_load ("load_node_" +:+ node_id n) run "add_node"
    [("node_id", json_string (node_id n)); ("node_type", json_string (node_type n));
     ("status", json_string (node_status n)); ("tier", json_string (tier n))] m
    (λ s p, Some (apply_add_node s p)) _ Hid (or_introl eq_refl) eq_refl (f_equal Some Hst)) as (r & hist & E).
  eexists r, _, n'. split; [exact E|done].
Qed.

Lemma load_nodes run (l : list (string * work_row)) (m : DAGManager (V := V)) :
  manager_dag_id m = run → Forall (λ kr, node_names kr.1 kr.2) l → NoDup l.*1 →
  (∀ id, id ∈ l.*1 → id ∉ ids_of (dag_nodes (state m))) →
  ∃ m' ns, apply_loads m (load_node run <$> (dag_node_of <$> (node_value ∘ snd <$> l))) = Some m'
    ∧ manager_dag_id m' = run ∧ dag_edges (state m') = dag_edges (state m)
    ∧ dag_nodes (state m') = dag_nodes (state m) ++ ns
    ∧ Forall2 (λ kr n, node_id n = kr.1 ∧ node_status n = wn_status kr.2) l ns.
Proof.
  revert m. induction l as [|[id row] l IH]; intros m Hid Hf Hnd Hdis.
  { exists m, []. by rewrite app_nil_r. }
  apply Forall_cons in Hf as [Hn Hf]. cbn in Hnd. apply NoDup_cons in Hnd as [Hni Hnd].
  destruct (node_value_names _ _ Hn) as [Eid Es]. cbn [fst snd] in *.
  destruct (load_node_applied run m (dag_node_of (node_value row)) Hid) as (r & m1 & n1 & E & Hid1 & En1 & Ee1 & Ei & Et).
  { rewrite Eid. apply Hdis. cbn. left. }
  destruct (IH m1) as (m' & ns & El & Hid' & Ee & En & Hall); [done..| |].
  { intros i Hi. rewrite En1. unfold ids_of. rewrite fmap_app, not_elem_of_app. split.
    - apply Hdis. cbn. by right.
    - cbn. rewrite Ei, Eid, list_elem_of_singleton. by intros ->. }
  exists m', (n1 :: ns). cbn [fmap list_fmap apply_loads compose snd]. rewrite E. cbn [mbind option_bind].
  split_and!; [done|done|congruence|by rewrite En, En1, <-app_assoc|].
  constructor; [|done]. cbn. by rewrite Ei, Et.
Qed.

Lemma load_edge_applied run (m : DAGManager (V := V)) (e : DAGEdge) (R : string → string → Prop) :
  manager_dag_id m = run → edge_id e ∉ edge_id <$> dag_edges (state m) →
  from_node e ∈ ids_of (dag_nodes (state m)) → to_node e ∈ ids_of (dag_nodes (state m)) →
  ¬ cyclic R → (∀ x y, (x, y) ∈ pairs_of (dag_edges (state m)) → R x y) → R (from_node e) (to_node e) →
  ∃ r m' e', apply_mutation m (load_edge run e) = Some (r, m') ∧ manager_dag_id m' = run
    ∧ dag_edges (state m') = dag_edges (state m) ++ [e'] ∧ dag_nodes (state m') = dag_nodes (state m)
    ∧ edge_id e' = edge_id e ∧ from_node e' = from_node e ∧ to_node e' = to_node e.
Proof.
  intros Hid Hn Hf Ht Hac Hsub HR. set (p := load_edge run e).
  assert (Hst : ∃ e', apply_add_edge (state m) p
      = Some (Ok (next_state (state m) p (dag_nodes (state m)) (dag_edges (state m) ++ [e'])))
    ∧ edge_id e' = edge_id e ∧ from_node e' = from_node e ∧ to_node e' = to_node e).
  { assert (H1 : get_str (payload p) "edge_id" = Some (edge_id e)) by by apply load_payload.
    assert (H2 : get_str (payload p) "from_node" = Some (from_node e)) by by apply load_payload.
    assert (H3 : get_str (payload p) "to_node" = Some (to_node e)) by by apply load_payload.
    unfold apply_add_edge. rewrite H1, H2, H3. cbn [ok_or].
    apply find_node_is_Some in Hf as [n1 ->], Ht as [n2 ->]. cbn [is_none].
    destruct (find_edge (dag_edges (state m)) (edge_id e)) as [e0|] eqn:Ef.
    { exfalso. apply find_edge_Some in Ef as [Hin Eid]. apply Hn. rewrite <-Eid. by apply list_elem_of_fmap_2. }
    cbn. set (new := mkDAGEdge _ _ _ _ _).
    destruct (has_cycle_spec (dag_nodes (state m)) (dag_edges (state m) ++ [new])) as ([] & -> & Hc); [|by exists new].
    exfalso. apply Hac. eapply cyclic_mono; [|by apply Hc]. intros x y (_ & _ & Hxy).
    unfold pairs_of in Hxy. rewrite fmap_app, elem_of_app in Hxy. destruct Hxy as [Hxy|Hxy]; [by apply Hsub|].
    cbn in Hxy. apply list_elem_of_singleton in Hxy as [= -> ->]. done. }
  destruct Hst as (e' & Hst & E1 & E2 & E3).
  destruct (apply_load ("load_edge_" +:+ edge_id e) run "add_edge"
    [("edge_id", json_string (edge_id e)); ("from_node", json_string (from_node e));
     ("to_node", json_string (to_node e))] m apply_add_edge _ Hid (or_intror eq_refl) eq_refl Hst) as (r & hist & E).
  eexists r, _, e'. split; [exact E|done].
Qed.

Lemma load_edges run (l : list (string * edge_row)) (R : string → string → Prop) (m : DAGManager (V := V)) :
  manager_dag_id m = run → Forall (λ kr, edge_names kr.1 kr.2) l → NoDup l.*1 →
  (∀ id, id ∈ l.*1 → id ∉ edge_id <$> dag_edges (state m)) →
  ¬ cyclic R → (∀ x y, (x, y) ∈ pairs_of (dag_edges (state m)) → R x y) →
  (∀ kr, kr ∈ l → R (we_from_node_id kr.2) (we_to_node_id kr.2)
     ∧ we_from_node_id kr.2 ∈ ids_of (dag_nodes (state m)) ∧ we_to_node_id kr.2 ∈ ids_of (dag_nodes (state m))) →
  ∃ m' es, apply_loads m (load_edge run <$> (dag_edge_of <$> (edge_value ∘ snd <$> l))) = Some m'
    ∧ manager_dag_id m' = run ∧ dag_nodes (state m') = dag_nodes (state m)
    ∧ dag_edges (state m') = dag_edges (state m) ++ es
    ∧ Forall2 (λ kr e, edge_id e = kr.1 ∧ from_node e = we_from_node_id kr.2
                       ∧ to_node e = we_to_node_id kr.2) l es.
Proof.
  revert m. induction l as [|[id row] l IH]; intros m Hid Hf Hnd Hdis Hac Hsub Hl.
  { exists m, []. by rewrite app_nil_r. }
  apply Forall_cons in Hf as [Hn Hf]. cbn in Hnd. apply NoDup_cons in Hnd as [Hni Hnd].
  destruct (edge_value_names _ _ Hn) as (Eid & Ef & Et). cbn [fst snd] in *.
  destruct (Hl (id, row)) as (HR & Hin1 & Hin2); [by left|]. cbn in HR, Hin1, Hin2.
  destruct (load_edge_applied run m (dag_edge_of (edge_value row)) R Hid)
    as (r & m1 & e1 & E & Hid1 & Ee1 & En1 & Ei & E2 & E3); [|congruence..|done|done|congruence|].
  { rewrite Eid. apply Hdis. cbn. left. }
  destruct (IH m1) as (m' & es & El & Hid' & En & Ee & Hall); [done..| |done| | |].
  { intros i Hi. rewrite Ee1. rewrite fmap_app, not_elem_of_app. split.
    - apply Hdis. cbn. by right.
    - cbn. rewrite Ei, Eid, list_elem_of_singleton. by intros ->. }
  { intros x y. rewrite Ee1. unfold pairs_of. rewrite fmap_app, elem_of_app. intros [Hxy|Hxy]; [by apply Hsub|].
    cbn in Hxy. apply list_elem_of_singleton in Hxy as [= -> ->]. by rewrite E2, E3, Ef, Et. }
  { intros kr Hkr. rewrite En1. apply Hl. by right. }
  exists m', (e1 :: es). cbn [fmap list_fmap apply_loads compose snd]. rewrite E. cbn [mbind option_bind].
  split_and!; [done|done|congruence|by rewrite Ee, Ee1, <-app_assoc|].
  constructor; [|done]. cbn. by rewrite Ei, E2, E3.
Qed.

(** The manager knows the status of every node. *)
Definition statuses_agree (run : string) db st : Prop :=
  ∀ n row, n ∈ dag_nodes st → workflow_run_nodes db !! (run, node_id n) = Some row →
    node_status n = wn_status row.

Lemma Forall2_elem_l {A B} (P : A → B → Prop) l k x :
  Forall2 P l k → x ∈ l → ∃ y, y ∈ k ∧ P x y.
Proof.
  induction 1 as [|a b l k Hab _ IH]; intros Hx; [by apply not_elem_of_nil in Hx|].
  apply elem_of_cons in Hx as [-> |Hx]; [exists b; by split; [left|]|].
  destruct (IH Hx) as (y & Hy & ?). exists y. by split; [right|].
Qed.

Lemma Forall2_elem_r {A B} (P : A → B → Prop) l k y :
  Forall2 P l k → y ∈ k → ∃ x, x ∈ l ∧ P x y.
Proof.
  induction 1 as [|a b l k Hab _ IH]; intros Hy; [by apply not_elem_of_nil in Hy|].
  apply elem_of_cons in Hy as [-> |Hy]; [exists a; by split; [left|]|].
  destruct (IH Hy) as (x & Hx & ?). exists x. by split; [right|].
Qed.

Lemma load_mirrors run now db :
  stored_ok run db → graph_ok run db →
  ∃ m, load_manager run now db = Some m ∧ manager_dag_id m = run ∧ dag_wf (state m)
    ∧ mirrors run db (state m) ∧ statuses_agree run db (state m).
Proof.
  intros [Hns Hes] [Hends Hac].
  destruct (load_nodes run (run_nodes run db) (manager_new run now)) as (m1 & ns & E1 & Hid1 & Ee1 & En1 & Hall1).
  { done. }
  { apply Forall_forall. intros [id row] Hin%elem_of_run_nodes. by apply Hns. }
  { apply run_rows_NoDup. }
  { intros id _. apply not_elem_of_nil. }
  assert (Hids : ∀ id, id ∈ ids_of (dag_nodes (state m1)) ↔ is_Some (workflow_run_nodes db !! (run, id))).
  { intros id. rewrite En1. cbn. unfold ids_of. rewrite list_elem_of_fmap. split.
    - intros (n & -> & Hn). destruct (Forall2_elem_r _ _ _ _ Hall1 Hn) as ([i row] & Hin & -> & _).
      apply elem_of_run_nodes in Hin. cbn. eauto.
    - intros [row Hr%elem_of_run_nodes]. destruct (Forall2_elem_l _ _ _ _ Hall1 Hr) as (n & Hn & E & _). by exists n. }
  destruct (load_edges run (run_edges run db) (run_edge run db) m1) as (m & es & E2 & Hid & En & Ee & Hall2).
  { done. }
  { apply Forall_forall. intros [id row] Hin%elem_of_run_edges. by apply Hes. }
  { apply run_rows_NoDup. }
  { intros id _. rewrite Ee1. apply not_elem_of_nil. }
  { done. }
  { intros x y. rewrite Ee1. by intros ?%not_elem_of_nil. }
  { intros [eid row] Hin%elem_of_run_edges. cbn. rewrite !Hids.
    assert (run_edge run db (we_from_node_id row) (we_to_node_id row)) by by eexists _, _. auto. }
  assert (Hload : load_manager run now db = Some m).
  { unfold load_manager. rewrite apply_loads_app. unfold workflow_run_nodes_locked, workflow_run_edges_locked.
    by rewrite E1. }
  exists m. split_and!; [done|done| | |].
  - by destruct (apply_loads_wf _ _ _ Hload (empty_wf run now)).
  - split; [by rewrite En|]. intros eid x y. rewrite Ee, Ee1. cbn. split.
    + intros (e & He & <- & <- & <-). destruct (Forall2_elem_r _ _ _ _ Hall2 He) as ([i row] & Hin & -> & -> & ->).
      apply elem_of_run_edges in Hin. cbn. eauto.
    + intros (row & Hr%elem_of_run_edges & <- & <-).
      destruct (Forall2_elem_l _ _ _ _ Hall2 Hr) as (e & He & E3 & E4 & E5). by exists e.
  - intros n row Hn Hr. rewrite En, En1 in Hn. cbn in Hn.
    destruct (Forall2_elem_r _ _ _ _ Hall1 Hn) as ([i row'] & Hin%elem_of_run_nodes & Ei & ->).
    cbn in *. rewrite Ei in Hr. congruence.
Qed.

(** ** Storing *)

Context (parse_object : ∀ m : gmap string V, json_parse (json_print (json_object m)) = Some (json_object m)).

Lemma mirrors_ext run db db' st :
  (∀ id, workflow_run_nodes db' !! (run, id) = workflow_run_nodes db !! (run, id)) →
  (∀ eid, workflow_run_edges db' !! (run, eid) = workflow_run_edges db !! (run, eid)) →
  mirrors run db st → mirrors run db' st.
Proof.
  intros En Ee [Hn He]. split; [intros id; by rewrite En|]. intros eid x y. rewrite Ee. apply He.
Qed.

(** A proposal is stored: the operation succeeds, the rows mirror the new graph,
    and nothing else changes. *)
Definition stores run (m : store unit) db st' : Prop :=
  ∃ db', m db = Some (Ok tt, db') ∧ mirrors run db' st' ∧ stored_ok run db' ∧ elsewhere run db db'.

Lemma mutation_event_ok run nid kind actor details now db :
  ∃ events, mutation_event run nid kind actor details now db
    = Some (Ok tt, db <| workflow_run_events := events |>).
Proof. by eexists. Qed.

(** The event at the end of an operation. *)
Lemma stores_event run nid kind actor details now db db1 st' :
  mirrors run db1 st' → stored_ok run db1 → elsewhere run db db1 →
  ∃ db', mutation_event run nid kind actor details now db1 = Some (Ok tt, db')
    ∧ mirrors run db' st' ∧ stored_ok run db' ∧ elsewhere run db db'.
Proof.
  intros Hm [Hs1 Hs2] [He1 He2 He3 He4 He5 He6].
  destruct (mutation_event_ok run nid kind actor details now db1) as (ev & ->).
  eexists. split; [done|]. split_and!; [by apply (mirrors_ext run db1)|by split|by split].
Qed.

Lemma added_node_names p nid :
  get_str (payload p) "node_id" = Some nid → json_get_str (added_node p) "node_id" = Some nid
    ∧ node_names nid (node_row_of (added_node p)).
Proof.
  unfold get_str, added_node. destruct (payload p !! "node_id") as [v|] eqn:E; [|done]. cbn [mbind option_bind].
  intros Hv. set (object := put _ _ _ _).
  assert (Ho : object !! "node_id" = Some v) by (unfold object; rewrite put_other by done; done).
  split; [unfold json_get_str, json_get; rewrite object_fields; cbn; by rewrite Ho|].
  exists (json_object object), object. cbn [node_row_of wn_node_json]. rewrite parse_object, object_fields.
  split_and!; [done|done|]. unfold get_str. by rewrite Ho.
Qed.

Lemma execute_then {B} (m : store B) f db : (_u <-! execute f ;; m) db = m (f db).
Proof. done. Qed.

Lemma query_then {A B} (f : database → result string A) a (k : A → store B) db :
  f db = Ok a → (x <-! query f ;; k x) db = k a db.
Proof. intros E. unfold bind, query. by rewrite E. Qed.

Lemma run_exists run db : is_Some (workflow_runs db !! run) → ensure_run_exists_locked run db = Ok tt.
Proof. intros [row E]. unfold ensure_run_exists_locked. by rewrite E. Qed.

Lemma store_add_node run actor reason now p db st st' :
  is_Some (workflow_runs db !! run) → mirrors run db st → stored_ok run db →
  apply_add_node st p = Ok st' →
  stores run (insert_workflow_node run (added_node p) actor reason now) db st'.
Proof.
  intros Hrun Hm Hs. unfold apply_add_node. destruct (get_str (payload p) "node_id") as [nid|] eqn:Ep; [|done].
  cbn [ok_or]. destruct (find_node (dag_nodes st) nid) eqn:Ef; [done|]. apply find_node_None in Ef.
  cbn [is_some]. intros [= <-]. destruct (added_node_names p nid Ep) as [Ej Hn].
  assert (Hnew : workflow_run_nodes db !! (run, nid) = None).
  { apply eq_None_not_Some. by rewrite <-(mi_nodes _ _ _ Hm). }
  unfold stores, insert_workflow_node. rewrite Ej. unfold bind at 1, lift at 1. cbn [ok_or].
  rewrite (query_then _ tt) by by apply run_exists.
  rewrite (query_then _ false) by by rewrite Hnew.
  unfold insert_workflow_run_node_locked, insert_workflow_run_node_with_mode. rewrite Ej.
  apply (stores_event run (Some nid) "node_added" actor _ now
    db (db <| workflow_run_nodes := <[(run, nid) := node_row_of (added_node p)]> (workflow_run_nodes db) |>)).
  - split; cbn [dag_nodes dag_edges next_state workflow_run_nodes workflow_run_edges].
    + intros i. unfold ids_of. rewrite fmap_app, elem_of_app. cbn. rewrite list_elem_of_singleton.
      rewrite lookup_insert_is_Some, <-(mi_nodes _ _ _ Hm). unfold ids_of.
      destruct (decide (nid = i)) as [-> |Hne]; [by split; intros _; [left|right]|].
      split; [intros [?| ->]; [right; split; [congruence|done]|done]|]. intros [[= <-]|[_ ?]]; [done|by left].
    + apply Hm.
  - destruct Hs as [Hs1 Hs2]. split; [|exact Hs2]. intros i row. cbn.
    rewrite lookup_insert_Some. intros [[[= <-] <-]|[_ Hr]]; [done|by apply Hs1].
  - split; try done. intros k Hk. cbn. rewrite lookup_insert_ne; [done|]. by intros <-.
Qed.

Lemma remove_node_inv st p st' :
  apply_remove_node st p = Ok st' →
  ∃ nid, target_node_id p = Some nid ∧ nid ∈ ids_of (dag_nodes st)
    ∧ (∀ e, e ∈ dag_edges st → from_node e ≠ nid ∧ to_node e ≠ nid)
    ∧ dag_nodes st' = filter (λ n, node_id n ≠ nid) (dag_nodes st) ∧ dag_edges st' = dag_edges st.
Proof.
  unfold apply_remove_node. destruct (target_node_id p) as [nid|]; [|done]. cbn [ok_or].
  destruct (find_node (dag_nodes st) nid) as [n|] eqn:Ef; [|done]. cbn [is_none].
  case_bool_decide as Hc; [|done]. cbn [negb]. intros [= <-]. exists nid. split_and!; try done.
  - apply find_node_is_Some. by rewrite Ef.
  - intros e He. split; intros <-; eapply (filter_nil_not_elem_of _ _ e) in Hc; eauto.
Qed.

Lemma store_remove_node run actor reason now p db st st' :
  is_Some (workflow_runs db !! run) → mirrors run db st → stored_ok run db →
  apply_remove_node st p = Ok st' →
  stores run (remove_workflow_node run (default EmptyString (target_node_id p)) actor reason now) db st'.
Proof.
  intros Hrun Hm Hs (nid & -> & Hin & Hfree & En & Ee)%remove_node_inv. cbn [from_option].
  unfold stores, remove_workflow_node. rewrite (query_then _ tt) by by apply run_exists.
  erewrite query_then by done.
  assert (Hkeep : ∀ eid, filter (λ ke, ¬ connected run nid ke) (workflow_run_edges db) !! (run, eid)
    = workflow_run_edges db !! (run, eid)).
  { intros eid. apply option_eq. intros row. rewrite map_lookup_filter_Some. split; [by intros []|].
    intros Hr. split; [done|]. intros [_ Hc]. cbn in Hc.
    destruct (mi_edges _ _ _ Hm eid (we_from_node_id row) (we_to_node_id row)) as [_ H].
    destruct H as (e & He & _ & Ef & Et); [by eauto|]. destruct (Hfree e He). intuition congruence. }
  apply (stores_event run (Some nid) "node_removed" actor _ now
    db (db <| workflow_run_edges := filter (λ ke, ¬ connected run nid ke) (workflow_run_edges db) |>
           <| workflow_run_nodes := delete (run, nid) (workflow_run_nodes db) |>)).
  - split; cbn.
    + intros i. rewrite En. unfold ids_of. rewrite list_elem_of_fmap, lookup_delete_is_Some.
      rewrite <-(mi_nodes _ _ _ Hm). unfold ids_of. rewrite list_elem_of_fmap. split.
      * intros (n & -> & [Hn Hi]%list_elem_of_filter). split; [congruence|eauto].
      * intros (Hne & n & -> & Hi). exists n. split; [done|]. apply list_elem_of_filter. split; [congruence|done].
    + intros eid x y. rewrite Ee, Hkeep. apply Hm.
  - destruct Hs as [Hs1 Hs2]. split; cbn.
    + intros i row [_ Hr]%lookup_delete_Some. by apply Hs1.
    + intros eid row. rewrite Hkeep. apply Hs2.
  - split; try done; intros k Hk; cbn.
    + rewrite lookup_delete_ne; [done|]. by intros <-.
    + apply option_eq. intros row. rewrite map_lookup_filter_Some. split; [by intros []|].
      intros Hr. split; [done|]. by intros [? _].
Qed.

Lemma add_edge_inv st p st' :
  apply_add_edge st p = Some (Ok st') →
  ∃ e, get_str (payload p) "edge_id" = Some (edge_id e)
    ∧ get_str (payload p) "from_node" = Some (from_node e)
    ∧ get_str (payload p) "to_node" = Some (to_node e)
    ∧ (edge_id e ∉ edge_id <$> dag_edges st) ∧ dag_nodes st' = dag_nodes st
    ∧ dag_edges st' = dag_edges st ++ [e].
Proof.
  unfold apply_add_edge. destruct (get_str (payload p) "edge_id") as [eid|]; [|done].
  destruct (get_str (payload p) "from_node") as [x|]; [|done].
  destruct (get_str (payload p) "to_node") as [y|]; [|done]. cbn [ok_or].
  destruct (find_node _ x); [|done]. destruct (find_node _ y); [|done]. cbn [is_none].
  destruct (find_edge (dag_edges st) eid) eqn:Ef; [done|]. apply find_edge_None in Ef. cbn.
  destruct (has_cycle _ _) as [[]|]; [done| |done]. intros [= <-].
  by eexists (mkDAGEdge eid x y _ _).
Qed.

Lemma rewire_edge_inv st p st' :
  apply_rewire_edge st p = Some (Ok st') →
  ∃ eid e e', target_edge_id p = Some eid ∧ e ∈ dag_edges st ∧ edge_id e = eid ∧ edge_id e' = eid
    ∧ from_node e' = get_str_or (payload p) "from_node" (from_node e)
    ∧ to_node e' = get_str_or (payload p) "to_node" (to_node e)
    ∧ dag_nodes st' = dag_nodes st
    ∧ dag_edges st' = filter (λ e, edge_id e ≠ eid) (dag_edges st) ++ [e'].
Proof.
  unfold apply_rewire_edge. destruct (target_edge_id p) as [eid|]; [|done]. cbn [ok_or].
  destruct (find_edge (dag_edges st) eid) as [e|] eqn:Ef; [|done]. apply find_edge_Some in Ef as [Hin <-].
  cbn [ok_or]. destruct (find_node _ _); [|done]. cbn [is_none].
  destruct (find_node _ (get_str_or _ "to_node" _)); [|done]. cbn.
  destruct (has_cycle _ _) as [[]|]; [done| |done]. intros [= <-].
  by eexists _, e, (mkDAGEdge (edge_id e) _ _ _ _).
Qed.

Lemma added_edge_names p e :
  get_str (payload p) "edge_id" = Some (edge_id e) →
  get_str (payload p) "from_node" = Some (from_node e) →
  get_str (payload p) "to_node" = Some (to_node e) →
  json_get_str (added_edge p) "edge_id" = Some (edge_id e)
  ∧ ∃ row, edge_row_of (edge_id e) (added_edge p) = Ok row ∧ edge_names (edge_id e) row
      ∧ we_from_node_id row = from_node e ∧ we_to_node_id row = to_node e.
Proof.
  intros H1 H2 H3. unfold added_edge, get_str_or. rewrite H1, H2, H3. cbn [from_option].
  set (object := list_to_map _). unfold edge_row_of, json_get_str, json_get. rewrite !object_fields.
  assert (E1 : get_str object "edge_id" = Some (edge_id e)) by by apply load_payload.
  assert (E2 : get_str object "from_node_id" = Some (from_node e)) by by apply load_payload.
  assert (E3 : get_str object "to_node_id" = Some (to_node e)) by by apply load_payload.
  unfold get_str in E1, E2, E3. cbn [mbind option_bind] in *. rewrite E1, E2, E3. split; [done|].
  eexists. split; [done|]. split_and!; [|done|done]. exists (json_object object), object.
  cbn [we_edge_json]. rewrite parse_object, object_fields. unfold get_str. by rewrite E1, E2, E3.
Qed.

Lemma insert_edge_runs run edge eid row db :
  json_get_str edge "edge_id" = Some eid → edge_row_of eid edge = Ok row →
  insert_workflow_run_edge_locked run edge db
    = Some (Ok tt, db <| workflow_run_edges := <[(run, eid) := row]> (workflow_run_edges db) |>).
Proof.
  intros E1 E2. unfold insert_workflow_run_edge_locked, insert_workflow_run_edge_with_mode.
  unfold bind, lift. rewrite E1. cbn [ok_or]. by rewrite E2.
Qed.

Lemma store_add_edge run actor reason now p db st st' :
  is_Some (workflow_runs db !! run) → mirrors run db st → stored_ok run db →
  apply_add_edge st p = Some (Ok st') →
  stores run (insert_workflow_edge run (added_edge p) actor reason now) db st'.
Proof.
  intros Hrun Hm Hs (e & H1 & H2 & H3 & Hnew & En & Ee)%add_edge_inv.
  destruct (added_edge_names p e H1 H2 H3) as (Ej & row & Er & Hn & Ef & Et).
  assert (Hfree : workflow_run_edges db !! (run, edge_id e) = None).
  { destruct (workflow_run_edges db !! (run, edge_id e)) as [r|] eqn:Hr; [|done]. exfalso. apply Hnew.
    destruct (mi_edges _ _ _ Hm (edge_id e) (we_from_node_id r) (we_to_node_id r)) as [_ H].
    destruct H as (e' & He' & <- & _); [by eauto|]. by apply list_elem_of_fmap_2. }
  unfold stores, insert_workflow_edge. rewrite Ej. unfold bind at 1, lift at 1. cbn [ok_or].
  rewrite (query_then _ tt) by by apply run_exists. rewrite (query_then _ false) by by rewrite Hfree.
  unfold bind at 1. rewrite (insert_edge_runs _ _ _ _ _ Ej Er).
  apply (stores_event run None "edge_added" actor _ now
    db (db <| workflow_run_edges := <[(run, edge_id e) := row]> (workflow_run_edges db) |>)).
  - split; cbn; [rewrite En; apply Hm|]. intros eid x y. rewrite Ee. split.
    + intros (e' & [He| ->%list_elem_of_singleton]%elem_of_app & <- & <- & <-).
      * destruct (mi_edges _ _ _ Hm (edge_id e') (from_node e') (to_node e')) as [H _].
        destruct H as (r & Hr & ? & ?); [by eauto|]. exists r. rewrite lookup_insert_ne; [done|].
        intros [= E]. rewrite E in Hfree. congruence.
      * exists row. by rewrite lookup_insert_eq.
    + intros (r & [[[= <-] <-]|[_ Hr]]%lookup_insert_Some & <- & <-).
      * exists e. rewrite elem_of_app, list_elem_of_singleton. by auto.
      * destruct (mi_edges _ _ _ Hm eid (we_from_node_id r) (we_to_node_id r)) as [_ H].
        destruct H as (e' & He' & ?); [by eauto|]. exists e'. rewrite elem_of_app. by auto.
  - destruct Hs as [Hs1 Hs2]. split; [exact Hs1|]. intros eid r. cbn.
    rewrite lookup_insert_Some. intros [[[= <-] <-]|[_ Hr]]; [done|by apply Hs2].
  - split; try done. intros k Hk. cbn. rewrite lookup_insert_ne; [done|]. by intros <-.
Qed.

Lemma store_remove_edge run actor reason now p db st st' :
  is_Some (workflow_runs db !! run) → mirrors run db st → stored_ok run db →
  apply_remove_edge st p = Ok st' →
  stores run (remove_workflow_edge run (default EmptyString (target_edge_id p)) actor reason now) db st'.
Proof.
  intros Hrun Hm Hs. unfold apply_remove_edge. destruct (target_edge_id p) as [eid|]; [|done]. cbn [ok_or from_option].
  destruct (find_edge (dag_edges st) eid); [|done]. cbn [is_none]. intros [= <-].
  unfold stores, remove_workflow_edge. rewrite (query_then _ tt) by by apply run_exists.
  apply (stores_event run None "edge_removed" actor _ now
    db (db <| workflow_run_edges := delete (run, eid) (workflow_run_edges db) |>)).
  - split; cbn; [apply Hm|]. intros eid' x y. split.
    + intros (e & [Hne He]%list_elem_of_filter & <- & <- & <-).
      destruct (mi_edges _ _ _ Hm (edge_id e) (from_node e) (to_node e)) as [H _].
      destruct H as (r & Hr & ? & ?); [by eauto|]. exists r. rewrite lookup_delete_ne; [done|congruence].
    + intros (r & [Hne Hr]%lookup_delete_Some & <- & <-).
      destruct (mi_edges _ _ _ Hm eid' (we_from_node_id r) (we_to_node_id r)) as [_ H].
      destruct H as (e & He & E & ?); [by eauto|]. exists e. rewrite list_elem_of_filter. split; [|done].
      split; [congruence|done].
  - destruct Hs as [Hs1 Hs2]. split; [exact Hs1|]. intros eid' r. cbn. intros [_ Hr]%lookup_delete_Some. by apply Hs2.
  - split; try done. intros k Hk. cbn. rewrite lookup_delete_ne; [done|]. by intros <-.
Qed.

Lemma rewired_names eid row v m final_from final_to :
  as_object v = Some m → get_str m "edge_id" = Some eid →
  edge_names eid (rewired_row final_from final_to v row).
Proof.
  intros Hm Hid. unfold edge_names, rewired_row. rewrite Hm. cbn. eexists _, _.
  rewrite parse_object, object_fields. split_and!; [done|done|..]; unfold get_str in *.
  - by rewrite !lookup_insert_ne.
  - rewrite lookup_insert_ne, lookup_insert_eq by done. apply str_value.
  - rewrite lookup_insert_eq. apply str_value.
Qed.

Lemma store_rewire_edge run actor reason now p db st st' :
  is_Some (workflow_runs db !! run) → mirrors run db st → stored_ok run db → dag_wf st →
  apply_rewire_edge st p = Some (Ok st') →
  stores run (rewire_workflow_edge run (default EmptyString (target_edge_id p))
    (get_str (payload p) "from_node") (get_str (payload p) "to_node") actor reason now) db st'.
Proof.
  intros Hrun Hm Hs Hwf (eid & e & e' & -> & Hin & Ei & Ei' & Ef & Et & En & Ee)%rewire_edge_inv. cbn [from_option id].
  destruct (mi_edges _ _ _ Hm eid (from_node e) (to_node e)) as [H _].
  destruct H as (row & Hr & Rf & Rt); [by eauto|].
  destruct (so_edges _ _ Hs _ _ Hr) as (v & m & Hv & Hvm & Hid & Hf & Ht).
  unfold stores, rewire_workflow_edge. rewrite (query_then _ tt) by by apply run_exists.
  rewrite (query_then _ row) by by rewrite Hr. rewrite Hv. cbn [from_option id].
  assert (Jf : json_get_str v "from_node_id" = Some (from_node e)).
  { unfold json_get_str, json_get. rewrite Hvm. unfold get_str in Hf. cbn. by rewrite Hf, Rf. }
  assert (Jt : json_get_str v "to_node_id" = Some (to_node e)).
  { unfold json_get_str, json_get. rewrite Hvm. unfold get_str in Ht. cbn. by rewrite Ht, Rt. }
  rewrite Jf, Jt. cbn [from_option id]. unfold get_str_or in Ef, Et. rewrite <-Ef, <-Et.
  apply (stores_event run None "edge_rewired" actor _ now
    db (db <| workflow_run_edges :=
      alter (rewired_row (from_node e') (to_node e') v) (run, eid) (workflow_run_edges db) |>)).
  - split; cbn; [rewrite En; apply Hm|]. intros eid' x y. rewrite Ee. split.
    + intros (f & [[Hne Hf']%list_elem_of_filter| ->%list_elem_of_singleton]%elem_of_app & <- & <- & <-).
      * destruct (mi_edges _ _ _ Hm (edge_id f) (from_node f) (to_node f)) as [H _].
        destruct H as (r & Hr' & ? & ?); [by eauto|]. exists r. rewrite lookup_alter_ne; [done|congruence].
      * rewrite Ei', lookup_alter_eq, Hr. by eexists.
    + intros (r & Hr' & <- & <-). destruct (decide (eid' = eid)) as [-> |Hne].
      * rewrite lookup_alter_eq, Hr in Hr'. injection Hr' as <-. exists e'.
        rewrite elem_of_app, list_elem_of_singleton. by auto.
      * rewrite lookup_alter_ne in Hr' by congruence.
        destruct (mi_edges _ _ _ Hm eid' (we_from_node_id r) (we_to_node_id r)) as [_ H].
        destruct H as (f & Hf' & E & ?); [by eauto|]. exists f. rewrite elem_of_app, list_elem_of_filter.
        split; [left; split; [congruence|done]|done].
  - destruct Hs as [Hs1 Hs2]. split; [exact Hs1|]. intros eid' r. cbn. intros Hr'.
    destruct (decide (eid' = eid)) as [-> |Hne].
    + rewrite lookup_alter_eq, Hr in Hr'. injection Hr' as <-. by eapply rewired_names.
    + rewrite lookup_alter_ne in Hr' by congruence. by apply Hs2.
  - split; try done. intros k Hk. cbn. rewrite lookup_alter_ne; [done|]. by intros <-.
Qed.

Lemma update_node_inv st p st' :
  apply_update_node st p = Ok st' →
  ∃ nid, target_node_id p = Some nid ∧ nid ∈ ids_of (dag_nodes st)
    ∧ ids_of (dag_nodes st') = ids_of (dag_nodes st) ∧ dag_edges st' = dag_edges st.
Proof.
  unfold apply_update_node. destruct (target_node_id p) as [nid|]; [|done]. cbn [ok_or].
  destruct (find_node (dag_nodes st) nid) as [n|] eqn:Ef; [|done]. cbn [ok_or]. intros [= <-]. exists nid.
  split; [done|]. split; [apply find_node_is_Some; by rewrite Ef|]. split; [|done].
  apply find_node_Some in Ef as [_ Hid]. cbn. unfold ids_of. rewrite <-list_fmap_compose.
  apply list_fmap_ext. intros i x Hx. cbn. case_bool_decide; [cbn; congruence|done].
Qed.

Lemma alter_insert_known {A} (f : A → A) (m : gmap (string * string) A) k x :
  m !! k = Some x → alter f k m = <[k := f x]> m.
Proof.
  intros Hx. apply map_eq. intros j. destruct (decide (j = k)) as [-> |Hne].
  - by rewrite lookup_alter_eq, Hx, lookup_insert_eq.
  - by rewrite lookup_alter_ne, lookup_insert_ne.
Qed.

Lemma update_status_runs run nid status actor reason now db row :
  is_Some (workflow_runs db !! run) → status ∈ valid_statuses →
  workflow_run_nodes db !! (run, nid) = Some row → node_names nid row →
  ∃ text events,
    let row' := row <| wn_status := status |> <| wn_node_json := text |> in
    update_workflow_node_status run nid status actor reason now db
      = Some (Ok tt, db <| workflow_run_nodes := <[(run, nid) := row']> (workflow_run_nodes db) |>
                        <| workflow_run_events := events |>)
    ∧ node_names nid row'
    ∧ ∀ v m, json_parse (wn_node_json row) = Some v → as_object v = Some m →
        json_parse text = Some (json_object (<["status" := json_string status]> m)).
Proof.
  intros Hrun Hst Hr (v & m & Hv & Hm & Hid). unfold update_workflow_node_status.
  rewrite bool_decide_true by done. cbn [negb]. rewrite (query_then _ tt) by by apply run_exists.
  unfold update_node. rewrite execute_then. rewrite (query_then _ (row <| wn_status := status |>)).
  2: { cbn. by rewrite lookup_alter_eq, Hr. }
  change (wn_node_json (row <| wn_status := status |>)) with (wn_node_json row).
  rewrite Hv. cbn [from_option id]. unfold json_insert. rewrite Hm. rewrite execute_then.
  set (object := <["status" := json_string status]> m). exists (json_print (json_object object)).
  match goal with |- context [mutation_event ?a ?b ?c ?d ?e ?f ?db1] =>
    destruct (mutation_event_ok a b c d e f db1) as (ev & Eev) end.
  exists ev. cbv zeta. split_and!.
  - rewrite Eev. cbn. rewrite (alter_insert_known _ _ _ _ Hr).
    by rewrite (alter_insert_known _ (<[_ := _]> _) _ _ (lookup_insert_eq _ _ _)), insert_insert_eq.
  - exists (json_object object), object. cbn. rewrite parse_object, object_fields. split_and!; [done|done|].
    unfold get_str, object in *. by rewrite lookup_insert_ne.
  - intros v' m' Hv' Hm'. rewrite parse_object. unfold object. congruence.
Qed.

(** An update is stored when the status it writes is a known one. *)
Definition storable (p : DAGMutationProposal (V := V)) : bool :=
  negb (bool_decide (mutation_type p = "update_node"))
  || bool_decide (get_str_or (payload p) "status" "pending" ∈ valid_statuses).

(** The outcome of storing a proposal the manager has applied. *)
Definition stores_as run (b : bool) (m : store unit) db st' : Prop :=
  ∃ r db', m db = Some (r, db') ∧ (r = Ok tt ↔ b = true) ∧ mirrors run db' st'
    ∧ stored_ok run db' ∧ elsewhere run db db'.

Lemma stores_as_ok run m db st' : stores run m db st' → stores_as run true m db st'.
Proof. intros (db' & E & ?). by exists (Ok tt), db'. Qed.

Lemma mirrors_same run db st st' :
  ids_of (dag_nodes st') = ids_of (dag_nodes st) → dag_edges st' = dag_edges st →
  mirrors run db st → mirrors run db st'.
Proof. intros En Ee [Hn He]. split; [by rewrite En|by rewrite Ee]. Qed.

Lemma store_update_node run actor reason now p db st st' :
  is_Some (workflow_runs db !! run) → mirrors run db st → stored_ok run db →
  apply_update_node st p = Ok st' →
  let status := get_str_or (payload p) "status" "pending" in
  stores_as run (bool_decide (status ∈ valid_statuses))
    (update_workflow_node_status run (default EmptyString (target_node_id p)) status actor reason now) db st'.
Proof.
  intros Hrun Hm Hs (nid & -> & Hin & En & Ee)%update_node_inv status. cbn [from_option id].
  apply (mirrors_same run db st st' En Ee) in Hm as Hm'. case_bool_decide as Hst.
  - apply (mi_nodes _ _ _ Hm) in Hin as [row Hr].
    destruct (update_status_runs run nid status actor reason now db row Hrun Hst Hr) as (text & ev & E & Hn & _);
      [by apply (so_nodes _ _ Hs)|].
    eexists _, _. split; [exact E|]. split; [done|]. split_and!.
    + split; [|apply Hm']. intros i. rewrite (mi_nodes _ _ _ Hm'). cbn. rewrite lookup_insert_is_Some.
      destruct (decide (i = nid)) as [-> |Hne]; [rewrite Hr; split; [by left|eauto]|].
      split; [intros ?; right; split; [congruence|done]|]. by intros [[= <-]|[_ ?]].
    + destruct Hs as [Hs1 Hs2]. split; [|exact Hs2]. intros i r. cbn.
      rewrite lookup_insert_Some. intros [[[= <-] <-]|[_ ?]]; [exact Hn|by apply Hs1].
    + split; try done. intros k Hk. cbn. rewrite lookup_insert_ne; [done|]. by intros <-.
  - unfold update_workflow_node_status, stores_as. rewrite bool_decide_false by done. by eexists _, _.
Qed.

(** Case analysis on the kind of a proposal, in [Hf] and in the goal alike. *)
Ltac by_kind Hf :=
  repeat match type of Hf with
  | (if bool_decide (?k = ?s) then _ else _) = _ =>
    let Ek := fresh "Ek" in
    destruct (decide (k = s)) as [Ek|Ek];
      [rewrite (bool_decide_true _ Ek) in Hf; rewrite ?(bool_decide_true _ Ek)
      |rewrite (bool_decide_false _ Ek) in Hf; rewrite ?(bool_decide_false _ Ek); clear Ek]
  end.

Lemma persist_stores run actor now p (m m' : DAGManager (V := V)) r db :
  is_Some (workflow_runs db !! run) → mirrors run db (state m) → stored_ok run db → dag_wf (state m) →
  apply_mutation m p = Some (r, m') → applied r = true →
  stores_as run (storable p) (persist_proposal run actor now p) db (state m').
Proof.
  intros Hrun Hm Hs Hwf E Ha.
  apply apply_mutation_inv in E as [(_ & Hf & _)|(f & st' & Hf & Hst & _ & _ & -> & _)]; [congruence|]. cbn [state].
  unfold apply_fn in Hf. unfold persist_proposal, storable.
  by_kind Hf; [..|done]; injection Hf as <-; try injection Hst as Hst; rewrite ?Ek; cbn [negb orb].
  - by apply stores_as_ok, (store_add_node run actor _ now p db (state m)).
  - by apply stores_as_ok, (store_remove_node run actor _ now p db (state m)).
  - by apply stores_as_ok, (store_add_edge run actor _ now p db (state m)).
  - by apply stores_as_ok, (store_remove_edge run actor _ now p db (state m)).
  - by apply stores_as_ok, (store_rewire_edge run actor _ now p db (state m)).
  - by apply (store_update_node run actor _ now p db (state m)).
Qed.

(** ** Rows after a proposal *)

(** A row of the run after [p] was stored: as before, new, or with another status. *)
Inductive row_after (p : DAGMutationProposal (V := V)) (nid : string) (old : option work_row)
    : work_row → Prop :=
  | ra_same row : old = Some row → row_after p nid old row
  | ra_added : mutation_type p = "add_node" → get_str (payload p) "node_id" = Some nid → old = None →
      row_after p nid old (node_row_of (added_node p))
  | ra_status row text v m :
      mutation_type p = "update_node" → target_node_id p = Some nid → old = Some row →
      json_parse (wn_node_json row) = Some v → as_object v = Some m →
      json_parse text
        = Some (json_object (<["status" := json_string (get_str_or (payload p) "status" "pending")]> m)) →
      row_after p nid old (row <| wn_status := get_str_or (payload p) "status" "pending" |>
                               <| wn_node_json := text |>).

Definition rows_after run (p : DAGMutationProposal (V := V)) db db' : Prop :=
  ∀ nid row, workflow_run_nodes db' !! (run, nid) = Some row →
    row_after p nid (workflow_run_nodes db !! (run, nid)) row.

Lemma rows_after_same run p db db' :
  workflow_run_nodes db' = workflow_run_nodes db → rows_after run p db db'.
Proof. intros E nid row. rewrite E. intros ->. by constructor. Qed.

Lemma mutation_event_nodes run nid kind actor details now db r db' :
  mutation_event run nid kind actor details now db = Some (r, db') →
  workflow_run_nodes db' = workflow_run_nodes db.
Proof. destruct (mutation_event_ok run nid kind actor details now db) as (ev & ->). by intros [= _ <-]. Qed.

Lemma query_inv_bind {A B} (f : database → result string A) (k : A → store B) db r db' :
  (x <-! query f ;; k x) db = Some (r, db') →
  (db' = db ∧ ∃ e, r = Err e) ∨ ∃ a, f db = Ok a ∧ k a db = Some (r, db').
Proof. unfold bind, query. destruct (f db) as [a|e]; [eauto|intros [= <- <-]; eauto]. Qed.

Lemma insert_node_rows run actor reason now p nid db r db' :
  mutation_type p = "add_node" → get_str (payload p) "node_id" = Some nid →
  insert_workflow_node run (added_node p) actor reason now db = Some (r, db') → rows_after run p db db'.
Proof.
  intros Hk Hp. destruct (added_node_names p nid Hp) as [Ej _].
  unfold insert_workflow_node. rewrite Ej. unfold bind at 1, lift at 1. cbn [ok_or].
  intros [[-> _]|(u & _ & H)]%query_inv_bind; [by apply rows_after_same|].
  apply query_inv_bind in H as [[-> _]|(ex & Hex & H)]; [by apply rows_after_same|].
  destruct ex; [injection H as _ <-; by apply rows_after_same|].
  destruct (workflow_run_nodes db !! (run, nid)) eqn:Hnew; [done|].
  unfold insert_workflow_run_node_locked, insert_workflow_run_node_with_mode in H. rewrite Ej in H.
  apply mutation_event_nodes in H. cbn in H. intros i row. rewrite H, lookup_insert_Some.
  intros [[[= <-] <-]|[_ Hr]]; [by apply ra_added|by constructor].
Qed.

Lemma remove_node_rows run nid actor reason now p db r db' :
  remove_workflow_node run nid actor reason now db = Some (r, db') → rows_after run p db db'.
Proof.
  unfold remove_workflow_node. intros [[-> _]|(u & _ & H)]%query_inv_bind; [by apply rows_after_same|].
  apply query_inv_bind in H as [[-> _]|(n & _ & H)]; [by apply rows_after_same|].
  rewrite !execute_then in H. apply mutation_event_nodes in H. cbn in H. intros i row. rewrite H.
  intros [_ Hr]%lookup_delete_Some. by constructor.
Qed.

Lemma insert_edge_nodes run edge actor reason now db r db' :
  insert_workflow_edge run edge actor reason now db = Some (r, db') →
  workflow_run_nodes db' = workflow_run_nodes db.
Proof.
  unfold insert_workflow_edge, bind at 1, lift at 1.
  destruct (json_get_str edge "edge_id") as [eid|] eqn:Ej; cbn [ok_or]; [|by intros [= _ <-]].
  intros [[-> _]|(u & _ & H)]%query_inv_bind; [done|].
  apply query_inv_bind in H as [[-> _]|(ex & _ & H)]; [done|]. destruct ex; [by injection H as _ <-|].
  destruct (edge_row_of eid edge) as [row|e] eqn:Er.
  - unfold bind at 1 in H. rewrite (insert_edge_runs _ _ _ _ _ Ej Er) in H. by apply mutation_event_nodes in H.
  - unfold insert_workflow_run_edge_locked, insert_workflow_run_edge_with_mode, bind, lift in H.
    rewrite Ej in H. cbn [ok_or] in H. rewrite Er in H. by injection H as _ <-.
Qed.

Lemma remove_edge_nodes run eid actor reason now db r db' :
  remove_workflow_edge run eid actor reason now db = Some (r, db') →
  workflow_run_nodes db' = workflow_run_nodes db.
Proof.
  unfold remove_workflow_edge. intros [[-> _]|(u & _ & H)]%query_inv_bind; [done|].
  rewrite execute_then in H. by apply mutation_event_nodes in H.
Qed.

Lemma rewire_edge_nodes run eid x y actor reason now db r db' :
  rewire_workflow_edge run eid x y actor reason now db = Some (r, db') →
  workflow_run_nodes db' = workflow_run_nodes db.
Proof.
  unfold rewire_workflow_edge. intros [[-> _]|(u & _ & H)]%query_inv_bind; [done|].
  apply query_inv_bind in H as [[-> _]|(row & _ & H)]; [done|].
  rewrite execute_then in H. by apply mutation_event_nodes in H.
Qed.

Lemma update_node_rows run actor reason now p nid row db r db' :
  is_Some (workflow_runs db !! run) → mutation_type p = "update_node" → target_node_id p = Some nid →
  workflow_run_nodes db !! (run, nid) = Some row → node_names nid row →
  update_workflow_node_status run nid (get_str_or (payload p) "status" "pending") actor reason now db
    = Some (r, db') → rows_after run p db db'.
Proof.
  intros Hrun Hk Ht Hr Hn H.
  destruct (decide (get_str_or (payload p) "status" "pending" ∈ valid_statuses)) as [Hs|Hs].
  - destruct (update_status_runs run nid _ actor reason now db row Hrun Hs Hr Hn) as (text & ev & E & _ & Hj).
    rewrite E in H. injection H as _ <-. intros i row'. cbn.
    rewrite lookup_insert_Some. intros [[[= <-] <-]|[_ Hr']]; [|by constructor].
    destruct Hn as (v & m & Hv & Hm & _). apply (ra_status _ _ _ row text v m); [done..|by apply (Hj v m)].
  - unfold update_workflow_node_status in H. rewrite bool_decide_false in H by done. injection H as _ <-.
    by apply rows_after_same.
Qed.

Lemma persist_rows run actor now p (m m' : DAGManager (V := V)) r db res db' :
  is_Some (workflow_runs db !! run) → mirrors run db (state m) → stored_ok run db →
  apply_mutation m p = Some (r, m') → applied r = true →
  persist_proposal run actor now p db = Some (res, db') → rows_after run p db db'.
Proof.
  intros Hrun Hm Hs E Ha.
  apply apply_mutation_inv in E as [(_ & Hf & _)|(f & st' & Hf & Hst & _ & _ & _ & _)]; [congruence|].
  unfold apply_fn in Hf. unfold persist_proposal.
  by_kind Hf; [..|done]; injection Hf as <-; rewrite ?Ek; try injection Hst as Hst; intros H.
  - unfold apply_add_node in Hst. destruct (get_str (payload p) "node_id") as [nid|] eqn:Ep; [|done].
    by eapply insert_node_rows.
  - by eapply remove_node_rows.
  - by eapply rows_after_same, insert_edge_nodes.
  - by eapply rows_after_same, remove_edge_nodes.
  - by eapply rows_after_same, rewire_edge_nodes.
  - apply update_node_inv in Hst as (nid & Et & Hin & _). apply (mi_nodes _ _ _ Hm) in Hin as [row Hr].
    rewrite Et in H. cbn [from_option id] in H. eapply update_node_rows; [..|exact H]; try done.
    by apply (so_nodes _ _ Hs).
Qed.

(** ** The batch *)

(** The stored run and the manager the next proposal is checked with. *)
Record in_step (run : string) db (m : DAGManager (V := V)) : Prop := {
  is_run : is_Some (workflow_runs db !! run);
  is_mirror : mirrors run db (state m);
  is_stored : stored_ok run db;
  is_wf : dag_wf (state m);
}.

(** What one proposal does: the manager decides, the outcome says whether the
    rows follow, and in either case they mirror the manager. *)
Record proposal_done run p (m m' : DAGManager (V := V)) (o : mutation_outcome) db db' : Prop := {
  pd_applied : ∃ r, apply_mutation m p = Some (r, m') ∧ mo_applied o = applied r && storable p;
  pd_id : mo_proposal_id o = proposal_id p;
  pd_step : in_step run db' m';
  pd_rows : rows_after run p db db';
  pd_elsewhere : elsewhere run db db';
}.

Lemma in_step_events run db m ev :
  in_step run db m → in_step run (db <| workflow_run_events := ev |>) m.
Proof. intros [? [] [] ?]. split; [done|by split|by split|done]. Qed.

Lemma rows_after_events run p db db' ev :
  rows_after run p db db' → rows_after run p db (db' <| workflow_run_events := ev |>).
Proof. done. Qed.

Lemma apply_proposal_ok run actor n1 n2 m p db :
  in_step run db m →
  ∃ o m' db', apply_proposal run actor n1 n2 m p db = Some (Ok (o, m'), db')
    ∧ proposal_done run p m m' o db db'.
Proof.
  intros [Hrun Hm Hs Hwf]. unfold apply_proposal, bind at 1, unwrap at 1.
  destruct (apply_mutation_total m p) as [[r m'] E]. rewrite E. unfold ret at 1. cbv iota beta.
  assert (Hwf' : dag_wf (state m')) by by eapply apply_mutation_wf.
  destruct (applied r) eqn:Ha; cbn [negb].
  2: { eexists _, m', db. split; [reflexivity|]. assert (state m' = state m) as Est.
       { apply apply_mutation_inv in E as [[-> _]|(f & st' & _ & _ & _ & _ & _ & ->)]; [done|discriminate Ha]. }
       split; [exists r; by rewrite Ha|done| |by apply rows_after_same|done]. by split; rewrite ?Est. }
  destruct (persist_stores run actor n1 p m m' r db Hrun Hm Hs Hwf E Ha)
    as (res & db1 & Ep & Hres & Hm1 & Hs1 & Hel).
  assert (Hrows : rows_after run p db db1) by by eapply persist_rows.
  assert (Hst : in_step run db1 m') by (split; [by rewrite (el_runs _ _ _ Hel)|done..]).
  unfold bind at 1, attempt_store. rewrite Ep. destruct res as [[]|e].
  - match goal with |- context [mutation_event ?a ?b ?c ?d ?e ?f] =>
      destruct (mutation_event_ok a b c d e f db1) as (ev & Eev) end.
    unfold bind at 1. rewrite Eev. eexists _, m', _. split; [reflexivity|].
    split; [exists r; by rewrite Ha, (proj1 Hres)|done|by apply in_step_events|done|].
    etrans; [exact Hel|]. by split.
  - eexists _, m', db1. split; [reflexivity|]. split; [|done|done|done|done].
    exists r. rewrite Ha. split; [done|]. cbn. destruct (storable p); [|done].
    destruct Hres as [_ Hres]. discriminate (Hres eq_refl).
Qed.

(** A proposal that is applied and stored. *)
Lemma apply_proposal_stored run actor n1 n2 m m' p r db db1 :
  apply_mutation m p = Some (r, m') → applied r = true →
  persist_proposal run actor n1 p db = Some (Ok tt, db1) →
  ∃ ev, apply_proposal run actor n1 n2 m p db
    = Some (Ok (mkOutcome (proposal_id p) true (Some (new_dag_version r)) [], m'),
            db1 <| workflow_run_events := ev |>).
Proof.
  intros Ea Eap Ep. unfold apply_proposal, bind at 1, unwrap at 1. rewrite Ea. unfold ret at 1. cbv iota beta.
  rewrite Eap. cbn [negb]. unfold bind at 1, attempt_store. rewrite Ep.
  match goal with |- context [mutation_event ?a ?b ?c ?d ?e ?f] =>
    destruct (mutation_event_ok a b c d e f db1) as (ev & Eev) end.
  exists ev. unfold bind at 1. by rewrite Eev.
Qed.

(** What the outcomes of a batch say, by the manager alone. *)
Fixpoint verdicts (m : DAGManager (V := V)) (ps : list DAGMutationProposal) : list (string * bool) :=
  match ps with
  | [] => []
  | p :: ps =>
    match apply_mutation m p with
    | Some (r, m') => (proposal_id p, applied r && storable p) :: verdicts m' ps
    | None => []
    end
  end.

(** The rows at the end of a batch, proposal by proposal. *)
Inductive rows_through run : list (DAGMutationProposal (V := V)) → database → database → Prop :=
  | rt_nil db db' : workflow_run_nodes db' = workflow_run_nodes db → rows_through run [] db db'
  | rt_cons p ps db db1 db' : rows_after run p db db1 → rows_through run ps db1 db' →
      rows_through run (p :: ps) db db'.

Record batch_done run ps (m m' : DAGManager (V := V)) (os : list mutation_outcome) db db' : Prop := {
  bd_manager : apply_loads m ps = Some m';
  bd_verdicts : (λ o, (mo_proposal_id o, mo_applied o)) <$> os = verdicts m ps;
  bd_step : in_step run db' m';
  bd_rows : rows_through run ps db db';
  bd_elsewhere : elsewhere run db db';
}.

Lemma apply_proposals_ok run actor clock i m ps db :
  in_step run db m →
  ∃ os m' db', apply_proposals run actor clock i m ps db = Some (Ok os, db')
    ∧ batch_done run ps m m' os db db'.
Proof.
  revert i m db. induction ps as [|p ps IH]; intros i m db Hst.
  { exists [], m, db. split; [done|]. by split; [..|constructor|]. }
  destruct (apply_proposal_ok run actor (clock i) (clock (S i)) m p db Hst)
    as (o & m1 & db1 & E & [(r & Ea & Eo) Eid Hst1 Hr1 Hel1]).
  destruct (IH (S (S i)) m1 db1 Hst1) as (os & m' & db' & E' & [Em Ev Hst' Hr' Hel']).
  exists (o :: os), m', db'. cbn [apply_proposals]. unfold bind at 1. rewrite E. cbn [snd fst].
  unfold bind. rewrite E'. split; [done|]. split.
  - cbn. by rewrite Ea.
  - cbn. by rewrite Ea, Ev, Eid, Eo.
  - done.
  - by eapply rt_cons.
  - by etrans.
Qed.

Lemma batch_ok run actor clock ps db :
  is_Some (workflow_runs db !! run) → stored_ok run db → graph_ok run db →
  ∃ m os m' db', load_manager run (clock 0%nat) db = Some m
    ∧ in_step run db m ∧ statuses_agree run db (state m) ∧ manager_dag_id m = run
    ∧ apply_dag_mutations_batch run ps actor clock db = Some (Ok os, db')
    ∧ batch_done run ps m m' os db db'.
Proof.
  intros Hrun Hs Hg. destruct (load_mirrors run (clock 0%nat) db Hs Hg) as (m & El & Hid & Hwf & Hm & Hag).
  assert (Hst : in_step run db m) by by split.
  destruct (apply_proposals_ok run actor clock 1 m ps db Hst) as (os & m' & db' & E & Hd).
  exists m, os, m', db'. split_and!; try done. unfold apply_dag_mutations_batch.
  rewrite (query_then _ tt) by by apply run_exists. rewrite (query_then _ (Some m)) by by rewrite El. exact E.
Qed.

(** ** Started nodes *)

Definition started (status : string) : Prop := status = "running" ∨ status = "completed".

(** No proposal of the batch updates the node. *)
Definition leaves_alone (nid : string) (p : DAGMutationProposal (V := V)) : Prop :=
  mutation_type p = "update_node" → target_node_id p ≠ Some nid.

Lemma find_node_elem (nodes : list (DAGNode (V := V))) n :
  NoDup (ids_of nodes) → n ∈ nodes → find_node nodes (node_id n) = Some n.
Proof.
  unfold ids_of, find_node. induction nodes as [|x nodes IH]; [by intros _ ?%not_elem_of_nil|].
  cbn. intros [Hx Hnd]%NoDup_cons [-> |Hin]%elem_of_cons; [by rewrite bool_decide_true|].
  rewrite bool_decide_false; [by apply IH|]. intros E. apply Hx. rewrite E. by apply list_elem_of_fmap_2.
Qed.

Lemma started_kept (m m' : DAGManager (V := V)) p r n :
  apply_mutation m p = Some (r, m') → dag_wf (state m) → n ∈ dag_nodes (state m) →
  started (node_status n) → leaves_alone (node_id n) p → n ∈ dag_nodes (state m').
Proof.
  intros [(-> & _)|(f & st' & Hf & Hst & Happ & _ & -> & _)]%apply_mutation_inv Hwf Hin Hs Hl; [done|]. cbn.
  unfold apply_fn in Hf.
  by_kind Hf; [..|done]; injection Hf as <-; try injection Hst as Hst.
  - unfold apply_add_node in Hst. destruct (get_str (payload p) "node_id"); [|done]. cbn [ok_or] in Hst.
    case_match; [done|]. injection Hst as <-. cbn. apply elem_of_app. by left.
  - apply remove_node_inv in Hst as (nid & Et & _ & _ & -> & _). apply list_elem_of_filter. split; [|done].
    intros <-. unfold requires_approval in Happ. case_match; [done|].
    rewrite Ek, Et in Happ. cbn [mbind option_bind] in Happ.
    rewrite (find_node_elem _ n) in Happ by (try apply Hwf; done).
    destruct Hs as [E|E]; rewrite E in Happ; done.
  - by apply add_edge_inv in Hst as (e & _ & _ & _ & _ & -> & _).
  - unfold apply_remove_edge in Hst. repeat (case_match; try done). by injection Hst as <-.
  - by apply rewire_edge_inv in Hst as (eid & e & e' & _ & _ & _ & _ & _ & _ & -> & _).
  - unfold apply_update_node in Hst. specialize (Hl Ek).
    destruct (target_node_id p) as [nid|]; [|done]. cbn [ok_or] in Hst.
    destruct (find_node _ nid); [|done]. injection Hst as <-. cbn. apply list_elem_of_fmap. exists n.
    rewrite bool_decide_false by congruence. done.
Qed.

Lemma proposal_keeps_started run p (m m' : DAGManager (V := V)) o db db' n row :
  in_step run db m → proposal_done run p m m' o db db' →
  n ∈ dag_nodes (state m) → started (node_status n) → leaves_alone (node_id n) p →
  workflow_run_nodes db !! (run, node_id n) = Some row →
  n ∈ dag_nodes (state m') ∧ workflow_run_nodes db' !! (run, node_id n) = Some row.
Proof.
  intros [_ _ _ Hwf] [(r & E & _) _ [_ Hm' _ _] Hrows _] Hin Hs Hl Hr.
  assert (Hin' : n ∈ dag_nodes (state m')) by by eapply started_kept. split; [done|].
  assert (Hid : node_id n ∈ ids_of (dag_nodes (state m'))) by by apply list_elem_of_fmap_2.
  apply (mi_nodes _ _ _ Hm') in Hid as [row' Hr']. rewrite Hr'.
  destruct (Hrows _ _ Hr') as [row1 E1|_ _ E1|row1 ??? Ek Et]; [congruence..|].
  by destruct (Hl Ek).
Qed.

Lemma proposals_keep_started run actor clock i ps m db n row :
  in_step run db m → n ∈ dag_nodes (state m) → started (node_status n) →
  Forall (leaves_alone (node_id n)) ps → workflow_run_nodes db !! (run, node_id n) = Some row →
  ∃ os db', apply_proposals run actor clock i m ps db = Some (Ok os, db')
    ∧ workflow_run_nodes db' !! (run, node_id n) = Some row.
Proof.
  revert i m db. induction ps as [|p ps IH]; intros i m db Hst Hin Hs Hl Hr; [by exists [], db|].
  apply Forall_cons in Hl as [Hp Hl].
  destruct (apply_proposal_ok run actor (clock i) (clock (S i)) m p db Hst) as (o & m1 & db1 & E & Hd).
  destruct (proposal_keeps_started run p m m1 o db db1 n row Hst Hd Hin Hs Hp Hr) as [Hin1 Hr1].
  destruct (IH (S (S i)) m1 db1 (pd_step _ _ _ _ _ _ _ Hd) Hin1 Hs Hl Hr1) as (os & db' & E' & Hr').
  exists (o :: os), db'. split; [|done]. cbn [apply_proposals]. unfold bind at 1. rewrite E. cbn [snd fst].
  unfold bind. by rewrite E'.
Qed.

(** An update that says nothing of the status is applied and keeps it. *)
Lemma update_keeps_status (m : DAGManager (V := V)) p n :
  dag_wf (state m) → n ∈ dag_nodes (state m) →
  mutation_type p = "update_node" → target_node_id p = Some (node_id n) →
  proposal_dag_id p = manager_dag_id m → proposal_requires_approval p = false →
  get_str (payload p) "status" = None →
  ∃ r m' n', apply_mutation m p = Some (r, m') ∧ applied r = true
    ∧ n' ∈ dag_nodes (state m') ∧ node_id n' = node_id n ∧ node_status n' = node_status n.
Proof.
  intros Hwf Hn Hk Ht Hid Happ Hst. pose proof (find_node_elem _ n (wf_nodes _ Hwf) Hn) as Hf.
  unfold apply_mutation. rewrite bool_decide_true by done. cbn [negb].
  assert (requires_approval p (state m) = false) as ->.
  { unfold requires_approval. by rewrite Happ, Hk. }
  assert (apply_fn (V := V) (mutation_type p) = Some (λ st p, Some (apply_update_node st p))) as ->
    by by rewrite Hk.
  unfold apply_update_node. rewrite Ht. cbn [ok_or]. rewrite Hf. cbn [ok_or]. eexists _, _, _.
  split; [reflexivity|]. split; [reflexivity|]. cbn. split.
  - apply list_elem_of_fmap. exists n. rewrite bool_decide_true by done. split; [reflexivity|done].
  - cbn. unfold get_str_or. by rewrite Hst.
Qed.

(** ** Runs without recursion *)

(** A proposal that writes no status but those of nodes at rest. *)
Definition benign (p : DAGMutationProposal (V := V)) : Prop :=
  get_str_or (payload p) "status" "pending" ∈ at_rest_statuses.

Definition plain_row (row : work_row) : Prop :=
  wn_status row ∈ at_rest_statuses ∧ plain_json (V := V) (wn_node_json row) ∧ 0 <= wn_attempt_count row.

Lemma added_row_plain p nid :
  benign p → get_str (payload p) "node_id" = Some nid → plain_row (node_row_of (added_node p)).
Proof.
  unfold get_str, added_node. destruct (payload p !! "node_id") as [v|] eqn:E; [|done]. intros Hb _.
  set (object := put _ _ _ _).
  assert (Ho : ∀ key, key ∉ ["profile_id"; "node_id"; "task_type"; "status"] → object !! key = None).
  { intros key Hk. unfold object. rewrite put_other by set_solver. cbn.
    rewrite !lookup_insert_ne by set_solver. apply lookup_empty. }
  assert (Hs : object !! "status" = Some (json_string (get_str_or (payload p) "status" "pending"))).
  { unfold object. by rewrite put_other. }
  assert (Hget : ∀ key, json_get (json_object object) key = object !! key).
  { intros key. unfold json_get. by rewrite object_fields. }
  unfold plain_row, node_row_of. cbn [wn_status wn_node_json wn_attempt_count]. unfold json_get_str.
  rewrite !Hget, Hs, !Ho by set_solver. cbn [mbind option_bind]. rewrite str_value. split_and!; [done| |done].
  exists (json_object object), object. rewrite parse_object, object_fields. split_and!; [done|done|..]; apply Ho; set_solver.
Qed.

Lemma row_after_plain p nid old row :
  benign p → row_after p nid old row → (∀ r, old = Some r → plain_row r) → plain_row row.
Proof.
  intros Hb [r ->|Hk Hp _|r text v m Hk Ht -> Hv Hm Htext] Hold; [by apply Hold|by eapply added_row_plain|].
  destruct (Hold r eq_refl) as (_ & (v' & m' & Hv' & Hm' & H1 & H2) & Ha). simplify_eq.
  split_and!; [done| |done]. eexists _, _. cbn. rewrite Htext, object_fields.
  split_and!; [done|done|by rewrite lookup_insert_ne..].
Qed.

Lemma rows_through_plain run ps db db' :
  Forall benign ps → rows_through run ps db db' →
  (∀ nid row, workflow_run_nodes db !! (run, nid) = Some row → plain_row row) →
  ∀ nid row, workflow_run_nodes db' !! (run, nid) = Some row → plain_row row.
Proof.
  intros Hb Hr. induction Hr as [db db' E|p ps db db1 db' H1 _ IH]; intros Hold nid row; [rewrite E; apply Hold|].
  apply Forall_cons in Hb as [Hp Hb]. apply IH; [done|]. intros i r Hi.
  eapply row_after_plain; [done|by apply H1|apply Hold].
Qed.

(** A batch of benign proposals leaves a run that still ends. *)
Lemma batch_plain run actor clock ps db :
  plain_run run db → stored_ok run db → graph_ok run db → Forall benign ps →
  ∃ os db', apply_dag_mutations_batch run ps actor clock db = Some (Ok os, db')
    ∧ plain_run run db' ∧ workflow_runs db' = workflow_runs db.
Proof.
  intros Hpl Hs Hg Hb. destruct (pl_run _ _ Hpl) as (w & Hw & Hbd & Hpause).
  destruct (batch_ok run actor clock ps db (ex_intro _ w Hw) Hs Hg)
    as (m & os & m' & db' & _ & _ & _ & _ & E & [_ _ [_ Hm' _ Hwf'] Hr Hel]).
  exists os, db'. split; [done|]. split; [|apply Hel].
  pose proof (rows_through_plain _ _ _ _ Hb Hr) as Hp.
  assert (Hrow : ∀ nid row, workflow_run_nodes db' !! (run, nid) = Some row → plain_row row).
  { apply Hp. intros nid row Hrow. split_and!; by eapply Hpl. }
  destruct (dag_rank m' Hwf') as [rank Hrank]. split; try (intros; by eapply Hrow).
  - exists w. by rewrite (el_runs _ _ _ Hel).
  - intros nid. rewrite (el_index _ _ _ Hel). apply Hpl.
  - exists rank. intros eid e He. apply Hrank, (mirrors_edge run db' _ _ _ Hm'). by exists eid, e.
Qed.
End mirror.
