(* ===== verification/RunGraphTheorems.v ===== *)
(** * Correctness of the mutations of a stored graph *)

From S2P Require Import Prelude Text Json Graph Float64 RecursiveExecution Persistence PersistenceProps PersistenceTheorems TreeStore TreeStoreProps NodeExecution WorkflowRuns WorkflowProps WorkflowProgress WorkflowTheorems DagManager DagCycle DagProps DagQueries RunGraph RunGraphProps JsonCodec.
From stdpp Require Import relations.

Local Open Scope Z_scope.

Import JsonDemo JsonCodec RunDemo.

(** ** A run to mutate: [build] is done, [test] waits *)

Module GraphDemo.
Definition named (id task_type status : string) : work_row :=
  mkWorkRow task_type status
    (json_print (json_object (list_to_map [("node_id", JStr id); ("task_type", JStr task_type);
                                           ("status", JStr status)])))
    None None None None 0 None None.
Definition linked (eid x y : string) : edge_row :=
  mkEdgeRow x y "dependency"
    (json_print (json_object (list_to_map [("edge_id", JStr eid); ("from_node_id", JStr x);
                                           ("to_node_id", JStr y)]))).
Definition graph : database :=
  mkDatabase ∅ ∅ runs
    (list_to_map [(("r", "build"), named "build" "build" "completed");
                  (("r", "test"), named "test" "agent_step" "pending")])
    (list_to_map [(("r", "e1"), linked "e1" "build" "test")]) [] [].

Definition proposal (pid kind : string) (node edge : option string) (p : list (string * json))
    : DAGMutationProposal (V := json) :=
  mkDAGMutationProposal pid "r" kind node edge (list_to_map p) "demo" false "pending".
Definition batch : list (DAGMutationProposal (V := json)) := [
  proposal "p1" "add_node" None None [("node_id", JStr "lint")];
  proposal "p2" "add_edge" None None
    [("edge_id", JStr "e2"); ("from_node", JStr "test"); ("to_node", JStr "lint")];
  proposal "p3" "add_edge" None None
    [("edge_id", JStr "e3"); ("from_node", JStr "lint"); ("to_node", JStr "build")];
  proposal "p4" "remove_node" (Some "build") None [];
  proposal "p5" "update_node" (Some "test") None [("status", JStr "unheard-of")]].
Definition update : DAGMutationProposal (V := json) :=
  proposal "p6" "update_node" (Some "build") None [("tier", JStr "large")].
End GraphDemo.
Import GraphDemo.

Lemma str_of_string (s : string) : as_str (json_string (V := json) s) = Some s.
Proof. done. Qed.

Lemma graph_rows :
  map_Forall (λ k row, wn_node_json row = json_print (json_object (list_to_map
      [("node_id", JStr k.2); ("task_type", JStr (wn_task_type row)); ("status", JStr (wn_status row))]))
    ∧ wn_status row ∈ at_rest_statuses ∧ wn_attempt_count row = 0) (workflow_run_nodes graph).
Proof. apply (bool_decide_unpack _). vm_compute. exact I. Qed.

Lemma graph_edge eid e :
  workflow_run_edges graph !! ("r", eid) = Some e → eid = "e1" ∧ e = linked "e1" "build" "test".
Proof.
  intros He. apply elem_of_list_to_map_2 in He. by apply list_elem_of_singleton in He as [= -> ->].
Qed.

Lemma graph_stored : stored_ok (V := json) "r" graph.
Proof.
  split.
  - intros id row Hr. destruct (graph_rows _ _ Hr) as [E _]. eexists _, _. rewrite E, parse_print.
    split; [done|]. split; [apply object_of_fields|]. reflexivity.
  - intros eid e [-> ->]%graph_edge. eexists _, _. cbn [we_edge_json linked]. rewrite parse_print.
    split; [done|]. split; [apply object_of_fields|]. split_and!; reflexivity.
Qed.

Lemma graph_acyclic : graph_ok "r" graph.
Proof.
  assert (Hone : ∀ x y, run_edge "r" graph x y → x = "build" ∧ y = "test").
  { intros x y (eid & e & [-> ->]%graph_edge & <- & <-). done. }
  split.
  - intros x y [-> ->]%Hone. split; eexists; vm_compute; reflexivity.
  - intros [x Hx]. assert (∀ a b, tc (run_edge "r" graph) a b → a = "build" ∧ b = "test") as Hc.
    { induction 1 as [a b H|a b c H _ [-> _]]; [by apply Hone|]. apply Hone in H as [_ [=]]. }
    apply Hc in Hx as [-> [=]].
Qed.

Lemma graph_run : is_Some (workflow_runs graph !! "r").
Proof. eexists. vm_compute. reflexivity. Qed.

(** ** Claims *)

(** C15: The stored graph follows the DAG manager.  Take a run whose rows name what
    their keys name and whose edges have no cycle.  A batch of proposals then
    always returns, with one outcome per proposal; a proposal is reported as
    applied exactly if the manager applies it and the status it writes is a known
    one.  In the end the rows hold exactly the nodes and the edges of the manager,
    so the stored graph still has no cycle and no dangling edge, and neither
    another run nor a tree has changed. *)
Theorem batch_refines {V : Type} `{JV : JsonValue V} `{JT : JsonText V} `{RO : RowOrder}
    run actor clock ps db :
  (∀ m : gmap string V, as_object (json_object m) = Some m) →
  (∀ s, as_str (json_string s) = Some s) →
  (∀ m : gmap string V, json_parse (json_print (json_object m)) = Some (json_object m)) →
  is_Some (workflow_runs db !! run) → stored_ok run db → graph_ok run db →
  ∃ m os m' db', load_manager run (clock 0%nat) db = Some m
    ∧ apply_dag_mutations_batch run ps actor clock db = Some (Ok os, db')
    ∧ apply_loads m ps = Some m'
    ∧ (λ o, (mo_proposal_id o, mo_applied o)) <$> os = verdicts m ps
    ∧ mirrors run db (state m) ∧ mirrors run db' (state m')
    ∧ stored_ok run db' ∧ graph_ok run db' ∧ elsewhere run db db'.
Proof.
  intros Hof Hsv Hpo Hrun Hs Hg.
  destruct (batch_ok Hof Hsv Hpo run actor clock ps db Hrun Hs Hg)
    as (m & os & m' & db' & El & [_ Hm _ _] & _ & _ & E & [Em Ev [_ Hm' Hs' Hwf'] _ Hel]).
  exists m, os, m', db'. split_and!; try done. by eapply mirrors_graph_ok.
Qed.

Lemma batch_refines_witness :
  ∃ m os m' db', load_manager "r" (clock 0) graph = Some m
    ∧ apply_dag_mutations_batch "r" batch "planner" clock graph = Some (Ok os, db')
    ∧ apply_loads m batch = Some m'
    ∧ (λ o, (mo_proposal_id o, mo_applied o)) <$> os = verdicts m batch
    ∧ mirrors "r" graph (state m) ∧ mirrors "r" db' (state m')
    ∧ stored_ok (V := json) "r" db' ∧ graph_ok "r" db' ∧ elsewhere "r" graph db'.
Proof.
  exact (batch_refines "r" "planner" clock batch graph object_of_fields str_of_string
    (λ m, parse_print (json_object m)) graph_run graph_stored graph_acyclic).
Defined.

(** The verdicts of the batch: the edge that closes a cycle and the removal of the
    completed node are refused, the unknown status is not stored. *)
Example batch_outcomes :
  match result_of (apply_dag_mutations_batch "r" batch "planner" clock) graph with
  | Ok os => (λ o, (mo_proposal_id o, mo_applied o)) <$> os
  | Err _ => []
  end = [("p1", true); ("p2", true); ("p3", false); ("p4", false); ("p5", false)].
Proof. vm_compute. reflexivity. Qed.

(** C37: Started work is kept.  A batch with no update of a running or completed
    node leaves the row of that node exactly as it was, whatever else it adds,
    removes or rewires. *)
Theorem started_rows_kept {V : Type} `{JV : JsonValue V} `{JT : JsonText V} `{RO : RowOrder}
    run actor clock ps db nid row :
  (∀ m : gmap string V, as_object (json_object m) = Some m) →
  (∀ s, as_str (json_string s) = Some s) →
  (∀ m : gmap string V, json_parse (json_print (json_object m)) = Some (json_object m)) →
  is_Some (workflow_runs db !! run) → stored_ok run db → graph_ok run db →
  workflow_run_nodes db !! (run, nid) = Some row → started (wn_status row) →
  Forall (leaves_alone nid) ps →
  ∃ os db', apply_dag_mutations_batch run ps actor clock db = Some (Ok os, db')
    ∧ workflow_run_nodes db' !! (run, nid) = Some row.
Proof.
  intros Hof Hsv Hpo Hrun Hs Hg Hr Hst Hl.
  destruct (load_mirrors Hof Hsv run (clock 0%nat) db Hs Hg) as (m & El & _ & Hwf & Hm & Hag).
  assert (Hin : nid ∈ ids_of (dag_nodes (state m))) by (apply (mi_nodes _ _ _ Hm); by rewrite Hr).
  apply list_elem_of_fmap in Hin as (n & -> & Hn).
  destruct (proposals_keep_started Hof Hsv Hpo run actor clock 1 ps m db n row) as (os & db' & E & Hr');
    [by split|done|by rewrite (Hag n row Hn Hr)|done|done|].
  exists os, db'. split; [|done]. unfold apply_dag_mutations_batch.
  rewrite (query_then _ tt) by by apply run_exists. rewrite (query_then _ (Some m)) by by rewrite El. exact E.
Qed.

Lemma started_rows_kept_witness :
  ∃ os db', apply_dag_mutations_batch "r" batch "planner" clock graph = Some (Ok os, db')
    ∧ workflow_run_nodes db' !! ("r", "build") = Some (named "build" "build" "completed").
Proof.
  apply (started_rows_kept "r" "planner" clock batch graph "build" (named "build" "build" "completed")
    object_of_fields str_of_string (λ m, parse_print (json_object m)) graph_run graph_stored graph_acyclic
    eq_refl).
  - by right.
  - repeat constructor; intros [=]; discriminate.
Defined.

(** C27: Mutating a run keeps it ending.  Take a run without recursion, and a batch
    that writes no status but those of nodes at rest.  Whatever the manager accepts
    of it, the mutated run still ends: after at most one tick per attempt of the
    nodes it now has, and one more, every node has ended and the run is failed if
    some node failed or was blocked and completed otherwise. *)
Theorem mutated_run_ends {V : Type} `{JV : JsonValue V} `{JT : JsonText V} `{JN : JsonNumbers V}
    `{SD : StoreDecoders V} `{Deps : RecursiveDeps} `{TE : TreeEncoder} `{RO : RowOrder}
    contract env run actor mutated_at ps lease_clock record_clock retries ty mode execute inject db :
  (∀ m : gmap string V, as_object (json_object m) = Some m) →
  (∀ s, as_str (json_string s) = Some s) →
  (∀ m : gmap string V, json_parse (json_print (json_object m)) = Some (json_object m)) →
  plain_run run db → live_run run db → stored_ok run db → graph_ok run db → Forall benign ps →
  0 <= retries → (∀ i v, o_status (execute i v) ∈ ["completed"; "failed"]) →
  ∃ os db1 db' row, apply_dag_mutations_batch run ps actor mutated_at db = Some (Ok os, db1)
    ∧ run_ticks (S (size (filter (λ kr, kr.1.1 = run) (workflow_run_nodes db1)) * Z.to_nat (retries + 1)))
        run (λ i, tick contract env run actor (lease_clock i) (record_clock i)
          retries ty mode (execute i) inject None None) db1 = Some db'
    ∧ workflow_runs db' !! run = Some row ∧ all_ended run db'
    ∧ ((some_failed run db' ∧ wr_status row = "failed")
       ∨ (¬ some_failed run db' ∧ wr_status row = "completed")).
Proof.
  intros Hof Hsv Hpo Hpl Hl Hs Hg Hb Hret Hex.
  destruct (batch_plain Hof Hsv Hpo run actor mutated_at ps db Hpl Hs Hg Hb) as (os & db1 & E & Hpl1 & Ew).
  assert (Hl1 : live_run run db1) by (unfold live_run; by rewrite Ew).
  destruct (run_ticks_end run retries (λ i, tick contract env run actor (lease_clock i) (record_clock i)
    retries ty mode (execute i) inject None None)
    (S (size (filter (λ kr, kr.1.1 = run) (workflow_run_nodes db1)) * Z.to_nat (retries + 1))) db1)
    as (db' & Et & row & Hr & Ha & Hv).
  - intros i db2 Hpl2 Hl2. by apply tick_plain.
  - done.
  - done.
  - pose proof (work_bound _ _ _ Hpl1 Hret). lia.
  - exists os, db1, db', row. by split_and!.
Qed.

Lemma graph_plain : plain_run "r" graph.
Proof.
  split.
  - eexists. split; [vm_compute; reflexivity|]. split; [eexists; vm_compute; reflexivity|discriminate].
  - intros id row Hr. by destruct (graph_rows _ _ Hr) as (_ & Es & _).
  - intros id row Hr. destruct (graph_rows _ _ Hr) as [E _]. eexists _, _. rewrite E, parse_print.
    split; [done|]. split; [apply object_of_fields|]. split; reflexivity.
  - intros id row Hr. destruct (graph_rows _ _ Hr) as (_ & _ & ->). lia.
  - intros id. apply lookup_empty.
  - exists (λ id, if bool_decide (id = "test") then 1%nat else 0%nat). intros eid e [_ ->]%graph_edge.
    vm_compute. lia.
Qed.

Lemma mutated_run_ends_witness :
  ∃ os db1 db' row,
    apply_dag_mutations_batch "r" (take 4 batch) "worker" clock graph = Some (Ok os, db1)
    ∧ run_ticks (S (size (filter (λ kr, kr.1.1 = "r") (workflow_run_nodes db1)) * 2)) "r"
        (λ i, tick contract_of env "r" "worker" clock clock 1 "cli" ModeUnavailable
          (λ _, output "failed" None) no_injection None None) db1 = Some db'
    ∧ workflow_runs db' !! "r" = Some row ∧ all_ended "r" db'
    ∧ ((some_failed "r" db' ∧ wr_status row = "failed")
       ∨ (¬ some_failed "r" db' ∧ wr_status row = "completed")).
Proof.
  apply (mutated_run_ends contract_of env "r" "worker" clock (take 4 batch) (λ _, clock) (λ _, clock) 1
    "cli" ModeUnavailable (λ _ _, output "failed" None) no_injection graph object_of_fields str_of_string
    (λ m, parse_print (json_object m)) graph_plain).
  - eexists. split; vm_compute; reflexivity.
  - exact graph_stored.
  - exact graph_acyclic.
  - unfold batch, benign. cbn [take]. repeat constructor; vm_compute; left.
  - lia.
  - intros _ _. right. by left.
Defined.

(** ** Where the code departs from what it says *)

(** C39: An update that says nothing of the status stores one.  An [update_node]
    proposal without a [status] is reported as applied; the manager keeps the
    status of the node, but its row is set to [pending], even when the node had
    completed. *)
Theorem update_without_status_resets {V : Type} `{JV : JsonValue V} `{JT : JsonText V} `{RO : RowOrder}
    run actor clock p nid row db :
  (∀ m : gmap string V, as_object (json_object m) = Some m) →
  (∀ s, as_str (json_string s) = Some s) →
  (∀ m : gmap string V, json_parse (json_print (json_object m)) = Some (json_object m)) →
  is_Some (workflow_runs db !! run) → stored_ok run db → graph_ok run db →
  workflow_run_nodes db !! (run, nid) = Some row →
  mutation_type p = "update_node" → target_node_id p = Some nid → proposal_dag_id p = run →
  proposal_requires_approval p = false → get_str (payload p) "status" = None →
  ∃ m o m' n db' row', load_manager run (clock 0%nat) db = Some m
    ∧ apply_dag_mutations_batch run [p] actor clock db = Some (Ok [o], db') ∧ mo_applied o = true
    ∧ apply_loads m [p] = Some m'
    ∧ n ∈ dag_nodes (state m') ∧ node_id n = nid ∧ node_status n = wn_status row
    ∧ workflow_run_nodes db' !! (run, nid) = Some row' ∧ wn_status row' = "pending".
Proof.
  intros Hof Hsv Hpo Hrun Hs Hg Hr Hk Ht Hid Happ Hst.
  destruct (load_mirrors Hof Hsv run (clock 0%nat) db Hs Hg) as (m & El & Em & Hwf & Hm & Hag).
  assert (Hin : nid ∈ ids_of (dag_nodes (state m))) by (apply (mi_nodes _ _ _ Hm); by rewrite Hr).
  apply list_elem_of_fmap in Hin as (n & -> & Hn).
  destruct (update_keeps_status m p n) as (r & m' & n' & Ea & Eap & Hn' & Ei & Es); [done..|congruence|done|done|].
  destruct (update_status_runs Hof Hpo run (node_id n) "pending" actor (proposal_reason p) (clock 1%nat) db row
    Hrun ltac:(by left) Hr (so_nodes _ _ Hs _ _ Hr)) as (text & ev & Eu & _ & _).
  assert (Ep : persist_proposal run actor (clock 1%nat) p db = Some (Ok tt,
    db <| workflow_run_nodes := <[(run, node_id n) := row <| wn_status := "pending" |>
                                    <| wn_node_json := text |>]> (workflow_run_nodes db) |>
       <| workflow_run_events := ev |>)).
  { unfold persist_proposal, get_str_or. rewrite Hk, Ht, Hst. exact Eu. }
  destruct (apply_proposal_stored run actor (clock 1%nat) (clock 2%nat) m m' p r db _ Ea Eap Ep) as (ev' & Eb).
  exists m. eexists _, m', n', _, _. split; [done|]. split.
  { unfold apply_dag_mutations_batch. rewrite (query_then _ tt) by by apply run_exists.
    rewrite (query_then _ (Some m)) by by rewrite El.
    transitivity (apply_proposals run actor clock 1 m [p] db); [reflexivity|].
    cbn [apply_proposals]. unfold bind at 1. rewrite Eb. reflexivity. }
  split; [done|]. split; [cbn; by rewrite Ea|]. split_and!; try done.
  - rewrite Es. by apply Hag.
  - cbn. by rewrite lookup_insert_eq.
  - done.
Qed.

Lemma update_without_status_resets_witness :
  ∃ m o m' n db' row', load_manager "r" (clock 0) graph = Some m
    ∧ apply_dag_mutations_batch "r" [update] "planner" clock graph = Some (Ok [o], db') ∧ mo_applied o = true
    ∧ apply_loads m [update] = Some m'
    ∧ n ∈ dag_nodes (state m') ∧ node_id n = "build" ∧ node_status n = "completed"
    ∧ workflow_run_nodes db' !! ("r", "build") = Some row' ∧ wn_status row' = "pending".
Proof.
  exact (update_without_status_resets "r" "planner" clock update "build" (named "build" "build" "completed")
    graph object_of_fields str_of_string (λ m, parse_print (json_object m)) graph_run graph_stored graph_acyclic
    eq_refl eq_refl eq_refl eq_refl eq_refl eq_refl).
Defined.

(** The completed node is then leased and run a second time. *)
Example completed_node_leased_again :
  match result_of (lease true None)
          (after (apply_dag_mutations_batch "r" [update] "planner" clock) graph) with
  | Ok (Leased id _ _ _ _) => id
  | _ => EmptyString
  end = "build".
Proof. vm_compute. reflexivity. Qed.
