(* ===== verification/SchedulerShape.v ===== *)
(** * The scheduler keeps graphs sound

    Nothing the scheduler does adds or removes a node or an edge of a run, and the
    JSON it writes to a node still names the node: so every stored graph stays
    sound, and a batch of mutations can load it at any time. *)

From S2P Require Import Prelude Text Json Graph Float64 RecursiveExecution Persistence PersistenceProps TreeStore TreeStoreProps NodeExecution WorkflowRuns WorkflowFrames WorkflowProps WorkflowSteps DagCycle DagProps RunGraph RunGraphProps.
From stdpp Require Import relations.

Local Open Scope Z_scope.

(** ** Rows that go on naming their nodes *)

Section names.
Context {V : Type} `{JV : JsonValue V} `{JT : JsonText V}.

(** The edges stay, and every node stays with a row that names it if it did. *)
Record names_kept (db db' : database) : Prop := {
  nk_edges : workflow_run_edges db' = workflow_run_edges db;
  nk_rows : ∀ k, option_Forall2 (λ row row', node_names k.2 row → node_names k.2 row')
    (workflow_run_nodes db !! k) (workflow_run_nodes db' !! k);
}.

#[export] Instance names_kept_preorder : PreOrder names_kept.
Proof.
  split; [split; [done|]; intros k; destruct (_ !! k); constructor; auto|].
  intros a b c [E1 N1] [E2 N2]. split; [congruence|]. intros k.
  specialize (N1 k). specialize (N2 k).
  destruct N1; inversion N2; subst; constructor; auto.
Qed.

(** The graph of every run can be loaded, and is sound. *)
Definition graphs_sound (db : database) : Prop :=
  ∀ run, stored_ok run db ∧ graph_ok run db.

Lemma names_graphs db db' : names_kept db db' → graphs_sound db → graphs_sound db'.
Proof.
  intros [Ee Hn] Hs run. destruct (Hs run) as [[Sn Se] [Hends Hac]].
  assert (Hx : ∀ x y, run_edge run db' x y → run_edge run db x y).
  { intros x y (eid & row & He & H). rewrite Ee in He. by exists eid, row. }
  split; split.
  - intros id row Hr. specialize (Hn (run, id)). rewrite Hr in Hn. inversion Hn as [r1 r2 H Eq E2|]; subst.
    by apply H, Sn.
  - intros eid row He. rewrite Ee in He. by apply Se.
  - intros x y He%Hx. apply Hends in He as [[rx Hx'] [ry Hy']].
    pose proof (Hn (run, x)) as N1. pose proof (Hn (run, y)) as N2. rewrite Hx' in N1. rewrite Hy' in N2.
    split; [inversion N1|inversion N2]; eauto.
  - intros Hc. apply Hac. eapply cyclic_mono; [|exact Hc]. exact Hx.
Qed.

Lemma names_same db db' :
  workflow_run_nodes db' = workflow_run_nodes db → workflow_run_edges db' = workflow_run_edges db →
  names_kept db db'.
Proof. intros En Ee. split; [done|]. intros k. rewrite En. destruct (_ !! k); constructor; auto. Qed.

Lemma same_names db db' : same_workflow db db' → names_kept db db'.
Proof. intros [_ En Ee _]. by apply names_same. Qed.

Lemma names_insert db k row row' :
  workflow_run_nodes db !! k = Some row → (node_names k.2 row → node_names k.2 row') →
  names_kept db (db <| workflow_run_nodes := <[k := row']> (workflow_run_nodes db) |>).
Proof.
  intros E H. split; [done|]. intros k'. cbn. destruct (decide (k = k')) as [<-|Hne].
  - rewrite lookup_insert_eq, E. by constructor.
  - rewrite lookup_insert_ne by done. destruct (_ !! k'); constructor; auto.
Qed.

Lemma names_alter db k f :
  (∀ row, node_names k.2 row → node_names k.2 (f row)) →
  names_kept db (db <| workflow_run_nodes := alter f k (workflow_run_nodes db) |>).
Proof.
  intros H. split; [done|]. intros k'. cbn. destruct (decide (k = k')) as [<-|Hne].
  - rewrite lookup_alter_eq. destruct (_ !! k); constructor; auto.
  - rewrite lookup_alter_ne by done. destruct (_ !! k'); constructor; auto.
Qed.

(** Values that name the node. *)
Definition value_names (id : string) (v : V) : Prop :=
  ∃ m, as_object v = Some m ∧ get_str m "node_id" = Some id.

Lemma node_names_value id row v :
  node_names id row → json_parse (wn_node_json row) = Some v → value_names id v.
Proof. intros (v' & m & E & Hm) Ev. rewrite Ev in E. injection E as <-. by exists m. Qed.

Context (object_fields : ∀ m : gmap string V, as_object (json_object m) = Some m).
Context (parse_print : ∀ v : V, json_parse (json_print v) = Some v).

Lemma printed_names id row v :
  wn_node_json row = json_print v → value_names id v → node_names id row.
Proof. intros E (m & Hm). exists v, m. by rewrite E, parse_print. Qed.

Lemma insert_names id m key v :
  key ≠ "node_id" → value_names id (json_object m) → value_names id (json_object (<[key := v]> m)).
Proof.
  intros Hk (m' & E & Hm). rewrite object_fields in E. injection E as <-. exists (<[key := v]> m).
  rewrite object_fields. split; [done|]. unfold get_str. by rewrite lookup_insert_ne.
Qed.

Lemma delete_names id m key :
  key ≠ "node_id" → value_names id (json_object m) → value_names id (json_object (delete key m)).
Proof.
  intros Hk (m' & E & Hm). rewrite object_fields in E. injection E as <-. exists (delete key m).
  rewrite object_fields. split; [done|]. unfold get_str. by rewrite lookup_delete_ne.
Qed.

Lemma object_names id v m : value_names id v → as_object v = Some m → value_names id (json_object m).
Proof. intros (m' & E & H) Em. rewrite Em in E. injection E as <-. exists m. by rewrite object_fields. Qed.

Ltac names := repeat first [done | apply insert_names | apply delete_names | by eapply object_names].

Lemma fail_json_names id v now : value_names id v → value_names id (default v (fail_node_json v now)).
Proof.
  intros Hv. unfold fail_node_json. destruct (as_object v) as [m|] eqn:E; cbn; [|done]. names.
Qed.

Lemma settled_names id status now res usage v :
  value_names id v → value_names id (settled_node_json status now res usage v).
Proof.
  intros Hv. unfold settled_node_json. destruct (as_object v) as [m|] eqn:E; [|done].
  destruct usage; case_bool_decide; names.
Qed.

Lemma recovered_names id now status v :
  value_names id v → value_names id (recovered_json now status v).
Proof.
  intros Hv. unfold recovered_json. destruct (as_object v) as [m|] eqn:E; [|done]. case_bool_decide; names.
Qed.

Lemma injected_names id v c :
  value_names id v →
  value_names id match as_object v with
                 | Some object => json_object (<["context_injection" := c]> object)
                 | None => v
                 end.
Proof. intros Hv. destruct (as_object v) as [m|] eqn:E; [|done]. names. Qed.
End names.

(** ** The scheduler *)

Section scheduler.
Context {V : Type} `{JV : JsonValue V} `{JT : JsonText V} `{JN : JsonNumbers V}.
Context `{SD : StoreDecoders V} `{Deps : RecursiveDeps} `{TE : TreeEncoder}.
Context `{RO : RowOrder} `{HO : HashOrder}.
Context (contract_from_value : V → option UsageContract.RecursiveUsageContract).
Context (object_fields : ∀ m : gmap string V, as_object (json_object m) = Some m).
Context (parse_print : ∀ v : V, json_parse (json_print v) = Some v).

Abbreviation named := (always (names_kept (V := V))).

Lemma untouched_named {A} (m : store A) : always same_workflow m → named m.
Proof. intros H db r db' E. by eapply same_names, H. Qed.

(** [UPDATE] that leaves the JSON alone, or writes one that names the node. *)
Lemma update_node_named run id f :
  (∀ row, node_names id row → node_names id (f row)) → named (update_node run id f).
Proof. intros H. apply always_execute. intros db. by apply names_alter. Qed.

Lemma same_json_names id (row row' : work_row) :
  wn_node_json row' = wn_node_json row → node_names (V := V) id row → node_names (V := V) id row'.
Proof. intros E (v & m & H). exists v, m. by rewrite E. Qed.

Hint Extern 1 (named (execute _)) => apply always_execute; intros; by apply names_same : frames.
Hint Extern 1 (named (update_node _ _ _)) =>
  apply update_node_named; intros ?; by apply same_json_names : frames.
Hint Extern 4 (named _) => solve [apply untouched_named; eauto with frames nocore] : frames.

Lemma persist_named t now exp : named (persist_recursive_tree t now exp).
Proof. apply untouched_named, persist_same. Qed.
Lemma control_named t now exp : named (persist_recursive_tree_control_state t now exp).
Proof. apply untouched_named, persist_same. Qed.
Hint Resolve persist_named control_named load_existing_frame contains_node_frame : frames.

(** A row that is read and written back. *)
Lemma rewrite_row_named {B} k (c : work_row → bool) (f : work_row → work_row) (cont other : store B) :
  (∀ row, node_names (V := V) k.2 row → node_names (V := V) k.2 (f row)) → named cont → named other →
  named (row <-! query (λ db, Ok (workflow_run_nodes db !! k)) ;;
         match row with
         | Some row =>
           if c row then
             _u <-! execute (λ db, db <| workflow_run_nodes := <[k := f row]> (workflow_run_nodes db) |>) ;;
             cont
           else other
         | None => other
         end).
Proof.
  intros Hf Hc Ho. apply always_read; [apply _|]. intros db o r db' [= E] H.
  destruct o as [row|]; [|by eapply Ho]. destruct (c row); [|by eapply Ho].
  rewrite execute_then in H. etrans; [|by eapply Hc]. apply (names_insert _ _ row); [done|apply Hf].
Qed.

(** *** Rows a tree closes *)

Lemma sync_terminal_named t now : named (sync_terminal_workflow_nodes t now).
Proof.
  apply always_for_each; [apply _|]. intros n. apply always_read; [apply _|].
  intros db o r db' [= Eo] H. destruct o as [row|]; [|by injection H as _ <-].
  destruct (unfinished row); cbn [negb] in H; [|by injection H as _ <-].
  apply bind_inv in H as [(e & [_ ->]%lift_inv & _)|(j & db2 & [Ej ->]%lift_inv & H)]; [done|].
  case_match; [by injection H as _ <-|]. injection H as _ <-. eapply names_insert; [done|]. intros Hn.
  eapply (printed_names parse_print); [reflexivity|]. apply (fail_json_names object_fields).
  eapply node_names_value; [done|]. symmetry in Ej. by apply ok_or_Ok in Ej.
Qed.
Hint Resolve sync_terminal_named : frames.

Lemma stop_node_named run now reason id : named (stop_workflow_node run now reason id).
Proof.
  apply always_read; [apply _|]. intros db [[run_row|] [row|]] r db' [= _ E] H;
    try by injection H as _ <-.
  destruct (still_live row); cbn [negb] in H; [|by injection H as _ <-].
  apply bind_inv in H as [(e & H & _)|(u & db1 & Ha & H)].
  - case_match; [|by injection H as _ <-]. by eapply same_names, append_audit_same.
  - assert (same_workflow db db1) as F by (case_match; [by eapply append_audit_same|by injection Ha as _ <-]).
    transitivity db1; [by apply same_names|]. injection H as _ <-.
    eapply names_insert; [by rewrite (sw_nodes _ _ F)|]. intros Hn. cbn [snd].
    destruct (stopped_node_json id (wn_node_json row) now) as [text|] eqn:Es; [|by eapply same_json_names].
    unfold stopped_node_json in Es. destruct (json_parse (wn_node_json row)) as [v|] eqn:Ev; [|done].
    cbn in Es. case_bool_decide; [|done]. destruct (fail_node_json v now) as [w|] eqn:Ew; [|done].
    injection Es as <-. apply (printed_names parse_print _ _ w); [done|].
    pose proof (fail_json_names object_fields id v now) as Hf. rewrite Ew in Hf.
    apply Hf. by eapply node_names_value.
Qed.
Hint Resolve stop_node_named : frames.

Lemma stale_recovery_named run id l retry now : named (sync_recursive_stale_recovery run id l retry now).
Proof. unfold sync_recursive_stale_recovery. walk. Qed.
Lemma completion_named env run id l rid ok retry u now :
  named (sync_recursive_completion_with_receipt env run id l rid ok retry u now).
Proof. unfold sync_recursive_completion_with_receipt, settle_attempt. walk. Qed.
Lemma root_completion_named run l rid ok u now :
  named (sync_recursive_root_completion_with_receipt run l rid ok u now).
Proof. unfold sync_recursive_root_completion_with_receipt. walk. Qed.
Lemma late_usage_named run id rid u now : named (record_recursive_late_usage run id rid u now).
Proof. unfold record_recursive_late_usage. walk. Qed.
Lemma root_late_usage_named run rid u now : named (record_recursive_root_late_usage run rid u now).
Proof. unfold record_recursive_root_late_usage. walk. Qed.
Hint Resolve stale_recovery_named completion_named root_completion_named late_usage_named
  root_late_usage_named : frames.

Lemma terminal_failure_named env run id l reason now :
  named (sync_recursive_terminal_failure env run id l reason now).
Proof. unfold sync_recursive_terminal_failure, sync_recursive_completion. walk. Qed.
Lemma root_terminal_failure_named run receipt reason now :
  named (sync_recursive_root_terminal_failure run receipt reason now).
Proof.
  unfold sync_recursive_root_terminal_failure, sync_corrupt_recursive_root_terminal_failure,
    sync_recursive_root_completion. walk. apply always_execute. intros db. by apply same_names, foldl_same.
Qed.
Hint Resolve terminal_failure_named root_terminal_failure_named : frames.

Lemma pause_named paused why now : named (set_recursive_execution_paused paused why now).
Proof.
  unfold set_recursive_execution_paused. apply always_transaction; [apply _|].
  apply always_bind; [apply _|walk|]. intros rows. induction rows as [|[run row] rows IH]; cbn; [walk|].
  unfold reconcile_row, report_reconciled. walk.
Qed.

(** *** Leases *)

Lemma block_child_named run actor now id : named (block_child run actor now id).
Proof.
  apply rewrite_row_named; [intros row; by apply same_json_names|unfold insert_workflow_run_event_locked; walk|walk].
Qed.

Lemma claim_node_named run now id caps agent rec : named (claim_node run now id caps agent rec).
Proof.
  apply always_bind; [apply _|walk|]. intros guard.
  apply (rewrite_row_named _ (λ row, guard && bool_decide (wn_status row = "pending")));
    [intros row; by apply same_json_names|walk|walk].
Qed.

Lemma finalize_node_named run id status now attempt : named (finalize_node run id status now attempt).
Proof.
  apply (rewrite_row_named _ (λ row, bool_decide (wn_status row = "running") && (wn_attempt_count row =? attempt)));
    [intros row; by apply same_json_names|walk|walk].
Qed.
Hint Resolve block_child_named claim_node_named finalize_node_named : frames.

Lemma propagate_named run actor now : named (propagate_failed_dependencies_locked run actor now).
Proof.
  assert (∀ fuel, named (propagate_loop fuel run actor now)) as H.
  { induction fuel as [|fuel IH]; [by intros ???|]. cbn [propagate_loop]. walk. }
  intros db r db' E. by eapply H.
Qed.

Lemma conclude_named run actor now : named (conclude_run run actor now).
Proof.
  unfold conclude_run, update_workflow_run_status_locked, insert_workflow_run_event_locked. walk.
Qed.
Hint Resolve propagate_named conclude_named : frames.

Lemma pick_named env run fuel now agent caps skip : named (pick_node env run fuel now agent caps skip).
Proof.
  revert skip. induction fuel as [|fuel IH]; intros skip; [by intros ???|]. cbn [pick_node].
  unfold admit_candidate, recursive_cap_reached, agent_caps_admit, claim_conflict. walk.
Qed.
Hint Resolve pick_named : frames.

Lemma lease_named env run actor clock retries agent caps owner :
  named (lease_ready_node env run actor clock retries agent caps owner).
Proof.
  unfold lease_ready_node, start_run, no_candidate, take_lease, finish_lease,
    recursive_node_of, update_workflow_run_status_locked, insert_workflow_run_event_locked. walk.
Qed.

(** *** Results and stale leases: what was read is written back later *)

Definition sound_kept (db db' : database) : Prop := graphs_sound (V := V) db → graphs_sound (V := V) db'.
#[local] Instance sound_kept_preorder : PreOrder sound_kept.
Proof. split; [intros db H; exact H|]. intros a b c H1 H2 H. by apply H2, H1. Qed.

Lemma named_sound {A} (m : store A) : named m → always sound_kept m.
Proof. intros H db r db' E Hs. eapply names_graphs; [|exact Hs]. by eapply H. Qed.

(** The row that is read names its node. *)
Lemma read_sound {A B} run id (f : database → result string A) (row_of : A → option work_row) (k : A → store B) :
  (∀ db a, f db = Ok a → row_of a = workflow_run_nodes db !! (run, id)) →
  (∀ a, (∀ row, row_of a = Some row → node_names (V := V) id row) → named (k a)) →
  always sound_kept (bind (query f) k).
Proof.
  intros Hf Hk. apply always_read; [apply _|]. intros db a r db' E H Hs.
  apply (names_graphs db); [|exact Hs]. eapply Hk; [|exact H]. intros row Hr. rewrite (Hf _ _ E) in Hr.
  by eapply so_nodes; [apply Hs|].
Qed.

Lemma lifted_named {A B} (x : result string A) (k : A → store B) :
  (∀ a, x = Ok a → named (k a)) → named (bind (lift x) k).
Proof.
  intros Hk db r db' [(e & [_ ->]%lift_inv & _)|(a & db1 & [E ->]%lift_inv & H)]%bind_inv; [done|].
  by eapply Hk.
Qed.

(** JSON that may be written back is the JSON that was read. *)
Lemma identity_names id row indexed enabled identity :
  node_names (V := V) id row →
  resolve_recursive_completion_identity id (wn_node_json row) indexed enabled = Ok identity →
  rc_metadata_writable identity = true → value_names id (rc_node_json (V := V) identity).
Proof.
  intros (v & m & Ev & Hm) E _. unfold resolve_recursive_completion_identity in E. rewrite Ev in E.
  case_match; [done|]. injection E as <-. by exists m.
Qed.

Lemma store_named env run id actor now ty identity attempt reason usage retry status output pmu :
  (rc_metadata_writable identity = true → value_names id (rc_node_json (V := V) identity)) →
  named (store_result env run id actor now ty identity attempt reason usage retry status output pmu).
Proof.
  intros Hid. unfold store_result, settle_recursive, store_recursive_status, report_retry, report_end,
    insert_workflow_run_event_locked.
  destruct (rc_metadata_writable identity); walk; apply update_node_named; intros row Hn;
    (eapply (printed_names parse_print); [reflexivity|]); by apply (settled_names object_fields), Hid.
Qed.

Lemma record_sound env run id actor clock retries mode ty attempt output usage :
  always sound_kept
    (record_result contract_from_value env run id actor clock retries mode ty attempt output usage).
Proof.
  unfold record_result. apply always_transaction; [apply _|]. cbv zeta.
  apply (read_sound run id _ Some).
  { intros db row E. unfold query_row in E. destruct (_ !! _); [|done]. by injection E as ->. }
  intros row Hrow. apply always_bind; [apply _|walk|]. intros indexed. apply lifted_named. intros identity Eid.
  pose proof (identity_names id row _ _ _ (Hrow _ eq_refl) Eid) as Hid.
  pose proof (store_named env run id actor) as Hst.
  unfold decide_retry, ignore_stale, account_late_usage, late_audit. walk.
Qed.

Lemma recover_row_named run id l now verdict (v : option V) :
  (∀ v', v = Some v' → value_names id v') → named (recover_row run id l now verdict v).
Proof.
  intros Hv.
  apply (rewrite_row_named _ (λ row, bool_decide (wn_status row = "running") && bool_decide (wn_leased_at row = Some l)));
    [|walk|walk].
  intros row. destruct v as [v|]; [|by apply same_json_names]. intros _.
  eapply (printed_names parse_print); [reflexivity|]. by apply (recovered_names object_fields), Hv.
Qed.

Lemma recover_one_sound env now timeout run id l :
  always sound_kept (recover_stale_lease_of env now timeout run id l).
Proof.
  unfold recover_stale_lease_of. apply (read_sound run id _ (λ o, o)); [by intros db o [= <-]|].
  intros o Ho. apply always_bind; [apply _|walk|]. intros indexed.
  assert (Hr : ∀ state, (∀ v, state ≫= st_node_json = Some v → value_names id v) →
    named (verdict <-! match state with
                       | Some state => v <-! judge_stale env run state ;; ret (Some v)
                       | None => ret None
                       end ;;
           updated <-! recover_row run id l now verdict (state ≫= st_node_json) ;;
           if updated then
             _u <-! match state, verdict with
                    | Some state, Some verdict => recover_tree env run id now state verdict
                    | _, _ => ret tt
                    end ;;
             _u <-! audit_recovery run id l now timeout ;;
             ret 1
           else ret 0)).
  { intros state Hst. pose proof (λ verdict, recover_row_named run id l now verdict _ Hst).
    unfold judge_stale, recover_tree, audit_recovery. cbv zeta beta. walk. }
  destruct o as [row|]; [|by apply (Hr None)]. apply lifted_named. intros state Es. apply Hr. intros v Hv.
  unfold stale_recursive_identity in Es.
  destruct (resolve_recursive_completion_identity id (wn_node_json row) indexed (recursive_enabled env))
    as [identity|] eqn:Ei; [|done]. injection Es as <-.
  destruct (rc_recursive_node_id identity); [|done]. cbn in Hv.
  destruct (rc_metadata_writable identity) eqn:Ew; [|done]. injection Hv as <-.
  by eapply identity_names; [apply Ho| |].
Qed.

Lemma recover_sound env parse_time now timeout :
  always sound_kept (recover_stale_leases env parse_time now timeout).
Proof.
  unfold recover_stale_leases. apply always_transaction; [apply _|]. apply always_bind; [apply _|walk|].
  pose proof (recover_one_sound env now timeout) as H1. intros stale.
  induction stale as [|[[run id] l] stale IH]; cbn; walk.
Qed.

Lemma context_sound run id v : always sound_kept (persist_context_injection run id v).
Proof.
  unfold persist_context_injection. apply (read_sound run id _ Some).
  { intros db row E. unfold query_row in E. destruct (_ !! _); [|done]. by injection E as ->. }
  intros row Hrow. destruct (Hrow _ eq_refl) as (w & m & Ew & Hm).
  apply update_node_named. intros row' _. eapply (printed_names parse_print); [reflexivity|].
  rewrite Ew. apply (injected_names object_fields). by exists m.
Qed.

Lemma scheduler_sound allowed db db' :
  sched_step contract_from_value allowed db db' → graphs_sound (V := V) db → graphs_sound (V := V) db'.
Proof.
  destruct 1.
  - by eapply named_sound; [apply lease_named|].
  - by eapply record_sound.
  - by eapply recover_sound.
  - eapply named_sound; [|done]. unfold update_workflow_run_status_with_event,
      update_workflow_run_status_locked, insert_workflow_run_event_locked. walk.
  - by eapply context_sound.
  - by eapply named_sound; [apply pause_named|].
Qed.

(** ** Mutations *)

Lemma elsewhere_sound run run' db db' :
  run' ≠ run → elsewhere run db db' → stored_ok (V := V) run' db ∧ graph_ok run' db →
  stored_ok (V := V) run' db' ∧ graph_ok run' db'.
Proof.
  intros Hne [En Ee _ _ _ _] [[Sn Se] [Hends Hac]].
  assert (Hx : ∀ x y, run_edge run' db' x y → run_edge run' db x y).
  { intros x y (eid & row & He & H). rewrite Ee in He by done. by exists eid, row. }
  split; split.
  - intros id row. rewrite En by done. apply Sn.
  - intros eid row. rewrite Ee by done. apply Se.
  - intros x y He%Hx. rewrite !En by done. by apply Hends.
  - intros Hc. apply Hac. eapply cyclic_mono; [|exact Hc]. exact Hx.
Qed.

Context (str_value : ∀ s, as_str (json_string (V := V) s) = Some s).

Lemma batch_sound run ps actor clock :
  always sound_kept (apply_dag_mutations_batch (V := V) run ps actor clock).
Proof.
  intros db r db' E Hs. destruct (workflow_runs db !! run) as [w|] eqn:Ew.
  - destruct (Hs run) as [Hst Hg].
    destruct (batch_ok object_fields str_value (λ m, parse_print (json_object m)) run actor clock ps db
      (ex_intro _ w Ew) Hst Hg) as (m & os & m' & db1 & _ & _ & _ & _ & E1 & [_ _ [_ Hm Hst' Hwf] _ Hel]).
    rewrite E in E1. injection E1 as -> ->. intros run'.
    destruct (decide (run' = run)) as [-> |Hne]; [split; [done|by eapply mirrors_graph_ok]|].
    by eapply elsewhere_sound; [| |apply Hs].
  - unfold apply_dag_mutations_batch, bind at 1, query, ensure_run_exists_locked in E. rewrite Ew in E.
    by injection E as _ <-.
Qed.

(** Everything that happens to runs outside of agents. *)
Inductive run_step (allowed : option (Z * Z) → Prop) (db db' : database) : Prop :=
  | run_sched : sched_step contract_from_value allowed db db' → run_step allowed db db'
  | run_batch run ps actor clock r :
      apply_dag_mutations_batch (V := V) run ps actor clock db = Some (r, db') → run_step allowed db db'.

Lemma run_step_sound allowed db db' :
  run_step allowed db db' → graphs_sound (V := V) db → graphs_sound (V := V) db'.
Proof.
  intros [H|run ps actor clock r H]; [by eapply scheduler_sound|by eapply batch_sound].
Qed.
End scheduler.
