(* ===== verification/RunHistories.v ===== *)
(** * Runs whose graph is mutated while they are scheduled

    The operations of the scheduler and batches of graph mutations, in any order.
    A batch that does not remove a node keeps its row and the attempts counted in
    it; one that does not update it either keeps its status.  So late results are
    ignored and lost retries stay lost also in a graph that changes, as long as
    the node itself is left in place; two examples show what happens when it is
    not. *)

From S2P Require Import Prelude Text Json Float64 RecursiveExecution Persistence PersistenceProps PersistenceTheorems TreeStore TreeStoreProps TreeHistory NodeExecution WorkflowRuns WorkflowFrames WorkflowProps WorkflowSteps DagManager RunGraph RunGraphProps JsonCodec WorkflowTheorems WorkflowRetry RunGraphTheorems.
From stdpp Require Import relations.
Import FailureReason (RecursiveFailureReason).

Local Open Scope Z_scope.

(** ** Histories *)

Section histories.
Context {V : Type} `{JV : JsonValue V} `{JT : JsonText V} `{JN : JsonNumbers V}
  `{SD : StoreDecoders V} `{Deps : RecursiveDeps} `{TE : TreeEncoder} `{RO : RowOrder}
  `{HO : HashOrder}.
Context (contract_from_value : V → option UsageContract.RecursiveUsageContract).

(** The node a proposal removes or updates is its target. *)
Definition targets (kind id : string) (p : DAGMutationProposal (V := V)) : bool :=
  bool_decide (mutation_type p = kind ∧ default EmptyString (target_node_id p) = id).

Definition not_removed (id : string) (p : DAGMutationProposal (V := V)) : Prop :=
  targets "remove_node" id p = false.
Definition left_alone (id : string) (p : DAGMutationProposal (V := V)) : Prop :=
  targets "remove_node" id p = false ∧ targets "update_node" id p = false.

(** An operation of the scheduler, or a batch on some run; the proposals of a
    batch on [run] satisfy [P]. *)
Inductive mutated_step (allowed : option (Z * Z) → Prop) (run : string)
    (P : DAGMutationProposal (V := V) → Prop) (db db' : database) : Prop :=
  | mu_sched : sched_step contract_from_value allowed db db' → mutated_step allowed run P db db'
  | mu_batch run' ps actor clock r :
      (run' = run → Forall P ps) →
      apply_dag_mutations_batch run' ps actor clock db = Some (r, db') →
      mutated_step allowed run P db db'.

(** ** The row of a node under a batch *)

(** The row of [k] stays and is related to what it was. *)
Definition stays (Q : work_row → work_row → Prop) (k : string * string) (db db' : database) : Prop :=
  ∀ row, workflow_run_nodes db !! k = Some row →
  ∃ row', workflow_run_nodes db' !! k = Some row' ∧ Q row row'.

#[export] Instance stays_preorder Q k : PreOrder Q → PreOrder (stays Q k).
Proof.
  intros HQ. split; [intros db row H; by exists row|].
  intros db1 db2 db3 H1 H2 row H. destruct (H1 _ H) as (row2 & E2 & ?).
  destruct (H2 _ E2) as (row3 & E3 & ?). exists row3. split; [done|by etrans].
Qed.

Lemma stays_same Q `{!PreOrder Q} k db db' :
  workflow_run_nodes db' !! k = workflow_run_nodes db !! k → stays Q k db db'.
Proof. intros E row H. exists row. by rewrite E. Qed.

Section batch.
Context (Q : work_row → work_row → Prop) `{!PreOrder Q} (k : string * string).
Abbreviation R := (stays Q k).

Lemma stays_same_nodes {A} (m : store A) : always same_nodes m → always R m.
Proof. apply always_weaken. intros db db' [E _] row H. exists row. by rewrite E. Qed.

Lemma stays_event run id kind actor details now :
  always R (mutation_event (V := V) run id kind actor details now).
Proof. apply stays_same_nodes, bookkept_always, event_bookkept. Qed.

Lemma stays_update run id f :
  ((run, id) = k → ∀ row, Q row (f row)) → always R (update_node run id f).
Proof.
  intros Hf. apply always_execute. intros db row Hr. cbn.
  destruct (decide ((run, id) = k)) as [E|]; [|rewrite lookup_alter_ne by done; by exists row].
  rewrite E, lookup_alter_eq, Hr. eexists. split; [done|]. by apply Hf.
Qed.

Lemma stays_execute f :
  (∀ db, workflow_run_nodes (f db) !! k = workflow_run_nodes db !! k) → always R (execute f).
Proof. intros H. apply always_execute. intros db row Hr. exists row. by rewrite H. Qed.
#[local] Hint Resolve stays_event : frames.

(** A node that is there is not inserted again. *)
Lemma stays_insert run (node : V) actor reason now :
  always R (insert_workflow_node run node actor reason now).
Proof.
  unfold insert_workflow_node, insert_workflow_run_node_locked, insert_workflow_run_node_with_mode.
  destruct (json_get_str node "node_id") as [id|]; [|by intros db r db' [= _ <-]].
  intros db r db'. change (bind (lift (ok_or (Some id) _)) ?f db) with (f id db). cbv beta.
  revert db r db'. apply always_bind; [apply _|walk|]. intros _.
  apply always_read; [apply _|]. intros db existing r db' [= E] H.
  destruct existing; [by injection H as _ <-|].
  change (bind (lift (ok_or (Some id) _)) ?f) with (f id) in H. cbn [andb] in H.
  apply bind_inv in H as [(e & [=] & _)|(u & db1 & [= _ <-] & H)].
  eapply stays_event in H. etrans; [|exact H].
  intros row Hr. exists row. split; [|done]. cbn. rewrite lookup_insert_ne; [done|].
  intros <-. by rewrite Hr in E.
Qed.

Lemma stays_persist run actor now (p : DAGMutationProposal (V := V)) :
  (run = k.1 → targets "remove_node" k.2 p = false) →
  (∀ row j, Q row (row <| wn_node_json := j |>)) →
  (run = k.1 → targets "update_node" k.2 p = true → ∀ row s, Q row (row <| wn_status := s |>)) →
  always R (persist_proposal run actor now p).
Proof.
  intros Hrm Hj Hup. pose proof stays_insert. unfold persist_proposal, targets in *.
  destruct (bool_decide_reflect (mutation_type p = "add_node")); [done|].
  destruct (bool_decide_reflect (mutation_type p = "remove_node")) as [Er|].
  { unfold remove_workflow_node. walk; apply stays_execute; [done|]. intros db. apply lookup_delete_ne.
    intros <-. specialize (Hrm eq_refl). by rewrite bool_decide_true in Hrm. }
  repeat case_match; [| | | |walk].
  - unfold insert_workflow_edge, insert_workflow_run_edge_locked, insert_workflow_run_edge_with_mode.
    walk. by apply stays_execute.
  - unfold remove_workflow_edge. walk. by apply stays_execute.
  - unfold rewire_workflow_edge. cbv zeta. walk. by apply stays_execute.
  - unfold update_workflow_node_status. cbv zeta. walk; apply stays_update; intros Ek row; [|done].
    subst k. apply (Hup eq_refl), bool_decide_eq_true. split; [by eapply bool_decide_eq_true|done].
Qed.

(** Proposals that neither remove the node nor, unless [Q] allows it, update it. *)
Definition harmless (run : string) (p : DAGMutationProposal (V := V)) : Prop :=
  run = k.1 → targets "remove_node" k.2 p = false
    ∧ (targets "update_node" k.2 p = true → ∀ row s, Q row (row <| wn_status := s |>)).

Lemma stays_batch run ps actor clock :
  (∀ row j, Q row (row <| wn_node_json := j |>)) → Forall (harmless run) ps →
  always R (apply_dag_mutations_batch run ps actor clock).
Proof.
  intros Hj Hps.
  assert (H : ∀ i m, always R (apply_proposals (V := V) run actor clock i m ps)).
  { induction Hps as [|p ps Hp _ IH]; intros i m; cbn [apply_proposals]; [walk|].
    assert (∀ now, always R (persist_proposal run actor now p))
      by (intros now; apply stays_persist; [intros E; by apply Hp|done|intros E; by apply Hp]).
    unfold apply_proposal. walk. }
  unfold apply_dag_mutations_batch. walk.
Qed.
End batch.

(** ** Attempts count up, ended nodes stay *)

Lemma mutated_counts allowed run id db db' row :
  rtc (mutated_step allowed run (not_removed id)) db db' →
  workflow_run_nodes db !! (run, id) = Some row →
  ∃ row', workflow_run_nodes db' !! (run, id) = Some row' ∧ wn_attempt_count row <= wn_attempt_count row'.
Proof.
  set (Q := λ row row' : work_row, wn_attempt_count row <= wn_attempt_count row').
  assert (HQ : PreOrder Q) by (split; [intros ?|intros ???]; unfold Q; lia).
  intros H. revert row. change (stays Q (run, id) db db').
  induction H as [|db1 db2 db3 H _ IH]; [done|]. transitivity db2; [|done].
  destruct H as [H|run' ps actor clock r Hps H].
  - intros row Hr. by apply (sched_steps_count _ _ _ _ (rtc_once _ _ H)) in Hr.
  - refine (stays_batch Q (run, id) run' ps actor clock _ _ _ _ _ H); [intros ??; unfold Q; cbn; lia|].
    destruct (decide (run' = run)) as [->|]; [|apply Forall_true; by intros p E].
    eapply Forall_impl; [by apply Hps|]. intros p Hp _. split; [done|]. intros _ ??. unfold Q. cbn. lia.
Qed.

Lemma mutated_ended allowed run id db db' row :
  rtc (mutated_step allowed run (left_alone id)) db db' →
  workflow_run_nodes db !! (run, id) = Some row → unfinished row = false →
  ∃ row', workflow_run_nodes db' !! (run, id) = Some row' ∧ wn_status row' = wn_status row.
Proof.
  set (Q := λ row row' : work_row, unfinished row = false → wn_status row' = wn_status row).
  assert (HQ : PreOrder Q).
  { split; [by intros ? _|]. intros ??? H1 H2 Hu. rewrite H2; [by apply H1|].
    by rewrite (unfinished_status _ _ (H1 Hu)). }
  intros H Hr Hu. enough (stays Q (run, id) db db') as Hs by (destruct (Hs _ Hr) as (row' & ? & E); eauto).
  clear Hr Hu. induction H as [|db1 db2 db3 H _ IH]; [done|]. transitivity db2; [|done].
  destruct H as [H|run' ps actor clock r Hps H].
  - intros r Hr. destruct (sched_steps_count _ _ _ _ (rtc_once _ _ H) _ _ Hr) as (r' & Hr' & _).
    exists r'. split; [done|]. intros Eu.
    destruct (sched_step_kept _ _ _ _ H (run, id) r I Hr Eu) as (r2 & Hr2 & E). congruence.
  - refine (stays_batch Q (run, id) run' ps actor clock _ _ _ _ _ H); [by intros ?? _|].
    destruct (decide (run' = run)) as [->|]; [|apply Forall_true; by intros p E].
    eapply Forall_impl; [by apply Hps|]. intros p [Hp Hu] _. split; [done|]. cbn. by rewrite Hu.
Qed.
End histories.

(** ** Theorems *)

(** C7: A superseded result is ignored.  A node is leased, and later leased again;
    before and after the second lease there are any operations of the scheduler
    (leases, results, recoveries, operator requests, injections of context,
    pauses) and any batches of graph mutations that do not remove this node.  If
    the first attempt reports now, its result is ignored: no run, edge or event
    changes, a row changes only because its tree closes it, and without a tree no
    workflow row changes at all.  The two leases have different claims.  A node
    that is removed and added again counts its attempts anew, see
    [readded_node_takes_old_result]. *)
Theorem superseded_result_ignored {V : Type} `{JV : JsonValue V} `{JT : JsonText V} `{JN : JsonNumbers V}
    `{SD : StoreDecoders V} `{Deps : RecursiveDeps} `{TE : TreeEncoder} `{RO : RowOrder}
    `{HO : HashOrder} contract allowed run id
    env1 actor1 clock1 retries1 agent1 caps1 owner1 ty1 wf1 n1 meta1 db0 db1
    env2 actor2 clock2 retries2 agent2 caps2 owner2 ty2 wf2 n2 meta2 db2 db3
    env actor clock retries mode ty output usage res db4 db5 :
  lease_ready_node env1 run actor1 clock1 retries1 agent1 caps1 owner1 db0
    = Some (Ok (Leased id ty1 wf1 n1 meta1), db1) →
  rtc (mutated_step contract allowed run (not_removed id)) db1 db2 →
  lease_ready_node env2 run actor2 clock2 retries2 agent2 caps2 owner2 db2
    = Some (Ok (Leased id ty2 wf2 n2 meta2), db3) →
  rtc (mutated_step contract allowed run (not_removed id)) db3 db4 →
  record_result contract env run id actor clock retries mode ty n1 output usage db4
    = Some (Ok res, db5) →
  claim_id run id n1 ≠ claim_id run id n2
  ∧ action res = "stale_completion_ignored"
  ∧ tree_frame db4 db5
  ∧ (recursive_execution_nodes db4 !! (run, id) = None → same_workflow db4 db5).
Proof.
  intros H1 Hs1 H2 Hs2 Hr.
  apply lease_inv in H1 as [_ Ho1]. inversion Ho1 as [? row1 ? ? [Hr1 _ _ _ Hn1 _] ?| |? ? _ _ Hc]; [|inversion Hc].
  apply lease_inv in H2 as [_ Ho2]. inversion Ho2 as [? row2 ? ? [Hr2 _ _ _ Hn2 _] ?| |? ? _ _ Hc]; [|inversion Hc].
  subst. destruct (mutated_counts _ _ _ _ _ _ (leased_row (clock1 1%nat) row1) Hs1) as (r & Er & Hle).
  { by rewrite Hn1, lookup_insert_eq. }
  rewrite Hr2 in Er. injection Er as <-. cbn in Hle.
  destruct (mutated_counts _ _ _ _ _ _ (leased_row (clock2 1%nat) row2) Hs2) as (r4 & Er4 & Hle4).
  { by rewrite Hn2, lookup_insert_eq. }
  cbn in Hle4. destruct (record_stale _ _ _ _ _ _ _ _ _ _ _ _ _ _ _ Hr) as (Ha & Hf & Hq).
  { intros (row & Hrow & _ & Hat). rewrite Er4 in Hrow. injection Hrow as <-. lia. }
  split_and!; [|done|done|intros Hx; by apply audited_same, Hq].
  unfold claim_id. intros E. repeat apply (inj _) in E. lia.
Qed.

(** C38: A retry of a recursive node is lost.  When the result of a node of a
    tree is recorded as [node_retry], its row gets the status of its tree node,
    which is never [pending]; and after any further operations of the scheduler
    and any batches of graph mutations that neither remove nor update this node,
    no tick leases it again.  An update of the node by a batch brings it back, see
    [updated_node_leased_again]. *)
Theorem recursive_retry_lost {V : Type} `{JV : JsonValue V} `{JT : JsonText V} `{JN : JsonNumbers V}
    `{SD : StoreDecoders V} `{Deps : RecursiveDeps} `{TE : TreeEncoder} `{RO : RowOrder}
    `{HO : HashOrder} contract allowed run id root
    env actor clock retries mode ty attempt output usage db res db1 db2 :
  record_result contract env run id actor clock retries mode ty attempt output usage db
    = Some (Ok res, db1) →
  action res = "node_retry" → indexed_recursive_root run id db = Some root →
  rtc (mutated_step contract allowed run (left_alone id)) db1 db2 →
  (∃ row, workflow_run_nodes db1 !! (run, id) = Some row
     ∧ wn_status row ∈ ["ready"; "leased"; "completed"; "failed"])
  ∧ ∀ env actor clock retries agent caps owner ty wf n meta db3,
      lease_ready_node env run actor clock retries agent caps owner db2
        ≠ Some (Ok (Leased id ty wf n meta), db3).
Proof.
  intros H Ha Hroot Hs. destruct (record_retry_status _ _ _ _ _ _ _ _ _ _ _ _ _ _ _ _ H Ha Hroot) as (row & Hr & Hst).
  split; [by exists row|]. pose proof (tree_status_ended _ Hst) as Hu.
  destruct (mutated_ended _ _ _ _ _ _ _ Hs Hr Hu) as (row' & Hr' & E).
  intros env' actor' clock' retries' agent caps owner ty' wf n meta db3 [_ Ho]%lease_inv.
  inversion Ho as [? row2 ? ? [Hr2 Hp _ _ _ _] ?| |? ? _ _ Hc]; [|inversion Hc]. subst.
  rewrite Hr' in Hr2. injection Hr2 as <-. unfold unfinished in Hu. rewrite <-E, Hp in Hu. by vm_compute in Hu.
Qed.

(** ** Witnesses *)

Import JsonDemo JsonCodec RunDemo.

Lemma superseded_result_ignored_witness :
  claim_id "r" "lint" 1 ≠ claim_id "r" "lint" 2
  ∧ ∃ res, result_of (record "lint" "agent_step" 1 (output "completed" None)) leased2 = Ok res
      ∧ action res = "stale_completion_ignored" ∧ same_workflow leased2 stale.
Proof.
  destruct (result_of (lease true caps) created) as [[| |id ty wf n meta]|] eqn:E1;
    [vm_compute in E1; discriminate E1..| |vm_compute in E1; discriminate E1].
  destruct (result_of (lease true caps) recovered) as [[| |id' ty' wf' n' meta']|] eqn:E2;
    [vm_compute in E2; discriminate E2..| |vm_compute in E2; discriminate E2].
  destruct (result_of (record "lint" "agent_step" 1 (output "completed" None)) leased2) as [res|] eqn:E3;
    [|vm_compute in E3; discriminate E3].
  assert (H1 : is_some (lease true caps created) = true) by (vm_compute; reflexivity).
  assert (H2 : is_some (lease true caps recovered) = true) by (vm_compute; reflexivity).
  assert (H3 : is_some (record "lint" "agent_step" 1 (output "completed" None) leased2) = true)
    by (vm_compute; reflexivity).
  apply ran in H1, H2, H3.
  rewrite E1 in H1. rewrite E2 in H2. rewrite E3 in H3.
  vm_compute in E1. injection E1 as <- _ _ <- _. vm_compute in E2. injection E2 as <- _ _ <- _.
  pose proof (superseded_result_ignored contract_of (within_caps 2 1) "r" "lint"
    env "worker" clock 1 true caps None ty wf 1 meta created leased1
    env "worker" clock 1 true caps None ty' wf' 2 meta' recovered leased2
    env "worker" clock 1 ModeUnavailable "agent_step" (output "completed" None) None res leased2 stale
    H1 (rtc_once _ _ (mu_sched _ _ _ _ _ _ demo_recover)) H2 (rtc_refl _ _) H3) as (Hc & Ha & _ & Hw).
  split; [exact Hc|]. exists res. split; [reflexivity|]. split; [exact Ha|]. apply Hw. vm_compute. reflexivity.
Defined.

Import RetryDemo.

Lemma recursive_retry_lost_witness :
  wn_status <$> workflow_run_nodes with_retry !! ("run-1", child) = Some "ready"
  ∧ ∀ env actor clock retries agent caps owner ty wf n meta db,
      lease_ready_node (V:=json) env "run-1" actor clock retries agent caps owner with_retry
        ≠ Some (Ok (Leased child ty wf n meta), db).
Proof.
  split; [vm_compute; reflexivity|].
  destruct (result_of record_child with_lease) as [res|] eqn:E; [|vm_compute in E; discriminate E].
  assert (H : is_some (record_child with_lease) = true) by (vm_compute; reflexivity). apply ran in H.
  rewrite E in H. assert (Ha : action res = "node_retry").
  { vm_compute in E. injection E as <-. reflexivity. }
  assert (Hroot : indexed_recursive_root "run-1" child with_lease = Some "root") by (vm_compute; reflexivity).
  exact (proj2 (recursive_retry_lost contract_of (λ _, True) "run-1" child "root"
    env "worker" clock 1 ModeFixture "agent_step" 1 failure None with_lease res with_retry with_retry
    H Ha Hroot (rtc_refl _ _))).
Defined.

(** ** When the node is not left in place *)

(** A lease of [test] goes stale, a batch removes the node and adds it again, and
    it is leased again: the second lease has the attempt and the claim of the
    first, and the result of the first worker is taken for that of the second. *)
Module ReaddDemo.
Import GraphDemo RunDemo.
Definition first_lease : database := after (lease true caps) graph.
Definition taken_back : database := after (recover_stale_leases env seconds "late" 60000) first_lease.
Definition readd : list (DAGMutationProposal (V := json)) := [
  proposal "p6" "remove_edge" None (Some "e1") [];
  proposal "p7" "remove_node" (Some "test") None [];
  proposal "p8" "add_node" None None [("node_id", JStr "test"); ("task_type", JStr "agent_step")]].
Definition readded : database := after (apply_dag_mutations_batch "r" readd "planner" clock) taken_back.
Definition second_lease : database := after (lease true caps) readded.
Definition leased_of (m : result string (LeaseResult json)) : option (string * Z) :=
  match m with Ok (Leased id _ _ n _) => Some (id, n) | _ => None end.
Definition old_result : result string (tick_result json) :=
  result_of (record "test" "agent_step" 1 (output "completed" None)) second_lease.
End ReaddDemo.

Example readded_node_takes_old_result :
  ReaddDemo.leased_of (result_of (RunDemo.lease true RunDemo.caps) GraphDemo.graph) = Some ("test", 1)
  ∧ ReaddDemo.leased_of (result_of (RunDemo.lease true RunDemo.caps) ReaddDemo.readded) = Some ("test", 1)
  ∧ match ReaddDemo.old_result with Ok res => action res | Err e => e end = "node_executed".
Proof. split_and!; vm_compute; reflexivity. Qed.

(** A batch updates the tier of the node whose retry was lost: its row becomes
    [pending], and the next tick leases its second attempt. *)
Definition revived : database :=
  after (apply_dag_mutations_batch "run-1"
    [mkDAGMutationProposal "p9" "run-1" "update_node" (Some child) None
       (list_to_map [("tier", JStr "large")]) "demo" false "pending"] "planner" clock) with_other.

Example updated_node_leased_again :
  ReaddDemo.leased_of (result_of (lease true) with_other) = None
  ∧ ReaddDemo.leased_of (result_of (lease true) revived) = Some (child, 2).
Proof. split_and!; vm_compute; reflexivity. Qed.
