(* ===== verification/AgentMemory.v ===== *)
(** * Redaction and the memory of an agent

    Model of provider/redaction.rs, of the size caps of storage/
    local_product_store/agent_runtime.rs and of agent_memory.rs: what is removed
    from texts before they are stored, and the digest an agent carries from one
    node to the next.  The regex crate is a parameter. *)

From S2P Require Import Prelude Text Json.
From Stdlib Require Import Ascii.

Local Open Scope Z_scope.

(** [Regex::new(pattern).is_match(text)] and [.replace_all(text, replacement)]. *)
Class Regex : Type := {
  is_match : string → string → bool;
  replace_all : string → string → string → string;
}.

(** ** Cutting at a character boundary *)

(** [text.is_char_boundary(i)] for [i <= text.len()]: not inside a UTF-8 sequence. *)
Definition is_char_boundary (text : string) (i : nat) : bool :=
  match String.get i text with
  | None => true
  | Some c => (i =? 0)%nat || negb ((128 <=? byte_val c) && (byte_val c <? 192))
  end.

(** [while split > 0 && !text.is_char_boundary(split) { split -= 1 }]. *)
Fixpoint char_boundary_before (text : string) (split : nat) : nat :=
  match split with
  | O => O
  | S i => if is_char_boundary text split then split else char_boundary_before text i
  end.

(** [text[..split]]. *)
Definition str_take (split : nat) (text : string) : string := String.substring 0 split text.

Definition MAX_REDACTED_TEXT_BYTES : nat := 64 * 1024.
Definition newline : string := String (ascii_of_nat 10) EmptyString.
Definition quote : string := String (ascii_of_nat 34) EmptyString.

Definition truncate_redacted_text (text : string) : string :=
  if (String.length text <=? MAX_REDACTED_TEXT_BYTES)%nat then text
  else
    let original_len := String.length text in
    let split := char_boundary_before text MAX_REDACTED_TEXT_BYTES in
    str_take split text +:+ newline +:+ "[truncated " +:+ pretty (Z.of_nat (original_len - split))
      +:+ " bytes]" +:+ newline.

Definition apply_size_cap (text : string) (max_bytes : nat) : string :=
  if (String.length text <=? max_bytes)%nat then text
  else
    let split := char_boundary_before text max_bytes in
    str_take split text +:+ " [truncated " +:+ pretty (Z.of_nat (String.length text - split))
      +:+ " bytes]".

Definition cap_text (text : string) (max_bytes : nat) : string :=
  if (String.length text <=? max_bytes)%nat then text
  else str_take (char_boundary_before text max_bytes) text +:+ " [truncated]".

(** ** Redaction *)

Definition sensitive_patterns : list string := [
  "(?i)\bsk-[A-Za-z0-9_\-]{12,}\b";
  "(?i)\bharness_[a-f0-9]{64}\b";
  "(?i)\b(api[_-]?key|secret|token|password|credential)\s*[:=]\s*['\" +:+ quote +:+ "]?[^'\"
    +:+ quote +:+ "\s,}]+";
  "-----BEGIN [A-Z ]*PRIVATE KEY-----[\s\S]*?-----END [A-Z ]*PRIVATE KEY-----";
  "(?i)\bBearer\s+[A-Za-z0-9._\-]{12,}"].

Section redaction.
Context `{RE : Regex}.

Definition redact_sensitive_patterns (text : string) : string :=
  truncate_redacted_text
    (foldl (λ result pattern, replace_all pattern result "***") text sensitive_patterns).

Definition contains_sensitive_patterns (text : string) : bool :=
  existsb (λ pattern, is_match pattern text) sensitive_patterns.

Definition MAX_SCRATCHPAD_BYTES : nat := 16 * 1024.
Definition MAX_BODY_BYTES : nat := 64 * 1024.
Definition MAX_BODY_SUMMARY_BYTES : nat := 1024.
Definition MAX_PROPOSAL_OBJECTIVE_BYTES : nat := 4096.
Definition MAX_PROPOSAL_CONTEXT_BYTES : nat := 16 * 1024.

Definition redact_message_body (body : option string) : option string * string :=
  match body with
  | None => (None, "none")
  | Some body =>
    if contains_sensitive_patterns body then
      (Some (apply_size_cap (redact_sensitive_patterns body) MAX_BODY_BYTES), "redacted")
    else (Some (apply_size_cap body MAX_BODY_BYTES), "none")
  end.

Definition apply_size_cap_and_redact (text : string) (max_bytes : nat) : string :=
  apply_size_cap (redact_sensitive_patterns text) max_bytes.

(** ** The memory digest *)

Definition MAX_MEMORY_SUMMARY_BYTES : nat := 1024.
Definition MAX_MEMORY_SOURCE_REFS : nat := 16.
Definition MAX_MEMORY_SOURCE_REF_BYTES : nat := 128.

Definition redact_private_paths (text : string) : string :=
  replace_all ("(?x)" +:+ newline
    +:+ "        (?P<unix>/(?:home|Users|root|tmp|var|etc|workspace)/[^\s,;]+)" +:+ newline
    +:+ "        |" +:+ newline
    +:+ "        (?P<windows>[A-Za-z]:\\[^\s,;]+)" +:+ newline +:+ "        ")
    text "[redacted-path]".

Definition redact_loose_secret_shapes (text : string) : string :=
  replace_all "(?i)\bsk-[A-Za-z0-9_\-]{8,}\b" text "***".

Definition sanitize_memory_text (text : string) : string :=
  cap_text (redact_private_paths (redact_loose_secret_shapes (redact_sensitive_patterns text)))
    MAX_MEMORY_SUMMARY_BYTES.

Definition is_ascii_alphanumeric (c : Z) : bool :=
  ((48 <=? c) && (c <=? 57)) || ((65 <=? c) && (c <=? 90)) || ((97 <=? c) && (c <=? 122)).
Definition is_ascii_digit (c : Z) : bool := (48 <=? c) && (c <=? 57).
(** [matches!(ch, ..)] on the characters of [set]. *)
Definition one_of (set : string) (c : Z) : bool := existsb (Z.eqb c) (chars set).

Definition is_safe_source_ref (source_ref : string) : bool :=
  negb (is_empty source_ref)
  && (String.length source_ref <=? MAX_MEMORY_SOURCE_REF_BYTES)%nat
  && negb (existsb (one_of "/") (chars source_ref))
  && negb (existsb (one_of "\") (chars source_ref))
  && negb (contains_sensitive_patterns source_ref)
  && forallb (λ ch, is_ascii_alphanumeric ch || one_of "_-:." ch) (chars source_ref).

Definition is_safe_timestamp (value : string) : bool :=
  negb (is_empty value) && (String.length value <=? 64)%nat
  && forallb (λ ch, is_ascii_digit ch || one_of "-:TZ.+" ch) (chars value).

Definition estimate_tokens (text : string) : Z :=
  Z.max (Z.of_nat (length (chars text)) / 4) 1.

(** [Iterator::take] with a [usize] count. *)
Fixpoint take_chars (n : Z) (l : list Z) : list Z :=
  match l with
  | [] => []
  | c :: l => if n <=? 0 then [] else c :: take_chars (n - 1) l
  end.

Definition truncate_to_tokens (text : string) (max_tokens : Z) : string :=
  of_chars (take_chars (Z.min (max_tokens * 4) u64_max) (chars text)).
End redaction.

(** ** The state of an agent *)

Record AgentState {V : Type} : Type := mkAgentState {
  as_agent_id : string;
  as_run_id : string;
  as_role : string;
  as_capability_profile : list string;
  as_objective : option string;
  as_status : string;
  as_scratchpad_summary : option string;
  as_redaction_filter : option string;
  as_metadata : gmap string V;
  as_created_at : string;
  as_updated_at : string;
}.
Arguments AgentState : clear implicits.
#[export] Instance eta_AgentState {V} : Eta (AgentState V) := λ s,
  mkAgentState V (as_agent_id s) (as_run_id s) (as_role s) (as_capability_profile s) (as_objective s)
    (as_status s) (as_scratchpad_summary s) (as_redaction_filter s) (as_metadata s)
    (as_created_at s) (as_updated_at s).

Section memory.
Context `{RE : Regex} {V : Type} `{JV : JsonValue V} `{JT : JsonText V}.

(** [obj.insert(key, value)] when there is a value. *)
Definition insert_some (key : string) (value : option V) (object : gmap string V) : gmap string V :=
  match value with
  | Some value => <[key := value]> object
  | None => object
  end.

Definition strings_value (l : list string) : V := json_array (json_string <$> l).

(** [value.as_array().map_or(true, Vec::is_empty)]. *)
Definition no_elements (value : option V) : bool :=
  match value ≫= as_array with
  | Some l => match l with [] => true | _ => false end
  | None => true
  end.

Definition safe_source_refs (refs : list V) : list string :=
  filter (λ r, is_safe_source_ref r = true) (omap as_str refs).

Definition normalize_memory_digest (value : V) : option V :=
  obj ← as_object value;
  let source_refs := match obj !! "source_refs" ≫= as_array with
                     | Some refs => take MAX_MEMORY_SOURCE_REFS (safe_source_refs refs)
                     | None => []
                     end in
  let summary := get_str obj "summary" ≫= λ summary,
    let summary := sanitize_memory_text summary in
    if is_empty summary then None else Some summary in
  let updated_at := get_str obj "updated_at" ≫= λ updated_at,
    if is_safe_timestamp updated_at then Some (cap_text updated_at 64) else None in
  let normalized :=
    insert_some "mailbox_pending_count" ((λ count, json_int (Z.max count 0))
                                         <$> (obj !! "mailbox_pending_count" ≫= as_i64))
      (insert_some "updated_at" (json_string <$> updated_at)
        (insert_some "summary" (json_string <$> summary) (list_to_map [
          ("conflict_resolution", json_string "latest_summary_wins");
          ("expiry_policy", json_string "on_prune");
          ("source_refs", strings_value source_refs)]))) in
  if no_elements (normalized !! "source_refs") && is_none summary then None
  else Some (json_object normalized).

Definition agent_source_ref (run_id agent_id : string) : string :=
  "agent_state:" +:+ run_id +:+ ":" +:+ agent_id +:+ ":scratchpad_summary".

(** [source_refs.retain(..)] in the digest. *)
Definition retain_source_refs (keep : string) (digest : V) : V :=
  match as_object digest with
  | Some object =>
    match object !! "source_refs" ≫= as_array with
    | Some refs =>
      json_object (<["source_refs" := json_array (filter (λ r, as_str r = Some keep) refs)]> object)
    | None => digest
    end
  | None => digest
  end.

Definition normalize_memory_digest_for_agent (value : V) (run_id agent_id : string) : option V :=
  digest ← normalize_memory_digest value;
  let digest := retain_source_refs (agent_source_ref run_id agent_id) digest in
  let has_source_refs := negb (no_elements (json_get digest "source_refs")) in
  let has_summary := match json_get_str digest "summary" with
                     | Some summary => negb (is_empty summary)
                     | None => false
                     end in
  if has_source_refs || has_summary then Some digest else None.

Definition scratchpad_source_ref (state : AgentState V) : string :=
  agent_source_ref (as_run_id state) (as_agent_id state).

Definition scratchpad_digest (state : AgentState V) : option V :=
  scratchpad ← as_scratchpad_summary state;
  let summary := sanitize_memory_text scratchpad in
  if is_empty summary then None
  else Some (json_object (list_to_map [
    ("source_refs", strings_value [scratchpad_source_ref state]);
    ("expiry_policy", json_string "on_prune");
    ("conflict_resolution", json_string "latest_summary_wins");
    ("summary", json_string summary);
    ("updated_at", json_string (cap_text (as_updated_at state) 64))])).

Definition load_memory_digest_from_agent_state (state : AgentState V) : option V :=
  match as_metadata state !! "memory_digest" ≫= λ value,
          normalize_memory_digest_for_agent value (as_run_id state) (as_agent_id state) with
  | Some digest => Some digest
  | None => scratchpad_digest state
  end.

Definition consolidate_memory_digest (state : AgentState V) (action_result_summary : option string)
    (mailbox_pending_count : Z) : option V :=
  let prior := load_memory_digest_from_agent_state state in
  let text := match action_result_summary with
              | Some text => Some text
              | None => as_scratchpad_summary state
              end in
  let summary :=
    match text ≫= λ text, non_empty (Some (sanitize_memory_text text)) with
    | Some summary => Some summary
    | None => prior ≫= λ digest, json_get_str digest "summary"
    end in
  if is_none summary && is_none prior then None
  else
    let source_refs := match prior ≫= λ digest, json_get digest "source_refs" ≫= as_array with
                       | Some refs => safe_source_refs refs
                       | None => []
                       end in
    let scratchpad_ref := scratchpad_source_ref state in
    let source_refs := if existsb (λ r, bool_decide (r = scratchpad_ref)) source_refs then source_refs
                       else source_refs ++ [scratchpad_ref] in
    Some (json_object
      (<["updated_at" := json_string (cap_text (as_updated_at state) 64)]>
      (<["mailbox_pending_count" := json_int (Z.max mailbox_pending_count 0)]>
      (insert_some "summary" (json_string <$> summary) (list_to_map [
        ("conflict_resolution", json_string "latest_summary_wins");
        ("expiry_policy", json_string "on_prune");
        ("source_refs", strings_value (take MAX_MEMORY_SOURCE_REFS source_refs))]))))).

Definition memory_digest_to_metadata_patch (digest : V) : V :=
  json_object {["memory_digest" := digest]}.

Definition build_memory_context_for_node (state : AgentState V) (budget : Z) : option V :=
  digest ← load_memory_digest_from_agent_state state;
  let max_tokens := Z.max budget 1 in
  let summary := default EmptyString (json_get_str digest "summary") in
  let estimated_tokens := estimate_tokens summary in
  let included_tokens := Z.min estimated_tokens max_tokens in
  let truncated := included_tokens <? estimated_tokens in
  let bounded_digest :=
    if truncated then
      match as_object digest with
      | Some obj => json_object
          (<["summary" := json_string (truncate_to_tokens summary included_tokens)]> obj)
      | None => digest
      end
    else digest in
  Some (json_object (list_to_map [
    ("schema_version", json_string "agent_memory_context.v1");
    ("source", json_string "agent_state.metadata.memory_digest");
    ("injection_surface", json_string "node_metadata_only");
    ("max_context_tokens", json_int max_tokens);
    ("estimated_tokens", json_int estimated_tokens);
    ("included_tokens", json_int included_tokens);
    ("truncated", json_bool truncated);
    ("memory_digest", bounded_digest);
    ("context_layers", json_object (list_to_map [
      ("memory_digest", bounded_digest);
      ("freshness", json_string "current");
      ("cache_policy", json_string "no_cache");
      ("pack_prune_policy", json_string "preserve_invariants")]))])).
End memory.
