(* ===== verification/AgentRuntime.v ===== *)
(** * Agents at work: their state, mailbox and proposals

    Model of the SQLite path of storage/local_product_store/agent_runtime.rs.  The
    tables of agents stand beside those of runs and trees in one database; a
    function on it returns its result and the database it leaves.  The text of a
    hash map is that of the object with its fields. *)

From S2P Require Import Prelude Text Json RecursiveExecution Persistence TreeStore NodeExecution AgentMemory.

Local Open Scope Z_scope.

(** ** Tables *)

Record state_row : Type := mkStateRow {
  sr_role : string;
  sr_capability_profile_json : string;
  sr_objective : option string;
  sr_status : string;
  sr_scratchpad_summary : option string;
  sr_redaction_filter : option string;
  sr_metadata_json : string;
  sr_created_at : string;
  sr_updated_at : string;
}.
#[export] Instance eta_state_row : Eta state_row := λ r,
  mkStateRow (sr_role r) (sr_capability_profile_json r) (sr_objective r) (sr_status r)
    (sr_scratchpad_summary r) (sr_redaction_filter r) (sr_metadata_json r) (sr_created_at r)
    (sr_updated_at r).

Record mail_row : Type := mkMailRow {
  mb_correlation_id : option string;
  mb_from_agent_id : string;
  mb_to_agent_id : string;
  mb_run_id : option string;
  mb_node_id : option string;
  mb_message_type : string;
  mb_status : string;
  mb_body : option string;
  mb_body_summary : option string;
  mb_redaction_status : string;
  mb_created_at : string;
  mb_read_at : option string;
  mb_ack_at : option string;
  mb_reply_to_message_id : option string;
  mb_metadata_json : string;
}.
#[export] Instance eta_mail_row : Eta mail_row := λ r,
  mkMailRow (mb_correlation_id r) (mb_from_agent_id r) (mb_to_agent_id r) (mb_run_id r)
    (mb_node_id r) (mb_message_type r) (mb_status r) (mb_body r) (mb_body_summary r)
    (mb_redaction_status r) (mb_created_at r) (mb_read_at r) (mb_ack_at r)
    (mb_reply_to_message_id r) (mb_metadata_json r).

Record proposal_row : Type := mkProposalRow {
  pr_correlation_id : string;
  pr_run_id : string;
  pr_parent_node_id : string;
  pr_agent_id : string;
  pr_target_agent_id : option string;
  pr_proposed_node_id : option string;
  pr_proposed_edge_id : option string;
  pr_proposal_type : string;
  pr_objective : string;
  pr_context_summary : string;
  pr_status : string;
  pr_created_at : string;
  pr_updated_at : string;
}.
#[export] Instance eta_proposal_row : Eta proposal_row := λ r,
  mkProposalRow (pr_correlation_id r) (pr_run_id r) (pr_parent_node_id r) (pr_agent_id r)
    (pr_target_agent_id r) (pr_proposed_node_id r) (pr_proposed_edge_id r) (pr_proposal_type r)
    (pr_objective r) (pr_context_summary r) (pr_status r) (pr_created_at r) (pr_updated_at r).

Record receipt_row : Type := mkReceiptRow {
  rc_agent_id : string;
  rc_action_sha256 : string;
  rc_action_type : string;
  rc_result_json : string;
  rc_created_at : string;
}.
#[export] Instance eta_receipt_row : Eta receipt_row := λ r,
  mkReceiptRow (rc_agent_id r) (rc_action_sha256 r) (rc_action_type r) (rc_result_json r)
    (rc_created_at r).

(** The keys are [(agent_id, run_id)], [message_id], [proposal_id] and
    [(run_id, node_id)]. *)
Record agent_db : Type := mkAgentDb {
  ad_db : database;
  agent_state : gmap (string * string) state_row;
  agent_mailbox : gmap string mail_row;
  agent_proposals : gmap string proposal_row;
  agent_action_receipts : gmap (string * string) receipt_row;
}.
#[export] Instance eta_agent_db : Eta agent_db := λ d,
  mkAgentDb (ad_db d) (agent_state d) (agent_mailbox d) (agent_proposals d)
    (agent_action_receipts d).

(** ** Effects *)

Definition agent_op (A : Type) : Type := agent_db → option (result string A * agent_db).

Definition done {A} (a : A) : agent_op A := λ d, Some (Ok a, d).
Definition refuse {A} (e : string) : agent_op A := λ d, Some (Err e, d).
Definition andthen {A B} (m : agent_op A) (k : A → agent_op B) : agent_op B := λ d,
  match m d with
  | Some (Ok a, d) => k a d
  | Some (Err e, d) => Some (Err e, d)
  | None => None
  end.
Notation "x <-@ m ;; k" := (andthen m (λ x, k))
  (at level 100, m at next level, right associativity) : rust_scope.

Definition select {A} (f : agent_db → A) : agent_op A := λ d, Some (Ok (f d), d).
Definition write (f : agent_db → agent_db) : agent_op unit := λ d, Some (Ok tt, f d).
Definition given {A} (r : result string A) : agent_op A := λ d, Some (r, d).

(** An operation on the tables of runs and trees. *)
Definition on_runs {A} (m : store A) : agent_op A := λ d,
  match m (ad_db d) with
  | Some (r, db) => Some (r, d <| ad_db := db |>)
  | None => None
  end.

(** [match op { Ok(..) => .., Err(..) => .. }]: what the operation wrote stays. *)
Definition attempt {A} (m : agent_op A) : agent_op (result string A) := λ d,
  match m d with
  | Some (r, d) => Some (Ok r, d)
  | None => None
  end.

Fixpoint each {A} (l : list A) (body : A → agent_op unit) : agent_op unit :=
  match l with
  | [] => done tt
  | a :: l => _u <-@ body a ;; each l body
  end.

Definition atomically {A} (m : agent_op A) : agent_op A := λ d,
  match m d with
  | Some (Err e, _) => Some (Err e, d)
  | r => r
  end.

(** [UPDATE .. WHERE key AND guard]: the number of rows is 1 or 0. *)
Definition update_mail (message_id : string) (guard : mail_row → bool) (f : mail_row → mail_row)
    : agent_op bool := λ d,
  match agent_mailbox d !! message_id with
  | Some row => if guard row
                then Some (Ok true, d <| agent_mailbox := <[message_id := f row]> (agent_mailbox d) |>)
                else Some (Ok false, d)
  | None => Some (Ok false, d)
  end.

Definition update_proposal (proposal_id : string) (guard : proposal_row → bool)
    (f : proposal_row → proposal_row) : agent_op bool := λ d,
  match agent_proposals d !! proposal_id with
  | Some row =>
    if guard row
    then Some (Ok true, d <| agent_proposals := <[proposal_id := f row]> (agent_proposals d) |>)
    else Some (Ok false, d)
  | None => Some (Ok false, d)
  end.

Definition pending (row : proposal_row) : bool := bool_decide (pr_status row = "pending").
Definition in_run (run_id : string) (row : proposal_row) : bool := bool_decide (pr_run_id row = run_id).

Definition PROPOSAL_STATUSES : list string := ["pending"; "accepted"; "rejected"; "cancelled"].
Definition PROPOSAL_TYPES : list string :=
  ["child_task"; "handoff"; "review_request"; "review_verdict"; "debate_request";
   "debate_position"; "debate_resolution"].

Section agent_runtime.
Context `{RE : Regex} {V : Type} `{JV : JsonValue V} `{JT : JsonText V} `{JN : JsonNumbers V}.

Definition audit (now actor action resource : string) (details : V) : agent_op unit :=
  on_runs (execute (λ db, db <| audit_log := audit_log db
    ++ [mkAuditRow now actor action resource (json_print details)] |>)).

Definition object_of (fields : list (string * V)) : V := json_object (list_to_map fields).

(** ** Agent state *)

Definition normalize_agent_memory_metadata (metadata : V) (run_id agent_id : string) : V :=
  match as_object metadata with
  | None => metadata
  | Some obj =>
    match obj !! "memory_digest" with
    | None => metadata
    | Some raw_digest =>
      json_object
        match normalize_memory_digest_for_agent raw_digest run_id agent_id with
        | Some digest => <["memory_digest" := digest]> obj
        | None => delete "memory_digest" obj
        end
    end
  end.

(** [serde_json::from_str::<Vec<String>>(..).unwrap_or_default()]. *)
Definition strings_of_json (text : string) : list string :=
  default [] (json_parse text ≫= λ v, as_array v ≫= mapM as_str).

(** The object a text holds, or an empty one. *)
Definition object_of_json (text : string) : gmap string V :=
  default ∅ (as_object (default json_null (json_parse text))).

Definition sqlite_agent_state_row (agent_id run_id : string) (row : state_row) : AgentState V :=
  mkAgentState V agent_id run_id (sr_role row) (strings_of_json (sr_capability_profile_json row))
    (sr_objective row) (sr_status row) (sr_scratchpad_summary row) (sr_redaction_filter row)
    (object_of_json (sr_metadata_json row)) (sr_created_at row) (sr_updated_at row).

Definition create_agent_state (agent_id run_id role : string) (capability_profile : list string)
    (objective : option string) (status : string) (metadata : V) (now : string)
    : agent_op (AgentState V) :=
  let meta_json := json_print (normalize_agent_memory_metadata metadata run_id agent_id) in
  let row := mkStateRow role (json_print (strings_value capability_profile)) objective status None
    None meta_json now now in
  existing <-@ select (λ d, is_some (agent_state d !! (agent_id, run_id))) ;;
  if existing then refuse "UNIQUE constraint failed: agent_state.agent_id, agent_state.run_id"
  else
    _u <-@ write (λ d, d <| agent_state := <[(agent_id, run_id) := row]> (agent_state d) |>) ;;
    _u <-@ audit now "system" "agent_state.create" ("agent_state/" +:+ agent_id +:+ "/" +:+ run_id)
      (object_of [("agent_id", json_string agent_id); ("run_id", json_string run_id);
                  ("role", json_string role)]) ;;
    done (sqlite_agent_state_row agent_id run_id row).

(** [digest.insert("updated_at", now)] in the digest of the metadata. *)
Definition touch_digest (now : string) (metadata : gmap string V) : gmap string V :=
  match metadata !! "memory_digest" ≫= as_object with
  | Some digest =>
    <["memory_digest" := json_object (<["updated_at" := json_string now]> digest)]> metadata
  | None => metadata
  end.

Definition apply_agent_state_patch (state : AgentState V) (run_id agent_id : string)
    (status scratchpad_summary objective : option string) (metadata : option V) (now : string)
    : result string (AgentState V * string * string) :=
  let memory_digest_was_patched :=
    match metadata ≫= as_object with
    | Some object => is_some (object !! "memory_digest")
    | None => false
    end in
  let metadata := (λ value, normalize_agent_memory_metadata value run_id agent_id) <$> metadata in
  let state := match status with Some value => state <| as_status := value |> | None => state end in
  let state := match scratchpad_summary with
               | Some value => state <| as_scratchpad_summary :=
                   Some (apply_size_cap_and_redact value MAX_SCRATCHPAD_BYTES) |>
               | None => state
               end in
  let state := match objective with
               | Some value => state <| as_objective := Some value |>
               | None => state
               end in
  let kept := if memory_digest_was_patched then delete "memory_digest" (as_metadata state)
              else as_metadata state in
  let merged := match metadata ≫= as_object with Some object => object ∪ kept | None => kept end in
  let normalized := normalize_agent_memory_metadata (json_object merged) run_id agent_id in
  stored <-? ok_or (as_object normalized) "invalid type: expected a map" ;;
  let stored := if memory_digest_was_patched then touch_digest now stored else stored in
  let state := state <| as_metadata := stored |> <| as_updated_at := now |> in
  Ok (state, json_print (strings_value (as_capability_profile state)),
      json_print (json_object (as_metadata state))).

Definition update_agent_state (agent_id run_id : string)
    (status scratchpad_summary objective : option string) (metadata : option V) (now : string)
    : agent_op (option (AgentState V)) :=
  atomically (
    current <-@ select (λ d, agent_state d !! (agent_id, run_id)) ;;
    match current with
    | None => done None
    | Some row =>
      patched <-@ given (apply_agent_state_patch (sqlite_agent_state_row agent_id run_id row)
        run_id agent_id status scratchpad_summary objective metadata now) ;;
      let '(state, caps_json, meta_json) := patched in
      let row := mkStateRow (as_role state) caps_json (as_objective state) (as_status state)
        (as_scratchpad_summary state) (as_redaction_filter state) meta_json (sr_created_at row)
        (as_updated_at state) in
      _u <-@ write (λ d, d <| agent_state := <[(agent_id, run_id) := row]> (agent_state d) |>) ;;
      _u <-@ audit now "system" "agent_state.update" ("agent_state/" +:+ agent_id +:+ "/" +:+ run_id)
        (object_of [("agent_id", json_string agent_id); ("run_id", json_string run_id)]) ;;
      done (Some state)
    end).

Definition get_agent_state (agent_id run_id : string) : agent_op (option (AgentState V)) :=
  select (λ d, sqlite_agent_state_row agent_id run_id <$> agent_state d !! (agent_id, run_id)).

Definition delete_agent_state (agent_id run_id : string) (now : string) : agent_op bool :=
  existing <-@ select (λ d, is_some (agent_state d !! (agent_id, run_id))) ;;
  _u <-@ write (λ d, d <| agent_state := delete (agent_id, run_id) (agent_state d) |>) ;;
  _u <-@ (if existing
          then audit now "system" "agent_state.delete" ("agent_state/" +:+ agent_id +:+ "/" +:+ run_id)
                 (object_of [("agent_id", json_string agent_id); ("run_id", json_string run_id)])
          else done tt) ;;
  done existing.

(** ** Mailbox *)

Record MailboxMessage : Type := mkMailboxMessage {
  mm_message_id : string;
  mm_row : mail_row;
  mm_metadata : gmap string V;
}.

Definition sqlite_mailbox_row (message_id : string) (row : mail_row) : MailboxMessage :=
  mkMailboxMessage message_id row (object_of_json (mb_metadata_json row)).

Definition insert_message (message_id : string) (row : mail_row) : agent_op unit :=
  existing <-@ select (λ d, is_some (agent_mailbox d !! message_id)) ;;
  if existing then refuse "UNIQUE constraint failed: agent_mailbox.message_id"
  else write (λ d, d <| agent_mailbox := <[message_id := row]> (agent_mailbox d) |>).

(** A message as it is stored, with its body redacted and cut. *)
Definition new_message (from_agent_id to_agent_id message_type : string) (body : option string)
    (correlation_id run_id node_id reply_to_message_id : option string) (metadata_json now : string)
    : mail_row :=
  let '(safe_body, redaction_status) := redact_message_body body in
  mkMailRow correlation_id from_agent_id to_agent_id run_id node_id message_type "pending" safe_body
    ((λ b, apply_size_cap b MAX_BODY_SUMMARY_BYTES) <$> safe_body) redaction_status now None None
    reply_to_message_id metadata_json.

Definition send_audit (message_id : string) (row : mail_row) (now : string) : agent_op unit :=
  audit now ("agent:" +:+ mb_from_agent_id row) "agent_mailbox.send" ("agent_mailbox/" +:+ message_id)
    (object_of [("message_id", json_string message_id);
                ("from_agent_id", json_string (mb_from_agent_id row));
                ("to_agent_id", json_string (mb_to_agent_id row));
                ("message_type", json_string (mb_message_type row));
                ("redaction_status", json_string (mb_redaction_status row))]).

Definition send_message (message_id from_agent_id to_agent_id message_type : string)
    (body correlation_id run_id node_id reply_to_message_id : option string) (metadata : V)
    (now : string) : agent_op MailboxMessage :=
  let row := new_message from_agent_id to_agent_id message_type body correlation_id run_id node_id
    reply_to_message_id (json_print metadata) now in
  _u <-@ insert_message message_id row ;;
  _u <-@ send_audit message_id row now ;;
  done (sqlite_mailbox_row message_id row).

Definition read_message (message_id : string) : agent_op (option MailboxMessage) :=
  select (λ d, sqlite_mailbox_row message_id <$> agent_mailbox d !! message_id).

(** The audit of a message that changed, and the message. *)
Definition message_changed (action message_id now : string) (affected : bool)
    : agent_op (option MailboxMessage) :=
  if affected then
    _u <-@ audit now "system" action ("agent_mailbox/" +:+ message_id)
      (object_of [("message_id", json_string message_id)]) ;;
    read_message message_id
  else done None.

Definition mark_message_read (message_id now : string) : agent_op (option MailboxMessage) :=
  affected <-@ update_mail message_id (λ row, bool_decide (mb_status row = "pending"))
    (λ row, row <| mb_status := "read" |> <| mb_read_at := Some now |>) ;;
  message_changed "agent_mailbox.read" message_id now affected.

Definition ack_message (message_id now : string) : agent_op (option MailboxMessage) :=
  affected <-@ update_mail message_id (λ row, bool_decide (mb_status row ∈ ["pending"; "read"]))
    (λ row, row <| mb_status := "acked" |> <| mb_ack_at := Some now |>) ;;
  message_changed "agent_mailbox.ack" message_id now affected.

Definition ack_message_for_agent (message_id agent_id run_id now : string)
    : agent_op (option MailboxMessage) :=
  msg <-@ read_message message_id ;;
  match msg with
  | None => done None
  | Some msg =>
    if negb (bool_decide (mb_to_agent_id (mm_row msg) = agent_id))
    then refuse ("agent " +:+ agent_id +:+ " is not the target of message " +:+ message_id)
    else
      match mb_run_id (mm_row msg) with
      | Some mid =>
        if bool_decide (mid = run_id) then ack_message message_id now
        else refuse ("message " +:+ message_id +:+ " has run_id '" +:+ mid +:+ "', not '" +:+ run_id
                     +:+ "'")
      | None => refuse ("message " +:+ message_id
          +:+ " has no run_id; agent-scoped ack requires run_id '" +:+ run_id +:+ "'")
      end
  end.

Definition reply_to_message (reply_message_id original_message_id from_agent_id to_agent_id
    message_type : string) (body : option string) (metadata : V) (now : string)
    : agent_op (option MailboxMessage) :=
  original <-@ read_message original_message_id ;;
  match original with
  | None => done None
  | Some original =>
    let correlation_id := default original_message_id (mb_correlation_id (mm_row original)) in
    sent <-@ send_message reply_message_id from_agent_id to_agent_id message_type body
      (Some correlation_id) (mb_run_id (mm_row original)) (mb_node_id (mm_row original))
      (Some original_message_id) metadata now ;;
    _n <-@ update_mail original_message_id (λ _, true) (λ row, row <| mb_status := "replied" |>) ;;
    done (Some sent)
  end.

(** ** Proposals *)

Definition insert_proposal (proposal_id : string) (row : proposal_row) : agent_op unit :=
  existing <-@ select (λ d, is_some (agent_proposals d !! proposal_id)) ;;
  if existing then refuse "UNIQUE constraint failed: agent_proposals.proposal_id"
  else write (λ d, d <| agent_proposals := <[proposal_id := row]> (agent_proposals d) |>).

Definition proposal_audit (proposal_id : string) (row : proposal_row) (now : string) : agent_op unit :=
  audit now ("agent:" +:+ pr_agent_id row) "agent_proposal.create" ("agent_proposal/" +:+ proposal_id)
    (object_of [("proposal_id", json_string proposal_id);
                ("correlation_id", json_string (pr_correlation_id row));
                ("proposal_type", json_string (pr_proposal_type row));
                ("run_id", json_string (pr_run_id row));
                ("agent_id", json_string (pr_agent_id row));
                ("parent_node_id", json_string (pr_parent_node_id row))]).

Definition create_proposal (proposal_id correlation_id run_id parent_node_id agent_id proposal_type
    objective context_summary : string)
    (target_agent_id proposed_node_id proposed_edge_id : option string) (now : string)
    : agent_op string :=
  if negb (bool_decide (proposal_type ∈ PROPOSAL_TYPES)) then
    refuse ("invalid proposal_type '" +:+ proposal_type +:+ "', expected one of "
            +:+ join ", " PROPOSAL_TYPES)
  else if (MAX_PROPOSAL_OBJECTIVE_BYTES <? String.length objective)%nat then
    refuse ("objective exceeds max size of " +:+ pretty (Z.of_nat MAX_PROPOSAL_OBJECTIVE_BYTES)
            +:+ " bytes")
  else
    let context := apply_size_cap context_summary MAX_PROPOSAL_CONTEXT_BYTES in
    let row := mkProposalRow correlation_id run_id parent_node_id agent_id target_agent_id
      proposed_node_id proposed_edge_id proposal_type
      (apply_size_cap_and_redact objective MAX_PROPOSAL_OBJECTIVE_BYTES)
      (apply_size_cap_and_redact context MAX_PROPOSAL_CONTEXT_BYTES) "pending" now now in
    _u <-@ insert_proposal proposal_id row ;;
    _u <-@ proposal_audit proposal_id row now ;;
    done proposal_id.

Definition with_status (new_status now : string) (row : proposal_row) : proposal_row :=
  row <| pr_status := new_status |> <| pr_updated_at := now |>.

Definition with_context (context now : string) (row : proposal_row) : proposal_row :=
  row <| pr_context_summary := context |> <| pr_updated_at := now |>.

Definition update_proposal_status (proposal_id new_status now : string) : agent_op bool :=
  if negb (bool_decide (new_status ∈ PROPOSAL_STATUSES)) then
    refuse ("invalid status '" +:+ new_status +:+ "', expected one of " +:+ join ", " PROPOSAL_STATUSES)
  else
    affected <-@ update_proposal proposal_id pending (with_status new_status now) ;;
    _u <-@ (if affected
            then audit now "system" "agent_proposal.update_status" ("agent_proposal/" +:+ proposal_id)
                   (object_of [("proposal_id", json_string proposal_id);
                               ("new_status", json_string new_status)])
            else done tt) ;;
    done affected.

Definition update_proposal_context_summary (proposal_id new_context_summary now : string)
    : agent_op bool :=
  update_proposal proposal_id (λ _, true)
    (with_context (apply_size_cap new_context_summary MAX_PROPOSAL_CONTEXT_BYTES) now).

Definition open_debate (run_id : string) (row : proposal_row) : bool :=
  pending row && in_run run_id row && bool_decide (pr_proposal_type row = "debate_request").

(** [serde_json::from_str(..).unwrap_or(json!({}))["current_round"].as_u64().unwrap_or(0)]. *)
Definition current_round (context : string) : Z :=
  default 0 (json_parse context ≫= λ ctx, json_get ctx "current_round" ≫= as_u64).

Definition update_debate_round_if_pending (proposal_id run_id : string) (expected_current_round : Z)
    (new_context_summary now : string) : agent_op bool :=
  found <-@ select (λ d, agent_proposals d !! proposal_id) ;;
  match found with
  | Some row =>
    if negb (open_debate run_id row) then done false
    else if negb (current_round (pr_context_summary row) =? expected_current_round) then done false
    else update_proposal proposal_id
           (λ r, open_debate run_id r && bool_decide (pr_context_summary r = pr_context_summary row))
           (with_context (apply_size_cap new_context_summary MAX_PROPOSAL_CONTEXT_BYTES) now)
  | None => done false
  end.
End agent_runtime.
