(* ===== verification/AgentActions.v ===== *)
(** * Agent actions, applied once

    Model of the SQLite path of storage/local_product_store/
    agent_action_receipts.rs: an action of an agent is a list of operations that
    is applied in one transaction together with its receipt, and a second
    application of the same action returns the receipt.  The text of a parser's
    error is left out of messages. *)

From S2P Require Import Prelude Text Json RecursiveExecution Persistence TreeStore NodeExecution WorkflowRuns RunGraph AgentMemory AgentRuntime.
Import FailureReason (RecursiveFailureReason).

Local Open Scope Z_scope.

(** The order in which a query returns the rows of the mailbox or of the proposals. *)
Class TableOrder : Type := {
  table_rows : ∀ {A}, gmap string A → list (string * A);
  table_rows_perm : ∀ {A} (m : gmap string A), table_rows m ≡ₚ map_to_list m;
}.

Section agent_actions.
Context `{RE : Regex} {V : Type} `{EV : EqDecision V} `{JV : JsonValue V} `{JT : JsonText V}
  `{JN : JsonNumbers V} `{SD : StoreDecoders V} `{Deps : RecursiveDeps} `{TE : TreeEncoder}
  `{TO : TableOrder}.

Inductive AgentMutationOp : Type :=
  | UpdateAgentState (expected_updated_at : string) (status scratchpad_summary : option string)
      (metadata_patch : option V)
  | AckMessage (message_id : string)
  | InsertProposal (proposal_id correlation_id parent_node_id proposal_type objective
      context_summary : string) (target_agent_id proposed_node_id proposed_edge_id : option string)
  | PersistRecursiveTree (tree : RecursiveTree) (expected_version : option Z)
  | PersistRecursiveWorkflow (node edge : V)
  | UpdateProposalStatus (proposal_id new_status : string)
  | UpdateProposalStatusBound (proposal_id new_status expected_proposal_type
      expected_correlation_id : string) (expected_owner_agent_id expected_target_agent_id
      : option string) (expected_review_blocking : option bool)
  | UpdateDebateContext (proposal_id expected_correlation_id expected_context_summary
      new_context_summary : string)
  | InsertMessage (message_id from_agent_id to_agent_id message_type : string)
      (body correlation_id reply_to_message_id : option string) (metadata : V)
  | AppendAudit (action resource : string) (details : V).

Record AgentActionMutation : Type := mkMutation {
  am_run_id : string;
  am_node_id : string;
  am_agent_id : string;
  am_action_sha256 : string;
  am_action_type : string;
  am_result_json : string;
  am_operations : list AgentMutationOp;
}.

Definition validate_mutation (mutation : AgentActionMutation) : result string unit :=
  bail is_empty (am_run_id mutation) || is_empty (am_node_id mutation)
    || is_empty (am_agent_id mutation) || is_empty (am_action_type mutation)
    || negb (str_len (am_action_sha256 mutation) =? 64)
    || negb (all_hex (am_action_sha256 mutation))
    with Err "invalid agent action mutation identity or hash" ;;
  bail is_none (json_parse (V := V) (am_result_json mutation))
    with Err "invalid agent action result JSON" ;;
  Ok tt.

(** [require_one(affected, message)]. *)
Definition require_one (affected : bool) (message : string) : agent_op unit :=
  if affected then done tt else refuse message.

(** The status of a proposal of the run. *)
Definition proposal_status (run_id proposal_id : string) (d : agent_db) : option string :=
  row ← agent_proposals d !! proposal_id;
  if in_run run_id row then Some (pr_status row) else None.

Definition decide_proposal (run_id proposal_id new_status now : string) : agent_op bool :=
  update_proposal proposal_id (λ row, in_run run_id row && pending row) (with_status new_status now).

Definition mark_recursive_proposals_accepted (mutation : AgentActionMutation) (tree : RecursiveTree)
    (now : string) : agent_op unit :=
  each (sort_strings (elements (accepted_proposals tree))) (λ proposal_id,
    status <-@ select (proposal_status (am_run_id mutation) proposal_id) ;;
    if bool_decide (status = Some "pending") then
      updated <-@ decide_proposal (am_run_id mutation) proposal_id "accepted" now ;;
      require_one updated "recursive proposal acceptance raced"
    else if bool_decide (status = Some "accepted") then done tt
    else if bool_decide (status = Some "rejected") then refuse "recursive proposal was rejected"
    else refuse "recursive proposal record is missing").

(** The name serde gives a failure reason. *)
Definition reason_value (reason : RecursiveFailureReason) : V :=
  json_string match reason with
              | FailureReason.ExecutionFailure => "execution_failure"
              | FailureReason.RetryExhausted => "retry_exhausted"
              | reason => FailureReason.reason_as_str reason
              end.

Definition mark_recursive_proposals_rejected (mutation : AgentActionMutation) (tree : RecursiveTree)
    (now : string) : agent_op unit :=
  each (btree_iter (rejected_proposals tree)) (λ '(proposal_id, evidence),
    status <-@ select (proposal_status (am_run_id mutation) proposal_id) ;;
    if bool_decide (status = Some "pending") then
      updated <-@ decide_proposal (am_run_id mutation) proposal_id "rejected" now ;;
      _u <-@ require_one updated "recursive proposal rejection raced" ;;
      audit now ("agent:" +:+ am_agent_id mutation) "agent_step.recursive_proposal_rejected"
        ("agent_proposal/" +:+ proposal_id)
        (object_of [("run_id", json_string (am_run_id mutation));
                    ("proposal_id", json_string proposal_id);
                    ("reason_code", reason_value (reason_code evidence));
                    ("evidence_refs", strings_value (evidence_refs evidence))])
    else if bool_decide (status = Some "rejected") then done tt
    else if bool_decide (status = Some "accepted")
    then refuse "recursive proposal was already accepted"
    else refuse "recursive proposal record is missing").

(** ** Receipts *)

Definition recursive_rejection_result_json (mutation : AgentActionMutation) (reason : string)
    : result string string :=
  result <-? ok_or (json_parse (am_result_json mutation)) "invalid recursive action result JSON" ;;
  object <-? ok_or (as_object result) "recursive action result must be an object" ;;
  Ok (json_print (json_object (<["reason_code" := json_string reason]>
    (<["decision" := json_string "rejected"]> (<["recursive_node_id" := json_null]> object))))).

Definition verify_existing_receipt (existing : option receipt_row) (mutation : AgentActionMutation)
    : result string (option string) :=
  match existing with
  | None => Ok None
  | Some row =>
    if negb (bool_decide (rc_action_sha256 row = am_action_sha256 mutation))
       || negb (bool_decide (rc_agent_id row = am_agent_id mutation))
    then Err ("agent action receipt conflict for " +:+ am_run_id mutation +:+ "/" +:+ am_node_id mutation)
    else Ok (Some (rc_result_json row))
  end.

Definition receipt_key (mutation : AgentActionMutation) : string * string :=
  (am_run_id mutation, am_node_id mutation).

Definition existing_receipt (mutation : AgentActionMutation) (d : agent_db)
    : result string (option string) :=
  verify_existing_receipt (agent_action_receipts d !! receipt_key mutation) mutation.

(** What an agent that resumes a node finds. *)
Definition committed_agent_action_result (run_id node_id agent_id : string) (d : agent_db)
    : result string (option string) :=
  match agent_action_receipts d !! (run_id, node_id) with
  | None => Ok None
  | Some row =>
    bail negb (bool_decide (rc_agent_id row = agent_id))
      with Err ("agent action receipt agent binding changed for " +:+ run_id +:+ "/" +:+ node_id) ;;
    bail is_none (json_parse (V := V) (rc_result_json row))
      with Err "invalid stored agent action result JSON" ;;
    Ok (Some (rc_result_json row))
  end.

(** ** The workflow node of an admitted child *)

Definition option_value (o : option string) : V :=
  match o with Some s => json_string s | None => json_null end.
Definition set_value (set : gset string) : V := strings_value (sort_strings (elements set)).

(** [json!(scope)]. *)
Definition scope_value (scope : RecursiveScope) : V :=
  object_of [("repository", option_value (repository scope));
             ("allowed_paths", set_value (allowed_paths scope));
             ("capabilities", set_value (scope_capabilities scope))].

Definition validate_recursive_workflow_payload (tree : RecursiveTree) (node edge : V)
    (agent_id : string) : result string unit :=
  workflow_node_id <-? ok_or (json_get_str node "node_id")
    "recursive workflow node identity is missing" ;;
  recursive_node_id <-? ok_or (json_get_str node "recursive_node_id")
    "recursive workflow recursive_node_id is missing" ;;
  proposal_id <-? ok_or (json_get_str node "proposal_id")
    "recursive workflow proposal identity is missing" ;;
  bail negb (bool_decide (workflow_node_id = recursive_node_id))
    || negb (bool_decide (proposal_id ∈ accepted_proposals tree))
    || is_none (receipts tree !! proposal_id)
    || negb (bool_decide (json_get_str node "task_type" = Some "agent_step"))
    || negb (bool_decide (json_get_str node "status" = Some "pending"))
    || negb (bool_decide (json_get node "attempt_count" ≫= as_i64 = Some 0))
    || negb (bool_decide (json_get_str node "agent_id" = Some agent_id))
    || negb (bool_decide (json_get_str node "acceptance_reason" = Some "accepted"))
    with Err "recursive workflow node is not bound to accepted tree proposal" ;;
  recursive_node <-? ok_or (nodes tree !! recursive_node_id)
    "recursive workflow node is missing from tree" ;;
  bail negb (bool_decide (n_proposal_id recursive_node = Some proposal_id))
    || negb (bool_decide (json_get_str node "parent_node_id" = n_parent_node_id recursive_node))
    || negb (bool_decide (json_get_str node "objective_fingerprint"
                          = Some (n_objective_fingerprint recursive_node)))
    || negb (bool_decide (json_get node "evidence_refs"
                          = Some (strings_value (n_evidence_refs recursive_node))))
    || negb (bool_decide (json_get node "recursive_capabilities"
                          = Some (set_value (n_capabilities recursive_node))))
    || negb (bool_decide (json_get node "recursive_scope" = Some (scope_value (n_scope recursive_node))))
    || negb (bool_decide (json_get node "recursive_tenant_id"
                          = Some (option_value (n_tenant_id recursive_node))))
    || negb (bool_decide (json_get node "recursive_workspace_id"
                          = Some (option_value (n_workspace_id recursive_node))))
    with Err "recursive workflow node does not match accepted tree snapshot" ;;
  edge_id <-? ok_or (json_get_str edge "edge_id") "recursive workflow edge identity is missing" ;;
  bail negb (bool_decide (edge_id = "recursive-edge-" +:+ workflow_node_id))
    || negb (bool_decide (json_get_str edge "from_node_id" = n_parent_node_id recursive_node))
    || negb (bool_decide (json_get_str edge "to_node_id" = Some workflow_node_id))
    || negb (bool_decide (json_get_str edge "edge_type" = Some "dependency"))
    || negb (bool_decide (json_get edge "recursive" = Some (json_bool true)))
    with Err "recursive workflow edge does not match accepted tree snapshot" ;;
  Ok tt.

Definition validate_recursive_workflow_mutation (root_run_id : string) (node edge : V)
    (agent_id : string) : store unit :=
  tree <-! load_existing root_run_id ;;
  lift (validate_recursive_workflow_payload tree node edge agent_id).

(** ** The operations *)

Definition merge_agent_metadata_value (raw : string) (patch : option V) (now : string)
    : result string string :=
  metadata <-? ok_or (json_parse raw) "invalid stored agent metadata" ;;
  object <-? ok_or (as_object metadata) "stored agent metadata must be an object" ;;
  merged <-? match patch with
             | Some patch =>
               patch <-? ok_or (as_object patch) "agent metadata patch must be an object" ;;
               Ok (patch ∪ object)
             | None => Ok object
             end ;;
  Ok (json_print (json_object (touch_digest now merged))).

Definition apply_update_agent_state (mutation : AgentActionMutation) (expected_updated_at : string)
    (status scratchpad_summary : option string) (metadata_patch : option V) (now : string)
    : agent_op unit :=
  let key := (am_agent_id mutation, am_run_id mutation) in
  row <-@ select (λ d, row ← agent_state d !! key;
                        if bool_decide (sr_updated_at row = expected_updated_at) then Some row
                        else None) ;;
  match row with
  | None => refuse "agent state changed concurrently"
  | Some row =>
    metadata_json <-@ given (merge_agent_metadata_value (sr_metadata_json row) metadata_patch now) ;;
    let scratchpad_summary :=
      (λ value, apply_size_cap_and_redact value MAX_SCRATCHPAD_BYTES) <$> scratchpad_summary in
    write (λ d, d <| agent_state := <[key := row
      <| sr_status := default (sr_status row) status |>
      <| sr_scratchpad_summary := match scratchpad_summary with
                                  | Some summary => Some summary
                                  | None => sr_scratchpad_summary row
                                  end |>
      <| sr_metadata_json := metadata_json |>
      <| sr_updated_at := now |>]> (agent_state d) |>)
  end.

Definition apply_ack_message (mutation : AgentActionMutation) (message_id now : string)
    : agent_op unit :=
  affected <-@ update_mail message_id
    (λ row, bool_decide (mb_to_agent_id row = am_agent_id mutation)
            && bool_decide (mb_run_id row = Some (am_run_id mutation))
            && bool_decide (mb_status row = "pending"))
    (λ row, row <| mb_status := "acked" |> <| mb_ack_at := Some now |>) ;;
  require_one affected "message not found or already acknowledged".

Definition apply_insert_proposal (mutation : AgentActionMutation) (proposal_id correlation_id
    parent_node_id proposal_type objective context_summary : string)
    (target_agent_id proposed_node_id proposed_edge_id : option string) (now : string)
    : agent_op unit :=
  let row := mkProposalRow correlation_id (am_run_id mutation) parent_node_id (am_agent_id mutation)
    target_agent_id proposed_node_id proposed_edge_id proposal_type
    (apply_size_cap_and_redact objective MAX_PROPOSAL_OBJECTIVE_BYTES)
    (apply_size_cap_and_redact context_summary MAX_PROPOSAL_CONTEXT_BYTES) "pending" now now in
  _u <-@ insert_proposal proposal_id row ;;
  proposal_audit proposal_id row now.

Definition reject_lost (mutation : AgentActionMutation) (now : string) (lost : string * string)
    : agent_op unit :=
  let '(proposal_id, reason) := lost in
  _n <-@ decide_proposal (am_run_id mutation) proposal_id "rejected" now ;;
  audit now ("agent:" +:+ am_agent_id mutation) "agent_step.recursive_proposal_rejected"
    ("agent_proposal/" +:+ proposal_id)
    (object_of [("run_id", json_string (am_run_id mutation));
                ("proposal_id", json_string proposal_id); ("reason_code", json_string reason);
                ("evidence_persisted", json_bool true)]).

(** The race was lost: the stored tree is another one. *)
Definition reject_stale_tree (mutation : AgentActionMutation) (tree : RecursiveTree) (now : string)
    : agent_op unit :=
  rejected <-@ on_runs (record_recursive_cas_rejection tree now) ;;
  _u <-@ match rejected with
         | [] => done tt
         | (_, reason) :: _ =>
           result_json <-@ given (recursive_rejection_result_json mutation reason) ;;
           found <-@ select (λ d, match agent_action_receipts d !! receipt_key mutation with
                                   | Some row => bool_decide (rc_action_sha256 row
                                                              = am_action_sha256 mutation)
                                   | None => false
                                   end) ;;
           _u <-@ write (λ d, d <| agent_action_receipts :=
             alter (λ row, if bool_decide (rc_action_sha256 row = am_action_sha256 mutation)
                           then row <| rc_result_json := result_json |> else row)
               (receipt_key mutation) (agent_action_receipts d) |>) ;;
           require_one found "recursive rejection receipt update failed"
         end ;;
  each rejected (reject_lost mutation now).

Definition apply_persist_tree (mutation : AgentActionMutation) (tree : RecursiveTree)
    (expected_version : option Z) (now : string) : agent_op unit :=
  persisted <-@ attempt (on_runs (persist_recursive_tree tree now expected_version)) ;;
  match persisted with
  | Ok _ =>
    _u <-@ mark_recursive_proposals_accepted mutation tree now ;;
    mark_recursive_proposals_rejected mutation tree now
  | Err error =>
    if bool_decide (error = "stale_parent") then reject_stale_tree mutation tree now
    else refuse error
  end.

Definition recursive_event (mutation : AgentActionMutation) (node_id : option string)
    (kind now : string) : store unit :=
  insert_workflow_run_event_locked (am_run_id mutation) node_id kind
    ("agent:" +:+ am_agent_id mutation)
    [("recursive", json_bool true); ("metadata_only", json_bool true)] now.

Definition insert_recursive_child (mutation : AgentActionMutation) (node edge : V) (now : string)
    : store unit :=
  _u <-! validate_recursive_workflow_mutation (am_run_id mutation) node edge (am_agent_id mutation) ;;
  _u <-! insert_recursive_workflow_run_node_locked (am_run_id mutation) node ;;
  _u <-! insert_recursive_workflow_run_edge_locked (am_run_id mutation) edge ;;
  _u <-! recursive_event mutation (json_get_str node "node_id") "dag.mutation.node_added" now ;;
  recursive_event mutation None "dag.mutation.edge_added" now.

Definition apply_persist_workflow (mutation : AgentActionMutation) (node edge : V) (now : string)
    : agent_op unit :=
  proposal_id <-@ given (ok_or (json_get_str node "proposal_id")
    "recursive proposal identity is missing") ;;
  status <-@ select (proposal_status (am_run_id mutation) proposal_id) ;;
  if bool_decide (status = Some "rejected") then done tt
  else
    _u <-@ (if bool_decide (status = Some "accepted") then done tt
            else if negb (bool_decide (status = Some "pending"))
            then refuse "recursive proposal is not pending"
            else
              updated <-@ decide_proposal (am_run_id mutation) proposal_id "accepted" now ;;
              require_one updated "recursive proposal acceptance raced") ;;
    on_runs (insert_recursive_child mutation node edge now).

(** A message that carries the review request of the proposal. *)
Definition review_message (proposal : proposal_row) (row : mail_row) : bool :=
  bool_decide (mb_run_id row = Some (pr_run_id proposal))
  && bool_decide (mb_node_id row = Some (pr_parent_node_id proposal))
  && bool_decide (mb_message_type row = "review_request")
  && bool_decide (mb_correlation_id row = Some (pr_correlation_id proposal))
  && bool_decide (mb_from_agent_id row = pr_agent_id proposal)
  && bool_decide (Some (mb_to_agent_id row) = pr_target_agent_id proposal).

(** The rows of the join of the mailbox with the proposal. *)
Definition review_metadata (mutation : AgentActionMutation) (proposal_id proposal_type correlation_id
    owner target : string) (d : agent_db) : list string :=
  match agent_proposals d !! proposal_id with
  | Some proposal =>
    if in_run (am_run_id mutation) proposal && pending proposal
       && bool_decide (pr_proposal_type proposal = proposal_type)
       && bool_decide (pr_correlation_id proposal = correlation_id)
       && bool_decide (pr_agent_id proposal = owner)
       && bool_decide (pr_target_agent_id proposal = Some target)
    then mb_metadata_json <$>
           filter (λ row, review_message proposal row = true) (table_rows (agent_mailbox d)).*2
    else []
  | None => []
  end.

(** The number of messages about the proposal. *)
Fixpoint matching_reviews (metadata_rows : list string) (proposal_id : string)
    (expected_blocking : bool) : result string Z :=
  match metadata_rows with
  | [] => Ok 0
  | raw :: metadata_rows =>
    metadata <-? ok_or (json_parse raw) "invalid stored review mailbox metadata" ;;
    if negb (bool_decide (json_get_str metadata "proposal_id" = Some proposal_id))
    then matching_reviews metadata_rows proposal_id expected_blocking
    else if negb (bool_decide (json_get metadata "blocking" ≫= as_bool = Some expected_blocking))
    then Err "review request blocking evidence binding changed"
    else
      matching <-? matching_reviews metadata_rows proposal_id expected_blocking ;;
      Ok (matching + 1)
  end.

Definition validate_review_mailbox_metadata (metadata_rows : list string) (proposal_id : string)
    (expected_blocking : bool) : result string unit :=
  matching <-? matching_reviews metadata_rows proposal_id expected_blocking ;;
  if matching =? 1 then Ok tt else Err "review request mailbox evidence binding changed".

Definition validate_review_mailbox_binding (mutation : AgentActionMutation)
    (proposal_id expected_proposal_type expected_correlation_id : string)
    (expected_owner_agent_id expected_target_agent_id : option string) (expected_blocking : bool)
    (d : agent_db) : result string unit :=
  bail negb (bool_decide (expected_proposal_type = "review_request"))
    with Err "review mailbox binding requires a review_request proposal" ;;
  owner <-? ok_or expected_owner_agent_id "review mailbox binding requires the request owner" ;;
  target <-? ok_or expected_target_agent_id "review mailbox binding requires the target reviewer" ;;
  validate_review_mailbox_metadata
    (review_metadata mutation proposal_id expected_proposal_type expected_correlation_id owner target d)
    proposal_id expected_blocking.

Definition apply_update_bound (mutation : AgentActionMutation) (proposal_id new_status
    expected_proposal_type expected_correlation_id : string)
    (expected_owner_agent_id expected_target_agent_id : option string)
    (expected_review_blocking : option bool) (now : string) : agent_op unit :=
  checked <-@ select (λ d, match expected_review_blocking with
    | Some expected_blocking => validate_review_mailbox_binding mutation proposal_id
        expected_proposal_type expected_correlation_id expected_owner_agent_id
        expected_target_agent_id expected_blocking d
    | None => Ok tt
    end) ;;
  _u <-@ given checked ;;
  affected <-@ update_proposal proposal_id
    (λ row, in_run (am_run_id mutation) row && pending row
            && bool_decide (pr_proposal_type row = expected_proposal_type)
            && bool_decide (pr_correlation_id row = expected_correlation_id)
            && match expected_owner_agent_id with
               | None => true
               | Some owner => bool_decide (pr_agent_id row = owner)
               end
            && match expected_target_agent_id with
               | None => true
               | Some target => bool_decide (pr_target_agent_id row = Some target)
               end)
    (with_status new_status now) ;;
  require_one affected "proposal evidence binding changed or is no longer pending".

Definition apply_update_debate (mutation : AgentActionMutation) (proposal_id expected_correlation_id
    expected_context_summary new_context_summary now : string) : agent_op unit :=
  affected <-@ update_proposal proposal_id
    (λ row, open_debate (am_run_id mutation) row
            && bool_decide (pr_correlation_id row = expected_correlation_id)
            && bool_decide (pr_context_summary row = expected_context_summary))
    (with_context (apply_size_cap new_context_summary MAX_PROPOSAL_CONTEXT_BYTES) now) ;;
  require_one affected "debate round changed concurrently".

Definition apply_insert_message (mutation : AgentActionMutation) (message_id from_agent_id
    to_agent_id message_type : string) (body correlation_id reply_to_message_id : option string)
    (metadata : V) (now : string) : agent_op unit :=
  let row := new_message from_agent_id to_agent_id message_type body correlation_id
    (Some (am_run_id mutation)) (Some (am_node_id mutation)) reply_to_message_id
    (json_print metadata) now in
  _u <-@ insert_message message_id row ;;
  send_audit message_id row now.

Definition apply_sqlite_operation (mutation : AgentActionMutation) (now : string)
    (operation : AgentMutationOp) : agent_op unit :=
  match operation with
  | UpdateAgentState expected_updated_at status scratchpad_summary metadata_patch =>
    apply_update_agent_state mutation expected_updated_at status scratchpad_summary metadata_patch now
  | AckMessage message_id => apply_ack_message mutation message_id now
  | InsertProposal proposal_id correlation_id parent_node_id proposal_type objective context_summary
      target_agent_id proposed_node_id proposed_edge_id =>
    apply_insert_proposal mutation proposal_id correlation_id parent_node_id proposal_type objective
      context_summary target_agent_id proposed_node_id proposed_edge_id now
  | PersistRecursiveTree tree expected_version => apply_persist_tree mutation tree expected_version now
  | PersistRecursiveWorkflow node edge => apply_persist_workflow mutation node edge now
  | UpdateProposalStatus proposal_id new_status =>
    affected <-@ decide_proposal (am_run_id mutation) proposal_id new_status now ;;
    require_one affected "proposal is no longer pending"
  | UpdateProposalStatusBound proposal_id new_status ty correlation owner target blocking =>
    apply_update_bound mutation proposal_id new_status ty correlation owner target blocking now
  | UpdateDebateContext proposal_id correlation expected_context new_context =>
    apply_update_debate mutation proposal_id correlation expected_context new_context now
  | InsertMessage message_id from_agent_id to_agent_id message_type body correlation reply_to metadata =>
    apply_insert_message mutation message_id from_agent_id to_agent_id message_type body correlation
      reply_to metadata now
  | AppendAudit action resource details => audit now "agent_step" action resource details
  end.

(** ** The action *)

Definition commit_action (mutation : AgentActionMutation) (now : string) : agent_op string :=
  _u <-@ write (λ d, d <| agent_action_receipts := <[receipt_key mutation :=
    mkReceiptRow (am_agent_id mutation) (am_action_sha256 mutation) (am_action_type mutation)
      (am_result_json mutation) now]> (agent_action_receipts d) |>) ;;
  _u <-@ each (am_operations mutation) (apply_sqlite_operation mutation now) ;;
  committed <-@ select (λ d, agent_action_receipts d !! receipt_key mutation) ;;
  row <-@ given (query_row committed) ;;
  _u <-@ audit now "agent_step" "agent_action.committed"
    ("agent_action/" +:+ am_run_id mutation +:+ "/" +:+ am_node_id mutation)
    (object_of [("run_id", json_string (am_run_id mutation));
                ("node_id", json_string (am_node_id mutation));
                ("agent_id", json_string (am_agent_id mutation));
                ("action_sha256", json_string (am_action_sha256 mutation));
                ("action_type", json_string (am_action_type mutation))]) ;;
  done (rc_result_json row).

(** The receipt is inserted first: a second application fails there. *)
Definition apply_agent_action_once (mutation : AgentActionMutation) (now : string)
    : agent_op string :=
  _u <-@ given (validate_mutation mutation) ;;
  claimed <-@ select (λ d, is_some (agent_action_receipts d !! receipt_key mutation)) ;;
  if claimed then
    existing <-@ select (existing_receipt mutation) ;;
    found <-@ given existing ;;
    given (ok_or found "failed to claim agent action receipt")
  else atomically (commit_action mutation now).
End agent_actions.

Arguments AgentMutationOp : clear implicits.
Arguments AgentActionMutation : clear implicits.
