(* ===== verification/AgentProps.v ===== *)
(** * What agents can change

    A small logic of relations on the tables of agents ([keeps R m]: the operation
    [m] only moves along [R]), and by it what every operation leaves of receipts,
    proposals, messages, trees and graphs. *)

From S2P Require Import Prelude Text Json RecursiveExecution Persistence TreeStore TreeStoreProps TreeHistory NodeExecution WorkflowRuns WorkflowFrames RunGraph RunGraphProps AgentMemory AgentRuntime AgentActions.
From stdpp Require Import relations.

Local Open Scope Z_scope.

(** ** Operations that move along a relation *)

Definition keeps (R : agent_db → agent_db → Prop) {A} (m : agent_op A) : Prop :=
  ∀ d r d', m d = Some (r, d') → R d d'.

Section keeps.
Context (R : agent_db → agent_db → Prop) `{PO : !PreOrder R}.

Lemma keeps_done {A} (a : A) : keeps R (done a).
Proof. by intros d r d' [= _ <-]. Qed.
Lemma keeps_refuse {A} e : keeps R (refuse (A := A) e).
Proof. by intros d r d' [= _ <-]. Qed.
Lemma keeps_select {A} (f : agent_db → A) : keeps R (select f).
Proof. by intros d r d' [= _ <-]. Qed.
Lemma keeps_given {A} (x : result string A) : keeps R (given x).
Proof. by intros d r d' [= _ <-]. Qed.
Lemma keeps_write f : (∀ d, R d (f d)) → keeps R (write f).
Proof. intros H d r d' [= _ <-]. apply H. Qed.

Lemma keeps_andthen {A B} (m : agent_op A) (k : A → agent_op B) :
  keeps R m → (∀ a, keeps R (k a)) → keeps R (andthen m k).
Proof.
  intros Hm Hk d r d'. unfold andthen. destruct (m d) as [[[a|e] d1]|] eqn:E; [|intros [= _ <-]; eauto|done].
  intros H. etrans; [by eapply Hm|by eapply Hk].
Qed.

Lemma keeps_each {A} (l : list A) body : (∀ a, keeps R (body a)) → keeps R (each l body).
Proof. intros H. induction l; cbn; [apply keeps_done|]. by apply keeps_andthen. Qed.

Lemma keeps_attempt {A} (m : agent_op A) : keeps R m → keeps R (attempt m).
Proof.
  intros Hm d r d'. unfold attempt. destruct (m d) as [[x d1]|] eqn:E; [|done]. intros [= _ <-]. eauto.
Qed.

Lemma keeps_atomically {A} (m : agent_op A) : keeps R m → keeps R (atomically m).
Proof.
  intros Hm d r d'. unfold atomically. destruct (m d) as [[[a|e] d1]|] eqn:E; [|by intros [= _ <-]|done].
  intros [= _ <-]. eauto.
Qed.

Lemma keeps_on_runs {A} (m : store A) :
  (∀ d db r, m (ad_db d) = Some (r, db) → R d (d <| ad_db := db |>)) → keeps R (on_runs m).
Proof.
  intros H d r d'. unfold on_runs. destruct (m (ad_db d)) as [[x db]|] eqn:E; [|done].
  intros [= _ <-]. eauto.
Qed.

Lemma keeps_update_mail message_id guard f :
  (∀ d row, agent_mailbox d !! message_id = Some row → guard row = true →
     R d (d <| agent_mailbox := <[message_id := f row]> (agent_mailbox d) |>)) →
  keeps R (update_mail message_id guard f).
Proof.
  intros H d r d'. unfold update_mail. destruct (agent_mailbox d !! message_id) as [row|] eqn:E.
  - destruct (guard row) eqn:Eg; intros [= _ <-]; [by apply H|done].
  - by intros [= _ <-].
Qed.

Lemma keeps_update_proposal proposal_id guard f :
  (∀ d row, agent_proposals d !! proposal_id = Some row → guard row = true →
     R d (d <| agent_proposals := <[proposal_id := f row]> (agent_proposals d) |>)) →
  keeps R (update_proposal proposal_id guard f).
Proof.
  intros H d r d'. unfold update_proposal. destruct (agent_proposals d !! proposal_id) as [row|] eqn:E.
  - destruct (guard row) eqn:Eg; intros [= _ <-]; [by apply H|done].
  - by intros [= _ <-].
Qed.
End keeps.

Create HintDb agents.

(** Walks through the structure of an operation. *)
Ltac agent_walk_step :=
  match goal with
  | |- keeps _ (done _) => apply keeps_done
  | |- keeps _ (refuse _) => apply keeps_refuse
  | |- keeps _ (select _) => apply keeps_select
  | |- keeps _ (given _) => apply keeps_given
  | |- keeps _ (attempt _) => apply keeps_attempt
  | |- keeps _ (atomically _) => apply keeps_atomically
  | |- keeps _ (each _ _) => apply keeps_each; [typeclasses eauto|intros ?]
  | |- keeps _ (andthen _ _) => apply keeps_andthen; [typeclasses eauto| |intros ?]
  | |- keeps _ (match ?x with _ => _ end) => destruct x
  | |- keeps _ (let '(_, _) := ?x in _) => destruct x
  | |- PreOrder _ => typeclasses eauto
  end.
Ltac agent_walk := repeat first [solve [eauto with agents nocore] | agent_walk_step].

(** ** Receipts, proposals and messages over time *)

(** A proposal but for its status, its context summary and its last update. *)
Definition proposal_identity (row : proposal_row) :=
  (pr_correlation_id row, pr_run_id row, pr_parent_node_id row, pr_agent_id row,
   pr_target_agent_id row, pr_proposed_node_id row, pr_proposed_edge_id row, pr_proposal_type row,
   pr_objective row, pr_created_at row).

(** A message but for its status and when it was read and acknowledged. *)
Definition mail_identity (row : mail_row) :=
  (mb_correlation_id row, mb_from_agent_id row, mb_to_agent_id row, mb_run_id row, mb_node_id row,
   mb_message_type row, mb_body row, mb_body_summary row, mb_redaction_status row,
   mb_created_at row, mb_reply_to_message_id row, mb_metadata_json row).

(** The proposal itself stays; once decided, its status stays too. *)
Record same_proposal (row row' : proposal_row) : Prop := {
  sp_identity : proposal_identity row' = proposal_identity row;
  sp_decided : pr_status row ≠ "pending" → pr_status row' = pr_status row;
}.

(** How far a message has come. *)
Definition mail_rank (status : string) : nat :=
  if bool_decide (status = "pending") then 0
  else if bool_decide (status = "read") then 1
  else if bool_decide (status = "acked") then 2
  else 3.

(** The message itself stays, its status only moves on, and the times at which it
    was read and acknowledged are not written twice. *)
Record same_mail (row row' : mail_row) : Prop := {
  sm_identity : mail_identity row' = mail_identity row;
  sm_rank : (mail_rank (mb_status row) ≤ mail_rank (mb_status row'))%nat;
  sm_read : (1 ≤ mail_rank (mb_status row))%nat → mb_read_at row' = mb_read_at row;
  sm_ack : (2 ≤ mail_rank (mb_status row))%nat → mb_ack_at row' = mb_ack_at row;
}.

#[export] Instance same_proposal_preorder : PreOrder same_proposal.
Proof.
  split; [by split|]. intros a b c [I1 D1] [I2 D2].
  split; [congruence|]. intros H. rewrite <-(D1 H). apply D2. by rewrite D1.
Qed.

#[export] Instance same_mail_preorder : PreOrder same_mail.
Proof.
  split; [by split|]. intros a b c [I1 K1 R1 A1] [I2 K2 R2 A2].
  split; [congruence|lia|..]; intros H.
  - rewrite <-R1 by done. apply R2. lia.
  - rewrite <-A1 by done. apply A2. lia.
Qed.

(** The action a receipt is for. *)
Definition receipt_identity (row : receipt_row) :=
  (rc_agent_id row, rc_action_sha256 row, rc_action_type row, rc_created_at row).

(** [own] is the receipt an action is writing. *)
Record evolves (own : option (string * string)) (d d' : agent_db) : Prop := {
  ev_receipts : ∀ k row, own ≠ Some k → agent_action_receipts d !! k = Some row →
    agent_action_receipts d' !! k = Some row;
  ev_own : ∀ k row, agent_action_receipts d !! k = Some row →
    ∃ row', agent_action_receipts d' !! k = Some row' ∧ receipt_identity row' = receipt_identity row;
  ev_proposals : ∀ p row, agent_proposals d !! p = Some row →
    ∃ row', agent_proposals d' !! p = Some row' ∧ same_proposal row row';
  ev_mail : ∀ i row, agent_mailbox d !! i = Some row →
    ∃ row', agent_mailbox d' !! i = Some row' ∧ same_mail row row';
}.

#[export] Instance evolves_preorder own : PreOrder (evolves own).
Proof.
  split; [intros d; split; [done|intros ? row ->; by exists row..]|].
  intros a b c [R1 O1 P1 M1] [R2 O2 P2 M2]. split; [eauto|..].
  - intros k row (row1 & H1 & S1)%O1. destruct (O2 _ _ H1) as (row2 & H2 & S2). exists row2.
    split; [done|congruence].
  - intros p row (row1 & H1 & S1)%P1. destruct (P2 _ _ H1) as (row2 & H2 & S2). exists row2.
    split; [done|by etrans].
  - intros i row (row1 & H1 & S1)%M1. destruct (M2 _ _ H1) as (row2 & H2 & S2). exists row2.
    split; [done|by etrans].
Qed.

Lemma evolves_same own d d' :
  agent_action_receipts d' = agent_action_receipts d → agent_proposals d' = agent_proposals d →
  agent_mailbox d' = agent_mailbox d → evolves own d d'.
Proof.
  intros Er Ep Em. split; [by rewrite Er|..]; rewrite ?Er, ?Ep, ?Em; intros ? row H; by exists row.
Qed.

Lemma evolves_proposal own d p row row' :
  agent_proposals d !! p = Some row → same_proposal row row' →
  evolves own d (d <| agent_proposals := <[p := row']> (agent_proposals d) |>).
Proof.
  intros Hp Hs. split; [done|intros k r H; by exists r| |intros i r H; by exists r]. intros p' r Hr. cbn.
  destruct (decide (p' = p)) as [-> |Hne].
  - rewrite lookup_insert_eq. exists row'. split; [done|]. congruence.
  - rewrite lookup_insert_ne by done. by exists r.
Qed.

Lemma evolves_mail own d i row row' :
  agent_mailbox d !! i = Some row → same_mail row row' →
  evolves own d (d <| agent_mailbox := <[i := row']> (agent_mailbox d) |>).
Proof.
  intros Hp Hs. split; [done|intros k r H; by exists r|intros p r H; by exists r|]. intros i' r Hr. cbn.
  destruct (decide (i' = i)) as [-> |Hne].
  - rewrite lookup_insert_eq. exists row'. split; [done|]. congruence.
  - rewrite lookup_insert_ne by done. by exists r.
Qed.

Lemma with_status_same row status now :
  pending row = true → same_proposal row (with_status status now row).
Proof. intros H%bool_decide_eq_true. by split. Qed.

Lemma with_context_same row context now : same_proposal row (with_context context now row).
Proof. by split. Qed.

Lemma read_same row now :
  mb_status row = "pending" → same_mail row (row <| mb_status := "read" |> <| mb_read_at := Some now |>).
Proof.
  intros Hp. assert (E : mail_rank (mb_status row) = 0%nat) by by rewrite Hp.
  split; [done|lia|lia|done].
Qed.

Lemma ack_same row now :
  mb_status row ∈ ["pending"; "read"] →
  same_mail row (row <| mb_status := "acked" |> <| mb_ack_at := Some now |>).
Proof.
  intros Hp. assert (Hr : (mail_rank (mb_status row) ≤ 1)%nat).
  { apply elem_of_cons in Hp as [-> |Hp%list_elem_of_singleton]; [vm_compute; lia|].
    rewrite Hp. vm_compute. lia. }
  split; [done| |done|lia]. transitivity 2%nat; [lia|vm_compute; lia].
Qed.

Lemma replied_same row : same_mail row (row <| mb_status := "replied" |>).
Proof.
  split; [done| |done..]. transitivity 3%nat; [|vm_compute; lia].
  unfold mail_rank. repeat case_bool_decide; lia.
Qed.

Section evolution.
Context `{RE : Regex} {V : Type} `{EV : EqDecision V} `{JV : JsonValue V} `{JT : JsonText V}
  `{JN : JsonNumbers V} `{SD : StoreDecoders V} `{Deps : RecursiveDeps} `{TE : TreeEncoder}
  `{TO : TableOrder}.
Context (own : option (string * string)).

Abbreviation kept := (keeps (evolves own)).

Lemma kept_on_runs {A} (m : store A) : kept (on_runs m).
Proof. apply keeps_on_runs. intros. by apply evolves_same. Qed.
Hint Resolve kept_on_runs : agents.

Lemma agent_kept_audit now actor action resource (details : V) : kept (audit now actor action resource details).
Proof. apply kept_on_runs. Qed.
Hint Resolve agent_kept_audit : agents.

Lemma kept_state f : (∀ d, agent_action_receipts (f d) = agent_action_receipts d
    ∧ agent_proposals (f d) = agent_proposals d ∧ agent_mailbox (f d) = agent_mailbox d) →
  kept (write f).
Proof. intros H. apply keeps_write. intros d. destruct (H d) as (? & ? & ?). by apply evolves_same. Qed.

Lemma kept_decide run p status now : kept (decide_proposal run p status now).
Proof.
  apply keeps_update_proposal; [apply _|]. intros d row Hr [_ Hp]%andb_true_iff.
  by eapply evolves_proposal, with_status_same.
Qed.
Hint Resolve kept_decide : agents.

Lemma kept_insert_proposal p row : kept (insert_proposal p row).
Proof.
  intros d r d'. unfold insert_proposal, andthen, select. destruct (agent_proposals d !! p) eqn:E; cbn.
  - by intros [= _ <-].
  - intros [= _ <-]. split; [done|intros k r' H; by exists r'| |intros i m H; by exists m]. intros p' r' Hr. cbn.
    exists r'. rewrite lookup_insert_ne; [done|congruence].
Qed.
Hint Resolve kept_insert_proposal : agents.

Lemma kept_insert_message i row : kept (insert_message i row).
Proof.
  intros d r d'. unfold insert_message, andthen, select. destruct (agent_mailbox d !! i) eqn:E; cbn.
  - by intros [= _ <-].
  - intros [= _ <-]. split; [done|intros k r' H; by exists r'|intros p r' H; by exists r'|]. intros i' r' Hr. cbn.
    exists r'. rewrite lookup_insert_ne; [done|congruence].
Qed.
Hint Resolve kept_insert_message : agents.

Lemma kept_require affected message : kept (require_one affected message).
Proof. unfold require_one. agent_walk. Qed.
Hint Resolve kept_require : agents.

(** *** The operations of an action *)

Lemma kept_update_agent_state m e st sc patch now :
  kept (apply_update_agent_state (V := V) m e st sc patch now).
Proof.
  unfold apply_update_agent_state. cbv zeta. agent_walk. by apply kept_state.
Qed.

Lemma kept_ack_message m i now : kept (apply_ack_message (V := V) m i now).
Proof.
  unfold apply_ack_message. agent_walk. apply keeps_update_mail; [apply _|].
  intros d row Hr [_ Hp%bool_decide_eq_true]%andb_true_iff. eapply evolves_mail; [done|].
  apply ack_same. rewrite Hp. by left.
Qed.

Lemma kept_mark_accepted (m : AgentActionMutation V) t now : kept (mark_recursive_proposals_accepted m t now).
Proof. unfold mark_recursive_proposals_accepted. agent_walk. Qed.

Lemma kept_mark_rejected (m : AgentActionMutation V) t now : kept (mark_recursive_proposals_rejected m t now).
Proof. unfold mark_recursive_proposals_rejected. agent_walk. Qed.
Hint Resolve kept_mark_accepted kept_mark_rejected : agents.

(** A lost race rewrites the receipt of the action itself. *)
Lemma kept_reject_stale (m : AgentActionMutation V) t now :
  own = Some (receipt_key m) → kept (reject_stale_tree m t now).
Proof.
  intros Hown. unfold reject_stale_tree, reject_lost. agent_walk. apply keeps_write. intros d.
  split; [| |intros p r H; by exists r|intros i r H; by exists r]; intros k row.
  - intros Hk Hr. cbn. rewrite lookup_alter_ne; [done|]. congruence.
  - intros Hr. cbn. destruct (decide (k = receipt_key m)) as [-> |Hne].
    + rewrite lookup_alter_eq, Hr. eexists. split; [done|]. by case_bool_decide.
    + rewrite lookup_alter_ne by done. by exists row.
Qed.

Lemma kept_persist_tree (m : AgentActionMutation V) t v now :
  own = Some (receipt_key m) → kept (apply_persist_tree m t v now).
Proof. intros Hown. unfold apply_persist_tree. agent_walk. by apply kept_reject_stale. Qed.

Lemma kept_persist_workflow (m : AgentActionMutation V) node edge now :
  kept (apply_persist_workflow m node edge now).
Proof. unfold apply_persist_workflow. agent_walk. Qed.

Lemma kept_update_bound (m : AgentActionMutation V) p st ty c o t b now :
  kept (apply_update_bound m p st ty c o t b now).
Proof.
  unfold apply_update_bound. agent_walk. apply keeps_update_proposal; [apply _|]. intros d row Hr Hg.
  eapply evolves_proposal; [done|]. apply with_status_same. destruct (pending row); [done|]. by rewrite andb_false_r in Hg.
Qed.

Lemma kept_update_debate (m : AgentActionMutation V) p c e n now : kept (apply_update_debate m p c e n now).
Proof.
  unfold apply_update_debate. agent_walk. apply keeps_update_proposal; [apply _|]. intros d row Hr _.
  by eapply evolves_proposal, with_context_same.
Qed.

Lemma kept_operation (m : AgentActionMutation V) now op :
  own = Some (receipt_key m) → kept (apply_sqlite_operation m now op).
Proof.
  intros Hown. destruct op; cbn [apply_sqlite_operation].
  - apply kept_update_agent_state.
  - apply kept_ack_message.
  - unfold apply_insert_proposal, proposal_audit. agent_walk.
  - by apply kept_persist_tree.
  - apply kept_persist_workflow.
  - agent_walk.
  - apply kept_update_bound.
  - apply kept_update_debate.
  - unfold apply_insert_message, send_audit. agent_walk.
  - agent_walk.
Qed.

End evolution.

(** ** Actions *)

Section actions.
Context `{RE : Regex} {V : Type} `{EV : EqDecision V} `{JV : JsonValue V} `{JT : JsonText V}
  `{JN : JsonNumbers V} `{SD : StoreDecoders V} `{Deps : RecursiveDeps} `{TE : TreeEncoder}
  `{TO : TableOrder}.

Lemma operations_evolve (m : AgentActionMutation V) now :
  keeps (evolves (Some (receipt_key m))) (each (am_operations m) (apply_sqlite_operation m now)).
Proof. apply keeps_each; [apply _|]. intros op. by apply kept_operation. Qed.

(** The receipt that is written and the operations. *)
Definition claimed_receipt (m : AgentActionMutation V) (now : string) : receipt_row :=
  mkReceiptRow (am_agent_id m) (am_action_sha256 m) (am_action_type m) (am_result_json m) now.

Lemma commit_inv (m : AgentActionMutation V) now d s d' :
  commit_action m now d = Some (Ok s, d') →
  ∃ d1 row,
    each (am_operations m) (apply_sqlite_operation m now)
      (d <| agent_action_receipts := <[receipt_key m := claimed_receipt m now]> (agent_action_receipts d) |>)
      = Some (Ok tt, d1)
    ∧ agent_action_receipts d1 !! receipt_key m = Some row ∧ rc_result_json row = s
    ∧ agent_state d' = agent_state d1 ∧ agent_mailbox d' = agent_mailbox d1
    ∧ agent_proposals d' = agent_proposals d1 ∧ agent_action_receipts d' = agent_action_receipts d1
    ∧ ∃ log, ad_db d' = (ad_db d1) <| audit_log := log |>.
Proof.
  unfold commit_action, andthen at 1, write at 1. unfold andthen at 1.
  match goal with |- context [each ?l ?f ?d0] => destruct (each l f d0) as [[[[]|e] d1]|] eqn:E end; [|done|done].
  unfold andthen at 1, select. unfold andthen at 1, given.
  destruct (agent_action_receipts d1 !! receipt_key m) as [row|] eqn:Er; cbn; [|done].
  intros [= <- <-]. exists d1, row. split_and!; try done. by eexists.
Qed.

Lemma action_inv (m : AgentActionMutation V) now d r d' :
  apply_agent_action_once m now d = Some (r, d') →
  (∃ e, r = Err e ∧ d' = d)
  ∨ ∃ s row, r = Ok s ∧ validate_mutation m = Ok tt
    ∧ agent_action_receipts d' !! receipt_key m = Some row
    ∧ rc_agent_id row = am_agent_id m ∧ rc_action_sha256 row = am_action_sha256 m
    ∧ rc_result_json row = s
    ∧ (d' = d ∨ (agent_action_receipts d !! receipt_key m = None ∧ commit_action m now d = Some (Ok s, d'))).
Proof.
  unfold apply_agent_action_once, andthen at 1, given at 1.
  destruct (validate_mutation m) as [[]|e] eqn:Ev; [|intros [= <- <-]; eauto].
  unfold andthen at 1, select at 1. destruct (agent_action_receipts d !! receipt_key m) as [row|] eqn:Er; cbn.
  - unfold andthen, select, given, existing_receipt. rewrite Er. unfold verify_existing_receipt.
    case_bool_decide as E1; cbn; [|intros [= <- <-]; eauto].
    case_bool_decide as E2; cbn; [|intros [= <- <-]; eauto].
    intros [= <- <-]. right. exists (rc_result_json row), row. by split_and!; auto.
  - unfold atomically. destruct (commit_action m now d) as [[[s|e] d1]|] eqn:Ec; [|intros [= <- <-]; eauto|done].
    intros [= <- <-]. right. apply commit_inv in Ec as Hc.
    destruct Hc as (d2 & row & Hops & Hrow & Hs & _ & _ & _ & Ercpt & _).
    destruct (ev_own _ _ _ (operations_evolve m now _ _ _ Hops) (receipt_key m) (claimed_receipt m now))
      as (row' & Hrow' & Hid); [apply lookup_insert_eq|].
    assert (row' = row) as -> by congruence. injection Hid as E1 E2 _ _.
    exists s, row. rewrite Ercpt. by split_and!; auto.
Qed.

Lemma action_evolves (m : AgentActionMutation V) now : keeps (evolves None) (apply_agent_action_once m now).
Proof.
  intros d r d' [(e & _ & ->)|(s & row & _ & _ & _ & _ & _ & _ & [-> |[Hnew Hc]])]%action_inv; [done..|].
  apply commit_inv in Hc as (d1 & row1 & Hops & _ & _ & _ & Em & Ep & Er & _).
  destruct (operations_evolve m now _ _ _ Hops) as [R O P M]. cbn in R, O, P, M.
  assert (Hk : ∀ k row, agent_action_receipts d !! k = Some row → k ≠ receipt_key m) by (intros k r0 H ->; congruence).
  split; rewrite ?Er, ?Ep, ?Em; [| |done|done].
  - intros k r0 _ H. specialize (Hk _ _ H). apply R; [congruence|]. by rewrite lookup_insert_ne.
  - intros k r0 H. apply O. rewrite lookup_insert_ne; [done|]. intros <-. by destruct (Hk _ _ H).
Qed.
End actions.

(** ** Operations that return *)

Definition answers {A} (m : store A) : Prop := ∀ db, is_Some (m db).
Definition returns {A} (m : agent_op A) : Prop := ∀ d, is_Some (m d).

Lemma answers_bind {A B} (m : store A) (k : A → store B) :
  answers m → (∀ a, answers (k a)) → answers (bind m k).
Proof. intros Hm Hk db. unfold bind. destruct (Hm db) as [[[a|e] db'] ->]; [apply Hk|eauto]. Qed.

Lemma returns_andthen {A B} (m : agent_op A) (k : A → agent_op B) :
  returns m → (∀ a, returns (k a)) → returns (andthen m k).
Proof. intros Hm Hk d. unfold andthen. destruct (Hm d) as [[[a|e] d'] ->]; [apply Hk|eauto]. Qed.

Lemma returns_each {A} (l : list A) body : (∀ a, returns (body a)) → returns (each l body).
Proof. intros H. induction l; cbn; [by eexists|]. by apply returns_andthen. Qed.

Lemma returns_on_runs {A} (m : store A) : answers m → returns (on_runs m).
Proof. intros H d. unfold on_runs. destruct (H (ad_db d)) as [[r db] ->]. eauto. Qed.

Lemma returns_attempt {A} (m : agent_op A) : returns m → returns (attempt m).
Proof. intros H d. unfold attempt. destruct (H d) as [[r d'] ->]. eauto. Qed.

Lemma returns_atomically {A} (m : agent_op A) : returns m → returns (atomically m).
Proof. intros H d. unfold atomically. destruct (H d) as [[[] d'] ->]; eauto. Qed.

Lemma returns_update_mail i guard f : returns (update_mail i guard f).
Proof. intros d. unfold update_mail. repeat case_match; eauto. Qed.

Lemma returns_update_proposal p guard f : returns (update_proposal p guard f).
Proof. intros d. unfold update_proposal. repeat case_match; eauto. Qed.

#[export] Hint Resolve returns_update_mail returns_update_proposal : agents.

Ltac answers_step :=
  match goal with
  | |- answers (bind _ _) => apply answers_bind; [|intros ?]
  | |- answers (match ?x with _ => _ end) => destruct x
  | |- answers (let '(_, _) := ?x in _) => destruct x
  | |- answers _ => intros ?; by eexists
  end.
Ltac returns_step :=
  match goal with
  | |- returns (andthen _ _) => apply returns_andthen; [|intros ?]
  | |- returns (each _ _) => apply returns_each; intros ?
  | |- returns (attempt _) => apply returns_attempt
  | |- returns (atomically _) => apply returns_atomically
  | |- returns (match ?x with _ => _ end) => destruct x
  | |- returns (let '(_, _) := ?x in _) => destruct x
  | |- returns (on_runs _) => apply returns_on_runs
  | |- answers _ => answers_step
  | |- returns _ => intros ?; by eexists
  end.
Ltac returns_walk := repeat first [solve [eauto with agents nocore] | returns_step].

Section totality.
Context `{RE : Regex} {V : Type} `{EV : EqDecision V} `{JV : JsonValue V} `{JT : JsonText V}
  `{JN : JsonNumbers V} `{SD : StoreDecoders V} `{Deps : RecursiveDeps} `{TE : TreeEncoder}
  `{TO : TableOrder}.

Lemma answers_persist t now v : answers (persist_recursive_tree t now v).
Proof. unfold persist_recursive_tree, persist_recursive_tree_inner. returns_walk. Qed.

Lemma answers_reject t now : answers (record_recursive_cas_rejection t now).
Proof.
  unfold record_recursive_cas_rejection, load_existing. returns_walk. apply answers_persist.
Qed.

Lemma answers_child (m : AgentActionMutation V) node edge now : answers (insert_recursive_child m node edge now).
Proof.
  unfold insert_recursive_child, validate_recursive_workflow_mutation, load_existing,
    insert_recursive_workflow_run_node_locked, insert_recursive_workflow_run_edge_locked,
    insert_workflow_run_node_with_mode, insert_workflow_run_edge_with_mode, recursive_event,
    insert_workflow_run_event_locked.
  returns_walk.
Qed.

Lemma returns_operation (m : AgentActionMutation V) now op : returns (apply_sqlite_operation m now op).
Proof.
  destruct op; cbn [apply_sqlite_operation];
    unfold apply_update_agent_state, apply_ack_message, apply_insert_proposal, apply_persist_tree,
      apply_persist_workflow, apply_update_bound, apply_update_debate, apply_insert_message,
      mark_recursive_proposals_accepted, mark_recursive_proposals_rejected, reject_stale_tree, reject_lost,
      decide_proposal, require_one, insert_proposal, proposal_audit, insert_message, send_audit, audit;
    returns_walk; first [apply answers_persist | apply answers_reject | apply answers_child].
Qed.

Lemma action_returns (m : AgentActionMutation V) now : returns (apply_agent_action_once m now).
Proof.
  unfold apply_agent_action_once, commit_action, audit. returns_walk. apply returns_operation.
Qed.
End totality.
