(* ===== verification/AgentEffects.v ===== *)
(** * What the actions of agents do to trees and to the graphs of runs *)

From S2P Require Import Prelude Text Json Graph RecursiveExecution Persistence PersistenceProps TreeStore TreeStoreProps TreeHistory NodeExecution WorkflowRuns WorkflowFrames WorkflowProps WorkflowSteps DagCycle DagProps RunGraph RunGraphProps SchedulerShape AgentMemory AgentRuntime AgentActions AgentProps.
From stdpp Require Import relations.

Local Open Scope Z_scope.

(** ** Operations that succeed *)

(** What an operation writes before an error is rolled back. *)
Definition keeps_ok (R : agent_db → agent_db → Prop) {A} (m : agent_op A) : Prop :=
  ∀ d a d', m d = Some (Ok a, d') → R d d'.

Section keeps_ok.
Context (R : agent_db → agent_db → Prop) `{PO : !PreOrder R}.

Lemma keeps_keeps_ok {A} (m : agent_op A) : keeps R m → keeps_ok R m.
Proof. intros H d a d'. apply H. Qed.

Lemma keeps_ok_andthen {A B} (m : agent_op A) (k : A → agent_op B) :
  keeps_ok R m → (∀ a, keeps_ok R (k a)) → keeps_ok R (andthen m k).
Proof.
  intros Hm Hk d b d'. unfold andthen. destruct (m d) as [[[a|e] d1]|] eqn:E; [|done..].
  intros H. etrans; [by eapply Hm|by eapply Hk].
Qed.

Lemma keeps_ok_each {A} (l : list A) body : (∀ a, a ∈ l → keeps_ok R (body a)) → keeps_ok R (each l body).
Proof.
  induction l as [|x l IH]; intros H; cbn; [by apply keeps_keeps_ok, keeps_done|].
  apply keeps_ok_andthen; [apply H; by left|]. intros _. apply IH. intros a Ha. apply H. by right.
Qed.
End keeps_ok.

(** An action moves along [R] when its operations do and the rest ignores [R]. *)
Lemma action_keeps {V : Type} `{RE : Regex} `{EV : EqDecision V} `{JV : JsonValue V} `{JT : JsonText V}
    `{JN : JsonNumbers V} `{SD : StoreDecoders V} `{Deps : RecursiveDeps} `{TE : TreeEncoder}
    `{TO : TableOrder} (R : agent_db → agent_db → Prop) `{PO : !PreOrder R}
    (m : AgentActionMutation V) now :
  (∀ d f, R d (d <| agent_action_receipts := f |>)) →
  (∀ d d' log, ad_db d' = (ad_db d) <| audit_log := log |> → R d d') →
  (∀ op, op ∈ am_operations m → keeps_ok R (apply_sqlite_operation m now op)) →
  keeps R (apply_agent_action_once m now).
Proof.
  intros Hrc Hlog Hop d r d' [(e & _ & ->)|(s & row & _ & _ & _ & _ & _ & _ & [-> |[Hnew Hc]])]%action_inv; [done..|].
  apply commit_inv in Hc as (d1 & row1 & Hops & _ & _ & _ & _ & _ & _ & log & Elog).
  transitivity d1; [|by eapply Hlog]. etrans; [apply Hrc|]. by eapply (keeps_ok_each R); [exact Hop|].
Qed.

(** ** Trees *)

Section histories.
Context `{RE : Regex} {V : Type} `{EV : EqDecision V} `{JV : JsonValue V} `{JT : JsonText V}
  `{JN : JsonNumbers V} `{SD : StoreDecoders V} `{Deps : RecursiveDeps} `{TE : TreeEncoder}
  `{TO : TableOrder} `{HO : HashOrder}.

(** The trees an action stores were counted up from the version they expect. *)
Definition tree_counted (op : AgentMutationOp V) : Prop :=
  match op with
  | PersistRecursiveTree t v =>
    keyed t ∧ Z.of_nat (size (accepted_proposals t)) + Z.of_nat (size (rejected_proposals t)) <= STEP
    ∧ ∃ v0, v = Some v0 ∧ later 1 STEP v0 t
  | _ => True
  end.

(** The tables of runs and trees move by steps of the tree store. *)
Definition tree_history (d d' : agent_db) : Prop := rtc store_step (ad_db d) (ad_db d').

#[export] Instance tree_history_preorder : PreOrder tree_history.
Proof. split; [by intros d; apply rtc_refl|]. intros a b c H1 H2. by eapply rtc_trans. Qed.

Lemma history_same d d' : same_trees (ad_db d) (ad_db d') → tree_history d d'.
Proof. intros H. by apply rtc_once, ss_handler, hs_other. Qed.

Lemma history_runs {A} (m : store A) : always (rtc store_step) m → keeps tree_history (on_runs m).
Proof. intros H. apply keeps_on_runs. intros d db r E. exact (H _ _ _ E). Qed.

Lemma history_update_mail i guard f : keeps tree_history (update_mail i guard f).
Proof. apply keeps_update_mail; [apply _|]. intros. by apply history_same. Qed.
Lemma history_update_proposal i guard f : keeps tree_history (update_proposal i guard f).
Proof. apply keeps_update_proposal; [apply _|]. intros. by apply history_same. Qed.
Lemma history_write f : (∀ d, ad_db (f d) = ad_db d) → keeps tree_history (write f).
Proof. intros H. apply keeps_write. intros d. apply history_same. by rewrite H. Qed.
Lemma history_audit now actor action resource (details : V) :
  keeps tree_history (audit now actor action resource details).
Proof. apply history_runs, always_execute. intros db. by apply rtc_once, ss_handler, hs_other. Qed.
Hint Resolve history_update_mail history_update_proposal history_audit : agents.
Hint Extern 1 (keeps tree_history (write _)) => by apply history_write : agents.

Lemma persist_history t now v :
  keyed t → later 1 STEP v t → keeps tree_history (on_runs (persist_recursive_tree t now (Some v))).
Proof. intros Hk Hl. apply history_runs. intros db r db' E. by eapply rtc_once, ss_persist. Qed.

Lemma child_history (m : AgentActionMutation V) node edge now :
  always (rtc store_step) (insert_recursive_child m node edge now).
Proof.
  assert (Hx : ∀ f : database → database, (∀ db, same_trees db (f db)) → always (rtc store_step) (execute f)).
  { intros f H. apply always_execute. intros db. by apply rtc_once, ss_handler, hs_other. }
  unfold insert_recursive_child, validate_recursive_workflow_mutation, load_existing,
    insert_recursive_workflow_run_node_locked, insert_recursive_workflow_run_edge_locked,
    insert_workflow_run_node_with_mode, insert_workflow_run_edge_with_mode, recursive_event,
    insert_workflow_run_event_locked.
  walk; by apply Hx.
Qed.

Lemma operation_history (m : AgentActionMutation V) now op :
  tree_counted op → keeps tree_history (apply_sqlite_operation m now op).
Proof.
  destruct op as [| | |t v| | | | | |]; cbn [apply_sqlite_operation tree_counted]; intros Hop;
    unfold apply_update_agent_state, apply_ack_message, apply_insert_proposal,
      apply_persist_workflow, apply_update_bound, apply_update_debate, apply_insert_message,
      decide_proposal, require_one, insert_proposal, proposal_audit, insert_message, send_audit;
    try solve [agent_walk; apply history_runs, child_history].
  destruct Hop as (Hk & Hsz & v0 & -> & Hl).
  unfold apply_persist_tree, reject_stale_tree, reject_lost, mark_recursive_proposals_accepted,
    mark_recursive_proposals_rejected, decide_proposal, require_one.
  agent_walk; [by apply persist_history|]. apply history_runs. intros db r db' E.
  by eapply rtc_once, ss_handler, hs_reject.
Qed.

Lemma action_history (m : AgentActionMutation V) now :
  (∀ op, op ∈ am_operations m → tree_counted op) → keeps tree_history (apply_agent_action_once m now).
Proof.
  intros Hops. apply action_keeps; [apply _|by intros; apply history_same| |].
  - intros d d' log E. apply history_same. by rewrite E.
  - intros op Hop. by apply keeps_keeps_ok, operation_history, Hops.
Qed.
End histories.

(** ** Graphs of runs *)

Section graphs.
Context `{RE : Regex} {V : Type} `{EV : EqDecision V} `{JV : JsonValue V} `{JT : JsonText V}
  `{JN : JsonNumbers V} `{SD : StoreDecoders V} `{Deps : RecursiveDeps} `{TE : TreeEncoder}
  `{TO : TableOrder}.

(** A new end of a graph closes no cycle. *)
Lemma leaf_acyclic (R : string → string → Prop) x y :
  (∀ z, ¬ R y z) → x ≠ y → ¬ cyclic R → ¬ cyclic (λ a b, R a b ∨ (a = x ∧ b = y)).
Proof.
  intros Hy Hne Hac [z Hz]. set (R' := λ a b, R a b ∨ (a = x ∧ b = y)) in Hz.
  assert (Hp : ∀ a b, tc R' a b → tc R a b ∨ b = y).
  { induction 1 as [a b [H|[_ ->]]|a a' b [H|[_ ->]] _ [IH| ->]]; auto using tc_once.
    - left. by eapply tc_l.
    - by apply tc_inv in IH as [?%Hy|(? & ?%Hy & _)]. }
  destruct (Hp _ _ Hz) as [?| ->]; [by apply Hac; exists z|].
  apply tc_inv in Hz as [[?%Hy|[? _]]|(? & [?%Hy|[? _]] & _)]; congruence.
Qed.

(** A child of the run: a new node below a node that was there before. *)
Inductive child_added (run : string) (db db' : database) : Prop :=
  child_added_intro nid eid row edge :
    workflow_run_nodes db !! (run, nid) = None →
    is_Some (workflow_run_nodes db !! (run, we_from_node_id edge)) → we_to_node_id edge = nid →
    workflow_run_edges db !! (run, eid) = None → node_names (V := V) nid row →
    edge_names (V := V) eid edge →
    workflow_run_nodes db' = <[(run, nid) := row]> (workflow_run_nodes db) →
    workflow_run_edges db' = <[(run, eid) := edge]> (workflow_run_edges db) →
    child_added run db db'.

Lemma child_graph_ok run db db' run' :
  child_added run db db' → graph_ok run' db → graph_ok run' db'.
Proof.
  intros [nid eid row edge Hnew [prow Hp] Hto Hfree _ _ En Ee] [Hends Hac].
  assert (Hn : ∀ r i, is_Some (workflow_run_nodes db !! (r, i)) → is_Some (workflow_run_nodes db' !! (r, i))).
  { intros r i H. rewrite En. apply lookup_insert_is_Some. destruct (decide ((run, nid) = (r, i))); auto. }
  assert (Hold : ∀ x y, run_edge run' db' x y →
    run_edge run' db x y ∨ (run' = run ∧ x = we_from_node_id edge ∧ y = nid)).
  { intros x y (e & r & He & <- & <-). rewrite Ee in He.
    apply lookup_insert_Some in He as [[[= -> ->] <-]|[_ He]]; [by right|left; by exists e, r]. }
  split.
  - intros x y [H|(-> & -> & ->)]%Hold; [destruct (Hends _ _ H); by split; apply Hn|].
    split; [apply Hn; by rewrite Hp|]. rewrite En, lookup_insert_eq. eauto.
  - destruct (decide (run' = run)) as [-> |Hne].
    + intros Hc. apply (leaf_acyclic (run_edge run db) (we_from_node_id edge) nid).
      * intros z [[? Hz] _]%Hends. congruence.
      * intros <-. congruence.
      * done.
      * eapply cyclic_mono; [|exact Hc]. intros x y [?|(_ & ? & ?)]%Hold; auto.
    + intros Hc. apply Hac. eapply cyclic_mono; [|exact Hc]. by intros x y [?|(? & _)]%Hold.
Qed.

Lemma child_sound run db db' :
  child_added run db db' → graphs_sound (V := V) db → graphs_sound (V := V) db'.
Proof.
  intros Hc Hs run'. destruct (Hs run') as [[Sn Se] Hg]. split; [|by eapply child_graph_ok].
  destruct Hc as [nid eid row edge _ _ _ _ Hn He En Ee]. split.
  - intros id r Hr. rewrite En in Hr. apply lookup_insert_Some in Hr as [[[= _ ->] <-]|[_ Hr]]; [done|by apply Sn].
  - intros i r Hr. rewrite Ee in Hr. apply lookup_insert_Some in Hr as [[[= _ ->] <-]|[_ Hr]]; [done|by apply Se].
Qed.

Lemma load_existing_accepted run db t db' :
  load_existing run db = Some (Ok t, db') → db' = db ∧ accepted t.
Proof.
  unfold load_existing. intros (o & db1 & [Eo ->]%query_inv & [Et ->]%lift_inv)%bind_Ok. split; [done|].
  symmetry in Et. apply ok_or_Ok in Et. subst o. unfold load_recursive_tree in Eo.
  destruct (_ !! run) as [row|]; [|done]. destruct (load_row run row db) as [t0|] eqn:El; [|done].
  injection Eo as <-. unfold load_row in El.
  repeat match type of El with context [match ?x with _ => _ end] => destruct x eqn:?; try done end.
  injection El as <-. by eapply validate_accepted.
Qed.

(** What the payload of an admitted child must say. *)
Lemma payload_inv t (node edge : V) agent :
  validate_recursive_workflow_payload t node edge agent = Ok tt →
  ∃ nid rn, json_get_str node "node_id" = Some nid ∧ nodes t !! nid = Some rn
    ∧ json_get_str edge "from_node_id" = n_parent_node_id rn
    ∧ json_get_str edge "to_node_id" = Some nid.
Proof.
  unfold validate_recursive_workflow_payload. intros H. passed H. checks. subst. by eauto 10.
Qed.

(** No node is its own parent. *)
Lemma payload_distinct t (node edge : V) agent parent nid :
  accepted t → validate_recursive_workflow_payload t node edge agent = Ok tt →
  json_get_str edge "from_node_id" = Some parent → json_get_str edge "to_node_id" = Some nid → parent ≠ nid.
Proof.
  intros Hac (id & rn & _ & Hrn & Ef & Et)%payload_inv Ef' Et' ->. assert (id = nid) as -> by congruence.
  assert (n_parent_node_id rn = Some nid) as Hp by congruence.
  destruct (nk_parent _ _ (ac_nodes _ Hac _ _ Hrn) _ Hp) as [(pn & Hpn & Hd & _)].
  pose proof (nk_depth _ _ (ac_nodes _ Hac _ _ Hrn)). simplify_eq. unfold MAX_RECURSIVE_DEPTH in *. lia.
Qed.

Lemma insert_node_inv run (node : V) nid db db' :
  json_get_str node "node_id" = Some nid →
  insert_recursive_workflow_run_node_locked run node db = Some (Ok tt, db') →
  workflow_run_nodes db !! (run, nid) = None
  ∧ db' = db <| workflow_run_nodes := <[(run, nid) := node_row_of node]> (workflow_run_nodes db) |>.
Proof.
  intros Ej. unfold insert_recursive_workflow_run_node_locked, insert_workflow_run_node_with_mode.
  rewrite Ej. unfold bind, lift, query. cbn [ok_or].
  destruct (workflow_run_nodes db !! (run, nid)) eqn:E; cbn; [done|].
  rewrite E. cbn. unfold execute. by intros [= <-].
Qed.

Lemma insert_edge_inv run (edge : V) db db' :
  insert_recursive_workflow_run_edge_locked run edge db = Some (Ok tt, db') →
  ∃ eid row, json_get_str edge "edge_id" = Some eid ∧ we_edge_json row = json_print edge
    ∧ json_get_str edge "from_node_id" = Some (we_from_node_id row)
    ∧ json_get_str edge "to_node_id" = Some (we_to_node_id row)
    ∧ is_Some (workflow_run_nodes db !! (run, we_from_node_id row))
    ∧ workflow_run_edges db !! (run, eid) = None
    ∧ db' = db <| workflow_run_edges := <[(run, eid) := row]> (workflow_run_edges db) |>.
Proof.
  unfold insert_recursive_workflow_run_edge_locked, insert_workflow_run_edge_with_mode.
  destruct (json_get_str edge "edge_id") as [eid|] eqn:Ei; [|done]. unfold bind, lift, query. cbn [ok_or].
  destruct (edge_row_of eid edge) as [row|] eqn:Er; [|done].
  destruct (workflow_run_nodes db !! (run, we_from_node_id row)) as [p|] eqn:Ef; [|done].
  destruct (workflow_run_nodes db !! (run, we_to_node_id row)) eqn:Et; [|done].
  destruct (workflow_run_edges db !! (run, eid)) eqn:Ee; cbn; [done|]. rewrite Ee. cbn.
  unfold execute. intros [= <-].
  unfold edge_row_of in Er. destruct (json_get_str edge "from_node_id") as [x|]; [|done].
  destruct (json_get_str edge "to_node_id") as [y|]; [|done]. injection Er as <-. cbn in *.
  eexists eid, (mkEdgeRow x y _ _). by split_and!.
Qed.

Lemma object_of_field (v : V) key s :
  json_get_str v key = Some s → ∃ m, as_object v = Some m.
Proof. unfold json_get_str, json_get. destruct (as_object v); [eauto|done]. Qed.

Lemma get_object (v : V) m key : as_object v = Some m → get_str m key = json_get_str v key.
Proof. intros E. unfold json_get_str, json_get. by rewrite E. Qed.

Context (parse_print : ∀ v : V, json_parse (json_print v) = Some v).

Lemma child_node_names node nid :
  json_get_str node "node_id" = Some nid → node_names (V := V) nid (node_row_of node).
Proof.
  intros E. destruct (object_of_field _ _ _ E) as [m Hm]. exists node, m. cbn. rewrite parse_print.
  split; [done|]. split; [done|]. by rewrite (get_object node).
Qed.

Lemma child_edge_names edge eid row :
  json_get_str edge "edge_id" = Some eid → we_edge_json row = json_print edge →
  json_get_str edge "from_node_id" = Some (we_from_node_id row) →
  json_get_str edge "to_node_id" = Some (we_to_node_id row) → edge_names (V := V) eid row.
Proof.
  intros E Ej Ef Et. destruct (object_of_field _ _ _ E) as [m Hm]. exists edge, m. rewrite Ej, parse_print.
  split; [done|]. split; [done|]. by rewrite !(get_object edge).
Qed.

Lemma child_inv (m : AgentActionMutation V) node edge now db db' :
  insert_recursive_child m node edge now db = Some (Ok tt, db') → child_added (am_run_id m) db db'.
Proof.
  unfold insert_recursive_child, validate_recursive_workflow_mutation.
  intros ([] & db0 & (t & db1 & [-> Hac]%load_existing_accepted & [Hp ->]%lift_inv)%bind_Ok & H)%bind_Ok.
  symmetry in Hp. pose proof Hp as Hval. apply payload_inv in Hp as (nid & rn & En & Hrn & Ef & Et).
  apply bind_Ok in H as ([] & db2 & [Hnew ->]%(insert_node_inv _ _ _ _ _ En) & H).
  apply bind_Ok in H as ([] & db3 & (eid & row & Ei & Ej & Ef' & Et' & Hfrom & Hfree & ->)%insert_edge_inv & H).
  assert (Hne : we_from_node_id row ≠ nid) by by eapply payload_distinct.
  injection H as <-. eapply (child_added_intro _ _ _ nid eid (node_row_of node) row); [done| |congruence|done| | |done|done].
  3: by eapply child_edge_names.
  2: by apply child_node_names.
  cbn in Hfrom. by rewrite lookup_insert_ne in Hfrom by congruence.
Qed.

(** Every run's graph stays sound. *)
Definition graphs_kept (d d' : agent_db) : Prop :=
  graphs_sound (V := V) (ad_db d) → graphs_sound (V := V) (ad_db d').

#[export] Instance graphs_kept_preorder : PreOrder graphs_kept.
Proof. split; [by intros d H; exact H|]. intros a b c H1 H2 H. by apply H2, H1. Qed.

Lemma graphs_same d d' : same_workflow (ad_db d) (ad_db d') → graphs_kept d d'.
Proof. intros H Hs. eapply names_graphs; [by apply same_names|done]. Qed.

Lemma graphs_runs {A} (m : store A) : always same_workflow m → keeps graphs_kept (on_runs m).
Proof. intros H. apply keeps_on_runs. intros d db r E. apply graphs_same. exact (H _ _ _ E). Qed.

Lemma graphs_update_mail i guard f : keeps graphs_kept (update_mail i guard f).
Proof. apply keeps_update_mail; [apply _|]. intros. by apply graphs_same. Qed.
Lemma graphs_update_proposal i guard f : keeps graphs_kept (update_proposal i guard f).
Proof. apply keeps_update_proposal; [apply _|]. intros. by apply graphs_same. Qed.
Lemma graphs_write f : (∀ d, ad_db (f d) = ad_db d) → keeps graphs_kept (write f).
Proof. intros H. apply keeps_write. intros d Hs. by rewrite H. Qed.
Lemma graphs_audit now actor action resource (details : V) :
  keeps graphs_kept (audit now actor action resource details).
Proof. apply graphs_runs, always_execute. by intros db. Qed.
Lemma graphs_persist t now v : keeps graphs_kept (on_runs (persist_recursive_tree t now v)).
Proof. apply graphs_runs, persist_same. Qed.
Lemma reject_same t now : always same_workflow (record_recursive_cas_rejection t now).
Proof.
  unfold record_recursive_cas_rejection, load_existing, persist_recursive_tree. walk; apply persist_same.
Qed.
Lemma graphs_reject t now : keeps graphs_kept (on_runs (record_recursive_cas_rejection t now)).
Proof. apply graphs_runs, reject_same. Qed.
Hint Resolve graphs_update_mail graphs_update_proposal graphs_audit graphs_persist graphs_reject : agents.
Hint Extern 1 (keeps graphs_kept (write _)) => by apply graphs_write : agents.

Lemma workflow_graphs (m : AgentActionMutation V) node edge now :
  keeps_ok graphs_kept (apply_persist_workflow m node edge now).
Proof.
  unfold apply_persist_workflow, decide_proposal, require_one.
  apply keeps_ok_andthen; [apply _|by apply keeps_keeps_ok, keeps_given, _|intros pid].
  apply keeps_ok_andthen; [apply _|by apply keeps_keeps_ok, keeps_select, _|intros status].
  case_bool_decide; [by apply keeps_keeps_ok, keeps_done, _|].
  apply keeps_ok_andthen; [apply _|apply keeps_keeps_ok; agent_walk|intros _].
  intros d [] d'. unfold on_runs. destruct (insert_recursive_child _ _ _ _ _) as [[r db]|] eqn:E; [|done].
  intros [= -> <-] Hs. cbn. by eapply child_sound; [by eapply child_inv|].
Qed.

Lemma operation_graphs (m : AgentActionMutation V) now op :
  keeps_ok graphs_kept (apply_sqlite_operation m now op).
Proof.
  destruct op; cbn [apply_sqlite_operation]; [..|apply workflow_graphs| | | | |].
  all: apply keeps_keeps_ok;
    unfold apply_update_agent_state, apply_ack_message, apply_insert_proposal, apply_persist_tree,
      reject_stale_tree, reject_lost, mark_recursive_proposals_accepted, mark_recursive_proposals_rejected,
      apply_update_bound, apply_update_debate, apply_insert_message,
      decide_proposal, require_one, insert_proposal, proposal_audit, insert_message, send_audit;
    agent_walk.
Qed.

Lemma action_graphs (m : AgentActionMutation V) now : keeps graphs_kept (apply_agent_action_once m now).
Proof.
  apply action_keeps; [apply _|by intros; apply graphs_same| |intros op _; apply operation_graphs].
  intros d d' log E. apply graphs_same. by rewrite E.
Qed.
End graphs.

(** ** Runs *)

Section runs.
Context {V : Type} `{JV : JsonValue V} `{JT : JsonText V} `{JN : JsonNumbers V} `{SD : StoreDecoders V}
  `{Deps : RecursiveDeps} `{TE : TreeEncoder} `{RO : RowOrder} `{HO : HashOrder}.

Lemma mutation_history f : (∀ db, same_trees db (f db)) → always (rtc store_step) (execute f).
Proof. intros H. apply always_execute. intros db. by apply rtc_once, ss_handler, hs_other. Qed.
Hint Extern 1 (always (rtc store_step) (execute _)) => by apply mutation_history : frames.

(** Batches of mutations leave the trees alone. *)
Lemma batch_history run ps actor clock :
  always (rtc store_step) (apply_dag_mutations_batch (V := V) run ps actor clock).
Proof.
  assert (Hp : ∀ i m, always (rtc store_step) (apply_proposals (V := V) run actor clock i m ps)).
  { induction ps as [|p ps IH]; intros i m; cbn [apply_proposals]; [walk|].
    unfold apply_proposal, persist_proposal, insert_workflow_node, remove_workflow_node,
      update_workflow_node_status, insert_workflow_edge, remove_workflow_edge, rewire_workflow_edge,
      insert_workflow_run_node_locked, insert_workflow_run_edge_locked, insert_workflow_run_node_with_mode,
      insert_workflow_run_edge_with_mode, mutation_event, insert_workflow_run_event_locked,
      update_node. cbv zeta. walk. }
  unfold apply_dag_mutations_batch. walk.
Qed.

Lemma run_step_history contract allowed db db' :
  run_step (V := V) contract allowed db db' → rtc store_step db db'.
Proof.
  intros [H|run ps actor clock r H]; [|by eapply batch_history]. destruct H.
  - by eapply lease_history.
  - by eapply record_history.
  - by eapply recover_history.
  - by eapply request_history.
  - by eapply context_history.
  - eapply rtc_once, ss_handler, hs_control. done.
Qed.
End runs.

(** ** All operations on agents *)

(** Operations that leave runs and trees alone. *)
Record quiet (d d' : agent_db) : Prop := {
  qu_evolves : evolves None d d';
  qu_trees : same_trees (ad_db d) (ad_db d');
  qu_workflow : same_workflow (ad_db d) (ad_db d');
}.

#[export] Instance quiet_preorder : PreOrder quiet.
Proof. split; [by split|]. intros a b c [] []. split; by etrans. Qed.

Section runtime.
Context `{RE : Regex} {V : Type} `{EV : EqDecision V} `{JV : JsonValue V} `{JT : JsonText V}
  `{JN : JsonNumbers V} `{SD : StoreDecoders V} `{Deps : RecursiveDeps} `{TE : TreeEncoder}
  `{TO : TableOrder} `{HO : HashOrder}.

Lemma quiet_same d d' :
  ad_db d' = ad_db d → agent_action_receipts d' = agent_action_receipts d →
  agent_proposals d' = agent_proposals d → agent_mailbox d' = agent_mailbox d → quiet d d'.
Proof. intros E ???. split; [by apply evolves_same|by rewrite E..]. Qed.

Lemma quiet_audit now actor action resource (details : V) :
  keeps quiet (audit now actor action resource details).
Proof. apply keeps_on_runs. intros d db r [= _ <-]. split; [by apply evolves_same|by split|by split]. Qed.

Lemma quiet_of_kept {A} (m : agent_op A) :
  keeps (evolves None) m → (∀ d r d', m d = Some (r, d') → ad_db d' = ad_db d) → keeps quiet m.
Proof. intros Hk Hd d r d' H. specialize (Hd _ _ _ H). split; [by eapply Hk|by rewrite Hd..]. Qed.

Lemma quiet_insert_message i row : keeps quiet (insert_message i row).
Proof.
  apply quiet_of_kept; [apply kept_insert_message|]. intros d r d'. unfold insert_message, andthen, select.
  case_match; by intros [= _ <-].
Qed.

Lemma quiet_insert_proposal i row : keeps quiet (insert_proposal i row).
Proof.
  apply quiet_of_kept; [apply kept_insert_proposal|]. intros d r d'. unfold insert_proposal, andthen, select.
  case_match; by intros [= _ <-].
Qed.

Lemma quiet_mail i guard f :
  (∀ row, guard row = true → same_mail row (f row)) → keeps quiet (update_mail i guard f).
Proof.
  intros H. apply keeps_update_mail; [apply _|]. intros d row Hr Hg. split; [|done|done].
  eapply evolves_mail; eauto.
Qed.

Lemma quiet_proposal i guard f :
  (∀ row, guard row = true → same_proposal row (f row)) → keeps quiet (update_proposal i guard f).
Proof.
  intros H. apply keeps_update_proposal; [apply _|]. intros d row Hr Hg. split; [|done|done].
  eapply evolves_proposal; eauto.
Qed.
Hint Resolve quiet_audit quiet_insert_message quiet_insert_proposal : agents.

(** A change of an agent's state, mailbox or proposals outside of actions, or an entry of
    the audit log. *)
Inductive runtime_step : agent_db → agent_db → Prop :=
  | rs_create agent run role caps objective status (metadata : V) now d r d' :
      create_agent_state agent run role caps objective status metadata now d = Some (r, d') →
      runtime_step d d'
  | rs_update agent run status scratchpad objective (metadata : option V) now d r d' :
      update_agent_state agent run status scratchpad objective metadata now d = Some (r, d') →
      runtime_step d d'
  | rs_delete agent run now d r d' :
      delete_agent_state (V := V) agent run now d = Some (r, d') → runtime_step d d'
  | rs_send i from to ty body correlation run node reply (metadata : V) now d r d' :
      send_message i from to ty body correlation run node reply metadata now d = Some (r, d') →
      runtime_step d d'
  | rs_read i now d r d' : mark_message_read (V := V) i now d = Some (r, d') → runtime_step d d'
  | rs_ack i now d r d' : ack_message (V := V) i now d = Some (r, d') → runtime_step d d'
  | rs_ack_for i agent run now d r d' :
      ack_message_for_agent (V := V) i agent run now d = Some (r, d') → runtime_step d d'
  | rs_reply i original from to ty body (metadata : V) now d r d' :
      reply_to_message i original from to ty body metadata now d = Some (r, d') → runtime_step d d'
  | rs_propose p c run parent agent ty objective context target node edge now d r d' :
      create_proposal (V := V) p c run parent agent ty objective context target node edge now d
        = Some (r, d') → runtime_step d d'
  | rs_decide p status now d r d' :
      update_proposal_status (V := V) p status now d = Some (r, d') → runtime_step d d'
  | rs_context p context now d r d' :
      update_proposal_context_summary p context now d = Some (r, d') → runtime_step d d'
  | rs_debate p run round context now d r d' :
      update_debate_round_if_pending (V := V) p run round context now d = Some (r, d') →
      runtime_step d d'
  | rs_audit now actor action resource (details : V) d r d' :
      audit now actor action resource details d = Some (r, d') → runtime_step d d'.

Lemma quiet_ack i now : keeps quiet (ack_message (V := V) i now).
Proof.
  unfold ack_message, message_changed, read_message. agent_walk.
  apply quiet_mail. intros row Hr%bool_decide_eq_true. by apply ack_same.
Qed.

Lemma quiet_send i from to ty body correlation run node reply (metadata : V) now :
  keeps quiet (send_message i from to ty body correlation run node reply metadata now).
Proof. unfold send_message, send_audit. agent_walk. Qed.
Hint Resolve quiet_ack quiet_send : agents.
Hint Extern 1 (keeps quiet (write _)) => apply keeps_write; intros; by apply quiet_same : agents.

Lemma runtime_quiet d d' : runtime_step d d' → quiet d d'.
Proof.
  destruct 1 as [???????? d r d' H|??????? d r d' H|??? d r d' H|??????????? d r d' H|?? d r d' H
    |?? d r d' H|???? d r d' H|???????? d r d' H|???????????? d r d' H|??? d r d' H|??? d r d' H
    |????? d r d' H|????? d r d' H]; revert d r d' H;
    match goal with |- ∀ d r d', ?m d = _ → quiet d d' => change (keeps quiet m) end.
  - unfold create_agent_state. agent_walk.
  - unfold update_agent_state. agent_walk.
  - unfold delete_agent_state. agent_walk.
  - agent_walk.
  - unfold mark_message_read, message_changed, read_message. agent_walk.
    apply quiet_mail. intros row Hr%bool_decide_eq_true. by apply read_same.
  - agent_walk.
  - unfold ack_message_for_agent, read_message. agent_walk.
  - unfold reply_to_message, read_message. agent_walk. apply quiet_mail. intros. apply replied_same.
  - unfold create_proposal, proposal_audit. agent_walk.
  - unfold update_proposal_status. agent_walk. apply quiet_proposal. intros. by apply with_status_same.
  - apply quiet_proposal. intros. apply with_context_same.
  - unfold update_debate_round_if_pending. agent_walk. apply quiet_proposal. intros. apply with_context_same.
  - agent_walk.
Qed.

(** Agents at work beside a scheduler whose moves are [runs]. *)
Inductive agent_step (runs : database → database → Prop) : agent_db → agent_db → Prop :=
  | as_runs d db : runs (ad_db d) db → agent_step runs d (d <| ad_db := db |>)
  | as_runtime d d' : runtime_step d d' → agent_step runs d d'
  | as_action (m : AgentActionMutation V) now d r d' :
      (∀ op, op ∈ am_operations m → tree_counted op) →
      apply_agent_action_once m now d = Some (r, d') → agent_step runs d d'.

Lemma step_evolves runs d d' : agent_step runs d d' → evolves None d d'.
Proof.
  destruct 1 as [d db H|d d' H|m now d r d' _ H].
  - by apply evolves_same.
  - by apply runtime_quiet.
  - by eapply action_evolves.
Qed.

Lemma steps_evolve runs d d' : rtc (agent_step runs) d d' → evolves None d d'.
Proof. induction 1 as [|a b c H _ IH]; [done|]. etrans; [by eapply step_evolves|done]. Qed.

Lemma step_history runs d d' :
  (∀ db db', runs db db' → rtc store_step db db') → agent_step runs d d' → tree_history d d'.
Proof.
  intros Hruns. destruct 1 as [d db H|d d' H|m now d r d' Hops H].
  - by apply Hruns.
  - by apply history_same, runtime_quiet.
  - by eapply action_history.
Qed.

Lemma step_graphs runs d d' :
  (∀ v : V, json_parse (json_print v) = Some v) →
  (∀ db db', runs db db' → graphs_sound (V := V) db → graphs_sound (V := V) db') →
  agent_step runs d d' → graphs_kept (V := V) d d'.
Proof.
  intros Hpp Hruns. destruct 1 as [d db H|d d' H|m now d r d' Hops H].
  - intros Hs. by eapply Hruns.
  - by apply graphs_same, runtime_quiet.
  - by eapply action_graphs.
Qed.
End runtime.
