(* ===== verification/AgentRace.v ===== *)
(** * Admitting a child while another agent does

    Two agents propose children of the same tree at once: the tree of one of them
    is stale when its action stores it.  What happens to the proposal, to the
    receipt and to the run of the agent that lost. *)

From S2P Require Import Prelude Text Json RecursiveExecution Persistence PersistenceProps TreeStore TreeStoreProps NodeExecution WorkflowRuns WorkflowFrames WorkflowProps RunGraph RunGraphProps AgentMemory AgentRuntime AgentActions AgentProps AgentEffects.

Local Open Scope Z_scope.

Section race.
Context `{RE : Regex} {V : Type} `{EV : EqDecision V} `{JV : JsonValue V} `{JT : JsonText V}
  `{JN : JsonNumbers V} `{SD : StoreDecoders V} `{Deps : RecursiveDeps} `{TE : TreeEncoder}
  `{TO : TableOrder}.

Lemma andthen_Ok {A B} (m : agent_op A) (k : A → agent_op B) d b d' :
  andthen m k d = Some (Ok b, d') → ∃ a d1, m d = Some (Ok a, d1) ∧ k a d1 = Some (Ok b, d').
Proof. unfold andthen. destruct (m d) as [[[a|e] d1]|]; [|done..]. eauto. Qed.

(** A tree that is not at the version it expects is not stored. *)
Lemma persist_stale t now v db :
  check_expected (root_run_id t) v db = Err "stale_parent" →
  ∃ e, persist_recursive_tree t now (Some v) db = Some (Err e, db).
Proof.
  intros Hc. unfold persist_recursive_tree, persist_recursive_tree_inner, bind at 1, lift.
  destruct (validate_tree_for_persistence t); [|eauto]. unfold bind, query. rewrite Hc. eauto.
Qed.

(** Later rejections are appended. *)
Lemma merged_prefix (l : list (string * RecursiveDecisionEvidence)) cur rej :
  ∃ extra, (foldl (λ '(current, rejected) '(proposal_id, evidence),
      if is_none (rejected_proposals current !! proposal_id)
         && negb (bool_decide (proposal_id ∈ accepted_proposals current))
      then (record_rejection_evidence proposal_id evidence current,
            rejected ++ [(proposal_id, FailureReason.reason_as_str (reason_code evidence))])
      else (current, rejected)) (cur, rej) l).2 = rej ++ extra.
Proof.
  revert cur rej. induction l as [|[q e] l IH]; intros cur rej; cbn; [exists []; by rewrite app_nil_r|].
  case_match; [|apply IH]. edestruct IH as [extra E]. rewrite E. rewrite <-app_assoc. eauto.
Qed.

(** The proposals that lost are rejected as stale. *)
Lemma cas_rejects t now current p db rejected db' :
  load_recursive_tree (root_run_id t) db = Ok (Some current) →
  p ∈ accepted_proposals t → p ∉ accepted_proposals current →
  record_recursive_cas_rejection t now db = Some (Ok rejected, db') →
  (∃ q rest, rejected = (q, "stale_parent") :: rest) ∧ p ∈ rejected.*1.
Proof.
  intros Hl Hp Hn. unfold record_recursive_cas_rejection.
  intros (cur & db1 & Hload & H)%bind_Ok.
  assert (cur = current) as ->.
  { unfold load_existing in Hload. apply bind_Ok in Hload as (o & db2 & [Eo ->]%query_Ok & [Et _]%lift_Ok).
    rewrite Hl in Eo. injection Eo as <-. by injection Et as <-. }
  cbv zeta in H. set (lost := sort_strings _) in H.
  assert (Hlost : p ∈ lost).
  { unfold lost. apply elem_of_sort_by, elem_of_elements. set_solver. }
  match type of H with context [foldl ?f (?c, ?r) ?l] =>
    destruct (merged_prefix l c r) as [extra Ex]; destruct (foldl f (c, r) l) as [c' rej] end.
  cbn [snd] in Ex. apply bind_Ok in H as ([] & db2 & _ & [= <- _]). rewrite Ex. split.
  - destruct lost as [|q rest]; [by apply not_elem_of_nil in Hlost|]. cbn. eauto.
  - rewrite fmap_app, elem_of_app. left. rewrite <-list_fmap_compose. apply list_elem_of_fmap. by exists p.
Qed.

(** One of them is decided. *)
Lemma decide_rejects run p now d row :
  agent_proposals d !! p = Some row → in_run run row = true →
  (pr_status row = "pending" ∨ pr_status row = "rejected") →
  ∃ b d' row', decide_proposal run p "rejected" now d = Some (Ok b, d')
    ∧ agent_proposals d' !! p = Some row' ∧ in_run run row' = true ∧ pr_status row' = "rejected".
Proof.
  intros Hr Hi Hs. unfold decide_proposal, update_proposal. rewrite Hr, Hi. cbn [andb]. unfold pending.
  case_bool_decide as Hp.
  - eexists true, _, (with_status "rejected" now row). split; [reflexivity|]. cbn.
    rewrite lookup_insert_eq. by split_and!.
  - exists false, d, row. destruct Hs; [done|]. by split_and!.
Qed.

Lemma rejects_lost (m : AgentActionMutation V) now l d d' p row :
  each l (reject_lost m now) d = Some (Ok tt, d') → p ∈ l.*1 →
  agent_proposals d !! p = Some row → in_run (am_run_id m) row = true →
  (pr_status row = "pending" ∨ pr_status row = "rejected") →
  ∃ row', agent_proposals d' !! p = Some row' ∧ pr_status row' = "rejected".
Proof.
  revert d row. induction l as [|[q reason] l IH]; intros d row H Hp Hr Hi Hs; [by apply not_elem_of_nil in Hp|].
  cbn [each] in H. apply andthen_Ok in H as ([] & d1 & H1 & H2). cbn in Hp.
  unfold reject_lost in H1. apply andthen_Ok in H1 as (b & d2 & Hd & Ha). injection Ha as <-.
  assert (Hev : keeps (evolves None) (each l (reject_lost m now))).
  { apply keeps_each; [apply _|]. intros [q' r']. unfold reject_lost.
    apply keeps_andthen; [apply _|apply kept_decide|intros _; apply agent_kept_audit]. }
  destruct (decide (q = p)) as [-> |Hne].
  - destruct (decide_rejects (am_run_id m) p now d row Hr Hi Hs) as (b' & d3 & row' & Hd' & Hr' & _ & Hs').
    rewrite Hd in Hd'. injection Hd' as -> ->.
    destruct (ev_proposals _ _ _ (Hev _ _ _ H2) p row' Hr') as (row2 & Hr2 & Hsame).
    exists row2. split; [done|]. rewrite <-Hs'. apply Hsame. by rewrite Hs'.
  - apply (IH _ row H2); [by apply elem_of_cons in Hp as [?|?]| |done|done]. cbn.
    unfold decide_proposal, update_proposal in Hd. destruct (agent_proposals d !! q) as [rq|]; [|by injection Hd as _ <-].
    case_match; injection Hd as _ <-; [|done]. cbn. by rewrite lookup_insert_ne.
Qed.

(** Receipts and runs are left alone. *)
Record set_aside (d d' : agent_db) : Prop := {
  sa_receipts : agent_action_receipts d' = agent_action_receipts d;
  sa_runs : same_workflow (ad_db d) (ad_db d');
}.
#[export] Instance set_aside_preorder : PreOrder set_aside.
Proof. split; [by split|]. intros a b c [] []. split; [congruence|by etrans]. Qed.

Lemma lost_aside (m : AgentActionMutation V) now l : keeps set_aside (each l (reject_lost m now)).
Proof.
  apply keeps_each; [apply _|]. intros [q r]. unfold reject_lost. apply keeps_andthen; [apply _| |intros _].
  - apply keeps_update_proposal; [apply _|]. by intros d row _ _; split.
  - apply keeps_on_runs. intros d db x [= _ <-]. by split.
Qed.

Lemma propose_inv (m : AgentActionMutation V) p c par ty obj ctx tgt pn pe now d d' :
  apply_insert_proposal m p c par ty obj ctx tgt pn pe now d = Some (Ok tt, d') →
  ∃ row log, d' = d <| agent_proposals := <[p := row]> (agent_proposals d) |>
                    <| ad_db := (ad_db d) <| audit_log := log |> |>
    ∧ pr_status row = "pending" ∧ in_run (am_run_id m) row = true.
Proof.
  unfold apply_insert_proposal. cbv zeta. intros ([] & d1 & H1 & H2)%andthen_Ok.
  unfold insert_proposal in H1. apply andthen_Ok in H1 as (b & d2 & [= <- <-] & H1).
  destruct (is_some _); [done|]. injection H1 as <-. injection H2 as <-. eexists _, _.
  split; [reflexivity|]. split; [done|]. by apply bool_decide_eq_true.
Qed.

(** The receipt says that the proposal was rejected, and so does its row. *)
Lemma stale_inv (m : AgentActionMutation V) t v now current p d d' row receipt :
  apply_persist_tree m t (Some v) now d = Some (Ok tt, d') →
  check_expected (root_run_id t) v (ad_db d) = Err "stale_parent" →
  load_recursive_tree (root_run_id t) (ad_db d) = Ok (Some current) →
  p ∈ accepted_proposals t → p ∉ accepted_proposals current →
  agent_proposals d !! p = Some row → pr_status row = "pending" → in_run (am_run_id m) row = true →
  agent_action_receipts d !! receipt_key m = Some receipt →
  rc_action_sha256 receipt = am_action_sha256 m →
  ∃ s receipt' row', recursive_rejection_result_json m "stale_parent" = Ok s
    ∧ agent_action_receipts d' !! receipt_key m = Some receipt' ∧ rc_result_json receipt' = s
    ∧ agent_proposals d' !! p = Some row' ∧ pr_status row' = "rejected"
    ∧ same_workflow (ad_db d) (ad_db d').
Proof.
  intros H Hc Hl Hp Hn Hr Hs Hi Hrec Hsha. unfold apply_persist_tree in H.
  apply andthen_Ok in H as (res & d1 & H1 & H). destruct (persist_stale t now v (ad_db d) Hc) as [e Ee].
  unfold attempt, on_runs in H1. rewrite Ee in H1. injection H1 as <- <-.
  case_bool_decide; [|done]. unfold reject_stale_tree in H.
  apply andthen_Ok in H as (rejected & d2 & H2 & H). unfold on_runs in H2. cbn in H2.
  destruct (record_recursive_cas_rejection t now (ad_db d)) as [[[rej|] db2]|] eqn:Ecas; [|done..].
  injection H2 as <- <-.
  destruct (cas_rejects t now current p (ad_db d) rej db2 Hl Hp Hn Ecas) as [(q & rest & ->) Hin].
  apply andthen_Ok in H as ([] & d3 & H3 & H).
  apply andthen_Ok in H3 as (s & d4 & [= Es <-] & H3).
  apply andthen_Ok in H3 as (found & d5 & [= <- <-] & H3).
  apply andthen_Ok in H3 as ([] & d6 & [= <-] & H3).
  unfold require_one in H3. destruct (match _ with Some _ => _ | None => _ end); [|done]. injection H3 as <-.
  destruct (rejects_lost m now _ _ _ p row H Hin) as (row' & Hr' & Hs'); [done|done|by left|].
  destruct (lost_aside m now _ _ _ _ H) as [Hrc Hsame]. cbn in Hrc, Hsame.
  exists s, (receipt <| rc_result_json := s |>), row'. split_and!; try done.
  - rewrite Hrc, lookup_alter_eq, Hrec. cbn. by rewrite bool_decide_true.
  - etrans; [by eapply reject_same|exact Hsame].
Qed.

(** No row of the run is written for a rejected proposal. *)
Lemma rejected_child_skipped (m : AgentActionMutation V) node edge now d p row :
  json_get_str node "proposal_id" = Some p → agent_proposals d !! p = Some row →
  in_run (am_run_id m) row = true → pr_status row = "rejected" →
  apply_persist_workflow m node edge now d = Some (Ok tt, d).
Proof.
  intros Ej Hr Hi Hs. unfold apply_persist_workflow. rewrite Ej. unfold andthen, given, select. cbn [ok_or].
  unfold proposal_status. rewrite Hr. cbn. by rewrite Hi, Hs.
Qed.

Definition is_audit (op : AgentMutationOp V) : Prop :=
  match op with AppendAudit _ _ _ => True | _ => False end.

Lemma audits_aside (m : AgentActionMutation V) now ops d d' :
  Forall is_audit ops → each ops (apply_sqlite_operation m now) d = Some (Ok tt, d') →
  set_aside d d' ∧ agent_proposals d' = agent_proposals d.
Proof.
  revert d. induction ops as [|op ops IH]; intros d Hops H; [by injection H as <-|].
  apply Forall_cons in Hops as [Hop Hops]. cbn [each] in H. apply andthen_Ok in H as ([] & d1 & H1 & H).
  destruct op; try done. injection H1 as <-. apply IH in H as [Ha Ep]; [|done]. split; [|done].
  etrans; [|exact Ha]. by split.
Qed.

(** The operations of an agent that proposes a child. *)
Definition child_action (p c par ty obj ctx : string) (tgt pn pe : option string) (t : RecursiveTree)
    (v : Z) (node edge : V) (audits : list (AgentMutationOp V)) : list (AgentMutationOp V) :=
  InsertProposal p c par ty obj ctx tgt pn pe :: PersistRecursiveTree t (Some v)
    :: PersistRecursiveWorkflow node edge :: audits.

Lemma race_lost (m : AgentActionMutation V) now d d' s p c par ty obj ctx tgt pn pe t v node edge audits current :
  am_operations m = child_action p c par ty obj ctx tgt pn pe t v node edge audits →
  Forall is_audit audits → json_get_str node "proposal_id" = Some p →
  check_expected (root_run_id t) v (ad_db d) = Err "stale_parent" →
  load_recursive_tree (root_run_id t) (ad_db d) = Ok (Some current) →
  p ∈ accepted_proposals t → p ∉ accepted_proposals current →
  commit_action m now d = Some (Ok s, d') →
  recursive_rejection_result_json m "stale_parent" = Ok s
  ∧ (∃ row, agent_proposals d' !! p = Some row ∧ pr_status row = "rejected")
  ∧ same_workflow (ad_db d) (ad_db d').
Proof.
  intros Eops Haud Ej Hc Hl Hp Hn Hcm.
  apply commit_inv in Hcm as (d1 & receipt & Hops & Hrc & <- & _ & _ & Ep & _ & log & Elog).
  rewrite Eops in Hops. unfold child_action in Hops. cbn [each] in Hops.
  apply andthen_Ok in Hops as ([] & da & (row & log1 & -> & Hs & Hi)%propose_inv & Hops).
  apply andthen_Ok in Hops as ([] & db & Hstale & Hops).
  destruct (ev_proposals _ _ _ (kept_persist_tree (Some (receipt_key m)) m t (Some v) now eq_refl _ _ _ Hstale) p row)
    as (row2 & Hr2 & Hsp); [apply lookup_insert_eq|].
  eapply (stale_inv _ _ _ _ current p _ _ row (claimed_receipt m now)) in Hstale
    as (s & rc & row' & Es & Hrc' & Ers & Hr' & Hs' & Hsame); try done;
    [|cbn; by rewrite lookup_insert_eq|cbn; by rewrite lookup_insert_eq].
  assert (row2 = row') as -> by congruence.
  assert (Hi' : in_run (am_run_id m) row' = true).
  { pose proof (sp_identity _ _ Hsp) as E. unfold proposal_identity in E.
    assert (pr_run_id row' = pr_run_id row) as Er by congruence. unfold in_run in *. by rewrite Er. }
  apply andthen_Ok in Hops as ([] & dc & Hwf & Hops). cbn [apply_sqlite_operation] in Hwf.
  rewrite (rejected_child_skipped m node edge now db p row' Ej Hr' Hi' Hs') in Hwf. injection Hwf as <-.
  apply audits_aside in Hops as [[Erc Hwf] Epr]; [|done].
  rewrite Erc, Hrc' in Hrc. injection Hrc as <-. rewrite Ers. split; [done|]. split.
  - exists row'. by rewrite Ep, Epr.
  - rewrite Elog. transitivity (ad_db db); [destruct Hsame; by split|]. etrans; [exact Hwf|]. by split.
Qed.
End race.
