(* ===== verification/AgentStep.v ===== *)
(** * What an agent may do in a step

    Model of the first part of node_executor.rs that is about agents: their actions,
    the capabilities an action needs, the checks of an action against the step it is
    taken in, the usage a provider reports and the authority of a recursive node. *)

From S2P Require Import Prelude Text Json Float64 RecursiveExecution Persistence TreeStore NodeExecution WorkflowRuns RunGraph AgentMemory AgentRuntime AgentActions.

Local Open Scope Z_scope.

(** ** Actions *)

Record ChildTaskProposal : Type := mkChildTaskProposal {
  cp_schema_version : string;
  cp_correlation_id : string;
  cp_objective : string;
  cp_context_summary : string;
  cp_proposed_node_id : option string;
  cp_proposed_edge_id : option string;
  cp_parent_node_id : string;
  cp_run_id : string;
  cp_agent_id : string;
}.

Record HandoffRequest : Type := mkHandoffRequest {
  ho_schema_version : string;
  ho_correlation_id : string;
  ho_objective : string;
  ho_context_summary : string;
  ho_target_agent_id : string;
  ho_source_agent_id : string;
  ho_run_id : string;
  ho_node_id : string;
}.

Definition CHILD_TASK_PROPOSAL_SCHEMA_VERSION : string := "child_task_proposal.v1".
Definition HANDOFF_REQUEST_SCHEMA_VERSION : string := "handoff_request.v1".
Definition MAX_DEBATE_PARTICIPANTS : nat := 8.
Definition MAX_DEBATE_ROUNDS : Z := 10.
Definition MAX_REVIEW_DEBATE_TEXT_BYTES : nat := 4096.
Definition REVIEW_VERDICTS : list string := ["accepted"; "rejected"].
Definition MAX_NOTE_BYTES : nat := 4096.
Definition MAX_AGENT_ID_BYTES : nat := 256.

Record ReviewRequest : Type := mkReviewRequest {
  re_schema_version : string;
  re_correlation_id : string;
  re_subject_summary : string;
  re_rationale_summary : string;
  re_target_agent_id : string;
  re_run_id : string;
  re_node_id : string;
  re_blocking : bool;
}.

Record ReviewVerdict : Type := mkReviewVerdict {
  rv_schema_version : string;
  rv_correlation_id : string;
  rv_review_request_id : string;
  rv_verdict : string;
  rv_rationale_summary : string;
  rv_run_id : string;
  rv_node_id : string;
  rv_blocking : bool;
}.

Record DebateRequest : Type := mkDebateRequest {
  db_schema_version : string;
  db_correlation_id : string;
  db_subject_summary : string;
  db_participant_agent_ids : list string;
  db_max_rounds : Z;
  db_run_id : string;
  db_node_id : string;
}.

Record DebatePosition : Type := mkDebatePosition {
  dp_schema_version : string;
  dp_correlation_id : string;
  dp_debate_id : string;
  dp_position : string;
  dp_rationale_summary : string;
  dp_run_id : string;
  dp_node_id : string;
}.

Record DebateResolution : Type := mkDebateResolution {
  dz_schema_version : string;
  dz_correlation_id : string;
  dz_debate_id : string;
  dz_resolution : string;
  dz_winning_position : option string;
  dz_unresolved_risks : option string;
  dz_run_id : string;
  dz_node_id : string;
}.

Inductive AgentAction : Type :=
  | Wait
  | Complete
  | UpdateScratchpadSummary (text : string)
  | ReadMailbox
  | AckMailboxMessage (message_id : string)
  | EmitNote (text : string)
  | RecordObservation (text : string)
  | Unsupported (name : string)
  | ProposeChildTask (proposal : ChildTaskProposal)
  | RequestHandoff (request : HandoffRequest)
  | AcceptHandoff (correlation_id : string)
  | RejectHandoff (correlation_id : string)
  | CancelProposal (correlation_id : string)
  | RequestReview (request : ReviewRequest)
  | SubmitReviewVerdict (verdict : ReviewVerdict)
  | OpenDebate (debate : DebateRequest)
  | SubmitDebatePosition (position : DebatePosition)
  | ResolveDebate (resolution : DebateResolution).

Definition action_type (action : AgentAction) : string :=
  match action with
  | Wait => "wait"
  | Complete => "complete"
  | UpdateScratchpadSummary _ => "update_scratchpad_summary"
  | ReadMailbox => "read_mailbox"
  | AckMailboxMessage _ => "ack_message"
  | EmitNote _ => "emit_note"
  | RecordObservation _ => "record_observation"
  | Unsupported _ => "unsupported"
  | ProposeChildTask _ => "propose_child_task"
  | RequestHandoff _ => "request_handoff"
  | AcceptHandoff _ => "accept_handoff"
  | RejectHandoff _ => "reject_handoff"
  | CancelProposal _ => "cancel_proposal"
  | RequestReview _ => "request_review"
  | SubmitReviewVerdict _ => "submit_review_verdict"
  | OpenDebate _ => "open_debate"
  | SubmitDebatePosition _ => "submit_debate_position"
  | ResolveDebate _ => "resolve_debate"
  end.

Definition AGENT_ACTION_TYPES : list string :=
  ["wait"; "complete"; "update_scratchpad_summary"; "read_mailbox"; "ack_message"; "emit_note";
   "record_observation"; "propose_child_task"; "request_handoff"; "accept_handoff";
   "reject_handoff"; "cancel_proposal"; "request_review"; "submit_review_verdict"; "open_debate";
   "submit_debate_position"; "resolve_debate"].

(** [AgentDecisionUsage], what a provider reports about a decision. *)
Record AgentDecisionUsage : Type := mkDecisionUsage {
  du_provider_id : string;
  du_model : string;
  du_input_tokens : option Z;
  du_output_tokens : option Z;
  du_estimated_cost_usd : option f64;
  du_reserved_cost_usd : f64;
  du_token_provenance : string;
  du_cost_provenance : string;
}.

(** ** Identifiers *)

Definition validate_agent_identifier (field value : string) : result string unit :=
  bail is_empty value || (MAX_AGENT_ID_BYTES <? String.length value)%nat
    with Err (field +:+ " must contain 1..=256 bytes") ;;
  bail negb (forallb (λ byte, is_ascii_alphanumeric (byte_val byte) || one_of "-_.:" (byte_val byte))
         (String.list_ascii_of_string value))
    with Err (field +:+ " contains unsupported characters") ;;
  Ok tt.

Definition require_current_scope (field actual expected : string) : result string unit :=
  _u <-? validate_agent_identifier field actual ;;
  bail negb (bool_decide (actual = expected))
    with Err (field +:+ " '" +:+ actual +:+ "' does not match current " +:+ field +:+ " '"
              +:+ expected +:+ "'") ;;
  Ok tt.

Definition bounded_text (field text : string) (max : nat) : result string unit :=
  if (max <? String.length text)%nat
  then Err (field +:+ " exceeds " +:+ pretty (Z.of_nat max) +:+ " byte cap") else Ok tt.

(** [for value in values { validate_agent_identifier(field, value)?; }]. *)
Fixpoint validate_identifiers (field : string) (values : list string) : result string unit :=
  match values with
  | [] => Ok tt
  | value :: values =>
    _u <-? validate_agent_identifier field value ;;
    validate_identifiers field values
  end.

Section step.
Context `{RE : Regex} {V : Type} `{EV : EqDecision V} `{JV : JsonValue V} `{JT : JsonText V}
  `{JN : JsonNumbers V} `{SD : StoreDecoders V} `{Deps : RecursiveDeps} `{TE : TreeEncoder}
  `{RO : RowOrder}.

(** ** Capabilities *)

Definition capability_present (state : AgentState V) (capability : string) : bool :=
  existsb (λ configured, bool_decide (configured = capability)) (as_capability_profile state).

(** [metadata.get(key).and_then(Value::as_bool) == Some(true)]. *)
Definition metadata_flag (state : AgentState V) (key : string) : bool :=
  bool_decide (as_metadata state !! key ≫= as_bool = Some true).

Definition action_authorized_by_capabilities (action : AgentAction) (state : AgentState V) : bool :=
  let recursively_scoped := metadata_flag state "recursive_authority_enforced" in
  match action with
  | Wait | Complete => true
  | UpdateScratchpadSummary _ | EmitNote _ | RecordObservation _ => capability_present state "memory"
  | ReadMailbox | AckMailboxMessage _ => capability_present state "mailbox"
  | ProposeChildTask _ => capability_present state "child_task"
  | RequestHandoff _ | AcceptHandoff _ | RejectHandoff _ =>
    negb recursively_scoped && capability_present state "handoff"
  | CancelProposal _ => existsb (capability_present state) ["child_task"; "handoff"; "review"; "debate"]
  | RequestReview _ | SubmitReviewVerdict _ => capability_present state "review"
  | OpenDebate _ | SubmitDebatePosition _ | ResolveDebate _ => capability_present state "debate"
  | Unsupported _ => true
  end.

(** The condition of [filter] in [allowed_agent_action_types]. *)
Definition action_type_allowed (state : AgentState V) (action : string) : bool :=
  let recursively_scoped := metadata_flag state "recursive_authority_enforced" in
  let is_any names := bool_decide (action ∈ names) in
  if is_any ["wait"; "complete"] then true
  else if is_any ["update_scratchpad_summary"; "emit_note"; "record_observation"]
  then capability_present state "memory"
  else if is_any ["read_mailbox"; "ack_message"] then capability_present state "mailbox"
  else if is_any ["propose_child_task"] then capability_present state "child_task"
  else if is_any ["request_handoff"; "accept_handoff"; "reject_handoff"]
  then negb recursively_scoped && capability_present state "handoff"
  else if is_any ["cancel_proposal"]
  then existsb (capability_present state) ["child_task"; "handoff"; "review"; "debate"]
  else if is_any ["request_review"; "submit_review_verdict"] then capability_present state "review"
  else if is_any ["open_debate"; "submit_debate_position"; "resolve_debate"]
  then capability_present state "debate"
  else false.

Definition allowed_agent_action_types (state : AgentState V) : list string :=
  filter (λ action, action_type_allowed state action = true) AGENT_ACTION_TYPES.

(** ** An action in its step *)

Record AgentStepContext : Type := mkStepContext {
  sx_agent_id : string;
  sx_run_id : string;
  sx_node_id : string;
  sx_workflow_id : string;
  sx_agent_state : option (AgentState V);
  sx_mailbox_pending_count : Z;
  sx_memory_digest : option V;
  sx_memory_context : option V;
  sx_memory_state_read_bytes : Z;
  sx_node_metadata : V;
}.

Definition validate_correlation (value : string) : result string unit :=
  validate_agent_identifier "correlation_id" value.

Definition validate_child_task (proposal : ChildTaskProposal) (context : AgentStepContext)
    : result string unit :=
  bail negb (bool_decide (cp_schema_version proposal = CHILD_TASK_PROPOSAL_SCHEMA_VERSION))
    with Err "invalid child task proposal schema_version" ;;
  _u <-? validate_correlation (cp_correlation_id proposal) ;;
  _u <-? require_current_scope "run_id" (cp_run_id proposal) (sx_run_id context) ;;
  _u <-? require_current_scope "agent_id" (cp_agent_id proposal) (sx_agent_id context) ;;
  _u <-? require_current_scope "node_id" (cp_parent_node_id proposal) (sx_node_id context) ;;
  _u <-? bounded_text "proposal objective" (cp_objective proposal) MAX_PROPOSAL_OBJECTIVE_BYTES ;;
  bounded_text "proposal context_summary" (cp_context_summary proposal) MAX_NOTE_BYTES.

Definition validate_handoff (request : HandoffRequest) (context : AgentStepContext)
    : result string unit :=
  bail negb (bool_decide (ho_schema_version request = HANDOFF_REQUEST_SCHEMA_VERSION))
    with Err "invalid handoff request schema_version" ;;
  _u <-? validate_correlation (ho_correlation_id request) ;;
  _u <-? require_current_scope "run_id" (ho_run_id request) (sx_run_id context) ;;
  _u <-? require_current_scope "agent_id" (ho_source_agent_id request) (sx_agent_id context) ;;
  _u <-? require_current_scope "node_id" (ho_node_id request) (sx_node_id context) ;;
  _u <-? validate_agent_identifier "target_agent_id" (ho_target_agent_id request) ;;
  bail bool_decide (ho_target_agent_id request = sx_agent_id context)
    with Err "handoff target agent must be different from source agent" ;;
  _u <-? bounded_text "handoff objective" (ho_objective request) MAX_PROPOSAL_OBJECTIVE_BYTES ;;
  bounded_text "handoff context_summary" (ho_context_summary request) MAX_NOTE_BYTES.

Definition validate_review (request : ReviewRequest) (context : AgentStepContext)
    : result string unit :=
  bail negb (bool_decide (re_schema_version request = "review_request.v1"))
    with Err "invalid review request schema_version" ;;
  _u <-? validate_correlation (re_correlation_id request) ;;
  _u <-? require_current_scope "run_id" (re_run_id request) (sx_run_id context) ;;
  _u <-? require_current_scope "node_id" (re_node_id request) (sx_node_id context) ;;
  _u <-? validate_agent_identifier "target_agent_id" (re_target_agent_id request) ;;
  _u <-? bounded_text "review subject_summary" (re_subject_summary request)
           MAX_REVIEW_DEBATE_TEXT_BYTES ;;
  bounded_text "review rationale_summary" (re_rationale_summary request) MAX_REVIEW_DEBATE_TEXT_BYTES.

Definition validate_verdict (verdict : ReviewVerdict) (context : AgentStepContext)
    : result string unit :=
  bail negb (bool_decide (rv_schema_version verdict = "review_verdict.v1"))
    with Err "invalid review verdict schema_version" ;;
  _u <-? validate_correlation (rv_correlation_id verdict) ;;
  _u <-? validate_agent_identifier "review_request_id" (rv_review_request_id verdict) ;;
  _u <-? require_current_scope "run_id" (rv_run_id verdict) (sx_run_id context) ;;
  _u <-? require_current_scope "node_id" (rv_node_id verdict) (sx_node_id context) ;;
  bail negb (bool_decide (rv_verdict verdict ∈ REVIEW_VERDICTS))
    with Err ("invalid review verdict: " +:+ rv_verdict verdict) ;;
  bounded_text "review rationale_summary" (rv_rationale_summary verdict) MAX_REVIEW_DEBATE_TEXT_BYTES.

Definition validate_debate (request : DebateRequest) (context : AgentStepContext)
    : result string unit :=
  let participants := db_participant_agent_ids request in
  bail negb (bool_decide (db_schema_version request = "debate_request.v1"))
    with Err "invalid debate request schema_version" ;;
  _u <-? validate_correlation (db_correlation_id request) ;;
  _u <-? require_current_scope "run_id" (db_run_id request) (sx_run_id context) ;;
  _u <-? require_current_scope "node_id" (db_node_id request) (sx_node_id context) ;;
  bail bool_decide (participants = []) || (MAX_DEBATE_PARTICIPANTS <? length participants)%nat
    with Err "debate participant count must be 1..=8" ;;
  _u <-? validate_identifiers "participant_agent_id" participants ;;
  bail negb (length (remove_dups participants) =? length participants)%nat
    with Err "debate participant_agent_ids must be unique" ;;
  bail negb ((1 <=? db_max_rounds request) && (db_max_rounds request <=? MAX_DEBATE_ROUNDS))
    with Err "debate max_rounds must be 1..=10" ;;
  bounded_text "debate subject_summary" (db_subject_summary request) MAX_REVIEW_DEBATE_TEXT_BYTES.

Definition validate_position (position : DebatePosition) (context : AgentStepContext)
    : result string unit :=
  bail negb (bool_decide (dp_schema_version position = "debate_position.v1"))
    with Err "invalid debate position schema_version" ;;
  _u <-? validate_correlation (dp_correlation_id position) ;;
  _u <-? validate_agent_identifier "debate_id" (dp_debate_id position) ;;
  _u <-? require_current_scope "run_id" (dp_run_id position) (sx_run_id context) ;;
  _u <-? require_current_scope "node_id" (dp_node_id position) (sx_node_id context) ;;
  _u <-? bounded_text "debate position" (dp_position position) MAX_REVIEW_DEBATE_TEXT_BYTES ;;
  bounded_text "debate rationale_summary" (dp_rationale_summary position) MAX_REVIEW_DEBATE_TEXT_BYTES.

Definition validate_resolution (resolution : DebateResolution) (context : AgentStepContext)
    : result string unit :=
  let optional_text field text :=
    match text with
    | Some value => bounded_text field value MAX_REVIEW_DEBATE_TEXT_BYTES
    | None => Ok tt
    end in
  bail negb (bool_decide (dz_schema_version resolution = "debate_resolution.v1"))
    with Err "invalid debate resolution schema_version" ;;
  _u <-? validate_correlation (dz_correlation_id resolution) ;;
  _u <-? validate_agent_identifier "debate_id" (dz_debate_id resolution) ;;
  _u <-? require_current_scope "run_id" (dz_run_id resolution) (sx_run_id context) ;;
  _u <-? require_current_scope "node_id" (dz_node_id resolution) (sx_node_id context) ;;
  _u <-? bounded_text "debate resolution" (dz_resolution resolution) MAX_REVIEW_DEBATE_TEXT_BYTES ;;
  _u <-? optional_text "debate winning_position" (dz_winning_position resolution) ;;
  optional_text "debate unresolved_risks" (dz_unresolved_risks resolution).

Definition validate_agent_action_context (action : AgentAction) (context : AgentStepContext)
    : result string unit :=
  _u <-? validate_agent_identifier "agent_id" (sx_agent_id context) ;;
  _u <-? validate_agent_identifier "run_id" (sx_run_id context) ;;
  _u <-? validate_agent_identifier "node_id" (sx_node_id context) ;;
  _u <-? validate_agent_identifier "workflow_id" (sx_workflow_id context) ;;
  state <-? ok_or (sx_agent_state context) "agent state is required for capability authorization" ;;
  bail negb (bool_decide (as_agent_id state = sx_agent_id context))
    || negb (bool_decide (as_run_id state = sx_run_id context))
    with Err "agent state scope does not match current execution" ;;
  bail negb (action_authorized_by_capabilities action state)
    with Err ("agent capability profile does not authorize action " +:+ action_type action) ;;
  match action with
  | Wait | Complete | ReadMailbox => Ok tt
  | UpdateScratchpadSummary text | EmitNote text | RecordObservation text =>
    bounded_text "action text" text MAX_NOTE_BYTES
  | AckMailboxMessage message_id => validate_agent_identifier "message_id" message_id
  | Unsupported name => Err ("unsupported action: " +:+ name)
  | ProposeChildTask proposal => validate_child_task proposal context
  | RequestHandoff request => validate_handoff request context
  | AcceptHandoff correlation_id | RejectHandoff correlation_id | CancelProposal correlation_id =>
    validate_correlation correlation_id
  | RequestReview request => validate_review request context
  | SubmitReviewVerdict verdict => validate_verdict verdict context
  | OpenDebate request => validate_debate request context
  | SubmitDebatePosition position => validate_position position context
  | ResolveDebate resolution => validate_resolution resolution context
  end.

(** The descriptor of an action in the audit log: no text of the action. *)
Definition text_size (text : string) : V := json_int (str_len text).

Definition sanitized_action_descriptor (action : AgentAction) : V :=
  object_of match action with
  | Wait => [("action_type", json_string "wait")]
  | Complete => [("action_type", json_string "complete")]
  | UpdateScratchpadSummary text =>
    [("action_type", json_string "update_scratchpad"); ("char_count", text_size text)]
  | ReadMailbox => [("action_type", json_string "read_mailbox")]
  | AckMailboxMessage id =>
    [("action_type", json_string "ack_message"); ("message_id", json_string id)]
  | EmitNote text => [("action_type", json_string "emit_note"); ("char_count", text_size text)]
  | RecordObservation text =>
    [("action_type", json_string "record_observation"); ("char_count", text_size text)]
  | ProposeChildTask p =>
    [("action_type", json_string "propose_child_task");
     ("correlation_id", json_string (cp_correlation_id p));
     ("agent_id", json_string (cp_agent_id p)); ("objective_char_count", text_size (cp_objective p))]
  | RequestHandoff r =>
    [("action_type", json_string "request_handoff");
     ("correlation_id", json_string (ho_correlation_id r));
     ("source_agent_id", json_string (ho_source_agent_id r));
     ("target_agent_id", json_string (ho_target_agent_id r))]
  | AcceptHandoff cid =>
    [("action_type", json_string "accept_handoff"); ("correlation_id", json_string cid)]
  | RejectHandoff cid =>
    [("action_type", json_string "reject_handoff"); ("correlation_id", json_string cid)]
  | CancelProposal cid =>
    [("action_type", json_string "cancel_proposal"); ("correlation_id", json_string cid)]
  | RequestReview r =>
    [("action_type", json_string "request_review");
     ("correlation_id", json_string (re_correlation_id r));
     ("target_agent_id", json_string (re_target_agent_id r)); ("blocking", json_bool (re_blocking r))]
  | SubmitReviewVerdict v =>
    [("action_type", json_string "submit_review_verdict");
     ("correlation_id", json_string (rv_correlation_id v));
     ("review_request_id", json_string (rv_review_request_id v));
     ("verdict", json_string (rv_verdict v)); ("blocking", json_bool (rv_blocking v))]
  | OpenDebate d =>
    [("action_type", json_string "open_debate"); ("correlation_id", json_string (db_correlation_id d));
     ("participant_count", json_int (vec_len (db_participant_agent_ids d)));
     ("max_rounds", json_int (db_max_rounds d))]
  | SubmitDebatePosition p =>
    [("action_type", json_string "submit_debate_position");
     ("correlation_id", json_string (dp_correlation_id p));
     ("debate_id", json_string (dp_debate_id p)); ("position_char_count", text_size (dp_position p))]
  | ResolveDebate r =>
    [("action_type", json_string "resolve_debate"); ("correlation_id", json_string (dz_correlation_id r));
     ("debate_id", json_string (dz_debate_id r));
     ("has_winning_position", json_bool (is_some (dz_winning_position r)))]
  | Unsupported name => [("action_type", json_string "unsupported"); ("name", json_string name)]
  end.

Definition sanitize_text_field (text : string) : string * string :=
  if contains_sensitive_patterns text
  then (apply_size_cap (redact_sensitive_patterns text) MAX_NOTE_BYTES, "redacted")
  else if (MAX_NOTE_BYTES <? String.length text)%nat
  then (apply_size_cap text MAX_NOTE_BYTES, "capped")
  else (text, "none").

(** ** The usage of a decision *)

Definition usage_value (usage : AgentDecisionUsage) : V :=
  object_of [("provider_id", json_string (du_provider_id usage));
             ("model", json_string (du_model usage));
             ("input_tokens", json_opt json_int (du_input_tokens usage));
             ("output_tokens", json_opt json_int (du_output_tokens usage));
             ("estimated_cost_usd", json_opt json_f64 (du_estimated_cost_usd usage));
             ("reserved_cost_usd", json_f64 (du_reserved_cost_usd usage));
             ("token_provenance", json_string (du_token_provenance usage));
             ("cost_provenance", json_string (du_cost_provenance usage))].

Definition negative (tokens : option Z) : bool :=
  match tokens with Some value => value <? 0 | None => false end.

(** What is known about tokens and cost goes with where it is said to come from. *)
Definition provenance_known (token_provenance cost_provenance : string) : bool :=
  bool_decide (token_provenance ∈ ["provider_reported"; "unavailable"])
  && bool_decide (cost_provenance ∈ ["harness_derived"; "unavailable"]).

Definition validate_agent_decision_usage (usage : AgentDecisionUsage) : result string unit :=
  _u <-? validate_agent_identifier "provider_id" (du_provider_id usage) ;;
  _u <-? validate_agent_identifier "model" (du_model usage) ;;
  bail negative (du_input_tokens usage) || negative (du_output_tokens usage)
    with Err "provider usage token counts must be non-negative" ;;
  bail negb (f64_is_finite (du_reserved_cost_usd usage))
    || f64_leb (du_reserved_cost_usd usage) f64_zero
    with Err "provider reserved cost must be finite and positive" ;;
  bail match du_estimated_cost_usd usage with
       | Some value => negb (f64_is_finite value) || f64_ltb value f64_zero
       | None => false
       end
    with Err "provider estimated cost must be finite and non-negative" ;;
  bail negb (provenance_known (du_token_provenance usage) (du_cost_provenance usage))
    with Err "provider usage provenance is invalid" ;;
  let has_complete_tokens := is_some (du_input_tokens usage) && is_some (du_output_tokens usage) in
  bail negb (Bool.eqb (bool_decide (du_token_provenance usage = "provider_reported"))
                      has_complete_tokens)
    with Err "provider token usage and provenance are inconsistent" ;;
  bail negb (Bool.eqb (bool_decide (du_cost_provenance usage = "harness_derived"))
                      (is_some (du_estimated_cost_usd usage)))
    with Err "provider cost usage and provenance are inconsistent" ;;
  Ok tt.

(** ** The result of a step *)

Definition agent_step_fail (message : string) (elapsed : Z) : NodeExecutionOutput :=
  mkOutput "failed" "agent_step" None (Some "agent_step_error") (Some message) None None None
    (Some elapsed) None None.

(** [optional_i64(field)]. *)
Definition optional_i64 (usage : option V) (field : string) : result string (option Z) :=
  match usage ≫= λ usage, json_get usage field with
  | None => Ok None
  | Some value =>
    if json_is_null value then Ok None
    else match as_i64 value with
         | Some tokens => if 0 <=? tokens then Ok (Some tokens)
                          else Err ("stored provider usage " +:+ field +:+ " is invalid")
         | None => Err ("stored provider usage " +:+ field +:+ " is invalid")
         end
  end.

Definition stored_cost (usage : option V) : result string (option f64) :=
  match usage ≫= λ usage, json_get usage "estimated_cost_usd" with
  | None => Ok None
  | Some value =>
    if json_is_null value then Ok None
    else match as_f64 value with
         | Some cost => if f64_is_finite cost && f64_leb f64_zero cost then Ok (Some cost)
                        else Err "stored provider usage estimated_cost_usd is invalid"
         | None => Err "stored provider usage estimated_cost_usd is invalid"
         end
  end.

Definition stored_latency (parsed : V) (elapsed : Z) : result string Z :=
  match json_get parsed "execution_latency_ms" with
  | None => Ok elapsed
  | Some value =>
    match as_i64 value with
    | Some latency => if 0 <=? latency then Ok latency
                      else Err "stored agent execution latency is invalid"
    | None => Err "stored agent execution latency is invalid"
    end
  end.

Definition completed_agent_step_output (result : string) (elapsed : Z)
    : Prelude.result string NodeExecutionOutput :=
  parsed <-? ok_or (json_parse result) "invalid stored agent action result JSON" ;;
  let usage := json_get parsed "provider_usage" in
  input_tokens <-? optional_i64 usage "input_tokens" ;;
  output_tokens <-? optional_i64 usage "output_tokens" ;;
  estimated_cost <-? stored_cost usage ;;
  latency_ms <-? stored_latency parsed elapsed ;;
  _u <-? match usage with
         | None => Ok tt
         | Some usage =>
           token_provenance <-? ok_or (json_get_str usage "token_provenance")
             "stored provider token provenance is invalid" ;;
           cost_provenance <-? ok_or (json_get_str usage "cost_provenance")
             "stored provider cost provenance is invalid" ;;
           bail negb (provenance_known token_provenance cost_provenance)
             || negb (Bool.eqb (bool_decide (token_provenance = "provider_reported"))
                               (is_some input_tokens && is_some output_tokens))
             || negb (Bool.eqb (bool_decide (cost_provenance = "harness_derived"))
                               (is_some estimated_cost))
             with Err "stored provider usage and provenance are inconsistent" ;;
           Ok tt
         end ;;
  Ok (mkOutput "completed" "agent_step" (Some result) None None input_tokens output_tokens
        estimated_cost (Some latency_ms) None None).

Definition action_result_with_state_metrics (result : list (string * V))
    (state_read_bytes state_write_bytes : Z) : string :=
  json_print (json_object
    (<["state_write_bytes" := json_int (Z.max state_write_bytes 0)]>
    (<["state_read_bytes" := json_int (Z.max state_read_bytes 0)]> (list_to_map result)))).

Definition estimate_memory_state_bytes (digest context : option V) : Z :=
  let persisted_digest := match digest with
                          | Some digest => Some digest
                          | None => context ≫= λ value, json_get value "memory_digest"
                          end in
  match (match persisted_digest with Some digest => Some digest | None => context end) with
  | Some value => str_len (json_print value)
  | None => 0
  end.

(** ** The authority of a recursive node *)

Definition workflow_run_boundaries : V :=
  object_of [("execution_authority", json_string "disabled");
             ("target_repository_writes", json_string "disabled");
             ("runtime_workers", json_string "env_gated_supervised");
             ("sandbox_process_execution", json_string "not_implemented");
             ("provider_calls", json_string "not_invoked");
             ("approval_execution_authority", json_string "disabled");
             ("resume_execution_authority", json_string "disabled");
             ("cancel_execution_authority", json_string "disabled");
             ("deploy_merge_controls", json_string "not_available")].

(** [get_workflow_run]: the fields of a run that an agent step reads. *)
Definition get_workflow_run (run_id : string) (db : database) : option V :=
  run ← workflow_runs db !! run_id;
  Some (object_of [
    ("boundaries", default workflow_run_boundaries (json_parse (wr_boundaries_json run)));
    ("nodes", json_array (workflow_run_nodes_locked run_id db))]).

(** [nodes.iter().find(|node| node.get("node_id") .. == Some(node_id))]. *)
Definition find_run_node (workflow_run : V) (node_id : string) : option V :=
  nodes ← json_get workflow_run "nodes" ≫= as_array;
  snd <$> list_find (λ node, json_get_str node "node_id" = Some node_id) nodes.

Definition string_set (l : list V) : option (gset string) := list_to_set <$> mapM as_str l.

Definition fixture_usage_valid (authority : RecursiveRootAuthority) : bool :=
  match UsageContract.fixture_usage (a_usage_contract authority) with
  | None => true
  | Some usage => (0 <? calls_remaining usage) && (0 <? tokens_remaining usage)
                  && (0 <? cost_micros_remaining usage) && (0 <? time_ms_remaining usage)
  end.

(** A boundary that is there says what the authority says. *)
Definition boundary_conflicts (workflow_run : V) (field : string) (value : V) : bool :=
  match json_get workflow_run "boundaries" ≫= λ boundaries, json_get boundaries field with
  | Some boundary => negb (bool_decide (boundary = value))
  | None => false
  end.

Definition persisted_recursive_root_authority (workflow_run : V) (root_node_id agent_id : string)
    : result string (RecursiveRootAuthority * string * Z * bool) :=
  root <-? ok_or (find_run_node workflow_run root_node_id) "recursive root workflow node is missing" ;;
  bail negb (bool_decide (json_get_str root "task_type" = Some "agent_step"))
    || negb (bool_decide (json_get_str root "recursive_root_node_id" = Some root_node_id))
    || negb (bool_decide (json_get_str root "agent_id" = Some agent_id))
    with Err "recursive root workflow identity is not exact" ;;
  receipt <-? ok_or (non_empty (json_get_str root "creation_receipt_sha256"))
    "recursive root creation receipt is missing" ;;
  value <-? ok_or (json_get root "recursive_root_authority") "recursive root authority is missing" ;;
  authority <-? ok_or (authority_from_value value) "recursive root authority is malformed" ;;
  profile <-? ok_or (json_get root "capability_profile" ≫= as_array)
    "recursive root capability authority is missing" ;;
  node_capabilities <-? ok_or (string_set profile)
    "recursive root capability authority is malformed" ;;
  bail negb (bool_decide (a_schema_version authority = RECURSIVE_ROOT_AUTHORITY_VERSION))
    || bool_decide (a_capabilities authority = ∅)
    || negb (bool_decide (a_capabilities authority = node_capabilities))
    || negb (bool_decide (scope_capabilities (a_scope authority) = a_capabilities authority))
    || negb (can_spend (a_tree_budget authority) (a_child_budget authority))
    || (calls_remaining (a_tree_budget authority) =? 0)
    || (calls_remaining (a_child_budget authority) =? 0)
    || negb (fixture_usage_valid authority)
    with Err "recursive root authority is inconsistent" ;;
  bail boundary_conflicts workflow_run "repository" (option_value (repository (a_scope authority)))
    with Err "recursive root repository authority is inconsistent" ;;
  bail boundary_conflicts workflow_run "allowed_paths" (set_value (allowed_paths (a_scope authority)))
    with Err "recursive root path authority is inconsistent" ;;
  Ok (authority, receipt, default 0 (json_get root "attempt_count" ≫= as_i64),
      bool_decide (json_get_str root "db_status" = Some "running")).

(** The node that is executed. *)
Record NodeExecutionInput : Type := mkNodeInput {
  in_node_id : string;
  in_task_type : string;
  in_run_id : string;
  in_workflow_id : string;
  in_node_metadata : V;
}.

(** The agent's state with the authority of the node instead of its own. *)
Definition scoped_state (agent_state : AgentState V) (capabilities : gset string)
    (scope : RecursiveScope) (tenant_id workspace_id : V) (kind : string) : AgentState V :=
  agent_state
    <| as_capability_profile := sort_strings (elements capabilities) |>
    <| as_metadata :=
         <[kind := json_bool true]>
         (<["recursive_authority_enforced" := json_bool true]>
         (<["workspace_id" := workspace_id]>
         (<["tenant_id" := tenant_id]>
         (<["allowed_paths" := set_value (allowed_paths scope)]>
         (<["repository" := option_value (repository scope)]> (as_metadata agent_state)))))) |>.

Definition boundary (workflow_run : V) (field : string) : option V :=
  json_get workflow_run "boundaries" ≫= λ boundaries, json_get boundaries field.

Definition root_conflicts (authority : RecursiveRootAuthority) (root_node : string)
    (tenant_id workspace_id : option string) (tree : RecursiveTree) : bool :=
  negb (bool_decide (root_node_id tree = root_node))
  || negb (bool_decide (root_scope tree = a_scope authority))
  || negb (bool_decide (root_capabilities tree = a_capabilities authority))
  || negb (bool_decide (root_tenant_id tree = tenant_id))
  || negb (bool_decide (root_workspace_id tree = workspace_id))
  || negb (bool_decide (root_budget_limit tree = Some (a_tree_budget authority)))
  || negb (bool_decide (root_child_budget_limit tree = Some (a_child_budget authority))).

Definition effective_root_state (input : NodeExecutionInput) (agent_state : AgentState V)
    (root_node : string) (persisted_tree : option RecursiveTree) (db : database)
    : result string (AgentState V) :=
  bail negb (bool_decide (root_node = in_node_id input))
    with Err "recursive root workflow identity is not exact" ;;
  workflow_run <-? ok_or (get_workflow_run (in_run_id input) db)
    "recursive root workflow run is missing" ;;
  checked <-? persisted_recursive_root_authority workflow_run root_node (as_agent_id agent_state) ;;
  let '(authority, _, _, _) := checked in
  bail match persisted_tree with
       | Some tree => root_conflicts authority root_node (boundary workflow_run "tenant_id" ≫= as_str)
                        (boundary workflow_run "workspace_id" ≫= as_str) tree
       | None => false
       end
    with Err "recursive root authority conflicts with persisted tree" ;;
  Ok (scoped_state agent_state (a_capabilities authority) (a_scope authority)
        (default json_null (boundary workflow_run "tenant_id"))
        (default json_null (boundary workflow_run "workspace_id")) "recursive_root_authority").

Definition effective_child_state (input : NodeExecutionInput) (agent_state : AgentState V)
    (recursive_node_id : string) (persisted_tree : option RecursiveTree)
    : result string (AgentState V) :=
  let metadata := in_node_metadata input in
  bail negb (bool_decide (recursive_node_id = in_node_id input))
    with Err "recursive workflow node identity is not exact" ;;
  tree <-? ok_or persisted_tree "recursive_tree_missing" ;;
  bail negb (bool_decide (workflow_id tree = in_workflow_id input))
    with Err "recursive workflow identity is not exact" ;;
  node <-? ok_or (nodes tree !! recursive_node_id) "recursive_node_missing" ;;
  bail negb (bool_decide (json_get metadata "recursive_capabilities"
                          = Some (set_value (n_capabilities node))))
    with Err "recursive capability profile binding is inconsistent" ;;
  bail negb (bool_decide (json_get metadata "recursive_scope" = Some (scope_value (n_scope node))))
    with Err "recursive scope binding is inconsistent" ;;
  bail negb (bool_decide (json_get metadata "recursive_tenant_id"
                          = Some (option_value (n_tenant_id node))))
    with Err "recursive tenant binding is inconsistent" ;;
  bail negb (bool_decide (json_get metadata "recursive_workspace_id"
                          = Some (option_value (n_workspace_id node))))
    with Err "recursive workspace binding is inconsistent" ;;
  Ok (scoped_state agent_state (n_capabilities node) (n_scope node) (option_value (n_tenant_id node))
        (option_value (n_workspace_id node)) "recursive_child_authority").

Definition effective_agent_state_for_recursive_node (env : env_vars) (input : NodeExecutionInput)
    (agent_state : AgentState V) (db : database) : result string (AgentState V) :=
  persisted_tree <-? load_recursive_tree (in_run_id input) db ;;
  match json_get_str (in_node_metadata input) "recursive_root_node_id" with
  | Some root_node =>
    if negb (recursive_enabled env) && is_none persisted_tree then Ok agent_state
    else effective_root_state input agent_state root_node persisted_tree db
  | None =>
    match json_get_str (in_node_metadata input) "recursive_node_id" with
    | Some recursive_node_id => effective_child_state input agent_state recursive_node_id persisted_tree
    | None =>
      bail match persisted_tree with
           | Some tree => negb (bool_decide (in_node_id input = root_node_id tree))
                          && is_some (nodes tree !! in_node_id input)
           | None => false
           end
        with Err "recursive workflow child identity is missing" ;;
      Ok agent_state
    end
  end.
End step.
