(* ===== verification/AgentExecute.v ===== *)
(** * The step of an agent

    Model of [AgentStepExecutor] in node_executor.rs: the step observes the state of
    the agent, asks the decision source for one action, checks it, prepares the
    operations of the action and applies them once.  A proposal that is read as JSON
    is its row; what an action reads before it is applied is one snapshot, and the
    application is a transaction of its own. *)

From S2P Require Import Prelude Text Json Float64 RecursiveExecution Persistence TreeStore NodeExecution WorkflowRuns RunGraph AgentMemory AgentRuntime AgentActions AgentStep.
Import FailureReason (RecursiveFailureReason).

Local Open Scope Z_scope.

(** [serde_json::to_vec(action)]. *)
Class ActionCodec : Type := action_to_vec : AgentAction → string.

Section queries.
Context {V : Type} `{JV : JsonValue V} `{JT : JsonText V} `{TO : TableOrder}.

(** ** Queries *)

Definition addressed (agent_id run_id status : string) (row : mail_row) : Prop :=
  mb_to_agent_id row = agent_id ∧ mb_run_id row = Some run_id ∧ mb_status row = status.
#[export] Instance addressed_dec agent_id run_id status row : Decision (addressed agent_id run_id status row).
Proof. unfold addressed. apply _. Defined.

(** [list_mailbox(Some(agent_id), Some(run_id), None, Some(status), limit, 0)]: the
    latest messages first. *)
Definition list_mailbox (agent_id run_id status : string) (limit : nat) (d : agent_db)
    : list (MailboxMessage (V := V)) :=
  (λ '(message_id, row), sqlite_mailbox_row message_id row) <$>
    take limit (reverse (filter (λ kr, addressed agent_id run_id status kr.2)
                           (table_rows (agent_mailbox d)))).

Definition count_mailbox (agent_id run_id status : string) (d : agent_db) : Z :=
  vec_len (filter (λ kr, addressed agent_id run_id status kr.2) (map_to_list (agent_mailbox d))).

Definition get_proposal_in_run (proposal_id run_id : string) (d : agent_db) : option proposal_row :=
  row ← agent_proposals d !! proposal_id;
  if in_run run_id row then Some row else None.

(** [ORDER BY created_at DESC LIMIT 1]. *)
Definition latest_proposal (selected : proposal_row → bool) (d : agent_db)
    : option (string * proposal_row) :=
  head (sort_by (λ a b, String.leb (pr_created_at b.2) (pr_created_at a.2))
    (filter (λ kr, selected kr.2 = true) (table_rows (agent_proposals d)))).

Definition find_pending_handoff_for_target (correlation_id target_agent_id run_id : string)
    (d : agent_db) : option (string * proposal_row) :=
  latest_proposal (λ row, bool_decide (pr_correlation_id row = correlation_id)
    && bool_decide (pr_target_agent_id row = Some target_agent_id) && in_run run_id row
    && bool_decide (pr_proposal_type row = "handoff") && pending row) d.

Definition find_proposal_by_correlation (correlation_id agent_id run_id : string) (d : agent_db)
    : option (string * proposal_row) :=
  latest_proposal (λ row, bool_decide (pr_correlation_id row = correlation_id)
    && (bool_decide (pr_agent_id row = agent_id)
        || bool_decide (pr_target_agent_id row = Some agent_id)) && in_run run_id row) d.
End queries.

Section execute.
Context `{RE : Regex} {V : Type} `{EV : EqDecision V} `{JV : JsonValue V} `{JT : JsonText V}
  `{JN : JsonNumbers V} `{SD : StoreDecoders V} `{Deps : RecursiveDeps} `{TE : TreeEncoder}
  `{RO : RowOrder} `{TO : TableOrder} `{AC : ActionCodec}.

(** ** Arguments and results of an action *)

(** The arguments of [execute_action] but the action. *)
Record action_call : Type := mkCall {
  ac_agent_id : string;
  ac_run_id : string;
  ac_workflow_id : string;
  ac_node_id : string;
  ac_agent_state : AgentState V;
  ac_mailbox_pending_count : Z;
  ac_memory_state_read_bytes : Z;
  ac_provider_usage : option AgentDecisionUsage;
  ac_latency_ms : Z;
}.

Definition action_sha256 (action : AgentAction) : string := sha256_hex (action_to_vec action).
(** [&action_sha256[..24]]. *)
Definition stable_suffix (action : AgentAction) : string := str_take 24 (action_sha256 action).

Definition execution_usage_receipt (call : action_call) (action : AgentAction) : string :=
  "agent-action:" +:+ sha256_hex (join NUL [ac_run_id call; ac_node_id call; ac_agent_id call;
                                            action_sha256 action]).

(** The mutation of an action, with the result it prints. *)
Definition mutation_of (call : action_call) (action : AgentAction) (result : list (string * V))
    (state_write_bytes : Z) (operations : list (AgentMutationOp V)) : AgentActionMutation V :=
  mkMutation (ac_run_id call) (ac_node_id call) (ac_agent_id call) (action_sha256 action)
    (action_type action)
    (action_result_with_state_metrics result (ac_memory_state_read_bytes call) state_write_bytes)
    operations.

(** [apply]: the usage of the decision is added to the result. *)
Definition with_usage (call : action_call) (action : AgentAction) (mutation : AgentActionMutation V)
    : Prelude.result string (AgentActionMutation V) :=
  result <-? ok_or (json_parse (am_result_json mutation)) "invalid agent action result JSON" ;;
  object <-? ok_or (as_object result) "agent action result must be an object" ;;
  let object := <["execution_latency_ms" := json_int (Z.max (ac_latency_ms call) 0)]>
    (<["execution_usage_receipt" := json_string (execution_usage_receipt call action)]> object) in
  let object := match ac_provider_usage call with
                | Some usage => <["provider_usage" := usage_value usage]> object
                | None => object
                end in
  Ok (mkMutation (am_run_id mutation) (am_node_id mutation) (am_agent_id mutation)
        (am_action_sha256 mutation) (am_action_type mutation) (json_print (json_object object))
        (am_operations mutation)).

(** The audit event of an action. *)
Definition step_audit (call : action_call) (action : string) (details : list (string * V))
    : AgentMutationOp V :=
  AppendAudit action ("agent_state/" +:+ ac_agent_id call +:+ "/" +:+ ac_run_id call)
    (object_of details).

Definition require_agent_in_run (agent_id run_id : string) (d : agent_db) : Prelude.result string unit :=
  _u <-? validate_agent_identifier "target_agent_id" agent_id ;;
  if is_some (agent_state d !! (agent_id, run_id)) then Ok tt
  else Err ("target agent " +:+ agent_id +:+ " is not registered in current run " +:+ run_id).

(** ** Notes, memory and mailbox *)

Definition prepare_complete (call : action_call) : list (AgentMutationOp V) :=
  if metadata_flag (ac_agent_state call) "recursive_child_authority" then []
  else [UpdateAgentState (as_updated_at (ac_agent_state call)) (Some "completed") None None].

Definition prepare_scratchpad (call : action_call) (action : AgentAction) (text : string)
    : Prelude.result string (AgentActionMutation V) :=
  digest <-? ok_or (consolidate_memory_digest (ac_agent_state call) (Some text)
                      (ac_mailbox_pending_count call)) "failed to consolidate memory digest" ;;
  let safe_summary := default EmptyString (json_get_str digest "summary") in
  Ok (mutation_of call action [("action", json_string "update_scratchpad")]
        (estimate_memory_state_bytes (Some digest) None)
        [UpdateAgentState (as_updated_at (ac_agent_state call)) None (Some safe_summary)
           (Some (memory_digest_to_metadata_patch digest))]).

(** A message as [ReadMailbox] shows it. *)
Definition message_summary (m : MailboxMessage (V := V)) : V :=
  let proposal_id :=
    get_str (mm_metadata m) "proposal_id" ≫= λ value,
      match validate_agent_identifier "proposal_id" value with Ok _ => Some value | Err _ => None end in
  object_of [("message_id", json_string (mm_message_id m));
             ("correlation_id", option_value (mb_correlation_id (mm_row m)));
             ("from", json_string (mb_from_agent_id (mm_row m)));
             ("node_id", option_value (mb_node_id (mm_row m)));
             ("type", json_string (mb_message_type (mm_row m)));
             ("summary", option_value (mb_body_summary (mm_row m)));
             ("proposal_id", option_value proposal_id)].

Definition prepare_read_mailbox (call : action_call) (action : AgentAction) (d : agent_db)
    : AgentActionMutation V :=
  let summaries := message_summary <$> list_mailbox (ac_agent_id call) (ac_run_id call) "pending" 10 d in
  mutation_of call action [("action", json_string "read_mailbox");
    ("mailbox_count", json_int (vec_len summaries)); ("messages", json_array summaries)] 0 [].

Definition prepare_note (call : action_call) (action : AgentAction) (event text : string)
    : AgentActionMutation V :=
  let redact_status := (sanitize_text_field text).2 in
  mutation_of call action [("action", json_string (action_type action));
    ("redaction_status", json_string redact_status)] 0
    [step_audit call event [("redaction_status", json_string redact_status);
                            ("char_count", text_size text)]].

(** ** Handoffs *)

Definition prepare_handoff (call : action_call) (action : AgentAction) (request : HandoffRequest)
    (d : agent_db) : Prelude.result string (AgentActionMutation V) :=
  bail (MAX_PROPOSAL_OBJECTIVE_BYTES <? String.length (ho_objective request))%nat
    with Err "handoff objective exceeds 4096 byte cap" ;;
  bail bool_decide (ho_target_agent_id request = ac_agent_id call)
    with Err "handoff target agent must be different from source agent" ;;
  _u <-? require_agent_in_run (ho_target_agent_id request) (ac_run_id call) d ;;
  let proposal_id := "handoff-" +:+ stable_suffix action in
  let message_id := "msg-" +:+ stable_suffix action in
  Ok (mutation_of call action [("action", json_string "request_handoff");
        ("proposal_id", json_string proposal_id);
        ("correlation_id", json_string (ho_correlation_id request));
        ("target_agent_id", json_string (ho_target_agent_id request))] 0
       [InsertProposal proposal_id (ho_correlation_id request) (ho_node_id request) "handoff"
          (ho_objective request) (ho_context_summary request) (Some (ho_target_agent_id request))
          None None;
        InsertMessage message_id (ho_source_agent_id request) (ho_target_agent_id request)
          "handoff_request" (Some ("Objective: " +:+ ho_objective request))
          (Some (ho_correlation_id request)) None
          (object_of [("proposal_id", json_string proposal_id)]);
        step_audit call "agent_step.request_handoff" [
          ("proposal_id", json_string proposal_id);
          ("correlation_id", json_string (ho_correlation_id request));
          ("source_agent_id", json_string (ho_source_agent_id request));
          ("target_agent_id", json_string (ho_target_agent_id request))]]).

(** [AcceptHandoff] and [RejectHandoff]: the answer to the proposal and its sender. *)
Definition answer_handoff (call : action_call) (action : AgentAction) (correlation_id new_status
    message_prefix message_type body : string) (d : agent_db)
    : Prelude.result string (AgentActionMutation V) :=
  match find_pending_handoff_for_target correlation_id (ac_agent_id call) (ac_run_id call) d with
  | None => Err ("no pending handoff proposal found for correlation_id " +:+ correlation_id)
  | Some (pid, p) =>
    bail negb (pending p) with Err ("handoff proposal " +:+ pid +:+ " is not pending") ;;
    Ok (mutation_of call action [("action", json_string (action_type action));
          ("proposal_id", json_string pid); ("correlation_id", json_string correlation_id)] 0
         [UpdateProposalStatus pid new_status;
          InsertMessage (message_prefix +:+ stable_suffix action) (ac_agent_id call) (pr_agent_id p)
            message_type (Some body) (Some correlation_id) None
            (object_of [("proposal_id", json_string pid)]);
          step_audit call ("agent_step." +:+ action_type action)
            [("proposal_id", json_string pid); ("correlation_id", json_string correlation_id)]])
  end.

Definition prepare_cancel (call : action_call) (action : AgentAction) (correlation_id : string)
    (d : agent_db) : Prelude.result string (AgentActionMutation V) :=
  match find_proposal_by_correlation correlation_id (ac_agent_id call) (ac_run_id call) d with
  | None => Err ("no pending proposal found for correlation_id " +:+ correlation_id)
  | Some (pid, p) =>
    bail negb (pending p) with Err ("proposal " +:+ pid +:+ " is not pending") ;;
    bail negb (bool_decide (pr_agent_id p = ac_agent_id call))
      with Err ("only the proposal owner (" +:+ pr_agent_id p +:+ ") can cancel, not "
                +:+ ac_agent_id call) ;;
    Ok (mutation_of call action [("action", json_string "cancel_proposal");
          ("proposal_id", json_string pid); ("correlation_id", json_string correlation_id)] 0
         [UpdateProposalStatus pid "cancelled";
          step_audit call "agent_step.cancel_proposal"
            [("proposal_id", json_string pid); ("correlation_id", json_string correlation_id)]])
  end.

(** ** Reviews *)

Definition prepare_review (call : action_call) (action : AgentAction) (request : ReviewRequest)
    (d : agent_db) : Prelude.result string (AgentActionMutation V) :=
  bail negb (bool_decide (re_run_id request = ac_run_id call))
    with Err ("review request run_id '" +:+ re_run_id request +:+ "' does not match current run '"
              +:+ ac_run_id call +:+ "'") ;;
  bail bool_decide (re_target_agent_id request = ac_agent_id call)
    with Err "review target agent must be different from requesting agent" ;;
  _u <-? require_agent_in_run (re_target_agent_id request) (ac_run_id call) d ;;
  _u <-? bounded_text "subject_summary" (re_subject_summary request) MAX_REVIEW_DEBATE_TEXT_BYTES ;;
  _u <-? bounded_text "rationale_summary" (re_rationale_summary request)
           MAX_REVIEW_DEBATE_TEXT_BYTES ;;
  let proposal_id := "review-" +:+ stable_suffix action in
  Ok (mutation_of call action [("action", json_string "request_review");
        ("proposal_id", json_string proposal_id);
        ("correlation_id", json_string (re_correlation_id request));
        ("target_agent_id", json_string (re_target_agent_id request))] 0
       [InsertProposal proposal_id (re_correlation_id request) (re_node_id request) "review_request"
          (re_subject_summary request) (re_rationale_summary request)
          (Some (re_target_agent_id request)) None None;
        InsertMessage ("review-msg-" +:+ stable_suffix action) (ac_agent_id call)
          (re_target_agent_id request) "review_request"
          (Some ("Review requested: " +:+ re_subject_summary request))
          (Some (re_correlation_id request)) None
          (object_of [("proposal_id", json_string proposal_id);
                      ("blocking", json_bool (re_blocking request))]);
        step_audit call "review.requested" [
          ("run_id", json_string (ac_run_id call)); ("agent_id", json_string (ac_agent_id call));
          ("target_agent_id", json_string (re_target_agent_id request));
          ("proposal_id", json_string proposal_id);
          ("correlation_id", json_string (re_correlation_id request));
          ("blocking", json_bool (re_blocking request))]]).

Definition prepare_verdict (call : action_call) (action : AgentAction) (verdict : ReviewVerdict)
    (d : agent_db) : Prelude.result string (AgentActionMutation V) :=
  let pid := rv_review_request_id verdict in
  bail negb (bool_decide (rv_run_id verdict = ac_run_id call))
    with Err ("review verdict run_id '" +:+ rv_run_id verdict +:+ "' does not match current run '"
              +:+ ac_run_id call +:+ "'") ;;
  bail negb (bool_decide (rv_verdict verdict ∈ REVIEW_VERDICTS))
    with Err ("invalid verdict '" +:+ rv_verdict verdict +:+ "', expected one of "
              +:+ join ", " REVIEW_VERDICTS) ;;
  _u <-? bounded_text "rationale_summary" (rv_rationale_summary verdict)
           MAX_REVIEW_DEBATE_TEXT_BYTES ;;
  p <-? ok_or (get_proposal_in_run pid (ac_run_id call) d)
    ("review request proposal " +:+ pid +:+ " not found") ;;
  bail negb (bool_decide (pr_proposal_type p = "review_request"))
    with Err ("proposal " +:+ pid +:+ " is not a review_request") ;;
  bail negb (in_run (ac_run_id call) p)
    with Err ("review request " +:+ pid +:+ " belongs to run '" +:+ pr_run_id p +:+ "', not '"
              +:+ ac_run_id call +:+ "'") ;;
  bail negb (bool_decide (default EmptyString (pr_target_agent_id p) = ac_agent_id call))
    with Err ("agent " +:+ ac_agent_id call +:+ " is not the target reviewer for proposal " +:+ pid) ;;
  bail negb (bool_decide (pr_correlation_id p = rv_correlation_id verdict))
    with Err ("review verdict correlation_id '" +:+ rv_correlation_id verdict
              +:+ "' does not match review request '" +:+ pr_correlation_id p +:+ "'") ;;
  bail negb (pending p)
    with Err ("review request " +:+ pid +:+ " is not pending (status: " +:+ pr_status p +:+ ")") ;;
  let new_status := if bool_decide (rv_verdict verdict = "accepted") then "accepted" else "rejected" in
  let verdict_proposal_id := "rv-" +:+ stable_suffix action in
  Ok (mutation_of call action [("action", json_string "submit_review_verdict");
        ("proposal_id", json_string pid); ("verdict_proposal_id", json_string verdict_proposal_id);
        ("verdict", json_string (rv_verdict verdict))] 0
       [UpdateProposalStatusBound pid new_status "review_request" (rv_correlation_id verdict)
          (Some (pr_agent_id p)) (Some (ac_agent_id call)) (Some (rv_blocking verdict));
        InsertProposal verdict_proposal_id (rv_correlation_id verdict) (rv_node_id verdict)
          "review_verdict" (rv_verdict verdict) (rv_rationale_summary verdict) None None None;
        step_audit call "review.verdict_submitted" [
          ("run_id", json_string (ac_run_id call)); ("agent_id", json_string (ac_agent_id call));
          ("proposal_id", json_string pid);
          ("verdict_proposal_id", json_string verdict_proposal_id);
          ("correlation_id", json_string (rv_correlation_id verdict));
          ("verdict", json_string (rv_verdict verdict));
          ("blocking", json_bool (rv_blocking verdict))]]).

(** ** Debates *)

Fixpoint require_agents_in_run (agent_ids : list string) (run_id : string) (d : agent_db)
    : Prelude.result string unit :=
  match agent_ids with
  | [] => Ok tt
  | agent_id :: agent_ids =>
    _u <-? require_agent_in_run agent_id run_id d ;;
    require_agents_in_run agent_ids run_id d
  end.

(** The state of a debate, kept as the context of its proposal. *)
Definition debate_meta (max_rounds current_round : Z) (participants : list string) : V :=
  object_of [("max_rounds", json_int max_rounds); ("current_round", json_int current_round);
             ("participant_agent_ids", strings_value participants)].

Definition prepare_open_debate (call : action_call) (action : AgentAction) (debate : DebateRequest)
    (d : agent_db) : Prelude.result string (AgentActionMutation V) :=
  let participants := db_participant_agent_ids debate in
  bail negb (bool_decide (db_run_id debate = ac_run_id call))
    with Err ("debate request run_id '" +:+ db_run_id debate +:+ "' does not match current run '"
              +:+ ac_run_id call +:+ "'") ;;
  bail bool_decide (participants = []) with Err "debate must have at least one participant" ;;
  bail (MAX_DEBATE_PARTICIPANTS <? length participants)%nat
    with Err ("debate participant count " +:+ pretty (vec_len participants) +:+ " exceeds max 8") ;;
  _u <-? require_agents_in_run participants (ac_run_id call) d ;;
  _u <-? bounded_text "subject_summary" (db_subject_summary debate) MAX_REVIEW_DEBATE_TEXT_BYTES ;;
  let proposal_id := "debate-" +:+ stable_suffix action in
  let invitations := imap (λ index participant,
    InsertMessage ("debate-msg-" +:+ stable_suffix action +:+ "-" +:+ pretty (Z.of_nat index))
      (ac_agent_id call) participant "debate_request"
      (Some ("Debate opened: " +:+ db_subject_summary debate)) (Some (db_correlation_id debate)) None
      (object_of [("proposal_id", json_string proposal_id);
                  ("max_rounds", json_int (db_max_rounds debate))])) participants in
  Ok (mutation_of call action [("action", json_string "open_debate");
        ("proposal_id", json_string proposal_id);
        ("correlation_id", json_string (db_correlation_id debate));
        ("max_rounds", json_int (db_max_rounds debate))] 0
       (InsertProposal proposal_id (db_correlation_id debate) (db_node_id debate) "debate_request"
          (db_subject_summary debate) (json_print (debate_meta (db_max_rounds debate) 0 participants))
          None None None
        :: invitations
        ++ [step_audit call "debate.opened" [
              ("run_id", json_string (ac_run_id call)); ("agent_id", json_string (ac_agent_id call));
              ("proposal_id", json_string proposal_id);
              ("correlation_id", json_string (db_correlation_id debate));
              ("participant_count", json_int (vec_len participants));
              ("max_rounds", json_int (db_max_rounds debate))]])).

Definition prepare_position (call : action_call) (action : AgentAction) (position : DebatePosition)
    (d : agent_db) : Prelude.result string (AgentActionMutation V) :=
  let dpid := dp_debate_id position in
  bail negb (bool_decide (dp_run_id position = ac_run_id call))
    with Err ("debate position run_id '" +:+ dp_run_id position +:+ "' does not match current run '"
              +:+ ac_run_id call +:+ "'") ;;
  _u <-? bounded_text "position" (dp_position position) MAX_REVIEW_DEBATE_TEXT_BYTES ;;
  _u <-? bounded_text "rationale_summary" (dp_rationale_summary position)
           MAX_REVIEW_DEBATE_TEXT_BYTES ;;
  dp <-? ok_or (get_proposal_in_run dpid (ac_run_id call) d)
    ("debate proposal " +:+ dpid +:+ " not found") ;;
  bail negb (bool_decide (pr_proposal_type dp = "debate_request"))
    with Err ("proposal " +:+ dpid +:+ " is not a debate_request") ;;
  bail negb (in_run (ac_run_id call) dp)
    with Err ("debate " +:+ dpid +:+ " belongs to run '" +:+ pr_run_id dp +:+ "', not '"
              +:+ ac_run_id call +:+ "'") ;;
  bail negb (pending dp)
    with Err ("debate " +:+ dpid +:+ " is not pending (status: " +:+ pr_status dp +:+ ")") ;;
  bail negb (bool_decide (pr_correlation_id dp = dp_correlation_id position))
    with Err ("debate position correlation_id '" +:+ dp_correlation_id position
              +:+ "' does not match debate request '" +:+ pr_correlation_id dp +:+ "'") ;;
  let meta := default (object_of []) (json_parse (pr_context_summary dp)) in
  let participants := match json_get meta "participant_agent_ids" ≫= as_array with
                      | Some a => omap as_str a
                      | None => []
                      end in
  bail negb (bool_decide (ac_agent_id call ∈ participants))
    with Err ("agent " +:+ ac_agent_id call +:+ " is not a participant in debate " +:+ dpid) ;;
  let max_rounds := default 1 (json_get meta "max_rounds" ≫= as_u64) in
  let current_round := default 0 (json_get meta "current_round" ≫= as_u64) in
  bail max_rounds <=? current_round
    with Err ("debate " +:+ dpid +:+ " has reached max rounds (" +:+ pretty max_rounds +:+ ")") ;;
  let pos_proposal_id := "dp-" +:+ stable_suffix action in
  Ok (mutation_of call action [("action", json_string "submit_debate_position");
        ("debate_id", json_string dpid); ("position_proposal_id", json_string pos_proposal_id);
        ("current_round", json_int (current_round + 1))] 0
       [UpdateDebateContext dpid (dp_correlation_id position) (pr_context_summary dp)
          (json_print (debate_meta max_rounds (current_round + 1) participants));
        InsertProposal pos_proposal_id (dp_correlation_id position) (dp_node_id position)
          "debate_position" (dp_position position) (dp_rationale_summary position)
          (Some (dp_debate_id position)) None None;
        step_audit call "debate.position_submitted" [
          ("run_id", json_string (ac_run_id call)); ("agent_id", json_string (ac_agent_id call));
          ("proposal_id", json_string dpid); ("position_proposal_id", json_string pos_proposal_id);
          ("correlation_id", json_string (dp_correlation_id position));
          ("current_round", json_int (current_round + 1)); ("max_rounds", json_int max_rounds)]]).

Definition prepare_resolution (call : action_call) (action : AgentAction)
    (resolution : DebateResolution) (d : agent_db)
    : Prelude.result string (AgentActionMutation V) :=
  let dpid := dz_debate_id resolution in
  bail negb (bool_decide (dz_run_id resolution = ac_run_id call))
    with Err ("debate resolution run_id '" +:+ dz_run_id resolution
              +:+ "' does not match current run '" +:+ ac_run_id call +:+ "'") ;;
  _u <-? bounded_text "resolution" (dz_resolution resolution) MAX_REVIEW_DEBATE_TEXT_BYTES ;;
  dp <-? ok_or (get_proposal_in_run dpid (ac_run_id call) d)
    ("debate proposal " +:+ dpid +:+ " not found") ;;
  bail negb (bool_decide (pr_proposal_type dp = "debate_request"))
    with Err ("proposal " +:+ dpid +:+ " is not a debate_request") ;;
  bail negb (in_run (ac_run_id call) dp)
    with Err ("debate " +:+ dpid +:+ " belongs to run '" +:+ pr_run_id dp +:+ "', not '"
              +:+ ac_run_id call +:+ "'") ;;
  bail negb (bool_decide (pr_agent_id dp = ac_agent_id call))
    with Err ("only the debate opener (" +:+ pr_agent_id dp +:+ ") can resolve debate " +:+ dpid) ;;
  bail negb (bool_decide (pr_correlation_id dp = dz_correlation_id resolution))
    with Err ("debate resolution correlation_id '" +:+ dz_correlation_id resolution
              +:+ "' does not match debate request '" +:+ pr_correlation_id dp +:+ "'") ;;
  bail negb (pending dp)
    with Err ("debate " +:+ dpid +:+ " is not pending (status: " +:+ pr_status dp +:+ ")") ;;
  let resolution_proposal_id := "dr-" +:+ stable_suffix action in
  Ok (mutation_of call action [("action", json_string "resolve_debate");
        ("debate_id", json_string dpid);
        ("resolution_proposal_id", json_string resolution_proposal_id)] 0
       [UpdateProposalStatusBound dpid "accepted" "debate_request" (dz_correlation_id resolution)
          (Some (ac_agent_id call)) None None;
        InsertProposal resolution_proposal_id (dz_correlation_id resolution) (dz_node_id resolution)
          "debate_resolution" (dz_resolution resolution)
          (default EmptyString (dz_winning_position resolution)) None None None;
        step_audit call "debate.resolved" [
          ("run_id", json_string (ac_run_id call)); ("agent_id", json_string (ac_agent_id call));
          ("proposal_id", json_string dpid);
          ("resolution_proposal_id", json_string resolution_proposal_id);
          ("correlation_id", json_string (dz_correlation_id resolution));
          ("has_winning_position", json_bool (is_some (dz_winning_position resolution)))]]).

(** ** Children *)

(** [op(..).map_err(|reason| reason.as_str().to_string())?]. *)
Definition tree_after {A} (r : tree_result A) : Prelude.result string RecursiveTree :=
  match r with
  | (Ok _, tree) => Ok tree
  | (Err reason, _) => Err (FailureReason.reason_as_str reason)
  end.

Definition root_binding_present (workflow_run : option V) (root_node : string) : bool :=
  match workflow_run ≫= λ run, find_run_node run root_node with
  | Some node => bool_decide (json_get_str node "recursive_root_node_id" = Some root_node)
                 && is_some (non_empty (json_get_str node "creation_receipt_sha256"))
  | None => false
  end.

(** The tree of a run that has none yet. *)
Definition fresh_tree (call : action_call) (proposal : ChildTaskProposal)
    (authority : RecursiveRootAuthority) : RecursiveTree :=
  let tree := new_with_root_node_id (ac_run_id call) (ac_workflow_id call) (cp_parent_node_id proposal)
    (default (cp_objective proposal) (as_objective (ac_agent_state call))) (a_scope authority)
    (a_capabilities authority) (a_tree_budget authority) in
  let tree := tree <| root_child_budget_limit := Some (a_child_budget authority) |> in
  tree <| nodes := alter (λ root, root <| n_child_budget := a_child_budget authority |>
                                       <| n_child_budget_limit := a_child_budget authority |>)
            (root_node_id tree) (nodes tree) |>.

(** The tree bound to its root, its agent and the boundaries of the run. *)
Definition bind_tree (env : env_vars) (call : action_call) (proposal : ChildTaskProposal)
    (workflow_run : V) (root_node : string) (stored_tree : option RecursiveTree)
    : Prelude.result string (RecursiveTree * RecursiveRootAuthority) :=
  checked <-? persisted_recursive_root_authority workflow_run root_node (ac_agent_id call) ;;
  let '(authority, plan_creation_receipt, root_attempt, root_running) := checked in
  let root_creation_receipt := recursive_root_creation_receipt_sha256 plan_creation_receipt
    (ac_run_id call) (ac_workflow_id call) root_node (ac_agent_id call) in
  let creating_tree := is_none stored_tree in
  let tree := default (fresh_tree call proposal authority) stored_tree in
  bail negb (bool_decide (root_scope tree = a_scope authority))
    || negb (bool_decide (root_capabilities tree = a_capabilities authority))
    || negb (bool_decide (root_budget_limit tree = Some (a_tree_budget authority)))
    || negb (bool_decide (root_child_budget_limit tree = Some (a_child_budget authority)))
    with Err "recursive root authority conflicts with persisted tree" ;;
  let root_marker := root_node_id tree in
  tree <-? tree_after (bind_root_identity (ac_agent_id call) root_marker root_creation_receipt tree) ;;
  tree <-? (if creating_tree && root_running && (0 <? root_attempt)
            then tree_after (lease_node env root_marker
                   (claim_id (ac_run_id call) root_marker root_attempt) tree)
            else Ok tree) ;;
  tree <-? tree_after (bind_root_execution_scope (boundary workflow_run "tenant_id" ≫= as_str)
             (boundary workflow_run "workspace_id" ≫= as_str) tree) ;;
  Ok (tree, authority).

Definition child_usage_contract (call : action_call) : V :=
  if is_some (ac_provider_usage call) then object_of [("kind", json_string "measured")]
  else object_of [("kind", json_string "fixture"); ("calls", json_int 1); ("tokens", json_int 1);
                  ("cost_micros", json_int 1); ("time_ms", json_int 1)].

(** The workflow node of an admitted child and the edge to it. *)
Definition child_node_value (call : action_call) (proposal : ChildTaskProposal) (proposal_id : string)
    (node : RecursiveNode) : V :=
  object_of [
    ("node_id", json_string (n_node_id node)); ("task_type", json_string "agent_step");
    ("status", json_string "pending"); ("attempt_count", json_int 0);
    ("agent_id", json_string (ac_agent_id call));
    ("recursive_node_id", json_string (n_node_id node));
    ("parent_node_id", json_string (cp_parent_node_id proposal));
    ("objective_fingerprint", json_string (n_objective_fingerprint node));
    ("proposal_id", json_string proposal_id); ("acceptance_reason", json_string "accepted");
    ("evidence_refs", strings_value (n_evidence_refs node));
    ("recursive_capabilities", set_value (n_capabilities node));
    ("recursive_scope", scope_value (n_scope node));
    ("recursive_tenant_id", option_value (n_tenant_id node));
    ("recursive_workspace_id", option_value (n_workspace_id node));
    ("decision_source",
      json_string (if is_some (ac_provider_usage call) then "provider" else "fixture"));
    ("usage_contract", child_usage_contract call)].

Definition child_edge_value (proposal : ChildTaskProposal) (node : RecursiveNode) : V :=
  object_of [("edge_id", json_string ("recursive-edge-" +:+ n_node_id node));
             ("from_node_id", json_string (cp_parent_node_id proposal));
             ("to_node_id", json_string (n_node_id node));
             ("edge_type", json_string "dependency"); ("recursive", json_bool true)].

(** What became of a proposal: the child, the tree to store and the version it
    expects, the workflow node and edge, and the reason of a rejection. *)
Record child_outcome : Type := mkChildOutcome {
  co_node_id : option string;
  co_tree : option RecursiveTree;
  co_expected_version : option Z;
  co_workflow : option (V * V);
  co_rejection : option RecursiveFailureReason;
}.

Definition recursive_proposal_of (action : AgentAction) (proposal : ChildTaskProposal)
    (proposal_id : string) (authority : RecursiveRootAuthority) (parent : RecursiveNode)
    : RecursiveProposal :=
  let requested_capabilities := heritable_recursive_capabilities (n_capabilities parent) in
  {| p_proposal_id := proposal_id; p_parent_node_id := cp_parent_node_id proposal;
     p_parent_version := n_version parent; p_objective := cp_objective proposal;
     p_context_summary := cp_context_summary proposal;
     p_requested_capabilities := requested_capabilities;
     p_requested_scope := (n_scope parent) <| scope_capabilities := requested_capabilities |>;
     p_budget := a_child_budget authority; p_receipt_sha256 := action_sha256 action |}.

(** The proposal is put to the tree; [None] is a panic. *)
Definition admit_proposal (env : env_vars) (call : action_call) (action : AgentAction)
    (proposal : ChildTaskProposal) (proposal_id : string) (expected_version : Z)
    (authority : RecursiveRootAuthority) (tree : RecursiveTree) (db : database)
    : option child_outcome :=
  let rejected reason tree :=
    mkChildOutcome None (Some (record_rejection proposal_id reason tree)) (Some expected_version) None
      (Some reason) in
  match nodes tree !! cp_parent_node_id proposal with
  | None => Some (rejected FailureReason.StaleParent tree)
  | Some parent =>
    admission ← admit_child env (recursive_proposal_of action proposal proposal_id authority parent) tree;
    Some match admission with
    | (Err reason, tree) => rejected reason tree
    | (Ok admission, tree) =>
      let node := adm_node admission in
      let workflow := if is_some (get_workflow_run (ac_run_id call) db)
                      then Some (child_node_value call proposal proposal_id node,
                                 child_edge_value proposal node)
                      else None in
      mkChildOutcome (Some (n_node_id node)) (Some tree) (Some expected_version) workflow None
    end
  end.

Definition propose_recursively (env : env_vars) (call : action_call) (action : AgentAction)
    (proposal : ChildTaskProposal) (proposal_id : string) (db : database)
    : option (Prelude.result string child_outcome) :=
  if negb (recursive_enabled env) then Some (Ok (mkChildOutcome None None None None None))
  else
    match load_recursive_tree (ac_run_id call) db with
    | Err e => Some (Err e)
    | Ok stored_tree =>
      let expected_version := match stored_tree with Some tree => t_version tree | None => 0 end in
      let workflow_run := get_workflow_run (ac_run_id call) db in
      let root_node := match stored_tree with
                       | Some tree => root_node_id tree
                       | None => cp_parent_node_id proposal
                       end in
      if negb (root_binding_present workflow_run root_node) then
        Some (Ok (mkChildOutcome None None None None (Some FailureReason.RecursiveTreeMissing)))
      else
        workflow_run ← workflow_run;
        match bind_tree env call proposal workflow_run root_node stored_tree with
        | Err e => Some (Err e)
        | Ok (tree, authority) =>
          Ok <$> admit_proposal env call action proposal proposal_id expected_version authority tree db
        end
    end.

(** The operations of a proposal, by what became of it. *)
Definition child_operations (call : action_call) (proposal : ChildTaskProposal) (proposal_id : string)
    (outcome : child_outcome) : list (AgentMutationOp V) :=
  InsertProposal proposal_id (cp_correlation_id proposal) (cp_parent_node_id proposal) "child_task"
    (cp_objective proposal) (cp_context_summary proposal) None (cp_proposed_node_id proposal)
    (cp_proposed_edge_id proposal)
  :: match co_tree outcome with
     | Some tree => [PersistRecursiveTree tree (co_expected_version outcome)]
     | None => []
     end
  ++ match co_workflow outcome with
     | Some (node, edge) => [PersistRecursiveWorkflow node edge]
     | None => []
     end
  ++ match co_tree outcome, co_rejection outcome with
     | None, Some reason =>
       [UpdateProposalStatus proposal_id "rejected";
        AppendAudit "agent_step.recursive_proposal_rejected" ("agent_proposal/" +:+ proposal_id)
          (object_of [("proposal_id", json_string proposal_id);
                      ("reason_code", json_string (FailureReason.reason_as_str reason));
                      ("evidence_persisted", json_bool true)])]
     | _, _ => []
     end
  ++ [step_audit call "agent_step.propose_child_task" [
        ("proposal_id", json_string proposal_id);
        ("correlation_id", json_string (cp_correlation_id proposal));
        ("agent_id", json_string (ac_agent_id call)); ("run_id", json_string (ac_run_id call))]].

Definition child_result (proposal : ChildTaskProposal) (proposal_id : string) (outcome : child_outcome)
    : list (string * V) :=
  [("action", json_string "propose_child_task"); ("proposal_id", json_string proposal_id);
   ("correlation_id", json_string (cp_correlation_id proposal));
   ("recursive_node_id", option_value (co_node_id outcome))]
  ++ match co_rejection outcome with
     | Some reason => [("decision", json_string "rejected");
                       ("reason_code", json_string (FailureReason.reason_as_str reason))]
     | None => []
     end.

Definition prepare_child (env : env_vars) (call : action_call) (action : AgentAction)
    (proposal : ChildTaskProposal) (d : agent_db)
    : option (Prelude.result string (AgentActionMutation V)) :=
  if (MAX_PROPOSAL_OBJECTIVE_BYTES <? String.length (cp_objective proposal))%nat
  then Some (Err "proposal objective exceeds 4096 byte cap")
  else
    let proposal_id := "prop-" +:+ stable_suffix action in
    proposed ← propose_recursively env call action proposal proposal_id (ad_db d);
    Some (outcome <-? proposed ;;
          Ok (mutation_of call action (child_result proposal proposal_id outcome) 0
                (child_operations call proposal proposal_id outcome))).

(** ** The action *)

(** Everything an action does before it is applied. *)
Definition prepare_action (env : env_vars) (call : action_call) (action : AgentAction) (d : agent_db)
    : option (Prelude.result string (AgentActionMutation V)) :=
  let simple name := mutation_of call action [("action", json_string name)] 0 in
  match action with
  | Wait => Some (Ok (simple "wait" []))
  | Complete => Some (Ok (simple "complete" (prepare_complete call)))
  | UpdateScratchpadSummary text => Some (prepare_scratchpad call action text)
  | ReadMailbox => Some (Ok (prepare_read_mailbox call action d))
  | AckMailboxMessage message_id =>
    Some (Ok (mutation_of call action [("action", json_string "ack_message");
      ("message_id", json_string message_id)] 0 [AckMessage message_id]))
  | EmitNote text => Some (Ok (prepare_note call action "agent_step.note" text))
  | RecordObservation text => Some (Ok (prepare_note call action "agent_step.observation" text))
  | ProposeChildTask proposal => prepare_child env call action proposal d
  | RequestHandoff request => Some (prepare_handoff call action request d)
  | AcceptHandoff correlation_id =>
    Some (answer_handoff call action correlation_id "accepted" "ack-" "handoff_accepted"
      "Handoff accepted" d)
  | RejectHandoff correlation_id =>
    Some (answer_handoff call action correlation_id "rejected" "rej-" "handoff_rejected"
      "Handoff rejected" d)
  | CancelProposal correlation_id => Some (prepare_cancel call action correlation_id d)
  | Unsupported name => Some (Err ("unsupported action: " +:+ name))
  | RequestReview request => Some (prepare_review call action request d)
  | SubmitReviewVerdict verdict => Some (prepare_verdict call action verdict d)
  | OpenDebate debate => Some (prepare_open_debate call action debate d)
  | SubmitDebatePosition position => Some (prepare_position call action position d)
  | ResolveDebate resolution => Some (prepare_resolution call action resolution d)
  end.

(** The mutation that is applied. *)
Definition action_mutation (env : env_vars) (call : action_call) (action : AgentAction) (d : agent_db)
    : option (Prelude.result string (AgentActionMutation V)) :=
  prepared ← prepare_action env call action d;
  Some (mutation <-? prepared ;; with_usage call action mutation).

Definition execute_action (env : env_vars) (call : action_call) (action : AgentAction) (now : string)
    : agent_op string := λ d,
  mutation ← action_mutation env call action d;
  match mutation with
  | Ok mutation => apply_agent_action_once mutation now d
  | Err e => Some (Err e, d)
  end.

(** ** The step *)

Inductive AgentDecisionSource : Type :=
  | FixtureSource (source : AgentStepContext (V := V) → Prelude.result string AgentAction)
  | ProviderSource (source : AgentStepContext (V := V)
                      → Prelude.result string (AgentAction * AgentDecisionUsage)).

Definition decide_action (source : AgentDecisionSource) (context : AgentStepContext (V := V))
    : Prelude.result string (AgentAction * option AgentDecisionUsage) :=
  match source with
  | FixtureSource source => action <-? source context ;; Ok (action, None)
  | ProviderSource source =>
    decision <-? source context ;;
    _u <-? validate_agent_decision_usage decision.2 ;;
    Ok (decision.1, Some decision.2)
  end.

(** The gates of a step and the agent it is for. *)
Definition step_agent (env : env_vars) (input : NodeExecutionInput (V := V))
    : Prelude.result string string :=
  bail negb (bool_decide (in_task_type input = "agent_step"))
    with Err "agent executor requires task_type agent_step" ;;
  bail negb (bool_decide (env "ACP_ENABLE_AGENT_RUNTIME" = Some "1"))
    with Err "ACP_ENABLE_AGENT_RUNTIME is not set to 1" ;;
  bail bool_decide (env "ACP_AGENT_RUNTIME_KILL_SWITCH" = Some "1")
    with Err "agent runtime kill switch is active" ;;
  agent_id <-? ok_or (json_get_str (in_node_metadata input) "agent_id")
    "missing agent_id in node_metadata" ;;
  _u <-? validate_agent_identifier "agent_id" agent_id ;;
  _u <-? validate_agent_identifier "run_id" (in_run_id input) ;;
  _u <-? validate_agent_identifier "node_id" (in_node_id input) ;;
  _u <-? validate_agent_identifier "workflow_id" (in_workflow_id input) ;;
  Ok agent_id.

(** The state of the agent, with the authority of the node. *)
Definition step_state (env : env_vars) (input : NodeExecutionInput (V := V)) (agent_id : string)
    (d : agent_db) : Prelude.result string (AgentState V) :=
  row <-? ok_or (agent_state d !! (agent_id, in_run_id input))
    ("AgentState not found for " +:+ agent_id +:+ "/" +:+ in_run_id input) ;;
  effective_agent_state_for_recursive_node env input
    (sqlite_agent_state_row agent_id (in_run_id input) row) (ad_db d).

Definition step_context (input : NodeExecutionInput (V := V)) (agent_id : string)
    (agent_state : AgentState V) (d : agent_db) : AgentStepContext :=
  let memory_digest := load_memory_digest_from_agent_state agent_state in
  let memory_context :=
    match json_pointer2 (in_node_metadata input) "context_injection" "memory_context" with
    | Some context => Some context
    | None => build_memory_context_for_node agent_state 1200
    end in
  mkStepContext agent_id (in_run_id input) (in_node_id input) (in_workflow_id input)
    (Some agent_state) (count_mailbox agent_id (in_run_id input) "pending" d) memory_digest
    memory_context (estimate_memory_state_bytes memory_digest memory_context)
    (in_node_metadata input).

Definition step_call (context : AgentStepContext (V := V)) (agent_state : AgentState V)
    (usage : option AgentDecisionUsage) (latency_ms : Z) : action_call :=
  mkCall (sx_agent_id context) (sx_run_id context) (sx_workflow_id context) (sx_node_id context)
    agent_state (sx_mailbox_pending_count context) (sx_memory_state_read_bytes context) usage
    latency_ms.

(** [append_agent_step_audit_best_effort]. *)
Definition step_event (context : AgentStepContext (V := V)) (now action : string) (details : V)
    : agent_op unit :=
  audit now "agent_step" action
    ("agent_state/" +:+ sx_agent_id context +:+ "/" +:+ sx_run_id context) details.

Definition reason_field (error : string) : list (string * V) :=
  match FailureReason.code_for_error error with
  | Some reason_code => [("reason_code", json_string reason_code)]
  | None => []
  end.

Definition report_undecided (context : AgentStepContext (V := V)) (clock : nat → string)
    (error : string) : agent_op unit :=
  _u <-@ match FailureReason.code_for_error error with
         | Some reason_code =>
           step_event context (clock 1%nat) "agent_step.recursive_proposal_rejected"
             (object_of [("reason_code", json_string reason_code);
                         ("evidence_ref", json_string ("recursive-proposal:agent-step:"
                                                       +:+ sx_node_id context))])
         | None => done tt
         end ;;
  step_event context (clock 2%nat) "agent_step.decision_failed"
    (object_of [("error", json_string "decision_failed")]).

Definition report_failed (context : AgentStepContext (V := V)) (clock : nat → string)
    (action : AgentAction) (error : string) : agent_op unit :=
  _u <-@ match action with
         | ProposeChildTask _ =>
           if bool_decide (FailureReason.code_for_error error = Some "recursive_tree_missing") then
             let proposal_id := "prop-" +:+ stable_suffix action in
             step_event context (clock 3%nat) "agent_step.recursive_proposal_rejected"
               (object_of [("proposal_id", json_string proposal_id);
                           ("reason_code", json_string "recursive_tree_missing");
                           ("evidence_ref", json_string ("agent_proposal/" +:+ proposal_id));
                           ("evidence_persisted", json_bool false)])
           else done tt
         | _ => done tt
         end ;;
  step_event context (clock 4%nat) "agent_step.failed"
    (object_of ([("action_type", json_string "failed"); ("error", json_string "agent_step_error")]
                ++ reason_field error)).

(** The output of a result that is stored. *)
Definition step_output (result : string) (elapsed : Z) : NodeExecutionOutput :=
  match completed_agent_step_output (V := V) result elapsed with
  | Ok output => output
  | Err error => agent_step_fail error elapsed
  end.

(** An action that is due: checked, announced and executed. *)
Definition act (env : env_vars) (context : AgentStepContext (V := V)) (agent_state : AgentState V)
    (clock : nat → string) (latency_ms elapsed : Z) (action : AgentAction)
    (usage : option AgentDecisionUsage) : agent_op NodeExecutionOutput :=
  match validate_agent_action_context action context with
  | Err error =>
    _u <-@ step_event context (clock 1%nat) "agent_step.action_rejected"
      (object_of [("error", json_string "invalid_or_unauthorized_action")]) ;;
    done (agent_step_fail error elapsed)
  | Ok _ =>
    _u <-@ step_event context (clock 1%nat) "agent_step.decision"
      (sanitized_action_descriptor action) ;;
    executed <-@ attempt (execute_action env (step_call context agent_state usage latency_ms) action
      (clock 2%nat)) ;;
    match executed with
    | Ok result =>
      _u <-@ step_event context (clock 3%nat) "agent_step.completed"
        (object_of [("action_type", json_string "completed")]) ;;
      done (step_output result elapsed)
    | Err error =>
      _u <-@ report_failed context clock action error ;;
      done (agent_step_fail error elapsed)
    end
  end.

(** [execute_node]; [latency_ms] is read before the action, [elapsed] at the end. *)
Definition execute_node (env : env_vars) (source : AgentDecisionSource)
    (input : NodeExecutionInput (V := V)) (clock : nat → string) (latency_ms elapsed : Z)
    : agent_op NodeExecutionOutput :=
  let failed error := done (agent_step_fail error elapsed) in
  match step_agent env input with
  | Err error => failed error
  | Ok agent_id =>
    state <-@ select (step_state env input agent_id) ;;
    match state with
    | Err error => failed error
    | Ok agent_state =>
      committed <-@ select (committed_agent_action_result (V := V) (in_run_id input)
        (in_node_id input) agent_id) ;;
      match committed with
      | Err error => failed error
      | Ok (Some result) => done (step_output result elapsed)
      | Ok None =>
        context <-@ select (step_context input agent_id agent_state) ;;
        _u <-@ step_event context (clock 0%nat) "agent_step.start"
          (object_of [("agent_id", json_string agent_id); ("run_id", json_string (in_run_id input))]) ;;
        match decide_action source context with
        | Err error =>
          _u <-@ report_undecided context clock error ;;
          failed ("decision failed: " +:+ error)
        | Ok (action, usage) =>
          act env context agent_state clock latency_ms elapsed action usage
        end
      end
    end
  end.
End execute.
