(* ===== verification/AgentStepProps.v ===== *)
(** * What the step of an agent prepares, and what it leaves *)

From S2P Require Import Prelude Text Json Float64 RecursiveExecution RecursiveTreeProps Persistence PersistenceProps TreeMoves TreeStore TreeStoreProps TreeHistory NodeExecution WorkflowRuns WorkflowFrames WorkflowProps WorkflowSteps RunGraph RunGraphProps SchedulerShape AgentMemory AgentRuntime AgentActions AgentProps AgentEffects AgentStep AgentExecute.
From stdpp Require Import relations.
Import FailureReason (RecursiveFailureReason).

Local Open Scope Z_scope.

Lemma size_insert_le (x : string) (X : gset string) : (size ({[x]} ∪ X) ≤ S (size X))%nat.
Proof.
  rewrite size_union_alt, size_singleton. apply le_n_S. apply subseteq_size.
  intros y Hy. by apply elem_of_difference in Hy as [? _].
Qed.

Section trees.
Context `{RE : Regex} {V : Type} `{EV : EqDecision V} `{JV : JsonValue V} `{JT : JsonText V}
  `{JN : JsonNumbers V} `{SD : StoreDecoders V} `{Deps : RecursiveDeps} `{TE : TreeEncoder}
  `{RO : RowOrder} `{TO : TableOrder} `{AC : ActionCodec}.

(** ** Trees *)

(** [t'] was bound to a root and a run, and perhaps leased. *)
Record bound_from (t t' : RecursiveTree) : Prop := {
  bf_keyed : keyed t → keyed t';
  bf_version : later 0 1 (t_version t) t';
  bf_accepted : accepted_proposals t' = accepted_proposals t;
  bf_rejected : rejected_proposals t' = rejected_proposals t;
  bf_run : root_run_id t' = root_run_id t;
}.

Lemma later_here t t' : t_version t' = t_version t → later 0 0 (t_version t) t'.
Proof. intros E. exists 0. by rewrite E, Z.add_0_r. Qed.

Lemma bind_identity_version a m c t r t' :
  bind_root_identity a m c t = (r, t') →
  t_version t' = t_version t ∧ rejected_proposals t' = rejected_proposals t.
Proof. unfold bind_root_identity. do 2 (case_match; [by intros [= _ <-]|]). by intros [= _ <-]. Qed.

Lemma bind_scope_version te ws t r t' :
  bind_root_execution_scope te ws t = (r, t') →
  t_version t' = t_version t ∧ rejected_proposals t' = rejected_proposals t.
Proof.
  unfold bind_root_execution_scope. case_match; [by intros [= _ <-]|]. cbn.
  case_match; by intros [= _ <-].
Qed.

Lemma tree_after_Ok {A} (r : tree_result A) t : tree_after r = Ok t → ∃ a, r = (Ok a, t).
Proof. destruct r as [[a|e] t']; [|done]. intros [= <-]. eauto. Qed.

Lemma lease_kept env id l t t' :
  lease_node env id l t = (Ok tt, t') →
  (keyed t → keyed t') ∧ later 1 1 (t_version t) t'
  ∧ accepted_proposals t' = accepted_proposals t ∧ rejected_proposals t' = rejected_proposals t
  ∧ root_run_id t' = root_run_id t.
Proof.
  intros H. pose proof (lease_node_moves _ _ _ _ _ H) as M.
  apply lease_node_inv in H as [(e & [=] & _)|(n & _ & _ & _ & _ & _ & _ & _ & _ & ->)].
  split; [by eapply moves_keyed|]. split; [exact (mv_version _ _ _ _ M)|done].
Qed.

Lemma bind_tree_inv env (call : action_call (V := V)) proposal run root stored_tree t authority :
  bind_tree env call proposal run root stored_tree = Ok (t, authority) →
  bound_from (default (fresh_tree call proposal authority) stored_tree) t.
Proof.
  unfold bind_tree. intros H.
  destruct (persisted_recursive_root_authority run root (ac_agent_id call)) as [[[[au receipt] attempt] running]|];
    [|done].
  cbv beta iota zeta in H. set (t0 := default _ stored_tree) in H. case_match; [done|].
  destruct (tree_after (bind_root_identity _ _ _ t0)) as [t1|] eqn:E1; [|done].
  apply tree_after_Ok in E1 as [[] E1]. pose proof (frame_bind_root_identity _ _ _ _ _ _ E1) as F1.
  apply bind_identity_version in E1 as [V1 R1].
  match type of H with context [if ?c then ?x else Ok t1] =>
    destruct (if c then x else Ok t1) as [t2|] eqn:E2 end; [|done].
  assert (Hl : (keyed t1 → keyed t2) ∧ later 0 1 (t_version t1) t2
    ∧ accepted_proposals t2 = accepted_proposals t1 ∧ rejected_proposals t2 = rejected_proposals t1
    ∧ root_run_id t2 = root_run_id t1).
  { destruct (is_none stored_tree && running && (0 <? attempt));
      [|injection E2 as <-; split_and!; [done| |done..]; eapply later_weaken; [by apply later_here|lia..]].
    apply tree_after_Ok in E2 as [[] E2]. apply lease_kept in E2 as (? & ? & ? & ? & ?).
    split_and!; try done. by eapply later_weaken. }
  destruct Hl as (K2 & V2 & A2 & R2 & I2).
  destruct (tree_after (bind_root_execution_scope _ _ t2)) as [t3|] eqn:E3; [|done].
  injection H as <- <-. apply tree_after_Ok in E3 as [[] E3].
  pose proof (frame_bind_root_execution_scope _ _ _ _ _ E3) as F3. apply bind_scope_version in E3 as [V3 R3].
  split.
  - intros Hk. eapply frame_keyed; [exact F3|]. apply K2. by eapply frame_keyed.
  - destruct V2 as (d & ? & E). exists d. rewrite V3, E, V1. done.
  - by rewrite (fr_accepted _ _ F3), A2, (fr_accepted _ _ F1).
  - by rewrite R3, R2, R1.
  - by rewrite (fr_run _ _ F3), I2, (fr_run _ _ F1).
Qed.

Lemma fresh_keyed (call : action_call (V := V)) proposal authority : keyed (fresh_tree call proposal authority).
Proof.
  intros k n. unfold fresh_tree. cbn. rewrite alter_singleton_eq, lookup_singleton_Some. by intros [<- <-].
Qed.

Lemma admit_counted env p t r t' :
  admit_child env p t = Some (r, t') → keyed t →
  (∃ e, r = Err e ∧ t' = t)
  ∨ ((∃ admission, r = Ok admission) ∧ keyed t' ∧ t_version t' = u64_incr (t_version t)
     ∧ accepted_proposals t' = {[p_proposal_id p]} ∪ accepted_proposals t
     ∧ rejected_proposals t' = rejected_proposals t).
Proof.
  intros [?|(parent & pe & b & -> & Hc & _ & Hp & En & Et)]%admit_child_inv Hk; [by left|right].
  apply admit_checks_inv in Hc as (_ & _ & _ & _ & _ & _ & Hpar & _).
  destruct (Hk _ _ Hpar) as [Ei Hd]. destruct (Hk _ _ Hp) as [Ei' Hd'].
  split_and!; [by eexists| |by rewrite Et..]. intros k n Hn. rewrite En in Hn.
  apply lookup_insert_Some in Hn as [[<- <-]|[_ Hn]]; [cbn; split; [done|lia]|].
  apply lookup_insert_Some in Hn as [[<- <-]|[_ Hn]]; [by split|by apply Hk].
Qed.

Lemma later_incr v t t' : later 0 1 v t → t_version t' = u64_incr (t_version t) → later 1 2 v t'.
Proof.
  intros (d & ? & E) Ev. exists (d + 1). split; [lia|].
  rewrite Ev, Z.add_assoc, <-(u64_wrap_add _ _ 1 E). unfold u64_incr, u64_add, u64_wrap.
  by rewrite Z.mod_mod.
Qed.

(** The stored tree of the run can be counted on by one more proposal. *)
Definition room (run : string) (db : database) : Prop :=
  ∀ t, load_recursive_tree (V := V) run db = Ok (Some t) →
    keyed t ∧ Z.of_nat (size (accepted_proposals t)) + Z.of_nat (size (rejected_proposals t)) < STEP.

Lemma record_rejection_counted pid reason t :
  keyed t → keyed (record_rejection pid reason t)
  ∧ t_version (record_rejection pid reason t) = u64_incr (t_version t)
  ∧ (size (accepted_proposals (record_rejection pid reason t)) = size (accepted_proposals t)
     ∧ size (rejected_proposals (record_rejection pid reason t)) ≤ S (size (rejected_proposals t)))%nat.
Proof.
  intros Hk. split_and!; try done. unfold record_rejection, record_rejection_evidence. cbn.
  rewrite map_size_insert. destruct (_ !! pid); cbn; lia.
Qed.

Lemma admit_proposal_inv env (call : action_call (V := V)) action proposal pid v authority t db outcome :
  admit_proposal env call action proposal pid v authority t db = Some outcome → keyed t →
  ∃ t', co_tree outcome = Some t' ∧ co_expected_version outcome = Some v ∧ keyed t'
    ∧ t_version t' = u64_incr (t_version t)
    ∧ Z.of_nat (size (accepted_proposals t')) + Z.of_nat (size (rejected_proposals t'))
      <= Z.of_nat (size (accepted_proposals t)) + Z.of_nat (size (rejected_proposals t)) + 1.
Proof.
  intros H Hk. unfold admit_proposal in H. pose proof (λ reason, record_rejection_counted pid reason t Hk) as Hrej.
  destruct (nodes t !! _) as [parent|].
  - destruct (admit_child env _ t) as [[r t']|] eqn:Ea; [|done].
    apply admit_counted in Ea as [(e & -> & ->)|([admission ->] & Hk' & Ev & Ea & Er)]; [..|done].
    + injection H as <-. cbn. destruct (Hrej e) as (? & ? & ? & ?). eexists. split_and!; [done..|lia].
    + injection H as <-. cbn. exists t'. split_and!; try done. rewrite Ea, Er.
      pose proof (size_insert_le pid (accepted_proposals t)). cbn. lia.
  - injection H as <-. cbn. destruct (Hrej FailureReason.StaleParent) as (? & ? & ? & ?).
    eexists. split_and!; [done..|lia].
Qed.

(** *** The operations of an action *)

Lemma propose_counted env (call : action_call (V := V)) action proposal pid db outcome t :
  propose_recursively env call action proposal pid db = Some (Ok outcome) → room (ac_run_id call) db →
  co_tree outcome = Some t →
  tree_counted (V := V) (PersistRecursiveTree t (co_expected_version outcome)).
Proof.
  unfold propose_recursively. intros H Hroom Ht. case_match; [by injection H as <-|].
  destruct (load_recursive_tree _ db) as [stored_tree|] eqn:El; [|done].
  destruct (root_binding_present _ _); [|by injection H as <-]. cbn [negb] in H.
  destruct (get_workflow_run _ db) as [run|]; [|done]. cbn [mbind option_bind] in H.
  destruct (bind_tree _ _ _ _ _ _) as [[t1 authority]|] eqn:Eb; [|done].
  apply fmap_Some in H as (o & Ha & [= ->]).
  apply bind_tree_inv in Eb as [Kb Vb Ab Rb _]. set (t0 := default _ stored_tree) in *.
  assert (Hst : keyed t0 ∧ Z.of_nat (size (accepted_proposals t0)) + Z.of_nat (size (rejected_proposals t0)) < STEP).
  { destruct stored_tree as [ts|]; [by apply Hroom|]. split; [apply fresh_keyed|]. by vm_compute. }
  destruct Hst as [K0 S0].
  apply admit_proposal_inv in Ha as (t2 & Et & Ev & K2 & V2 & S2); [|by apply Kb].
  rewrite Et in Ht. injection Ht as <-. rewrite Ab, Rb in S2. cbn [tree_counted]. split; [done|].
  split; [lia|]. eexists. split; [exact Ev|]. pose proof (later_incr _ _ _ Vb V2) as L.
  destruct stored_tree as [ts|]; [eapply later_weaken; [exact L|lia|by vm_compute]|].
  destruct L as (d & ? & E). exists (d + 1). split; [unfold STEP; lia|]. rewrite E. unfold t0. cbn.
  f_equal. lia.
Qed.

Definition action_child (action : AgentAction) : option ChildTaskProposal :=
  match action with ProposeChildTask proposal => Some proposal | _ => None end.

Lemma action_child_Some action proposal : action_child action = Some proposal → action = ProposeChildTask proposal.
Proof. destruct action; by intros [= ->]. Qed.

(** Operations that store neither trees nor nodes. *)
Definition plain_op (op : AgentMutationOp V) : Prop :=
  match op with PersistRecursiveTree _ _ | PersistRecursiveWorkflow _ _ => False | _ => True end.

Lemma plain_counted op : plain_op op → tree_counted op.
Proof. by destruct op. Qed.

Ltac plain := repeat first [done | constructor].

Lemma prepared_plain env (call : action_call (V := V)) action d m :
  prepare_action env call action d = Some (Ok m) →
  (∀ proposal, action ≠ ProposeChildTask proposal) → Forall plain_op (am_operations m).
Proof.
  intros H Hne. destruct action; cbn [prepare_action] in H; injection H as H || idtac; try done;
    try (subst m; plain; fail).
  - subst m. cbn. unfold prepare_complete. case_match; plain.
  - unfold prepare_scratchpad in H. passed H. injection H as <-. plain.
  - by edestruct Hne.
  - unfold prepare_handoff in H. passed H. injection H as <-. plain.
  - unfold answer_handoff in H. destruct (find_pending_handoff_for_target _ _ _ _) as [[pid p]|]; [|done].
    passed H. injection H as <-. plain.
  - unfold answer_handoff in H. destruct (find_pending_handoff_for_target _ _ _ _) as [[pid p]|]; [|done].
    passed H. injection H as <-. plain.
  - unfold prepare_cancel in H. destruct (find_proposal_by_correlation _ _ _ _) as [[pid p]|]; [|done].
    passed H. injection H as <-. plain.
  - unfold prepare_review in H. passed H. injection H as <-. plain.
  - unfold prepare_verdict in H. passed H. injection H as <-. plain.
  - unfold prepare_open_debate in H. passed H. injection H as <-. cbn. constructor; [done|].
    apply Forall_app. split; [|plain]. apply Forall_lookup. intros i x. rewrite list_lookup_imap.
    destruct (_ !! i); [|done]. by intros [= <-].
  - unfold prepare_position in H. passed H. injection H as <-. plain.
  - unfold prepare_resolution in H. passed H. injection H as <-. plain.
Qed.

Lemma with_usage_operations (call : action_call (V := V)) action m m' :
  with_usage call action m = Ok m' →
  am_operations m' = am_operations m ∧ receipt_key m' = receipt_key m
  ∧ am_agent_id m' = am_agent_id m ∧ am_action_sha256 m' = am_action_sha256 m.
Proof. unfold with_usage. intros H. passed H. by injection H as <-. Qed.

Lemma prepared_identity env (call : action_call (V := V)) action d m :
  prepare_action env call action d = Some (Ok m) →
  receipt_key m = (ac_run_id call, ac_node_id call) ∧ am_agent_id m = ac_agent_id call
  ∧ am_action_sha256 m = action_sha256 action.
Proof.
  intros H. destruct action; cbn [prepare_action] in H; injection H as H || idtac; try done;
    try (by subst m).
  - unfold prepare_scratchpad in H. passed H. by injection H as <-.
  - unfold prepare_child in H. case_match; [done|]. destruct (propose_recursively _ _ _ _ _ _) as [r|]; [|done].
    cbn in H. injection H as H. passed H. by injection H as <-.
  - unfold prepare_handoff in H. passed H. by injection H as <-.
  - unfold answer_handoff in H. destruct (find_pending_handoff_for_target _ _ _ _) as [[pid p]|]; [|done].
    passed H. by injection H as <-.
  - unfold answer_handoff in H. destruct (find_pending_handoff_for_target _ _ _ _) as [[pid p]|]; [|done].
    passed H. by injection H as <-.
  - unfold prepare_cancel in H. destruct (find_proposal_by_correlation _ _ _ _) as [[pid p]|]; [|done].
    passed H. by injection H as <-.
  - unfold prepare_review in H. passed H. by injection H as <-.
  - unfold prepare_verdict in H. passed H. by injection H as <-.
  - unfold prepare_open_debate in H. passed H. by injection H as <-.
  - unfold prepare_position in H. passed H. by injection H as <-.
  - unfold prepare_resolution in H. passed H. by injection H as <-.
Qed.

Lemma child_inv_prepared env (call : action_call (V := V)) action proposal d m :
  prepare_child env call action proposal d = Some (Ok m) →
  ∃ outcome, propose_recursively env call action proposal ("prop-" +:+ stable_suffix action) (ad_db d)
      = Some (Ok outcome)
    ∧ m = mutation_of call action (child_result proposal ("prop-" +:+ stable_suffix action) outcome) 0
            (child_operations call proposal ("prop-" +:+ stable_suffix action) outcome).
Proof.
  unfold prepare_child. intros H. case_match; [done|].
  destruct (propose_recursively _ _ _ _ _ _) as [r|]; [|done]. cbn in H. injection H as H. passed H.
  injection H as <-. eauto.
Qed.

Lemma mutation_inv env (call : action_call (V := V)) action d m :
  action_mutation env call action d = Some (Ok m) →
  ∃ m0, prepare_action env call action d = Some (Ok m0) ∧ with_usage call action m0 = Ok m.
Proof.
  unfold action_mutation. intros H. destruct (prepare_action env call action d) as [r|]; [|done].
  cbn in H. injection H as H. passed H. eauto.
Qed.

(** The trees an action stores were counted up from what the action read. *)
Lemma mutation_counted env (call : action_call (V := V)) action d m :
  action_mutation env call action d = Some (Ok m) → room (ac_run_id call) (ad_db d) →
  ∀ op, op ∈ am_operations m → tree_counted op.
Proof.
  intros (m0 & Hp & [-> _]%with_usage_operations)%mutation_inv Hroom op Hop.
  destruct (action_child action) as [proposal|] eqn:Ec.
  - apply action_child_Some in Ec as ->. apply child_inv_prepared in Hp as (outcome & Ho & ->).
    revert op Hop. apply Forall_forall. cbn. constructor; [done|]. apply Forall_app. split.
    { destruct (co_tree outcome) eqn:Et; [|done]. apply Forall_singleton. by eapply propose_counted. }
    repeat (apply Forall_app; split); repeat case_match; plain.
  - apply plain_counted. eapply Forall_forall; [|exact Hop]. eapply prepared_plain; [done|].
    by intros proposal ->.
Qed.
End trees.
