(* ===== verification/AgentSystem.v ===== *)
(** * Agents, schedulers and operators at work together

    The step of an agent: what it leaves when it does nothing, when it acts and when
    it has acted before.  The system: schedulers, operators and agents whose actions
    are prepared from one state and applied to a later one. *)

From S2P Require Import Prelude Text Json Float64 RecursiveExecution RecursiveTreeProps Persistence PersistenceProps TreeMoves TreeStore TreeStoreProps TreeHistory NodeExecution WorkflowRuns WorkflowFrames WorkflowProps WorkflowSteps RunGraph RunGraphProps SchedulerShape AgentMemory AgentRuntime AgentActions AgentProps AgentEffects AgentStep AgentExecute AgentStepProps.
From stdpp Require Import relations.

Local Open Scope Z_scope.

(** ** Entries of the audit log *)

Section notes.
Context {V : Type} `{JV : JsonValue V} `{JT : JsonText V} `{JN : JsonNumbers V}.

Definition audit_step (d d' : agent_db) : Prop :=
  ∃ now actor action resource (details : V), audit now actor action resource details d = Some (Ok tt, d').
Definition audits : agent_db → agent_db → Prop := rtc audit_step.

Lemma audits_log d d' : audits d d' → ∃ log, d' = d <| ad_db := (ad_db d) <| audit_log := log |> |>.
Proof.
  induction 1 as [d|d d1 d' (now & ac & a & r & v & [= <-]) _ [log ->]]; [|by exists log].
  exists (audit_log (ad_db d)). by destruct d as [[]].
Qed.

(** Operations that only take notes. *)
Definition noted {A} (m : agent_op A) : Prop := ∀ d, ∃ a d', m d = Some (Ok a, d') ∧ audits d d'.

Lemma noted_done {A} (a : A) : noted (done a).
Proof. intros d. by exists a, d. Qed.

Lemma noted_andthen {A B} (m : agent_op A) (k : A → agent_op B) :
  noted m → (∀ a, noted (k a)) → noted (andthen m k).
Proof.
  intros Hm Hk d. destruct (Hm d) as (a & d1 & E1 & H1). destruct (Hk a d1) as (b & d2 & E2 & H2).
  exists b, d2. unfold andthen. rewrite E1. split; [done|]. by etrans.
Qed.

Lemma noted_inv {A B} (m : agent_op A) (k : A → agent_op B) d r d' :
  andthen m k d = Some (r, d') → noted m → ∃ a d1, audits d d1 ∧ k a d1 = Some (r, d').
Proof. intros H Hm. destruct (Hm d) as (a & d1 & E & H1). exists a, d1. unfold andthen in H. by rewrite E in H. Qed.

Lemma noted_audit now actor action resource (details : V) : noted (audit now actor action resource details).
Proof. intros d. eexists tt, _. split; [reflexivity|]. apply rtc_once. by exists now, actor, action, resource, details. Qed.
End notes.

(** ** The step of an agent *)

Section step.
Context `{RE : Regex} {V : Type} `{EV : EqDecision V} `{JV : JsonValue V} `{JT : JsonText V}
  `{JN : JsonNumbers V} `{SD : StoreDecoders V} `{Deps : RecursiveDeps} `{TE : TreeEncoder}
  `{RO : RowOrder} `{TO : TableOrder} `{AC : ActionCodec}.
Abbreviation audits := (audits (V := V)).

Lemma noted_event context now action (details : V) : noted (V := V) (step_event context now action details).
Proof. apply noted_audit. Qed.

Lemma noted_undecided context clock error : noted (V := V) (report_undecided context clock error).
Proof.
  apply noted_andthen; [|intros; apply noted_event]. case_match; [apply noted_event|apply noted_done].
Qed.

Lemma noted_failed context clock action error : noted (V := V) (report_failed context clock action error).
Proof.
  apply noted_andthen; [|intros; apply noted_event].
  repeat case_match; first [apply noted_event|apply noted_done].
Qed.

(** The action of a step: who takes it, what was decided, and the state it found. *)
Record taken (env : env_vars) (source : AgentDecisionSource) (input : NodeExecutionInput (V := V))
    (latency_ms : Z) (d : agent_db) (call : action_call) (action : AgentAction) : Prop := {
  tk_agent : step_agent env input = Ok (ac_agent_id call);
  tk_state : step_state env input (ac_agent_id call) d = Ok (ac_agent_state call);
  tk_run : ac_run_id call = in_run_id input;
  tk_node : ac_node_id call = in_node_id input;
  tk_fresh : agent_action_receipts d !! (in_run_id input, in_node_id input) = None;
  tk_decided : decide_action source (step_context input (ac_agent_id call) (ac_agent_state call) d)
    = Ok (action, ac_provider_usage call);
  tk_valid : validate_agent_action_context action
    (step_context input (ac_agent_id call) (ac_agent_state call) d) = Ok tt;
}.

(** A step either takes notes only, or its action is executed among notes. *)
Definition acted env source input clock latency_ms d d' : Prop :=
  ∃ call action d1 x d2, taken env source input latency_ms d call action
    ∧ audits d d1 ∧ execute_action env call action (clock 2%nat) d1 = Some (x, d2) ∧ audits d2 d'.

Lemma act_inv env source input clock latency elapsed agent_id state action usage d d0 r d' :
  step_agent env input = Ok agent_id → step_state env input agent_id d = Ok state →
  agent_action_receipts d !! (in_run_id input, in_node_id input) = None →
  decide_action source (step_context input agent_id state d) = Ok (action, usage) →
  audits d d0 →
  act env (step_context input agent_id state d) state clock latency elapsed action usage d0 = Some (r, d') →
  is_ok r = true ∧ (audits d d' ∨ acted env source input clock latency d d').
Proof.
  intros Ha Hs Hr Hd H0 H. unfold act in H. set (context := step_context input agent_id state d) in *.
  destruct (validate_agent_action_context action context) as [[]|e] eqn:Ev.
  - apply noted_inv in H as ([] & d1 & H1 & H); [|apply noted_event]. unfold andthen at 1, attempt in H.
    destruct (execute_action _ _ _ _ d1) as [[x d2]|] eqn:Ex; [|done].
    assert (Hn : is_ok r = true ∧ audits d2 d').
    { destruct x; (apply noted_inv in H as ([] & d3 & H3 & [= <- <-]); [done|]);
        [apply noted_event|apply noted_failed]. }
    destruct Hn as [Hok Hn]. split; [done|]. right.
    exists (step_call context state usage latency), action, d1, x, d2. split_and!; try done. by etrans.
  - apply noted_inv in H as ([] & d1 & H1 & [= <- <-]); [|apply noted_event]. split; [done|]. left. by etrans.
Qed.

(** What a step does to an agent's database. *)
Lemma node_inv env source input clock latency elapsed d r d' :
  execute_node env source input clock latency elapsed d = Some (r, d') →
  is_ok r = true ∧ (audits d d' ∨ acted env source input clock latency d d').
Proof.
  unfold execute_node. intros H. destruct (step_agent env input) as [agent_id|] eqn:Ea;
    [|injection H as <- <-; split; [done|by left]].
  unfold andthen at 1, select in H. destruct (step_state env input agent_id d) as [state|] eqn:Es;
    [|injection H as <- <-; split; [done|by left]].
  unfold andthen at 1 in H. unfold committed_agent_action_result in H.
  destruct (agent_action_receipts d !! (in_run_id input, in_node_id input)) as [row|] eqn:Er.
  { repeat (case_match; try done); injection H as <- <-; split; try done; by left. }
  unfold andthen at 1 in H. apply noted_inv in H as ([] & d1 & H1 & H); [|apply noted_event].
  destruct (decide_action _ _) as [[action usage]|e] eqn:Ed; [by eapply act_inv|].
  apply noted_inv in H as ([] & d2 & H2 & [= <- <-]); [|apply noted_undecided].
  split; [done|]. left. by etrans.
Qed.

(** A step that has acted before changes nothing. *)
Lemma node_replays env source input clock latency elapsed d row :
  agent_action_receipts d !! (in_run_id input, in_node_id input) = Some row →
  ∃ out, execute_node env source input clock latency elapsed d = Some (Ok out, d).
Proof.
  intros Er. unfold execute_node. destruct (step_agent env input) as [agent_id|]; [|by eexists].
  unfold andthen at 1, select. destruct (step_state env input agent_id d) as [state|]; [|by eexists].
  unfold andthen at 1, committed_agent_action_result. rewrite Er.
  destruct (negb _); [by eexists|]. destruct (is_none _); by eexists.
Qed.

(** *** Steps that return *)

Lemma admit_child_returns env p t : keyed t → is_Some (admit_child env p t).
Proof.
  intros Hk. unfold admit_child. destruct (admit_checks env p t) as [[parent fp]|] eqn:E; [|eauto].
  destruct (admit_budget p parent t); [|eauto].
  apply admit_checks_inv in E as (_ & _ & _ & _ & _ & _ & Hp & _).
  destruct (Hk _ _ Hp) as [-> _]. rewrite Hp. eauto.
Qed.

Definition stored_keyed (run : string) (db : database) : Prop :=
  ∀ t, load_recursive_tree (V := V) run db = Ok (Some t) → keyed t.

Lemma propose_returns env (call : action_call (V := V)) action proposal pid db :
  stored_keyed (ac_run_id call) db →
  is_Some (propose_recursively env call action proposal pid db).
Proof.
  intros Hk. unfold propose_recursively. case_match; [eauto|].
  destruct (load_recursive_tree _ db) as [stored_tree|] eqn:El; [|eauto]. cbv zeta.
  destruct (get_workflow_run _ db) as [run|] eqn:Eg; [|eauto].
  destruct (root_binding_present _ _); [|eauto]. cbn [negb mbind option_bind].
  destruct (bind_tree _ _ _ _ _ _) as [[t authority]|] eqn:Eb; [|eauto]. apply fmap_is_Some.
  apply bind_tree_inv in Eb as [Kb _ _ _ _]. assert (Ht : keyed t).
  { apply Kb. destruct stored_tree as [ts|]; [by apply Hk|apply fresh_keyed]. }
  unfold admit_proposal. destruct (nodes t !! _) as [parent|]; [|eauto].
  destruct (admit_child_returns env (recursive_proposal_of action proposal pid authority parent) t Ht)
    as [[] E]. rewrite E. cbn. eauto.
Qed.

Lemma mutation_returns env (call : action_call (V := V)) action d :
  stored_keyed (ac_run_id call) (ad_db d) → is_Some (action_mutation env call action d).
Proof.
  intros Hk. unfold action_mutation. assert (H : is_Some (prepare_action env call action d)).
  { destruct action; cbn [prepare_action]; try (by eexists). unfold prepare_child. case_match; [by eexists|].
    destruct (propose_returns env call (ProposeChildTask proposal) proposal
      ("prop-" +:+ stable_suffix (ProposeChildTask proposal)) (ad_db d) Hk) as [r E].
    rewrite E. by eexists. }
  destruct H as [r ->]. by eexists.
Qed.

Lemma execute_returns env (call : action_call (V := V)) action now d :
  stored_keyed (ac_run_id call) (ad_db d) → is_Some (execute_action env call action now d).
Proof.
  intros Hk. unfold execute_action. destruct (mutation_returns env call action d Hk) as [[m|e] ->]; [|by eexists].
  apply action_returns.
Qed.

Lemma noted_some {A B} (m : agent_op A) (k : A → agent_op B) d :
  noted (V := V) m → (∀ a d1, audits d d1 → is_Some (k a d1)) → is_Some (andthen m k d).
Proof. intros Hm Hk. destruct (Hm d) as (a & d1 & E & H1). unfold andthen. rewrite E. by apply Hk. Qed.

Lemma act_returns env d0 input clock latency elapsed agent_id state action usage d :
  stored_keyed (in_run_id input) (ad_db d) →
  is_Some (act env (step_context input agent_id state d0) state clock latency elapsed action usage d).
Proof.
  intros Hk. unfold act. case_match.
  - apply noted_some; [apply noted_event|]. intros [] d1 [log ->]%audits_log. unfold andthen at 1, attempt.
    match goal with |- context [execute_action env ?call action ?now ?d1] =>
      destruct (execute_returns env call action now d1 Hk) as [[x d2] E]; rewrite E end.
    destruct x; (apply noted_some; [|by eexists]); [apply noted_event|apply noted_failed].
  - apply noted_some; [apply noted_event|by eexists].
Qed.

Lemma node_returns env source input clock latency elapsed d :
  stored_keyed (in_run_id input) (ad_db d) →
  is_Some (execute_node env source input clock latency elapsed d).
Proof.
  intros Hk. unfold execute_node. destruct (step_agent env input) as [agent_id|]; [|by eexists].
  unfold andthen at 1, select. destruct (step_state env input agent_id d) as [state|]; [|by eexists].
  unfold andthen at 1. destruct (committed_agent_action_result _ _ _ d) as [[s|]|]; [by eexists| |by eexists].
  unfold andthen at 1. apply noted_some; [apply noted_event|]. intros [] d1 [log ->]%audits_log.
  destruct (decide_action _ _) as [[action usage]|e]; [by apply act_returns|].
  apply noted_some; [apply noted_undecided|by eexists].
Qed.
End step.

(** ** The system *)

Section system.
Context `{RE : Regex} {V : Type} `{EV : EqDecision V} `{JV : JsonValue V} `{JT : JsonText V}
  `{JN : JsonNumbers V} `{SD : StoreDecoders V} `{Deps : RecursiveDeps} `{TE : TreeEncoder}
  `{RO : RowOrder} `{TO : TableOrder} `{AC : ActionCodec} `{HO : HashOrder}.
Context (contract : V → option UsageContract.RecursiveUsageContract) (allowed : option (Z * Z) → Prop).

(** The database, and the actions that agents have prepared from it. *)
Record system : Type := mkSystem {
  sy_db : agent_db;
  sy_prepared : list (AgentActionMutation V);
}.

(** The tree of the run has fewer than 2^24 proposals. *)
Definition small (run : string) (db : database) : Prop :=
  ∀ t, load_recursive_tree (V := V) run db = Ok (Some t) →
    Z.of_nat (size (accepted_proposals t)) + Z.of_nat (size (rejected_proposals t)) < STEP.

(** What is prepared may be applied at any later time, and more than once. *)
Inductive system_step : system → system → Prop :=
  | sy_run d ms db :
      run_step (V := V) contract allowed (ad_db d) db →
      system_step (mkSystem d ms) (mkSystem (d <| ad_db := db |>) ms)
  | sy_runtime d ms d' :
      runtime_step (V := V) d d' → system_step (mkSystem d ms) (mkSystem d' ms)
  | sy_prepare env call action d ms m :
      action_mutation env call action d = Some (Ok m) → small (ac_run_id call) (ad_db d) →
      system_step (mkSystem d ms) (mkSystem d (m :: ms))
  | sy_apply m now d ms r d' :
      m ∈ ms → apply_agent_action_once m now d = Some (r, d') →
      system_step (mkSystem d ms) (mkSystem d' ms).

(** Every action that is prepared counts the trees it stores. *)
Record system_ok (s : system) : Prop := {
  so_store : store_ok (ad_db (sy_db s));
  so_counted : ∀ m op, m ∈ sy_prepared s → op ∈ am_operations m → tree_counted op;
}.

Abbreviation agents := (agent_step (V := V) (run_step (V := V) contract allowed)).

Lemma keyed_stored run db : store_ok db → stored_keyed (V := V) run db.
Proof.
  intros Hok t Hl. destruct (load_existing_inv run db (Ok t) db) as [_ H];
    [unfold load_existing, bind, query, lift; by rewrite Hl|].
  destruct (H t eq_refl Hok). done.
Qed.

Lemma room_small run db : store_ok db → small run db → room (V := V) run db.
Proof. intros Hok Hs t Hl. split; [by eapply keyed_stored|by apply Hs]. Qed.

Context (roundtrip : ∀ t s, tree_to_string t = Ok s → tree_from_str s = Ok t).

Lemma agents_history d d' : rtc agents d d' → rtc store_step (ad_db d) (ad_db d').
Proof.
  induction 1 as [|d1 d2 d3 H _ IH]; [done|]. etrans; [|exact IH].
  apply (step_history _ _ _ (run_step_history contract allowed) H).
Qed.

Lemma system_step_inv s s' :
  system_step s s' → system_ok s → rtc agents (sy_db s) (sy_db s') ∧ system_ok s'.
Proof using roundtrip.
  intros H Hs. assert (Hgo : rtc agents (sy_db s) (sy_db s')
    ∧ ∀ m op, m ∈ sy_prepared s' → op ∈ am_operations m → tree_counted op).
  { destruct Hs as [Hok Hc]. destruct H as [d ms db H|d ms d' H|env call action d ms m Hm Hsm|m now d ms r d' Hin H];
      cbn in *.
    - split; [|done]. apply rtc_once. by constructor.
    - split; [|done]. apply rtc_once. by constructor.
    - split; [done|]. intros m' op [-> |?]%elem_of_cons; [|by eapply Hc].
      by eapply mutation_counted; [|apply room_small].
    - split; [|done]. eapply rtc_once, as_action; [|exact H]. intros op. by apply Hc. }
  destruct Hgo as [Hr Hc]. split; [done|]. split; [|done].
  eapply store_steps_ok; [exact roundtrip|by apply agents_history|apply Hs].
Qed.

Lemma system_agents s s' : rtc system_step s s' → system_ok s → rtc agents (sy_db s) (sy_db s') ∧ system_ok s'.
Proof using roundtrip.
  induction 1 as [|s1 s2 s3 H _ IH]; [done|]. intros (H1 & Hok)%(system_step_inv _ _ H).
  destruct (IH Hok) as [H2 ?]. split; [by etrans|done].
Qed.

(** *** The step of an agent as steps of the system *)

Lemma audits_path d d' ms : audits (V := V) d d' → rtc system_step (mkSystem d ms) (mkSystem d' ms).
Proof.
  induction 1 as [|d1 d2 d3 (now & ac & a & res & v & H) _ IH]; [done|]. eapply rtc_l; [|exact IH].
  by eapply sy_runtime, rs_audit.
Qed.

Lemma execute_path env call action now d ms x d' :
  execute_action env call action now d = Some (x, d') → small (ac_run_id call) (ad_db d) →
  ∃ ms', rtc system_step (mkSystem d ms) (mkSystem d' ms').
Proof.
  unfold execute_action. intros H Hs. destruct (action_mutation env call action d) as [[m|e]|] eqn:Em; [| |done].
  - exists (m :: ms). eapply rtc_l; [by eapply sy_prepare|]. eapply rtc_once, sy_apply; [|exact H]. by left.
  - injection H as _ <-. by exists ms.
Qed.

Lemma node_path env source input clock latency elapsed d r d' ms :
  execute_node env source input clock latency elapsed d = Some (r, d') →
  small (in_run_id input) (ad_db d) → ∃ ms', rtc system_step (mkSystem d ms) (mkSystem d' ms').
Proof.
  intros [_ [H|(call & action & d1 & x & d2 & Ht & H1 & Hx & H2)]]%node_inv Hs.
  - exists ms. by apply audits_path.
  - eapply (execute_path _ _ _ _ _ ms) in Hx as [ms' Hx].
    + exists ms'. etrans; [by apply audits_path|]. etrans; [exact Hx|]. by apply audits_path.
    + rewrite (tk_run _ _ _ _ _ _ _ Ht). by apply audits_log in H1 as [log ->].
Qed.
End system.
