(* ===== verification/AgentChild.v ===== *)
(** * From a proposal to a child that runs

    What an agent writes about an admitted child is what the store checks before it
    takes the child into the run, and what the executor checks before the child acts. *)

From S2P Require Import Prelude Text Json Float64 RecursiveExecution RecursiveTreeProps Persistence PersistenceProps TreeMoves TreeStore TreeStoreProps TreeHistory NodeExecution WorkflowRuns WorkflowFrames WorkflowProps RunGraph RunGraphProps AgentMemory AgentRuntime AgentActions AgentProps AgentEffects AgentRace AgentStep AgentExecute AgentStepProps AgentSystem.
From stdpp Require Import relations.

Local Open Scope Z_scope.

(** The first pair of a list of fields with a name. *)
Fixpoint field {A} (fields : list (string * A)) (key : string) : option A :=
  match fields with
  | [] => None
  | (k, a) :: fields => if bool_decide (k = key) then Some a else field fields key
  end.

Lemma lookup_fields {A} (fields : list (string * A)) key :
  (list_to_map fields : gmap string A) !! key = field fields key.
Proof.
  induction fields as [|[k a] fields IH]; [done|]. cbn.
  case_bool_decide as E; [subst k; apply lookup_insert_eq|by rewrite lookup_insert_ne].
Qed.

Section child.
Context `{RE : Regex} {V : Type} `{EV : EqDecision V} `{JV : JsonValue V} `{JT : JsonText V}
  `{JN : JsonNumbers V} `{SD : StoreDecoders V} `{Deps : RecursiveDeps} `{TE : TreeEncoder}
  `{RO : RowOrder} `{TO : TableOrder} `{AC : ActionCodec}.

(** ** The payload *)

(** The child an admission added: where it is, whose it is, and what it says. *)
Record child_of (t : RecursiveTree) (pid parent : string) (n : RecursiveNode) : Prop := {
  ch_node : nodes t !! n_node_id n = Some n;
  ch_accepted : pid ∈ accepted_proposals t;
  ch_receipt : is_Some (receipts t !! pid);
  ch_proposal : n_proposal_id n = Some pid;
  ch_parent : n_parent_node_id n = Some parent;
}.

Lemma admitted_child env p t admission t' :
  admit_child env p t = Some (Ok admission, t') → keyed t →
  child_of t' (p_proposal_id p) (p_parent_node_id p) (adm_node admission)
  ∧ root_run_id t' = root_run_id t ∧ workflow_id t' = workflow_id t
  ∧ (p_proposal_id p ∉ accepted_proposals t).
Proof.
  intros [(e & [=] & _)|(parent & pe & b & [= ->] & Hc & _ & _ & En & Et)]%admit_child_inv Hk.
  apply admit_checks_inv in Hc as (_ & _ & _ & _ & Hnew & _ & Hp & _). destruct (Hk _ _ Hp) as [Ei _].
  cbn [adm_node]. split; [|by rewrite Et]. split.
  - rewrite En. apply lookup_insert_eq.
  - rewrite Et. cbn. set_solver.
  - rewrite Et. cbn. rewrite lookup_insert_eq. eauto.
  - done.
  - cbn. by rewrite Ei.
Qed.

Context (object_fields : ∀ m : gmap string V, as_object (json_object m) = Some m).
Context (str_value : ∀ s, as_str (json_string (V := V) s) = Some s).
Context (zero_value : as_i64 (json_int (V := V) 0) = Some 0).

Lemma object_get fields key : json_get (object_of (V := V) fields) key = field fields key.
Proof using object_fields. unfold json_get, object_of. rewrite object_fields. apply lookup_fields. Qed.

Lemma object_get_str fields key s :
  field fields key = Some (json_string s) → json_get_str (object_of (V := V) fields) key = Some s.
Proof using object_fields str_value.
  unfold json_get_str. rewrite object_get. intros ->. apply str_value.
Qed.

Ltac reads :=
  repeat match goal with |- context [json_get_str (object_of ?fields) ?key] =>
    erewrite (object_get_str fields key) by reflexivity end.

(** The store takes the payload of an admitted child. *)
Lemma payload_valid (call : action_call (V := V)) proposal pid t n :
  child_of t pid (cp_parent_node_id proposal) n →
  validate_recursive_workflow_payload t (child_node_value call proposal pid n)
    (child_edge_value proposal n) (ac_agent_id call) = Ok tt.
Proof using object_fields str_value zero_value.
  intros [Hn Ha [receipt Hr] Hpid Hpar]. unfold validate_recursive_workflow_payload.
  unfold child_node_value, child_edge_value.
  reads. cbn [ok_or]. reads.
  rewrite !object_get, Hr, Hn. cbn [ok_or is_none]. rewrite Hpid, Hpar.
  repeat (rewrite bool_decide_true; [|solve [exact Ha | exact zero_value | reflexivity]]). reflexivity.
Qed.

(** The executor takes it as well: the child acts with the authority of its node. *)
Lemma payload_effective (call : action_call (V := V)) proposal pid t n input state :
  nodes t !! n_node_id n = Some n → in_node_id input = n_node_id n → in_workflow_id input = workflow_id t →
  (∀ key, key ∈ ["recursive_capabilities"; "recursive_scope"; "recursive_tenant_id"; "recursive_workspace_id"] →
     json_get (in_node_metadata input) key = json_get (child_node_value call proposal pid n) key) →
  effective_child_state input state (n_node_id n) (Some t)
  = Ok (scoped_state state (n_capabilities n) (n_scope n) (option_value (n_tenant_id n))
          (option_value (n_workspace_id n)) "recursive_child_authority").
Proof using object_fields.
  intros Hn Ei Ew Em. unfold effective_child_state.
  rewrite Ei, Ew, !Em by (apply (bool_decide_unpack _); reflexivity). unfold child_node_value. rewrite !object_get. cbn [ok_or]. rewrite Hn. cbn [ok_or].
  repeat (rewrite bool_decide_true; [|reflexivity]). reflexivity.
Qed.
End child.

(** ** An admitted child lands *)

Section landing.
Context `{RE : Regex} {V : Type} `{EV : EqDecision V} `{JV : JsonValue V} `{JT : JsonText V}
  `{JN : JsonNumbers V} `{SD : StoreDecoders V} `{Deps : RecursiveDeps} `{TE : TreeEncoder}
  `{RO : RowOrder} `{TO : TableOrder} `{AC : ActionCodec} `{HO : HashOrder}.

Lemma quiet_decide run p status now : keeps quiet (decide_proposal run p status now).
Proof.
  apply quiet_proposal. intros row [_ Hp]%andb_true_iff. by apply with_status_same.
Qed.

(** One proposal of a saved tree. *)
Definition mark_accepted (m : AgentActionMutation V) (now p : string) : agent_op unit :=
  status <-@ select (proposal_status (am_run_id m) p) ;;
  if bool_decide (status = Some "pending") then
    updated <-@ decide_proposal (am_run_id m) p "accepted" now ;;
    require_one updated "recursive proposal acceptance raced"
  else if bool_decide (status = Some "accepted") then done tt
  else if bool_decide (status = Some "rejected") then refuse "recursive proposal was rejected"
  else refuse "recursive proposal record is missing".

Lemma quiet_mark (m : AgentActionMutation V) now p : keeps quiet (mark_accepted m now p).
Proof.
  apply keeps_andthen; [apply _|apply keeps_select, _|intros status].
  repeat case_bool_decide; try (by apply keeps_refuse, _); [|by apply keeps_done, _].
  apply keeps_andthen; [apply _|apply quiet_decide|]. intros [|]; [by apply keeps_done, _|by apply keeps_refuse, _].
Qed.

Lemma mark_inv (m : AgentActionMutation V) now p d d' :
  mark_accepted m now p d = Some (Ok tt, d') → proposal_status (am_run_id m) p d' = Some "accepted".
Proof.
  unfold mark_accepted. intros (st & d1 & [= <- <-] & H)%andthen_Ok.
  case_bool_decide as E1.
  - apply andthen_Ok in H as (b & d2 & Hd & H). unfold require_one in H. destruct b; [|done].
    injection H as <-. unfold decide_proposal, update_proposal in Hd. unfold proposal_status in E1 |- *.
    destruct (agent_proposals d !! p) as [row|] eqn:Er; [|done]. cbn in E1.
    destruct (in_run (am_run_id m) row) eqn:Ei; [|done]. cbn in Hd. case_match; [|done].
    injection Hd as <-. cbn. rewrite lookup_insert_eq. cbn. unfold in_run in *. cbn. by rewrite Ei.
  - case_bool_decide as E2; [by injection H as <-|]. by case_bool_decide.
Qed.

(** A status that was decided stays. *)
Lemma status_kept run p status d d' :
  evolves None d d' → status ≠ "pending" → proposal_status run p d = Some status →
  proposal_status run p d' = Some status.
Proof.
  intros He Hne. unfold proposal_status. destruct (agent_proposals d !! p) as [row|] eqn:Er; [|done].
  destruct (ev_proposals _ _ _ He _ _ Er) as (row' & Hr' & [Hid Hs]). rewrite Hr'. cbn.
  assert (Ei : in_run run row' = in_run run row).
  { unfold proposal_identity in Hid. unfold in_run. by injection Hid as _ -> _ _ _ _ _ _ _ _. }
  rewrite Ei. destruct (in_run run row); [|done]. intros [= <-]. by rewrite Hs.
Qed.

Lemma marks_inv (m : AgentActionMutation V) now l d d' p :
  each l (mark_accepted m now) d = Some (Ok tt, d') → p ∈ l →
  proposal_status (am_run_id m) p d' = Some "accepted".
Proof.
  revert d. induction l as [|q l IH]; intros d H Hp; [by apply not_elem_of_nil in Hp|].
  cbn [each] in H. apply andthen_Ok in H as ([] & d1 & H1 & H2).
  apply elem_of_cons in Hp as [-> |Hp]; [|by eapply IH].
  apply mark_inv in H1. eapply status_kept; [|done|exact H1].
  apply qu_evolves. eapply keeps_each; [apply _|apply quiet_mark|exact H2].
Qed.

Lemma quiet_rejected (m : AgentActionMutation V) t now : keeps quiet (mark_recursive_proposals_rejected m t now).
Proof.
  apply keeps_each; [apply _|]. intros [p evidence].
  apply keeps_andthen; [apply _|apply keeps_select, _|intros status].
  repeat case_bool_decide; try (by apply keeps_refuse, _); [|by apply keeps_done, _].
  apply keeps_andthen; [apply _|apply quiet_decide|]. intros [|]; [|by apply keeps_refuse, _].
  apply keeps_andthen; [apply _|by apply keeps_done, _|]. intros []. apply quiet_audit.
Qed.

(** The tree is saved, and its proposals are accepted. *)
Lemma saved_inv (m : AgentActionMutation V) t v now d d' db1 :
  persist_recursive_tree t now (Some v) (ad_db d) = Some (Ok tt, db1) →
  apply_persist_tree m t (Some v) now d = Some (Ok tt, d') →
  same_trees db1 (ad_db d') ∧ same_workflow (ad_db d) (ad_db d') ∧ evolves None d d'
  ∧ ∀ p, p ∈ accepted_proposals t → proposal_status (am_run_id m) p d' = Some "accepted".
Proof.
  intros Hp H. unfold apply_persist_tree in H. apply andthen_Ok in H as (res & d1 & H1 & H).
  unfold attempt, on_runs in H1. rewrite Hp in H1. injection H1 as <- <-.
  apply andthen_Ok in H as ([] & d2 & H1 & H2).
  assert (Q1 : quiet (d <| ad_db := db1 |>) d2).
  { eapply keeps_each; [apply _|apply (quiet_mark m now)|exact H1]. }
  apply quiet_rejected in H2. split_and!.
  - etrans; [apply (qu_trees _ _ Q1)|apply (qu_trees _ _ H2)].
  - transitivity db1; [by eapply (persist_same t now (Some v) true)|].
    etrans; [apply (qu_workflow _ _ Q1)|apply (qu_workflow _ _ H2)].
  - transitivity (d <| ad_db := db1 |>); [by apply evolves_same|].
    etrans; [apply (qu_evolves _ _ Q1)|apply (qu_evolves _ _ H2)].
  - intros p Hin. eapply status_kept; [apply qu_evolves, H2|done|]. eapply (marks_inv m now); [exact H1|].
    by apply elem_of_sort_by, elem_of_elements.
Qed.

(** Saving does not read the audit log. *)
Lemma persist_log t now v db log db1 :
  persist_recursive_tree t now (Some v) db = Some (Ok tt, db1) →
  ∃ json, validate_tree_for_persistence t = Ok json
    ∧ persist_recursive_tree t now (Some v) (db <| audit_log := log |>)
      = Some (Ok tt, write_tree t json now (db <| audit_log := log |>)).
Proof.
  intros [(e & [=] & _)|(json & _ & Hv & _ & Hc & Hb)]%persist_inv. exists json. split; [done|].
  unfold persist_recursive_tree, persist_recursive_tree_inner, bind, lift, query. rewrite Hv.
  change (check_expected (root_run_id t) v (db <| audit_log := log |>)) with (check_expected (root_run_id t) v db).
  change (check_workflow_binding t (db <| audit_log := log |>)) with (check_workflow_binding t db).
  by rewrite (Hc _ eq_refl), Hb.
Qed.

(** The rows of the child. *)
Record joined (run nid parent : string) (node edge : V) (db db' : database) : Prop := {
  jo_new : workflow_run_nodes db !! (run, nid) = None;
  jo_parent : is_Some (workflow_run_nodes db !! (run, parent));
  jo_nodes : workflow_run_nodes db' = <[(run, nid) := node_row_of node]> (workflow_run_nodes db);
  jo_edge : ∃ eid row, json_get_str edge "edge_id" = Some eid
    ∧ workflow_run_edges db !! (run, eid) = None
    ∧ workflow_run_edges db' = <[(run, eid) := row]> (workflow_run_edges db)
    ∧ we_from_node_id row = parent ∧ we_to_node_id row = nid;
}.

Lemma joined_same run nid parent node edge db0 db db' db1 :
  same_workflow db0 db → same_workflow db' db1 → joined run nid parent node edge db db' →
  joined run nid parent node edge db0 db1.
Proof.
  intros [_ En Ee _] [_ En' Ee' _] [J1 J2 J3 (eid & row & J4 & J5 & J6 & J7)].
  split; rewrite ?En', <- ?En; try done. exists eid, row. by rewrite Ee', <-Ee.
Qed.

Lemma joins_inv (m : AgentActionMutation V) (node edge : V) now d d' pid nid parent :
  json_get_str node "proposal_id" = Some pid → json_get_str node "node_id" = Some nid →
  json_get_str edge "from_node_id" = Some parent → json_get_str edge "to_node_id" = Some nid →
  proposal_status (am_run_id m) pid d = Some "accepted" →
  apply_persist_workflow m node edge now d = Some (Ok tt, d') →
  joined (am_run_id m) nid parent node edge (ad_db d) (ad_db d')
  ∧ same_trees (ad_db d) (ad_db d') ∧ ∃ db, d' = d <| ad_db := db |>.
Proof.
  intros Ep En Ef Et Hst H. unfold apply_persist_workflow in H. rewrite Ep in H.
  apply andthen_Ok in H as (x & d1 & [= <- <-] & H). apply andthen_Ok in H as (st & d2 & [= <- <-] & H).
  rewrite Hst in H. cbn in H. apply andthen_Ok in H as ([] & d3 & [= <-] & H). unfold on_runs in H.
  destruct (insert_recursive_child m node edge now (ad_db d)) as [[[[]|e] db1]|] eqn:Ei; [|done..].
  injection H as <-. unfold insert_recursive_child in Ei.
  apply bind_Ok in Ei as ([] & dba & Hval & H).
  assert (parent ≠ nid ∧ dba = ad_db d) as [Hne ->].
  { apply bind_Ok in Hval as (t & dbb & [-> Hac]%load_existing_accepted & [Hp ->]%lift_inv).
    split; [|done]. by eapply payload_distinct. }
  apply bind_Ok in H as ([] & db2 & [Hnew ->]%(insert_node_inv _ _ _ _ _ En) & H).
  apply bind_Ok in H as ([] & db3 & (eid & row & Ei & Ej & Ef' & Et' & Hfrom & Hfree & ->)%insert_edge_inv & H).
  injection H as <-. split_and!; [|by split|by eexists].
  assert (we_from_node_id row = parent) as E1 by congruence. rewrite E1 in Hfrom. cbn in Hfrom.
  rewrite lookup_insert_ne in Hfrom by congruence.
  split; [done|done|done|]. exists eid, row. split_and!; try done. congruence.
Qed.

Lemma audits_quiet (m : AgentActionMutation V) now ops :
  Forall is_audit ops → keeps quiet (each ops (apply_sqlite_operation m now)).
Proof.
  induction 1 as [|op ops Hop _ IH]; [apply keeps_done, _|].
  apply keeps_andthen; [apply _| |done]. destruct op; try done. apply quiet_audit.
Qed.

Lemma child_lands (m : AgentActionMutation V) now d d' s pid c par ty obj ctx tgt pn pe t v node edge audits nid
    parent db1 :
  (∀ t s, tree_to_string t = Ok s → tree_from_str s = Ok t) →
  am_operations m = child_action pid c par ty obj ctx tgt pn pe t v node edge audits → Forall is_audit audits →
  json_get_str node "proposal_id" = Some pid → json_get_str node "node_id" = Some nid →
  json_get_str edge "from_node_id" = Some parent → json_get_str edge "to_node_id" = Some nid →
  pid ∈ accepted_proposals t →
  persist_recursive_tree t now (Some v) (ad_db d) = Some (Ok tt, db1) →
  commit_action m now d = Some (Ok s, d') →
  s = am_result_json m ∧ stored (ad_db d') (root_run_id t) = Some t
  ∧ proposal_status (am_run_id m) pid d' = Some "accepted"
  ∧ joined (am_run_id m) nid parent node edge (ad_db d) (ad_db d').
Proof.
  intros Hrt Eops Haud J1 J2 J3 J4 Hpid Hper Hcm.
  apply commit_inv in Hcm as (d1 & receipt & Hops & Hrc & <- & _ & _ & Ep & _ & log & Elog).
  rewrite Eops in Hops. unfold child_action in Hops. cbn [each] in Hops.
  apply andthen_Ok in Hops as ([] & da & (row & log1 & -> & _ & _)%propose_inv & Hops). cbn in Hops.
  apply andthen_Ok in Hops as ([] & db & Hsave & Hops).
  destruct (persist_log _ _ _ _ log1 _ Hper) as (json & Hv & Hper').
  eapply saved_inv in Hsave as (Htr & Hwf & Hev & Hacc); [|exact Hper'].
  apply andthen_Ok in Hops as ([] & dc & Hj & Hops).
  eapply joins_inv in Hj as (Hj & Htr2 & db2 & Edc); [|done..|by apply Hacc].
  apply audits_quiet in Hops as [Hev3 Htr3 Hwf3]; [|done].
  assert (Hev2 : evolves None db d1).
  { etrans; [|exact Hev3]. subst dc. by apply evolves_same. }
  assert (Hrow : agent_action_receipts d1 !! receipt_key m = Some (claimed_receipt m now)).
  { apply (ev_receipts _ _ _ Hev2); [done|]. apply (ev_receipts _ _ _ Hev); [done|]. cbn. apply lookup_insert_eq. }
  rewrite Hrow in Hrc. injection Hrc as <-. split_and!.
  - done.
  - transitivity (stored (write_tree t json now ((ad_db d) <| audit_log := log1 |>)) (root_run_id t)).
    + unfold stored. rewrite Elog. cbn. destruct Htr3 as [-> _], Htr2 as [-> _], Htr as [-> _]. done.
    + rewrite (write_tree_stored Hrt) by done. by rewrite bool_decide_true.
  - assert (Hs : proposal_status (am_run_id m) pid d1 = Some "accepted").
    { eapply status_kept; [exact Hev2|done|by apply Hacc]. }
    unfold proposal_status in *. by rewrite Ep.
  - eapply joined_same; [| |exact Hj].
    + etrans; [|exact Hwf]. by split.
    + rewrite Elog. etrans; [exact Hwf3|]. by split.
Qed.

(** ** The action of an agent whose proposal is admitted *)

Definition child_proposal_id (proposal : ChildTaskProposal) : string :=
  "prop-" +:+ stable_suffix (ProposeChildTask proposal).

(** The agent [call] prepared an action for an admitted child [n], whose tree [t] it
    stores if the version is still [v]. *)
Record admits (env : env_vars) (call : action_call (V := V)) (proposal : ChildTaskProposal) (d0 : agent_db)
    (m : AgentActionMutation V) (t : RecursiveTree) (v : Z) (n : RecursiveNode) : Prop := {
  ad_mutation : action_mutation env call (ProposeChildTask proposal) d0 = Some (Ok m);
  ad_outcome : ∃ outcome, propose_recursively env call (ProposeChildTask proposal) proposal
      (child_proposal_id proposal) (ad_db d0) = Some (Ok outcome)
    ∧ co_node_id outcome = Some (n_node_id n) ∧ co_tree outcome = Some t
    ∧ co_expected_version outcome = Some v ∧ nodes t !! n_node_id n = Some n;
}.

Lemma admit_outcome env (call : action_call (V := V)) action proposal pid v authority t db outcome child :
  admit_proposal env call action proposal pid v authority t db = Some outcome → keyed t →
  co_node_id outcome = Some child → is_some (get_workflow_run (V := V) (ac_run_id call) db) = true →
  ∃ t' n, co_tree outcome = Some t' ∧ n_node_id n = child ∧ child_of t' pid (cp_parent_node_id proposal) n
    ∧ root_run_id t' = root_run_id t
    ∧ co_workflow outcome = Some (child_node_value call proposal pid n, child_edge_value proposal n)
    ∧ co_rejection outcome = None.
Proof.
  unfold admit_proposal. intros H Hk Hc Hw. destruct (nodes t !! _) as [parent|]; [|by injection H as <-].
  destruct (admit_child env _ t) as [[[admission|e] t']|] eqn:Ea; [|by injection H as <-|done].
  injection H as <-. cbn in Hc. injection Hc as <-. apply admitted_child in Ea as (Hch & Hr & _); [|done].
  exists t', (adm_node admission). cbn [co_tree co_workflow co_rejection]. by rewrite Hw.
Qed.

Lemma propose_outcome env (call : action_call (V := V)) action proposal pid db outcome child :
  propose_recursively env call action proposal pid db = Some (Ok outcome) → store_ok db →
  co_node_id outcome = Some child →
  ∃ t n, co_tree outcome = Some t ∧ n_node_id n = child ∧ child_of t pid (cp_parent_node_id proposal) n
    ∧ root_run_id t = ac_run_id call
    ∧ co_workflow outcome = Some (child_node_value call proposal pid n, child_edge_value proposal n)
    ∧ co_rejection outcome = None.
Proof.
  unfold propose_recursively. intros H Hok Hc. case_match; [by injection H as <-|].
  destruct (load_recursive_tree _ db) as [stored_tree|] eqn:El; [|done].
  destruct (get_workflow_run _ db) as [run|] eqn:Eg; [|by injection H as <-].
  destruct (root_binding_present _ _); [|by injection H as <-]. cbn [negb mbind option_bind] in H.
  destruct (bind_tree _ _ _ _ _ _) as [[t1 authority]|] eqn:Eb; [|done].
  apply fmap_Some in H as (o & Ha & [= ->]). apply bind_tree_inv in Eb as [Kb _ _ _ Rb].
  assert (Hkr : keyed t1 ∧ root_run_id t1 = ac_run_id call).
  { rewrite Rb. destruct stored_tree as [ts|]; [|by split; [apply Kb, fresh_keyed|]].
    destruct (load_existing_inv (ac_run_id call) db (Ok ts) db) as [_ Hl];
      [unfold load_existing, bind, query, lift; by rewrite El|].
    destruct (Hl ts eq_refl Hok). split; [by apply Kb|done]. }
  destruct Hkr as [K1 R1]. eapply admit_outcome in Ha as (t & n & ? & ? & ? & Hr & ? & ?); [|done|exact Hc|by rewrite Eg].
  exists t, n. split_and!; try done. by rewrite Hr.
Qed.

Lemma admits_inv env call proposal d0 m t v n :
  admits env call proposal d0 m t v n → store_ok (ad_db d0) →
  child_of t (child_proposal_id proposal) (cp_parent_node_id proposal) n
  ∧ root_run_id t = am_run_id m ∧ am_agent_id m = ac_agent_id call
  ∧ ∃ audits, Forall is_audit audits ∧ am_operations m =
      child_action (child_proposal_id proposal) (cp_correlation_id proposal) (cp_parent_node_id proposal) "child_task"
        (cp_objective proposal) (cp_context_summary proposal) None (cp_proposed_node_id proposal)
        (cp_proposed_edge_id proposal) t v (child_node_value call proposal (child_proposal_id proposal) n)
        (child_edge_value proposal n) audits.
Proof.
  intros [(m0 & Hp & Hu)%mutation_inv (o & Ho & Hc & Ht & Hv & Hn)] Hok.
  apply with_usage_operations in Hu as (Eo & Ek & Ea & _). cbn [prepare_action] in Hp.
  destruct (prepared_identity _ _ (ProposeChildTask proposal) _ _ Hp) as (Ek0 & Ea0 & _).
  apply child_inv_prepared in Hp as (o' & Ho' & ->). fold (child_proposal_id proposal) in Ho', Eo.
  rewrite Ho in Ho'. injection Ho' as <-.
  eapply propose_outcome in Ho as (t' & n' & Ht' & En & Hch & Hr & Hw & Hj); [|done|exact Hc].
  rewrite Ht in Ht'. injection Ht' as <-. assert (n' = n) as ->.
  { pose proof (ch_node _ _ _ _ Hch) as H. rewrite En in H. congruence. }
  split_and!; [done| |congruence|].
  - rewrite Hr. rewrite Ek0 in Ek. by injection Ek as -> _.
  - eexists. split; [|rewrite Eo; cbn; unfold child_operations; rewrite Ht, Hv, Hw; reflexivity]. by repeat constructor.
Qed.
End landing.
