(* ===== verification/AgentDemo.v ===== *)
(** * Two agents in a run

    Concrete data: a run whose root delegates, a child that takes a note, and a second
    agent that proposes from the same tree. *)

From S2P Require Import Prelude Text Json Float64 RecursiveExecution Persistence PersistenceTheorems TreeStore NodeExecution WorkflowRuns RunGraph JsonCodec WorkflowTheorems AgentMemory AgentRuntime AgentActions AgentStep AgentExecute.
From stdpp Require Import relations.
Import JsonDemo JsonCodec.

Local Open Scope Z_scope.

#[local] Instance RecursiveBudget_dec : EqDecision RecursiveBudget.
Proof. solve_decision. Defined.
#[local] Instance RecursiveNode_dec : EqDecision RecursiveNode.
Proof. solve_decision. Defined.
#[local] Instance RecursiveDecisionEvidence_dec : EqDecision RecursiveDecisionEvidence.
Proof. solve_decision. Defined.
#[local] Instance RecursiveTree_dec : EqDecision RecursiveTree.
Proof. solve_decision. Defined.

Module AgentDemo.

(** A hash of 64 hexadecimal digits. *)
Definition digest (s : string) : Z :=
  foldl (λ h c, (h * 257 + byte_val c + 1) `mod` (2 ^ 64)) 7 (String.list_ascii_of_string s).
Fixpoint hex_digits (n : nat) (z : Z) : string :=
  match n with
  | O => EmptyString
  | S n => default EmptyString (String.get (Z.to_nat (z `mod` 16)) "0123456789abcdef" ≫= λ c,
             Some (String c (hex_digits n (z / 16))))
  end.
Definition hash (s : string) : string :=
  let h := hex_digits 16 (digest s) in h +:+ h +:+ h +:+ h.

#[export] Instance deps : RecursiveDeps := {|
  char_is_alphanumeric := @char_is_alphanumeric PersistenceDemo.deps;
  sha256_hex := hash;
  identity_to_vec := @identity_to_vec PersistenceDemo.deps;
  usage_to_string := @usage_to_string PersistenceDemo.deps |}.
#[export] Existing Instances listed_rows listed_order.
#[export] Instance tables : TableOrder :=
  {| table_rows A m := map_to_list m; table_rows_perm A m := reflexivity _ |}.
#[export] Instance regex : Regex := {| is_match _ _ := false; replace_all _ text _ := text |}.
#[export] Instance codec : ActionCodec := λ action,
  action_type action +:+ match action with
                         | ProposeChildTask p => cp_objective p
                         | EmitNote text => text
                         | _ => EmptyString
                         end.

Definition env : env_vars := λ k,
  if bool_decide (k ∈ ["ACP_RECURSIVE_EXECUTION_ENABLED"; "ACP_ENABLE_AGENT_RUNTIME"]) then Some "1" else None.
Definition capabilities : gset string := {["child_task"; "memory"]}.
Definition scope : RecursiveScope := mkScope (Some "repo") {["docs/"]} capabilities.
Definition authority : RecursiveRootAuthority :=
  mkAuthority RECURSIVE_ROOT_AUTHORITY_VERSION scope capabilities
    (mkBudget 10 1000 5000 60000) (mkBudget 2 100 500 1000) UsageContract.Measured.
Definition authority_of (v : json) : option RecursiveRootAuthority :=
  if bool_decide (v = JStr "authority") then Some authority else None.
Definition metadata : json := JObj [
  ("node_id", JStr "root"); ("recursive_root_node_id", JStr "root"); ("task_type", JStr "agent_step");
  ("agent_id", JStr "agent"); ("agent_objective", JStr "Review the documentation");
  ("creation_receipt_sha256", JStr "plan"); ("recursive_root_authority", JStr "authority");
  ("capability_profile", JArr [JStr "child_task"; JStr "memory"])].
Definition boundaries : json := JObj [("workspace_id", JStr "w1")].
Definition clock (i : nat) : string := "t" +:+ pretty (Z.of_nat i).

Definition empty_store : database :=
  mkDatabase ∅ ∅
    {["run-1" := mkRunRow "wf-1" (json_print boundaries) "running" None (Some "t0") None "t0"]}
    {[("run-1", "root") :=
       mkWorkRow "agent_step" "running" (json_print metadata) None None None None 1 None None]} ∅ [] [].
Definition agent_row : state_row :=
  mkStateRow "planner" (json_print (strings_value ["child_task"; "handoff"]))
    (Some "Review the documentation") "active" None None (json_print (JObj [])) "t0" "t0".
Definition start : agent_db := mkAgentDb empty_store {[("agent", "run-1") := agent_row]} ∅ ∅ ∅.

Definition task (objective : string) : ChildTaskProposal :=
  mkChildTaskProposal CHILD_TASK_PROPOSAL_SCHEMA_VERSION "c1" objective "context" None None "root" "run-1" "agent".
Definition proposing (objective : string) : AgentDecisionSource (V := json) :=
  FixtureSource (λ _, Ok (ProposeChildTask (task objective))).
Definition root_input : NodeExecutionInput :=
  mkNodeInput "root" "agent_step" "run-1" "wf-1" metadata.

(** The trees of the two proposals, each made from a run without a tree. *)
Section trees.
#[local] Instance no_trees : StoreDecoders json :=
  {| tree_from_str _ := Err EmptyString; authority_from_value := authority_of |}.
#[local] Instance no_encoder : TreeEncoder := λ _, Err EmptyString.
Definition state_of (d : agent_db) : AgentState json :=
  match step_state env root_input "agent" d with
  | Ok state => state
  | Err _ => sqlite_agent_state_row "agent" "run-1" agent_row
  end.
Definition call_of (node : string) : action_call :=
  mkCall "agent" "run-1" "wf-1" node (state_of start) 0 0 None 5.
Definition outcome_of (node objective : string) : option (Prelude.result string child_outcome) :=
  propose_recursively env (call_of node) (ProposeChildTask (task objective)) (task objective)
    ("prop-" +:+ stable_suffix (ProposeChildTask (task objective))) empty_store.
Definition tree_of (node objective : string) : RecursiveTree :=
  match outcome_of node objective with
  | Some (Ok outcome) => default PersistenceDemo.root (co_tree outcome)
  | _ => PersistenceDemo.root
  end.
End trees.

Definition first : RecursiveTree := tree_of "root" "Summarise section two".
Definition second : RecursiveTree := tree_of "other" "List the open questions".
Definition late : string := "prop-" +:+ stable_suffix (ProposeChildTask (task "List the open questions")).
(** The tree after the second proposal was turned down. *)
Definition settled : RecursiveTree := record_rejection late FailureReason.StaleParent first.

Definition table : list (string * RecursiveTree) :=
  [("first", first); ("second", second); ("settled", settled)].
#[export] Instance encoder : TreeEncoder := λ t,
  match filter (λ e, e.2 = t) table with e :: _ => Ok e.1 | [] => Err EmptyString end.
#[export] Instance decoders : StoreDecoders json := {|
  tree_from_str s := match filter (λ e, e.1 = s) table with e :: _ => Ok e.2 | [] => Err EmptyString end;
  authority_from_value := authority_of |}.

(** What an operation returns and leaves. *)
Definition returned {A} (m : agent_op A) (d : agent_db) : Prelude.result string A :=
  match m d with Some (r, _) => r | None => Err EmptyString end.
Definition left_by {A} (m : agent_op A) (d : agent_db) : agent_db :=
  match m d with Some (_, d) => d | None => d end.

(** The root proposes a child; the child takes a note. *)
Definition root_step : agent_op NodeExecutionOutput :=
  execute_node env (proposing "Summarise section two") root_input clock 5 7.
Definition delegated : agent_db := left_by root_step start.
Definition child : string :=
  match outcome_of "root" "Summarise section two" with
  | Some (Ok outcome) => default EmptyString (co_node_id outcome)
  | _ => EmptyString
  end.
Definition child_metadata : json :=
  match workflow_run_nodes (ad_db delegated) !! ("run-1", child) with
  | Some row => default JNull (json_parse (wn_node_json row))
  | None => JNull
  end.
Definition child_input : NodeExecutionInput :=
  mkNodeInput child "agent_step" "run-1" "wf-1" child_metadata.
Definition child_step : agent_op NodeExecutionOutput :=
  execute_node env (FixtureSource (λ _, Ok (EmitNote "done"))) child_input clock 5 7.
Definition noted_db : agent_db := left_by child_step delegated.

(** Two proposals that are prepared from the same state and applied in turn. *)
Definition mutation_of_task (node objective : string) : AgentActionMutation json :=
  match action_mutation env (call_of node) (ProposeChildTask (task objective)) start with
  | Some (Ok m) => m
  | _ => mkMutation EmptyString EmptyString EmptyString EmptyString EmptyString EmptyString []
  end.
Definition early_task : ChildTaskProposal := task "Summarise section two".
Definition late_task : ChildTaskProposal := task "List the open questions".
Definition early_mutation : AgentActionMutation json := mutation_of_task "root" "Summarise section two".
Definition late_mutation : AgentActionMutation json := mutation_of_task "other" "List the open questions".
Definition landed_db : agent_db := left_by (apply_agent_action_once early_mutation "t8") start.
Definition lost_db : agent_db := left_by (apply_agent_action_once late_mutation "t9") landed_db.
End AgentDemo.
