(* ===== verification/AgentTheorems.v ===== *)
(** * What holds of agents at work

    Actions take effect once, runs and trees stay sound under agents, an admitted child
    lands in the tree, the run and the proposals or in none of them, and agents keep to
    the authority of their node. *)

From S2P Require Import Prelude Text Json Float64 RecursiveExecution RecursiveTreeProps Persistence PersistenceProps TreeMoves TreeStore TreeStoreProps TreeHistory TreeStoreTheorems NodeExecution WorkflowRuns WorkflowFrames WorkflowProps WorkflowSteps RunGraph RunGraphProps JsonCodec WorkflowTheorems SchedulerShape AgentMemory AgentRuntime AgentActions AgentProps AgentEffects AgentRace AgentStep AgentExecute AgentStepProps AgentSystem AgentChild AgentDemo.
From stdpp Require Import relations.
Import JsonDemo JsonCodec AgentDemo.

Local Open Scope Z_scope.

(** ** Authority *)

(** What an action takes, by the capabilities of the node it is taken for. *)
Definition granted (action : AgentAction) (capabilities : gset string) : Prop :=
  match action with
  | Wait | Complete => True
  | UpdateScratchpadSummary _ | EmitNote _ | RecordObservation _ => "memory" ∈ capabilities
  | ReadMailbox | AckMailboxMessage _ => "mailbox" ∈ capabilities
  | ProposeChildTask _ => "child_task" ∈ capabilities
  | RequestHandoff _ | AcceptHandoff _ | RejectHandoff _ | Unsupported _ => False
  | CancelProposal _ => ∃ c, c ∈ ["child_task"; "handoff"; "review"; "debate"] ∧ c ∈ capabilities
  | RequestReview _ | SubmitReviewVerdict _ => "review" ∈ capabilities
  | OpenDebate _ | SubmitDebatePosition _ | ResolveDebate _ => "debate" ∈ capabilities
  end.

Section authority.
Context `{RE : Regex} {V : Type} `{EV : EqDecision V} `{JV : JsonValue V} `{JT : JsonText V}
  `{JN : JsonNumbers V} `{SD : StoreDecoders V} `{Deps : RecursiveDeps} `{TE : TreeEncoder}
  `{RO : RowOrder} `{TO : TableOrder} `{AC : ActionCodec}.

Lemma present_in (state : AgentState V) capability :
  capability_present state capability = true ↔ capability ∈ as_capability_profile state.
Proof.
  unfold capability_present. rewrite existsb_exists. split.
  - intros (c & Hc & ->%bool_decide_eq_true). by apply list_elem_of_In.
  - intros H%list_elem_of_In. exists capability. split; [done|]. by apply bool_decide_eq_true.
Qed.

Lemma present_scoped (state : AgentState V) caps scope te ws kind capability :
  capability_present (scoped_state state caps scope te ws kind) capability = true ↔ capability ∈ caps.
Proof. rewrite present_in. cbn. unfold sort_strings. by rewrite elem_of_sort_by, elem_of_elements. Qed.

Context (bool_value : as_bool (json_bool (V := V) true) = Some true).

Lemma scoped_enforced (state : AgentState V) caps scope te ws kind :
  metadata_flag (scoped_state state caps scope te ws kind) "recursive_authority_enforced" = true.
Proof using bool_value.
  unfold metadata_flag. apply bool_decide_eq_true. cbn.
  destruct (decide (kind = "recursive_authority_enforced")) as [-> |Hne].
  - by rewrite lookup_insert_eq.
  - by rewrite lookup_insert_ne, lookup_insert_eq.
Qed.

Lemma scoped_granted action (state : AgentState V) caps scope te ws kind context :
  sx_agent_state context = Some (scoped_state state caps scope te ws kind) →
  validate_agent_action_context action context = Ok tt → granted action caps.
Proof using bool_value.
  intros Es H. unfold validate_agent_action_context in H. rewrite Es in H. cbn [ok_or] in H. passed H.
  destruct (action_authorized_by_capabilities _ _) eqn:Ea; [|done]. cbn [negb] in H.
  unfold action_authorized_by_capabilities in Ea. rewrite scoped_enforced in Ea.
  destruct action; cbn [granted negb andb] in *; try done; try (by apply present_scoped in Ea).
  apply existsb_exists in Ea as (c & Hin%list_elem_of_In & Hp%present_scoped). eauto.
Qed.

(** A node below the root acts with its own authority, whatever the agent's state says. *)
Lemma effective_inv env (input : NodeExecutionInput (V := V)) state db s tree node :
  effective_agent_state_for_recursive_node env input state db = Ok s →
  load_recursive_tree (in_run_id input) db = Ok (Some tree) → nodes tree !! in_node_id input = Some node →
  in_node_id input ≠ root_node_id tree →
  s = scoped_state state (n_capabilities node) (n_scope node) (option_value (n_tenant_id node))
        (option_value (n_workspace_id node)) "recursive_child_authority".
Proof.
  unfold effective_agent_state_for_recursive_node. intros H Hl Hn Hne. rewrite Hl in H.
  destruct (json_get_str _ "recursive_root_node_id") as [root|].
  - rewrite andb_false_r in H. unfold effective_root_state in H. exfalso. passed H.
    match type of H with context [match ?checked with pair _ _ => _ end] =>
      destruct checked as [[[authority receipt] attempt] running] end.
    passed H. unfold root_conflicts in *. checks. congruence.
  - destruct (json_get_str _ "recursive_node_id") as [id|].
    + unfold effective_child_state in H. passed H. checks. injection H as <-. subst id. congruence.
    + exfalso. rewrite Hn, bool_decide_false in H by done. done.
Qed.
End authority.

(** ** Facts about the two agents *)

Lemma is_some_get {A} (o : option A) : is_some o = true → ∃ a, o = Some a.
Proof. destruct o; [eauto|done]. Qed.

Lemma left_by_ran {A} (m : agent_op A) d : is_some (m d) = true → m d = Some (returned m d, left_by m d).
Proof. unfold returned, left_by. by destruct (m d) as [[]|]. Qed.

Lemma stored_ran (m : store unit) db :
  match m db with Some (Ok _, _) => true | _ => false end = true → m db = Some (Ok tt, after m db).
Proof. unfold after. by destruct (m db) as [[[[]|] ?]|]. Qed.

Lemma agents_roundtrip t s : tree_to_string t = Ok s → tree_from_str s = Ok t.
Proof. apply table_roundtrip. evaluate. Qed.

Lemma start_reachable : reachable_store (ad_db start).
Proof. by exists (ad_db start). Qed.

Lemma start_ok : store_ok (ad_db start).
Proof. intros id row. cbn. by rewrite lookup_empty. Qed.

Lemma start_small : small (V := json) "run-1" (ad_db start).
Proof. by intros t. Qed.

Lemma task_prepared node objective :
  match action_mutation env (call_of node) (ProposeChildTask (task objective)) start with
  | Some (Ok _) => true | _ => false end = true →
  action_mutation env (call_of node) (ProposeChildTask (task objective)) start
  = Some (Ok (mutation_of_task node objective)).
Proof. unfold mutation_of_task. by destruct (action_mutation _ _ _ start) as [[]|]. Qed.

Lemma early_prepared :
  action_mutation env (call_of "root") (ProposeChildTask early_task) start = Some (Ok early_mutation).
Proof. apply task_prepared. by vm_compute. Qed.
Lemma late_prepared :
  action_mutation env (call_of "other") (ProposeChildTask late_task) start = Some (Ok late_mutation).
Proof. apply task_prepared. by vm_compute. Qed.

Definition result_text (r : Prelude.result string string) : string := match r with Ok s => s | Err e => e end.
Lemma mutation_ran m now d :
  match apply_agent_action_once m now d with Some (Ok _, _) => true | _ => false end = true →
  apply_agent_action_once m now d = Some (Ok (result_text (returned (apply_agent_action_once m now) d)),
    left_by (apply_agent_action_once m now) d).
Proof. unfold returned, left_by. by destruct (apply_agent_action_once m now d) as [[[] ?]|]. Qed.

Definition early_result : string := result_text (returned (apply_agent_action_once early_mutation "t8") start).
Definition late_result : string := result_text (returned (apply_agent_action_once late_mutation "t9") landed_db).
Lemma early_applied : apply_agent_action_once early_mutation "t8" start = Some (Ok early_result, landed_db).
Proof. apply mutation_ran. by vm_compute. Qed.
Lemma late_applied : apply_agent_action_once late_mutation "t9" landed_db = Some (Ok late_result, lost_db).
Proof. apply mutation_ran. by vm_compute. Qed.

(** Both proposals are prepared, then one is applied after the other. *)
Definition at_start : system (V := json) := mkSystem start [].
Definition at_end : system (V := json) := mkSystem lost_db [late_mutation; early_mutation].

Lemma demo_history : rtc (system_step (λ _, None) (λ _, True)) at_start at_end.
Proof.
  eapply rtc_l; [exact (sy_prepare _ _ _ _ _ _ _ _ early_prepared start_small)|].
  eapply rtc_l; [exact (sy_prepare _ _ _ _ _ _ _ _ late_prepared start_small)|].
  eapply rtc_l; [eapply sy_apply; [|exact early_applied]; right; left|].
  eapply rtc_once, sy_apply; [|exact late_applied]. left.
Qed.

(** ** Actions take effect once *)

(** C3: An agent's action takes effect at most once.  Applying it always returns.  If it
    is refused, nothing was written.  If it is carried out, then whatever agents,
    operators and schedulers do afterwards, applying it again returns the same result
    and changes nothing, another action for the same node of the run is refused, and
    executing the step again changes nothing, whatever the agent would decide. *)
Theorem action_taken_once `{RE : Regex} {V : Type} `{EV : EqDecision V} `{JV : JsonValue V} `{JT : JsonText V}
    `{JN : JsonNumbers V} `{SD : StoreDecoders V} `{Deps : RecursiveDeps} `{TE : TreeEncoder}
    `{RO : RowOrder} `{TO : TableOrder} `{AC : ActionCodec} `{HO : HashOrder}
    (m : AgentActionMutation V) now d :
  ∃ r d', apply_agent_action_once m now d = Some (r, d')
  ∧ match r with
    | Err _ => d' = d
    | Ok s => ∀ runs d2, rtc (agent_step (V := V) runs) d' d2 →
        (∀ (m2 : AgentActionMutation V) now2,
           receipt_key m2 = receipt_key m → validate_mutation m2 = Ok tt →
           if decide (am_agent_id m2 = am_agent_id m ∧ am_action_sha256 m2 = am_action_sha256 m)
           then apply_agent_action_once m2 now2 d2 = Some (Ok s, d2)
           else ∃ e, apply_agent_action_once m2 now2 d2 = Some (Err e, d2))
        ∧ (∀ env source (input : NodeExecutionInput (V := V)) clock latency elapsed,
             (in_run_id input, in_node_id input) = receipt_key m →
             ∃ out, execute_node env source input clock latency elapsed d2 = Some (Ok out, d2))
    end.
Proof.
  destruct (action_returns m now d) as [[r d'] H]. exists r, d'. split; [done|].
  apply action_inv in H as [(e & -> & ->)|(s & row & -> & _ & Hrow & Ea & Es & <- & _)]; [done|].
  intros runs d2 H2%steps_evolve. assert (Hr : agent_action_receipts d2 !! receipt_key m = Some row).
  { by apply (ev_receipts _ _ _ H2). }
  split.
  - intros m2 now2 Ek Hv.
    assert (E : apply_agent_action_once m2 now2 d2
      = Some (found <-? existing_receipt m2 d2 ;; ok_or found "failed to claim agent action receipt", d2)).
    { unfold apply_agent_action_once, andthen, given, select. rewrite Hv, Ek, Hr. cbn.
      by destruct (existing_receipt m2 d2). }
    rewrite E. unfold existing_receipt, verify_existing_receipt. rewrite Ek, Hr, Ea, Es.
    destruct (decide (_ ∧ _)) as [[-> ->]|Hne]; [by rewrite !bool_decide_true|].
    case_bool_decide as E1; cbn; [|by eexists]. case_bool_decide as E2; cbn; [|by eexists].
    by destruct Hne.
  - intros env source input clock latency elapsed Ek. rewrite <-Ek in Hr. by eapply node_replays.
Qed.

(** ** The system *)

(** C4: The system keeps to the tree store.  Schedulers, operators and batches of graph
    mutations, the mailbox and the proposals, and agents whose actions are prepared from
    one state and applied to a later one, in any interleaving: every history is a
    history of the tree store's own operations, so that all that holds of stored trees
    holds under them.  And the whole step of an agent is such a history. *)
Theorem system_refines_store `{RE : Regex} {V : Type} `{EV : EqDecision V} `{JV : JsonValue V} `{JT : JsonText V}
    `{JN : JsonNumbers V} `{SD : StoreDecoders V} `{Deps : RecursiveDeps} `{TE : TreeEncoder}
    `{RO : RowOrder} `{TO : TableOrder} `{AC : ActionCodec} `{HO : HashOrder} contract allowed (s s' : system (V := V)) :
  (∀ t s, tree_to_string t = Ok s → tree_from_str s = Ok t) →
  reachable_store (ad_db (sy_db s)) → sy_prepared s = [] → rtc (system_step contract allowed) s s' →
  rtc store_step (ad_db (sy_db s)) (ad_db (sy_db s')) ∧ reachable_store (ad_db (sy_db s'))
  ∧ ∀ env source input clock latency elapsed,
      small (V := V) (in_run_id input) (ad_db (sy_db s')) →
      ∃ out d' ms, execute_node env source input clock latency elapsed (sy_db s') = Some (Ok out, d')
        ∧ rtc (system_step contract allowed) s (mkSystem d' ms).
Proof.
  intros Hrt Hreach Hp H. pose proof (reachable_store_ok _ Hrt Hreach) as Hok.
  destruct (system_agents contract allowed Hrt _ _ H) as [Hs [Hok' _]];
    [split; [done|rewrite Hp; by intros ?? ?%not_elem_of_nil]|].
  apply agents_history in Hs. split; [done|]. split.
  { destruct Hreach as (db0 & E0 & Hr0). exists db0. split; [done|]. by etrans. }
  intros env source input clock latency elapsed Hsm.
  destruct (node_returns env source input clock latency elapsed (sy_db s')) as [[r d'] E]; [by apply keyed_stored|].
  destruct (node_inv _ _ _ _ _ _ _ _ _ E) as [Hr _]. destruct r as [out|]; [|done].
  destruct (node_path contract allowed _ _ _ _ _ _ _ _ _ (sy_prepared s') E Hsm) as [ms Hms].
  exists out, d', ms. split; [done|]. etrans; [exact H|]. by destruct s'.
Qed.

Lemma lost_tree : is_some (recursive_execution_trees (ad_db lost_db) !! "run-1") = true.
Proof. by vm_compute. Qed.

Lemma system_refines_store_witness :
  rtc store_step (ad_db start) (ad_db lost_db) ∧ reachable_store (ad_db lost_db)
  ∧ ∃ row, recursive_execution_trees (ad_db lost_db) !! "run-1" = Some row.
Proof.
  destruct (system_refines_store (λ _, None) (λ _, True) at_start at_end agents_roundtrip start_reachable eq_refl
    demo_history) as (H1 & H2 & _).
  exact (conj H1 (conj H2 (is_some_get _ lost_tree))).
Defined.

(** C12: The graphs of runs stay sound under all of that.  From databases in which every
    run's edges join nodes of the run and have no cycle, and rows agree with their own
    text, every history leads to such databases, children that agents add included. *)
Theorem graphs_stay_sound `{RE : Regex} {V : Type} `{EV : EqDecision V} `{JV : JsonValue V} `{JT : JsonText V}
    `{JN : JsonNumbers V} `{SD : StoreDecoders V} `{Deps : RecursiveDeps} `{TE : TreeEncoder}
    `{RO : RowOrder} `{TO : TableOrder} `{AC : ActionCodec} `{HO : HashOrder} contract allowed (s s' : system (V := V)) :
  (∀ t s, tree_to_string t = Ok s → tree_from_str s = Ok t) →
  (∀ m : gmap string V, as_object (json_object m) = Some m) → (∀ v : V, json_parse (json_print v) = Some v) →
  (∀ s, as_str (json_string (V := V) s) = Some s) →
  reachable_store (ad_db (sy_db s)) → sy_prepared s = [] → rtc (system_step contract allowed) s s' →
  (∀ run, stored_ok (V := V) run (ad_db (sy_db s)) ∧ graph_ok run (ad_db (sy_db s))) →
  ∀ run, stored_ok (V := V) run (ad_db (sy_db s')) ∧ graph_ok run (ad_db (sy_db s')).
Proof.
  intros Hrt Hobj Hpp Hstr Hreach Hp H. pose proof (reachable_store_ok _ Hrt Hreach) as Hok.
  destruct (system_agents contract allowed Hrt _ _ H) as [Hs _];
    [split; [done|rewrite Hp; by intros ?? ?%not_elem_of_nil]|].
  change (graphs_kept (V := V) (sy_db s) (sy_db s')). clear H Hreach Hok Hp.
  induction Hs as [|d1 d2 d3 H1 _ IH]; [done|]. etrans; [|exact IH].
  eapply step_graphs; [done| |exact H1]. intros db db'. by apply run_step_sound.
Qed.

Lemma start_nodes k row :
  workflow_run_nodes (ad_db start) !! k = Some row → k = ("run-1", "root") ∧ wn_node_json row = json_print metadata.
Proof.
  unfold start, empty_store. cbn [ad_db workflow_run_nodes]. by intros [<- <-]%lookup_singleton_Some.
Qed.
Lemma start_edges k : workflow_run_edges (ad_db start) !! k = None.
Proof. apply lookup_empty. Qed.

Lemma start_graphs run : stored_ok (V := json) run (ad_db start) ∧ graph_ok run (ad_db start).
Proof.
  assert (Hnone : ∀ x y, ¬ run_edge run (ad_db start) x y).
  { intros x y (eid & e & He & _). by rewrite start_edges in He. }
  split; split.
  - intros id row Hr. apply start_nodes in Hr as [[= -> ->] E]. eexists _, _. rewrite E, parse_print. split; [done|]. split; [reflexivity|]. by vm_compute.
  - intros eid e He. by rewrite start_edges in He.
  - by intros x y ?%Hnone.
  - intros [x Hx]. by inversion Hx as [?? H|??? H]; apply Hnone in H.
Qed.

Lemma lost_edge : is_some (workflow_run_edges (ad_db lost_db) !! ("run-1", "recursive-edge-" +:+ child)) = true.
Proof. by vm_compute. Qed.

Lemma graphs_stay_sound_witness :
  stored_ok (V := json) "run-1" (ad_db lost_db) ∧ graph_ok "run-1" (ad_db lost_db)
  ∧ ∃ e, workflow_run_edges (ad_db lost_db) !! ("run-1", "recursive-edge-" +:+ child) = Some e.
Proof.
  destruct (graphs_stay_sound (λ _, None) (λ _, True) at_start at_end agents_roundtrip object_of_fields parse_print
    (λ _, eq_refl) start_reachable eq_refl demo_history start_graphs "run-1") as [H1 H2].
  exact (conj H1 (conj H2 (is_some_get _ lost_edge))).
Defined.

(** C23: Records are kept.  Whatever agents, operators and schedulers do, a receipt is
    never changed.  A proposal keeps its ids, parties, type, objective and time of
    creation ([proposal_identity]), and once it is decided its status; its context
    summary and the time of its last update are not covered, since
    [update_proposal_context_summary] rewrites them at any time.  A message keeps
    everything but its status and the times at which it was read and acknowledged:
    the status only moves on from pending to read to acknowledged or replied, and the
    two times are not overwritten. *)
Theorem records_kept `{RE : Regex} {V : Type} `{EV : EqDecision V} `{JV : JsonValue V} `{JT : JsonText V}
    `{JN : JsonNumbers V} `{SD : StoreDecoders V} `{Deps : RecursiveDeps} `{TE : TreeEncoder}
    `{TO : TableOrder} `{HO : HashOrder} runs d d' :
  rtc (agent_step (V := V) runs) d d' →
  (∀ k receipt, agent_action_receipts d !! k = Some receipt → agent_action_receipts d' !! k = Some receipt)
  ∧ (∀ p row, agent_proposals d !! p = Some row →
       ∃ row', agent_proposals d' !! p = Some row' ∧ proposal_identity row' = proposal_identity row
         ∧ (pr_status row ≠ "pending" → pr_status row' = pr_status row))
  ∧ (∀ i row, agent_mailbox d !! i = Some row →
       ∃ row', agent_mailbox d' !! i = Some row' ∧ mail_identity row' = mail_identity row
         ∧ (mail_rank (mb_status row) ≤ mail_rank (mb_status row'))%nat
         ∧ ((1 ≤ mail_rank (mb_status row))%nat → mb_read_at row' = mb_read_at row)
         ∧ ((2 ≤ mail_rank (mb_status row))%nat → mb_ack_at row' = mb_ack_at row)).
Proof.
  intros [R _ P M]%steps_evolve. split_and!.
  - intros k receipt. by apply R.
  - intros p row (row' & ? & [])%P. eauto.
  - intros i row (row' & ? & [])%M. eauto 10.
Qed.

(** An operator tries to cancel the proposal that was accepted. *)
Definition cancelled_db : agent_db :=
  left_by (update_proposal_status (V := json) (child_proposal_id early_task) "cancelled" "t9") landed_db.

Lemma cancelled_step : rtc (agent_step (V := json) (λ _ _, False)) landed_db cancelled_db.
Proof.
  assert (H : is_some (update_proposal_status (V := json) (child_proposal_id early_task) "cancelled" "t9" landed_db)
    = true) by by vm_compute.
  apply left_by_ran in H. exact (rtc_once _ _ (as_runtime _ _ _ (rs_decide _ _ _ _ _ _ H))).
Qed.

Lemma landed_proposal :
  ∃ row, agent_proposals landed_db !! child_proposal_id early_task = Some row ∧ pr_status row = "accepted".
Proof.
  assert (H : pr_status <$> agent_proposals landed_db !! child_proposal_id early_task = Some "accepted") by by vm_compute.
  apply fmap_Some in H as (row & Hr & E). exact (ex_intro _ row (conj Hr (eq_sym E))).
Qed.

Lemma records_kept_witness :
  ∃ row, agent_proposals cancelled_db !! child_proposal_id early_task = Some row ∧ pr_status row = "accepted".
Proof.
  destruct landed_proposal as (row & Hr & Ea). destruct (records_kept _ _ _ cancelled_step) as (_ & H & _).
  destruct (H _ _ Hr) as (row' & Hr' & _ & Hst). exists row'. split; [exact Hr'|].
  rewrite Ea in Hst. apply Hst. discriminate.
Defined.

(** ** Authority *)

(** C11: An agent that works on a node of a tree below its root keeps to the authority of
    that node.  If its step commits an action, the action is one the node's capabilities
    grant, whatever the profile of the agent says; it is no handoff; and the node's
    capabilities are among those the root of the stored tree was given. *)
Theorem step_authorized `{RE : Regex} {V : Type} `{EV : EqDecision V} `{JV : JsonValue V} `{JT : JsonText V}
    `{JN : JsonNumbers V} `{SD : StoreDecoders V} `{Deps : RecursiveDeps} `{TE : TreeEncoder}
    `{RO : RowOrder} `{TO : TableOrder} `{AC : ActionCodec} `{HO : HashOrder}
    env source (input : NodeExecutionInput (V := V)) clock latency elapsed d r d' tree node receipt :
  as_bool (json_bool (V := V) true) = Some true →
  (∀ t s, tree_to_string t = Ok s → tree_from_str s = Ok t) →
  reachable_store (ad_db d) → load_recursive_tree (in_run_id input) (ad_db d) = Ok (Some tree) →
  nodes tree !! in_node_id input = Some node → in_node_id input ≠ root_node_id tree →
  execute_node env source input clock latency elapsed d = Some (r, d') →
  agent_action_receipts d !! (in_run_id input, in_node_id input) = None →
  agent_action_receipts d' !! (in_run_id input, in_node_id input) = Some receipt →
  ∃ action, rc_action_sha256 receipt = action_sha256 action ∧ granted action (n_capabilities node)
    ∧ n_capabilities node ⊆ root_capabilities tree.
Proof.
  intros Hb Hrt Hreach Hl Hn Hne H Hnone Hsome.
  apply node_inv in H as [_ [(log & ->)%audits_log|(call & action & d1 & x & d2 & Ht & H1 & Hx & H2)]];
    [cbn in Hsome; congruence|]. exists action. split_and!.
  - apply audits_log in H1 as (log1 & ->), H2 as (log2 & ->). cbn in Hsome. unfold execute_action in Hx.
    destruct (action_mutation env call action _) as [[m|e]|] eqn:Em; [| |done];
      [|injection Hx as _ <-; cbn in Hsome; congruence].
    apply mutation_inv in Em as (m0 & Hp & (_ & Ek & _ & Es)%with_usage_operations).
    apply prepared_identity in Hp as (Ek0 & _ & Es0). rewrite Ek0, (tk_run _ _ _ _ _ _ _ Ht),
      (tk_node _ _ _ _ _ _ _ Ht) in Ek.
    apply action_inv in Hx as [(e & _ & ->)|(s & row & _ & _ & Hrow & _ & Esha & _)]; [cbn in Hsome; congruence|].
    rewrite Ek in Hrow. congruence.
  - pose proof (tk_state _ _ _ _ _ _ _ Ht) as Hs. unfold step_state in Hs.
    destruct (agent_state d !! _) as [row|]; [|done]. cbn [ok_or] in Hs.
    eapply effective_inv in Hs; [|done..]. eapply scoped_granted; [done| |exact (tk_valid _ _ _ _ _ _ _ Ht)].
    cbn. by rewrite Hs.
  - pose proof (reachable_store_ok _ Hrt Hreach) as Hok.
    apply load_stored in Hl; [|done]. apply stored_Some in Hl as (row & _ & Hr); [|done].
    pose proof (validate_accepted _ _ (rk_valid _ _ _ Hr)) as Hac. pose proof (rk_keyed _ _ _ Hr) as Hk.
    destruct (Hk _ _ Hn) as [_ Hd].
    by destruct (accepted_authority tree (Z.to_nat (n_depth node)) _ node Hac Hk Hn) as (? & _); [lia|].
Qed.

(** The child of the demonstration takes a note. *)
Lemma root_ran : root_step start = Some (returned root_step start, delegated).
Proof. unfold delegated. refine (left_by_ran root_step start _). by vm_compute. Qed.

Lemma delegated_reachable : reachable_store (ad_db delegated).
Proof.
  destruct (node_path (λ _, None) (λ _, True) _ _ _ _ _ _ _ _ _ [] root_ran start_small) as [ms H].
  destruct (system_agents (λ _, None) (λ _, True) agents_roundtrip _ _ H) as [Ha _];
    [split; [exact start_ok|by intros ?? ?%not_elem_of_nil]|].
  apply agents_history in Ha. exact (ex_intro _ (ad_db start) (conj eq_refl Ha)).
Qed.

Lemma child_ran :
  execute_node env (FixtureSource (λ _, Ok (EmitNote "done"))) child_input clock 5 7 delegated
  = Some (returned child_step delegated, noted_db).
Proof. fold child_step. unfold noted_db. refine (left_by_ran child_step delegated _). by vm_compute. Qed.
Lemma true_value : as_bool (json_bool (V := json) true) = Some true.
Proof. done. Qed.
Lemma child_there : is_some (nodes first !! in_node_id child_input) = true.
Proof. by vm_compute. Qed.
Lemma child_below : in_node_id child_input ≠ root_node_id first.
Proof. apply (bool_decide_unpack _). by vm_compute. Qed.
Lemma child_fresh : agent_action_receipts delegated !! (in_run_id child_input, in_node_id child_input) = None.
Proof. by vm_compute. Qed.
Lemma child_receipt :
  is_some (agent_action_receipts noted_db !! (in_run_id child_input, in_node_id child_input)) = true.
Proof. by vm_compute. Qed.
Lemma delegated_tree : load_recursive_tree (V := json) (in_run_id child_input) (ad_db delegated) = Ok (Some first).
Proof. by vm_compute. Qed.

Lemma step_authorized_witness :
  ∃ node action, nodes first !! in_node_id child_input = Some node ∧ granted action (n_capabilities node)
    ∧ n_capabilities node ⊆ root_capabilities first.
Proof.
  destruct (is_some_get _ child_there) as [node En]. destruct (is_some_get _ child_receipt) as [receipt Er].
  destruct (step_authorized (V := json) env (FixtureSource (λ _, Ok (EmitNote "done"))) child_input clock 5 7 delegated
    (returned child_step delegated) noted_db first node receipt true_value agents_roundtrip delegated_reachable
    delegated_tree En child_below child_ran child_fresh Er) as (action & _ & Hg & Hc).
  exact (ex_intro _ node (ex_intro _ action (conj En (conj Hg Hc)))).
Defined.

(** C34: The actions an agent is offered are exactly those that are carried out for it:
    an action's type is listed for a state if and only if the capabilities of that state
    authorise the action, but for actions that are not supported at all. *)
Theorem offered_types_exact {V : Type} `{JV : JsonValue V} action (state : AgentState V) :
  action_type action ∈ allowed_agent_action_types state
  ↔ action_authorized_by_capabilities action state = true ∧ ∀ name, action ≠ Unsupported name.
Proof.
  unfold allowed_agent_action_types. rewrite list_elem_of_filter.
  destruct action; cbn [action_type]; (split; [intros [Ha Hin]|intros [Ha Hne]]);
    try (split; [exact Ha|first [done | by apply (bool_decide_unpack _); vm_compute]]);
    first [by apply (bool_decide_pack _) in Hin; vm_compute in Hin | by edestruct Hne].
Qed.

(** ** Children *)

(** C24: What an agent writes about a child is what the others check.  If a proposal is
    admitted, the workflow node and edge that the agent prepares pass the checks with
    which the store takes a child into the run; and when the child's own step runs with
    that node's fields, the executor takes it for the node of the tree and gives it
    exactly the authority that the tree gives the node. *)
Theorem child_payload_accepted `{RE : Regex} {V : Type} `{EV : EqDecision V} `{JV : JsonValue V} `{JT : JsonText V}
    `{JN : JsonNumbers V} `{SD : StoreDecoders V} `{Deps : RecursiveDeps} `{TE : TreeEncoder}
    `{RO : RowOrder} `{TO : TableOrder} `{AC : ActionCodec}
    env (call : action_call (V := V)) action proposal pid db outcome child :
  (∀ m : gmap string V, as_object (json_object m) = Some m) →
  (∀ s, as_str (json_string (V := V) s) = Some s) → as_i64 (json_int (V := V) 0) = Some 0 →
  store_ok db → propose_recursively env call action proposal pid db = Some (Ok outcome) →
  co_node_id outcome = Some child →
  ∃ t n node edge, co_tree outcome = Some t ∧ nodes t !! child = Some n
    ∧ co_workflow outcome = Some (node, edge)
    ∧ validate_recursive_workflow_payload t node edge (ac_agent_id call) = Ok tt
    ∧ ∀ input state, in_node_id input = child → in_workflow_id input = workflow_id t →
        (∀ key, key ∈ ["recursive_capabilities"; "recursive_scope"; "recursive_tenant_id";
                       "recursive_workspace_id"] →
           json_get (in_node_metadata input) key = json_get node key) →
        effective_child_state input state child (Some t)
        = Ok (scoped_state state (n_capabilities n) (n_scope n) (option_value (n_tenant_id n))
                (option_value (n_workspace_id n)) "recursive_child_authority").
Proof.
  intros Hobj Hstr Hz Hok Hp Hc.
  destruct (propose_outcome _ _ _ _ _ _ _ _ Hp Hok Hc) as (t & n & Ht & <- & Hch & _ & Hw & _).
  eexists t, n, _, _. split_and!; [done|apply Hch|exact Hw|by apply payload_valid|].
  intros input state Ei Ew Em. by eapply payload_effective; [|apply Hch|..].
Qed.

Definition early_outcome : child_outcome :=
  match propose_recursively env (call_of "root") (ProposeChildTask early_task) early_task
    (child_proposal_id early_task) (ad_db start) with
  | Some (Ok outcome) => outcome
  | _ => mkChildOutcome None None None None None
  end.
Lemma early_proposed :
  propose_recursively env (call_of "root") (ProposeChildTask early_task) early_task
    (child_proposal_id early_task) (ad_db start) = Some (Ok early_outcome) ∧ co_node_id early_outcome = Some child.
Proof.
  assert (H : (match propose_recursively env (call_of "root") (ProposeChildTask early_task) early_task
    (child_proposal_id early_task) (ad_db start) with Some (Ok _) => true | _ => false end) = true) by by vm_compute.
  split; [|by vm_compute]. unfold early_outcome. destruct (propose_recursively _ _ _ _ _ _) as [[]|];
    [reflexivity|discriminate H|discriminate H].
Qed.

Lemma child_payload_accepted_witness :
  ∃ t node edge, co_tree early_outcome = Some t ∧ co_workflow early_outcome = Some (node, edge)
    ∧ validate_recursive_workflow_payload t node edge "agent" = Ok tt.
Proof.
  destruct (child_payload_accepted env (call_of "root") (ProposeChildTask early_task) early_task
    (child_proposal_id early_task) (ad_db start) early_outcome child object_of_fields (λ _, eq_refl) eq_refl start_ok
    (proj1 early_proposed) (proj2 early_proposed)) as (t & n & node & edge & H1 & _ & H2 & H3 & _).
  exact (ex_intro _ t (ex_intro _ node (ex_intro _ edge (conj H1 (conj H2 H3))))).
Defined.

(** C9: An admitted child lands everywhere at once.  An agent prepared the action of an
    admitted proposal from some state, and the action is carried out in a later one in
    which the tree can still be saved.  Then the stored tree is the one with the child,
    the proposal is accepted, and the run has a new pending node for the child and a
    new edge to it from the parent's node, which was there. *)
Theorem admitted_child_lands `{RE : Regex} {V : Type} `{EV : EqDecision V} `{JV : JsonValue V} `{JT : JsonText V}
    `{JN : JsonNumbers V} `{SD : StoreDecoders V} `{Deps : RecursiveDeps} `{TE : TreeEncoder}
    `{RO : RowOrder} `{TO : TableOrder} `{AC : ActionCodec} `{HO : HashOrder}
    env (call : action_call (V := V)) proposal d0 m t v n now d s d' db1 :
  (∀ m : gmap string V, as_object (json_object m) = Some m) →
  (∀ s, as_str (json_string (V := V) s) = Some s) →
  (∀ t s, tree_to_string t = Ok s → tree_from_str s = Ok t) →
  store_ok (ad_db d0) → admits env call proposal d0 m t v n →
  persist_recursive_tree t now (Some v) (ad_db d) = Some (Ok tt, db1) →
  agent_action_receipts d !! receipt_key m = None →
  apply_agent_action_once m now d = Some (Ok s, d') →
  let run := am_run_id m in let parent := cp_parent_node_id proposal in
  s = am_result_json m ∧ stored (ad_db d') run = Some t
  ∧ n_parent_node_id n = Some parent ∧ n_proposal_id n = Some (child_proposal_id proposal)
  ∧ proposal_status run (child_proposal_id proposal) d' = Some "accepted"
  ∧ workflow_run_nodes (ad_db d) !! (run, n_node_id n) = None
  ∧ is_Some (workflow_run_nodes (ad_db d) !! (run, parent))
  ∧ (∃ row, wn_status row = "pending" ∧ wn_task_type row = "agent_step"
       ∧ workflow_run_nodes (ad_db d') = <[(run, n_node_id n) := row]> (workflow_run_nodes (ad_db d)))
  ∧ ∃ eid row, we_from_node_id row = parent ∧ we_to_node_id row = n_node_id n
      ∧ workflow_run_edges (ad_db d) !! (run, eid) = None
      ∧ workflow_run_edges (ad_db d') = <[(run, eid) := row]> (workflow_run_edges (ad_db d)).
Proof.
  intros Hobj Hstr Hrt Hok Had Hper Hnew Happ run parent.
  apply admits_inv in Had as (Hch & Hrun & _ & audits & Haud & Eops); [|done].
  apply action_inv in Happ as [(? & [=] & _)|(s' & row & [= <-] & _ & Hrow & _ & _ & _ & [-> |[_ Hcm]])];
    [congruence|].
  eapply (child_lands _ _ _ _ _ _ _ _ _ _ _ _ _ _ _ _ _ _ _ (n_node_id n) parent) in Hcm
    as (Es & Est & Hps & [J1 J2 J3 (eid & row' & J4 & J5 & J6 & J7 & J8)]);
    [|exact Hrt|exact Eops|exact Haud|by apply object_get_str..|apply Hch|exact Hper].
  rewrite Hrun in Est. split_and!; try done; [apply Hch|apply Hch| |by exists eid, row'].
  exists (node_row_of (child_node_value call proposal (child_proposal_id proposal) n)).
  split_and!; [| |done]; unfold node_row_of, child_node_value; cbn [wn_status wn_task_type];
    by erewrite object_get_str by done.
Qed.

Lemma early_tree : co_tree early_outcome = Some first.
Proof. by vm_compute. Qed.
Lemma early_version : co_expected_version early_outcome = Some 0.
Proof. by vm_compute. Qed.
Lemma early_admits : ∃ n, admits env (call_of "root") early_task start early_mutation first 0 n.
Proof.
  assert (H : n_node_id <$> nodes first !! child = Some child) by by vm_compute.
  apply fmap_Some in H as (n & En & Ec). exists n. split; [exact early_prepared|]. exists early_outcome.
  rewrite <-Ec. exact (conj (proj1 early_proposed) (conj (proj2 early_proposed) (conj early_tree (conj early_version En)))).
Qed.
Lemma early_saved : persist_recursive_tree first "t8" (Some 0) (ad_db start)
  = Some (Ok tt, after (persist_recursive_tree first "t8" (Some 0)) (ad_db start)).
Proof. apply stored_ran. by vm_compute. Qed.

Lemma admitted_child_lands_witness :
  stored (ad_db landed_db) "run-1" = Some first
  ∧ proposal_status "run-1" (child_proposal_id early_task) landed_db = Some "accepted".
Proof.
  destruct early_admits as [n Had].
  destruct (admitted_child_lands env (call_of "root") early_task start early_mutation first 0 n "t8" start
    early_result landed_db _ object_of_fields (λ _, eq_refl) agents_roundtrip start_ok Had early_saved eq_refl
    early_applied) as (_ & H1 & _ & _ & H2 & _).
  exact (conj H1 H2).
Defined.

(** C10: A race that is lost leaves no child.  An agent prepared the action of an admitted
    proposal, but when it is carried out the stored tree has moved on and does not have
    the proposal.  Then the proposal is rejected, the result that is kept for the step
    says so with the reason [stale_parent], and the run has no new node, edge or event. *)
Theorem lost_race_rejected `{RE : Regex} {V : Type} `{EV : EqDecision V} `{JV : JsonValue V} `{JT : JsonText V}
    `{JN : JsonNumbers V} `{SD : StoreDecoders V} `{Deps : RecursiveDeps} `{TE : TreeEncoder}
    `{RO : RowOrder} `{TO : TableOrder} `{AC : ActionCodec} `{HO : HashOrder}
    env (call : action_call (V := V)) proposal d0 m t v n now d s d' current :
  (∀ m : gmap string V, as_object (json_object m) = Some m) →
  (∀ s, as_str (json_string (V := V) s) = Some s) →
  store_ok (ad_db d0) → admits env call proposal d0 m t v n →
  check_expected (am_run_id m) v (ad_db d) = Err "stale_parent" →
  load_recursive_tree (am_run_id m) (ad_db d) = Ok (Some current) →
  (child_proposal_id proposal ∉ accepted_proposals current) →
  agent_action_receipts d !! receipt_key m = None →
  apply_agent_action_once m now d = Some (Ok s, d') →
  recursive_rejection_result_json m "stale_parent" = Ok s
  ∧ (∃ row, agent_proposals d' !! child_proposal_id proposal = Some row ∧ pr_status row = "rejected")
  ∧ same_workflow (ad_db d) (ad_db d').
Proof.
  intros Hobj Hstr Hok Had Hc Hl Hp Hnew Happ.
  apply admits_inv in Had as (Hch & Hrun & _ & audits & Haud & Eops); [|done]. rewrite <-Hrun in Hc, Hl.
  apply action_inv in Happ as [(? & [=] & _)|(s' & row & [= <-] & _ & Hrow & _ & _ & _ & [-> |[_ Hcm]])];
    [congruence|].
  eapply race_lost; [exact Eops|exact Haud|by apply object_get_str|exact Hc|exact Hl|apply Hch|exact Hp|exact Hcm].
Qed.

Definition late_child : string :=
  derived_node_id "run-1" late (objective_fingerprint "List the open questions").

Lemma proposed_inv (r : option (Prelude.result string (child_outcome (V := json)))) id t v :
  match r with
  | Some (Ok o) => Some (co_node_id o, co_tree o, co_expected_version o)
  | _ => None
  end = Some (Some id, Some t, Some v) →
  ∃ o, r = Some (Ok o) ∧ co_node_id o = Some id ∧ co_tree o = Some t ∧ co_expected_version o = Some v.
Proof. destruct r as [[o|]|]; [|done..]. intros [= ???]. by exists o. Qed.

Lemma late_admits : ∃ n, admits env (call_of "other") late_task start late_mutation second 0 n.
Proof.
  assert (H : n_node_id <$> nodes second !! late_child = Some late_child) by by vm_compute.
  apply fmap_Some in H as (n & En & Ec). exists n. split; [exact late_prepared|].
  rewrite <-Ec. destruct (proposed_inv (propose_recursively env (call_of "other") (ProposeChildTask late_task) late_task
      (child_proposal_id late_task) (ad_db start)) late_child second 0) as (o & E & E1 & E2 & E3);
    [by vm_compute|]. exact (ex_intro _ o (conj E (conj E1 (conj E2 (conj E3 En))))).
Qed.
Lemma late_stale : check_expected "run-1" 0 (ad_db landed_db) = Err "stale_parent".
Proof. by vm_compute. Qed.
Lemma landed_tree : load_recursive_tree (V := json) "run-1" (ad_db landed_db) = Ok (Some first).
Proof. by vm_compute. Qed.
Lemma late_unknown : child_proposal_id late_task ∉ accepted_proposals first.
Proof. apply (bool_decide_unpack _). by vm_compute. Qed.
Lemma late_fresh : agent_action_receipts landed_db !! receipt_key late_mutation = None.
Proof. by vm_compute. Qed.
Lemma late_run : am_run_id late_mutation = "run-1".
Proof. by vm_compute. Qed.

Lemma lost_race_rejected_witness :
  recursive_rejection_result_json late_mutation "stale_parent" = Ok late_result
  ∧ same_workflow (ad_db landed_db) (ad_db lost_db).
Proof.
  destruct late_admits as [n Had].
  destruct (lost_race_rejected env (call_of "other") late_task start late_mutation second 0 n "t9" landed_db
    late_result lost_db first object_of_fields (λ _, eq_refl) start_ok Had) as (H1 & _ & H2).
  - rewrite late_run. exact late_stale.
  - rewrite late_run. exact landed_tree.
  - exact late_unknown.
  - exact late_fresh.
  - exact late_applied.
  - exact (conj H1 H2).
Defined.
